(* ===== verification/_CoqProject ===== *)
-Q . S2P
Prelude.v
GoFloat.v
GoString.v
GoStrconv.v
GoEncoding.v
GoNetip.v
Packager.v
StreamBuckets.v
WriteQueue.v
Config.v
Dequeue.v
ReceiveQueue.v
Window.v
FlowControl.v
MuxCore.v
RateLimit.v
DomainIndex.v
HostRouting.v
Orders.v
Candidates.v
P2PPacket.v
ReplayWindow.v
Pacing.v
SessionPhase.v
Negotiation.v
Agreement.v
LoginPolicy.v
LRU.v
Pool.v
Authorization.v
ActionAccess.v
Quota.v
ConnLimit.v
Traffic.v
AccessRules.v
AccessPolicy.v
Routes.v
Idempotency.v
EventLog.v
StateWriter.v
CallbackQueue.v
EventHub.v
CallbackDelivery.v
BridgeClient.v
