(* ===== verification/Prelude.v ===== *)
(** A verification development for nps, a proxy that reaches services behind NAT.

    * The program

    A client ([client/], [cmd/npc]) behind NAT keeps a connection to a server
    ([bridge/], [server/], [cmd/nps]).  The server accepts public traffic, chooses the
    rule it belongs to, applies limits and sends it to the client through a
    multiplexer ([lib/mux]) that carries many streams on one connection.  Two clients
    can also talk directly: the peer-to-peer part ([lib/p2p]) probes address pairs
    through both NATs until the two ends have confirmed one.  Operators manage the
    server through a web interface ([web/]).  The modelled packages meet as follows: a
    request is routed by the host table ([lib/file], [lib/index]), charged by the
    limiter ([lib/rate]), written to a stream whose send window limits it, queued in the
    write queue, encoded as a frame, decoded at the other end, dispatched to its stream
    and put into that stream's receive queue.

    * Files and what they model

    Language and library:
    - [Prelude]: fixed-width integers, byte slices and readers, tactics, hints.
    - [GoFloat], [GoString], [GoEncoding], [GoNetip]: float64, package strings, hex,
      base64 and big-endian integers, IP addresses as text.
    - [Orders]: strict orders given by chains of comparisons.

    Multiplexer, [lib/mux]:
    - [Packager]: the frame codec ([netpackager.go]).
    - [StreamBuckets], [WriteQueue]: the write queue ([queue_stream_bucket.go],
      [queue.go]) on an explicit heap, with the list contract it implements.
    - [Config]: configuration and timers ([config.go], parts of [mux.go], [socket.go]).
    - [Dequeue], [ReceiveQueue]: the chain of rings ([queue_chain.go]) and the receive
      queue over it ([queue_receive_window.go]); the class [Fifo] is the interface.
    - [Window], [FlowControl]: the windows of a stream ([conn.go],
      [conn_send_window.go], [conn_receive_window.go], [budget.go]) and the protocol
      between the two ends.
    - [MuxCore]: streams, their ids and map, and dispatch ([mux.go], [conn.go],
      [mux_io.go]).

    Limits, routing and containers:
    - [RateLimit]: limiter and hierarchy ([lib/rate/rate.go], [limiter.go]).
    - [DomainIndex]: the trie of host names ([lib/index/host.go]).
    - [HostRouting]: the host table and the choice of rule and certificate
      ([lib/file/db_host.go]).
    - [LRU], [Pool]: [lib/cache/lru.go], [lib/pool/pool.go].
    - [LoginPolicy]: lockout of the web login ([web/service/login_policy.go]).

    Peer to peer, [lib/p2p]:
    - [Candidates]: address pairs, nomination, confirmation ([candidate.go]).
    - [P2PPacket], [ReplayWindow]: the packet codec ([wire_codec.go],
      [protocol_udp_packet.go]) and the table of packets already seen.
    - [Pacing]: timers and jitter ([punch_plan.go], [pacing.go]).
    - [SessionPhase]: the phase machine ([runtime_session.go]).
    - [Negotiation], [Agreement]: the goroutines of both ends ([runtime_session.go],
      [session_negotiation.go], [session_handshake_handlers.go], [handshake.go]) and
      the proof that they agree.

    * How code becomes definitions

    A machine integer is a [Z] with its wrap-around written out.  A pointer that is
    shared is an address into a store; elsewhere a struct is a record.  A Go map is a
    [gmap], and the order in which a loop walks it is an argument wherever it could
    matter.  Clock readings and random draws are arguments.  A panic is [None].  Code
    that holds a mutex is one step; where goroutines meet outside a mutex the steps are
    those of a relation, and the theorems are about every interleaving.  SHA-256 and
    AES-GCM are parameters with their documented properties as hypotheses.

    * What is shown

    - Frames: what is packed is unpacked, alone and in sequence, and whatever is
      unpacked was the encoding of a well-formed frame; every error of unpacking has
      one of two causes in the bytes.
    - Write queue: the heap operations implement lists, keep the order within a stream
      and serve every pending stream within a bound.
    - Streams: bytes arrive complete and in order; the rings are a FIFO; no wake-up of
      a reader is lost; a sender stays within the advertised window.  The cases where a
      reader spins or a writer stalls are theorems too.
    - Sessions: the stream map is consistent, ids are fresh, a frame touches only its
      stream, closing releases everything.  Two ends that open at once collide.
    - Limits: traffic granted in any window is bounded, the limiter is a token bucket,
      and a hierarchy charges every level.
    - Routing: the rule and the certificate chosen are the best, whatever the order of
      the maps; the trie answers by suffix and keeps no dead nodes.
    - Peer to peer: only nominated pairs are confirmed, once; the best is nominated;
      genuine packets are accepted and replays refused while the table has room;
      phases only advance; when the provider has confirmed a pair the visitor has
      confirmed the other end of the same path.
    - Containers and lockout: the cache is a list in order of use, the pool is a set,
      and the number of password guesses within the ban time is bounded.

    * Bounds and fuel

    [Dequeue.chain_pop_loop] visits each ring once, so the number of rings is enough,
    and the refinement theorem shows it.  [MuxCore.getId] takes the number of tries;
    one more than the open streams is enough, which the freshness theorem states.
    [GoNetip.ipv6_groups] reads at least two bytes a round of sixteen, so eight rounds
    are enough.  Hypotheses of the form [_ < 2 ^ 62] or [_ <= 2 ^ 63] bound durations,
    lengths or the number of calls where Go's integers would wrap.

    * What is not modelled

    Sockets, transports and TLS ([lib/conn], [lib/transport], [lib/crypt]), the
    operating system and log output, configuration files, the JSON database apart from
    the host table, and the servers, proxies, clients and web handlers that connect the
    modelled packages ([bridge/], [client/], [server/], [web/], [cmd/]).  Of [lib/mux],
    deadlines, the exchange of capabilities, the latency and bandwidth counters, the
    recycling of buffers and the release of a window at close are left out.  Of
    [lib/p2p], the prediction of ports and the choice of targets, port mapping and the
    hand-over after confirmation are left out.  The access rules of [lib/policy], the
    classification of [lib/pmux] and the SOCKS datagrams of [lib/common] are pure code
    that is not covered yet.

    * This file

    - [Module GoInt]: Go's fixed width integers.  A machine integer is a [Z];
      the conversions [u8], [u16], [u32], [u64], [i32], [i64] write out the
      wrap-around that Go's conversions and arithmetic perform.
    - [Module GoBytes]: byte slices as [list byte], the fixed-size stores
      [encoding/binary] performs, and [copy] into an array.
    - [Module GoIO]: [io.Reader] as the bytes still to come, [io.ReadFull].
    - generic list lemmas, the tactics and the hint database [nps]. *)

From Stdlib Require Export ZArith Lia.
From Stdlib Require Export Strings.Byte.
From stdpp Require Export base gmap strings numbers option list.

(** The development's hint database and its rewriting counterpart. *)
Create HintDb nps.

Declare Scope nps_scope.
Delimit Scope nps_scope with nps.

(** ** Tactics *)

(** Splits every boolean comparison that the goal or the context branches on
    and turns it into its arithmetic meaning. *)
Ltac zbool :=
  repeat match goal with
  | H : (_ && _)%bool = true |- _ => apply andb_true_iff in H; destruct H
  | H : (_ || _)%bool = false |- _ => apply orb_false_iff in H; destruct H
  | H : (_ && _)%bool = false |- _ => apply andb_false_iff in H; destruct H
  | H : (_ || _)%bool = true |- _ => apply orb_true_iff in H; destruct H
  | H : negb _ = true |- _ => apply negb_true_iff in H
  | H : negb _ = false |- _ => apply negb_false_iff in H
  | H : (_ =? _)%Z = true |- _ => apply Z.eqb_eq in H
  | H : (_ =? _)%Z = false |- _ => apply Z.eqb_neq in H
  | H : (_ <? _)%Z = true |- _ => apply Z.ltb_lt in H
  | H : (_ <? _)%Z = false |- _ => apply Z.ltb_ge in H
  | H : (_ <=? _)%Z = true |- _ => apply Z.leb_le in H
  | H : (_ <=? _)%Z = false |- _ => apply Z.leb_gt in H
  end.

(** Case analysis on the scrutinee of the outermost [if] of the goal. *)
Ltac if_case :=
  match goal with
  | |- context [if ?b then _ else _] => destruct b eqn:?; zbool
  end.

(** The same for a hypothesis. *)
Ltac if_case_in H :=
  match type of H with
  | context [if ?b then _ else _] => destruct b eqn:?; zbool
  end.

(** ** Machine integers *)
Module GoInt.
Local Open Scope Z_scope.

(** Unsigned and two's complement wrap-around at a width. *)
Definition wrap (w z : Z) : Z := z mod 2 ^ w.
Definition swrap (w z : Z) : Z := (z + 2 ^ (w - 1)) mod 2 ^ w - 2 ^ (w - 1).

Definition u8 := wrap 8.
Definition u16 := wrap 16.
Definition u32 := wrap 32.
Definition u64 := wrap 64.
Definition i32 := swrap 32.
Definition i64 := swrap 64.

Definition is_uint (w z : Z) : Prop := 0 <= z < 2 ^ w.
Definition is_sint (w z : Z) : Prop := - 2 ^ (w - 1) <= z < 2 ^ (w - 1).

Lemma wrap_range w z : 0 <= w -> is_uint w (wrap w z).
Proof. intros. unfold wrap, is_uint. apply Z.mod_pos_bound. lia. Qed.

Lemma wrap_small w z : is_uint w z -> wrap w z = z.
Proof. unfold wrap, is_uint. intros. apply Z.mod_small. lia. Qed.

Lemma pow2_split w : 1 <= w -> 2 ^ w = 2 * 2 ^ (w - 1).
Proof.
  intros. replace w with (Z.succ (w - 1)) at 1 by lia.
  rewrite Z.pow_succ_r by lia. reflexivity.
Qed.

Lemma swrap_small w z : 1 <= w -> is_sint w z -> swrap w z = z.
Proof.
  unfold swrap, is_sint. intros Hw H. rewrite Z.mod_small; [lia|].
  rewrite (pow2_split w Hw). lia.
Qed.

Lemma i64_small z : - 2 ^ 63 <= z < 2 ^ 63 -> i64 z = z.
Proof. intros H. apply swrap_small; [lia|exact H]. Qed.
Lemma i32_small z : - 2 ^ 31 <= z < 2 ^ 31 -> i32 z = z.
Proof. intros H. apply swrap_small; [lia|exact H]. Qed.

Lemma swrap_range w z : 1 <= w -> is_sint w (swrap w z).
Proof.
  unfold swrap, is_sint. intros Hw.
  pose proof (Z.mod_pos_bound (z + 2 ^ (w - 1)) (2 ^ w)) as B.
  pose proof (pow2_split w Hw). lia.
Qed.

(** Converting to an unsigned type and back is the identity on the signed
    range: Go's [int32(uint32(x)) == x]. *)
Lemma swrap_wrap w z : 1 <= w -> is_sint w z -> swrap w (wrap w z) = z.
Proof.
  intros Hw H. unfold swrap, wrap. rewrite Zplus_mod_idemp_l.
  fold (swrap w z). by apply swrap_small.
Qed.

Lemma wrap_opp_add w z d :
  0 <= w -> is_uint w z -> 0 <= d <= z -> wrap w (z + wrap w (- d)) = z - d.
Proof.
  intros Hw Hz Hd. unfold wrap. rewrite Zplus_mod_idemp_r.
  apply Z.mod_small. unfold is_uint in Hz. lia.
Qed.

(** A bit mask is a remainder, and an [or] of disjoint fields is a sum. *)
Lemma land_mask n z : 0 <= n -> Z.land z (Z.shiftl 1 n - 1) = z mod 2 ^ n.
Proof.
  intros Hn. rewrite <- (Z.land_ones z n Hn), Z.ones_equiv, Z.shiftl_mul_pow2 by lia.
  f_equal. lia.
Qed.

Lemma land_shiftl_small n h t : 0 <= n -> 0 <= t < 2 ^ n -> Z.land (Z.shiftl h n) t = 0.
Proof.
  intros Hn Ht. apply Z.bits_inj'. intros i Hi. rewrite Z.land_spec, Z.bits_0.
  destruct (Z.ltb_spec i n).
  - rewrite Z.shiftl_spec_low by lia. done.
  - rewrite andb_comm. replace (Z.testbit t i) with false; [done|]. symmetry.
    rewrite <- (Z.mod_small t (2 ^ n)) by lia. by apply Z.mod_pow2_bits_high.
Qed.

Lemma lor_shiftl_small n h t : 0 <= n -> 0 <= t < 2 ^ n -> Z.lor (Z.shiftl h n) t = h * 2 ^ n + t.
Proof.
  intros Hn Ht. rewrite <- Z.add_nocarry_lor by (by apply land_shiftl_small).
  by rewrite Z.shiftl_mul_pow2.
Qed.

Lemma shiftr_field n h t : 0 <= n -> 0 <= t < 2 ^ n -> Z.shiftr (h * 2 ^ n + t) n = h.
Proof.
  intros Hn Ht. rewrite Z.shiftr_div_pow2 by lia.
  rewrite Z.add_comm, Z.div_add by lia. rewrite Z.div_small; lia.
Qed.

Lemma mod_field n h t : 0 <= n -> 0 <= t < 2 ^ n -> (h * 2 ^ n + t) mod 2 ^ n = t.
Proof. intros Hn Ht. rewrite Z.add_comm, Z_mod_plus_full. by apply Z.mod_small. Qed.

(** Reducing at a larger power of two first changes nothing. *)
Lemma wrap_mod_pow2 w k z : 0 <= k <= w -> wrap w z mod 2 ^ k = z mod 2 ^ k.
Proof.
  intros Hk. unfold wrap. apply Z.mod_mod_divide.
  exists (2 ^ (w - k)). rewrite <- Z.pow_add_r by lia. f_equal. lia.
Qed.

(** Go's [^x] at a width, and the idiom [x + ^(d - 1)] for [x - d]. *)
Definition bnot (w z : Z) : Z := Z.lxor z (2 ^ w - 1).

Lemma bnot_val w z : 0 <= w -> is_uint w z -> bnot w z = 2 ^ w - 1 - z.
Proof.
  unfold is_uint, bnot. intros Hw Hz.
  assert (Ho : 2 ^ w - 1 = Z.ones w) by (rewrite Z.ones_equiv; lia). rewrite Ho.
  assert (Hhi : forall i, w <= i -> Z.testbit z i = false).
  { intros i Hi. rewrite <- (Z.mod_small z (2 ^ w)) by lia. apply Z.mod_pow2_bits_high. lia. }
  assert (Hs : Z.ones w - z = Z.ldiff (Z.ones w) z).
  { apply Z.sub_nocarry_ldiff, Z.bits_inj'. intros i Hi. rewrite Z.ldiff_spec, Z.bits_0.
    destruct (Z.ltb_spec i w); [rewrite Z.ones_spec_low by lia; by rewrite andb_comm|].
    by rewrite Hhi. }
  rewrite Hs. apply Z.bits_inj'. intros i Hi. rewrite Z.lxor_spec, Z.ldiff_spec.
  destruct (Z.ltb_spec i w).
  - rewrite Z.ones_spec_low by lia. by destruct (Z.testbit z i).
  - by rewrite Z.ones_spec_high, Hhi by lia.
Qed.

Lemma add_bnot_pred w z d : 0 <= w -> wrap w (z + bnot w (wrap w (d - 1))) = wrap w (z - d).
Proof.
  intros Hw. rewrite bnot_val by (auto using wrap_range). unfold wrap.
  replace (z + (2 ^ w - 1 - (d - 1) mod 2 ^ w)) with (z + - 1 - (d - 1) mod 2 ^ w + 1 * 2 ^ w) by lia.
  rewrite Z_mod_plus_full, Zminus_mod_idemp_r. f_equal. lia.
Qed.
End GoInt.
Export GoInt.

#[export] Hint Resolve wrap_range swrap_range : nps.

(** ** Bytes *)
Module GoBytes.
Local Open Scope Z_scope.

Definition Z_of_byte (b : byte) : Z := Z.of_N (Byte.to_N b).
Definition byte_of_Z (z : Z) : byte :=
  match Byte.of_N (Z.to_N (z mod 256)) with Some b => b | None => x00 end.

Lemma Z_of_byte_range b : 0 <= Z_of_byte b < 256.
Proof. unfold Z_of_byte. pose proof (Byte.to_N_bounded b). lia. Qed.

Lemma Z_of_byte_of_Z z : Z_of_byte (byte_of_Z z) = z mod 256.
Proof.
  unfold byte_of_Z, Z_of_byte.
  pose proof (Z.mod_pos_bound z 256 ltac:(lia)) as B.
  destruct (Byte.of_N _) as [b|] eqn:E.
  - apply Byte.to_of_N in E. rewrite E. lia.
  - apply Byte.of_N_None_iff in E. lia.
Qed.

Lemma byte_of_Z_of_byte b : byte_of_Z (Z_of_byte b) = b.
Proof.
  unfold byte_of_Z. rewrite Z.mod_small by apply Z_of_byte_range.
  unfold Z_of_byte. rewrite N2Z.id, Byte.of_to_N. reflexivity.
Qed.

(** [binary.LittleEndian.PutUintN] writes [n] bytes, [Uint] reads them. *)
Fixpoint le_put (n : nat) (z : Z) : list byte :=
  match n with
  | O => []
  | S n => byte_of_Z z :: le_put n (z / 256)
  end.

Fixpoint le_get (bs : list byte) : Z :=
  match bs with
  | [] => 0
  | b :: bs => Z_of_byte b + 256 * le_get bs
  end.

Lemma length_le_put n z : length (le_put n z) = n.
Proof. revert z; induction n; intros; simpl; [done|]. by rewrite IHn. Qed.

Lemma le_get_put n z : le_get (le_put n z) = z mod 256 ^ Z.of_nat n.
Proof.
  revert z; induction n as [|n IH]; intros z.
  - simpl. by rewrite Z.mod_1_r.
  - simpl le_put. simpl le_get. rewrite IH, Z_of_byte_of_Z.
    rewrite Nat2Z.inj_succ, Z.pow_succ_r by lia.
    rewrite Z.rem_mul_r; lia.
Qed.

Lemma le_get_range bs : 0 <= le_get bs < 256 ^ Z.of_nat (length bs).
Proof.
  induction bs as [|b bs IH]; simpl le_get.
  - simpl; lia.
  - cbn [length]. rewrite Nat2Z.inj_succ, Z.pow_succ_r by lia.
    pose proof (Z_of_byte_range b). lia.
Qed.

Lemma le_put_get bs : le_put (length bs) (le_get bs) = bs.
Proof.
  induction bs as [|b bs IH]; [done|]. cbn [length le_put le_get].
  pose proof (Z_of_byte_range b).
  replace (byte_of_Z (Z_of_byte b + 256 * le_get bs)) with b.
  - replace ((Z_of_byte b + 256 * le_get bs) / 256) with (le_get bs).
    + by rewrite IH.
    + rewrite Z.add_comm, Z.mul_comm, Z.div_add_l by lia.
      rewrite Z.div_small by lia. lia.
  - rewrite <- (byte_of_Z_of_byte b) at 1. unfold byte_of_Z.
    rewrite Z.mul_comm, Z.mod_add by lia. done.
Qed.

(** [copy(dst[off:], data)] when it fits: the array keeps its length. *)
Definition blit (dst : list byte) (off : nat) (data : list byte) : list byte :=
  take off dst ++ data ++ drop (off + length data) dst.

Lemma length_blit dst off data :
  (off + length data <= length dst)%nat -> length (blit dst off data) = length dst.
Proof.
  intros. unfold blit. rewrite !length_app, length_take, length_drop. lia.
Qed.

(** What was stored is read back. *)
Lemma blit_read dst off data :
  (off + length data <= length dst)%nat ->
  take (length data) (drop off (blit dst off data)) = data.
Proof.
  intros. unfold blit. rewrite drop_app_length' by (rewrite length_take; lia).
  by rewrite take_app_length.
Qed.

(** A store at or past [n] does not change the first [n] bytes. *)
Lemma blit_take dst off data n :
  (n <= off)%nat -> (off <= length dst)%nat ->
  take n (blit dst off data) = take n dst.
Proof.
  intros. unfold blit. rewrite take_app_le by (rewrite length_take; lia).
  rewrite take_take. f_equal. lia.
Qed.

(** The prefix up to the end of a store. *)
Lemma blit_take_end dst off data :
  (off <= length dst)%nat ->
  take (off + length data) (blit dst off data) = take off dst ++ data.
Proof.
  intros. unfold blit. rewrite app_assoc.
  rewrite take_app_length'; [done|]. rewrite length_app, length_take. lia.
Qed.
End GoBytes.
Export GoBytes.

(** ** Filters, sublists and suffixes *)
Module GoLists.
Lemma forall_sublist {A} (Q : A -> Prop) (l k : list A) : l `sublist_of` k -> Forall Q k -> Forall Q l.
Proof. intros H. induction H; intros Hk; [done|..]; apply Forall_cons in Hk as [? ?]; [constructor|]; auto. Qed.

Lemma filter_nothing {A} (Q : A -> Prop) `{forall x, Decision (Q x)} (l : list A) : (forall x, x ∈ l -> ~ Q x) -> filter Q l = [].
Proof. induction l as [|x l IH]; intros Hl; [done|]. rewrite filter_cons_False by (apply Hl; by left). apply IH. intros y Hy. apply Hl. by right. Qed.

Lemma filter_every {A} (Q : A -> Prop) `{forall x, Decision (Q x)} (l : list A) : Forall Q l -> filter Q l = l.
Proof. induction 1 as [|x l Hx Hl IH]; [done|]. by rewrite filter_cons_True, IH. Qed.

Lemma filter_same {A} (Q R : A -> Prop) `{forall x, Decision (Q x)} `{forall x, Decision (R x)} (l : list A) :
  (forall x, x ∈ l -> (Q x <-> R x)) -> filter Q l = filter R l.
Proof.
  induction l as [|x l IH]; intros Hl; [done|]. rewrite !filter_cons, IH by (intros y Hy; apply Hl; by right).
  pose proof (Hl x ltac:(by left)). repeat case_decide; tauto.
Qed.

Lemma filter_out {A} `{EqDecision A} (u : A) (l : list A) : u ∉ l -> filter (fun x => x <> u) l = l.
Proof. induction l as [|x l IH]; intros Hu; [done|]. rewrite filter_cons_True by set_solver. f_equal. apply IH. set_solver. Qed.

Lemma filter_mid {A} `{EqDecision A} (u : A) (a b : list A) : u ∉ a -> u ∉ b -> filter (fun x => x <> u) (a ++ u :: b) = a ++ b.
Proof. intros Ha Hb. rewrite filter_app, filter_cons_False by naive_solver. by rewrite !filter_out. Qed.

Lemma drop_cons {A} (l : list A) n x r : drop n l = x :: r -> l !! n = Some x /\ drop (S n) l = r.
Proof.
  intros E. assert (l !! n = Some x) as Hn. { rewrite <- (Nat.add_0_r n), <- lookup_drop, E. done. }
  split; [done|]. rewrite (drop_S l x n Hn) in E. by injection E.
Qed.

Lemma omap_all {A} (f : A -> option A) l : Forall (fun x => f x = Some x) l -> omap f l = l.
Proof. induction 1 as [|x l Hx Hl IH]; [done|]. cbn. rewrite Hx. by f_equal. Qed.
End GoLists.
Export GoLists.

(** ** Readers *)
Module GoIO.
(** The errors [io.ReadFull] reports at the end of the stream. *)
Inductive read_err := EOF | ErrUnexpectedEOF.

(** [io.ReadFull(r, buf)] with [len(buf) = n] on a reader whose remaining
    bytes are [s]: the bytes stored in [buf], the reader afterwards, and the
    error if fewer than [n] bytes were left. *)
Definition ReadFull (n : nat) (s : list byte) : list byte * list byte * option read_err :=
  if (n <=? length s)%nat then (take n s, drop n s, None)
  else match s with
       | [] => ([], [], Some EOF)
       | _ => (s, [], Some ErrUnexpectedEOF)
       end.

Lemma ReadFull_app n a b :
  length a = n -> ReadFull n (a ++ b) = (a, b, None).
Proof.
  intros <-. unfold ReadFull. rewrite length_app.
  destruct (Nat.leb_spec (length a) (length a + length b)); [|lia].
  by rewrite take_app_length, drop_app_length.
Qed.

Lemma ReadFull_ok n s d r :
  ReadFull n s = (d, r, None) -> s = d ++ r /\ length d = n.
Proof.
  unfold ReadFull. destruct (Nat.leb_spec n (length s)).
  - intros [= <- <-]. rewrite take_drop, length_take. split; [done|lia].
  - destruct s; discriminate.
Qed.

Lemma ReadFull_err n s d r e :
  ReadFull n s = (d, r, Some e) -> d = s /\ r = [] /\ (length s < n)%nat.
Proof.
  unfold ReadFull. destruct (Nat.leb_spec n (length s)); [discriminate|].
  destruct s; intros [= <- <- <-]; auto.
Qed.
End GoIO.
Export GoIO.
