(* ===== verification/GoFloat.v ===== *)
(** Go's [float64]: IEEE 754 binary64 as the Standard Library's [spec_float],
    with the conversions the multiplexer uses.

    A conversion of a float to an integer type truncates; when the result does
    not fit, the language leaves it to the implementation, so the conversions
    take that value as an argument. *)

From Stdlib Require Export Floats.SpecFloat.
From S2P Require Import Prelude.
Local Open Scope Z_scope.

Abbreviation float64 := spec_float.

Definition fadd : float64 -> float64 -> float64 := SFadd 53 1024.
Definition fmul : float64 -> float64 -> float64 := SFmul 53 1024.
Definition fdiv : float64 -> float64 -> float64 := SFdiv 53 1024.
Definition fltb (x y : float64) : bool := SFltb x y.
Definition fgtb (x y : float64) : bool := SFltb y x.
Definition fleb (x y : float64) : bool := SFleb x y.

(** [float64(n)] of an integer [n * 2^e], rounded to nearest even. *)
Definition float_of (n e : Z) : float64 := binary_normalize 53 1024 n e false.
Definition float_of_Z (n : Z) : float64 := float_of n 0.
Definition fzero : float64 := S754_zero false.

(** The integral part, toward zero. *)
Definition ftrunc (x : float64) : option Z :=
  match x with
  | S754_zero _ => Some 0
  | S754_finite s m e =>
    let a := if 0 <=? e then Z.pos m * 2 ^ e else Z.pos m / 2 ^ (- e) in
    Some (if s then - a else a)
  | _ => None
  end.

(** [math.Ceil]. *)
Definition fceil (x : float64) : float64 :=
  match x with
  | S754_finite s m e =>
    if 0 <=? e then x
    else
      let v := if s then - Z.pos m else Z.pos m in
      binary_normalize 53 1024 (- ((- v) / 2 ^ (- e))) 0 s
  | _ => x
  end.

Definition to_uint32 (other : float64 -> Z) (x : float64) : Z :=
  match ftrunc x with
  | Some z => if (0 <=? z) && (z <? 2 ^ 32) then z else u32 (other x)
  | None => u32 (other x)
  end.

Definition to_int64 (other : float64 -> Z) (x : float64) : Z :=
  match ftrunc x with
  | Some z => if (- 2 ^ 63 <=? z) && (z <? 2 ^ 63) then z else i64 (other x)
  | None => i64 (other x)
  end.

Lemma to_uint32_range other x : is_uint 32 (to_uint32 other x).
Proof.
  unfold to_uint32. destruct (ftrunc x) as [z|]; [|by apply wrap_range].
  if_case; solve [unfold is_uint; lia|by apply wrap_range].
Qed.

Lemma to_int64_range other x : is_sint 64 (to_int64 other x).
Proof.
  unfold to_int64. destruct (ftrunc x) as [z|]; [|by apply swrap_range].
  if_case; solve [unfold is_sint; lia|by apply swrap_range].
Qed.

#[export] Hint Resolve to_uint32_range to_int64_range : nps.
