(* ===== verification/GoString.v ===== *)
(** Go strings and the functions of package [strings] the program uses.

    A Go string is a sequence of bytes: Standard Library's [string].  [ToLower]
    and [TrimSpace] are modelled on ASCII; the program applies them to host
    names, protocol names and configuration words.  On other bytes they are the
    identity here, while Go would fold the case of Unicode letters. *)

From Stdlib Require Export Ascii.
From S2P Require Import Prelude.
Local Open Scope Z_scope.

Definition is_upper (c : ascii) : bool := let n := nat_of_ascii c in (65 <=? n)%nat && (n <=? 90)%nat.
Definition is_lower (c : ascii) : bool := let n := nat_of_ascii c in (97 <=? n)%nat && (n <=? 122)%nat.
Definition is_digit (c : ascii) : bool := let n := nat_of_ascii c in (48 <=? n)%nat && (n <=? 57)%nat.
Definition lower (c : ascii) : ascii :=
  if is_upper c then ascii_of_nat (nat_of_ascii c + 32) else c.

Fixpoint ToLower (s : string) : string :=
  match s with
  | EmptyString => EmptyString
  | String c s => String (lower c) (ToLower s)
  end.

(** Tab, newline, vertical tab, form feed, carriage return and space. *)
Definition is_space (c : ascii) : bool :=
  let n := nat_of_ascii c in ((9 <=? n)%nat && (n <=? 13)%nat) || (n =? 32)%nat.

Fixpoint trim_left (s : string) : string :=
  match s with
  | String c s' => if is_space c then trim_left s' else s
  | EmptyString => EmptyString
  end.

Fixpoint trim_right (s : string) : string :=
  match s with
  | EmptyString => EmptyString
  | String c s =>
    match trim_right s with
    | EmptyString => if is_space c then EmptyString else String c EmptyString
    | t => String c t
    end
  end.

Definition TrimSpace (s : string) : string := trim_right (trim_left s).

(** [strings.Split(s, sep)] for a one-byte separator. *)
Fixpoint split_on (sep : ascii) (s : string) : list string :=
  match s with
  | EmptyString => [EmptyString]
  | String c s =>
    if decide (c = sep) then EmptyString :: split_on sep s
    else match split_on sep s with
         | x :: xs => String c x :: xs
         | [] => [String c EmptyString]
         end
  end.

Fixpoint join_with (sep : ascii) (xs : list string) : string :=
  match xs with
  | [] => EmptyString
  | [x] => x
  | x :: xs => x +:+ String sep (join_with sep xs)
  end.

Fixpoint HasPrefix (s p : string) : bool :=
  match p, s with
  | EmptyString, _ => true
  | String c p, String d s => if decide (c = d) then HasPrefix s p else false
  | String _ _, EmptyString => false
  end.

Fixpoint HasSuffix (s p : string) : bool :=
  if decide (s = p) then true
  else match s with EmptyString => false | String _ s => HasSuffix s p end.

(** [strings.TrimPrefix]. *)
Fixpoint drop_prefix (p s : string) : option string :=
  match p, s with
  | EmptyString, _ => Some s
  | String c p, String d s => if decide (c = d) then drop_prefix p s else None
  | String _ _, EmptyString => None
  end.
Definition TrimPrefix (s p : string) : string := default s (drop_prefix p s).

(** [s[1:]]. *)
Definition tail_str (s : string) : string := match s with EmptyString => EmptyString | String _ s => s end.

Fixpoint contains_char (c : ascii) (s : string) : bool :=
  match s with
  | EmptyString => false
  | String d s => if decide (c = d) then true else contains_char c s
  end.

(** ** Lemmas *)
Lemma lower_idem c : lower (lower c) = lower c.
Proof. destruct c as [[] [] [] [] [] [] [] []]; reflexivity. Qed.

Lemma ToLower_idem s : ToLower (ToLower s) = ToLower s.
Proof. induction s as [|c s IH]; simpl; [done|]. by rewrite lower_idem, IH. Qed.

Lemma split_on_not_nil sep s : split_on sep s <> [].
Proof. destruct s as [|c s]; simpl; [done|]. case_decide; [done|]. by destruct (split_on sep s). Qed.

Lemma join_split sep s : join_with sep (split_on sep s) = s.
Proof.
  induction s as [|c s IH]; [done|]. simpl. case_decide as Hc.
  - subst. destruct (split_on sep s) eqn:E; [by apply split_on_not_nil in E|].
    simpl in *. by rewrite IH.
  - destruct (split_on sep s) as [|x xs] eqn:E; [by apply split_on_not_nil in E|].
    simpl in *. destruct xs; simpl in *; by rewrite <- IH.
Qed.

Lemma append_assoc_str (x y z : string) : (x +:+ y) +:+ z = x +:+ (y +:+ z).
Proof. induction x as [|c x IH]; [done|]. change (String c ((x +:+ y) +:+ z) = String c (x +:+ (y +:+ z))). by rewrite IH. Qed.

Lemma join_app sep xs ys : xs <> [] -> ys <> [] ->
  join_with sep (xs ++ ys) = join_with sep xs +:+ String sep (join_with sep ys).
Proof.
  intros Hx Hy. induction xs as [|x xs IH]; [done|]. destruct xs as [|x' xs].
  - destruct ys; [done|]. reflexivity.
  - cbn [app join_with] in *. rewrite IH by done. by rewrite append_assoc_str.
Qed.

Lemma split_app sep x y : split_on sep (x +:+ String sep y) = split_on sep x ++ split_on sep y.
Proof.
  induction x as [|c x IH]; simpl.
  - by rewrite decide_True.
  - case_decide; [by rewrite IH|]. rewrite IH.
    destruct (split_on sep x) eqn:E; [by apply split_on_not_nil in E|]. done.
Qed.

Lemma split_inj sep x y : split_on sep x = split_on sep y -> x = y.
Proof. intros H. by rewrite <- (join_split sep x), H, join_split. Qed.

(** Whole labels at the end of a name. *)
Lemma split_suffix sep e h :
  split_on sep e `suffix_of` split_on sep h <-> h = e \/ exists x, h = x +:+ String sep e.
Proof.
  split.
  - intros [l Hl]. destruct l as [|a l]; [left; by apply (split_inj sep)|right].
    exists (join_with sep (a :: l)). rewrite <- (join_split sep h), Hl, join_app, join_split; [done..|].
    apply split_on_not_nil.
  - intros [->|[x ->]]; [done|]. rewrite split_app. by exists (split_on sep x).
Qed.

(** Trimming and lower-casing commute and are idempotent. *)
Lemma is_space_lower c : is_space (lower c) = is_space c.
Proof. destruct c as [[] [] [] [] [] [] [] []]; reflexivity. Qed.

Lemma trim_left_lower s : trim_left (ToLower s) = ToLower (trim_left s).
Proof. induction s as [|c s IH]; simpl; [done|]. rewrite is_space_lower. by destruct (is_space c). Qed.

Lemma trim_right_lower s : trim_right (ToLower s) = ToLower (trim_right s).
Proof.
  induction s as [|c s IH]; simpl; [done|]. rewrite IH, is_space_lower.
  destruct (trim_right s); simpl; [|done]. by destruct (is_space c).
Qed.

Lemma trim_left_right s : trim_left (trim_right s) = trim_right (trim_left s).
Proof.
  induction s as [|c s IH]; simpl; [done|]. destruct (is_space c) eqn:E.
  - destruct (trim_right s) eqn:Er; simpl; [done|]. by rewrite E.
  - simpl. rewrite E. destruct (trim_right s); simpl; by rewrite E.
Qed.

Lemma trim_left_idem s : trim_left (trim_left s) = trim_left s.
Proof. induction s as [|c s IH]; simpl; [done|]. destruct (is_space c) eqn:E; [done|]. simpl. by rewrite E. Qed.

Lemma trim_right_idem s : trim_right (trim_right s) = trim_right s.
Proof.
  induction s as [|c s IH]; simpl; [done|].
  destruct (trim_right s) as [|d t] eqn:E.
  - destruct (is_space c) eqn:Es; simpl; [done|]. by rewrite Es.
  - cbn [trim_right] in *. by rewrite IH.
Qed.

Lemma TrimSpace_lower s : TrimSpace (ToLower s) = ToLower (TrimSpace s).
Proof. unfold TrimSpace. by rewrite trim_left_lower, trim_right_lower. Qed.

Lemma TrimSpace_idem s : TrimSpace (TrimSpace s) = TrimSpace s.
Proof. unfold TrimSpace. by rewrite trim_left_right, trim_right_idem, trim_left_idem. Qed.

Lemma HasSuffix_spec s p : HasSuffix s p = true <-> exists x, s = x +:+ p.
Proof.
  split.
  - induction s as [|c s IH]; cbn; case_decide as H; subst; try done; intros Hs.
    + by exists EmptyString.
    + by exists EmptyString.
    + destruct (IH Hs) as [x ->]. by exists (String c x).
  - intros [x ->]. induction x as [|c x IH].
    + change (EmptyString +:+ p) with p. destruct p; cbn; by rewrite decide_True.
    + change (String c x +:+ p) with (String c (x +:+ p)). cbn [HasSuffix]. by case_decide.
Qed.

Lemma HasPrefix_spec s p : HasPrefix s p = true <-> exists y, s = p +:+ y.
Proof.
  split.
  - revert s. induction p as [|c p IH]; intros s Hs; [by exists s|]. destruct s as [|d s]; cbn in Hs; [done|].
    case_decide; [subst|done]. destruct (IH s Hs) as [y ->]. by exists y.
  - intros [y ->]. induction p as [|c p IH]; [by destruct y|].
    change (String c p +:+ y) with (String c (p +:+ y)). cbn [HasPrefix]. by rewrite decide_True.
Qed.

Lemma drop_prefix_spec p s y : drop_prefix p s = Some y <-> s = p +:+ y.
Proof.
  revert s. induction p as [|c p IH]; intros s; [cbn; naive_solver|].
  change (String c p +:+ y) with (String c (p +:+ y)). destruct s as [|d s]; cbn; [naive_solver|].
  case_decide; [subst; rewrite IH; naive_solver|naive_solver].
Qed.

Lemma length_app_str x y : String.length (x +:+ y) = (String.length x + String.length y)%nat.
Proof. induction x as [|c x IH]; [done|]. change (String c x +:+ y) with (String c (x +:+ y)). cbn. by rewrite IH. Qed.

Lemma app_inj_1_str x x' y y' :
  String.length x = String.length x' -> x +:+ y = x' +:+ y' -> x = x' /\ y = y'.
Proof.
  revert x'. induction x as [|c x IH]; intros [|c' x'] Hl H; try done.
  change (String c (x +:+ y) = String c' (x' +:+ y')) in H. injection H as -> H. injection Hl as Hl.
  destruct (IH x' Hl H) as [-> ->]. done.
Qed.

(** Prefixes, and suffixes, of one string with the same length are equal. *)
Lemma prefix_unique s p q : HasPrefix s p = true -> HasPrefix s q = true ->
  String.length p = String.length q -> p = q.
Proof.
  intros [y ->]%HasPrefix_spec [y' H]%HasPrefix_spec Hl. by destruct (app_inj_1_str _ _ _ _ Hl H).
Qed.
Lemma suffix_unique s p q : HasSuffix s p = true -> HasSuffix s q = true ->
  String.length p = String.length q -> p = q.
Proof.
  intros [x ->]%HasSuffix_spec [x' H]%HasSuffix_spec Hl.
  pose proof (f_equal String.length H) as Hn. rewrite !length_app_str in Hn.
  apply (app_inj_1_str x x'); [lia|done].
Qed.
