(* ===== verification/GoStrconv.v ===== *)
(** Decimal numbers as text: [strconv.Atoi] and [strconv.Itoa] of the Go library.

    An [int] has 64 bits.  Twenty digits are enough for one. *)

From S2P Require Import Prelude GoString.
Local Open Scope Z_scope.

Definition digit_value (c : ascii) : Z := Z.of_nat (nat_of_ascii c) - 48.

Fixpoint digits_value (acc : Z) (s : string) : option Z :=
  match s with
  | EmptyString => Some acc
  | String c s => if is_digit c then digits_value (10 * acc + digit_value c) s else None
  end.

Definition unsigned_value (s : string) : option Z :=
  match s with EmptyString => None | _ => digits_value 0 s end.

Definition int_range (z : Z) : option Z := if (- 2 ^ 63 <=? z) && (z <? 2 ^ 63) then Some z else None.

(** [None] is an error: no digits, another character, or out of range. *)
Definition Atoi (s : string) : option Z :=
  match s with
  | String "-" s => n ← unsigned_value s; int_range (- n)
  | String "+" s => n ← unsigned_value s; int_range n
  | _ => n ← unsigned_value s; int_range n
  end.

Definition digit_char (d : Z) : ascii := ascii_of_nat (Z.to_nat (48 + d)).

Fixpoint digits (fuel : nat) (n : Z) (rest : string) : string :=
  match fuel with
  | O => rest
  | S fuel => if n <? 10 then String (digit_char n) rest
              else digits fuel (n / 10) (String (digit_char (n mod 10)) rest)
  end.

Definition Itoa (z : Z) : string :=
  if z <? 0 then String "-" (digits 20 (- z) EmptyString) else digits 20 z EmptyString.

(** ** Round trip *)

Lemma digit_cases (P : Z -> Prop) : P 0 -> P 1 -> P 2 -> P 3 -> P 4 -> P 5 -> P 6 -> P 7 -> P 8 -> P 9 ->
  forall d, 0 <= d < 10 -> P d.
Proof.
  intros ?????????? d Hd.
  assert (d = 0 \/ d = 1 \/ d = 2 \/ d = 3 \/ d = 4 \/ d = 5 \/ d = 6 \/ d = 7 \/ d = 8 \/ d = 9) as Hc by lia.
  by repeat (destruct Hc as [->|Hc]; [done|]); subst.
Qed.

Lemma digit_char_ok d : 0 <= d < 10 -> is_digit (digit_char d) = true /\ digit_value (digit_char d) = d.
Proof. revert d. by apply digit_cases. Qed.

Lemma Atoi_digit d : 0 <= d < 10 -> forall s,
  Atoi (String (digit_char d) s) = n ← unsigned_value (String (digit_char d) s); int_range n.
Proof.
  intros Hd s. apply (digit_cases (fun d => Atoi (String (digit_char d) s) =
    n ← unsigned_value (String (digit_char d) s); int_range n)); done.
Qed.

Lemma digits_value_digits fuel : forall n acc rest, 0 <= n < 10 ^ Z.of_nat fuel -> (0 < fuel)%nat ->
  exists k, 0 <= k /\ digits_value acc (digits fuel n rest) = digits_value (acc * 10 ^ k + n) rest /\ (acc = 0 \/ 0 < k).
Proof.
  induction fuel as [|fuel IH]; [lia|]. intros n acc rest Hn _. cbn [digits].
  destruct (Z.ltb_spec n 10).
  - destruct (digit_char_ok n) as [Hd Hv]; [lia|]. exists 1. cbn [digits_value]. rewrite Hd, Hv.
    split_and!; [lia|f_equal; lia|lia].
  - rewrite Nat2Z.inj_succ, Z.pow_succ_r in Hn by lia.
    destruct (IH (n / 10) acc (String (digit_char (n mod 10)) rest)) as (k & Hk & E & _).
    + split; [apply Z.div_pos; lia|apply Z.div_lt_upper_bound; lia].
    + destruct fuel; [cbn in Hn; lia|lia].
    + exists (k + 1). rewrite E. destruct (digit_char_ok (n mod 10)) as [Hd Hv]; [by apply Z.mod_pos_bound|].
      cbn [digits_value]. rewrite Hd, Hv. split_and!; [lia| |lia]. f_equal.
      rewrite Z.pow_add_r, Z.pow_1_r by lia. pose proof (Z.div_mod n 10 ltac:(lia)). lia.
Qed.

Lemma digits_first fuel : forall n rest, 0 <= n -> (0 < fuel)%nat -> n < 10 ^ Z.of_nat fuel ->
  exists d s, digits fuel n rest = String (digit_char d) s /\ 0 <= d < 10.
Proof.
  induction fuel as [|fuel IH]; [lia|]. intros n rest Hn _ Hf. cbn [digits]. destruct (Z.ltb_spec n 10).
  - exists n, rest. split; [done|lia].
  - rewrite Nat2Z.inj_succ, Z.pow_succ_r in Hf by lia. apply IH.
    + apply Z.div_pos; lia.
    + destruct fuel; [cbn in Hf; lia|lia].
    + apply Z.div_lt_upper_bound; lia.
Qed.

Lemma unsigned_Itoa n : 0 <= n < 10 ^ 20 -> unsigned_value (digits 20 n EmptyString) = Some n.
Proof.
  intros Hn. destruct (digits_first 20 n EmptyString) as (d & s & E & Hd); [lia|lia|exact (proj2 Hn)|].
  unfold unsigned_value. rewrite E, <- E. destruct (digits_value_digits 20 n 0 EmptyString) as (k & Hk & -> & _); [exact Hn|lia|].
  cbn [digits_value]. f_equal; lia.
Qed.

Lemma int_range_ok z : - 2 ^ 63 <= z < 2 ^ 63 -> int_range z = Some z.
Proof. intros Hz. unfold int_range. by rewrite (proj2 (Z.leb_le _ _)), (proj2 (Z.ltb_lt _ _)) by lia. Qed.

Lemma Atoi_Itoa z : - 2 ^ 63 <= z < 2 ^ 63 -> Atoi (Itoa z) = Some z.
Proof.
  intros Hz. unfold Itoa. destruct (Z.ltb_spec z 0).
  - cbn [Atoi]. rewrite unsigned_Itoa by lia. cbn. rewrite Z.opp_involutive. by apply int_range_ok.
  - destruct (digits_first 20 z EmptyString) as (d & s & E & Hd); [lia|lia|cbn; lia|].
    pose proof (unsigned_Itoa z ltac:(lia)) as Hu. rewrite E in *. rewrite Atoi_digit, Hu by done.
    cbn. by apply int_range_ok.
Qed.

(** Numbers are printed without spaces. *)
Lemma digit_char_no_space d : 0 <= d < 10 -> is_space (digit_char d) = false.
Proof. revert d. by apply digit_cases. Qed.

Fixpoint no_space (s : string) : bool :=
  match s with EmptyString => true | String c s => negb (is_space c) && no_space s end.

Lemma no_space_trim_right s : no_space s = true -> trim_right s = s.
Proof.
  induction s as [|c s IH]; [done|]. cbn. intros [Hc Hs]%andb_true_iff. apply negb_true_iff in Hc.
  rewrite IH by done. destruct s; [by rewrite Hc|done].
Qed.

Lemma no_space_trim s : no_space s = true -> TrimSpace s = s.
Proof.
  intros Hs. unfold TrimSpace. assert (trim_left s = s) as ->; [|by apply no_space_trim_right].
  destruct s as [|c s]; [done|]. cbn in *. apply andb_true_iff in Hs as [Hc _]. apply negb_true_iff in Hc. by rewrite Hc.
Qed.

Lemma digits_no_space fuel : forall n rest, 0 <= n -> no_space rest = true -> no_space (digits fuel n rest) = true.
Proof.
  induction fuel as [|fuel IH]; intros n rest Hn Hr; [done|]. cbn [digits]. destruct (Z.ltb_spec n 10).
  - cbn. by rewrite digit_char_no_space, Hr by lia.
  - apply IH; [by apply Z.div_pos; lia|]. cbn. by rewrite digit_char_no_space, Hr by (apply Z.mod_pos_bound; lia).
Qed.

Lemma TrimSpace_Itoa z : TrimSpace (Itoa z) = Itoa z.
Proof.
  apply no_space_trim. unfold Itoa. destruct (Z.ltb_spec z 0); [|by apply digits_no_space].
  cbn [no_space]. change (negb (is_space "-")) with true. cbn [andb]. apply digits_no_space; [lia|done].
Qed.

Lemma Itoa_nonempty z : - 2 ^ 63 <= z < 2 ^ 63 -> Itoa z <> EmptyString.
Proof. intros Hz E. apply Atoi_Itoa in Hz. rewrite E in Hz. discriminate. Qed.
