(* ===== verification/GoEncoding.v ===== *)
(** The text encodings of bytes the program uses: [encoding/hex] and the unpadded URL
    alphabet of [encoding/base64], and big-endian integers of [encoding/binary]. *)

From Stdlib Require Import String Ascii.
From S2P Require Import Prelude GoString.
Local Open Scope string_scope.
Local Open Scope list_scope.
Local Open Scope Z_scope.

(** ** Strings and bytes *)
Notation bytes_of := list_byte_of_string.
Notation string_of := string_of_list_byte.

Lemma string_of_bytes_of s : string_of (bytes_of s) = s.
Proof. apply string_of_list_byte_of_string. Qed.

Lemma length_bytes_of s : length (bytes_of s) = String.length s.
Proof.
  unfold list_byte_of_string. rewrite length_map. induction s as [|c s IH]; [done|]. cbn. by rewrite IH.
Qed.

(** ** Big-endian integers *)
Definition be_put (n : nat) (z : Z) : list byte := rev (le_put n z).
Definition be_get (bs : list byte) : Z := le_get (rev bs).

Lemma length_be_put n z : length (be_put n z) = n.
Proof. unfold be_put. by rewrite length_rev, length_le_put. Qed.

Lemma be_get_put n z : be_get (be_put n z) = z mod 256 ^ Z.of_nat n.
Proof. unfold be_get, be_put. by rewrite rev_involutive, le_get_put. Qed.

(** ** Hexadecimal *)
Definition hex_digit (n : Z) : ascii :=
  ascii_of_nat (Z.to_nat (if n <? 10 then 48 + n else 87 + n)).

Definition hex_value (c : ascii) : option Z :=
  let n := Z.of_nat (nat_of_ascii c) in
  if (48 <=? n) && (n <=? 57) then Some (n - 48)
  else if (97 <=? n) && (n <=? 102) then Some (n - 87)
  else if (65 <=? n) && (n <=? 70) then Some (n - 55)
  else None.

Fixpoint hex_EncodeToString (bs : list byte) : string :=
  match bs with
  | [] => EmptyString
  | b :: bs => String (hex_digit (Z_of_byte b / 16)) (String (hex_digit (Z_of_byte b mod 16)) (hex_EncodeToString bs))
  end.

Fixpoint hex_DecodeString (s : string) : option (list byte) :=
  match s with
  | EmptyString => Some []
  | String _ EmptyString => None
  | String a (String b s) =>
    match hex_value a, hex_value b, hex_DecodeString s with
    | Some h, Some l, Some bs => Some (byte_of_Z (16 * h + l) :: bs)
    | _, _, _ => None
    end
  end.

Lemma hex_byte b : hex_value (hex_digit (Z_of_byte b / 16)) = Some (Z_of_byte b / 16) /\
  hex_value (hex_digit (Z_of_byte b mod 16)) = Some (Z_of_byte b mod 16) /\
  byte_of_Z (16 * (Z_of_byte b / 16) + Z_of_byte b mod 16) = b.
Proof. destruct b; vm_compute; by split_and!. Qed.

Lemma hex_roundtrip bs : hex_DecodeString (hex_EncodeToString bs) = Some bs.
Proof.
  induction bs as [|b bs IH]; [done|]. cbn [hex_EncodeToString hex_DecodeString].
  destruct (hex_byte b) as (H1 & H2 & H3). by rewrite H1, H2, IH, H3.
Qed.

Lemma length_hex bs : String.length (hex_EncodeToString bs) = (2 * length bs)%nat.
Proof. induction bs as [|b bs IH]; [done|]. cbn [hex_EncodeToString String.length length]. rewrite IH. lia. Qed.

Lemma hex_nonempty bs : bs <> [] -> hex_EncodeToString bs <> EmptyString.
Proof. by destruct bs. Qed.

(** ** Base64, URL alphabet without padding *)
Definition b64_value (c : ascii) : option Z :=
  let n := Z.of_nat (nat_of_ascii c) in
  if (65 <=? n) && (n <=? 90) then Some (n - 65)
  else if (97 <=? n) && (n <=? 122) then Some (n - 71)
  else if (48 <=? n) && (n <=? 57) then Some (n + 4)
  else if n =? 45 then Some 62
  else if n =? 95 then Some 63
  else None.

(** Line ends are skipped; another character outside the alphabet is an error. *)
Fixpoint b64_values (s : string) : option (list Z) :=
  match s with
  | EmptyString => Some []
  | String c s =>
    if Ascii.eqb c "010" || Ascii.eqb c "013" then b64_values s
    else match b64_value c, b64_values s with
         | Some v, Some vs => Some (v :: vs)
         | _, _ => None
         end
  end.

Fixpoint b64_groups (l : list Z) : option (list byte) :=
  match l with
  | [] => Some []
  | [_] => None
  | [a; b] => Some [byte_of_Z (4 * a + b / 16)]
  | [a; b; c] => Some [byte_of_Z (4 * a + b / 16); byte_of_Z (16 * (b mod 16) + c / 4)]
  | a :: b :: c :: d :: l =>
    match b64_groups l with
    | Some bs => Some (byte_of_Z (4 * a + b / 16) :: byte_of_Z (16 * (b mod 16) + c / 4) :: byte_of_Z (64 * (c mod 4) + d) :: bs)
    | None => None
    end
  end.

Definition RawURL_DecodeString (s : string) : option (list byte) :=
  match b64_values s with Some l => b64_groups l | None => None end.

Lemma b64_groups_length n : forall l bs, (length l <= n)%nat -> b64_groups l = Some bs -> (length bs = 3 * length l / 4)%nat.
Proof.
  induction n as [|n IH]; intros l bs Hn.
  { destruct l; [|cbn in Hn; lia]. by intros [= <-]. }
  destruct l as [|a [|b [|c [|d l]]]]; cbn [b64_groups]; intros H; try (injection H as <-); try done.
  destruct (b64_groups l) as [bs'|] eqn:E; [|done]. injection H as <-. cbn [length] in *.
  rewrite (IH l bs' ltac:(lia) E). replace (3 * S (S (S (S (length l)))))%nat with (3 * length l + 3 * 4)%nat by lia.
  rewrite Nat.div_add by lia. lia.
Qed.

(** Hexadecimal text has no line ends, so its values are as many as its characters. *)
Lemma hex_digit_plain b : let h := hex_digit (Z_of_byte b / 16) in let l := hex_digit (Z_of_byte b mod 16) in
  (Ascii.eqb h "010" || Ascii.eqb h "013") = false /\ (Ascii.eqb l "010" || Ascii.eqb l "013") = false /\
  is_space h = false /\ is_space l = false /\ lower h = h /\ lower l = l.
Proof. destruct b; vm_compute; by split_and!. Qed.

Lemma b64_values_hex bs l : b64_values (hex_EncodeToString bs) = Some l -> length l = (2 * length bs)%nat.
Proof.
  revert l. induction bs as [|b bs IH]; intros l; cbn [hex_EncodeToString b64_values].
  { by intros [= <-]. }
  destruct (hex_digit_plain b) as (H1 & H2 & _). cbn in H1, H2. rewrite H1, H2.
  destruct (b64_value _); [|done]. destruct (b64_value _); [|done].
  destruct (b64_values (hex_EncodeToString bs)) as [l'|]; [|done].
  intros [= <-]. cbn. rewrite (IH l' eq_refl). lia.
Qed.

Lemma RawURL_hex_length bs ds : RawURL_DecodeString (hex_EncodeToString bs) = Some ds -> (length ds = 3 * length bs / 2)%nat.
Proof.
  unfold RawURL_DecodeString. destruct (b64_values _) as [l|] eqn:E; [|done]. intros H.
  apply (b64_groups_length (length l)) in H; [|done]. rewrite H, (b64_values_hex _ _ E).
  replace (3 * (2 * length bs))%nat with (3 * length bs * 2)%nat by lia. change 4%nat with (2 * 2)%nat.
  by rewrite Nat.Div0.div_mul_cancel_r by lia.
Qed.

(** Hexadecimal text has no space to trim and no capital. *)
Lemma trim_hex bs : TrimSpace (hex_EncodeToString bs) = hex_EncodeToString bs.
Proof.
  unfold TrimSpace.
  assert (Hl : trim_left (hex_EncodeToString bs) = hex_EncodeToString bs).
  { destruct bs as [|b bs]; [done|]. cbn. destruct (hex_digit_plain b) as (_ & _ & H & _). cbn in H. by rewrite H. }
  rewrite Hl. clear Hl. induction bs as [|b bs IH]; [done|].
  destruct (hex_digit_plain b) as (_ & _ & H1 & H2 & _). cbn in H1, H2. cbn [hex_EncodeToString trim_right]. rewrite IH.
  destruct (hex_EncodeToString bs); by rewrite ?H1, ?H2.
Qed.
