(* ===== verification/GoNetip.v ===== *)
(** IP addresses as text: [netip.ParseAddr] and [net.ParseIP] of the Go library.

    An address is its bytes, four or sixteen, and for IPv6 a zone.  The loop of the IPv6
    parser reads two or four bytes a round and stops at sixteen, so eight rounds are
    enough. *)

From Stdlib Require Import String Ascii.
From S2P Require Import Prelude GoString GoEncoding.
Local Open Scope string_scope.
Local Open Scope list_scope.
Local Open Scope Z_scope.

Inductive Addr := Addr4 (bs : list Z) | Addr16 (bs : list Z) (zone : string).
#[export] Instance Addr_eq_dec : EqDecision Addr.
Proof. solve_decision. Defined.

Definition digit_value (c : ascii) : option Z :=
  if is_digit c then Some (Z.of_nat (nat_of_ascii c) - 48) else None.

(** [parseIPv4Fields]: [first] at the first character, [dot] after a dot; [fields] so far
    in reverse, [val] and [digLen] of the current one. *)
Fixpoint ipv4_fields (s : string) (first dot : bool) (fields : list Z) (val digLen : Z) : option (list Z) :=
  match s with
  | EmptyString => if (length fields <? 3)%nat then None else Some (rev (val :: fields))
  | String c s' =>
    match digit_value c with
    | Some d =>
      if (digLen =? 1) && (val =? 0) then None
      else let val := val * 10 + d in
           if 255 <? val then None else ipv4_fields s' false false fields val (digLen + 1)
    | None =>
      if Ascii.eqb c "." then
        if first || match s' with EmptyString => true | _ => false end || dot then None
        else if (length fields =? 3)%nat then None
        else ipv4_fields s' false true (val :: fields) 0 0
      else None
    end
  end.

Definition parseIPv4Fields (s : string) : option (list Z) := ipv4_fields s true false [] 0 0.

(** A group of hexadecimal digits: how many, their value and the rest; [None] when there
    are more than four. *)
Fixpoint hex_group (s : string) (off : nat) (acc : Z) : option (nat * Z * string) :=
  match s with
  | EmptyString => Some (off, acc, s)
  | String c s' =>
    match hex_value c with
    | None => Some (off, acc, s)
    | Some d => if (3 <? off)%nat then None else hex_group s' (S off) (acc * 16 + d)
    end
  end.

Fixpoint ipv6_groups (fuel : nat) (s : string) (ip : list Z) (ellipsis : option nat)
  : option (string * list Z * option nat) :=
  match fuel with
  | O => Some (s, ip, ellipsis)
  | S fuel =>
    if (16 <=? length ip)%nat then Some (s, ip, ellipsis)
    else match hex_group s 0 0 with
    | None => None
    | Some (O, _, _) => None
    | Some (_, acc, rest) =>
      match rest with
      | EmptyString => Some (EmptyString, ip ++ [acc / 256; acc mod 256], ellipsis)
      | String c rest' =>
        if Ascii.eqb c "." then
          if match ellipsis with None => negb (length ip =? 12)%nat | _ => false end then None
          else if (16 <? length ip + 4)%nat then None
          else match parseIPv4Fields s with
          | None => None
          | Some fs => Some (EmptyString, ip ++ fs, ellipsis)
          end
        else
          let ip := ip ++ [acc / 256; acc mod 256] in
          if negb (Ascii.eqb c ":") then None
          else match rest' with
          | EmptyString => None
          | String c2 rest2 =>
            if Ascii.eqb c2 ":" then
              match ellipsis with
              | Some _ => None
              | None =>
                match rest2 with
                | EmptyString => Some (EmptyString, ip, Some (length ip))
                | _ => ipv6_groups fuel rest2 ip (Some (length ip))
                end
              end
            else ipv6_groups fuel rest' ip ellipsis
          end
      end
    end
  end.

(** The text before the first percent sign, and after it if there is one. *)
Fixpoint split_zone (s : string) : string * option string :=
  match s with
  | EmptyString => (EmptyString, None)
  | String c s => if Ascii.eqb c "%" then (EmptyString, Some s) else let '(a, z) := split_zone s in (String c a, z)
  end.

Definition finish_ipv6 (s : string) (ip : list Z) (ellipsis : option nat) (zone : string) : option Addr :=
  if negb (bool_decide (s = "")) then None
  else if (length ip <? 16)%nat then
    match ellipsis with
    | None => None
    | Some e => Some (Addr16 (take e ip ++ replicate (16 - length ip) 0 ++ drop e ip) zone)
    end
  else match ellipsis with Some _ => None | None => Some (Addr16 ip zone) end.

Definition leading_ellipsis (s : string) : string * option nat :=
  match s with
  | String a (String b rest) => if Ascii.eqb a ":" && Ascii.eqb b ":" then (rest, Some 0%nat) else (s, None)
  | _ => (s, None)
  end.

Definition parseIPv6 (input : string) : option Addr :=
  let '(s, z) := split_zone input in
  match z with
  | Some "" => None
  | _ =>
    let zone := default "" z in
    let '(s, ellipsis) := leading_ellipsis s in
    if bool_decide (ellipsis = Some 0%nat) && bool_decide (s = "") then Some (Addr16 (replicate 16 0) zone)
    else match ipv6_groups 8 s [] ellipsis with
    | None => None
    | Some (s, ip, ellipsis) => finish_ipv6 s ip ellipsis zone
    end
  end.

(** The first of the three characters decides which kind it is. *)
Fixpoint ParseAddr_kind (s : string) : option bool :=
  match s with
  | EmptyString => None
  | String c s =>
    if Ascii.eqb c "." then Some true
    else if Ascii.eqb c ":" then Some false
    else if Ascii.eqb c "%" then None
    else ParseAddr_kind s
  end.

Definition ParseAddr (s : string) : option Addr :=
  match ParseAddr_kind s with
  | Some true => match parseIPv4Fields s with Some fs => Some (Addr4 fs) | None => None end
  | Some false => parseIPv6 s
  | None => None
  end.

Definition mapped_prefix : list Z := replicate 10 0 ++ [255; 255].

(** [net.ParseIP]: the sixteen bytes, without a zone. *)
Definition ParseIP (s : string) : option (list Z) :=
  match ParseAddr s with
  | Some (Addr4 bs) => Some (mapped_prefix ++ bs)
  | Some (Addr16 bs "") => Some bs
  | _ => None
  end.

Definition Unmap (a : Addr) : Addr :=
  match a with
  | Addr16 bs _ => if decide (take 12 bs = mapped_prefix) then Addr4 (drop 12 bs) else a
  | Addr4 _ => a
  end.

(** ** Well-formed results *)
Definition is_octet (z : Z) : Prop := 0 <= z < 256.
Definition addr_ok (a : Addr) : Prop :=
  match a with
  | Addr4 bs => length bs = 4%nat /\ Forall is_octet bs
  | Addr16 bs _ => length bs = 16%nat /\ Forall is_octet bs
  end.

Lemma digit_range c d : digit_value c = Some d -> 0 <= d <= 9.
Proof.
  unfold digit_value, is_digit. destruct (_ && _) eqn:E; [|done]. intros [= <-].
  apply andb_true_iff in E as [H1%Nat.leb_le H2%Nat.leb_le]. lia.
Qed.

Lemma ipv4_fields_ok s : forall first dot fields val dl r, Forall is_octet fields -> is_octet val -> (length fields <= 3)%nat ->
  ipv4_fields s first dot fields val dl = Some r -> length r = 4%nat /\ Forall is_octet r.
Proof.
  induction s as [|c s IH]; intros first dot fields val dl r Hf Hv Hl; cbn [ipv4_fields].
  - destruct (Nat.ltb_spec (length fields) 3); [done|]. intros <-%(inj Some). rewrite length_rev.
    split; [cbn; lia|]. apply Forall_rev. by constructor.
  - destruct (digit_value c) as [d|] eqn:Ed.
    + destruct (_ && _); [done|]. destruct (Z.ltb_spec 255 (val * 10 + d)); [done|]. apply digit_range in Ed.
      apply IH; [done|unfold is_octet in *; lia|done].
    + destruct (Ascii.eqb c "."); [|done]. destruct (_ || _); [done|]. destruct (Nat.eqb_spec (length fields) 3); [done|].
      apply IH; [by constructor|unfold is_octet; lia|cbn; lia].
Qed.

Lemma parseIPv4Fields_ok s r : parseIPv4Fields s = Some r -> length r = 4%nat /\ Forall is_octet r.
Proof. apply ipv4_fields_ok; [constructor|unfold is_octet; lia|cbn; lia]. Qed.

Lemma hex_value_range c d : hex_value c = Some d -> 0 <= d <= 15.
Proof.
  unfold hex_value. intros H.
  repeat match type of H with (if ?b then _ else _) = _ => destruct b eqn:?; [injection H as <-; zbool; lia|] end. done.
Qed.

Lemma hex_group_range s : forall off acc n v rest, 0 <= acc < 16 ^ Z.of_nat off -> (off <= 4)%nat ->
  hex_group s off acc = Some (n, v, rest) -> 0 <= v < 65536.
Proof.
  induction s as [|c s IH]; intros off acc n v rest Ha Ho; cbn [hex_group].
  - intros [= <- <- <-]. split; [lia|]. apply Z.lt_le_trans with (16 ^ Z.of_nat off); [lia|].
    change 65536 with (16 ^ 4). apply Z.pow_le_mono_r; lia.
  - destruct (hex_value c) as [d|] eqn:Ed.
    + destruct (Nat.ltb_spec 3 off); [done|]. apply hex_value_range in Ed. apply IH; [|lia].
      rewrite Nat2Z.inj_succ, Z.pow_succ_r by lia. lia.
    + intros [= <- <- <-]. split; [lia|]. apply Z.lt_le_trans with (16 ^ Z.of_nat off); [lia|].
      change 65536 with (16 ^ 4). apply Z.pow_le_mono_r; lia.
Qed.

Lemma two_octets v : 0 <= v < 65536 -> Forall is_octet [v / 256; v mod 256].
Proof.
  intros H. repeat constructor; unfold is_octet; [apply Z.div_pos; lia|apply Z.div_lt_upper_bound; lia|
    apply Z.mod_pos_bound; lia|apply Z.mod_pos_bound; lia].
Qed.

Lemma ipv6_groups_ok fuel : forall s ip e s' ip' e', Forall is_octet ip -> (length ip <= 16)%nat -> Nat.Even (length ip) ->
  ipv6_groups fuel s ip e = Some (s', ip', e') -> Forall is_octet ip' /\ (length ip' <= 16)%nat.
Proof.
  induction fuel as [|fuel IH]; intros s ip e s' ip' e' Hf Hl Hev; cbn [ipv6_groups].
  { intros [= _ <- _]. done. }
  destruct (Nat.leb_spec 16 (length ip)) as [|Hlt]; [by intros [= _ <- _]|].
  destruct (hex_group s 0 0) as [[[n v] rest]|] eqn:Eg; [|done]. destruct n as [|n]; [done|].
  assert (Hv : 0 <= v < 65536) by (eapply (hex_group_range s 0); [|lia|exact Eg]; cbn; lia).
  assert (Hnew : Forall is_octet (ip ++ [v / 256; v mod 256])) by (apply Forall_app_2; [done|by apply two_octets]).
  assert (Hlen : length (ip ++ [v / 256; v mod 256]) = (length ip + 2)%nat) by (rewrite length_app; done).
  assert (Hl2 : (length ip + 2 <= 16)%nat) by (destruct Hev as [k Hk]; lia).
  assert (Hev2 : Nat.Even (length ip + 2)) by (destruct Hev as [k Hk]; exists (k + 1)%nat; lia).
  destruct rest as [|c rest']; [intros [= _ <- _]; split; [done|lia]|].
  destruct (Ascii.eqb c ".").
  - destruct (match e with None => _ | _ => _ end); [done|]. destruct (Nat.ltb_spec 16 (length ip + 4)); [done|].
    destruct (parseIPv4Fields s) as [fs|] eqn:E4; [|done]. apply parseIPv4Fields_ok in E4 as [L4 F4].
    intros [= _ <- _]. split; [by apply Forall_app_2|]. rewrite length_app, L4. lia.
  - destruct (negb _); [done|]. destruct rest' as [|c2 rest2]; [done|]. destruct (Ascii.eqb c2 ":").
    + destruct e; [done|]. destruct rest2; [intros [= _ <- _]; split; [done|lia]|]. apply IH; [done|lia|by rewrite Hlen].
    + apply IH; [done|lia|by rewrite Hlen].
Qed.

(** An address that parses has four or sixteen bytes. *)
Lemma ParseAddr_ok s a : ParseAddr s = Some a -> addr_ok a.
Proof.
  unfold ParseAddr. destruct (ParseAddr_kind s) as [[]|]; [| |done].
  - destruct (parseIPv4Fields s) as [fs|] eqn:E; [|done]. intros <-%(inj Some). by apply parseIPv4Fields_ok in E.
  - unfold parseIPv6. destruct (split_zone s) as [s1 z]. intros H.
    assert (Hz : forall zone s2 e, (if bool_decide (e = Some 0%nat) && bool_decide (s2 = "") then Some (Addr16 (replicate 16 0) zone)
      else match ipv6_groups 8 s2 [] e with None => None | Some (s, ip, el) => finish_ipv6 s ip el zone end) = Some a -> addr_ok a).
    { intros zone s2 e. destruct (_ && _).
      - intros <-%(inj Some). split; [done|]. by apply Forall_replicate.
      - destruct (ipv6_groups 8 s2 [] e) as [[[s3 ip] e3]|] eqn:Eg; [|done].
        apply ipv6_groups_ok in Eg as [F L]; [|constructor|cbn; lia|by exists 0%nat].
        unfold finish_ipv6. destruct (negb _); [done|]. destruct (Nat.ltb_spec (length ip) 16).
        + destruct e3 as [k|]; [|done]. intros <-%(inj Some). split.
          * rewrite !length_app, length_replicate. pose proof (take_drop k ip) as E. apply (f_equal length) in E.
            rewrite length_app in E. lia.
          * apply Forall_app_2; [by apply Forall_take|]. apply Forall_app_2; [by apply Forall_replicate|by apply Forall_drop].
        + destruct e3; [done|]. intros <-%(inj Some). split; [lia|done]. }
    destruct z as [[|zc zs]|]; [done| |]; destruct (leading_ellipsis s1) as [s2 e]; by eapply Hz in H.
Qed.

Lemma ParseAddr_examples :
  ParseAddr "1.2.3.4" = Some (Addr4 [1; 2; 3; 4]) /\ ParseAddr "01.2.3.4" = None /\ ParseAddr "1.2.3" = None /\
  ParseAddr "256.1.1.1" = None /\ ParseAddr "::1" = Some (Addr16 (replicate 15 0 ++ [1]) "") /\
  ParseAddr "fe80::1%eth0" = Some (Addr16 ([254; 128] ++ replicate 13 0 ++ [1]) "eth0") /\
  ParseIP "::ffff:1.2.3.4" = ParseIP "1.2.3.4" /\ ParseIP "fe80::1%eth0" = None /\ ParseIP "example.com" = None /\
  ParseAddr "1::2::3" = None /\ ParseAddr "1:2:3:4:5:6:7:8" <> None /\ ParseAddr "1:2:3:4:5:6:7::8" = None.
Proof. split_and!; vm_compute; congruence. Qed.
