(* ===== verification/Packager.v ===== *)
(** The frame codec of the multiplexer: [lib/mux/netpackager.go], with the
    constants of [lib/mux/mux.go] and [lib/mux/pool.go] it depends on.

    A [muxPackager] is the reusable frame object; [Set] fills it, [Pack] writes
    it to the transport, [UnPack] reads the next frame into it.  The abstract
    specification is [frame] with [encode_frame]; the theorems relate the
    object-level operations to it. *)

From S2P Require Import Prelude.
Local Open Scope Z_scope.

(** ** Constants *)
Definition poolSizeBuffer : Z := 4096.
Definition poolSizeWindow : Z := poolSizeBuffer - 2 - 4 - 4 - 1.
Definition poolSizeWindowBuffer : Z := poolSizeBuffer.
Definition maximumSegmentSize : Z := poolSizeWindow.
Definition maximumWindowSize : Z := Z.shiftl 1 27.

(** The frame flags, in the order of the [iota] block. *)
Definition muxPingFlag : Z := 0.
Definition muxNewConnOk : Z := 1.
Definition muxNewConnFail : Z := 2.
Definition muxNewMsg : Z := 3.
Definition muxNewMsgPart : Z := 4.
Definition muxMsgSendOk : Z := 5.
Definition muxNewConn : Z := 6.
Definition muxConnClose : Z := 7.
Definition muxPingReturn : Z := 8.
Definition muxPeerHello : Z := 9.
Definition muxConnCloseWrite : Z := 10.
Definition muxPing : Z := -1.

Definition isMuxStreamDataFlag (flag : Z) : bool :=
  (flag =? muxNewMsg) || (flag =? muxNewMsgPart).
Definition isMuxOrderedCloseFlag (flag : Z) : bool :=
  (flag =? muxConnClose) || (flag =? muxConnCloseWrite).
Definition isMuxStreamOrderedFlag (flag : Z) : bool :=
  isMuxStreamDataFlag flag || isMuxOrderedCloseFlag flag.
Definition isMuxImmediateFlushFlag (flag : Z) : bool :=
  (flag =? muxPingFlag) || (flag =? muxPingReturn) || (flag =? muxPeerHello) ||
  (flag =? muxNewConn) || (flag =? muxNewConnOk) || (flag =? muxNewConnFail) ||
  (flag =? muxConnClose) || (flag =? muxConnCloseWrite).

(** The flags whose frame carries a length-prefixed payload: the case list of
    the [switch] in [Set], [Pack] and [UnPack]. *)
Definition carriesContent (flag : Z) : bool :=
  (flag =? muxPingFlag) || (flag =? muxPingReturn) || (flag =? muxNewMsg) || (flag =? muxNewMsgPart).

(** ** Data *)
Inductive packer_err :=
| ErrContentNil | ErrContentEmpty | ErrSegmentTooLarge | ErrBufTooSmall
| ErrDataNil | ErrDataType | ErrWindowType
| ErrNoContent
| ErrUnpackSegmentTooLarge | ErrUnpackLengthTooLarge
| ErrRead (e : read_err).

Record basePackager := mkBase {
  head : list byte;               (* [13]byte *)
  length_ : Z;                    (* uint16 *)
  content : option (list byte);   (* the pooled buffer; None is a nil slice *)
}.

(** A packager's address: the write queue links packagers by pointer. *)
Abbreviation loc := nat.

Record muxPackager := mkPackager {
  flag : Z;                       (* uint8 *)
  id : Z;                         (* int32 *)
  window : Z;                     (* uint64 *)
  priority : bool;
  queueNext : option loc;
  base : basePackager;
}.

(** [interface{}] as [Set] receives it: nil, a byte slice (which may itself be
    nil), an [uint64], or a value of another type. *)
Inductive content_arg :=
| ArgNil
| ArgBytes (b : option (list byte))
| ArgUint64 (w : Z)
| ArgOther.

Definition with_base (p : muxPackager) (b : basePackager) : muxPackager :=
  mkPackager (flag p) (id p) (window p) (priority p) (queueNext p) b.

(** [s[:n]] on a slice with capacity [length s]: [None] is a run-time panic. *)
Definition slice_to (o : option (list byte)) (n : Z) : option (list byte) :=
  match o with
  | None => if n =? 0 then Some [] else None
  | Some b => if n <=? Z.of_nat (length b) then Some (take (Z.to_nat n) b) else None
  end.

(** ** Operations

    [windowBuff.Get()] hands out a pooled buffer whose bytes are left over from
    an earlier use: it is the argument [fresh] of the operations that call it. *)
Definition base_reset (self : basePackager) : basePackager :=
  mkBase (head self) 0 (content self).

Definition base_Set (fresh : list byte) (c : option (list byte)) (self : basePackager)
  : basePackager * option packer_err :=
  let self := base_reset self in
  match c with
  | None => (self, Some ErrContentNil)
  | Some c =>
    let n := Z.of_nat (length c) in
    if n =? 0 then (self, Some ErrContentEmpty)
    else if maximumSegmentSize <? n then (self, Some ErrSegmentTooLarge)
    else
      let buf := match content self with None => fresh | Some b => b end in
      if Z.of_nat (length buf) <? n
      then (mkBase (head self) (length_ self) (Some buf), Some ErrBufTooSmall)
      else (mkBase (head self) (u16 n) (Some (blit buf 0 c)), None)
  end.

Definition GetContent (self : basePackager) : option (list byte) + packer_err :=
  match content self with
  | None => inr ErrNoContent
  | Some _ => if length_ self =? 0 then inr ErrNoContent
              else inl (slice_to (content self) (length_ self))
  end.

Section Writer.
Context {W E : Type} (write : W -> list byte -> W * option E).

(** [None] is a run-time panic of the slice expression. *)
Definition base_Pack (self : basePackager) (w : W) : option (basePackager * W * option E) :=
  let self := mkBase (blit (head self) 5 (le_put 2 (length_ self))) (length_ self) (content self) in
  let '(w, err) := write w (take 7 (head self)) in
  match err with
  | Some e => Some (self, w, Some e)
  | None =>
    match slice_to (content self) (length_ self) with
    | None => None
    | Some body => let '(w, err) := write w body in Some (self, w, err)
    end
  end.

Definition Pack (self : muxPackager) (w : W) : option (muxPackager * W * option E) :=
  let h := blit (head (base self)) 0 [byte_of_Z (flag self)] in
  let h := blit h 1 (le_put 4 (u32 (id self))) in
  let b := mkBase h (length_ (base self)) (content (base self)) in
  if carriesContent (flag self) then
    match base_Pack b w with
    | None => None
    | Some (b, w, err) =>
      Some (with_base self (mkBase (head b) (length_ b) None), w, err)
    end
  else if flag self =? muxMsgSendOk then
    let b := mkBase (blit h 5 (le_put 8 (window self))) (length_ b) (content b) in
    let '(w, err) := write w (take 13 (head b)) in
    Some (with_base self b, w, err)
  else
    let '(w, err) := write w (take 5 h) in
    Some (with_base self b, w, err).
End Writer.

Definition base_UnPack (fresh : list byte) (self : basePackager) (s : list byte)
  : basePackager * list byte * Z * option packer_err :=
  let self := base_reset self in
  let '(d, s, err) := ReadFull 2 s in
  let self := mkBase (blit (head self) 5 d) (length_ self) (content self) in
  match err with
  | Some e => (self, s, 0, Some (ErrRead e))
  | None =>
    let n := u16 (Z.of_nat (length d)) in
    let self := mkBase (head self) (le_get (take 2 (drop 5 (head self)))) (content self) in
    if maximumSegmentSize <? length_ self then (self, s, n, Some ErrUnpackSegmentTooLarge)
    else
      let buf := match content self with None => fresh | Some b => b end in
      let self := mkBase (head self) (length_ self) (Some buf) in
      if Z.of_nat (length buf) <? length_ self then (self, s, n, Some ErrUnpackLengthTooLarge)
      else
        let '(d, s, err) := ReadFull (Z.to_nat (length_ self)) s in
        let self := mkBase (head self) (length_ self) (Some (blit buf 0 d)) in
        (self, s, u16 (n + u16 (Z.of_nat (length d))), option_map ErrRead err)
  end.

Definition Set_ (fresh : list byte) (f i : Z) (arg : content_arg) (self : muxPackager)
  : muxPackager * option packer_err :=
  let self := mkPackager f i (window self) (priority self) (queueNext self) (base self) in
  if carriesContent f then
    match arg with
    | ArgNil => (self, Some ErrDataNil)
    | ArgBytes buf =>
      let '(b, err) := base_Set fresh buf (base self) in (with_base self b, err)
    | _ => (self, Some ErrDataType)
    end
  else if f =? muxMsgSendOk then
    match arg with
    | ArgUint64 w => (mkPackager f i w (priority self) (queueNext self) (base self), None)
    | _ => (self, Some ErrWindowType)
    end
  else (self, None).

Definition UnPack (fresh : list byte) (self : muxPackager) (s : list byte)
  : muxPackager * list byte * Z * option packer_err :=
  let b := base self in
  let '(d, s, err) := ReadFull 5 s in
  let b := mkBase (blit (head b) 0 d) (length_ b) (content b) in
  match err with
  | Some e => (with_base self b, s, 0, Some (ErrRead e))
  | None =>
    let n := u16 (Z.of_nat (length d)) in
    let f := Z_of_byte (default x00 (list_lookup 0%nat (head b))) in
    let i := i32 (le_get (take 4 (drop 1 (head b)))) in
    let self := mkPackager f i (window self) (priority self) (queueNext self) b in
    if carriesContent f then
      let '(b, s, m, err) := base_UnPack fresh b s in
      (with_base self b, s, u16 (n + m), err)
    else if f =? muxMsgSendOk then
      let '(d, s, err) := ReadFull 8 s in
      let b := mkBase (blit (head b) 5 d) (length_ b) (content b) in
      match err with
      | Some e => (with_base self b, s, n, Some (ErrRead e))
      | None =>
        (mkPackager f i (le_get (take 8 (drop 5 (head b)))) (priority self) (queueNext self) b,
         s, u16 (n + u16 (Z.of_nat (length d))), None)
      end
    else (self, s, n, None)
  end.

Definition reset (self : muxPackager) : muxPackager :=
  mkPackager 0 0 0 (priority self) None (mkBase (head (base self)) 0 None).

(** ** Abstract frames *)

(** What one frame says to the peer. *)
Inductive frame :=
| FData (f i : Z) (payload : list byte)
| FWindow (i w : Z)
| FControl (f i : Z).

Definition encode_frame (fr : frame) : list byte :=
  match fr with
  | FData f i p =>
    byte_of_Z f :: le_put 4 (u32 i) ++ le_put 2 (Z.of_nat (length p)) ++ p
  | FWindow i w => byte_of_Z muxMsgSendOk :: le_put 4 (u32 i) ++ le_put 8 w
  | FControl f i => byte_of_Z f :: le_put 4 (u32 i)
  end.

Definition wf_frame (fr : frame) : Prop :=
  match fr with
  | FData f i p =>
    carriesContent f = true /\ is_sint 32 i /\ Z.of_nat (length p) <= maximumSegmentSize
  | FWindow i w => is_sint 32 i /\ is_uint 64 w
  | FControl f i =>
    is_uint 8 f /\ carriesContent f = false /\ f <> muxMsgSendOk /\ is_sint 32 i
  end.

(** The frame a packager stands for. *)
Definition frame_of (p : muxPackager) : frame :=
  if carriesContent (flag p) then
    FData (flag p) (id p)
      (take (Z.to_nat (length_ (base p))) (default [] (content (base p))))
  else if flag p =? muxMsgSendOk then FWindow (id p) (window p)
  else FControl (flag p) (id p).

(** A packager as the pools hand it out or as the code keeps it: a 13 byte
    header array and, if it has a content buffer, one of the pool's size. *)
Definition pooled (p : muxPackager) : Prop :=
  length (head (base p)) = 13%nat /\
  (forall b, content (base p) = Some b -> Z.of_nat (length b) = poolSizeWindowBuffer).

(** A packager ready to be packed. *)
Definition packable (p : muxPackager) : Prop :=
  pooled p /\ is_uint 8 (flag p) /\ is_sint 32 (id p) /\
  (carriesContent (flag p) = true ->
   is_Some (content (base p)) /\ 0 < length_ (base p) <= maximumSegmentSize) /\
  (flag p = muxMsgSendOk -> is_uint 64 (window p)).

(** A writer that appends to a buffer and never fails. *)
Definition append_write (w d : list byte) : list byte * option Empty_set := (w ++ d, None).

(** The 13 header bytes spelled out. *)
Ltac explode_head h :=
  destruct h as [|? h]; [discriminate|];
  do 12 (destruct h as [|? h]; [discriminate|]); destruct h; [|discriminate].

(** The header after [Pack] stored the flag and the id. *)
Definition head_id (h : list byte) (f i : Z) : list byte :=
  blit (blit h 0 [byte_of_Z f]) 1 (le_put 4 i).

Lemma head_id_5 h f i :
  length h = 13%nat -> take 5 (head_id h f i) = byte_of_Z f :: le_put 4 i.
Proof. intros Hh. unfold head_id. explode_head h. reflexivity. Qed.

Lemma head_id_7 h f i n :
  length h = 13%nat ->
  take 7 (blit (head_id h f i) 5 (le_put 2 n)) = byte_of_Z f :: le_put 4 i ++ le_put 2 n.
Proof. intros Hh. unfold head_id. explode_head h. reflexivity. Qed.

Lemma head_id_13 h f i w :
  length h = 13%nat ->
  take 13 (blit (head_id h f i) 5 (le_put 8 w)) = byte_of_Z f :: le_put 4 i ++ le_put 8 w.
Proof. intros Hh. unfold head_id. explode_head h. reflexivity. Qed.

Lemma carriesContent_cases f :
  carriesContent f = true ->
  f = muxPingFlag \/ f = muxPingReturn \/ f = muxNewMsg \/ f = muxNewMsgPart.
Proof.
  unfold carriesContent. rewrite !orb_true_iff, !Z.eqb_eq. tauto.
Qed.

Lemma carriesContent_uint8 f : carriesContent f = true -> is_uint 8 f.
Proof.
  intros H. apply carriesContent_cases in H.
  destruct H as [->|[->|[->| ->]]]; vm_compute; split; congruence.
Qed.

Lemma packable_content p :
  packable p -> carriesContent (flag p) = true ->
  exists buf, content (base p) = Some buf /\
    slice_to (content (base p)) (length_ (base p))
    = Some (take (Z.to_nat (length_ (base p))) buf) /\
    Z.of_nat (length (take (Z.to_nat (length_ (base p))) buf)) = length_ (base p).
Proof.
  intros [[Hh Hb] (_ & _ & Hc & _)] Hf. destruct (Hc Hf) as [[buf E] L].
  exists buf. specialize (Hb _ E). rewrite E. unfold slice_to.
  unfold maximumSegmentSize, poolSizeWindow, poolSizeWindowBuffer, poolSizeBuffer in *.
  destruct (Z.leb_spec (length_ (base p)) (Z.of_nat (length buf))); [|lia].
  rewrite length_take. repeat split. lia.
Qed.

Lemma Pack_append p w :
  packable p ->
  exists p', Pack append_write p w = Some (p', w ++ encode_frame (frame_of p), None) /\
             (carriesContent (flag p) = true -> content (base p') = None).
Proof.
  intros Hp. pose proof Hp as [[Hh _] _]. unfold Pack, frame_of.
  fold (head_id (head (base p)) (flag p) (u32 (id p))).
  destruct (carriesContent (flag p)) eqn:Ef.
  - destruct (packable_content p Hp Ef) as (buf & E & Es & El).
    eexists. unfold base_Pack, append_write. cbn [head length_ content].
    rewrite head_id_7, Es by done. split.
    + rewrite E. unfold encode_frame. change (default [] (Some buf)) with buf. rewrite El.
      by rewrite <- !app_assoc.
    + done.
  - destruct (flag p =? muxMsgSendOk) eqn:Ew; zbool;
      eexists; unfold append_write; cbn [head length_ content]; split; try discriminate.
    + rewrite head_id_13 by done. by rewrite Ew.
    + by rewrite head_id_5 by done.
Qed.

(** ** Reading frames back *)

Lemma u16_small n : 0 <= n < 65536 -> u16 n = n.
Proof. intros. by apply wrap_small. Qed.

Lemma blit_head_read h off d :
  length h = 13%nat -> (off + length d <= 13)%nat ->
  length (blit h off d) = 13%nat /\ take (length d) (drop off (blit h off d)) = d.
Proof. intros Hh Hd. rewrite length_blit, blit_read by lia. auto. Qed.

(** The payload buffer after a read: same capacity, the bytes in front. *)
Lemma blit_front buf d :
  (length d <= length buf)%nat ->
  length (blit buf 0 d) = length buf /\ take (length d) (blit buf 0 d) = d.
Proof.
  intros. split; [by rewrite length_blit by lia|].
  by rewrite <- (blit_read buf 0 d) at 3 by lia.
Qed.

(** The buffer [UnPack] reads into: the packager's own, or one of the pool. *)
Definition unpack_buf (fresh : list byte) (b : basePackager) : list byte :=
  match content b with None => fresh | Some b => b end.

Lemma unpack_buf_length fresh p :
  pooled p -> Z.of_nat (length fresh) = poolSizeWindowBuffer ->
  Z.of_nat (length (unpack_buf fresh (base p))) = poolSizeWindowBuffer.
Proof.
  intros [_ Hb] Hf. unfold unpack_buf. destruct (content (base p)) eqn:E; [by apply Hb|done].
Qed.

Section BaseUnPack.
Variables (fresh : list byte) (b : basePackager).
Hypothesis Hh : length (head b) = 13%nat.
Hypothesis Hbuf : Z.of_nat (length (unpack_buf fresh b)) = poolSizeWindowBuffer.

Lemma base_UnPack_decode p rest :
  Z.of_nat (length p) <= maximumSegmentSize ->
  base_UnPack fresh b (le_put 2 (Z.of_nat (length p)) ++ p ++ rest) =
  (mkBase (blit (head b) 5 (le_put 2 (Z.of_nat (length p)))) (Z.of_nat (length p))
     (Some (blit (unpack_buf fresh b) 0 p)), rest, 2 + Z.of_nat (length p), None).
Proof.
  intros Hp.
  unfold maximumSegmentSize, poolSizeWindow, poolSizeWindowBuffer, poolSizeBuffer in *.
  unfold base_UnPack, base_reset. cbn [head length_ content].
  rewrite ReadFull_app by apply length_le_put.
  destruct (blit_head_read (head b) 5 (le_put 2 (Z.of_nat (length p))) Hh)
    as [_ E]; [rewrite length_le_put; lia|].
  rewrite length_le_put in E. rewrite E, le_get_put.
  change (256 ^ Z.of_nat 2) with 65536. rewrite Z.mod_small by lia.
  fold (unpack_buf fresh b).
  unfold maximumSegmentSize, poolSizeWindow, poolSizeBuffer.
  destruct (Z.ltb_spec (4096 - 2 - 4 - 4 - 1) (Z.of_nat (length p))); [lia|].
  destruct (Z.ltb_spec (Z.of_nat (length (unpack_buf fresh b))) (Z.of_nat (length p))); [lia|].
  rewrite ReadFull_app by lia.
  rewrite length_le_put, (u16_small (Z.of_nat 2)), (u16_small (Z.of_nat (length p))), u16_small by lia.
  reflexivity.
Qed.

Lemma base_UnPack_sound b' s s' n :
  base_UnPack fresh b s = (b', s', n, None) ->
  exists p, s = le_put 2 (Z.of_nat (length p)) ++ p ++ s' /\
            Z.of_nat (length p) <= maximumSegmentSize.
Proof.
  unfold base_UnPack, base_reset. cbn [head length_ content].
  destruct (ReadFull 2 s) as [[d s1] [e|]] eqn:E1; [discriminate|].
  apply ReadFull_ok in E1 as [-> Hd].
  destruct (blit_head_read (head b) 5 d Hh) as [_ E]; [lia|]. rewrite Hd in E. rewrite E.
  fold (unpack_buf fresh b). pose proof (le_get_range d) as Hr.
  destruct (maximumSegmentSize <? le_get d) eqn:Em; [discriminate|].
  destruct (Z.of_nat (length (unpack_buf fresh b)) <? le_get d) eqn:El; [discriminate|].
  destruct (ReadFull (Z.to_nat (le_get d)) s1) as [[p s2] [e|]] eqn:E2; [discriminate|].
  apply ReadFull_ok in E2 as [-> Hp]. intros [= _ <- _]. zbool.
  exists p. replace (Z.of_nat (length p)) with (le_get d) by lia.
  split; [|done]. rewrite <- Hd at 1. by rewrite le_put_get.
Qed.
End BaseUnPack.

Lemma Z_of_byte_flag f : is_uint 8 f -> Z_of_byte (byte_of_Z f) = f.
Proof. intros. rewrite Z_of_byte_of_Z. by apply Z.mod_small. Qed.

Lemma id_roundtrip i : is_sint 32 i -> i32 (le_get (le_put 4 (u32 i))) = i.
Proof.
  intros Hi. rewrite le_get_put. change (256 ^ Z.of_nat 4) with (2 ^ 32).
  rewrite Z.mod_small by (apply wrap_range; lia). by apply swrap_wrap.
Qed.

Lemma head_fields h f i :
  length h = 13%nat ->
  let h' := blit h 0 (byte_of_Z f :: le_put 4 i) in
  length h' = 13%nat /\ list_lookup 0%nat h' = Some (byte_of_Z f) /\
  take 4 (drop 1 h') = le_put 4 i.
Proof. intros Hh. explode_head h. auto. Qed.

(** The packager once [UnPack] has read the five header bytes. *)
Definition with_header (q : muxPackager) (f i : Z) : muxPackager :=
  mkPackager f i (window q) (priority q) (queueNext q)
    (mkBase (blit (head (base q)) 0 (byte_of_Z f :: le_put 4 (u32 i)))
       (length_ (base q)) (content (base q))).

(** What [UnPack] does after the header. *)
Definition unpack_body (fresh : list byte) (q : muxPackager) (s : list byte)
  : muxPackager * list byte * Z * option packer_err :=
  if carriesContent (flag q) then
    let '(b, s, m, err) := base_UnPack fresh (base q) s in
    (with_base q b, s, u16 (5 + m), err)
  else if flag q =? muxMsgSendOk then
    let '(d, s, err) := ReadFull 8 s in
    let b := mkBase (blit (head (base q)) 5 d) (length_ (base q)) (content (base q)) in
    match err with
    | Some e => (with_base q b, s, 5, Some (ErrRead e))
    | None =>
      (mkPackager (flag q) (id q) (le_get (take 8 (drop 5 (head b)))) (priority q) (queueNext q) b,
       s, u16 (5 + u16 (Z.of_nat (length d))), None)
    end
  else (q, s, 5, None).

Lemma UnPack_header fresh q f i s :
  length (head (base q)) = 13%nat -> is_uint 8 f -> is_sint 32 i ->
  UnPack fresh q ((byte_of_Z f :: le_put 4 (u32 i)) ++ s)
  = unpack_body fresh (with_header q f i) s.
Proof.
  intros Hh Hf Hi. unfold UnPack, unpack_body, with_header.
  rewrite ReadFull_app by (cbn [length]; by rewrite length_le_put).
  destruct (head_fields (head (base q)) f (u32 i) Hh) as (_ & E0 & E4).
  cbn [head base flag id length_ content]. rewrite E0, E4.
  change (default x00 (Some (byte_of_Z f))) with (byte_of_Z f).
  rewrite Z_of_byte_flag, id_roundtrip by done. reflexivity.
Qed.

Lemma with_header_pooled q f i : pooled q -> pooled (with_header q f i).
Proof.
  intros [Hh Hb]. split; cbn [with_header base head content]; [|done].
  by apply head_fields.
Qed.

(** Every accepted header is the header of a flag and an id in range. *)
Lemma header_bytes d :
  length d = 5%nat -> exists f i,
    d = byte_of_Z f :: le_put 4 (u32 i) /\ is_uint 8 f /\ is_sint 32 i.
Proof.
  destruct d as [|b d]; [discriminate|]. intros [= Hd].
  exists (Z_of_byte b), (i32 (le_get d)). rewrite byte_of_Z_of_byte. split; [|split].
  - f_equal. rewrite <- (le_put_get d) at 1. rewrite Hd.
    assert (u32 (i32 (le_get d)) = le_get d) as ->; [|done].
    pose proof (le_get_range d) as Hr. rewrite Hd in Hr.
    change (256 ^ Z.of_nat 4) with (2 ^ 32) in Hr.
    unfold u32, i32, wrap, swrap. rewrite Zminus_mod_idemp_l, Z.add_simpl_r.
    by apply Z.mod_small.
  - apply Z_of_byte_range.
  - apply swrap_range. lia.
Qed.

Ltac unfold_sizes :=
  unfold maximumSegmentSize, poolSizeWindow, poolSizeWindowBuffer, poolSizeBuffer in *.

Lemma unpack_body_data fresh q p rest :
  pooled q -> Z.of_nat (length fresh) = poolSizeWindowBuffer ->
  carriesContent (flag q) = true -> Z.of_nat (length p) <= maximumSegmentSize ->
  exists q', unpack_body fresh q (le_put 2 (Z.of_nat (length p)) ++ p ++ rest)
             = (q', rest, 7 + Z.of_nat (length p), None) /\
             frame_of q' = FData (flag q) (id q) p /\ pooled q'.
Proof.
  intros Hq Hfresh Hf Hp. pose proof (unpack_buf_length _ _ Hq Hfresh) as Hbuf.
  destruct Hq as [Hh _]. unfold unpack_body. rewrite Hf, base_UnPack_decode by done.
  assert (length p <= length (unpack_buf fresh (base q)))%nat by (unfold_sizes; lia).
  eexists. split; [|split].
  - rewrite u16_small by (unfold_sizes; lia). do 2 f_equal. lia.
  - unfold frame_of, with_base. cbn [flag id base length_ content]. rewrite Hf, Nat2Z.id.
    f_equal. by apply blit_front.
  - split; cbn [base with_base head content].
    + rewrite length_blit; rewrite ?length_le_put; lia.
    + intros ? [= <-]. by rewrite length_blit by lia.
Qed.

Lemma unpack_body_window fresh q w rest :
  pooled q -> flag q = muxMsgSendOk -> is_uint 64 w ->
  exists q', unpack_body fresh q (le_put 8 w ++ rest) = (q', rest, 13, None) /\
             frame_of q' = FWindow (id q) w /\ pooled q'.
Proof.
  intros [Hh Hb] Hf Hw. unfold unpack_body. rewrite Hf. cbn [carriesContent Z.eqb orb].
  rewrite ReadFull_app by apply length_le_put.
  destruct (blit_head_read (head (base q)) 5 (le_put 8 w) Hh) as [Hl E];
    rewrite length_le_put in *; [lia|].
  cbn [head length_ content]. rewrite E, le_get_put.
  change (256 ^ Z.of_nat 8) with (2 ^ 64). rewrite Z.mod_small by apply Hw.
  eexists. split; [reflexivity|]. split; [reflexivity|]. by split.
Qed.

(** [UnPack] reads back exactly what [encode_frame] produced. *)
Lemma UnPack_decode fresh q fr rest :
  pooled q -> Z.of_nat (length fresh) = poolSizeWindowBuffer -> wf_frame fr ->
  exists q', UnPack fresh q (encode_frame fr ++ rest)
             = (q', rest, Z.of_nat (length (encode_frame fr)), None) /\
             frame_of q' = fr /\ pooled q'.
Proof.
  intros Hq Hfresh Hfr. pose proof Hq as [Hh _].
  destruct fr as [f i p|i w|f i]; simpl in Hfr; unfold encode_frame.
  - destruct Hfr as (Hf & Hi & Hp). rewrite app_comm_cons, <- app_assoc.
    rewrite UnPack_header by auto using carriesContent_uint8. rewrite <- app_assoc.
    destruct (unpack_body_data fresh (with_header q f i) p rest) as (q' & E & Hq');
      auto using with_header_pooled.
    exists q'. split; [|done]. rewrite E. do 2 f_equal.
    rewrite !length_app. cbn [length]. rewrite !length_le_put. lia.
  - destruct Hfr as (Hi & Hw). rewrite app_comm_cons, <- app_assoc.
    rewrite UnPack_header by (done || (vm_compute; split; congruence)).
    by apply unpack_body_window; auto using with_header_pooled.
  - destruct Hfr as (Hf & Hc & Hn & Hi). rewrite UnPack_header by done.
    unfold unpack_body. cbn [flag with_header]. rewrite Hc.
    destruct (f =? muxMsgSendOk) eqn:E; zbool; [done|].
    exists (with_header q f i). split; [|split; [|by apply with_header_pooled]].
    + cbn [length]. by rewrite length_le_put.
    + unfold frame_of. cbn [flag id with_header]. rewrite Hc.
      by destruct (f =? muxMsgSendOk) eqn:E'; zbool.
Qed.

(** Whatever [UnPack] accepts is the encoding of one well-formed frame. *)
Lemma UnPack_accepts fresh q s q' s' n :
  pooled q -> Z.of_nat (length fresh) = poolSizeWindowBuffer ->
  UnPack fresh q s = (q', s', n, None) ->
  exists fr, wf_frame fr /\ s = encode_frame fr ++ s'.
Proof.
  intros Hq Hfresh H. pose proof Hq as [Hh _].
  destruct (ReadFull 5 s) as [[d s1] [e|]] eqn:E1;
    [unfold UnPack in H; rewrite E1 in H; discriminate|].
  apply ReadFull_ok in E1 as [-> Hd].
  destruct (header_bytes d Hd) as (f & i & -> & Hf & Hi).
  rewrite UnPack_header in H by done. unfold unpack_body in H. cbn [flag with_header] in H.
  destruct (carriesContent f) eqn:Ec; [|destruct (f =? muxMsgSendOk) eqn:Ew; zbool].
  - destruct (base_UnPack _ _ _) as [[[b s2] m] err] eqn:Eb. simplify_eq.
    pose proof (with_header_pooled q f i Hq) as Hq1.
    apply base_UnPack_sound in Eb as (p & -> & Hp); [|apply Hq1].
    exists (FData f i p). split; [done|]. unfold encode_frame.
    by rewrite app_comm_cons, <- !app_assoc.
  - destruct (ReadFull 8 s1) as [[d s2] [e|]] eqn:E2; [discriminate|].
    apply ReadFull_ok in E2 as [-> Hd2]. simplify_eq.
    exists (FWindow i (le_get d)). pose proof (le_get_range d) as Hr. rewrite Hd2 in Hr.
    split; [done|]. unfold encode_frame. rewrite app_comm_cons, <- app_assoc.
    replace (le_put 8 (le_get d)) with d; [done|].
    rewrite <- (le_put_get d) at 1. by rewrite Hd2.
  - simplify_eq. by exists (FControl f i).
Qed.

(** ** Building frames *)

(** The frame [Set] is asked for. *)
Definition sent_frame (f i : Z) (arg : content_arg) : frame :=
  if carriesContent f then
    FData f i (match arg with ArgBytes (Some c) => c | _ => [] end)
  else if f =? muxMsgSendOk then
    FWindow i (match arg with ArgUint64 w => w | _ => 0 end)
  else FControl f i.

(** The arguments [Set] accepts. *)
Definition set_accepts (f : Z) (arg : content_arg) : bool :=
  if carriesContent f then
    match arg with
    | ArgBytes (Some c) => (0 <? Z.of_nat (length c)) && (Z.of_nat (length c) <=? maximumSegmentSize)
    | _ => false
    end
  else if f =? muxMsgSendOk then match arg with ArgUint64 _ => true | _ => false end
  else true.

Lemma base_Set_ok fresh c b :
  length (head b) = 13%nat -> Z.of_nat (length (unpack_buf fresh b)) = poolSizeWindowBuffer ->
  0 < Z.of_nat (length c) <= maximumSegmentSize ->
  base_Set fresh (Some c) b
  = (mkBase (head b) (Z.of_nat (length c)) (Some (blit (unpack_buf fresh b) 0 c)), None).
Proof.
  intros Hh Hb Hc. unfold base_Set, base_reset. cbn [head length_ content].
  fold (unpack_buf fresh b).
  destruct (Z.of_nat (length c) =? 0) eqn:E0; zbool; [lia|].
  destruct (maximumSegmentSize <? Z.of_nat (length c)) eqn:E1; zbool; [lia|].
  destruct (Z.of_nat (length (unpack_buf fresh b)) <? Z.of_nat (length c)) eqn:E2; zbool;
    [unfold_sizes; lia|].
  rewrite u16_small; [done|]. unfold_sizes; lia.
Qed.

Lemma Set_packable fresh f i arg p :
  pooled p -> Z.of_nat (length fresh) = poolSizeWindowBuffer ->
  is_uint 8 f -> is_sint 32 i -> (forall w, arg = ArgUint64 w -> is_uint 64 w) ->
  set_accepts f arg = true ->
  exists p', Set_ fresh f i arg p = (p', None) /\ packable p' /\ frame_of p' = sent_frame f i arg.
Proof.
  intros Hp Hfresh Hf Hi Hw Ha. pose proof (unpack_buf_length _ _ Hp Hfresh) as Hbuf.
  destruct Hp as [Hh Hb]. unfold Set_, set_accepts, sent_frame, packable, pooled, frame_of in *.
  destruct (carriesContent f) eqn:Ec.
  - destruct arg as [|[c|]|w|]; try discriminate. zbool. cbn [base].
    rewrite base_Set_ok by done. eexists. split; [reflexivity|].
    cbn [with_base flag id base content length_ head window]. rewrite Ec.
    assert (length c <= length (unpack_buf fresh (base p)))%nat by (unfold_sizes; lia).
    split_and!; try done.
    + intros ? [= <-]. by rewrite length_blit by lia.
    + intros ->. discriminate Ec.
    + rewrite Nat2Z.id. f_equal. by apply blit_front.
  - destruct (f =? muxMsgSendOk) eqn:Ew; zbool.
    + destruct arg as [|[c|]|w|]; try discriminate.
      eexists. split; [reflexivity|]. cbn [flag id window base]. rewrite Ec.
      destruct (f =? muxMsgSendOk) eqn:Ew'; zbool; [|done]. split_and!; auto; discriminate.
    + eexists. split; [reflexivity|]. cbn [flag id window base]. rewrite Ec.
      destruct (f =? muxMsgSendOk) eqn:Ew'; zbool; [done|]. split_and!; auto; done.
Qed.

Lemma packable_wf_frame p : packable p -> wf_frame (frame_of p).
Proof.
  intros Hp. pose proof Hp as [_ (Hf & Hi & Hc & Hw)]. unfold frame_of.
  destruct (carriesContent (flag p)) eqn:Ec.
  - destruct (packable_content p Hp Ec) as (buf & E & _ & El). rewrite E.
    cbn [wf_frame]. change (default [] (Some buf)) with buf. rewrite El.
    destruct (Hc eq_refl). tauto.
  - destruct (flag p =? muxMsgSendOk) eqn:Ew; zbool; cbn [wf_frame]; auto.
Qed.

Lemma Set_rejects fresh f i arg p p' :
  set_accepts f arg = false -> Set_ fresh f i arg p <> (p', None).
Proof.
  unfold Set_, set_accepts. destruct (carriesContent f).
  - destruct arg as [|[c|]|w|]; try discriminate. intros H. unfold base_Set.
    destruct (Z.of_nat (length c) =? 0) eqn:E0; [discriminate|].
    destruct (maximumSegmentSize <? Z.of_nat (length c)) eqn:E1; [discriminate|].
    zbool; lia.
  - destruct (f =? muxMsgSendOk); [|discriminate].
    destruct arg; discriminate.
Qed.

(** ** Errors *)

(** Zero bytes that complete a short read. *)
Definition pad (n : nat) (s : list byte) : list byte := s ++ replicate (n - length s) x00.

Lemma pad_length n s : (length s <= n)%nat -> length (pad n s) = n.
Proof. intros Hs. unfold pad. rewrite length_app, length_replicate. lia. Qed.

(** What is missing of [s] when [s] stops inside the encoding of a frame. *)
Definition cut_frame (s : list byte) : Prop :=
  exists fr more, wf_frame fr /\ more <> [] /\ s ++ more = encode_frame fr.

Lemma cut_frame_pad n a s b :
  (length s < n)%nat -> (exists fr, wf_frame fr /\ a ++ pad n s ++ b = encode_frame fr) -> cut_frame (a ++ s).
Proof.
  intros Hs (fr & Hfr & E). exists fr, (replicate (n - length s) x00 ++ b). split_and!; [done| |].
  - destruct (n - length s)%nat eqn:En; [lia|done].
  - by rewrite <- E, <- app_assoc; unfold pad; rewrite <- app_assoc.
Qed.

(** Every header is the start of some well-formed frame. *)
Lemma header_completes f i : is_uint 8 f -> is_sint 32 i ->
  exists fr body, wf_frame fr /\ (byte_of_Z f :: le_put 4 (u32 i)) ++ body = encode_frame fr.
Proof.
  intros Hf Hi. destruct (carriesContent f) eqn:Ec; [|destruct (decide (f = muxMsgSendOk)) as [->|Hne]].
  - exists (FData f i []). eexists. split; [|by rewrite <- app_comm_cons]. split_and!; [done|done|by vm_compute].
  - exists (FWindow i 0). eexists. split; [|by rewrite <- app_comm_cons]. by split; [|unfold is_uint; lia].
  - exists (FControl f i), []. by rewrite app_nil_r.
Qed.

Lemma byte_prefix_small s : (length s < 2)%nat -> le_get (pad 2 s) <= 255.
Proof.
  destruct s as [|b [|? ?]]; intros Hs; [by vm_compute| |cbn in Hs; lia].
  cbn. pose proof (Z_of_byte_range b). change (Z_of_byte x00) with 0. lia.
Qed.

Lemma data_completes f i d p : carriesContent f = true -> is_sint 32 i -> length d = 2%nat ->
  le_get d <= maximumSegmentSize -> Z.of_nat (length p) = le_get d ->
  exists fr, wf_frame fr /\ (byte_of_Z f :: le_put 4 (u32 i)) ++ d ++ p = encode_frame fr.
Proof.
  intros Hf Hi Hd Hm Hp. exists (FData f i p). split; [by rewrite <- Hp in Hm|]. unfold encode_frame.
  rewrite Hp, <- app_comm_cons. by replace (le_put 2 (le_get d)) with d by (by rewrite <- Hd, le_put_get).
Qed.

Lemma base_UnPack_errors fresh b f i s b' s' n e :
  length (head b) = 13%nat -> Z.of_nat (length (unpack_buf fresh b)) = poolSizeWindowBuffer ->
  carriesContent f = true -> is_sint 32 i -> base_UnPack fresh b s = (b', s', n, Some e) ->
  (exists r, e = ErrRead r) /\ s' = [] /\ cut_frame ((byte_of_Z f :: le_put 4 (u32 i)) ++ s) \/
  e = ErrUnpackSegmentTooLarge /\ exists len, maximumSegmentSize < len < 2 ^ 16 /\ s = le_put 2 len ++ s'.
Proof.
  intros Hh Hbuf Hf Hi. unfold base_UnPack, base_reset. cbn [head length_ content].
  destruct (ReadFull 2 s) as [[d s1] [r|]] eqn:E1.
  { apply ReadFull_err in E1 as (-> & -> & Hs). intros [= _ <- _ <-]. left. split_and!; [by eexists|done|].
    pose proof (byte_prefix_small s Hs) as Hb. pose proof (pad_length 2 s ltac:(lia)) as Hp.
    pose proof (le_get_range (pad 2 s)) as Hr.
    apply (cut_frame_pad 2 _ _ (replicate (Z.to_nat (le_get (pad 2 s))) x00)); [done|].
    apply data_completes; try done; [unfold_sizes; lia|]. rewrite length_replicate. lia. }
  apply ReadFull_ok in E1 as [-> Hd].
  destruct (blit_head_read (head b) 5 d Hh) as [_ E]; [lia|]. rewrite Hd in E. rewrite E.
  fold (unpack_buf fresh b). pose proof (le_get_range d) as Hr. rewrite Hd in Hr.
  destruct (maximumSegmentSize <? le_get d) eqn:Em; zbool.
  { intros [= _ <- _ <-]. right. split; [done|]. exists (le_get d). split; [split; [done|apply Hr]|].
    by replace (le_put 2 (le_get d)) with d by (by rewrite <- Hd, le_put_get). }
  destruct (Z.of_nat (length (unpack_buf fresh b)) <? le_get d) eqn:El; zbool; [unfold_sizes; lia|].
  destruct (ReadFull (Z.to_nat (le_get d)) s1) as [[p s2] [r|]] eqn:E2; [|discriminate].
  apply ReadFull_err in E2 as (-> & -> & Hs). intros [= _ <- _ <-]. left. split_and!; [by eexists|done|].
  rewrite app_assoc. apply (cut_frame_pad (Z.to_nat (le_get d)) _ _ []); [done|].
  rewrite app_nil_r, <- app_assoc. apply data_completes; try done. rewrite pad_length; lia.
Qed.

(** ** Properties *)

(** C1. The wire codec round trips: when [Set] succeeds on a pooled packager,
    [Pack] writes one frame without panicking, and [UnPack] on any pooled
    packager, fed with those bytes followed by arbitrary others, returns without
    error a packager standing for the very frame that was asked for (flag,
    stream id and payload or window), leaves exactly the other bytes unread, and
    reports the exact number of bytes consumed. *)
Theorem pack_unpack_roundtrip fresh fresh' f i arg p p1 q w rest :
  pooled p -> pooled q ->
  Z.of_nat (length fresh) = poolSizeWindowBuffer ->
  Z.of_nat (length fresh') = poolSizeWindowBuffer ->
  is_uint 8 f -> is_sint 32 i -> (forall v, arg = ArgUint64 v -> is_uint 64 v) ->
  Set_ fresh f i arg p = (p1, None) ->
  exists p2 bytes q',
    Pack append_write p1 w = Some (p2, w ++ bytes, None) /\
    UnPack fresh' q (bytes ++ rest) = (q', rest, Z.of_nat (length bytes), None) /\
    frame_of q' = sent_frame f i arg.
Proof.
  intros Hp Hq Hfr Hfr' Hf Hi Hw Hset.
  destruct (set_accepts f arg) eqn:Ha; [|by destruct (Set_rejects fresh f i arg p p1 Ha)].
  destruct (Set_packable fresh f i arg p) as (p1' & E & Hpk & Hfo); auto.
  rewrite E in Hset. simplify_eq.
  destruct (Pack_append p1 w Hpk) as (p2 & EP & _).
  assert (wf_frame (frame_of p1)) as Hwf by by apply packable_wf_frame.
  destruct (UnPack_decode fresh' q (frame_of p1) rest Hq Hfr' Hwf) as (q' & EU & EF & _).
  exists p2, (encode_frame (frame_of p1)), q'. by rewrite EF.
Qed.

(** A packager as [sync.Pool] creates it. *)
Definition fresh_packager : muxPackager :=
  mkPackager 0 0 0 false None (mkBase (replicate 13 x00) 0 None).
Definition fresh_buffer : list byte := replicate 4096 x00.

Lemma fresh_packager_pooled : pooled fresh_packager.
Proof. split; [done|]. intros ? [=]. Qed.

Lemma fresh_buffer_length : Z.of_nat (length fresh_buffer) = poolSizeWindowBuffer.
Proof. vm_compute. reflexivity. Qed.

#[export] Hint Resolve fresh_packager_pooled fresh_buffer_length : nps.

Lemma pack_unpack_roundtrip_witness :
  let arg := ArgBytes (Some [x68; x69]) in
  let p1 := fst (Set_ fresh_buffer muxNewMsg (-7) arg fresh_packager) in
  exists p2 bytes q',
    Pack append_write p1 [] = Some (p2, [] ++ bytes, None) /\
    UnPack fresh_buffer fresh_packager (bytes ++ [xff]) = (q', [xff], Z.of_nat (length bytes), None) /\
    frame_of q' = FData muxNewMsg (-7) [x68; x69].
Proof.
  intros arg p1.
  apply (pack_unpack_roundtrip fresh_buffer fresh_buffer muxNewMsg (-7) arg fresh_packager p1
           fresh_packager [] [xff]).
  - apply fresh_packager_pooled.
  - apply fresh_packager_pooled.
  - vm_compute. reflexivity.
  - vm_compute. reflexivity.
  - vm_compute. split; congruence.
  - vm_compute. split; congruence.
  - intros v [=].
  - vm_compute. reflexivity.
Defined.

(** C2. Whatever bytes a peer sends, [UnPack] either reports an error or has
    consumed the encoding of exactly one well-formed frame, the one the packager
    now stands for: the payload is at most [maximumSegmentSize] bytes, the
    header array and the pooled buffer keep their sizes, and the returned count
    is the number of bytes consumed, without 16-bit overflow. *)
Theorem UnPack_sound fresh q s q' s' n :
  pooled q -> Z.of_nat (length fresh) = poolSizeWindowBuffer ->
  UnPack fresh q s = (q', s', n, None) ->
  wf_frame (frame_of q') /\ s = encode_frame (frame_of q') ++ s' /\
  n = Z.of_nat (length s) - Z.of_nat (length s') /\ pooled q'.
Proof.
  intros Hq Hfresh H.
  destruct (UnPack_accepts fresh q s q' s' n Hq Hfresh H) as (fr & Hwf & ->).
  destruct (UnPack_decode fresh q fr s' Hq Hfresh Hwf) as (q2 & E & Hfo & Hq2).
  rewrite E in H. simplify_eq. rewrite length_app. split_and!; try done. lia.
Qed.

Lemma UnPack_sound_witness :
  let s := [x05; x03; x00; x00; x00; x10; x00; x00; x00; x20; x00; x00; x00; xaa] in
  let r := UnPack fresh_buffer fresh_packager s in
  wf_frame (frame_of (fst (fst (fst r)))) /\
  s = encode_frame (frame_of (fst (fst (fst r)))) ++ [xaa] /\
  13 = Z.of_nat (length s) - Z.of_nat (length [xaa]) /\ pooled (fst (fst (fst r))).
Proof.
  intros s r.
  apply (UnPack_sound fresh_buffer fresh_packager s (fst (fst (fst r))) [xaa] 13).
  - apply fresh_packager_pooled.
  - vm_compute. reflexivity.
  - vm_compute. reflexivity.
Defined.

(** Packing a sequence of packagers onto one transport. *)
Fixpoint pack_all (ps : list muxPackager) (w : list byte) : option (list byte) :=
  match ps with
  | [] => Some w
  | p :: ps =>
    match Pack append_write p w with
    | Some (_, w, None) => pack_all ps w
    | _ => None
    end
  end.

(** Reading [n] frames one after the other, a pooled packager for each. *)
Fixpoint unpack_n (n : nat) (s : list byte) : option (list frame * list byte) :=
  match n with
  | O => Some ([], s)
  | S n =>
    match UnPack fresh_buffer fresh_packager s with
    | (q, s, _, None) =>
      match unpack_n n s with
      | Some (frs, s) => Some (frame_of q :: frs, s)
      | None => None
      end
    | _ => None
    end
  end.

(** C3. Every error of [UnPack] has a cause in the bytes: either the stream ended inside
    what can still become a well-formed frame, and then it is a read error and nothing is
    left unread; or the header announces a segment larger than [maximumSegmentSize], which
    is reported before any of the payload is read.  No other error occurs. *)
Theorem UnPack_errors fresh q s q' s' n e :
  pooled q -> Z.of_nat (length fresh) = poolSizeWindowBuffer ->
  UnPack fresh q s = (q', s', n, Some e) ->
  (exists r, e = ErrRead r) /\ s' = [] /\ cut_frame s \/
  e = ErrUnpackSegmentTooLarge /\ exists f i len, carriesContent f = true /\ is_sint 32 i /\
    maximumSegmentSize < len < 2 ^ 16 /\ s = (byte_of_Z f :: le_put 4 (u32 i)) ++ le_put 2 len ++ s'.
Proof.
  intros Hq Hfresh H. pose proof Hq as [Hh _].
  destruct (ReadFull 5 s) as [[d s1] [r|]] eqn:E1.
  { unfold UnPack in H. rewrite E1 in H. apply ReadFull_err in E1 as (-> & -> & Hs). simplify_eq.
    left. split_and!; [by eexists|done|]. destruct (header_bytes (pad 5 s)) as (f & i & E & Hf & Hi); [by apply pad_length; lia|].
    destruct (header_completes f i Hf Hi) as (fr & body & Hfr & Efr).
    apply (cut_frame_pad 5 [] s body); [done|]. exists fr. by rewrite <- Efr, <- E. }
  apply ReadFull_ok in E1 as [-> Hd]. destruct (header_bytes d Hd) as (f & i & -> & Hf & Hi).
  rewrite UnPack_header in H by done. unfold unpack_body in H. cbn [flag with_header] in H.
  pose proof (with_header_pooled q f i Hq) as Hq1.
  destruct (carriesContent f) eqn:Ec; [|destruct (f =? muxMsgSendOk) eqn:Ew; zbool; [subst f|discriminate]].
  - destruct (base_UnPack _ _ _) as [[[b s2] m] err] eqn:Eb. simplify_eq.
    destruct (base_UnPack_errors fresh _ f i s1 b s' m e (proj1 Hq1) (unpack_buf_length _ _ Hq1 Hfresh) Ec Hi Eb)
      as [?|(-> & len & Hl & ->)]; [by left|right]. split; [done|]. by exists f, i, len.
  - destruct (ReadFull 8 s1) as [[d s2] [r|]] eqn:E2; [|discriminate].
    apply ReadFull_err in E2 as (-> & -> & Hs). simplify_eq. left. split_and!; [by eexists|done|].
    apply (cut_frame_pad 8 _ _ []); [done|]. exists (FWindow i (le_get (pad 8 s1))). rewrite app_nil_r.
    pose proof (pad_length 8 s1 ltac:(lia)) as Hp. pose proof (le_get_range (pad 8 s1)) as Hr. rewrite Hp in Hr.
    split; [by split|]. unfold encode_frame. rewrite <- app_comm_cons.
    by replace (le_put 8 (le_get (pad 8 s1))) with (pad 8 s1) by (by rewrite <- Hp at 2; rewrite le_put_get).
Qed.

Lemma UnPack_errors_witness :
  let s := [x05; x03; x00; x00; x00; x10; x00] in
  let r := UnPack fresh_buffer fresh_packager s in
  snd r = Some (ErrRead ErrUnexpectedEOF) /\ cut_frame s.
Proof.
  intros s r. split; [by vm_compute|].
  destruct (UnPack_errors fresh_buffer fresh_packager s (fst (fst (fst r))) [] 5 (ErrRead ErrUnexpectedEOF)) as [(_ & _ & H)|[H _]].
  - apply fresh_packager_pooled.
  - vm_compute. reflexivity.
  - vm_compute. reflexivity.
  - exact H.
  - discriminate H.
Defined.

Lemma pack_all_append ps w :
  Forall packable ps -> pack_all ps w = Some (w ++ concat (map (fun p => encode_frame (frame_of p)) ps)).
Proof.
  intros H. revert w. induction H as [|p ps Hp _ IH]; intros w; simpl.
  - by rewrite app_nil_r.
  - destruct (Pack_append p w Hp) as (p' & -> & _). by rewrite IH, <- app_assoc.
Qed.

(** Frames are self-delimiting: the byte stream produced by packing any
    sequence of frames decodes to that sequence, in order, and stops exactly at
    its end whatever follows. *)
Theorem packed_stream_decodes ps bytes rest :
  Forall packable ps -> pack_all ps [] = Some bytes ->
  unpack_n (length ps) (bytes ++ rest) = Some (map frame_of ps, rest).
Proof.
  intros H. rewrite pack_all_append by done. cbn [app]. intros [= <-].
  induction H as [|p ps Hp _ IH]; [done|]. cbn [length map concat unpack_n].
  rewrite <- app_assoc.
  destruct (UnPack_decode fresh_buffer fresh_packager (frame_of p)
    (concat (map (fun p => encode_frame (frame_of p)) ps) ++ rest)
    fresh_packager_pooled fresh_buffer_length (packable_wf_frame p Hp)) as (q' & -> & -> & _).
  by rewrite IH.
Qed.

Lemma packed_stream_decodes_witness :
  let ps := [fst (Set_ fresh_buffer muxNewConn 3 ArgNil fresh_packager);
             fst (Set_ fresh_buffer muxMsgSendOk 3 (ArgUint64 12345) fresh_packager)] in
  let bytes := default [] (pack_all ps []) in
  unpack_n (length ps) (bytes ++ [x01]) = Some (map frame_of ps, [x01]).
Proof.
  intros ps bytes. apply (packed_stream_decodes ps bytes [x01]).
  - assert (forall f arg, set_accepts f arg = true -> is_uint 8 f ->
      (forall v, arg = ArgUint64 v -> is_uint 64 v) ->
      packable (fst (Set_ fresh_buffer f 3 arg fresh_packager))) as Hset.
    { intros f arg Ha Hf Hv.
      destruct (Set_packable fresh_buffer f 3 arg fresh_packager
        fresh_packager_pooled fresh_buffer_length Hf ltac:(vm_compute; split; congruence) Hv Ha)
        as (p' & E & Hp & _).
      by rewrite E. }
    apply List.Forall_cons; [|apply List.Forall_cons; [|apply List.Forall_nil]].
    + apply (Hset muxNewConn ArgNil); [reflexivity|vm_compute; split; congruence|intros v [=]].
    + apply (Hset muxMsgSendOk (ArgUint64 12345));
        [reflexivity|vm_compute; split; congruence|].
      intros v [= <-]. vm_compute; split; congruence.
  - vm_compute. reflexivity.
Defined.
