(* ===== verification/StreamBuckets.v ===== *)
(** Per-stream buckets of the write queue: [lib/mux/queue_stream_bucket.go].

    A [streamBucketSet] keeps one FIFO of packagers per stream id and a doubly
    linked list of the streams that have something to send.  The code is pointer
    based: packagers are linked through [queueNext], buckets through
    [prevActive]/[nextActive], and emptied buckets go back to a [sync.Pool].  The
    model keeps that heap ([Record heap]); a nil dereference is [None].

    [Module Spec] is the contract: a list of streams in service order, each with
    its packagers.  [push_refines] and [pop_refines] show that the pointer
    operations never panic and implement it. *)

From S2P Require Import Prelude Packager.
Local Open Scope Z_scope.

(** ** The heap *)
Abbreviation bloc := nat.

Record streamBucket := mkBucket {
  b_id : Z;
  b_head : option loc;
  b_tail : option loc;
  prevActive : option bloc;
  nextActive : option bloc;
  active : bool;
}.

Definition zeroBucket : streamBucket := mkBucket 0 None None None None false.

Record heap := mkHeap {
  packs : gmap loc muxPackager;
  bks : gmap bloc streamBucket;
  streamBucketPool : list bloc;
}.

Record streamBucketSet := mkSet {
  buckets : gmap Z bloc;
  activeHead : option bloc;
  activeTail : option bloc;
}.

(** Field updates through a pointer; [None] when the pointer is dangling. *)
Definition set_next (h : heap) (l : loc) (nx : option loc) : option heap :=
  p ← packs h !! l;
  Some (mkHeap (<[l := mkPackager (flag p) (id p) (window p) (priority p) nx (base p)]> (packs h))
          (bks h) (streamBucketPool h)).

Definition upd_bucket (h : heap) (b : bloc) (f : streamBucket -> streamBucket) : option heap :=
  B ← bks h !! b;
  Some (mkHeap (packs h) (<[b := f B]> (bks h)) (streamBucketPool h)).

(** ** Operations *)
Definition set_init : streamBucketSet := mkSet ∅ None None.

Definition hasPending (s : streamBucketSet) : bool :=
  match activeHead s with Some _ => true | None => false end.

(** [sync.Pool.Get] hands out the bucket returned last, or a new one. *)
Definition getStreamBucket (h : heap) (i : Z) : option (heap * bloc) :=
  match streamBucketPool h with
  | b :: rest =>
    h ← upd_bucket (mkHeap (packs h) (bks h) rest) b
          (fun B => mkBucket i (b_head B) (b_tail B) (prevActive B) (nextActive B) (active B));
    Some (h, b)
  | [] =>
    let b := fresh (dom (bks h)) in
    Some (mkHeap (packs h)
            (<[b := mkBucket i None None None None false]> (bks h)) [], b)
  end.

Definition putStreamBucket (h : heap) (b : bloc) : option heap :=
  h ← upd_bucket h b (fun _ => zeroBucket);
  Some (mkHeap (packs h) (bks h) (b :: streamBucketPool h)).

Definition appendActive (h : heap) (s : streamBucketSet) (b : bloc)
  : option (heap * streamBucketSet) :=
  h ← upd_bucket h b
        (fun B => mkBucket (b_id B) (b_head B) (b_tail B) (activeTail s) None true);
  match activeTail s with
  | Some t =>
    h ← upd_bucket h t
          (fun T => mkBucket (b_id T) (b_head T) (b_tail T) (prevActive T) (Some b) (active T));
    Some (h, mkSet (buckets s) (activeHead s) (Some b))
  | None => Some (h, mkSet (buckets s) (Some b) (Some b))
  end.

Definition detachActive (h : heap) (s : streamBucketSet) (b : bloc)
  : option (heap * streamBucketSet) :=
  B ← bks h !! b;
  '(h, s) ← match prevActive B with
            | Some p =>
              h ← upd_bucket h p
                    (fun P => mkBucket (b_id P) (b_head P) (b_tail P) (prevActive P) (nextActive B) (active P));
              Some (h, s)
            | None => Some (h, mkSet (buckets s) (nextActive B) (activeTail s))
            end;
  B ← bks h !! b;
  '(h, s) ← match nextActive B with
            | Some n =>
              h ← upd_bucket h n
                    (fun N => mkBucket (b_id N) (b_head N) (b_tail N) (prevActive B) (nextActive N) (active N));
              Some (h, s)
            | None => Some (h, mkSet (buckets s) (activeHead s) (prevActive B))
            end;
  h ← upd_bucket h b
        (fun B => mkBucket (b_id B) (b_head B) (b_tail B) None None (active B));
  Some (h, s).

Definition moveActiveToTail (h : heap) (s : streamBucketSet) (b : bloc)
  : option (heap * streamBucketSet) :=
  if decide (activeTail s = Some b) then Some (h, s)
  else '(h, s) ← detachActive h s b; appendActive h s b.

Definition removeActive (h : heap) (s : streamBucketSet) (b : bloc)
  : option (heap * streamBucketSet) :=
  B ← bks h !! b;
  if active B then
    '(h, s) ← detachActive h s b;
    h ← upd_bucket h b
          (fun B => mkBucket (b_id B) (b_head B) (b_tail B) (prevActive B) (nextActive B) false);
    Some (h, s)
  else Some (h, s).

Definition set_push (h : heap) (s : streamBucketSet) (l : loc)
  : option (heap * streamBucketSet) :=
  p ← packs h !! l;
  '(h, s, b) ← match buckets s !! id p with
               | Some b => Some (h, s, b)
               | None =>
                 '(h, b) ← getStreamBucket h (id p);
                 Some (h, mkSet (<[id p := b]> (buckets s)) (activeHead s) (activeTail s), b)
               end;
  h ← set_next h l None;
  B ← bks h !! b;
  h ← match b_tail B with
      | None =>
        upd_bucket h b
          (fun B => mkBucket (b_id B) (Some l) (Some l) (prevActive B) (nextActive B) (active B))
      | Some t =>
        h ← set_next h t (Some l);
        upd_bucket h b
          (fun B => mkBucket (b_id B) (b_head B) (Some l) (prevActive B) (nextActive B) (active B))
      end;
  B ← bks h !! b;
  if active B then Some (h, s) else appendActive h s b.

Definition set_pop (h : heap) (s : streamBucketSet)
  : option (option loc * heap * streamBucketSet) :=
  match activeHead s with
  | None => Some (None, h, s)
  | Some b =>
    B ← bks h !! b;
    match b_head B with
    | None => Some (None, h, s)
    | Some l =>
      p ← packs h !! l;
      h ← upd_bucket h b
            (fun B => mkBucket (b_id B) (queueNext p)
                        (match queueNext p with None => None | Some _ => b_tail B end)
                        (prevActive B) (nextActive B) (active B));
      h ← set_next h l None;
      B ← bks h !! b;
      match b_head B with
      | None =>
        '(h, s) ← removeActive h s b;
        B ← bks h !! b;
        h ← putStreamBucket h b;
        Some (Some l, h, mkSet (delete (b_id B) (buckets s)) (activeHead s) (activeTail s))
      | Some _ =>
        '(h, s) ← moveActiveToTail h s b;
        Some (Some l, h, s)
      end
    end
  end.

(** ** The contract *)
Module Spec.
(** Streams in service order, each with the packagers it has to send. *)
Abbreviation sset := (list (Z * list loc)).

Fixpoint push (i : Z) (l : loc) (a : sset) : sset :=
  match a with
  | [] => [(i, [l])]
  | (j, ps) :: a => if decide (i = j) then (j, ps ++ [l]) :: a else (j, ps) :: push i l a
  end.

(** The first stream is served; if it still has packagers it goes last. *)
Definition pop (a : sset) : option loc * sset :=
  match a with
  | (i, l :: ps) :: a =>
    (Some l, match ps with [] => a | _ => a ++ [(i, ps)] end)
  | _ => (None, a)
  end.

(** The packagers of stream [i], oldest first. *)
Definition stream (i : Z) (a : sset) : list loc :=
  concat (snd <$> filter (fun e => fst e = i) a).

Definition wf (a : sset) : Prop := NoDup a.*1 /\ Forall (fun e => snd e <> []) a.
End Spec.

(** ** Representation *)

(** A bucket's address with the stream it holds. *)
Abbreviation ent := (bloc * (Z * list loc))%type.

Definition hd_or {A} (xs : list A) (d : option A) : option A :=
  match xs with [] => d | x :: _ => Some x end.

(** [ps] is linked through [queueNext] and its last cell points to [nxt]. *)
Fixpoint pseg (m : gmap loc muxPackager) (ps : list loc) (nxt : option loc) : Prop :=
  match ps with
  | [] => True
  | x :: xs => (exists p, m !! x = Some p /\ queueNext p = hd_or xs nxt) /\ pseg m xs nxt
  end.

(** The buckets of [es] form a doubly linked segment between [prev] and [nxt],
    each holding its stream. *)
Fixpoint seg (h : heap) (prev : option bloc) (es : list ent) (nxt : option bloc) : Prop :=
  match es with
  | [] => True
  | (b, (i, ps)) :: es' =>
    bks h !! b = Some (mkBucket i (hd_error ps) (last ps) prev (hd_or (es'.*1) nxt) true) /\
    ps <> [] /\ pseg (packs h) ps None /\ seg h (Some b) es' nxt
  end.

Definition locs_of (es : list ent) : list loc := concat (es.*2.*2).
Definition last_or {A} (xs : list A) (d : option A) : option A :=
  match last xs with Some x => Some x | None => d end.

Record set_rep (h : heap) (s : streamBucketSet) (es : list ent) : Prop := {
  rep_seg : seg h None es None;
  rep_head : activeHead s = hd_error (es.*1);
  rep_tail : activeTail s = last (es.*1);
  rep_buckets : buckets s = list_to_map ((fun e => (fst (snd e), fst e)) <$> es);
  rep_nodup_b : NoDup (es.*1);
  rep_nodup_i : NoDup (es.*2.*1);
  rep_nodup_l : NoDup (locs_of es);
}.

(** The pool holds zeroed buckets nobody uses. *)
Record pool_ok (h : heap) (used : list bloc) : Prop := {
  pool_nodup : NoDup (streamBucketPool h ++ used);
  pool_zero : forall b, b ∈ streamBucketPool h -> bks h !! b = Some zeroBucket;
  pool_used : forall b, b ∈ used -> is_Some (bks h !! b);
}.

(** A packager without its link: what the queue must not change. *)
Definition noNext (p : muxPackager) : muxPackager :=
  mkPackager (flag p) (id p) (window p) (priority p) None (base p).
Definition cores (h : heap) : gmap loc muxPackager := noNext <$> packs h.

Lemma set_next_eq h l p nx :
  packs h !! l = Some p ->
  set_next h l nx = Some (mkHeap
    (<[l := mkPackager (flag p) (id p) (window p) (priority p) nx (base p)]> (packs h))
    (bks h) (streamBucketPool h)).
Proof. intros H. unfold set_next. by rewrite H. Qed.

Lemma upd_bucket_eq h b B f :
  bks h !! b = Some B ->
  upd_bucket h b f = Some (mkHeap (packs h) (<[b := f B]> (bks h)) (streamBucketPool h)).
Proof. intros H. unfold upd_bucket. by rewrite H. Qed.

Lemma core_insert (m : gmap loc muxPackager) l p nx :
  m !! l = Some p ->
  noNext <$> <[l := mkPackager (flag p) (id p) (window p) (priority p) nx (base p)]> m = noNext <$> m.
Proof.
  intros H. rewrite fmap_insert. apply insert_id. rewrite lookup_fmap, H. done.
Qed.

Lemma core_lookup h h' l p :
  cores h' = cores h -> packs h !! l = Some p ->
  exists p', packs h' !! l = Some p' /\ noNext p' = noNext p.
Proof.
  intros Hc H. apply (f_equal (fun m => m !! l)) in Hc. unfold cores in Hc.
  rewrite !lookup_fmap, H in Hc. destruct (packs h' !! l) as [p'|]; [|discriminate].
  exists p'. split; [done|]. by apply (inj Some).
Qed.

(** *** Segments *)
Lemma pseg_app m a b nxt : pseg m (a ++ b) nxt <-> pseg m a (hd_or b nxt) /\ pseg m b nxt.
Proof.
  induction a as [|x a IH]; simpl; [tauto|]. rewrite IH.
  destruct a; simpl; tauto.
Qed.

Lemma pseg_frame (m m' : gmap loc muxPackager) ps nxt :
  (forall x, x ∈ ps -> m' !! x = m !! x) -> pseg m ps nxt -> pseg m' ps nxt.
Proof.
  induction ps as [|x ps IH]; simpl; [done|]. intros Hm [(p & Hp & Hn) H]. split.
  - exists p. rewrite Hm by set_solver. done.
  - apply IH; [set_solver|done].
Qed.

Lemma seg_app h prev a b nxt :
  seg h prev (a ++ b) nxt <->
  seg h prev a (hd_or (b.*1) nxt) /\ seg h (last_or (a.*1) prev) b nxt.
Proof.
  revert prev. induction a as [|[x [i ps]] a IH]; intros prev; [simpl; tauto|].
  cbn [app seg fmap list_fmap fst]. rewrite IH, fmap_app.
  replace (last_or (x :: a.*1) prev) with (last_or (a.*1) (Some x)).
  - destruct a; simpl; tauto.
  - unfold last_or. destruct a as [|[y ?] a]; [done|]. cbn [fmap list_fmap fst].
    rewrite (last_cons x). by destruct (last (y :: _)) eqn:E; [|apply last_None in E].
Qed.

Lemma seg_frame h h' prev es nxt :
  (forall b, b ∈ es.*1 -> bks h' !! b = bks h !! b) ->
  (forall x, x ∈ locs_of es -> packs h' !! x = packs h !! x) ->
  seg h prev es nxt -> seg h' prev es nxt.
Proof.
  revert prev. induction es as [|[b [i ps]] es IH]; intros prev Hb Hl; [done|].
  cbn [seg]. intros (H1 & H2 & H3 & H4). unfold locs_of in Hl. csimpl in Hl. split_and!.
  - rewrite Hb by (csimpl; set_solver). done.
  - done.
  - eapply pseg_frame; [|done]. intros x Hx. apply Hl, elem_of_app. by left.
  - apply IH; [| |done].
    + intros c Hc. apply Hb. csimpl. by right.
    + intros x Hx. apply Hl, elem_of_app. by right.
Qed.

Lemma seg_lookup h prev es nxt b :
  seg h prev es nxt -> b ∈ es.*1 -> is_Some (bks h !! b).
Proof.
  revert prev. induction es as [|[c [i ps]] es IH]; intros prev; csimpl; [set_solver|].
  intros (H1 & _ & _ & H4) Hb. apply elem_of_cons in Hb as [->|Hb]; eauto.
Qed.

(** *** The active list *)

(** [appendActive] links a detached bucket behind the last one. *)
Lemma appendActive_seg h s es b i ps pv nx ac :
  seg h None es None -> activeTail s = last (es.*1) -> activeHead s = hd_error (es.*1) ->
  b ∉ es.*1 -> NoDup (es.*1) ->
  bks h !! b = Some (mkBucket i (hd_error ps) (last ps) pv nx ac) ->
  ps <> [] -> pseg (packs h) ps None ->
  exists h' s', appendActive h s b = Some (h', s') /\
    seg h' None (es ++ [(b, (i, ps))]) None /\
    activeHead s' = hd_error ((es ++ [(b, (i, ps))]).*1) /\
    activeTail s' = last ((es ++ [(b, (i, ps))]).*1) /\
    buckets s' = buckets s /\ packs h' = packs h /\
    streamBucketPool h' = streamBucketPool h /\
    (forall c, c ∉ b :: es.*1 -> bks h' !! c = bks h !! c).
Proof.
  intros Hseg Ht Hh Hb Hnd HB Hps Hch. unfold appendActive.
  rewrite (upd_bucket_eq _ _ _ _ HB). cbn [mbind option_bind].
  destruct es as [|e es0 _] using rev_ind.
  - cbn in Ht. rewrite Ht. eexists _, _. split; [reflexivity|]. cbn. split_and!; try done.
    + by rewrite lookup_insert_eq.
    + intros c Hc. rewrite lookup_insert_ne by set_solver. done.
  - destruct e as [t [j qs]]. rewrite fmap_app in *. cbn [fmap list_fmap fst] in *.
    rewrite last_snoc in Ht. rewrite Ht. apply seg_app in Hseg as [Hs1 Hs2].
    cbn [seg fmap list_fmap hd_or] in Hs1, Hs2. destruct Hs2 as (HT & Hqs & Hqch & _).
    assert (t <> b) by set_solver.
    erewrite upd_bucket_eq; [|cbn [bks]; by rewrite lookup_insert_ne].
    cbn [mbind option_bind]. eexists _, _. split; [reflexivity|].
    cbn [buckets activeHead activeTail packs streamBucketPool]. split_and!; try done.
    + apply seg_app. split; [apply seg_app; split|].
      * cbn [seg fmap list_fmap hd_or] in *. eapply seg_frame; [| |exact Hs1]; cbn [bks packs]; [|done].
        intros c Hc. apply NoDup_app in Hnd as (_ & Hnd & _).
        assert (t <> c) by (intros <-; apply (Hnd t Hc); by left).
        assert (b <> c) by (intros <-; apply Hb, elem_of_app; by left).
        by rewrite !lookup_insert_ne.
      * cbn [seg fmap list_fmap hd_or bks packs]. rewrite lookup_insert_eq. done.
      * rewrite fmap_app. cbn [fmap list_fmap fst seg hd_or bks packs].
        unfold last_or. rewrite last_snoc.
        rewrite lookup_insert_ne, lookup_insert_eq by done. done.
    + rewrite !fmap_app. cbn [fmap list_fmap fst]. rewrite Hh. by destruct (es0.*1).
    + rewrite !fmap_app. cbn [fmap list_fmap fst]. by rewrite last_snoc.
    + intros c [Hcb Hc]%not_elem_of_cons. cbn [bks].
      rewrite fmap_app in Hc.
      assert (t <> c) by (intros <-; apply Hc, elem_of_app; right; by left).
      by rewrite !lookup_insert_ne.
Qed.

(** Detaching the first bucket of the active list. *)
Lemma detachActive_head h s b i hd tl es :
  bks h !! b = Some (mkBucket i hd tl None (hd_error (es.*1)) true) ->
  seg h (Some b) es None -> activeTail s = last (b :: es.*1) -> NoDup (b :: es.*1) ->
  exists h' s', detachActive h s b = Some (h', s') /\
    seg h' None es None /\
    activeHead s' = hd_error (es.*1) /\ activeTail s' = last (es.*1) /\
    buckets s' = buckets s /\ packs h' = packs h /\
    streamBucketPool h' = streamBucketPool h /\
    bks h' !! b = Some (mkBucket i hd tl None None true) /\
    (forall c, c ∉ b :: es.*1 -> bks h' !! c = bks h !! c).
Proof.
  intros HB Hseg Ht Hnd. unfold detachActive. rewrite HB. cbn [mbind option_bind prevActive nextActive].
  rewrite HB. cbn [mbind option_bind prevActive nextActive].
  destruct es as [|[c [j ps]] es]; cbn [fmap list_fmap fst hd_error] in *.
  - cbn [mbind option_bind]. erewrite upd_bucket_eq by exact HB.
    eexists _, _. split; [reflexivity|]. cbn [activeHead activeTail buckets packs bks streamBucketPool].
    split_and!; try done.
    + by rewrite lookup_insert_eq.
    + intros c [Hc _]%not_elem_of_cons. by rewrite lookup_insert_ne.
  - destruct Hseg as (HC & Hps & Hch & Hseg).
    assert (b <> c) by (intros ->; apply NoDup_cons in Hnd as [Hnd _]; apply Hnd; by left).
    erewrite upd_bucket_eq by exact HC. cbn [mbind option_bind].
    erewrite upd_bucket_eq; [|cbn [bks]; rewrite lookup_insert_ne by done; exact HB].
    cbn [mbind option_bind]. eexists _, _. split; [reflexivity|].
    cbn [activeHead activeTail buckets packs bks streamBucketPool]. split_and!; try done.
    + cbn [seg bks packs]. rewrite lookup_insert_ne, lookup_insert_eq by done. split_and!; try done.
      eapply seg_frame; [| |exact Hseg]; cbn [bks packs]; [|done]. intros x Hx.
      apply NoDup_cons in Hnd as [Hnb Hnd]. apply NoDup_cons in Hnd as [Hnc _].
      rewrite !lookup_insert_ne; [done| |]; intros <-; [done|]. apply Hnb. by right.
    + by rewrite lookup_insert_eq.
    + intros x [Hxb [Hxc _]%not_elem_of_cons]%not_elem_of_cons.
      by rewrite !lookup_insert_ne.
Qed.

(** *** Pools and keys *)
Lemma getStreamBucket_spec h used i :
  pool_ok h used ->
  exists h1 b, getStreamBucket h i = Some (h1, b) /\ packs h1 = packs h /\
    bks h1 !! b = Some (mkBucket i None None None None false) /\
    (forall c, c <> b -> bks h1 !! c = bks h !! c) /\ pool_ok h1 (b :: used) /\ b ∉ used.
Proof.
  intros [Hnd Hz Hu]. unfold getStreamBucket.
  destruct (streamBucketPool h) as [|b rest] eqn:Ep.
  - set (b := fresh (dom (bks h))).
    assert (bks h !! b = None) as Hfb by (apply not_elem_of_dom, is_fresh).
    assert (b ∉ used) as Hnu by (intros Hb; destruct (Hu b Hb); congruence).
    eexists _, b. split; [reflexivity|]. cbn [packs bks streamBucketPool app] in *.
    rewrite lookup_insert_eq. split_and!; try done.
    + intros c Hc. by rewrite lookup_insert_ne.
    + split; cbn [bks streamBucketPool app].
      * by constructor.
      * intros c Hc. by apply elem_of_nil in Hc.
      * intros c [->|Hc]%elem_of_cons; [rewrite lookup_insert_eq; eauto|].
        rewrite lookup_insert_ne by (intros <-; done). eauto.
  - cbn [app] in Hnd. apply NoDup_cons in Hnd as [Hb Hnd].
    erewrite upd_bucket_eq by (apply Hz; left).
    eexists _, b. split; [reflexivity|]. cbn [packs bks streamBucketPool].
    rewrite lookup_insert_eq. split_and!; try done.
    + intros c Hc. by rewrite lookup_insert_ne.
    + split; cbn [bks streamBucketPool].
      * rewrite <- Permutation_middle. by constructor.
      * intros c Hc. rewrite lookup_insert_ne; [by apply Hz; right|].
        intros <-. apply Hb, elem_of_app. by left.
      * intros c [->|Hc]%elem_of_cons; [rewrite lookup_insert_eq; eauto|].
        rewrite lookup_insert_ne; [eauto|]. intros <-. apply Hb, elem_of_app. by right.
    + intros Hu'. apply Hb, elem_of_app. by right.
Qed.

(** Bucket updates outside the pool keep it well formed. *)
Lemma pool_ok_frame h h' used :
  pool_ok h used -> streamBucketPool h' = streamBucketPool h ->
  (forall b, b ∉ used -> bks h' !! b = bks h !! b) ->
  (forall b, b ∈ used -> is_Some (bks h' !! b)) -> pool_ok h' used.
Proof.
  intros [Hnd Hz Hu] Hp Hb Hs. split; rewrite ?Hp; try done.
  intros b Hin. rewrite Hb; [by apply Hz|]. intros Hu'.
  apply NoDup_app in Hnd as (_ & Hnd & _). by apply (Hnd b).
Qed.

Definition keys (es : list ent) : list (Z * bloc) := (fun e => (fst (snd e), fst e)) <$> es.

Lemma keys_fst es : (keys es).*1 = es.*2.*1.
Proof. unfold keys. rewrite <- !list_fmap_compose. done. Qed.

Lemma rep_lookup_Some h s es i b :
  set_rep h s es -> buckets s !! i = Some b ->
  exists es1 ps es2, es = es1 ++ (b, (i, ps)) :: es2.
Proof.
  intros Hr. rewrite (rep_buckets _ _ _ Hr). fold (keys es). intros H.
  apply elem_of_list_to_map_2 in H. unfold keys in H.
  apply list_elem_of_fmap in H as ([b' [i' ps]] & [= -> ->] & H).
  apply list_elem_of_split in H as (es1 & es2 & ->). by exists es1, ps, es2.
Qed.

Lemma rep_lookup_None h s es i :
  set_rep h s es -> buckets s !! i = None -> i ∉ es.*2.*1.
Proof.
  intros Hr. rewrite (rep_buckets _ _ _ Hr). fold (keys es). intros H.
  apply not_elem_of_list_to_map_2 in H. by rewrite keys_fst in H.
Qed.

Module SpecFacts.
Import Spec.

Lemma push_new i l a : i ∉ a.*1 -> push i l a = a ++ [(i, [l])].
Proof.
  induction a as [|[j ps] a IH]; [done|]. csimpl. intros [Hj Ha]%not_elem_of_cons.
  rewrite decide_False by done. by rewrite IH.
Qed.

Lemma push_old i l a ps b :
  i ∉ a.*1 -> push i l (a ++ (i, ps) :: b) = a ++ (i, ps ++ [l]) :: b.
Proof.
  induction a as [|[j qs] a IH]; csimpl.
  - intros _. by rewrite decide_True.
  - intros [Hj Ha]%not_elem_of_cons. rewrite decide_False by done. by rewrite IH.
Qed.

Lemma push_locs i l a : concat (push i l a).*2 ≡ₚ l :: concat a.*2.
Proof.
  induction a as [|[j ps] a IH]; csimpl; [done|]. case_decide; csimpl.
  - rewrite <- app_assoc. simpl. by rewrite <- Permutation_middle.
  - rewrite IH. by rewrite <- Permutation_middle.
Qed.

Lemma push_ids i l a : (push i l a).*1 = if decide (i ∈ a.*1) then a.*1 else a.*1 ++ [i].
Proof.
  induction a as [|[j ps] a IH]; [done|]. csimpl. destruct (decide (i = j)) as [->|Hij].
  - destruct (decide (j ∈ j :: a.*1)) as [|Hn]; [done|]. destruct Hn. left.
  - csimpl. rewrite IH. destruct (decide (i ∈ a.*1)) as [Hi|Hi].
    + by rewrite decide_True by (by right).
    + rewrite decide_False; [done|]. by intros [?|?]%elem_of_cons.
Qed.
End SpecFacts.

Lemma hd_error_app {A} (xs ys : list A) : xs <> [] -> hd_error (xs ++ ys) = hd_error xs.
Proof. by destruct xs. Qed.

(** *** Push *)

(** What an operation may touch: the buckets of other sets, and packagers that
    are neither queued here nor the operation's argument, stay as they are. *)
Definition frame_ok (h h' : heap) (others : list bloc) (mine : list loc) : Prop :=
  cores h' = cores h /\
  (forall b, b ∈ others -> bks h' !! b = bks h !! b) /\
  (forall x, x ∉ mine -> packs h' !! x = packs h !! x).

(** Appending a packager to a linked, non-empty queue. *)
Lemma pseg_snoc (m : gmap loc muxPackager) ps t pt l p :
  pseg m (ps ++ [t]) None -> NoDup (ps ++ [t]) -> l ∉ ps ++ [t] -> m !! t = Some pt ->
  pseg (<[t := mkPackager (flag pt) (id pt) (window pt) (priority pt) (Some l) (base pt)]>
         (<[l := mkPackager (flag p) (id p) (window p) (priority p) None (base p)]> m))
       ((ps ++ [t]) ++ [l]) None.
Proof.
  intros H Hnd Hl Ht. rewrite <- app_assoc. apply pseg_app in H as [H1 H2].
  apply NoDup_app in Hnd as (_ & Hnt & _).
  assert (l <> t) by (intros ->; apply Hl, elem_of_app; right; left).
  apply pseg_app. split.
  - eapply pseg_frame; [|exact H1]. intros x Hx. rewrite !lookup_insert_ne; [done| |].
    + intros ->. apply Hl, elem_of_app. by left.
    + intros ->. apply (Hnt x Hx). left.
  - cbn [app pseg hd_or]. split_and!; [| |done].
    + eexists. rewrite lookup_insert_eq. by split.
    + eexists. rewrite lookup_insert_ne, lookup_insert_eq by done. by split.
Qed.

Lemma locs_of_app a b : locs_of (a ++ b) = locs_of a ++ locs_of b.
Proof. unfold locs_of. by rewrite !fmap_app, concat_app. Qed.

Lemma locs_of_cons b i ps es : locs_of ((b, (i, ps)) :: es) = ps ++ locs_of es.
Proof. done. Qed.

Section PushOld.
Variables (h : heap) (s : streamBucketSet) (es1 es2 : list ent) (b : bloc) (ps : list loc).
Variables (l : loc) (p : muxPackager) (others : list bloc).
Let es := es1 ++ (b, (id p, ps)) :: es2.
Let es' := es1 ++ (b, (id p, ps ++ [l])) :: es2.
Hypothesis Hrep : set_rep h s es.
Hypothesis Hpool : pool_ok h (es.*1 ++ others).
Hypothesis Hl : packs h !! l = Some p.
Hypothesis Hfree : l ∉ locs_of es.
Hypothesis Hb : buckets s !! id p = Some b.

Lemma old_fst : es'.*1 = es.*1.
Proof. unfold es', es. by rewrite !fmap_app. Qed.

Lemma old_ids : es'.*2.*1 = es.*2.*1.
Proof. unfold es', es. by rewrite !fmap_app. Qed.

Lemma old_keys : keys es' = keys es.
Proof. unfold keys, es', es. by rewrite !fmap_app. Qed.

Lemma push_old_refines :
  exists h', set_push h s l = Some (h', s) /\ set_rep h' s es' /\
    pool_ok h' (es'.*1 ++ others) /\ frame_ok h h' others (l :: locs_of es).
Proof.
  pose proof (rep_seg _ _ _ Hrep) as Hseg. unfold es in Hseg.
  apply seg_app in Hseg as [Hs1 Hs2]. cbn [seg] in Hs2. destruct Hs2 as (HB & Hne & Hch & Hs2).
  pose proof (rep_nodup_b _ _ _ Hrep) as Hndb. pose proof (rep_nodup_l _ _ _ Hrep) as Hndl.
  unfold es in Hndb, Hndl, Hfree. rewrite fmap_app in Hndb. cbn [fmap list_fmap fst] in Hndb.
  rewrite locs_of_app, locs_of_cons in Hndl, Hfree.
  apply NoDup_app in Hndb as (_ & Hb1 & Hndb2). apply NoDup_cons in Hndb2 as [Hb2 _].
  apply NoDup_app in Hndl as (_ & Hl1 & Hndl2). apply NoDup_app in Hndl2 as (Hndp & Hl2 & _).
  apply not_elem_of_app in Hfree as [Hf1 Hf]. apply not_elem_of_app in Hf as [Hfp Hf2].
  destruct (exists_last Hne) as (ps0 & t & Eps).
  rewrite Eps in Hch, Hfp, Hndp, Hl1, Hl2, HB.
  assert (exists pt, packs h !! t = Some pt) as [pt Hpt].
  { apply pseg_app in Hch as [_ [(pt & Hpt & _) _]]. eauto. }
  assert (t <> l) by (intros ->; apply Hfp, elem_of_app; right; left).
  unfold set_push. rewrite Hl. cbn [mbind option_bind]. rewrite Hb. cbn [mbind option_bind].
  rewrite (set_next_eq _ _ _ _ Hl). cbn [mbind option_bind bks].
  rewrite HB. cbn [mbind option_bind b_tail]. rewrite last_snoc.
  erewrite set_next_eq by (cbn [packs]; rewrite lookup_insert_ne; [exact Hpt|done]).
  cbn [mbind option_bind bks]. erewrite upd_bucket_eq by exact HB.
  cbn [mbind option_bind bks]. rewrite lookup_insert_eq. cbn [mbind option_bind active].
  eexists. split; [reflexivity|]. split; [|split].
  - split; rewrite ?old_fst, ?old_ids; try apply Hrep.
    + apply seg_app. split.
      * eapply seg_frame; [| |exact Hs1]; cbn [bks packs].
        -- intros c Hc. rewrite lookup_insert_ne; [done|]. intros ->. apply (Hb1 c Hc). left.
        -- intros x Hx. rewrite !lookup_insert_ne; [done| |]; intros ->; [done|].
           apply (Hl1 x Hx), elem_of_app. left. apply elem_of_app. right. left.
      * cbn [seg bks packs]. rewrite lookup_insert_eq. split_and!.
        -- cbn [b_id b_head prevActive nextActive active].
           rewrite Eps, (hd_error_app (ps0 ++ [t])), last_snoc by (by destruct ps0). done.
        -- by destruct ps.
        -- rewrite Eps. by apply pseg_snoc.
        -- eapply seg_frame; [| |exact Hs2]; cbn [bks packs].
           ++ intros c Hc. rewrite lookup_insert_ne; [done|]. by intros ->.
           ++ intros x Hx. rewrite !lookup_insert_ne; [done| |]; intros ->; [done|].
              apply (Hl2 x); [|done]. apply elem_of_app. right. left.
    + rewrite (rep_buckets _ _ _ Hrep). fold (keys es) (keys es'). by rewrite old_keys.
    + pose proof (rep_nodup_l _ _ _ Hrep) as Hnd.
      assert (locs_of es' ≡ₚ l :: locs_of es) as ->.
      { unfold es', es. rewrite !locs_of_app, !locs_of_cons, <- app_assoc.
        simpl. by rewrite <- !Permutation_middle. }
      constructor; [|done]. unfold es.
      rewrite locs_of_app, locs_of_cons, !not_elem_of_app, Eps. done.
  - rewrite old_fst. apply (pool_ok_frame _ _ _ Hpool); cbn [streamBucketPool bks]; [done| |].
    + intros c Hc. rewrite lookup_insert_ne; [done|]. intros <-. apply Hc.
      unfold es. rewrite fmap_app. apply elem_of_app. left. apply elem_of_app. right. left.
    + intros c Hc. destruct (decide (c = b)) as [->|]; [rewrite lookup_insert_eq; eauto|].
      rewrite lookup_insert_ne by done. by apply Hpool.
  - split_and!; cbn [packs bks].
    + unfold cores. cbn [packs]. rewrite core_insert, core_insert; [done|done|].
      by rewrite lookup_insert_ne.
    + intros c Hc. rewrite lookup_insert_ne; [done|]. intros <-.
      destruct Hpool as [Hnd _ _]. apply NoDup_app in Hnd as (_ & _ & Hnd).
      apply NoDup_app in Hnd as (_ & Hnd & _). apply (Hnd b); [|done].
      unfold es. rewrite fmap_app. apply elem_of_app. right. left.
    + intros x [Hxl Hx]%not_elem_of_cons. rewrite !lookup_insert_ne; [done|done|].
      intros ->. apply Hx. unfold es. rewrite locs_of_app, locs_of_cons, Eps.
      apply elem_of_app. right. apply elem_of_app. left. apply elem_of_app. right. left.
Qed.
End PushOld.

Section PushNew.
Variables (h : heap) (s : streamBucketSet) (es : list ent).
Variables (l : loc) (p : muxPackager) (others : list bloc).
Hypothesis Hrep : set_rep h s es.
Hypothesis Hpool : pool_ok h (es.*1 ++ others).
Hypothesis Hl : packs h !! l = Some p.
Hypothesis Hfree : l ∉ locs_of es.
Hypothesis Hb : buckets s !! id p = None.

Lemma push_new_refines :
  exists h' s' b, let es' := es ++ [(b, (id p, [l]))] in
    set_push h s l = Some (h', s') /\ set_rep h' s' es' /\
    pool_ok h' (es'.*1 ++ others) /\ frame_ok h h' others (l :: locs_of es).
Proof.
  destruct (getStreamBucket_spec _ _ (id p) Hpool) as (h1 & b & Hget & Hpk & HB & Hoth & Hp1 & Hbn).
  apply not_elem_of_app in Hbn as [Hbn Hbo].
  unfold set_push. rewrite Hl. cbn [mbind option_bind]. rewrite Hb, Hget. cbn [mbind option_bind].
  erewrite set_next_eq by (rewrite Hpk; exact Hl). cbn [mbind option_bind bks].
  rewrite HB. cbn [mbind option_bind b_tail]. erewrite upd_bucket_eq by exact HB.
  cbn [mbind option_bind bks]. rewrite lookup_insert_eq. cbn [mbind option_bind active].
  match goal with |- context [appendActive ?x ?y _] => set (h2 := x); set (s2 := y) end.
  destruct (appendActive_seg h2 s2 es b (id p) [l] None None false)
    as (h' & s' & Happ & Hseg & Hhd & Htl & Hbk & Hpks & Hpl & Hfr).
  - eapply seg_frame; [| |exact (rep_seg _ _ _ Hrep)]; unfold h2; cbn [bks packs].
    + intros c Hc. rewrite lookup_insert_ne by (intros <-; done). apply Hoth. by intros ->.
    + intros x Hx. rewrite Hpk, lookup_insert_ne; [done|]. by intros ->.
  - apply Hrep.
  - apply Hrep.
  - done.
  - apply Hrep.
  - unfold h2. cbn [bks]. by rewrite lookup_insert_eq.
  - done.
  - cbn [pseg hd_or]. split; [|done]. unfold h2. cbn [packs]. rewrite lookup_insert_eq. eauto.
  - exists h', s', b. cbn zeta. rewrite Happ. split; [done|].
    assert (forall c, c ∉ b :: es.*1 -> bks h' !! c = bks h !! c) as Hbks.
    { intros c Hc. rewrite Hfr by done. apply not_elem_of_cons in Hc as [Hc _].
      unfold h2. cbn [bks]. rewrite lookup_insert_ne by done. by apply Hoth. }
    split; [|split].
    + split; try done.
      * rewrite Hbk. unfold s2. cbn [buckets]. rewrite (rep_buckets _ _ _ Hrep).
        rewrite fmap_app. csimpl. rewrite list_to_map_snoc; [done|]. fold (keys es). rewrite keys_fst.
        by apply (rep_lookup_None h s es).
      * rewrite fmap_app. apply NoDup_app. split_and!; [apply Hrep| |apply NoDup_singleton].
        intros c Hc Hc'%list_elem_of_singleton. by subst.
      * rewrite !fmap_app. apply NoDup_app. split_and!; [apply Hrep| |apply NoDup_singleton].
        intros c Hc Hc'%list_elem_of_singleton. subst.
        by apply (rep_lookup_None h s es) in Hb.
      * rewrite locs_of_app. apply NoDup_app. split_and!; [apply Hrep| |apply NoDup_singleton].
        intros c Hc Hc'%list_elem_of_singleton. by subst.
    + assert (b :: es.*1 ++ others ≡ₚ (es ++ [(b, (id p, [l]))]).*1 ++ others) as HP.
      { rewrite fmap_app, <- app_assoc. simpl. apply Permutation_middle. }
      destruct Hp1 as [Hnd Hz Hu]. split.
      * rewrite Hpl. unfold h2. cbn [streamBucketPool]. by rewrite <- HP.
      * intros c Hc. rewrite Hpl in Hc. unfold h2 in Hc. cbn [streamBucketPool] in Hc.
        apply NoDup_app in Hnd as (_ & Hnd & _). specialize (Hnd c Hc).
        rewrite Hbks; [rewrite <- Hoth; [by apply Hz|]|].
        -- intros ->. apply Hnd. left.
        -- intros Hin. apply Hnd. rewrite app_comm_cons. apply elem_of_app. by left.
      * intros c Hc. rewrite fmap_app in Hc. destruct (decide (c ∈ b :: es.*1)) as [Hin|Hin].
        -- eapply seg_lookup; [exact Hseg|]. rewrite fmap_app. apply elem_of_app.
           apply elem_of_cons in Hin as [->|Hin]; [right; left|by left].
        -- rewrite Hbks by done. apply Hpool. rewrite <- app_assoc in Hc.
           apply not_elem_of_cons in Hin as [Hcb Hin].
           apply elem_of_app in Hc as [Hc|Hc]; [by destruct Hin|].
           apply elem_of_cons in Hc as [->|Hc]; [done|]. apply elem_of_app. by right.
    + split_and!.
      * unfold cores. rewrite Hpks. unfold h2. cbn [packs]. rewrite Hpk. by apply core_insert.
      * intros c Hc. apply Hbks. intros [->|Hin]%elem_of_cons; [done|].
        destruct Hpool as [Hnd _ _]. apply NoDup_app in Hnd as (_ & _ & Hnd).
        apply NoDup_app in Hnd as (_ & Hnd & _). by apply (Hnd c).
      * intros x [Hx _]%not_elem_of_cons. rewrite Hpks. unfold h2. cbn [packs].
        by rewrite Hpk, lookup_insert_ne.
Qed.
End PushNew.

(** [push] never panics on a well-formed set and appends the packager to its
    stream, opening the stream at the end of the service order if needed. *)
Lemma push_refines h s es l p others :
  set_rep h s es -> pool_ok h (es.*1 ++ others) ->
  packs h !! l = Some p -> l ∉ locs_of es ->
  exists h' s' es', set_push h s l = Some (h', s') /\ set_rep h' s' es' /\
    es'.*2 = Spec.push (id p) l (es.*2) /\
    pool_ok h' (es'.*1 ++ others) /\ frame_ok h h' others (l :: locs_of es).
Proof.
  intros Hrep Hpool Hl Hfree. destruct (buckets s !! id p) as [b|] eqn:Eb.
  - destruct (rep_lookup_Some _ _ _ _ _ Hrep Eb) as (es1 & ps & es2 & ->).
    destruct (push_old_refines h s es1 es2 b ps l p others) as (h' & E & Hr & Hp & Hf); try done.
    eexists h', s, _. split_and!; try done. rewrite !fmap_app. csimpl.
    rewrite SpecFacts.push_old; [done|]. pose proof (rep_nodup_i _ _ _ Hrep) as Hnd.
    rewrite !fmap_app in Hnd. apply NoDup_app in Hnd as (_ & Hnd & _).
    intros Hin. apply (Hnd _ Hin). left.
  - destruct (push_new_refines h s es l p others) as (h' & s' & b & E & Hr & Hp & Hf); try done.
    eexists h', s', _. split_and!; try done. rewrite fmap_app. csimpl.
    rewrite SpecFacts.push_new; [done|]. by eapply rep_lookup_None.
Qed.

(** *** Pop *)
Section Pop.
Variables (h : heap) (s : streamBucketSet) (b : bloc) (i : Z) (l : loc) (ps : list loc).
Variables (es : list ent) (others : list bloc).
Let es0 := (b, (i, l :: ps)) :: es.
Hypothesis Hrep : set_rep h s es0.
Hypothesis Hpool : pool_ok h (es0.*1 ++ others).

Lemma pop_first : exists p, packs h !! l = Some p /\ queueNext p = hd_error ps /\
  bks h !! b = Some (mkBucket i (Some l) (last (l :: ps)) None (hd_error (es.*1)) true).
Proof.
  destruct (rep_seg _ _ _ Hrep) as (HB & _ & [(p & Hp & Hn) _] & _). exists p.
  by split_and!.
Qed.

Lemma pop_disjoint :
  (b ∉ es.*1) /\ (l ∉ ps) /\ (l ∉ locs_of es) /\ (forall x, x ∈ ps -> x ∉ locs_of es).
Proof.
  pose proof (rep_nodup_b _ _ _ Hrep) as H1. pose proof (rep_nodup_l _ _ _ Hrep) as H2.
  unfold es0 in H1, H2. csimpl in H1. rewrite locs_of_cons in H2.
  apply NoDup_cons in H1 as [H1 _]. cbn [app] in H2. apply NoDup_cons in H2 as [H2 H3].
  apply not_elem_of_app in H2 as [? ?]. apply NoDup_app in H3 as (_ & ? & _). auto.
Qed.

(** The heap once the packager is unlinked from its bucket. *)
Definition pop_heap (p : muxPackager) : heap :=
  mkHeap (<[l := mkPackager (flag p) (id p) (window p) (priority p) None (base p)]> (packs h))
    (<[b := mkBucket i (hd_error ps) (last ps) None (hd_error (es.*1)) true]> (bks h))
    (streamBucketPool h).

Lemma pop_prefix p :
  packs h !! l = Some p -> queueNext p = hd_error ps ->
  set_pop h s =
  match hd_error ps with
  | None =>
    '(h, s) ← removeActive (pop_heap p) s b;
    B ← bks h !! b;
    h ← putStreamBucket h b;
    Some (Some l, h, mkSet (delete (b_id B) (buckets s)) (activeHead s) (activeTail s))
  | Some _ =>
    '(h, s) ← moveActiveToTail (pop_heap p) s b;
    Some (Some l, h, s)
  end.
Proof.
  intros Hp Hn. destruct pop_first as (_ & _ & _ & HB). unfold set_pop.
  rewrite (rep_head _ _ _ Hrep). cbn [fmap list_fmap fst hd_error es0].
  rewrite HB. cbn [mbind option_bind b_head]. rewrite Hp. cbn [mbind option_bind].
  rewrite (upd_bucket_eq _ _ _ _ HB). cbn [mbind option_bind b_id b_tail prevActive nextActive active].
  erewrite set_next_eq by exact Hp. cbn [mbind option_bind bks].
  rewrite lookup_insert_eq. cbn [mbind option_bind b_head]. rewrite Hn. unfold pop_heap.
  destruct ps as [|x xs]; [done|]. cbn [hd_error]. by rewrite last_cons_cons.
Qed.

Lemma pop_heap_seg p :
  seg (pop_heap p) (Some b) es None /\ pseg (packs (pop_heap p)) ps None /\
  bks (pop_heap p) !! b = Some (mkBucket i (hd_error ps) (last ps) None (hd_error (es.*1)) true).
Proof.
  destruct (rep_seg _ _ _ Hrep) as (_ & _ & [_ Hch] & Hs).
  destruct pop_disjoint as (Hb & Hl & Hle & _). unfold pop_heap. split_and!.
  - eapply seg_frame; [| |exact Hs]; cbn [bks packs].
    + intros c Hc. rewrite lookup_insert_ne; [done|]. by intros ->.
    + intros x Hx. rewrite lookup_insert_ne; [done|]. by intros ->.
  - cbn [packs]. eapply pseg_frame; [|exact Hch].
    intros x Hx. rewrite lookup_insert_ne; [done|]. by intros ->.
  - cbn [bks]. by rewrite lookup_insert_eq.
Qed.

Lemma pop_nodup : NoDup (b :: es.*1).
Proof. exact (rep_nodup_b _ _ _ Hrep). Qed.

(** Frame of both cases: [h'] differs from [h] only in the set's buckets and
    in [l]'s link. *)
Lemma pop_frame p h' :
  packs h !! l = Some p -> packs h' = packs (pop_heap p) ->
  (forall c, c ∉ b :: es.*1 -> bks h' !! c = bks h !! c) ->
  frame_ok h h' others (locs_of es0).
Proof.
  intros Hp Hpk Hbk. split_and!.
  - unfold cores. rewrite Hpk. by apply core_insert.
  - intros c Hc. apply Hbk. intros Hin. destruct Hpool as [Hnd _ _].
    apply NoDup_app in Hnd as (_ & _ & Hnd). apply NoDup_app in Hnd as (_ & Hnd & _).
    by apply (Hnd c).
  - intros x Hx. rewrite Hpk. unfold pop_heap. cbn [packs].
    rewrite lookup_insert_ne; [done|]. intros ->. apply Hx. left.
Qed.

Lemma pop_heap_bks p c : c ∉ b :: es.*1 -> bks (pop_heap p) !! c = bks h !! c.
Proof.
  intros [Hc _]%not_elem_of_cons. unfold pop_heap. cbn [bks]. by rewrite lookup_insert_ne.
Qed.
End Pop.

(** The last packager of a stream: its bucket leaves the set for the pool. *)
Lemma pop_last_refines h s b i l es others :
  let es0 := (b, (i, [l])) :: es in
  set_rep h s es0 -> pool_ok h (es0.*1 ++ others) ->
  exists h' s', set_pop h s = Some (Some l, h', s') /\ set_rep h' s' es /\
    pool_ok h' (es.*1 ++ others) /\ frame_ok h h' others (locs_of es0).
Proof.
  intros es0 Hrep Hpool.
  destruct (pop_first _ _ _ _ _ _ _ Hrep) as (p & Hp & Hn & _).
  destruct (pop_heap_seg _ _ _ _ _ _ _ _ Hrep Hpool p) as (Hs & _ & HB).
  pose proof (pop_nodup _ _ _ _ _ _ _ Hrep) as Hnd.
  rewrite (pop_prefix _ _ _ _ _ _ _ _ Hrep Hpool p Hp Hn). cbn [hd_error].
  unfold removeActive. rewrite HB. cbn [mbind option_bind active].
  destruct (detachActive_head _ s _ _ _ _ _ HB Hs (rep_tail _ _ _ Hrep) Hnd)
    as (h1 & s1 & -> & Hs1 & Hhd & Htl & Hbk & Hpk & Hpl & HB1 & Hfr).
  cbn [mbind option_bind]. rewrite (upd_bucket_eq _ _ _ _ HB1). cbn [mbind option_bind bks].
  rewrite lookup_insert_eq. cbn [mbind option_bind b_id].
  unfold putStreamBucket. erewrite upd_bucket_eq by (cbn [bks]; apply lookup_insert_eq).
  cbn [mbind option_bind packs bks streamBucketPool]. rewrite insert_insert_eq.
  eexists _, _. split; [reflexivity|].
  assert (forall c, c ∉ b :: es.*1 -> bks h1 !! c = bks h !! c) as Hbks.
  { intros c Hc. rewrite Hfr by done. by apply pop_heap_bks. }
  apply NoDup_cons in Hnd as [Hb Hnd]. split; [|split].
  - split; cbn [activeHead activeTail buckets]; try done.
    + eapply seg_frame; [| |exact Hs1]; cbn [bks packs]; [|done].
      intros c Hc. rewrite lookup_insert_ne; [done|]. by intros ->.
    + rewrite Hbk, (rep_buckets _ _ _ Hrep). unfold es0. csimpl. rewrite delete_insert_id; [done|].
      apply not_elem_of_list_to_map. fold (keys es). rewrite keys_fst.
      pose proof (rep_nodup_i _ _ _ Hrep) as Hi. unfold es0 in Hi. csimpl in Hi.
      by apply NoDup_cons in Hi as [? _].
    + pose proof (rep_nodup_i _ _ _ Hrep) as Hi. unfold es0 in Hi. csimpl in Hi.
      by apply NoDup_cons in Hi as [_ ?].
    + pose proof (rep_nodup_l _ _ _ Hrep) as Hl. unfold es0 in Hl. rewrite locs_of_cons in Hl.
      by apply NoDup_app in Hl as (_ & _ & ?).
  - destruct Hpool as [Hpn Hz Hu]. unfold es0 in Hpn, Hu. csimpl in Hpn. csimpl in Hu.
    split; cbn [streamBucketPool bks].
    + rewrite Hpl. unfold pop_heap. cbn [streamBucketPool app]. by rewrite Permutation_middle.
    + intros c Hin. destruct (decide (c = b)) as [->|Hcb]; [by rewrite lookup_insert_eq|].
      rewrite lookup_insert_ne by done. rewrite Hpl in Hin. apply elem_of_cons in Hin as [?|Hin]; [done|].
      rewrite Hbks; [by apply Hz|]. apply NoDup_app in Hpn as (_ & Hpn & _).
      intros Hin'. apply (Hpn c Hin). rewrite app_comm_cons. apply elem_of_app. by left.
    + intros c Hin. destruct (decide (c = b)) as [->|Hcb]; [rewrite lookup_insert_eq; eauto|].
      rewrite lookup_insert_ne by done. destruct (decide (c ∈ es.*1)) as [He|He].
      * by eapply seg_lookup.
      * rewrite Hbks by (by apply not_elem_of_cons). apply Hu. by right.
  - eapply pop_frame; [done|done|exact Hp|done|]. intros c Hc. cbn [bks].
    rewrite lookup_insert_ne by (by apply not_elem_of_cons in Hc as [? _]). by apply Hbks.
Qed.

(** A stream that still has packagers goes to the end of the service order. *)
Lemma pop_more_refines h s b i l ps es others :
  let es0 := (b, (i, l :: ps)) :: es in
  ps <> [] -> set_rep h s es0 -> pool_ok h (es0.*1 ++ others) ->
  exists h' s', set_pop h s = Some (Some l, h', s') /\ set_rep h' s' (es ++ [(b, (i, ps))]) /\
    pool_ok h' ((es ++ [(b, (i, ps))]).*1 ++ others) /\ frame_ok h h' others (locs_of es0).
Proof.
  intros es0 Hps Hrep Hpool.
  destruct (pop_first _ _ _ _ _ _ _ Hrep) as (p & Hp & Hn & _).
  destruct (pop_heap_seg _ _ _ _ _ _ _ _ Hrep Hpool p) as (Hs & Hch & HB).
  pose proof (pop_nodup _ _ _ _ _ _ _ Hrep) as Hnd.
  destruct (pop_disjoint _ _ _ _ _ _ _ Hrep) as (Hb & Hlp & Hle & _).
  rewrite (pop_prefix _ _ _ _ _ _ _ _ Hrep Hpool p Hp Hn).
  destruct (hd_error ps) as [x|] eqn:Ex; [|by destruct ps].
  assert (exists h' s', moveActiveToTail (pop_heap h b i l ps es p) s b = Some (h', s') /\
    seg h' None (es ++ [(b, (i, ps))]) None /\
    activeHead s' = hd_error ((es ++ [(b, (i, ps))]).*1) /\
    activeTail s' = last ((es ++ [(b, (i, ps))]).*1) /\
    buckets s' = buckets s /\ packs h' = packs (pop_heap h b i l ps es p) /\
    streamBucketPool h' = streamBucketPool h /\
    (forall c, c ∉ b :: es.*1 -> bks h' !! c = bks h !! c))
    as (h' & s' & -> & Hs' & Hhd & Htl & Hbk & Hpk & Hpl & Hfr).
  { unfold moveActiveToTail. rewrite (rep_tail _ _ _ Hrep). unfold es0. csimpl.
    destruct (decide (last (b :: es.*1) = Some b)) as [Hlast|Hlast].
    - assert (es = []) as ->.
      { destruct es as [|[c ?] es' _] using rev_ind; [done|]. rewrite fmap_app in Hlast, Hb.
        csimpl in Hlast. rewrite app_comm_cons, last_snoc in Hlast. simplify_eq.
        destruct Hb. apply elem_of_app. right. left. }
      eexists _, _. split; [reflexivity|]. cbn [app]. split_and!; try done.
      + cbn [seg]. rewrite HB, Ex. done.
      + exact (rep_head _ _ _ Hrep).
      + exact (rep_tail _ _ _ Hrep).
      + intros c Hc. by apply pop_heap_bks.
    - destruct (detachActive_head _ s _ _ _ _ _ HB Hs (rep_tail _ _ _ Hrep) Hnd)
        as (h1 & s1 & -> & Hs1 & Hhd & Htl & Hbk & Hpk & Hpl & HB1 & Hfr).
      cbn [mbind option_bind].
      destruct (appendActive_seg h1 s1 es b i ps None None true)
        as (h2 & s2 & -> & Hs2 & Hhd2 & Htl2 & Hbk2 & Hpk2 & Hpl2 & Hfr2); try done.
      + by apply NoDup_cons in Hnd as [_ ?].
      + by rewrite HB1, <- Ex.
      + by rewrite Hpk.
      + eexists _, _. split; [reflexivity|]. split_and!; try done; try congruence.
        * by rewrite Hpk2, Hpk.
        * by rewrite Hpl2, Hpl.
        * intros c Hc. rewrite Hfr2, Hfr by done. by apply pop_heap_bks. }
  cbn [mbind option_bind]. eexists _, _. split; [reflexivity|].
  assert ((es ++ [(b, (i, ps))]).*1 ≡ₚ es0.*1) as HP.
  { rewrite fmap_app. csimpl. by rewrite <- Permutation_cons_append. }
  split; [|split].
  - split; try done.
    + rewrite Hbk, (rep_buckets _ _ _ Hrep). unfold es0. csimpl.
      rewrite fmap_app. csimpl. rewrite list_to_map_snoc; [done|].
      fold (keys es). rewrite keys_fst. pose proof (rep_nodup_i _ _ _ Hrep) as Hi.
      unfold es0 in Hi. csimpl in Hi. by apply NoDup_cons in Hi as [? _].
    + rewrite HP. apply Hrep.
    + rewrite !fmap_app. csimpl. rewrite <- Permutation_cons_append. exact (rep_nodup_i _ _ _ Hrep).
    + rewrite locs_of_app, Permutation_app_comm. rewrite locs_of_cons. unfold locs_of at 1. csimpl.
      rewrite app_nil_r. pose proof (rep_nodup_l _ _ _ Hrep) as Hl.
      unfold es0 in Hl. rewrite locs_of_cons in Hl. by apply NoDup_cons in Hl as [_ ?].
  - destruct Hpool as [Hpn Hz Hu]. split; rewrite ?Hpl.
    + by rewrite HP.
    + intros c Hc. rewrite Hfr; [by apply Hz|]. intros Hin.
      apply NoDup_app in Hpn as (_ & Hpn & _). apply (Hpn c Hc), elem_of_app. by left.
    + intros c Hc. rewrite HP in Hc. destruct (decide (c ∈ b :: es.*1)) as [Hin|Hin].
      * eapply seg_lookup; [exact Hs'|]. by rewrite HP.
      * rewrite Hfr by done. by apply Hu.
  - by eapply pop_frame.
Qed.

(** [pop] never panics on a well-formed set and serves the first stream. *)
Lemma pop_refines h s es others :
  set_rep h s es -> pool_ok h (es.*1 ++ others) ->
  exists r h' s' es', set_pop h s = Some (r, h', s') /\ set_rep h' s' es' /\
    (r, es'.*2) = Spec.pop (es.*2) /\
    pool_ok h' (es'.*1 ++ others) /\ frame_ok h h' others (locs_of es).
Proof.
  intros Hrep Hpool. destruct es as [|[b [i [|l ps]]] es].
  - unfold set_pop. rewrite (rep_head _ _ _ Hrep). cbn. by exists None, h, s, [].
  - by destruct (rep_seg _ _ _ Hrep) as (_ & ? & _).
  - destruct ps as [|x ps].
    + destruct (pop_last_refines _ _ _ _ _ _ _ Hrep Hpool) as (h' & s' & E & Hr & Hp & Hf).
      exists (Some l), h', s', es. by split_and!.
    + destruct (pop_more_refines h s b i l (x :: ps) es others) as (h' & s' & E & H & Hp & Hf); try done.
      exists (Some l), h', s', (es ++ [(b, (i, x :: ps))]). rewrite fmap_app. by split_and!.
Qed.

(** ** Facts about the contract *)
Module SpecOrder.
Import Spec SpecFacts.

Lemma stream_cons i j ps a :
  stream i ((j, ps) :: a) = (if decide (j = i) then ps else []) ++ stream i a.
Proof. unfold stream. rewrite filter_cons. simpl. by case_decide. Qed.

Lemma stream_app i a b : stream i (a ++ b) = stream i a ++ stream i b.
Proof. unfold stream. by rewrite filter_app, fmap_app, concat_app. Qed.

Lemma stream_notin i a : i ∉ a.*1 -> stream i a = [].
Proof.
  induction a as [|[j ps] a IH]; [done|]. csimpl. intros [Hj Ha]%not_elem_of_cons.
  rewrite stream_cons, decide_False, IH; auto.
Qed.

Lemma push_wf i l a : wf a -> wf (push i l a).
Proof.
  intros [Hnd Hne]. split.
  - rewrite push_ids. case_decide; [done|]. apply NoDup_app. split_and!; [done| |apply NoDup_singleton].
    intros x Hx Hx'%list_elem_of_singleton. by subst.
  - induction a as [|[j ps] a IH]; simpl; [by constructor|].
    inversion_clear Hne. inversion_clear Hnd. case_decide; constructor; auto.
    simpl. by destruct ps.
Qed.

(** A packager joins the end of its own stream and no other. *)
Lemma push_stream i l a j :
  wf a -> stream j (push i l a) = stream j a ++ (if decide (i = j) then [l] else []).
Proof.
  intros [Hnd _]. induction a as [|[k ps] a IH]; simpl.
  - rewrite stream_cons. by rewrite app_nil_r.
  - apply NoDup_cons in Hnd as [Hk Hnd]. destruct (decide (i = k)) as [->|Hik].
    + rewrite !stream_cons. destruct (decide (k = j)) as [->|]; [|by rewrite app_nil_r].
      rewrite (stream_notin j a) by done. by rewrite !app_nil_r.
    + rewrite !stream_cons, IH by done. by rewrite app_assoc.
Qed.

Lemma pop_wf a : wf a -> wf (pop a).2.
Proof.
  intros [Hnd Hne]. destruct a as [|[i [|l [|x ps]]] a]; try done; simpl.
  - split; [by apply NoDup_cons in Hnd as [_ ?]|by inversion Hne].
  - split.
    + rewrite fmap_app. simpl. csimpl in Hnd. by rewrite <- Permutation_cons_append.
    + inversion_clear Hne. apply Forall_app. split; [done|]. by constructor.
Qed.

(** [pop] returns the oldest packager of the stream it serves and leaves the
    order within every stream unchanged. *)
Lemma pop_stream a l a' :
  wf a -> pop a = (Some l, a') ->
  exists i, i ∈ a.*1 /\ forall j, stream j a = (if decide (i = j) then [l] else []) ++ stream j a'.
Proof.
  intros [Hnd Hne] H. destruct a as [|[i [|x ps]] a]; simplify_eq/=.
  exists i. split; [left|]. apply NoDup_cons in Hnd as [Hi _]. intros j.
  rewrite stream_cons. destruct ps as [|y ps]; [by case_decide|].
  rewrite stream_app, stream_cons. unfold stream at 3. simpl. rewrite app_nil_r.
  destruct (decide (i = j)) as [->|]; [|by rewrite app_nil_r].
  rewrite (stream_notin j a) by done. by rewrite app_nil_r.
Qed.

Lemma pop_none a : wf a -> (pop a).1 = None <-> a = [].
Proof.
  intros [_ Hne]. destruct a as [|[i [|l ps]] a]; simpl; [done| |done].
  by inversion Hne.
Qed.
End SpecOrder.
