(* ===== verification/WriteQueue.v ===== *)
(** The write queue of a multiplexer: [lib/mux/queue.go], and the watermark
    normalisation of [lib/mux/config.go].

    Frames are popped control frames first, then stream frames from the priority
    and the normal bucket sets; at most [maxPriorityBurst] priority frames
    overtake a pending normal frame.  The mutex makes every operation atomic, so
    an operation is a function on the heap and the queue; the condition variable
    shows up as the signals the operations emit. *)

From S2P Require Import Prelude Packager StreamBuckets.
Local Open Scope Z_scope.

(** ** State *)
Record priorityQueue := mkPQ {
  pq_length : Z;                       (* uint64, atomic *)
  controlHead : option loc;
  controlTail : option loc;
  priorityStreams : streamBucketSet;
  streams : streamBucketSet;
  priorityBurst : Z;                   (* uint8 *)
  highWater : Z;
  lowWater : Z;
  stop : bool;                         (* uint32, 0 or 1 *)
}.

Definition maxPriorityBurst : Z := 8.

(** ** Watermarks *)

(** [WriteQueueHighWater] and [WriteQueueLowWater] are package variables an
    embedder may change: [defHigh] and [defLow] are their current values. *)
Definition normalizeWriteQueueWatermarks (defHigh defLow high low : Z) : Z * Z :=
  let high := if high =? 0 then defHigh else high in
  let low := if low =? 0 then defLow else low in
  let high := if high <? 2 then 2 else high in
  let low := if low =? 0 then 1 else low in
  let low := if high <=? low
             then (let low := high / 2 in if low =? 0 then 1 else low)
             else low in
  (high, low).

Definition pq_New (defHigh defLow : Z) : priorityQueue :=
  let '(hi, lo) := normalizeWriteQueueWatermarks defHigh defLow 0 0 in
  mkPQ 0 None None set_init set_init 0 hi lo false.

Definition ConfigureWatermarks (defHigh defLow high low : Z) (q : priorityQueue) : priorityQueue :=
  let '(hi, lo) := normalizeWriteQueueWatermarks defHigh defLow high low in
  mkPQ (pq_length q) (controlHead q) (controlTail q) (priorityStreams q) (streams q)
    (priorityBurst q) hi lo (stop q).

(** ** Operations *)
Definition with_control (q : priorityQueue) (hd tl : option loc) : priorityQueue :=
  mkPQ (pq_length q) hd tl (priorityStreams q) (streams q) (priorityBurst q)
    (highWater q) (lowWater q) (stop q).
Definition with_priority (q : priorityQueue) (s : streamBucketSet) (burst : Z) : priorityQueue :=
  mkPQ (pq_length q) (controlHead q) (controlTail q) s (streams q) burst
    (highWater q) (lowWater q) (stop q).
Definition with_streams (q : priorityQueue) (s : streamBucketSet) (burst : Z) : priorityQueue :=
  mkPQ (pq_length q) (controlHead q) (controlTail q) (priorityStreams q) s burst
    (highWater q) (lowWater q) (stop q).
Definition with_length (q : priorityQueue) (n : Z) : priorityQueue :=
  mkPQ n (controlHead q) (controlTail q) (priorityStreams q) (streams q) (priorityBurst q)
    (highWater q) (lowWater q) (stop q).

Definition pushControl (h : heap) (q : priorityQueue) (l : loc) : option (heap * priorityQueue) :=
  h ← set_next h l None;
  match controlTail q with
  | None => Some (h, with_control q (Some l) (Some l))
  | Some t => h ← set_next h t (Some l); Some (h, with_control q (controlHead q) (Some l))
  end.

Definition popControl (h : heap) (q : priorityQueue) : option (option loc * heap * priorityQueue) :=
  match controlHead q with
  | None => Some (None, h, q)
  | Some l =>
    p ← packs h !! l;
    let hd := queueNext p in
    let tl := match hd with None => None | Some _ => controlTail q end in
    h ← set_next h l None;
    Some (Some l, h, with_control q hd tl)
  end.

Definition pq_push (h : heap) (q : priorityQueue) (l : loc) : option (heap * priorityQueue) :=
  p ← packs h !! l;
  if isMuxStreamOrderedFlag (flag p) then
    if priority p then
      '(h, s) ← set_push h (priorityStreams q) l; Some (h, with_priority q s (priorityBurst q))
    else
      '(h, s) ← set_push h (streams q) l; Some (h, with_streams q s (priorityBurst q))
  else pushControl h q l.

(** [Push] returns whether the frame was accepted; it signals the condition
    variable exactly when it was. *)
Definition Push (h : heap) (q : priorityQueue) (l : loc) : option (bool * heap * priorityQueue) :=
  if stop q then Some (false, h, q)
  else
    '(h, q) ← pq_push h (with_length q (u64 (pq_length q + 1))) l;
    Some (true, h, q).

Definition Len (q : priorityQueue) : Z := pq_length q.

(** The new state and whether the waiting writers are woken. *)
Definition afterPop (q : priorityQueue) : priorityQueue * bool :=
  let newLen := u64 (pq_length q + (2 ^ 64 - 1)) in
  (with_length q newLen,
   if newLen <? lowWater q then lowWater q <=? u64 (newLen + 1) else false).

Definition popStream (h : heap) (q : priorityQueue) : option (option loc * heap * priorityQueue) :=
  let priorityReady := hasPending (priorityStreams q) in
  let normalReady := hasPending (streams q) in
  let first : option (option loc * bool * heap * priorityQueue) :=
    if priorityReady && (negb normalReady || (priorityBurst q <? maxPriorityBurst)) then
      '(r, h, s) ← set_pop h (priorityStreams q);
      Some (match r with
            | Some l =>
              (Some l, priorityReady, h,
               with_priority q s (if normalReady then u8 (priorityBurst q + 1) else 0))
            | None => (None, false, h, with_priority q s (priorityBurst q))
            end)
    else Some (None, priorityReady, h, q) in
  '(r, priorityReady, h, q) ← first;
  if r is Some l then Some (Some l, h, q)
  else
    let second : option (option loc * heap * priorityQueue) :=
      if normalReady then
        '(r, h, s) ← set_pop h (streams q);
        Some (match r with
              | Some l => (Some l, h, with_streams q s 0)
              | None => (None, h, with_streams q s (priorityBurst q))
              end)
      else Some (None, h, q) in
    '(r, h, q) ← second;
    if r is Some l then Some (Some l, h, q)
    else if (priorityReady : bool) then
      '(r, h, s) ← set_pop h (priorityStreams q);
      Some (match r with
            | Some l => (Some l, h, with_priority q s 0)
            | None => (None, h, with_priority q s (priorityBurst q))
            end)
    else Some (None, h, q).

(** The popped packager, if any, and whether [afterPop] broadcast. *)
Definition TryPop (h : heap) (q : priorityQueue) : option (option loc * bool * heap * priorityQueue) :=
  '(r, h, q) ← popControl h q;
  match r with
  | Some l => let '(q, bc) := afterPop q in Some (Some l, bc, h, q)
  | None =>
    '(r, h, q) ← popStream h q;
    match r with
    | Some l => let '(q, bc) := afterPop q in Some (Some l, bc, h, q)
    | None => Some (None, false, h, q)
    end
  end.

(** [Pop] up to the point where it returns or waits on the condition variable. *)
Inductive pop_outcome := PopReturned (r : option loc) | PopWaits.

Definition Pop (h : heap) (q : priorityQueue) : option (pop_outcome * heap * priorityQueue) :=
  '(r, _, h, q) ← TryPop h q;
  Some (match r with
        | Some l => PopReturned (Some l)
        | None => if stop q then PopReturned None else PopWaits
        end, h, q).

Definition Stop (q : priorityQueue) : priorityQueue :=
  mkPQ (pq_length q) (controlHead q) (controlTail q) (priorityStreams q) (streams q)
    (priorityBurst q) (highWater q) (lowWater q) true.

(** ** Contract *)

(** Where [push] puts a packager. *)
Inductive lane := Control | Stream (prio : bool) (i : Z).

#[export] Instance lane_eq_dec : EqDecision lane.
Proof. solve_decision. Defined.

Definition lane_of (p : muxPackager) : lane :=
  if isMuxStreamOrderedFlag (flag p) then Stream (priority p) (id p) else Control.
Definition lane_at (h : heap) (l : loc) : option lane := lane_of <$> packs h !! l.

Record squeue := mkSQ {
  ctl : list loc;
  pri : Spec.sset;
  nor : Spec.sset;
  burst : Z;
}.

Definition s_empty : squeue := mkSQ [] [] [] 0.

Definition spush (k : lane) (l : loc) (s : squeue) : squeue :=
  match k with
  | Control => mkSQ (ctl s ++ [l]) (pri s) (nor s) (burst s)
  | Stream true i => mkSQ (ctl s) (Spec.push i l (pri s)) (nor s) (burst s)
  | Stream false i => mkSQ (ctl s) (pri s) (Spec.push i l (nor s)) (burst s)
  end.

Definition nonempty {A} (xs : list A) : bool := match xs with [] => false | _ => true end.

Definition spop (s : squeue) : option loc * squeue :=
  match ctl s with
  | l :: c => (Some l, mkSQ c (pri s) (nor s) (burst s))
  | [] =>
    if nonempty (pri s) && (negb (nonempty (nor s)) || (burst s <? maxPriorityBurst)) then
      let '(r, a) := Spec.pop (pri s) in
      (r, mkSQ [] a (nor s) (if nonempty (nor s) then burst s + 1 else 0))
    else if nonempty (nor s) then
      let '(r, a) := Spec.pop (nor s) in (r, mkSQ [] (pri s) a 0)
    else (None, s)
  end.

Definition in_lane (k : lane) (s : squeue) : list loc :=
  match k with
  | Control => ctl s
  | Stream true i => Spec.stream i (pri s)
  | Stream false i => Spec.stream i (nor s)
  end.

Definition queued (s : squeue) : list loc := ctl s ++ concat (pri s).*2 ++ concat (nor s).*2.

Definition swf (s : squeue) : Prop :=
  Spec.wf (pri s) /\ Spec.wf (nor s) /\ 0 <= burst s <= maxPriorityBurst.

(** ** Representation *)
Record full_rep (h : heap) (q : priorityQueue) (s : squeue) (ep en : list ent) : Prop := {
  fr_ctl : pseg (packs h) (ctl s) None;
  fr_head : controlHead q = hd_error (ctl s);
  fr_tail : controlTail q = last (ctl s);
  fr_pri : set_rep h (priorityStreams q) ep;
  fr_nor : set_rep h (streams q) en;
  fr_pri_s : pri s = ep.*2;
  fr_nor_s : nor s = en.*2;
  fr_pool : pool_ok h (ep.*1 ++ en.*1);
  fr_nodup : NoDup (queued s);
  fr_burst : priorityBurst q = burst s;
  fr_burst_le : 0 <= burst s <= maxPriorityBurst;
  fr_len : pq_length q = u64 (Z.of_nat (length (queued s)));
}.

Definition pq_rep (h : heap) (q : priorityQueue) (s : squeue) : Prop :=
  exists ep en, full_rep h q s ep en.

(** *** The contract keeps its own invariant *)
Lemma set_rep_wf h s es : set_rep h s es -> Spec.wf (es.*2).
Proof.
  intros Hr. split; [apply Hr|]. assert (H := rep_seg _ _ _ Hr). clear Hr.
  revert H. generalize (@None bloc) at 1. induction es as [|[b [i ps]] es IH]; intros pv; [by constructor|].
  intros (_ & Hps & _ & H). constructor; [done|]. by eapply IH.
Qed.

Lemma pq_rep_swf h q s : pq_rep h q s -> swf s.
Proof.
  intros (ep & en & H). split_and!; [| |apply H..].
  - rewrite (fr_pri_s _ _ _ _ _ H). eapply set_rep_wf, H.
  - rewrite (fr_nor_s _ _ _ _ _ H). eapply set_rep_wf, H.
Qed.

Lemma queued_spush k l s : queued (spush k l s) ≡ₚ l :: queued s.
Proof.
  unfold queued. destruct k as [|[] i]; simpl; rewrite ?SpecFacts.push_locs.
  - rewrite <- app_assoc. simpl. by rewrite <- Permutation_middle.
  - simpl. by rewrite <- Permutation_middle.
  - simpl. by rewrite <- !Permutation_middle.
Qed.

Lemma pop_locs a l a' : Spec.pop a = (Some l, a') -> concat a.*2 ≡ₚ l :: concat a'.*2.
Proof.
  destruct a as [|[i [|x [|y ps]]] a]; intros [= <- <-]; [done|].
  simpl. rewrite fmap_app, concat_app. simpl. rewrite app_nil_r.
  rewrite (Permutation_app_comm (concat _) (y :: ps)). done.
Qed.

Lemma pop_nonempty a r a' :
  Spec.wf a -> Spec.pop a = (r, a') -> nonempty a = true -> exists l, r = Some l.
Proof.
  intros Hw E Hn. destruct r as [l|]; [by exists l|].
  assert (a = []) as -> by (apply SpecOrder.pop_none; [done|by rewrite E]). done.
Qed.

(** What [spop] does, by case. *)
Lemma spop_cases s l s' :
  spop s = (Some l, s') ->
  (exists c, ctl s = l :: c /\ s' = mkSQ c (pri s) (nor s) (burst s)) \/
  (exists a, ctl s = [] /\ (nor s = [] \/ burst s < maxPriorityBurst) /\
     Spec.pop (pri s) = (Some l, a) /\
     s' = mkSQ [] a (nor s) (if nonempty (nor s) then burst s + 1 else 0)) \/
  (exists a, ctl s = [] /\ (pri s = [] \/ maxPriorityBurst <= burst s) /\
     Spec.pop (nor s) = (Some l, a) /\ s' = mkSQ [] (pri s) a 0).
Proof.
  unfold spop. intros H. destruct (ctl s) as [|x c] eqn:Ec; [|injection H as <- <-; left; by exists c].
  right. destruct (nonempty (pri s) && _) eqn:Ep.
  - destruct (Spec.pop (pri s)) as [r a] eqn:E. simplify_eq. left. exists a.
    split_and!; try done. apply andb_true_iff in Ep as [_ Ep].
    apply orb_true_iff in Ep as [Ep|Ep]; [left; by destruct (nor s)|right; lia].
  - destruct (nonempty (nor s)) eqn:En; [|done].
    destruct (Spec.pop (nor s)) as [r a] eqn:E. simplify_eq. right. exists a.
    split_and!; try done. apply andb_false_iff in Ep as [Ep|Ep]; [left; by destruct (pri s)|].
    right. apply orb_false_iff in Ep as [_ Ep]. lia.
Qed.

Lemma spop_queued s l s' : spop s = (Some l, s') -> queued s ≡ₚ l :: queued s'.
Proof.
  unfold queued. intros [(c & -> & ->)|[(a & -> & _ & E & ->)|(a & -> & _ & E & ->)]]%spop_cases; simpl.
  - done.
  - by rewrite (pop_locs _ _ _ E).
  - rewrite (pop_locs _ _ _ E). by rewrite <- Permutation_middle.
Qed.

(** Popping nothing means there was nothing to pop. *)
Lemma spop_none s s' : swf s -> spop s = (None, s') -> s' = s /\ queued s = [].
Proof.
  intros (Hp & Hn & _) E. unfold spop in E. destruct s as [c p n b]; simpl in *.
  destruct c; [|done]. destruct (nonempty p && _) eqn:Ep.
  - apply andb_true_iff in Ep as [Ep _]. destruct (Spec.pop p) as [r a] eqn:Ea.
    destruct (pop_nonempty p r a) as [? ->]; done.
  - destruct (nonempty n) eqn:En.
    + destruct (Spec.pop n) as [r a] eqn:Ea. destruct (pop_nonempty n r a) as [? ->]; done.
    + injection E as <-. destruct n; [|done]. by destruct p.
Qed.

(** *** Framing *)
Lemma rep_frame h h' s es mine :
  set_rep h s es -> frame_ok h h' (es.*1) mine ->
  (forall x, x ∈ locs_of es -> x ∉ mine) -> set_rep h' s es.
Proof.
  intros [Hs ? ? ? ? ? ?] (_ & Hb & Hl) Hd. split; try done.
  eapply seg_frame; [exact Hb| |exact Hs]. intros x Hx. by apply Hl, Hd.
Qed.

Lemma ctl_frame h h' ps others mine :
  pseg (packs h) ps None -> frame_ok h h' others mine ->
  (forall x, x ∈ ps -> x ∉ mine) -> pseg (packs h') ps None.
Proof.
  intros Hp (_ & _ & Hl) Hd. eapply pseg_frame; [|exact Hp]. intros x Hx. by apply Hl, Hd.
Qed.

Lemma pool_ok_perm h u u' : u ≡ₚ u' -> pool_ok h u -> pool_ok h u'.
Proof.
  intros Hp [Hn Hz Hu]. split; [by rewrite <- Hp|done|]. intros b Hb. apply Hu. by rewrite Hp.
Qed.

(** The three parts of the queue share no packager. *)
Lemma queued_disjoint s x :
  NoDup (queued s) ->
  (x ∈ ctl s -> (x ∉ concat (pri s).*2) /\ (x ∉ concat (nor s).*2)) /\
  (x ∈ concat (pri s).*2 -> x ∉ concat (nor s).*2).
Proof.
  intros (_ & H1 & (_ & H2 & _)%NoDup_app)%NoDup_app. split; [|by apply H2].
  intros Hx. split; intros H; apply (H1 _ Hx), elem_of_app; auto.
Qed.

Lemma len_push s k l : u64 (u64 (Z.of_nat (length (queued s))) + 1) = u64 (Z.of_nat (length (queued (spush k l s)))).
Proof.
  rewrite queued_spush. cbn [length]. unfold u64, wrap. rewrite Zplus_mod_idemp_l. f_equal. lia.
Qed.

Lemma len_pop s l s' : queued s ≡ₚ l :: queued s' ->
  u64 (u64 (Z.of_nat (length (queued s))) + (2 ^ 64 - 1)) = u64 (Z.of_nat (length (queued s'))).
Proof.
  intros ->. cbn [length]. unfold u64, wrap. rewrite Zplus_mod_idemp_l.
  replace (Z.of_nat (S (length (queued s'))) + (2 ^ 64 - 1))
    with (Z.of_nat (length (queued s')) + 1 * 2 ^ 64) by lia.
  apply Z_mod_plus_full.
Qed.

(** *** Pushing *)
Section Pushing.
Context (h : heap) (q : priorityQueue) (s : squeue) (ep en : list ent) (l : loc) (p : muxPackager).
Hypothesis Hrep : full_rep h q s ep en.
Hypothesis Hl : packs h !! l = Some p.
Hypothesis Hfree : l ∉ queued s.

Lemma not_queued : (l ∉ ctl s) /\ (l ∉ locs_of ep) /\ (l ∉ locs_of en).
Proof.
  unfold queued in Hfree. rewrite !elem_of_app in Hfree. unfold locs_of.
  rewrite <- (fr_pri_s _ _ _ _ _ Hrep), <- (fr_nor_s _ _ _ _ _ Hrep). tauto.
Qed.

Lemma nodup_push k : NoDup (queued (spush k l s)).
Proof. rewrite queued_spush. constructor; [exact Hfree|apply Hrep]. Qed.

Lemma push_priority_rep :
  exists h' st ep', set_push h (priorityStreams q) l = Some (h', st) /\
    full_rep h' (with_length (with_priority q st (priorityBurst q)) (u64 (pq_length q + 1)))
      (spush (Stream true (id p)) l s) ep' en /\ cores h' = cores h.
Proof.
  destruct not_queued as (Hc & Hp & Hn).
  destruct (push_refines h _ _ l p (en.*1) (fr_pri _ _ _ _ _ Hrep) (fr_pool _ _ _ _ _ Hrep) Hl Hp)
    as (h' & st & ep' & E & Hr & Ha & Hpool & Hf).
  exists h', st, ep'. split; [exact E|]. split; [|by apply Hf].
  assert (Hd := fun x => queued_disjoint s x (fr_nodup _ _ _ _ _ Hrep)).
  assert (Hps := fr_pri_s _ _ _ _ _ Hrep). assert (Hns := fr_nor_s _ _ _ _ _ Hrep).
  rewrite Hps, Hns in Hd. split; simpl; try apply Hrep; try done.
  - eapply ctl_frame; [apply Hrep|exact Hf|]. intros x Hx [->|H]%elem_of_cons; [done|].
    by apply (Hd x) in Hx as [? _].
  - eapply rep_frame; [apply Hrep|exact Hf|]. intros x Hx [->|H]%elem_of_cons; [done|].
    by apply (Hd x) in H.
  - by rewrite Hps, Ha.
  - apply (nodup_push (Stream true (id p))).
  - rewrite (fr_len _ _ _ _ _ Hrep). apply (len_push s (Stream true (id p))).
Qed.

Lemma push_normal_rep :
  exists h' st en', set_push h (streams q) l = Some (h', st) /\
    full_rep h' (with_length (with_streams q st (priorityBurst q)) (u64 (pq_length q + 1)))
      (spush (Stream false (id p)) l s) ep en' /\ cores h' = cores h.
Proof.
  destruct not_queued as (Hc & Hp & Hn).
  assert (Hpool := pool_ok_perm _ _ _ (Permutation_app_comm _ _) (fr_pool _ _ _ _ _ Hrep)).
  destruct (push_refines h _ _ l p (ep.*1) (fr_nor _ _ _ _ _ Hrep) Hpool Hl Hn)
    as (h' & st & en' & E & Hr & Ha & Hpool' & Hf).
  exists h', st, en'. split; [exact E|]. split; [|by apply Hf].
  assert (Hd := fun x => queued_disjoint s x (fr_nodup _ _ _ _ _ Hrep)).
  assert (Hps := fr_pri_s _ _ _ _ _ Hrep). assert (Hns := fr_nor_s _ _ _ _ _ Hrep).
  rewrite Hps, Hns in Hd. split; simpl; try apply Hrep; try done.
  - eapply ctl_frame; [apply Hrep|exact Hf|]. intros x Hx [->|H]%elem_of_cons; [done|].
    by apply (Hd x) in Hx as [_ ?].
  - eapply rep_frame; [apply Hrep|exact Hf|]. intros x Hx [->|H]%elem_of_cons; [done|].
    by apply (Hd x) in Hx.
  - by rewrite Hns, Ha.
  - eapply pool_ok_perm; [apply Permutation_app_comm|done].
  - apply (nodup_push (Stream false (id p))).
  - rewrite (fr_len _ _ _ _ _ Hrep). apply (len_push s (Stream false (id p))).
Qed.

(** Linking [l] after the last control packager. *)
Definition linked : gmap loc muxPackager :=
  let m := <[l := noNext p]> (packs h) in
  match last (ctl s) with
  | None => m
  | Some t =>
    match packs h !! t with
    | Some pt => <[t := mkPackager (flag pt) (id pt) (window pt) (priority pt) (Some l) (base pt)]> m
    | None => m
    end
  end.

Lemma linked_ok :
  pseg linked (ctl s ++ [l]) None /\ noNext <$> linked = cores h /\
  (forall x, x ∉ l :: ctl s -> linked !! x = packs h !! x) /\
  pushControl h q l = Some (mkHeap linked (bks h) (streamBucketPool h),
    with_control q (hd_error (ctl s ++ [l])) (Some l)).
Proof.
  destruct not_queued as (Hc & _). assert (Hctl := fr_ctl _ _ _ _ _ Hrep).
  pose proof (fr_nodup _ _ _ _ _ Hrep) as [Hnd _]%NoDup_app.
  unfold linked, pushControl. rewrite (set_next_eq _ _ _ _ Hl). simpl.
  rewrite (fr_tail _ _ _ _ _ Hrep), (fr_head _ _ _ _ _ Hrep).
  destruct (last (ctl s)) as [t|] eqn:Et.
  - apply last_Some in Et as [c Et]. rewrite Et in *.
    assert (Hlt : l <> t) by (intros ->; apply Hc, elem_of_app; right; left).
    assert (exists pt, packs h !! t = Some pt) as [pt Hpt].
    { apply pseg_app in Hctl as [_ [(pt & Hpt & _) _]]. eauto. }
    rewrite Hpt. rewrite (set_next_eq _ t pt) by (simpl; by rewrite lookup_insert_ne). simpl.
    split_and!.
    + by apply pseg_snoc.
    + unfold cores. rewrite core_insert by (by rewrite lookup_insert_ne). by apply core_insert.
    + intros x [Hx1 Hx2]%not_elem_of_cons. rewrite lookup_insert_ne.
      * by rewrite lookup_insert_ne.
      * intros ->. apply Hx2, elem_of_app. right. left.
    + by rewrite (hd_error_app (c ++ [t])) by (by destruct c).
  - apply last_None in Et. rewrite Et. split_and!; simpl; try done.
    + split; [|done]. exists (noNext p). by rewrite lookup_insert_eq.
    + unfold cores. by apply core_insert.
    + intros x [Hx _]%not_elem_of_cons. by rewrite lookup_insert_ne.
Qed.

Lemma push_control_rep :
  exists h' q', pushControl h q l = Some (h', q') /\
    full_rep h' (with_length q' (u64 (pq_length q + 1))) (spush Control l s) ep en /\
    q' = with_control q (controlHead q') (controlTail q') /\ cores h' = cores h.
Proof.
  destruct linked_ok as (Hs & Hcore & Hfr & E). eexists _, _. split; [exact E|].
  split; [|by split]. destruct not_queued as (Hc & Hp & Hn).
  assert (Hf : forall bs, frame_ok h (mkHeap linked (bks h) (streamBucketPool h)) bs (l :: ctl s)) by done.
  assert (Hd := fun x => queued_disjoint s x (fr_nodup _ _ _ _ _ Hrep)).
  assert (Hps := fr_pri_s _ _ _ _ _ Hrep). assert (Hns := fr_nor_s _ _ _ _ _ Hrep).
  rewrite Hps, Hns in Hd. split; simpl; try apply Hrep; try done.
  - by rewrite last_snoc.
  - eapply rep_frame; [apply Hrep|apply Hf|]. intros x Hx [->|H]%elem_of_cons; [done|].
    by apply (Hd x) in H as [? _].
  - eapply rep_frame; [apply Hrep|apply Hf|]. intros x Hx [->|H]%elem_of_cons; [done|].
    by apply (Hd x) in H as [_ ?].
  - destruct (fr_pool _ _ _ _ _ Hrep). by split.
  - apply (nodup_push Control).
  - rewrite (fr_len _ _ _ _ _ Hrep). apply (len_push s Control).
Qed.
End Pushing.

(** [Push] on an open queue succeeds and appends to the lane of the packager. *)
Lemma Push_refines h q s l p :
  pq_rep h q s -> stop q = false -> packs h !! l = Some p -> l ∉ queued s ->
  exists h' q', Push h q l = Some (true, h', q') /\
    pq_rep h' q' (spush (lane_of p) l s) /\ stop q' = false /\ cores h' = cores h.
Proof.
  intros (ep & en & Hr) Hst Hl Hfree. unfold Push, pq_push, lane_of. rewrite Hst, Hl. simpl.
  destruct (isMuxStreamOrderedFlag (flag p)); [destruct (priority p)|].
  - destruct (push_priority_rep _ _ _ _ _ _ _ Hr Hl Hfree) as (h' & st & ep' & -> & Hr' & Hc).
    eexists _, _. split; [done|]. split; [by exists ep', en|done].
  - destruct (push_normal_rep _ _ _ _ _ _ _ Hr Hl Hfree) as (h' & st & en' & -> & Hr' & Hc).
    eexists _, _. split; [done|]. split; [by exists ep, en'|done].
  - destruct (push_control_rep _ _ _ _ _ _ _ Hr Hl Hfree) as (h' & q' & E & Hr' & Hq & Hc).
    unfold pushControl in *. simpl. destruct (set_next h l None) as [h0|]; [|done].
    simpl in *. destruct (controlTail q) as [t|]; [destruct (set_next h0 t (Some l)) as [h1|]; [|done]|];
    simpl in *; simplify_eq; eexists _, _; (split; [done|]); (split; [by exists ep, en|done]).
Qed.

(** *** Popping *)
Lemma hasPending_rep h st es : set_rep h st es -> hasPending st = nonempty (es.*2).
Proof. intros Hr. unfold hasPending. rewrite (rep_head _ _ _ Hr). by destruct es. Qed.

Section Popping.
Context (h : heap) (q : priorityQueue) (s : squeue) (ep en : list ent).
Hypothesis Hrep : full_rep h q s ep en.

Lemma nodup_pop l s' : spop s = (Some l, s') -> NoDup (queued s').
Proof.
  intros E%spop_queued. assert (Hn := fr_nodup _ _ _ _ _ Hrep).
  rewrite E in Hn. by apply NoDup_cons in Hn as [_ ?].
Qed.

Lemma length_pop l s' :
  spop s = (Some l, s') ->
  u64 (pq_length q + (2 ^ 64 - 1)) = u64 (Z.of_nat (length (queued s'))).
Proof. intros E%spop_queued. rewrite (fr_len _ _ _ _ _ Hrep). by eapply len_pop. Qed.

Lemma popControl_rep l c :
  ctl s = l :: c ->
  exists h', popControl h q = Some (Some l, h', with_control q (hd_error c) (last c)) /\
    full_rep h' (fst (afterPop (with_control q (hd_error c) (last c))))
      (mkSQ c (pri s) (nor s) (burst s)) ep en /\ cores h' = cores h.
Proof.
  intros Ec. assert (Hs : spop s = (Some l, mkSQ c (pri s) (nor s) (burst s))) by (unfold spop; by rewrite Ec).
  pose proof (fr_ctl _ _ _ _ _ Hrep) as Hctl. rewrite Ec in Hctl. destruct Hctl as [(p & Hp & Hn) Hctl].
  unfold popControl. rewrite (fr_head _ _ _ _ _ Hrep), (fr_tail _ _ _ _ _ Hrep), Ec. simpl.
  rewrite Hp. simpl. rewrite (set_next_eq _ _ _ _ Hp). simpl. eexists.
  replace (hd_or c None) with (hd_error c) in Hn by (by destruct c). rewrite Hn. split.
  { f_equal. f_equal. by destruct c. }
  assert (Hnd := fr_nodup _ _ _ _ _ Hrep). assert (Hd := fun x => queued_disjoint s x Hnd).
  assert (Hlc : l ∉ c) by (apply NoDup_app in Hnd as [Hnd _]; rewrite Ec in Hnd; by apply NoDup_cons in Hnd as [? _]).
  destruct (Hd l) as [[Hlp Hln] _]; [rewrite Ec; left|].
  rewrite (fr_pri_s _ _ _ _ _ Hrep) in Hlp. rewrite (fr_nor_s _ _ _ _ _ Hrep) in Hln.
  assert (Hf : forall bs, frame_ok h (mkHeap (<[l := noNext p]> (packs h)) (bks h) (streamBucketPool h)) bs [l]).
  { intros bs. split_and!; [by apply core_insert|done|]. intros x [Hx _]%not_elem_of_cons. simpl.
    by rewrite lookup_insert_ne. }
  split; [|by apply (Hf [])]. split; simpl; try apply Hrep; try done.
  - refine (ctl_frame h _ c [] [l] Hctl (Hf []) _). intros x Hx ->%list_elem_of_singleton. done.
  - eapply rep_frame; [apply Hrep|apply Hf|]. intros x Hx ->%list_elem_of_singleton. done.
  - eapply rep_frame; [apply Hrep|apply Hf|]. intros x Hx ->%list_elem_of_singleton. done.
  - destruct (fr_pool _ _ _ _ _ Hrep). by split.
  - by eapply nodup_pop.
  - by eapply length_pop.
Qed.

(** Popping the priority set, with the burst counter the caller chooses. *)
Lemma pop_priority_rep l a b :
  Spec.pop (pri s) = (Some l, a) -> 0 <= b <= maxPriorityBurst ->
  spop s = (Some l, mkSQ [] a (nor s) b) -> ctl s = [] ->
  exists h' st, set_pop h (priorityStreams q) = Some (Some l, h', st) /\
    pq_rep h' (fst (afterPop (with_priority q st b))) (mkSQ [] a (nor s) b) /\ cores h' = cores h.
Proof.
  intros Ea Hb Hs Ec.
  destruct (pop_refines h _ _ (en.*1) (fr_pri _ _ _ _ _ Hrep) (fr_pool _ _ _ _ _ Hrep))
    as (r & h' & st & ep' & E & Hr & Ha & Hpool & Hf).
  assert (Hps := fr_pri_s _ _ _ _ _ Hrep). assert (Hns := fr_nor_s _ _ _ _ _ Hrep).
  rewrite <- Hps, Ea in Ha. injection Ha as -> Ha.
  exists h', st. split; [exact E|]. split; [|by apply Hf]. exists ep', en.
  assert (Hd := fun x => queued_disjoint s x (fr_nodup _ _ _ _ _ Hrep)).
  rewrite Hps, Hns in Hd. split; simpl; try apply Hrep; try done.
  - rewrite (fr_head _ _ _ _ _ Hrep). by rewrite Ec.
  - rewrite (fr_tail _ _ _ _ _ Hrep). by rewrite Ec.
  - eapply rep_frame; [apply Hrep|exact Hf|]. intros x Hx H. by apply (Hd x) in H.
  - by eapply nodup_pop.
  - by eapply length_pop.
Qed.

Lemma pop_normal_rep l a :
  Spec.pop (nor s) = (Some l, a) ->
  spop s = (Some l, mkSQ [] (pri s) a 0) -> ctl s = [] ->
  exists h' st, set_pop h (streams q) = Some (Some l, h', st) /\
    pq_rep h' (fst (afterPop (with_streams q st 0))) (mkSQ [] (pri s) a 0) /\ cores h' = cores h.
Proof.
  intros Ea Hs Ec.
  assert (Hpool := pool_ok_perm _ _ _ (Permutation_app_comm _ _) (fr_pool _ _ _ _ _ Hrep)).
  destruct (pop_refines h _ _ (ep.*1) (fr_nor _ _ _ _ _ Hrep) Hpool)
    as (r & h' & st & en' & E & Hr & Ha & Hpool' & Hf).
  assert (Hps := fr_pri_s _ _ _ _ _ Hrep). assert (Hns := fr_nor_s _ _ _ _ _ Hrep).
  rewrite <- Hns, Ea in Ha. injection Ha as -> Ha.
  exists h', st. split; [exact E|]. split; [|by apply Hf]. exists ep, en'.
  assert (Hd := fun x => queued_disjoint s x (fr_nodup _ _ _ _ _ Hrep)).
  rewrite Hps, Hns in Hd. split; simpl; try apply Hrep; try done.
  - rewrite (fr_head _ _ _ _ _ Hrep). by rewrite Ec.
  - rewrite (fr_tail _ _ _ _ _ Hrep). by rewrite Ec.
  - eapply rep_frame; [apply Hrep|exact Hf|]. intros x Hx H. by apply (Hd x) in Hx.
  - eapply pool_ok_perm; [apply Permutation_app_comm|done].
  - by eapply nodup_pop.
  - by eapply length_pop.
Qed.
End Popping.

Lemma afterPop_split q : afterPop q = (fst (afterPop q), snd (afterPop q)).
Proof. by destruct (afterPop q). Qed.

(** [TryPop] never panics and returns what the contract returns. *)
Lemma TryPop_refines h q s :
  pq_rep h q s ->
  exists r bc h' q' s', TryPop h q = Some (r, bc, h', q') /\ spop s = (r, s') /\
    pq_rep h' q' s' /\ stop q' = stop q /\ cores h' = cores h.
Proof.
  intros Hq. pose proof (pq_rep_swf _ _ _ Hq) as (Hwp & Hwn & Hb).
  destruct Hq as (ep & en & Hr). unfold TryPop. destruct (ctl s) as [|l c] eqn:Ec.
  2:{ destruct (popControl_rep _ _ _ _ _ Hr _ _ Ec) as (h' & -> & Hr' & Hc). simpl.
      eexists (Some l), _, h', _, _. split; [done|]. split; [unfold spop; by rewrite Ec|].
      split; [by exists ep, en|done]. }
  assert (popControl h q = Some (None, h, q)) as ->.
  { unfold popControl. by rewrite (fr_head _ _ _ _ _ Hr), Ec. }
  simpl. assert (Hsp := eq_refl (spop s)). unfold spop in Hsp at 2. rewrite Ec in Hsp. unfold popStream.
  rewrite (hasPending_rep _ _ _ (fr_pri _ _ _ _ _ Hr)), (hasPending_rep _ _ _ (fr_nor _ _ _ _ _ Hr)).
  rewrite <- (fr_pri_s _ _ _ _ _ Hr), <- (fr_nor_s _ _ _ _ _ Hr), (fr_burst _ _ _ _ _ Hr).
  destruct (nonempty (pri s) && _) eqn:Ep.
  - apply andb_true_iff in Ep as [Ep Hlt].
    destruct (Spec.pop (pri s)) as [r a] eqn:Ea.
    destruct (pop_nonempty _ _ _ Hwp Ea Ep) as [l ->].
    assert (Hu : (if nonempty (nor s) then u8 (burst s + 1) else 0) =
                 (if nonempty (nor s) then burst s + 1 else 0)).
    { destruct (nonempty (nor s)); [|done]. apply wrap_small. unfold is_uint. unfold maxPriorityBurst in Hb. lia. }
    assert (Hb' : 0 <= (if nonempty (nor s) then burst s + 1 else 0) <= maxPriorityBurst).
    { destruct (nonempty (nor s)); simpl in Hlt; unfold maxPriorityBurst in *; lia. }
    destruct (pop_priority_rep _ _ _ _ _ Hr _ _ _ Ea Hb' Hsp Ec) as (h' & st & -> & Hr' & Hc).
    simpl. rewrite Hu. eexists (Some l), _, h', _, _. by split_and!.
  - simpl. destruct (nonempty (nor s)) eqn:En.
    + destruct (Spec.pop (nor s)) as [r a] eqn:Ea.
      destruct (pop_nonempty _ _ _ Hwn Ea En) as [l ->].
      destruct (pop_normal_rep _ _ _ _ _ Hr _ _ Ea Hsp Ec) as (h' & st & -> & Hr' & Hc).
      simpl. eexists (Some l), _, h', _, _. by split_and!.
    + assert (nonempty (pri s) = false) as -> by (by destruct (nonempty (pri s))).
      simpl. eexists None, _, h, q, s. split_and!; try done. by exists ep, en.
Qed.

Lemma rep_new dh dl m pool bs :
  pool_ok (mkHeap m bs pool) [] -> pq_rep (mkHeap m bs pool) (pq_New dh dl) s_empty.
Proof.
  intros Hp. exists [], []. unfold pq_New. destruct (normalizeWriteQueueWatermarks _ _ _ _).
  split; simpl; try done; try constructor; try apply NoDup_nil_2; try done; try apply Hp.
Qed.

(** ** Lanes *)

Lemma spush_swf k l s : swf s -> swf (spush k l s).
Proof.
  intros (Hp & Hn & Hb). destruct k as [|[] i]; split_and!; simpl; try done; try apply Hb;
    by apply SpecOrder.push_wf.
Qed.

Lemma spush_in_lane k l s k' :
  swf s -> in_lane k' (spush k l s) = in_lane k' s ++ (if decide (k = k') then [l] else []).
Proof.
  intros (Hp & Hn & _). destruct (decide (k = k')) as [->|Hk].
  - destruct k' as [|[] i]; simpl; [done|..]; rewrite SpecOrder.push_stream by done;
      by rewrite decide_True.
  - rewrite app_nil_r. destruct k as [|[] i], k' as [|[] j]; simpl; try done;
      rewrite SpecOrder.push_stream by done; rewrite decide_False by congruence; by rewrite app_nil_r.
Qed.

(** A pop takes the oldest packager of one lane and no other. *)
Lemma spop_in_lane s l s' :
  swf s -> spop s = (Some l, s') ->
  exists k, forall k', in_lane k' s = (if decide (k = k') then [l] else []) ++ in_lane k' s'.
Proof.
  intros (Hp & Hn & _).
  intros [(c & E & ->)|[(a & Ec & _ & E & ->)|(a & Ec & _ & E & ->)]]%spop_cases.
  - exists Control. intros [|[] i]; simpl; [by rewrite E|done..].
  - destruct (SpecOrder.pop_stream _ _ _ Hp E) as (i & _ & H). exists (Stream true i).
    intros [|[] j]; simpl; [done| |done]. rewrite H. repeat case_decide; congruence.
  - destruct (SpecOrder.pop_stream _ _ _ Hn E) as (i & _ & H). exists (Stream false i).
    intros [|[] j]; simpl; [done|done|]. rewrite H. repeat case_decide; congruence.
Qed.

Lemma in_lane_queued k s x : x ∈ in_lane k s -> x ∈ queued s.
Proof.
  assert (Hs : forall i (a : Spec.sset), x ∈ Spec.stream i a -> x ∈ concat a.*2).
  { intros i a. unfold Spec.stream. induction a as [|[j ps] a IH]; simpl; [done|].
    rewrite filter_cons. case_decide; simpl; rewrite ?elem_of_app; [|by right; apply IH].
    intros [?|?]; [by left|right; by apply IH]. }
  unfold queued. rewrite !elem_of_app. destruct k as [|[] i]; simpl; eauto.
Qed.

(** ** Traces *)
Inductive qop := OpPush (l : loc) | OpPop | OpStop.

(** The accepted packagers, the results of the pops and the final state. *)
Fixpoint qrun (h : heap) (q : priorityQueue) (ops : list qop)
    : option (list loc * list (option loc) * heap * priorityQueue) :=
  match ops with
  | [] => Some ([], [], h, q)
  | OpPush l :: ops =>
    '(ok, h, q) ← Push h q l;
    '(acc, pops, h, q) ← qrun h q ops;
    Some (if (ok : bool) then l :: acc else acc, pops, h, q)
  | OpPop :: ops =>
    '(r, _, h, q) ← TryPop h q;
    '(acc, pops, h, q) ← qrun h q ops;
    Some (acc, r :: pops, h, q)
  | OpStop :: ops => qrun h (Stop q) ops
  end.

Fixpoint srun (ln : loc -> lane) (stopped : bool) (s : squeue) (ops : list qop)
    : list loc * list (option loc) * squeue :=
  match ops with
  | [] => ([], [], s)
  | OpPush l :: ops =>
    if stopped then srun ln stopped s ops
    else let '(acc, pops, s) := srun ln stopped (spush (ln l) l s) ops in (l :: acc, pops, s)
  | OpPop :: ops =>
    let '(r, s) := spop s in
    let '(acc, pops, s) := srun ln stopped s ops in (acc, r :: pops, s)
  | OpStop :: ops => srun ln true s ops
  end.

Definition pushes (ops : list qop) : list loc :=
  omap (fun o => match o with OpPush l => Some l | _ => None end) ops.

Definition lane_in (h : heap) (l : loc) : lane := default Control (lane_at h l).

Lemma lane_in_cores h h' l : cores h' = cores h -> lane_in h' l = lane_in h l.
Proof.
  intros Hc. unfold lane_in, lane_at.
  apply (f_equal (fun m => m !! l)) in Hc. unfold cores in Hc. rewrite !lookup_fmap in Hc.
  destruct (packs h' !! l) as [p|], (packs h !! l) as [p'|]; simplify_eq/=; [|done].
  unfold lane_of. by destruct p, p'; simplify_eq/=.
Qed.

Lemma srun_cores h h' st s ops :
  cores h' = cores h -> srun (lane_in h') st s ops = srun (lane_in h) st s ops.
Proof.
  intros Hc. revert st s. induction ops as [|[l| |] ops IH]; intros st s; simpl; [done| | |].
  - destruct st; [apply IH|]. by rewrite (lane_in_cores h h' l Hc), IH.
  - destruct (spop s) as [r s']. by rewrite IH.
  - apply IH.
Qed.

Definition allocated (h : heap) (ls : list loc) : Prop := Forall (fun l => is_Some (packs h !! l)) ls.

Lemma allocated_cores h h' ls : cores h' = cores h -> allocated h ls -> allocated h' ls.
Proof.
  intros Hc H. eapply Forall_impl; [exact H|]. intros x [px Hx].
  destruct (core_lookup _ _ _ _ Hc Hx) as (p' & ? & _). by exists p'.
Qed.

(** The simulation along a trace: pushed packagers exist, and none is pushed
    while it is queued. *)
Lemma qrun_refines ops h q s :
  pq_rep h q s -> NoDup (pushes ops ++ queued s) -> allocated h (pushes ops) ->
  exists acc pops s' h' q', srun (lane_in h) (stop q) s ops = (acc, pops, s') /\
    qrun h q ops = Some (acc, pops, h', q') /\ pq_rep h' q' s' /\ cores h' = cores h.
Proof.
  revert h q s. induction ops as [|[l| |] ops IH]; intros h q s Hq Hnd Hin; simpl.
  - by eexists [], [], s, h, q.
  - simpl in Hnd, Hin. apply NoDup_cons in Hnd as [Hl Hnd]. rewrite elem_of_app in Hl.
    apply Forall_cons in Hin as [[p Hp] Hin]. destruct (stop q) eqn:Est.
    + unfold Push. rewrite Est. simpl.
      destruct (IH h q s) as (acc & pops & s' & h' & q' & E1 & -> & Hr & Hc); try done.
      rewrite Est in E1. eexists acc, pops, s', h', q'. by split_and!.
    + destruct (Push_refines h q s l p) as (h1 & q1 & -> & Hq1 & Hst & Hc1); try tauto.
      simpl. destruct (IH h1 q1 (spush (lane_of p) l s)) as (acc & pops & s' & h' & q' & E1 & -> & Hr & Hc).
      * done.
      * rewrite queued_spush, <- Permutation_middle. constructor; [|done]. rewrite elem_of_app. tauto.
      * by eapply allocated_cores.
      * rewrite Hst, (srun_cores _ _ _ _ _ Hc1) in E1.
        replace (lane_in h l) with (lane_of p) by (unfold lane_in, lane_at; by rewrite Hp).
        rewrite E1. eexists _, _, _, h', q'. split_and!; try done. by rewrite Hc.
  - destruct (TryPop_refines h q s Hq) as (r & bc & h1 & q1 & s1 & -> & Es & Hq1 & Hst & Hc1).
    rewrite Es. simpl. destruct (IH h1 q1 s1) as (acc & pops & s' & h' & q' & E1 & -> & Hr & Hc).
    + done.
    + simpl in Hnd. destruct r as [l|].
      * rewrite (spop_queued _ _ _ Es), <- Permutation_middle in Hnd. by apply NoDup_cons in Hnd as [_ ?].
      * by destruct (spop_none _ _ (pq_rep_swf _ _ _ Hq) Es) as [-> _].
    + by eapply allocated_cores.
    + rewrite Hst, (srun_cores _ _ _ _ _ Hc1) in E1.
      rewrite E1. eexists _, _, _, h', q'. split_and!; try done. by rewrite Hc.
  - destruct (IH h (Stop q) s) as (acc & pops & s' & h' & q' & E1 & E2 & Hr & Hc); try done.
    { destruct Hq as (ep & en & []). by exists ep, en. }
    simpl in E1. eexists _, _, _, h', q'. by split_and!.
Qed.

(** *** Order along a trace of the contract *)
Lemma spop_swf s r s' : swf s -> spop s = (r, s') -> swf s'.
Proof.
  intros Hw E. destruct r as [l|]; [|by destruct (spop_none _ _ Hw E) as [-> _]].
  destruct Hw as (Hp & Hn & Hb).
  apply spop_cases in E as [(c & Ec & ->)|[(a & Ec & Hlt & E & ->)|(a & Ec & _ & E & ->)]].
  - split_and!; simpl; [done|done|apply Hb..].
  - split_and!; simpl; [|done|..].
    + replace a with (snd (Spec.pop (pri s))) by (by rewrite E). by apply SpecOrder.pop_wf.
    + destruct (nonempty (nor s)); lia.
    + unfold maxPriorityBurst in *. destruct (nor s); simpl; [lia|]. destruct Hlt; [done|lia].
  - split_and!; simpl; [done| |unfold maxPriorityBurst; lia..].
    replace a with (snd (Spec.pop (nor s))) by (by rewrite E). by apply SpecOrder.pop_wf.
Qed.

Definition popped (pops : list (option loc)) : list loc := omap (fun r => r) pops.

(** Every queued packager is in its own lane. *)
Definition lanes_ok (ln : loc -> lane) (s : squeue) : Prop := forall k x, x ∈ in_lane k s -> ln x = k.

Lemma lanes_ok_push ln l s : swf s -> lanes_ok ln s -> lanes_ok ln (spush (ln l) l s).
Proof.
  intros Hw Hln k x. rewrite spush_in_lane by done. intros [?|Hx]%elem_of_app; [by apply Hln|].
  case_decide; [|by apply not_elem_of_nil in Hx]. by apply list_elem_of_singleton in Hx as ->.
Qed.

Lemma lanes_ok_pop ln s r s' : swf s -> spop s = (r, s') -> lanes_ok ln s -> lanes_ok ln s'.
Proof.
  intros Hw E Hln k x Hx. destruct r as [l|]; [|destruct (spop_none _ _ Hw E) as [-> _]; by apply Hln].
  destruct (spop_in_lane _ _ _ Hw E) as (k' & Hk). apply Hln. rewrite Hk. apply elem_of_app. by right.
Qed.

#[local] Hint Resolve spush_swf spop_swf lanes_ok_push lanes_ok_pop : core.

Lemma srun_fifo ln ops : forall st s acc pops s',
  swf s -> lanes_ok ln s ->
  srun ln st s ops = (acc, pops, s') ->
  (forall k, in_lane k s ++ filter (fun l => ln l = k) acc =
     filter (fun l => ln l = k) (popped pops) ++ in_lane k s') /\
  queued s ++ acc ≡ₚ popped pops ++ queued s' /\ swf s'.
Proof.
  induction ops as [|[l| |] ops IH]; intros st s acc pops s' Hw Hln; simpl.
  - intros [= <- <- <-]. rewrite app_nil_r. split; [|done]. intros k. by rewrite filter_nil, app_nil_r.
  - destruct st; [by apply IH|].
    destruct (srun ln false (spush (ln l) l s) ops) as [[acc0 pops0] s0] eqn:E.
    intros [= <- <- <-]. apply IH in E as (H1 & H2 & H3); [|by auto..].
    split_and!; [|by rewrite <- H2, queued_spush; simpl; rewrite Permutation_middle|done].
    intros k. rewrite <- H1, spush_in_lane by done. rewrite filter_cons, <- app_assoc.
    by destruct (decide (ln l = k)).
  - destruct (spop s) as [r s1] eqn:Es. destruct (srun ln st s1 ops) as [[acc0 pops0] s0] eqn:E.
    intros [= <- <- <-]. assert (Hw1 := spop_swf _ _ _ Hw Es). destruct r as [l|].
    + destruct (spop_in_lane _ _ _ Hw Es) as (k & Hk).
      assert (Hlk : ln l = k) by (apply Hln; rewrite Hk, decide_True by done; left).
      apply IH in E as (H1 & H2 & H3); [|by eauto..].
      split_and!; [|by rewrite (spop_queued _ _ _ Es); simpl; rewrite H2|done].
      intros k'. simpl. rewrite Hk, filter_cons, <- app_assoc, H1, Hlk.
      by destruct (decide (k = k')).
    + destruct (spop_none _ _ Hw Es) as [-> _]. exact (IH st s acc0 pops0 s0 Hw Hln E).
  - by apply IH.
Qed.

(** *** Fairness of the contract *)
Lemma push_lookup i l (a : Spec.sset) j k ps :
  a !! j = Some (k, ps) -> exists ps', Spec.push i l a !! j = Some (k, ps').
Proof.
  revert j. induction a as [|[m qs] a IH]; intros j; [done|]. simpl.
  destruct (decide (i = m)) as [->|], j as [|j]; simpl; eauto. intros [= -> ->]. eauto.
Qed.

Lemma pop_lookup (a : Spec.sset) l a' j k ps :
  Spec.pop a = (Some l, a') -> a !! S j = Some (k, ps) -> a' !! j = Some (k, ps).
Proof.
  destruct a as [|[m [|x [|y qs]]] a]; intros [= <- <-]; simpl; [done|].
  intros H. by apply lookup_app_l_Some.
Qed.

Lemma nor_pending s j i ps : swf s -> nor s !! j = Some (i, ps) -> queued s <> [].
Proof.
  intros (_ & [_ Hne] & _) Hj [_ [_ Hq]%app_eq_nil]%app_eq_nil.
  eapply Forall_lookup_1 in Hne; [|exact Hj]. destruct ps as [|x ps]; [done|].
  apply list_elem_of_lookup_2 in Hj. apply list_elem_of_split in Hj as (a & b & E).
  rewrite E, fmap_app, concat_app in Hq. by apply app_eq_nil in Hq as [_ ?].
Qed.

(** A normal stream at position [j] is served within [9 * j + 9] pops, less the
    part of the burst that has already been used. *)
Lemma srun_delay ln ops : forall st s acc pops s' j i ps,
  swf s -> lanes_ok ln s ->
  ctl s = [] -> nor s !! j = Some (i, ps) -> Forall (fun l => ln l <> Control) (pushes ops) ->
  srun ln st s ops = (acc, pops, s') ->
  9 * Z.of_nat j + 9 - burst s <= Z.of_nat (length pops) ->
  exists l, l ∈ popped pops /\ ln l = Stream false i.
Proof.
  induction ops as [|[l| |] ops IH]; intros st s acc pops s' j i ps Hw Hln Hc Hj Hns; simpl.
  - intros [= <- <- <-] H. destruct Hw as (_ & _ & Hb). unfold maxPriorityBurst in Hb. simpl in H. lia.
  - apply Forall_cons in Hns as [Hl Hns]. destruct st; [by apply (IH true s acc pops s' j i ps)|].
    destruct (srun ln false (spush (ln l) l s) ops) as [[acc0 pops0] s0] eqn:E. intros [= <- <- <-] Hlen.
    assert (Hp : ctl (spush (ln l) l s) = [] /\ burst (spush (ln l) l s) = burst s /\
                 exists ps', nor (spush (ln l) l s) !! j = Some (i, ps')).
    { destruct (ln l) as [|[] i'] eqn:El; [done|by eauto|]. by split_and!; [..|apply (push_lookup i' l _ _ _ _ Hj)]. }
    destruct Hp as (Hc' & Hb' & ps' & Hj'). rewrite <- Hb' in Hlen.
    eapply (IH false _ acc0 pops0 s0 j i ps'); [..|exact Hlen]; eauto.
  - destruct (spop s) as [r s1] eqn:Es. destruct (srun ln st s1 ops) as [[acc0 pops0] s0] eqn:E.
    intros [= <- <- <-] Hlen. simpl in Hlen. assert (Hw1 := spop_swf _ _ _ Hw Es).
    assert (Hln1 := lanes_ok_pop _ _ _ _ Hw Es Hln). destruct r as [l|].
    2:{ destruct (spop_none _ _ Hw Es) as [_ Hq]. by apply nor_pending in Hj. }
    pose proof Es as [(c & Ec & ->)|[(a & Ec & Hlt & Ea & ->)|(a & Ec & _ & Ea & ->)]]%spop_cases.
    + by rewrite Ec in Hc.
    + apply (IH _ _ _ _ _ j i ps) in E as (x & Hx & Hxi); try done.
      * exists x. split; [|done]. simpl. by right.
      * simpl. destruct (nor s); [done|]. simpl. lia.
    + destruct j as [|j].
      * exists l. split; [left|]. apply Hln. simpl.
        destruct (nor s) as [|[i0 [|y qs]] b]; simplify_eq/=.
        rewrite SpecOrder.stream_cons, decide_True by done. simpl. left.
      * apply (pop_lookup _ _ _ _ _ _ Ea) in Hj.
        apply (IH _ _ _ _ _ j i ps) in E as (x & Hx & Hxi); try done.
        -- exists x. split; [|done]. simpl. by right.
        -- destruct Hw as (_ & _ & Hb). unfold maxPriorityBurst in Hb. simpl. lia.
  - intros E Hlen. by apply (IH true s acc pops s' j i ps).
Qed.

(** *** Facts about a run from the empty queue *)
Lemma srun_accepts ln ops : forall st s acc pops s',
  srun ln st s ops = (acc, pops, s') -> sublist acc (pushes ops).
Proof.
  induction ops as [|[l| |] ops IH]; intros st s acc pops s'; simpl.
  - by intros [= <- _ _].
  - destruct st; [intros E; apply sublist_cons; by eapply IH|].
    destruct (srun ln false _ ops) as [[acc0 pops0] s0] eqn:E. intros [= <- _ _].
    apply sublist_skip. by eapply IH.
  - destruct (spop s) as [r s1]. destruct (srun ln st s1 ops) as [[acc0 pops0] s0] eqn:E.
    intros [= <- _ _]. by eapply IH.
  - by apply IH.
Qed.

Section FromEmpty.
Context (h : heap) (dh dl : Z) (ops : list qop).
Hypothesis Hpool : pool_ok h [].
Hypothesis Hnd : NoDup (pushes ops).
Hypothesis Halloc : allocated h (pushes ops).

Lemma run_from_empty :
  exists acc pops s' h' q', qrun h (pq_New dh dl) ops = Some (acc, pops, h', q') /\
    srun (lane_in h) false s_empty ops = (acc, pops, s') /\
    pq_rep h' q' s' /\ cores h' = cores h /\ lanes_ok (lane_in h) s' /\
    (forall k, filter (fun l => lane_in h l = k) acc =
       filter (fun l => lane_in h l = k) (popped pops) ++ in_lane k s') /\
    acc ≡ₚ popped pops ++ queued s' /\ sublist acc (pushes ops).
Proof.
  destruct h as [m bs pool] eqn:Eh. pose proof (rep_new dh dl _ _ _ Hpool) as Hr.
  rewrite <- Eh in *.
  destruct (qrun_refines ops _ _ _ Hr) as (acc & pops & s' & h' & q' & E1 & E2 & Hr' & Hc); [|done|].
  { simpl. by rewrite app_nil_r. }
  replace (stop (pq_New dh dl)) with false in E1
    by (unfold pq_New; by destruct (normalizeWriteQueueWatermarks _ _ _ _)).
  assert (Hl0 : lanes_ok (lane_in h) s_empty) by (intros [|[] i] x Hx; simpl in Hx; by apply not_elem_of_nil in Hx).
  destruct (srun_fifo _ _ _ _ _ _ _ (pq_rep_swf _ _ _ Hr) Hl0 E1) as (Hf & Hq & _).
  exists acc, pops, s', h', q'. split_and!; try done.
  - intros k x Hx. assert (Hx' : x ∈ filter (fun l => lane_in h l = k) acc); [|by apply list_elem_of_filter in Hx' as [? _]].
    specialize (Hf k). replace (in_lane k s_empty) with (@nil loc) in Hf by (by destruct k as [|[] ?]).
    simpl in Hf. rewrite Hf. apply elem_of_app. by right.
  - intros k. specialize (Hf k). by replace (in_lane k s_empty) with (@nil loc) in Hf by (by destruct k as [|[] ?]).
  - by eapply srun_accepts.
Qed.
End FromEmpty.

Lemma buckets_rep h st es :
  set_rep h st es -> size (buckets st) = length es /\
  forall i, is_Some (buckets st !! i) -> exists j ps, (es.*2) !! j = Some (i, ps).
Proof.
  intros Hr. split.
  - rewrite (rep_buckets _ _ _ Hr). fold (keys es). rewrite <- length_map_to_list.
    rewrite map_to_list_to_map by (rewrite keys_fst; apply Hr). unfold keys. by rewrite length_fmap.
  - intros i [b Hb]. destruct (rep_lookup_Some _ _ _ _ _ Hr Hb) as (es1 & ps & es2 & ->).
    exists (length es1), ps. rewrite fmap_app. rewrite lookup_app_r by (by rewrite length_fmap).
    by rewrite length_fmap, Nat.sub_diag.
Qed.

(** A heap with a ping, a priority frame of stream 5 and two frames of stream 7. *)
Definition example_packager (f i : Z) (pr : bool) : muxPackager :=
  mkPackager f i 0 pr None (mkBase [] 0 None).
Definition example_heap : heap :=
  mkHeap (list_to_map [(1%nat, example_packager muxPingFlag muxPing false);
                       (2%nat, example_packager muxNewMsg 5 true);
                       (3%nat, example_packager muxNewMsg 7 false);
                       (4%nat, example_packager muxConnClose 7 false)]) ∅ [].
Definition example_ops : list qop := [OpPush 3; OpPush 2; OpPush 4; OpPush 1; OpPop; OpPop]%nat.

Lemma example_pool : pool_ok example_heap [].
Proof. split; [apply NoDup_nil_2|intros b Hb; by apply not_elem_of_nil in Hb..]. Qed.

Lemma example_allocated : allocated example_heap [3; 2; 4; 1]%nat.
Proof. repeat constructor; eexists; vm_compute; reflexivity. Qed.

(** * Claims *)

(** C4. The write queue implements its contract.  Starting from an empty queue,
    any sequence of pushes of distinct packagers, pops and a stop runs without a
    nil dereference, and accepts and returns, in order, exactly what the contract
    [srun] does: control frames first and in order, then priority streams (up to
    eight frames while a normal stream waits) and normal streams, each set round
    robin, each stream in order. *)
Theorem write_queue_refines h dh dl ops :
  pool_ok h [] -> NoDup (pushes ops) -> allocated h (pushes ops) ->
  exists h' q', qrun h (pq_New dh dl) ops =
    Some (fst (fst (srun (lane_in h) false s_empty ops)),
          snd (fst (srun (lane_in h) false s_empty ops)), h', q').
Proof.
  intros H1 H2 H3. destruct (run_from_empty h dh dl ops H1 H2 H3) as (acc & pops & s' & h' & q' & E & -> & _).
  by exists h', q'.
Qed.

Lemma write_queue_refines_witness :
  exists h' q', qrun example_heap (pq_New 2048 1024) example_ops =
    Some ([3; 2; 4; 1], [Some 1; Some 2], h', q')%nat.
Proof.
  apply (write_queue_refines example_heap 2048 1024 example_ops).
  - apply example_pool.
  - change (NoDup [3; 2; 4; 1]%nat). apply (bool_decide_unpack _). vm_compute. exact I.
  - apply example_allocated.
Defined.

(** Nothing is lost, duplicated or reordered within a lane.  In any such run,
    the frames of one stream (or the control frames) come out in the order they
    were accepted; the length counter is the number of accepted frames minus the
    popped ones; and a further [TryPop] returns nil exactly when every accepted
    frame has been popped. *)
Theorem write_queue_fifo h dh dl ops :
  pool_ok h [] -> NoDup (pushes ops) -> allocated h (pushes ops) ->
  exists acc pops h' q', qrun h (pq_New dh dl) ops = Some (acc, pops, h', q') /\
    (forall k, filter (fun l => lane_in h l = k) (popped pops)
       `prefix_of` filter (fun l => lane_in h l = k) acc) /\
    Len q' = u64 (Z.of_nat (length acc) - Z.of_nat (length (popped pops))) /\
    ((exists bc h2 q2, TryPop h' q' = Some (None, bc, h2, q2)) <-> popped pops ≡ₚ acc).
Proof.
  intros H1 H2 H3.
  destruct (run_from_empty h dh dl ops H1 H2 H3) as (acc & pops & s' & h' & q' & E & _ & Hr & _ & _ & Hf & Hq & _).
  exists acc, pops, h', q'. split; [done|]. split_and!.
  - intros k. rewrite Hf. by apply prefix_app_r.
  - unfold Len. destruct Hr as (ep & en & Hr). rewrite (fr_len _ _ _ _ _ Hr), Hq, length_app. f_equal. lia.
  - destruct (TryPop_refines _ _ _ Hr) as (r & bc & h2 & q2 & s2 & -> & Es & _).
    split.
    + intros (? & ? & ? & [= -> _ _ _]). destruct (spop_none _ _ (pq_rep_swf _ _ _ Hr) Es) as [_ Hn].
      by rewrite Hq, Hn, app_nil_r.
    + intros Hp. destruct r as [l|]; [|by eauto]. apply spop_queued in Es.
      rewrite Hq, Es in Hp. apply Permutation_length in Hp. rewrite length_app in Hp. simpl in Hp. lia.
Qed.

Lemma write_queue_fifo_witness :
  exists acc pops h' q', qrun example_heap (pq_New 2048 1024) example_ops = Some (acc, pops, h', q') /\
    (forall k, filter (fun l => lane_in example_heap l = k) (popped pops)
       `prefix_of` filter (fun l => lane_in example_heap l = k) acc) /\
    Len q' = u64 (Z.of_nat (length acc) - Z.of_nat (length (popped pops))) /\
    ((exists bc h2 q2, TryPop h' q' = Some (None, bc, h2, q2)) <-> popped pops ≡ₚ acc).
Proof.
  apply (write_queue_fifo example_heap 2048 1024 example_ops).
  - apply example_pool.
  - change (NoDup [3; 2; 4; 1]%nat). apply (bool_decide_unpack _). vm_compute. exact I.
  - apply example_allocated.
Defined.



(** Whatever watermarks are configured, package defaults included, the
    normalised ones satisfy [1 <= low < high]. *)
Lemma watermarks_ordered defHigh defLow high low :
  0 <= defHigh -> 0 <= defLow -> 0 <= high -> 0 <= low ->
  let '(hi, lo) := normalizeWriteQueueWatermarks defHigh defLow high low in
  1 <= lo < hi /\ (2 <= high -> hi = high) /\ (1 <= low < high -> lo = low).
Proof.
  intros. unfold normalizeWriteQueueWatermarks.
  repeat case_match; simplify_eq; zbool; split_and!; intros; Z.div_mod_to_equations; lia.
Qed.
