(* ===== verification/Config.v ===== *)
(** Configuration of a multiplexer and the timeouts derived from it:
    [lib/mux/config.go], and the timeout functions of [lib/mux/mux.go] and
    [lib/mux/socket.go].

    Durations are [int64] nanoseconds, with their wrap-around.  The package
    variables that hold defaults are the record [defaults]. *)

From S2P Require Import Prelude GoFloat GoString Packager WriteQueue.
Local Open Scope Z_scope.

Definition Second : Z := 1000000000.
Definition Millisecond : Z := 1000000.

Definition windowBits : Z := 31.
Definition mask31 : Z := 2 ^ windowBits - 1.
Definition defaultInitialConnWindow : Z := maximumSegmentSize * 30.

Record MuxConfig := mkConfig {
  PingInterval : Z;
  PingJitter : Z;
  PingMaxPad : Z;
  AcceptBacklog : Z;
  MaxConnReceiveWindow : Z;        (* uint32 *)
  MaxSessionReceiveWindow : Z;     (* uint64 *)
  PingTimeout : Z;
  MinPingTimeout : Z;
  OpenTimeout : Z;
  ReadTimeout : Z;
  WriteTimeout : Z;
  SocketKeepAlive : Z;
  DisableSocketNoDelay : bool;
  CloseTimeout : Z;
  WriteQueueHighWater : Z;         (* uint64 *)
  WriteQueueLowWater : Z;          (* uint64 *)
  DisablePingPadRandom : bool;
  DisableTrafficAwarePing : bool;
  PingTimeoutMultiplier : float64;
  DisableAdaptivePingTimeout : bool;
}.

(** The package variables. *)
Record defaults := mkDefaults {
  v_PingInterval : Z; v_PingJitter : Z; v_PingMaxPad : Z; v_AcceptBacklog : Z;
  v_MaxConnReceiveWindow : Z; v_MaxSessionReceiveWindow : Z;
  v_SocketKeepAlive : Z; v_CloseTimeout : Z;
  v_WriteQueueHighWater : Z; v_WriteQueueLowWater : Z;
  v_PingTimeoutMultiplier : float64; v_MinPingTimeout : Z;
}.

Definition initial_defaults : defaults := {|
  v_PingInterval := 5 * Second; v_PingJitter := 2 * Second; v_PingMaxPad := 16; v_AcceptBacklog := 1024;
  v_MaxConnReceiveWindow := maximumWindowSize; v_MaxSessionReceiveWindow := maximumWindowSize * 2;
  v_SocketKeepAlive := 15 * Second; v_CloseTimeout := 5 * Second;
  v_WriteQueueHighWater := 2048; v_WriteQueueLowWater := 1024;
  v_PingTimeoutMultiplier := float_of_Z 6; v_MinPingTimeout := 0;
|}.

Definition DefaultMuxConfig (v : defaults) : MuxConfig := {|
  PingInterval := v_PingInterval v;
  PingJitter := v_PingJitter v;
  PingMaxPad := v_PingMaxPad v;
  AcceptBacklog := v_AcceptBacklog v;
  MaxConnReceiveWindow := v_MaxConnReceiveWindow v;
  MaxSessionReceiveWindow := v_MaxSessionReceiveWindow v;
  PingTimeout := 0;
  MinPingTimeout := v_MinPingTimeout v;
  OpenTimeout := 0; ReadTimeout := 0; WriteTimeout := 0;
  SocketKeepAlive := v_SocketKeepAlive v;
  DisableSocketNoDelay := false;
  CloseTimeout := v_CloseTimeout v;
  WriteQueueHighWater := v_WriteQueueHighWater v;
  WriteQueueLowWater := v_WriteQueueLowWater v;
  DisablePingPadRandom := false; DisableTrafficAwarePing := false;
  PingTimeoutMultiplier := v_PingTimeoutMultiplier v;
  DisableAdaptivePingTimeout := false;
|}.

Definition absoluteDuration (d : Z) : Z := if d <? 0 then i64 (- d) else d.

Definition normalizedMaxConnReceiveWindow_cfg (cfg : MuxConfig) : Z :=
  let n := MaxConnReceiveWindow cfg in
  let n := if n <? defaultInitialConnWindow then defaultInitialConnWindow else n in
  if mask31 <? n then mask31 else n.

Definition normalizedMaxSessionReceiveWindow_cfg (cfg : MuxConfig) : Z :=
  let n := MaxSessionReceiveWindow cfg in
  let min := normalizedMaxConnReceiveWindow_cfg cfg in
  let n := if n <? min then min else n in
  if mask31 <? n then mask31 else n.

Definition nonneg (d : Z) : Z := if d <? 0 then 0 else d.

Definition normalizeMuxConfig (v : defaults) (cfg : MuxConfig) : MuxConfig :=
  let '(hi, lo) := normalizeWriteQueueWatermarks (v_WriteQueueHighWater v) (v_WriteQueueLowWater v)
                     (WriteQueueHighWater cfg) (WriteQueueLowWater cfg) in
  {|
    PingInterval := PingInterval cfg;
    PingJitter := absoluteDuration (PingJitter cfg);
    PingMaxPad :=
      if PingMaxPad cfg <? 0 then 0
      else if maximumSegmentSize - 8 <? PingMaxPad cfg then maximumSegmentSize - 8
      else PingMaxPad cfg;
    AcceptBacklog := if AcceptBacklog cfg <=? 0 then 1 else AcceptBacklog cfg;
    MaxConnReceiveWindow := normalizedMaxConnReceiveWindow_cfg cfg;
    MaxSessionReceiveWindow := normalizedMaxSessionReceiveWindow_cfg cfg;
    PingTimeout := nonneg (PingTimeout cfg);
    MinPingTimeout := nonneg (MinPingTimeout cfg);
    OpenTimeout := nonneg (OpenTimeout cfg);
    ReadTimeout := ReadTimeout cfg;
    WriteTimeout := WriteTimeout cfg;
    SocketKeepAlive :=
      if SocketKeepAlive cfg <? 0 then 0
      else if SocketKeepAlive cfg =? 0 then v_SocketKeepAlive v else SocketKeepAlive cfg;
    DisableSocketNoDelay := DisableSocketNoDelay cfg;
    CloseTimeout :=
      if CloseTimeout cfg <? 0 then 0
      else if CloseTimeout cfg =? 0 then v_CloseTimeout v else CloseTimeout cfg;
    WriteQueueHighWater := hi;
    WriteQueueLowWater := lo;
    DisablePingPadRandom := DisablePingPadRandom cfg;
    DisableTrafficAwarePing := DisableTrafficAwarePing cfg;
    PingTimeoutMultiplier :=
      if fleb (PingTimeoutMultiplier cfg) fzero then v_PingTimeoutMultiplier v
      else PingTimeoutMultiplier cfg;
    DisableAdaptivePingTimeout := DisableAdaptivePingTimeout cfg;
  |}.

(** ** Timeouts *)
Definition normalizedConnType (connType : string) : string := ToLower (TrimSpace connType).

Definition resolvePingTimeout (cfg : MuxConfig) (connType : string) (pingCheckThreshold : Z) : Z :=
  if 0 <? pingCheckThreshold then i64 (pingCheckThreshold * Second)
  else if 0 <? PingTimeout cfg then PingTimeout cfg
  else
    let sum := i64 (PingInterval cfg + PingJitter cfg) in
    let timeout := if decide (normalizedConnType connType = "kcp")
                   then i64 (PingInterval cfg + i64 (2 * PingJitter cfg))
                   else i64 (2 * sum) in
    let maxTimeout := i64 (10 * sum) in
    let timeout := if maxTimeout <? timeout then maxTimeout else timeout in
    if timeout <=? sum then 30 * Second else timeout.

Definition resolveMinPingTimeout (cfg : MuxConfig) (maxTimeout : Z) : Z :=
  let timeout := MinPingTimeout cfg in
  let timeout := if timeout <=? 0 then i64 (PingInterval cfg + PingJitter cfg) else timeout in
  let timeout := if timeout <=? 0 then Second else timeout in
  if (0 <? maxTimeout) && (maxTimeout <? timeout) then maxTimeout else timeout.

Definition resolveOpenTimeout (cfg : MuxConfig) (connType : string) (pingTimeout : Z) : Z :=
  if 0 <? OpenTimeout cfg then OpenTimeout cfg
  else
    let timeout := pingTimeout in
    let timeout :=
      if decide (normalizedConnType connType = "kcp")
      then (if 8 * Second <? timeout then 8 * Second else timeout)
      else (if 15 * Second <? timeout then 15 * Second else timeout) in
    if timeout <? 8 * Second then 8 * Second else timeout.

Definition resolveIOTimeout (timeout fallback : Z) : Z :=
  if timeout <? 0 then 0
  else if 0 <? timeout then timeout
  else if fallback <? 0 then 0 else fallback.

Definition pingIdleThreshold (cfg : MuxConfig) : Z :=
  if PingInterval cfg <=? 0 then 0
  else
    let threshold := Z.quot (PingInterval cfg) 2 in
    if threshold <=? 0 then PingInterval cfg
    else if threshold <? 500 * Millisecond then 500 * Millisecond else threshold.

Definition closeDeadline (cfg : MuxConfig) : Z :=
  if CloseTimeout cfg <=? 0 then 0 else CloseTimeout cfg.

(** [draw] is the value [randInt63n(jitter)] returns. *)
Definition nextPingDelay (cfg : MuxConfig) (draw : Z) : Z :=
  if PingInterval cfg <=? 0 then Second
  else
    let jitter := PingJitter cfg in
    if jitter =? 0 then PingInterval cfg
    else
      let j := i64 (draw - Z.quot jitter 2) in
      let next := i64 (PingInterval cfg + j) in
      if next <=? 0 then PingInterval cfg else next.

(** [peak] is [PeakLatency()]; [other] the out-of-range conversion. *)
Definition effectivePingTimeout (other : float64 -> Z) (cfg : MuxConfig) (pingTimeout peak : Z) : Z :=
  let maxTimeout := if pingTimeout <=? 0 then 30 * Second else pingTimeout in
  if DisableAdaptivePingTimeout cfg then maxTimeout
  else if peak <=? 0 then maxTimeout
  else
    let minTimeout := resolveMinPingTimeout cfg maxTimeout in
    let adaptive := to_int64 other (fceil (fmul (float_of_Z peak) (PingTimeoutMultiplier cfg))) in
    let adaptive := if adaptive <? minTimeout then minTimeout else adaptive in
    let adaptive := if maxTimeout <? adaptive then maxTimeout else adaptive in
    if adaptive <=? 0 then maxTimeout else adaptive.

(** [time.Time.Sub] saturates; the two instants are nanosecond counts. *)
Definition time_sub (a b : Z) : Z := Z.max (- 2 ^ 63) (Z.min (2 ^ 63 - 1) (a - b)).

Definition isAliveTimeout (other : float64 -> Z) (cfg : MuxConfig) (pingTimeout peak last now : Z) : bool :=
  if last <=? 0 then false
  else effectivePingTimeout other cfg pingTimeout peak <? time_sub now last.

Definition shouldSendPing (cfg : MuxConfig) (last now : Z) : bool :=
  if DisableTrafficAwarePing cfg then true
  else if last <=? 0 then true
  else
    let threshold := pingIdleThreshold cfg in
    if threshold <=? 0 then true else threshold <=? time_sub now last.

(** ** The normalised configuration *)
Record wf_config (cfg : MuxConfig) : Prop := {
  wc_pad : 0 <= PingMaxPad cfg <= maximumSegmentSize - 8;
  wc_backlog : 1 <= AcceptBacklog cfg;
  wc_conn : defaultInitialConnWindow <= MaxConnReceiveWindow cfg <= mask31;
  wc_session : MaxConnReceiveWindow cfg <= MaxSessionReceiveWindow cfg <= mask31;
  wc_water : 1 <= WriteQueueLowWater cfg < WriteQueueHighWater cfg;
  wc_timeouts : 0 <= PingTimeout cfg /\ 0 <= MinPingTimeout cfg /\ 0 <= OpenTimeout cfg /\
    0 <= SocketKeepAlive cfg /\ 0 <= CloseTimeout cfg;
}.

Lemma window_constants : defaultInitialConnWindow = 122550 /\ mask31 = 2147483647 /\ maximumSegmentSize = 4085.
Proof. repeat split. Qed.

Lemma watermarks_bounds defHigh defLow high low hi lo :
  0 <= defLow -> 0 <= low ->
  normalizeWriteQueueWatermarks defHigh defLow high low = (hi, lo) -> 1 <= lo < hi.
Proof.
  unfold normalizeWriteQueueWatermarks. intros Hd Hl H. injection H as <- <-.
  repeat case_match; zbool; Z.div_mod_to_equations; lia.
Qed.



Lemma resolveMin_bounds cfg max :
  0 < max -> 0 < resolveMinPingTimeout cfg max <= max /\
    (0 < MinPingTimeout cfg <= max -> resolveMinPingTimeout cfg max = MinPingTimeout cfg).
Proof.
  intros Hm. unfold resolveMinPingTimeout, Second.
  generalize (i64 (PingInterval cfg + PingJitter cfg)) as z. intros z.
  destruct (Z.leb_spec (MinPingTimeout cfg) 0); [destruct (Z.leb_spec z 0)|destruct (Z.leb_spec (MinPingTimeout cfg) 0)];
    if_case; split; intros; lia.
Qed.

(** The adaptive ping timeout is positive and never exceeds the configured
    one, and it is at least the minimum (when that is not above the maximum),
    whatever the measured latency and whatever the conversion of an out-of-range
    float yields.  The delay to the next ping is positive and within half the
    jitter of the interval. *)
Lemma ping_timers_bounded other cfg pingTimeout peak draw :
  is_sint 64 (PingInterval cfg) -> is_sint 64 pingTimeout ->
  0 <= PingJitter cfg < 2 ^ 62 -> PingInterval cfg < 2 ^ 62 ->
  0 <= draw < Z.max 1 (PingJitter cfg) ->
  let eff := effectivePingTimeout other cfg pingTimeout peak in
  let max := if pingTimeout <=? 0 then 30 * Second else pingTimeout in
  0 < eff <= max /\
  (DisableAdaptivePingTimeout cfg = false -> 0 < MinPingTimeout cfg <= max -> MinPingTimeout cfg <= eff) /\
  0 < nextPingDelay cfg draw /\
  (0 < PingInterval cfg ->
     Z.abs (nextPingDelay cfg draw - PingInterval cfg) <= PingJitter cfg / 2 + 1).
Proof.
  intros Hi Hp Hj Hi2 Hd eff max. unfold is_sint in *. unfold Second in *.
  assert (Hmax : 0 < max) by (unfold max; if_case; lia).
  assert (Heff : 0 < eff <= max /\
    (DisableAdaptivePingTimeout cfg = false -> 0 < MinPingTimeout cfg <= max -> MinPingTimeout cfg <= eff)).
  { unfold eff, effectivePingTimeout. unfold Second in *. fold max.
    destruct (DisableAdaptivePingTimeout cfg); [split; [lia|done]|].
    destruct (Z.leb_spec peak 0); [split; [lia|intros; lia]|].
    generalize (to_int64 other (fceil (fmul (float_of_Z peak) (PingTimeoutMultiplier cfg)))) as a. intros a.
    destruct (resolveMin_bounds cfg max Hmax) as [Hb He].
    repeat if_case; split; intros; try rewrite <- He by lia; lia. }
  split; [apply Heff|]. split; [apply Heff|]. clear Heff.
  unfold nextPingDelay, Second. rewrite Z.quot_div_nonneg by lia.
  assert (Hh : 0 <= PingJitter cfg / 2 <= PingJitter cfg) by (Z.div_mod_to_equations; lia).
  destruct (Z.leb_spec (PingInterval cfg) 0); [split; lia|].
  destruct (Z.eqb_spec (PingJitter cfg) 0) as [Hz|Hz]; [split; lia|].
  unfold i64. rewrite (swrap_small 64 (draw - _)) by (unfold is_sint; lia).
  rewrite swrap_small by (unfold is_sint; lia).
  if_case; split; Z.div_mod_to_equations; lia.
Qed.

Lemma ping_timers_bounded_witness :
  let cfg := DefaultMuxConfig initial_defaults in
  let eff := effectivePingTimeout (fun _ => 0) cfg (14 * Second) (50 * Millisecond) in
  let max := if 14 * Second <=? 0 then 30 * Second else 14 * Second in
  0 < eff <= max /\
  (DisableAdaptivePingTimeout cfg = false -> 0 < MinPingTimeout cfg <= max -> MinPingTimeout cfg <= eff) /\
  0 < nextPingDelay cfg 7 /\
  (0 < PingInterval cfg -> Z.abs (nextPingDelay cfg 7 - PingInterval cfg) <= PingJitter cfg / 2 + 1).
Proof.
  apply (ping_timers_bounded (fun _ => 0) (DefaultMuxConfig initial_defaults) (14 * Second) (50 * Millisecond) 7);
    vm_compute; split; congruence.
Defined.
