(* ===== verification/Dequeue.v ===== *)
(** The ring buffers behind a connection's receive queue:
    [lib/mux/queue_chain.go].

    The receive queue pushes and pops under one mutex, so a compare-and-swap of
    this file succeeds at its first attempt and the operations are functions on
    the state.  [None] is a panic (a nil dereference or an index out of range) or
    a loop that makes no progress ([bufDequeue.popTail] spinning on a nil slot);
    the theorems show that neither happens.  The [starving] and [newChain] words
    only change after a lost race and are left out.

    [Fifo] is the interface the receive queue relies on; [chain_fifo] is the
    proof that the chain of rings implements it. *)

From S2P Require Import Prelude.
Local Open Scope Z_scope.

(** ** The interface: an unbounded queue of pointers *)
Class Fifo (Q A : Type) := {
  fifo_push : Q -> A -> option Q;
  fifo_pop : Q -> option (option A * Q);
  fifo_holds : Q -> list A -> Prop;
  fifo_push_ok q xs a : fifo_holds q xs ->
    exists q', fifo_push q a = Some q' /\ fifo_holds q' (xs ++ [a]);
  fifo_pop_ok q xs : fifo_holds q xs ->
    exists q', fifo_pop q = Some (hd_error xs, q') /\ fifo_holds q' (tl xs);
}.

(** ** Packed indices *)
Definition dequeueBits : Z := 32.
Definition dequeueLimit : Z := Z.shiftl 1 dequeueBits / 4.

Definition unpack (ptrs : Z) : Z * Z :=
  let mask := Z.shiftl 1 dequeueBits - 1 in
  (u32 (Z.land (Z.shiftr ptrs dequeueBits) mask), u32 (Z.land ptrs mask)).

Definition pack (head tail : Z) : Z :=
  let mask := Z.shiftl 1 dequeueBits - 1 in
  Z.lor (u64 (Z.shiftl head dequeueBits)) (Z.land tail mask).

Section Ring.
Context {A : Type}.

(** ** The fixed-size ring *)
Record bufDequeue := mkDeq { headTail : Z; vals : list (option A) }.

Definition deq_len (d : bufDequeue) : Z := Z.of_nat (length (vals d)).

(** [d.vals[i]], with Go's bounds check. *)
Definition slot (d : bufDequeue) (i : Z) : option (option A) := vals d !! Z.to_nat i.
Definition set_slot (d : bufDequeue) (i : Z) (v : option A) : list (option A) :=
  <[Z.to_nat i := v]> (vals d).

Definition deq_pushHead (d : bufDequeue) (val : A) : option (bool * bufDequeue) :=
  let '(head, tail) := unpack (headTail d) in
  if Z.land (u32 (tail + u32 (deq_len d))) (Z.shiftl 1 dequeueBits - 1) =? head
  then Some (false, d)
  else
    let ptrs2 := pack (u32 (head + 1)) tail in
    let i := Z.land head (u32 (deq_len d - 1)) in
    _ ← slot d i;
    Some (true, mkDeq ptrs2 (set_slot d i (Some val))).

Definition deq_popTail (d : bufDequeue) : option (option A * bufDequeue) :=
  let '(head, tail) := unpack (headTail d) in
  if tail =? head then Some (None, d)
  else
    let i := Z.land tail (u32 (deq_len d - 1)) in
    sl ← slot d i;
    val ← sl;
    let vs := set_slot d i None in
    let ht := if tail <? 2 ^ 32 - 1 then u64 (headTail d + 1)
              else u64 (headTail d + Z.lxor (2 ^ 32 - 1 - 1) (2 ^ 64 - 1)) in
    Some (Some val, mkDeq ht vs).

(** ** The chain of rings *)
Record bufChainElt := mkElt { elt_deq : bufDequeue; next : option nat; prev : option nat }.

(** The heap of chain elements with the chain's two pointers. *)
Record bufChain := mkChain {
  elts : gmap nat bufChainElt;
  chain_head : option nat;
  chain_tail : option nat;
}.

Definition new_ring (size : Z) : bufDequeue := mkDeq 0 (replicate (Z.to_nat size) None).

Definition chain_new (initSize : Z) : bufChain :=
  mkChain {[0%nat := mkElt (new_ring initSize) None None]} (Some 0%nat) (Some 0%nat).

Definition set_elt (c : bufChain) (a : nat) (e : bufChainElt) : bufChain :=
  mkChain (<[a := e]> (elts c)) (chain_head c) (chain_tail c).

(** A fresh address. *)
Definition fresh_elt (c : bufChain) : nat := fresh (dom (elts c)).

Definition chain_pushHead (c : bufChain) (val : A) : option bufChain :=
  a ← chain_head c;
  e ← elts c !! a;
  '(ok, d) ← deq_pushHead (elt_deq e) val;
  if (ok : bool) then Some (set_elt c a (mkElt d (next e) (prev e)))
  else
    let newSize := deq_len (elt_deq e) * 2 in
    let newSize := if dequeueLimit <=? newSize then dequeueLimit else newSize in
    '(_, d2) ← deq_pushHead (new_ring newSize) val;
    let b := fresh_elt c in
    let c := set_elt c b (mkElt d2 None (Some a)) in
    let c := mkChain (elts c) (Some b) (chain_tail c) in
    Some (set_elt c a (mkElt (elt_deq e) (Some b) (prev e))).

(** The loop visits each element of the chain at most once; [fuel] counts
    elements, and the number of allocated ones is enough. *)
Fixpoint chain_pop_loop (fuel : nat) (c : bufChain) (a : nat) : option (option A * bufChain) :=
  match fuel with
  | O => None
  | S fuel =>
    e ← elts c !! a;
    '(r, d) ← deq_popTail (elt_deq e);
    match r with
    | Some v => Some (Some v, set_elt c a (mkElt d (next e) (prev e)))
    | None =>
      match next e with
      | None => Some (None, c)
      | Some b =>
        eb ← elts c !! b;
        let c := if decide (chain_tail c = Some a)
                 then mkChain (<[b := mkElt (elt_deq eb) (next eb) None]> (elts c))
                        (chain_head c) (Some b)
                 else c in
        chain_pop_loop fuel c b
      end
    end
  end.

Definition chain_popTail (c : bufChain) : option (option A * bufChain) :=
  match chain_tail c with
  | None => Some (None, c)
  | Some a => chain_pop_loop (size (elts c)) c a
  end.
End Ring.
Arguments bufDequeue : clear implicits.
Arguments bufChainElt : clear implicits.
Arguments bufChain : clear implicits.

(** ** Packed indices are a pair of 32-bit words *)
Lemma pack_val h t : is_uint 32 h -> is_uint 32 t -> pack h t = h * 2 ^ 32 + t.
Proof.
  unfold is_uint. intros Hh Ht. unfold pack, dequeueBits. rewrite land_mask by lia.
  rewrite (Z.mod_small t) by lia. replace (u64 (Z.shiftl h 32)) with (Z.shiftl h 32).
  - by apply lor_shiftl_small.
  - symmetry. apply wrap_small. unfold is_uint. rewrite Z.shiftl_mul_pow2; lia.
Qed.

Lemma unpack_val h t : is_uint 32 h -> is_uint 32 t -> unpack (h * 2 ^ 32 + t) = (h, t).
Proof.
  unfold is_uint. intros Hh Ht. unfold unpack, dequeueBits. rewrite !land_mask by lia.
  rewrite shiftr_field, mod_field by lia. unfold u32. rewrite (Z.mod_small h) by lia.
  by rewrite !wrap_small.
Qed.

Lemma unpack_pack h t : is_uint 32 h -> is_uint 32 t -> unpack (pack h t) = (h, t).
Proof. intros. rewrite pack_val by done. by apply unpack_val. Qed.

Lemma u32_uint z : is_uint 32 (u32 z).
Proof. by apply wrap_range. Qed.
#[export] Hint Resolve u32_uint : nps.

Section RingProof.
Context {A : Type}.
Implicit Types (d : bufDequeue A) (xs : list A).

(** [xs] lies in the ring from index [t] on; every other slot is nil. *)
Record ring_holds (d : bufDequeue A) (k t : Z) (xs : list A) : Prop := {
  rh_k : 0 <= k <= 30;
  rh_len : deq_len d = 2 ^ k;
  rh_t : is_uint 32 t;
  rh_fit : Z.of_nat (length xs) <= 2 ^ k;
  rh_ht : headTail d = u32 (t + Z.of_nat (length xs)) * 2 ^ 32 + t;
  rh_vals : forall i, 0 <= i < 2 ^ k ->
    slot d ((t + i) mod 2 ^ k) = Some (xs !! Z.to_nat i);
}.

Lemma pow2_le_30 k : 0 <= k <= 30 -> 1 <= 2 ^ k <= 2 ^ 30.
Proof.
  intros Hk. split; [|by apply Z.pow_le_mono_r; lia].
  change 1 with (2 ^ 0). apply Z.pow_le_mono_r; lia.
Qed.

(** The index computed with the length mask. *)
Lemma ring_index d k i : 0 <= k <= 30 -> deq_len d = 2 ^ k ->
  Z.land (u32 i) (u32 (deq_len d - 1)) = i mod 2 ^ k.
Proof.
  intros Hk ->. pose proof (pow2_le_30 k Hk).
  replace (u32 (2 ^ k - 1)) with (Z.shiftl 1 k - 1).
  - rewrite land_mask by lia. apply wrap_mod_pow2. lia.
  - rewrite Z.shiftl_mul_pow2 by lia. unfold u32. rewrite wrap_small; [lia|]. unfold is_uint. lia.
Qed.

Lemma u32_plus_eq t a b : is_uint 32 t -> 0 <= a < 2 ^ 32 -> 0 <= b < 2 ^ 32 ->
  u32 (t + a) = u32 (t + b) <-> a = b.
Proof.
  intros Ht Ha Hb. split; [|by intros ->]. unfold u32, wrap. intros H.
  apply (f_equal (fun z => (z - t) mod 2 ^ 32)) in H. rewrite !Zminus_mod_idemp_l in H.
  replace (t + a - t) with a in H by lia. replace (t + b - t) with b in H by lia.
  by rewrite !Z.mod_small in H.
Qed.

Lemma mod_plus_inj m t a b : 0 < m -> 0 <= a < m -> 0 <= b < m -> (t + a) mod m = (t + b) mod m -> a = b.
Proof.
  intros Hm Ha Hb H. apply (f_equal (fun z => (z - t) mod m)) in H.
  rewrite !Zminus_mod_idemp_l in H.
  replace (t + a - t) with a in H by lia. replace (t + b - t) with b in H by lia.
  by rewrite !Z.mod_small in H.
Qed.

Lemma full_index t len :
  Z.land (u32 (t + u32 len)) (Z.shiftl 1 dequeueBits - 1) = u32 (t + len).
Proof.
  rewrite land_mask by done. unfold u32, wrap, dequeueBits. rewrite Zmod_mod.
  by rewrite Zplus_mod_idemp_r.
Qed.

Lemma deq_push_full d k t xs v :
  ring_holds d k t xs -> Z.of_nat (length xs) = 2 ^ k -> deq_pushHead d v = Some (false, d).
Proof.
  intros [Hk Hlen Ht Hfit Hht Hv] Hfull. unfold deq_pushHead.
  rewrite Hht, unpack_val by auto with nps. by rewrite full_index, Hlen, Hfull, Z.eqb_refl.
Qed.

Lemma deq_full_test t n len : is_uint 32 t -> 0 <= n < len -> len <= 2 ^ 30 ->
  (Z.land (u32 (t + u32 len)) (Z.shiftl 1 dequeueBits - 1) =? u32 (t + n)) = false.
Proof. intros Ht Hn Hlen. rewrite full_index. apply Z.eqb_neq. rewrite u32_plus_eq by (done || lia). lia. Qed.

Lemma slot_set d i j v : 0 <= i < deq_len d -> 0 <= j ->
  slot (mkDeq (headTail d) (set_slot d i v)) j = if i =? j then Some v else slot d j.
Proof.
  intros Hi Hj. unfold slot, set_slot, deq_len in *. simpl. destruct (Z.eqb_spec i j) as [->|].
  - apply list_lookup_insert_eq. lia.
  - apply list_lookup_insert_ne. lia.
Qed.

Lemma deq_push_ok d k t xs v :
  ring_holds d k t xs -> Z.of_nat (length xs) < 2 ^ k ->
  exists d', deq_pushHead d v = Some (true, d') /\ ring_holds d' k t (xs ++ [v]).
Proof.
  intros [Hk Hlen Ht Hfit Hht Hv] Hroom. pose proof (pow2_le_30 k Hk). unfold deq_pushHead.
  rewrite Hht, unpack_val by auto with nps. rewrite (deq_full_test t (Z.of_nat (length xs))) by (done || lia).
  rewrite (ring_index d k) by done. rewrite Hv by lia. simpl. eexists. split; [done|].
  set (n := Z.of_nat (length xs)) in *. pose proof (Z.mod_pos_bound (t + n) (2 ^ k)) as Hb.
  split; try done.
  - unfold deq_len in *. simpl. unfold set_slot. by rewrite length_insert.
  - rewrite length_app. simpl. lia.
  - simpl. rewrite pack_val by auto with nps. f_equal. f_equal. rewrite length_app. simpl.
    unfold u32, wrap. rewrite Zplus_mod_idemp_l. f_equal. lia.
  - intros i Hi. change (slot (mkDeq (headTail d) (set_slot d ((t + n) mod 2 ^ k) (Some v)))
      ((t + i) mod 2 ^ k) = Some ((xs ++ [v]) !! Z.to_nat i)).
    pose proof (Z.mod_pos_bound (t + i) (2 ^ k)). rewrite slot_set by lia.
    destruct (Z.eqb_spec ((t + n) mod 2 ^ k) ((t + i) mod 2 ^ k)) as [E|E].
    + apply mod_plus_inj in E; [|lia..]. subst i. unfold n. by rewrite Nat2Z.id, list_lookup_middle.
    + rewrite Hv by done. f_equal. destruct (decide (i < n)).
      * by rewrite lookup_app_l by lia.
      * rewrite lookup_ge_None_2, lookup_ge_None_2; [done| |lia]. rewrite length_app. simpl.
        destruct (decide (i = n)) as [->|]; [done|lia].
Qed.

Lemma deq_pop_empty d k t : ring_holds d k t [] -> deq_popTail d = Some (None, d).
Proof.
  intros [Hk Hlen Ht Hfit Hht Hv]. unfold deq_popTail.
  rewrite Hht, unpack_val by auto with nps. simpl. rewrite Z.add_0_r.
  replace (u32 t) with t by (symmetry; by apply wrap_small). by rewrite Z.eqb_refl.
Qed.

(** The two ways the tail index advances amount to a 32-bit increment that never
    carries into the head index. *)
Lemma advance_tail h t : is_uint 32 h -> is_uint 32 t ->
  (if t <? 2 ^ 32 - 1 then u64 (h * 2 ^ 32 + t + 1)
   else u64 (h * 2 ^ 32 + t + Z.lxor (2 ^ 32 - 1 - 1) (2 ^ 64 - 1))) = h * 2 ^ 32 + u32 (t + 1).
Proof.
  unfold is_uint. intros Hh Ht. destruct (Z.ltb_spec t (2 ^ 32 - 1)).
  - unfold u32, u64. rewrite !wrap_small; unfold is_uint; lia.
  - assert (t = 2 ^ 32 - 1) as -> by lia.
    change (Z.lxor (2 ^ 32 - 1 - 1) (2 ^ 64 - 1)) with (2 ^ 64 - 2 ^ 32 + 1).
    change (u32 (2 ^ 32 - 1 + 1)) with 0. unfold u64, wrap.
    replace (h * 2 ^ 32 + (2 ^ 32 - 1) + (2 ^ 64 - 2 ^ 32 + 1)) with (h * 2 ^ 32 + 1 * 2 ^ 64) by lia.
    rewrite Z_mod_plus_full, Z.mod_small; lia.
Qed.

Lemma deq_pop_ok d k t x xs :
  ring_holds d k t (x :: xs) ->
  exists d', deq_popTail d = Some (Some x, d') /\ ring_holds d' k (u32 (t + 1)) xs.
Proof.
  intros [Hk Hlen Ht Hfit Hht Hv]. pose proof (pow2_le_30 k Hk).
  assert (Hxs : 0 <= Z.of_nat (length xs) < 2 ^ k) by (simpl in Hfit; lia).
  unfold deq_popTail. rewrite Hht, unpack_val by auto with nps.
  destruct (Z.eqb_spec t (u32 (t + Z.of_nat (length (x :: xs))))) as [E|_].
  { exfalso. replace t with (u32 (t + 0)) in E at 1 by (rewrite Z.add_0_r; by apply wrap_small).
    apply u32_plus_eq in E; [|done|..]; simpl in *; lia. }
  assert (Hi : Z.land t (u32 (deq_len d - 1)) = t mod 2 ^ k).
  { rewrite <- (ring_index d k) by done. f_equal. symmetry. by apply wrap_small. }
  rewrite Hi. pose proof (Hv 0) as Hv0. rewrite Z.add_0_r in Hv0. rewrite Hv0 by lia. simpl.
  eexists. split; [done|]. rewrite advance_tail by auto with nps.
  pose proof (Z.mod_pos_bound t (2 ^ k)) as Hb. split; simpl; try done; try lia.
  - unfold deq_len in *. simpl. unfold set_slot. by rewrite length_insert.
  - by auto with nps.
  - f_equal. f_equal. unfold u32, wrap. rewrite Zplus_mod_idemp_l. f_equal. lia.
  - intros i Hj. change (slot (mkDeq (headTail d) (set_slot d (t mod 2 ^ k) None))
      ((u32 (t + 1) + i) mod 2 ^ k) = Some (xs !! Z.to_nat i)).
    replace ((u32 (t + 1) + i) mod 2 ^ k) with ((t + (1 + i)) mod 2 ^ k).
    2:{ rewrite <- (Z.add_mod_idemp_l (u32 (t + 1))) by lia. unfold u32.
        rewrite wrap_mod_pow2, Z.add_mod_idemp_l by lia. f_equal. lia. }
    pose proof (Z.mod_pos_bound (t + (1 + i)) (2 ^ k)). rewrite slot_set by lia.
    destruct (decide (i = 2 ^ k - 1)) as [->|Hne].
    + replace (t + (1 + (2 ^ k - 1))) with (t + 1 * 2 ^ k) by lia.
      rewrite Z_mod_plus_full, Z.eqb_refl. f_equal. symmetry. apply lookup_ge_None_2. lia.
    + destruct (Z.eqb_spec (t mod 2 ^ k) ((t + (1 + i)) mod 2 ^ k)) as [E|_].
      { exfalso. rewrite <- (Z.add_0_r t) in E at 1. apply mod_plus_inj in E; lia. }
      rewrite Hv by lia. replace (Z.to_nat (1 + i)) with (S (Z.to_nat i)) by lia. done.
Qed.

(** ** The chain holds the concatenation of its rings, oldest ring first *)
Definition elt_ok (m : gmap nat (bufChainElt A)) (a : nat) (xs : list A) (nx : option nat) : Prop :=
  exists e k t, m !! a = Some e /\ ring_holds (elt_deq e) k t xs /\ next e = nx.

Fixpoint cseg (m : gmap nat (bufChainElt A)) (es : list (nat * list A)) : Prop :=
  match es with
  | [] => True
  | (a, xs) :: es => elt_ok m a xs (hd_error (es.*1)) /\ cseg m es
  end.

Record chain_rep (c : bufChain A) (es : list (nat * list A)) : Prop := {
  cr_tail : chain_tail c = hd_error (es.*1);
  cr_head : chain_head c = last (es.*1);
  cr_nodup : NoDup (es.*1);
  cr_seg : cseg (elts c) es;
  cr_some : es <> [];
}.

Definition chain_holds (c : bufChain A) (xs : list A) : Prop :=
  exists es, chain_rep c es /\ concat (es.*2) = xs.

Lemma cseg_frame (m m' : gmap nat (bufChainElt A)) es :
  (forall a, a ∈ es.*1 -> m' !! a = m !! a) -> cseg m es -> cseg m' es.
Proof.
  induction es as [|[a xs] es IH]; [done|]. intros Hm [(e & k & t & He & Hr & Hn) H]. split.
  - exists e, k, t. rewrite Hm by left. done.
  - apply IH; [|done]. intros b Hb. apply Hm. by right.
Qed.

(** Replacing the content and the successor of the last element. *)
Lemma cseg_snoc m es a xs : cseg m (es ++ [(a, xs)]) -> elt_ok m a xs None.
Proof. induction es as [|[b ys] es IH]; [by intros [? _]|]. intros [_ H]. by apply IH. Qed.

Lemma cseg_snoc_update (m m' : gmap nat (bufChainElt A)) es a xs ys more :
  (forall b, b ∈ es.*1 -> m' !! b = m !! b) ->
  cseg m (es ++ [(a, xs)]) -> cseg m' ((a, ys) :: more) -> cseg m' (es ++ (a, ys) :: more).
Proof.
  induction es as [|[b zs] es IH]; [done|]. intros Hm [(e & k & t & He & Hr & Hn) H] Hmore. split.
  - exists e, k, t. rewrite Hm by left. split_and!; [done|done|]. rewrite Hn. by destruct es as [|[]].
  - apply IH; [|done|done]. intros c Hc. apply Hm. by right.
Qed.

Lemma ring_new k : 0 <= k <= 30 -> ring_holds (new_ring (2 ^ k)) k 0 (@nil A).
Proof.
  intros Hk. pose proof (pow2_le_30 k Hk). unfold new_ring.
  split; simpl; try done; try lia.
  - unfold deq_len. simpl. rewrite length_replicate. lia.
  - intros i Hi. unfold slot. simpl. rewrite Z.mod_small by lia.
    rewrite lookup_nil. apply lookup_replicate_2. lia.
Qed.

(** The size of the next ring: doubled, up to [dequeueLimit]. *)
Lemma next_ring_size k : 0 <= k <= 30 ->
  exists k', 0 <= k' <= 30 /\
    (if dequeueLimit <=? 2 ^ k * 2 then dequeueLimit else 2 ^ k * 2) = 2 ^ k'.
Proof.
  intros Hk. destruct (Z.leb_spec dequeueLimit (2 ^ k * 2)) as [H|H].
  - exists 30. split; [lia|reflexivity].
  - exists (k + 1). rewrite Z.pow_add_r by lia. split; [|lia].
    assert (~ 30 <= k); [|lia]. intros Hc. assert (k = 30) as -> by lia. vm_compute in H. discriminate.
Qed.

Lemma cseg_dom m es a : cseg m es -> a ∈ es.*1 -> is_Some (m !! a).
Proof.
  induction es as [|[b ys] es IH]; [by intros _ ?%not_elem_of_nil|].
  intros [(e & ? & ? & He & _) H] [->|Hin]%elem_of_cons; eauto.
Qed.

Section Push.
Context (c : bufChain A) (es : list (nat * list A)) (a : nat) (ys : list A) (e : bufChainElt A) (k t : Z).
Hypothesis Hrep : chain_rep c (es ++ [(a, ys)]).
Hypothesis He : elts c !! a = Some e.
Hypothesis Hr : ring_holds (elt_deq e) k t ys.

Lemma push_others b : b ∈ es.*1 -> b <> a.
Proof.
  intros Hb ->. pose proof (cr_nodup _ _ Hrep) as Hnd. rewrite fmap_app in Hnd.
  apply NoDup_app in Hnd as (_ & Hna & _). apply (Hna a Hb). left.
Qed.

Lemma push_room v d' :
  ring_holds d' k t (ys ++ [v]) ->
  chain_rep (set_elt c a (mkElt d' None (prev e))) (es ++ [(a, ys ++ [v])]).
Proof.
  destruct Hrep as [Ht Hh Hnd Hs _]. rewrite fmap_app in Ht, Hh, Hnd. csimpl in *. intros Hr'.
  split; simpl; rewrite ?fmap_app; try done; [|by destruct es].
  eapply cseg_snoc_update; [|exact Hs|].
  - intros b Hb. apply lookup_insert_ne. by apply not_eq_sym, push_others.
  - split; [|done]. eexists _, k, t. split; [by rewrite lookup_insert_eq|done].
Qed.

Lemma push_grow v d2 k' b :
  ring_holds d2 k' 0 [v] -> elts c !! b = None ->
  chain_rep (mkChain (<[a := mkElt (elt_deq e) (Some b) (prev e)]> (<[b := mkElt d2 None (Some a)]> (elts c)))
               (Some b) (chain_tail c))
    (es ++ [(a, ys); (b, [v])]).
Proof.
  intros Hr2 Hb. assert (Hbe : b ∉ es.*1 ++ [a]).
  { intros Hin. destruct (cseg_dom _ _ b (cr_seg _ _ Hrep)) as [? ?]; [by rewrite fmap_app|congruence]. }
  destruct Hrep as [Ht Hh Hnd Hs _]. rewrite fmap_app in Ht, Hh, Hnd. csimpl in *.
  assert (Hba : b <> a) by congruence.
  split; simpl; rewrite ?fmap_app; csimpl.
  - rewrite Ht. by destruct es.
  - change (es.*1 ++ [a; b]) with (es.*1 ++ [a] ++ [b]). by rewrite app_assoc, last_snoc.
  - change (es.*1 ++ [a; b]) with (es.*1 ++ [a] ++ [b]). rewrite app_assoc.
    apply NoDup_app. split_and!; [done| |apply NoDup_singleton].
    intros x Hx ->%list_elem_of_singleton. done.
  - eapply cseg_snoc_update; [|exact Hs|].
    + intros x Hx. rewrite !lookup_insert_ne; [done| |by apply not_eq_sym, push_others].
      intros <-. apply Hbe, elem_of_app. by left.
    + split; [|split; [|done]].
      * eexists _, k, t. split; [by rewrite lookup_insert_eq|]. done.
      * eexists _, k', 0. split; [by rewrite lookup_insert_ne, lookup_insert_eq|]. done.
  - by destruct es.
Qed.
End Push.

Lemma chain_push_ok c xs v :
  chain_holds c xs -> exists c', chain_pushHead c v = Some c' /\ chain_holds c' (xs ++ [v]).
Proof.
  intros (es & Hc & <-). destruct (exists_last (cr_some _ _ Hc)) as (es0 & [a ys] & ->).
  destruct (cseg_snoc _ _ _ _ (cr_seg _ _ Hc)) as (e & k & t & He & Hr & Hn).
  unfold chain_pushHead. rewrite (cr_head _ _ Hc), fmap_app. csimpl. rewrite last_snoc. cbn [mbind option_bind].
  rewrite He. cbn [mbind option_bind].
  assert (Hcat : forall l, concat (es0 ++ [(a, ys ++ l)]).*2 = concat (es0 ++ [(a, ys)]).*2 ++ l).
  { intros l. rewrite !fmap_app, !concat_app. simpl. by rewrite !app_nil_r, app_assoc. }
  assert (Hk := rh_k _ _ _ _ Hr). assert (Hfit := rh_fit _ _ _ _ Hr).
  destruct (decide (Z.of_nat (length ys) < 2 ^ k)) as [Hroom|Hfull].
  - destruct (deq_push_ok _ _ _ _ v Hr Hroom) as (d' & -> & Hr'). cbn. rewrite Hn.
    eexists. split; [done|]. exists (es0 ++ [(a, ys ++ [v])]). split; [|apply Hcat]. by eapply push_room.
  - rewrite (deq_push_full _ _ _ _ v Hr) by lia. cbn [mbind option_bind].
    destruct (next_ring_size k Hk) as (k' & Hk' & Ek'). rewrite (rh_len _ _ _ _ Hr), Ek'.
    destruct (deq_push_ok _ _ _ _ v (ring_new k' Hk')) as (d2 & -> & Hr2).
    { simpl. pose proof (pow2_le_30 k' Hk'). lia. }
    cbn [mbind option_bind]. eexists. split; [done|]. exists (es0 ++ [(a, ys); (fresh_elt c, [v])]). split.
    + apply (push_grow c es0 a ys e k t Hc He Hr v d2 k'); [done|]. apply not_elem_of_dom, is_fresh.
    + rewrite !fmap_app, !concat_app. simpl. by rewrite !app_nil_r, app_assoc.
Qed.

(** Popping: rings found empty are dropped, the first element of the first
    non-empty one is returned. *)
Lemma chain_pop_loop_ok es : forall fuel c a,
  chain_rep c es -> hd_error (es.*1) = Some a -> (length es <= fuel)%nat ->
  exists c' es', chain_pop_loop fuel c a = Some (hd_error (concat es.*2), c') /\
    chain_rep c' es' /\ concat es'.*2 = tl (concat es.*2).
Proof.
  induction es as [|[a xs] es IH]; intros [|fuel] c a' Hc Ha Hf; simpl in Hf; try done; try lia.
  injection Ha as <-. destruct (cr_seg _ _ Hc) as [(e & k & t & He & Hr & Hn) Hs].
  assert (Hnd := cr_nodup _ _ Hc). apply NoDup_cons in Hnd as [Hna Hnd].
  cbn [chain_pop_loop]. rewrite He. cbn [mbind option_bind]. destruct xs as [|x xs].
  - rewrite (deq_pop_empty _ _ _ Hr). cbn [mbind option_bind]. rewrite Hn.
    destruct es as [|[b ys] es].
    + exists c, [(a, [])]. done.
    + destruct Hs as [(eb & kb & tb & Heb & Hrb & Hnb) Hs]. cbn. rewrite Heb. cbn [mbind option_bind].
      rewrite decide_True by apply (cr_tail _ _ Hc).
      apply IH; [|done|lia]. destruct Hc as [_ Hh _ _ _]. apply NoDup_cons in Hnd as [Hnb' Hnd].
      split; simpl; try done; [by constructor|]. split.
      * eexists _, kb, tb. split; [by rewrite lookup_insert_eq|done].
      * eapply cseg_frame; [|exact Hs]. intros x Hx. apply lookup_insert_ne. by intros <-.
  - destruct (deq_pop_ok _ _ _ _ _ Hr) as (d' & -> & Hr'). cbn [mbind option_bind].
    eexists _, ((a, xs) :: es). split; [done|]. split; [|done].
    destruct Hc as [Ht Hh _ _ _]. split; simpl; try done; [by constructor|]. split.
    + eexists _, k, (u32 (t + 1)). split; [by rewrite lookup_insert_eq|done].
    + eapply cseg_frame; [|exact Hs]. intros y Hy. apply lookup_insert_ne. by intros <-.
Qed.

(** The number of allocated elements bounds the length of the chain. *)
Lemma chain_rep_size c es : chain_rep c es -> (length es <= size (elts c))%nat.
Proof.
  intros [_ _ Hnd Hs _]. rewrite <- (length_fmap fst), <- size_dom, <- (size_list_to_set (C := gset nat)) by done.
  apply subseteq_size. intros a Ha%elem_of_list_to_set. apply elem_of_dom. by eapply cseg_dom.
Qed.

Lemma chain_pop_ok c xs :
  chain_holds c xs -> exists c', chain_popTail c = Some (hd_error xs, c') /\ chain_holds c' (tl xs).
Proof.
  intros (es & Hc & <-). unfold chain_popTail. rewrite (cr_tail _ _ Hc).
  assert (Hne := cr_some _ _ Hc). destruct es as [|[a ys] es]; [done|]. cbn [fmap list_fmap fst hd_error].
  destruct (chain_pop_loop_ok _ (size (elts c)) c a Hc eq_refl) as (c' & es' & -> & Hc' & Hx).
  { by apply chain_rep_size. }
  exists c'. split; [done|]. by exists es'.
Qed.

(** The chain is an unbounded queue. *)
#[export] Program Instance chain_fifo : Fifo (bufChain A) A := {
  fifo_push := chain_pushHead;
  fifo_pop := chain_popTail;
  fifo_holds := chain_holds;
}.
Next Obligation. apply chain_push_ok. Qed.
Next Obligation. apply chain_pop_ok. Qed.

Lemma chain_new_holds k : 0 <= k <= 30 -> chain_holds (chain_new (2 ^ k)) [].
Proof.
  intros Hk. exists [(0%nat, [])]. split; [|done].
  split; simpl; try done; [apply NoDup_singleton|]. split; [|done].
  exists (mkElt (new_ring (2 ^ k)) None None), k, 0. split; [by rewrite lookup_singleton_eq|].
  split; [by apply ring_new|done].
Qed.
End RingProof.

(** * Claims *)

(** A push ([Some v]) or a pop ([None]). *)
Fixpoint fifo_run {Q A} `{Fifo Q A} (q : Q) (ops : list (option A)) : option (list (option A) * Q) :=
  match ops with
  | [] => Some ([], q)
  | Some v :: ops => q ← fifo_push q v; fifo_run q ops
  | None :: ops => '(r, q) ← fifo_pop q; '(rs, q) ← fifo_run q ops; Some (r :: rs, q)
  end.

Fixpoint list_run {A} (xs : list A) (ops : list (option A)) : list (option A) * list A :=
  match ops with
  | [] => ([], xs)
  | Some v :: ops => list_run (xs ++ [v]) ops
  | None :: ops => let '(rs, ys) := list_run (tl xs) ops in (hd_error xs :: rs, ys)
  end.

(** Any implementation of the interface behaves as a list along a trace. *)
Lemma fifo_run_list {Q A} `{Fifo Q A} ops : forall (q : Q) (xs : list A),
  fifo_holds q xs -> exists q', fifo_run q ops = Some (fst (list_run xs ops), q') /\
    fifo_holds q' (snd (list_run xs ops)).
Proof.
  induction ops as [|[v|] ops IH]; intros q xs Hq; simpl.
  - by exists q.
  - destruct (fifo_push_ok q xs v Hq) as (q1 & -> & Hq1). by apply IH.
  - destruct (fifo_pop_ok q xs Hq) as (q1 & -> & Hq1). cbn [mbind option_bind].
    destruct (IH q1 (tl xs) Hq1) as (q2 & -> & Hq2). exists q2.
    destruct (list_run (tl xs) ops) as [rs ys]. done.
Qed.

(** C7. The chain of rings is a first-in-first-out queue without a capacity
    limit.  From any state it can be in, ring indices about to wrap around at
    2^32 included, a sequence of pushes and pops neither panics nor spins and
    returns what a list would; growing the chain and dropping drained rings lose
    and reorder nothing. *)
Theorem chain_is_fifo {A} (c : bufChain A) xs ops :
  chain_holds c xs ->
  exists c', fifo_run c ops = Some (fst (list_run xs ops), c') /\ chain_holds c' (snd (list_run xs ops)).
Proof. intros Hc. exact (fifo_run_list ops c xs Hc). Qed.

(** A ring of two slots whose tail index is the last 32-bit index. *)
Definition wrapping_chain : bufChain nat :=
  mkChain {[0%nat := mkElt (mkDeq (0 * 2 ^ 32 + (2 ^ 32 - 1)) [None; Some 7%nat]) None None]}
    (Some 0%nat) (Some 0%nat).

Lemma wrapping_chain_holds : chain_holds wrapping_chain [7%nat].
Proof.
  exists [(0%nat, [7%nat])]. split; [|done].
  split; simpl; try done; [apply NoDup_singleton|]. split; [|done].
  eexists _, 1, (2 ^ 32 - 1). split; [by rewrite lookup_singleton_eq|]. split; [|done].
  split; try done. intros i Hi. assert (i = 0 \/ i = 1) as [-> | ->] by lia; reflexivity.
Qed.

Lemma chain_is_fifo_witness :
  exists c', fifo_run wrapping_chain [Some 8; Some 9; None; None; None; None]%nat =
      Some ([Some 7; Some 8; Some 9; None]%nat, c') /\ chain_holds c' [].
Proof.
  apply (chain_is_fifo wrapping_chain [7%nat] [Some 8; Some 9; None; None; None; None]%nat).
  apply wrapping_chain_holds.
Defined.
