(* ===== verification/ReceiveQueue.v ===== *)
(** The receive queue of a connection: [lib/mux/queue_receive_window.go].

    [Push] and [TryPop] run under a mutex and are functions on the queue; they
    are proved against the [Fifo] interface, which the chain of rings
    implements.  [Pop] is lock free: its interleavings with a pusher, the
    rendezvous on [readOp], read deadlines and the connection being closed are
    the step relation [step]. *)

From S2P Require Import Prelude Dequeue.
Local Open Scope Z_scope.

(** ** Elements *)
Record listElement := mkElement {
  Buf : option (list byte);
  L : Z;                      (* uint16 *)
  Part : bool;
}.

Definition Reset : listElement := mkElement None 0 false.

(** [None] is the error "buf length not match". *)
Definition newListElement (buf : list byte) (l : Z) (part : bool) : option listElement :=
  if u16 (Z.of_nat (length buf)) <? l then None else Some (mkElement (Some buf) l part).

Section Queue.
Context {Q : Type} `{Fifo Q listElement}.

(** ** The queue *)
Record receiveWindowQueue := mkRQ { lengthWait : Z; chain : Q }.

(** The new state and whether a waiting reader must be released. *)
Definition rq_Push (q : receiveWindowQueue) (e : listElement) : option (bool * receiveWindowQueue) :=
  let '(length, wait) := unpack (lengthWait q) in
  let length := u32 (length + L e) in
  c ← fifo_push (chain q) e;
  Some (wait =? 1, mkRQ (pack length 0) c).

Definition rq_TryPop (q : receiveWindowQueue) : option (option listElement * receiveWindowQueue) :=
  '(r, c) ← fifo_pop (chain q);
  match r with
  | Some e =>
    let dec := bnot 64 (u64 (Z.shiftl (L e) dequeueBits - 1)) in
    Some (Some e, mkRQ (u64 (lengthWait q + dec)) c)
  | None => Some (None, mkRQ (lengthWait q) c)
  end.

Definition rq_Len (q : receiveWindowQueue) : Z := fst (unpack (lengthWait q)).

Definition bytes (es : list listElement) : Z := foldr (fun e n => L e + n) 0 es.

Lemma bytes_app a b : bytes (a ++ b) = bytes a + bytes b.
Proof. induction a; simpl; lia. Qed.

Definition wf_elements (es : list listElement) : Prop := Forall (fun e => is_uint 16 (L e)) es.

Lemma bytes_nonneg es : wf_elements es -> 0 <= bytes es.
Proof. induction 1 as [|e es He _ IH]; simpl; [lia|]. unfold is_uint in He. lia. Qed.

(** The counter word holds the queued bytes and the wait flag. *)
Record rq_holds (q : receiveWindowQueue) (es : list listElement) (w : Z) : Prop := {
  rq_chain : fifo_holds (chain q) es;
  rq_wf : wf_elements es;
  rq_word : lengthWait q = bytes es * 2 ^ 32 + w;
  rq_fits : bytes es < 2 ^ 32;
  rq_flag : 0 <= w <= 1;
}.

Lemma unpack_word n w : 0 <= n < 2 ^ 32 -> 0 <= w <= 1 -> unpack (n * 2 ^ 32 + w) = (n, w).
Proof. intros. apply unpack_val; unfold is_uint; lia. Qed.

(** [Push] appends, counts the bytes and clears the wait flag, which it reports. *)
Lemma rq_push_ok q es w e :
  rq_holds q es w -> is_uint 16 (L e) -> bytes es + L e < 2 ^ 32 ->
  exists q', rq_Push q e = Some (w =? 1, q') /\ rq_holds q' (es ++ [e]) 0.
Proof.
  intros [Hc Hwf Hw Hf Hfl] He Hs. unfold rq_Push. pose proof (bytes_nonneg _ Hwf).
  rewrite Hw, unpack_word by lia. destruct (fifo_push_ok _ _ e Hc) as (c & -> & Hc').
  eexists. split; [done|]. unfold is_uint in He.
  split; simpl; try done; try (rewrite bytes_app; simpl); try lia.
  - apply Forall_app. split; [done|]. by constructor.
  - unfold u32. rewrite wrap_small by (unfold is_uint; lia).
    rewrite pack_val by (unfold is_uint; lia). lia.
Qed.

(** [TryPop] takes the oldest element and uncounts its bytes. *)
Lemma rq_trypop_ok q es w :
  rq_holds q es w ->
  exists q', rq_TryPop q = Some (hd_error es, q') /\ rq_holds q' (tl es) w.
Proof.
  intros [Hc Hwf Hw Hf Hfl]. unfold rq_TryPop.
  destruct (fifo_pop_ok _ _ Hc) as (c & -> & Hc'). cbn [mbind option_bind].
  destruct es as [|e es]; simpl; eexists; (split; [done|]); [by split|].
  inversion_clear Hwf as [|? ? He Hes]. unfold is_uint in He. pose proof (bytes_nonneg _ Hes).
  simpl in *. split; simpl; try done; try lia.
  assert (HL : Z.shiftl (L e) dequeueBits = L e * 2 ^ 32) by (by apply Z.shiftl_mul_pow2).
  unfold u64. rewrite HL, add_bnot_pred, Hw, wrap_small; unfold is_uint; lia.
Qed.
End Queue.
Arguments receiveWindowQueue : clear implicits.

(** ** Interleavings of [Pop] with a pusher and with closing *)

(** Where the reader is in [Pop] (and, at [RDone], its caller [readFromQueue],
    which closes the window after an error). *)
Inductive rpc :=
| RIdle                       (* at [startPop] *)
| RCas (ptrs : Z)             (* length was 0, about to set the wait flag *)
| RWait                       (* in [waitPush] *)
| RTake                       (* length was not 0, in the [TryPop] loop *)
| RTimedOut                   (* returned the timeout error *)
| REof                        (* returned [io.EOF] *)
| RDone.                      (* the caller has closed the window *)

#[export] Instance rpc_eq_dec : EqDecision rpc.
Proof. solve_decision. Defined.

(** Where the mux read loop is in [Push]. *)
Inductive ppc :=
| PIdle
| PLocked (e : listElement)             (* holds [mu], before the load *)
| PCas (e : listElement) (ptrs : Z)     (* before the compare-and-swap *)
| PChain (e : listElement) (wait : Z)   (* counted, not yet in the chain *)
| PSignal.                              (* in [allowPop] *)

Definition mutex_free (p : ppc) : bool :=
  match p with PIdle | PSignal => true | _ => false end.

Section Concurrent.
Context {Q : Type} `{Fifo Q listElement}.

Record state := mkState {
  rq : receiveWindowQueue Q;
  rp : rpc;
  pp : ppc;
  rstop : bool;                 (* the peer closed its side *)
  closed : bool;                (* the window was closed locally *)
  sent : list listElement;      (* history: everything put in the chain *)
  popped : list listElement;    (* history: everything taken out of it *)
  got : list listElement;       (* history: what [Pop] returned *)
}.

Definition stopped (s : state) : bool := rstop s || closed s.

Definition set_rp (s : state) (r : rpc) : state :=
  mkState (rq s) r (pp s) (rstop s) (closed s) (sent s) (popped s) (got s).
Definition set_pp (s : state) (p : ppc) : state :=
  mkState (rq s) (rp s) p (rstop s) (closed s) (sent s) (popped s) (got s).
Definition set_word (s : state) (z : Z) : state :=
  mkState (mkRQ z (chain (rq s))) (rp s) (pp s) (rstop s) (closed s) (sent s) (popped s) (got s).
Definition do_close (s : state) : state :=
  mkState (rq s) (rp s) (pp s) (rstop s) true (sent s) (popped s) (got s).
Definition remote_stop (s : state) : state :=
  mkState (rq s) (rp s) (pp s) true (closed s) (sent s) (popped s) (got s).

Definition popped_by (r : option listElement) : list listElement :=
  match r with Some e => [e] | None => [] end.

(** One atomic action of one goroutine. *)
Inductive step : state -> state -> Prop :=
(* Pop *)
| r_load_empty s : rp s = RIdle -> fst (unpack (lengthWait (rq s))) = 0 ->
    step s (set_rp s (RCas (lengthWait (rq s))))
| r_load_some s : rp s = RIdle -> fst (unpack (lengthWait (rq s))) <> 0 ->
    step s (set_rp s RTake)
| r_cas_ok s : rp s = RCas (lengthWait (rq s)) ->
    step s (set_rp (set_word s (pack 0 1)) RWait)
| r_cas_fail s ptrs : rp s = RCas ptrs -> ptrs <> lengthWait (rq s) ->
    step s (set_rp s RIdle)
| r_eof s : rp s = RWait -> stopped s = true -> step s (set_rp s REof)
| r_timeout s : rp s = RWait -> step s (set_rp s RTimedOut)
| r_take s e q' : rp s = RTake -> mutex_free (pp s) = true ->
    rq_TryPop (rq s) = Some (Some e, q') ->
    step s (mkState q' RIdle (pp s) (rstop s) (closed s) (sent s) (popped s ++ [e]) (got s ++ [e]))
| r_take_none s q' : rp s = RTake -> mutex_free (pp s) = true ->
    rq_TryPop (rq s) = Some (None, q') ->
    step s (mkState q' RTake (pp s) (rstop s) (closed s) (sent s) (popped s) (got s))
| r_fail s : rp s = RTimedOut \/ rp s = REof -> step s (do_close (set_rp s RDone))
(* Push; a peer sends no data after closing, and flow control bounds the bytes *)
| p_lock s e : pp s = PIdle -> rstop s = false -> is_uint 16 (L e) ->
    fst (unpack (lengthWait (rq s))) + L e < 2 ^ 32 ->
    step s (set_pp s (PLocked e))
| p_load s e : pp s = PLocked e -> step s (set_pp s (PCas e (lengthWait (rq s))))
| p_cas_ok s e length wait : pp s = PCas e (lengthWait (rq s)) ->
    unpack (lengthWait (rq s)) = (length, wait) ->
    step s (set_pp (set_word s (pack (u32 (length + L e)) 0)) (PChain e wait))
| p_cas_fail s e ptrs : pp s = PCas e ptrs -> ptrs <> lengthWait (rq s) ->
    step s (set_pp s (PLocked e))
| p_chain s e wait c : pp s = PChain e wait -> fifo_push (chain (rq s)) e = Some c ->
    step s (mkState (mkRQ (lengthWait (rq s)) c) (rp s) (if wait =? 1 then PSignal else PIdle)
              (rstop s) (closed s) (sent s ++ [e]) (popped s) (got s))
| p_stopped s : pp s = PSignal -> stopped s = true -> step s (set_pp s PIdle)
(* the rendezvous on readOp *)
| rendezvous s : rp s = RWait -> pp s = PSignal -> step s (set_rp (set_pp s PIdle) RIdle)
(* the peer's close frame, handled by the read loop *)
| peer_close s : pp s = PIdle -> step s (remote_stop s)
(* Conn.Close by another goroutine: stop, then drain *)
| local_close s : step s (do_close s)
| drain s r q' : closed s = true -> mutex_free (pp s) = true ->
    rq_TryPop (rq s) = Some (r, q') ->
    step s (mkState q' (rp s) (pp s) (rstop s) (closed s) (sent s)
              (popped s ++ popped_by r) (got s)).

Definition init_state (c : Q) : state := mkState (mkRQ 0 c) RIdle PIdle false false [] [] [].

Inductive reachable (c : Q) : state -> Prop :=
| reach_init : reachable c (init_state c)
| reach_step s s' : reachable c s -> step s s' -> reachable c s'.

(** The reader waits or has given up waiting. *)
Definition parked (r : rpc) : bool :=
  match r with RWait | RTimedOut | REof | RDone => true | _ => false end.

(** The pusher has seen the wait flag and will signal. *)
Definition will_signal (p : ppc) : bool :=
  match p with PSignal => true | PChain _ w => w =? 1 | _ => false end.

Definition in_push (p : ppc) : Z := match p with PChain e _ => L e | _ => 0 end.

Record inv (s : state) (es : list listElement) (n w : Z) : Prop := {
  i_chain : fifo_holds (chain (rq s)) es;
  i_wf : wf_elements es;
  i_word : lengthWait (rq s) = n * 2 ^ 32 + w;
  i_n : n = bytes es + in_push (pp s);
  i_range : 0 <= n < 2 ^ 32;
  i_w : 0 <= w <= 1;
  i_flag : w = 1 -> n = 0 /\ parked (rp s) = true;
  i_signal : will_signal (pp s) = true -> w = 0 /\ parked (rp s) = true;
  i_wait : rp s = RWait -> w = 1 \/ will_signal (pp s) = true \/ closed s = true;
  i_take : rp s = RTake -> closed s = false -> 0 < n;
  i_cas : forall ptrs, rp s = RCas ptrs -> fst (unpack ptrs) = 0;
  i_done : rp s = RDone -> closed s = true;
  i_eof : rp s = REof -> closed s = true \/ (rstop s = true /\ n = 0);
  i_rstop : rstop s = true -> pp s = PIdle;
  i_push : forall e, (pp s = PLocked e \/ exists p, pp s = PCas e p) ->
    is_uint 16 (L e) /\ n + L e < 2 ^ 32;
  i_pchain : forall e v, pp s = PChain e v -> is_uint 16 (L e);
  i_hist : sent s = popped s ++ es;
  i_got : closed s = false -> got s = popped s;
}.

Lemma inv_unpack s es n w : inv s es n w -> unpack (lengthWait (rq s)) = (n, w).
Proof. intros Hi. rewrite (i_word _ _ _ _ Hi). apply unpack_word; apply Hi. Qed.

Lemma inv_rq s es n w : inv s es n w -> mutex_free (pp s) = true -> rq_holds (rq s) es w /\ n = bytes es.
Proof.
  intros Hi Hm. assert (Hn : n = bytes es).
  { rewrite (i_n _ _ _ _ Hi). destruct (pp s); simpl in *; try done; lia. }
  split; [|done]. pose proof (i_range _ _ _ _ Hi). split; try apply Hi; subst; [|lia].
  apply Hi.
Qed.

(** Popping under the mutex, by the reader or by [release]. *)
Lemma inv_pop s es n w r q' :
  inv s es n w -> mutex_free (pp s) = true -> rq_TryPop (rq s) = Some (r, q') ->
  r = hd_error es /\ rq_holds q' (tl es) w /\ bytes (tl es) <= n /\
  es = popped_by r ++ tl es.
Proof.
  intros Hi Hm E. destruct (inv_rq _ _ _ _ Hi Hm) as [Hq ->].
  destruct (rq_trypop_ok _ _ _ Hq) as (q'' & E' & Hq'). rewrite E in E'. injection E' as -> ->.
  split_and!; try done; [|by destruct es].
  pose proof (i_wf _ _ _ _ Hi) as Hwf. destruct es as [|e es]; simpl; [lia|].
  inversion_clear Hwf as [|? ? He _]. unfold is_uint in He. lia.
Qed.

Lemma inv_init c : fifo_holds c [] -> inv (init_state c) [] 0 0.
Proof.
  intros Hc. split; simpl; try done; try lia.
  - constructor.
  - intros e [?|[? ?]]; done.
Qed.

Ltac inv_fields Hi :=
  destruct Hi as [Hchain Hwf Hword Hn Hrange Hw Hflag Hsignal Hwait Htake Hcas Hdone Heof Hrstop Hpush Hpchain Hhist Hgot].

(** Steps that only move the reader. *)
Lemma inv_set_rp s es n w r :
  inv s es n w ->
  (w = 1 \/ will_signal (pp s) = true -> parked r = true) ->
  (r = RWait -> w = 1 \/ will_signal (pp s) = true \/ closed s = true) ->
  (r = RTake -> closed s = false -> 0 < n) -> (forall p, r = RCas p -> fst (unpack p) = 0) ->
  (r = RDone -> closed s = true) ->
  (r = REof -> closed s = true \/ (rstop s = true /\ n = 0)) ->
  inv (set_rp s r) es n w.
Proof.
  intros Hi H1 H2 H3 H4 H5 H6. inv_fields Hi. split; simpl; try done.
  - intros Hw1. split; [by apply Hflag|]. apply H1. by left.
  - intros Hs. split; [by apply Hsignal|]. apply H1. by right.
Qed.

(** Steps that move the pusher between points where it has changed nothing. *)
Lemma inv_set_pp s es n w p :
  inv s es n w -> in_push p = in_push (pp s) -> will_signal p = false ->
  (rp s = RWait -> w = 1 \/ closed s = true) -> (rstop s = true -> p = PIdle) ->
  (forall e, (p = PLocked e \/ exists q, p = PCas e q) -> is_uint 16 (L e) /\ n + L e < 2 ^ 32) ->
  (forall e v, p <> PChain e v) ->
  inv (set_pp s p) es n w.
Proof.
  intros Hi H1 H2 H3 H4 H5 H6. inv_fields Hi. split; simpl; try done.
  - by rewrite H1.
  - by rewrite H2.
  - intros Hr. destruct (H3 Hr); auto.
  - intros e v E. by apply H6 in E.
Qed.

Lemma inv_close s es n w : inv s es n w -> inv (do_close s) es n w.
Proof. intros Hi. inv_fields Hi. split; simpl; auto; try done. Qed.

Lemma not_parked s es n w :
  inv s es n w -> parked (rp s) = false -> w = 0 /\ will_signal (pp s) = false.
Proof.
  intros Hi Hp. inv_fields Hi. split.
  - assert (w = 0 \/ w = 1) as [?|Hw1] by lia; [done|]. destruct (Hflag Hw1). congruence.
  - destruct (will_signal (pp s)); [|done]. destruct Hsignal; [done|congruence].
Qed.

(** Steps of the reader. *)
Lemma inv_r_move s es n w r :
  inv s es n w -> parked (rp s) = false ->
  (r = RIdle \/ (r = RTake /\ n <> 0) \/ exists p, r = RCas p /\ fst (unpack p) = 0) ->
  inv (set_rp s r) es n w.
Proof.
  intros Hi Hp Hr. destruct (not_parked _ _ _ _ Hi Hp) as [-> Hsg]. pose proof (i_range _ _ _ _ Hi).
  destruct Hr as [->|[[-> Hn]|(p & -> & Hc)]]; apply inv_set_rp; try done; try (intros [?|?]; congruence).
  - intros _ _. lia.
  - by intros p' [= <-].
Qed.

Lemma inv_r_cas s es n w :
  inv s es n w -> rp s = RCas (lengthWait (rq s)) ->
  exists n' w', inv (set_rp (set_word s (pack 0 1)) RWait) es n' w'.
Proof.
  intros Hi Hr. assert (Hu := inv_unpack _ _ _ _ Hi). exists 0, 1.
  assert (n = 0) by (apply (i_cas _ _ _ _ Hi) in Hr; by rewrite Hu in Hr). subst n.
  destruct (not_parked _ _ _ _ Hi) as [-> Hsg]; [by rewrite Hr|].
  inv_fields Hi. split; simpl; try done; try lia; auto.
  by rewrite Hsg.
Qed.

(** [TryPop] by the reader in its loop, or by [release] after closing. *)
Lemma inv_popped s es n w r q' rp' got' :
  inv s es n w -> mutex_free (pp s) = true -> rq_TryPop (rq s) = Some (r, q') ->
  (rp s = RTake /\ rp' = match r with Some _ => RIdle | None => RTake end /\ got' = got s ++ popped_by r) \/
  (closed s = true /\ rp' = rp s) ->
  exists n', inv (mkState q' rp' (pp s) (rstop s) (closed s) (sent s) (popped s ++ popped_by r) got')
    (tl es) n' w.
Proof.
  intros Hi Hm E Hor. destruct (inv_pop _ _ _ _ _ _ Hi Hm E) as (Hr & Hq & Hle & Hes).
  destruct (inv_rq _ _ _ _ Hi Hm) as [_ Hn']. exists (bytes (tl es)).
  assert (Hpark : rp s = RTake -> w = 0 /\ will_signal (pp s) = false).
  { intros Ht. apply (not_parked _ _ _ _ Hi). by rewrite Ht. }
  destruct Hq as [Hc' Hwf' Hw' Hf' Hfl']. pose proof (bytes_nonneg _ Hwf').
  inv_fields Hi. assert (Hhist' : sent s = (popped s ++ popped_by r) ++ tl es) by (by rewrite <- app_assoc, <- Hes).
  assert (Hin : bytes (tl es) = bytes (tl es) + in_push (pp s)) by (destruct (pp s); simpl in *; try done; lia).
  assert (Hpush' : forall e, pp s = PLocked e \/ (exists p, pp s = PCas e p) ->
    is_uint 16 (L e) /\ bytes (tl es) + L e < 2 ^ 32) by (intros e He; destruct (Hpush e He); split; [done|lia]).
  destruct Hor as [(Ht & -> & ->)|(Hcl & ->)].
  - destruct (Hpark Ht) as [-> Hsg]. rewrite Hsg in *.
    split; simpl; try done; try (by destruct r); try (by intros Hx; rewrite Hsg in Hx).
    + intros Hrt Hcl. destruct r; [done|]. destruct es; [|done]. specialize (Htake Ht Hcl). simpl in *. lia.
    + intros Hcl. by rewrite Hgot.
  - split; simpl; try done; try congruence.
    + intros Hw1. destruct (Hflag Hw1) as [Hz Hpk]. split; [lia|done].
    + by left.
Qed.

(** Steps of the pusher. *)
Lemma inv_p_cas s es n w e :
  inv s es n w -> pp s = PCas e (lengthWait (rq s)) ->
  inv (set_pp (set_word s (pack (u32 (n + L e)) 0)) (PChain e w)) es (n + L e) 0.
Proof.
  intros Hi Hp. pose proof (i_push _ _ _ _ Hi e (or_intror (ex_intro _ _ Hp))) as [He Hfit].
  inv_fields Hi. rewrite Hp in *. unfold is_uint in He.
  assert (Hnr : rstop s <> true) by (intros Hr; by specialize (Hrstop Hr)).
  split; simpl in *; try done; try lia.
  - unfold u32. rewrite wrap_small, pack_val by (unfold is_uint; lia). lia.
  - intros Hw1%Z.eqb_eq. split; [done|by apply Hflag].
  - intros Hr. destruct (Hwait Hr) as [->|[?|?]]; [by right; left|done|by right; right].
  - intros Hr Hc. specialize (Htake Hr Hc). lia.
  - intros Hr. destruct (Heof Hr) as [?|[? _]]; [by left|done].
  - intros e' [?|[? ?]]; done.
  - intros e' v [= <- _]. done.
Qed.

Lemma inv_p_chain s es n w e v c :
  inv s es n w -> pp s = PChain e v -> fifo_push (chain (rq s)) e = Some c ->
  inv (mkState (mkRQ (lengthWait (rq s)) c) (rp s) (if v =? 1 then PSignal else PIdle)
         (rstop s) (closed s) (sent s ++ [e]) (popped s) (got s)) (es ++ [e]) n w.
Proof.
  intros Hi Hp E. inv_fields Hi. rewrite Hp in *. specialize (Hpchain _ _ eq_refl).
  destruct (fifo_push_ok _ _ e Hchain) as (c' & E' & Hc'). rewrite E in E'. injection E' as <-.
  assert (Hnr : rstop s <> true) by (intros Hr; by specialize (Hrstop Hr)).
  simpl in *. split; simpl; try done.
  - apply Forall_app. split; [done|]. by constructor.
  - rewrite bytes_app. destruct (v =? 1); simpl; lia.
  - destruct (v =? 1); done.
  - intros Hr. destruct (Hwait Hr) as [?|[->|?]]; auto.
  - intros e' [Hx|[? Hx]]; destruct (v =? 1); done.
  - intros e' v' Hx. destruct (v =? 1); done.
  - by rewrite app_assoc, Hhist.
Qed.

Lemma inv_rendezvous s es n w :
  inv s es n w -> rp s = RWait -> pp s = PSignal -> inv (set_rp (set_pp s PIdle) RIdle) es n w.
Proof.
  intros Hi Hr Hp. inv_fields Hi. rewrite Hp in *. destruct Hsignal as [-> _]; [done|].
  split; simpl in *; try done. intros e [?|[? ?]]; done.
Qed.

(** The invariant is preserved by every step. *)
Lemma inv_step s s' es n w :
  inv s es n w -> step s s' -> exists es' n' w', inv s' es' n' w'.
Proof.
  intros Hi Hs. assert (Hu := inv_unpack _ _ _ _ Hi).
  destruct Hs as [s Hr Hl|s Hr Hl|s Hr|s ptrs Hr Hne|s Hr Hst|s Hr|s e q' Hr Hm E|s q' Hr Hm E|s Hr
    |s e Hp Hrs He Hfit|s e Hp|s e len v Hp Hv|s e ptrs Hp Hne|s e v c Hp E|s Hp Hst|s Hr Hp|s Hp|s
    |s r q' Hc Hm E].
  - exists es, n, w. apply inv_r_move; [done|by rewrite Hr|]. right; right. by eexists.
  - exists es, n, w. apply inv_r_move; [done|by rewrite Hr|]. right; left. by rewrite Hu in Hl.
  - exists es. by eapply inv_r_cas.
  - exists es, n, w. apply inv_r_move; [done|by rewrite Hr|]. by left.
  - exists es, n, w. apply inv_set_rp; try done. intros _.
    unfold stopped in Hst. destruct (closed s) eqn:Ec; [by left|]. right.
    rewrite orb_false_r in Hst. split; [done|]. assert (Hp := i_rstop _ _ _ _ Hi Hst).
    destruct (i_wait _ _ _ _ Hi Hr) as [Hw1|[Hsg|?]]; [by apply Hi in Hw1 as [? _]| |congruence].
    by rewrite Hp in Hsg.
  - exists es, n, w. by apply inv_set_rp.
  - exists (tl es). destruct (inv_popped s es n w (Some e) q' RIdle (got s ++ [e])) as [n' Hn']; eauto.
  - exists (tl es). destruct (inv_popped s es n w None q' RTake (got s ++ [])) as [n' Hn']; eauto.
    rewrite !app_nil_r in Hn'. eauto.
  - exists es, n, w. change (do_close (set_rp s RDone)) with (set_rp (do_close s) RDone).
    apply inv_set_rp; try done. by apply inv_close.
  - exists es, n, w. apply inv_set_pp; try done.
    + by rewrite Hp.
    + intros Hr. destruct (i_wait _ _ _ _ Hi Hr) as [?|[Hsg|?]]; auto. by rewrite Hp in Hsg.
    + by rewrite Hrs.
    + rewrite Hu in Hfit. intros e' [[= <-]|[? ?]]; done.
  - exists es, n, w. apply inv_set_pp; try done.
    + by rewrite Hp.
    + intros Hr. destruct (i_wait _ _ _ _ Hi Hr) as [?|[Hsg|?]]; auto. by rewrite Hp in Hsg.
    + intros Hrs. by rewrite (i_rstop _ _ _ _ Hi Hrs) in Hp.
    + intros e' [?|[? [= <- _]]]; [done|]. apply (i_push _ _ _ _ Hi). by left.
  - rewrite Hu in Hv. injection Hv as <- <-. exists es, (n + L e), 0. by apply inv_p_cas.
  - exists es, n, w. apply inv_set_pp; try done.
    + by rewrite Hp.
    + intros Hr. destruct (i_wait _ _ _ _ Hi Hr) as [?|[Hsg|?]]; auto. by rewrite Hp in Hsg.
    + intros Hrs. by rewrite (i_rstop _ _ _ _ Hi Hrs) in Hp.
    + intros e' [[= <-]|[? ?]]; [|done]. apply (i_push _ _ _ _ Hi). right. by eexists.
  - exists (es ++ [e]), n, w. by apply inv_p_chain.
  - exists es, n, w. assert (Hc : closed s = true).
    { unfold stopped in Hst. destruct (rstop s) eqn:Er; [|done].
      by rewrite (i_rstop _ _ _ _ Hi Er) in Hp. }
    apply inv_set_pp; try done; [by rewrite Hp|by right|]. intros e' [?|[? ?]]; done.
  - exists es, n, w. by apply inv_rendezvous.
  - exists es, n, w. inv_fields Hi. split; simpl; try done.
    intros Hr. destruct (Heof Hr) as [?|[? ?]]; auto.
  - exists es, n, w. by apply inv_close.
  - exists (tl es). destruct (inv_popped s es n w r q' (rp s) (got s)) as [n' Hn']; eauto.
Qed.

Lemma reachable_inv c s : fifo_holds c [] -> reachable c s -> exists es n w, inv s es n w.
Proof.
  intros Hc. induction 1 as [|s s' _ (es & n & w & Hi) Hs].
  - exists [], 0, 0. by apply inv_init.
  - by eapply inv_step.
Qed.

(** ** Closing while a reader is between its two looks at the queue *)

(** Steps during which nobody pushes. *)
Inductive quiet : state -> state -> Prop :=
| quiet_refl s : quiet s s
| quiet_step s s' s'' : quiet s s' -> step s' s'' -> pp s'' = PIdle -> quiet s s''.

Lemma quiet_spins s s' :
  inv s [] 0 0 -> rp s = RTake -> closed s = true -> pp s = PIdle -> quiet s s' ->
  inv s' [] 0 0 /\ rp s' = RTake /\ closed s' = true /\ pp s' = PIdle.
Proof.
  intros Hi Hr Hc Hp. induction 1 as [|s s' s'' _ IH Hs Hp'']; [done|].
  destruct IH as (Hi' & Hr' & Hc' & Hp'); [done..|]. clear Hi Hr Hc Hp s.
  assert (Hm : mutex_free (pp s') = true) by (by rewrite Hp').
  assert (Hpop : forall r q, rq_TryPop (rq s') = Some (r, q) -> r = None /\
    inv (mkState q RTake (pp s') (rstop s') (closed s') (sent s') (popped s' ++ popped_by r) (got s')) [] 0 0).
  { intros r q E. destruct (inv_pop _ _ _ _ _ _ Hi' Hm E) as (-> & _). split; [done|].
    destruct (inv_popped _ _ _ _ _ _ RTake (got s') Hi' Hm E) as [n' Hn']; [by right|].
    assert (n' = 0) as -> by (rewrite (i_n _ _ _ _ Hn'); simpl; by rewrite Hp'). done. }
  destruct Hs as [| | | | | |s e q' _ _ E|s q' _ _ E|s Hr| | | | | | | | |s|s r q' _ _ E]; simpl in *; try congruence.
  - by destruct (Hpop _ _ E).
  - destruct (Hpop _ _ E) as [_ Hn]. by rewrite app_nil_r in Hn.
  - destruct Hr; congruence.
  - split; [|done]. inv_fields Hi'. split; simpl; try done. intros Hx. destruct (Heof Hx) as [?|[? ?]]; auto.
  - split; [|done]. by apply inv_close.
  - destruct (Hpop _ _ E) as [-> Hn]. rewrite Hr'. done.
Qed.

Lemma spin_reachable c e :
  fifo_holds c [] -> is_uint 16 (L e) -> L e <> 0 ->
  exists s, reachable c s /\ inv s [] 0 0 /\ rp s = RTake /\ closed s = true /\ pp s = PIdle.
Proof.
  intros Hc He Hne. unfold is_uint in He.
  destruct (fifo_push_ok _ _ e Hc) as (c1 & E1 & Hc1).
  set (w1 := pack (u32 (0 + L e)) 0).
  assert (Hw1 : w1 = L e * 2 ^ 32 + 0).
  { unfold w1, u32. rewrite wrap_small, pack_val; unfold is_uint; lia. }
  assert (Hu1 : unpack w1 = (L e, 0)) by (rewrite Hw1; apply unpack_word; lia).
  set (s0 := init_state c).
  set (s3 := set_pp (set_word (set_pp (set_pp s0 (PLocked e)) (PCas e 0)) w1) (PChain e 0)).
  set (s4 := mkState (mkRQ w1 c1) RIdle PIdle false false [e] [] []).
  assert (Hreach4 : reachable c s4).
  { eapply (reach_step c s3); [|by apply (p_chain s3 e 0)].
    eapply reach_step; [|by apply p_cas_ok; [|reflexivity]].
    eapply reach_step; [|by apply p_load].
    eapply reach_step; [apply reach_init|apply p_lock; [done|done|unfold is_uint; lia|]].
    replace (fst (unpack _)) with 0 by reflexivity. lia. }
  set (s6 := do_close (set_rp s4 RTake)).
  assert (Hreach6 : reachable c s6).
  { eapply reach_step; [|apply local_close]. eapply reach_step; [exact Hreach4|].
    apply r_load_some; [done|]. change (lengthWait (rq s4)) with w1. by rewrite Hu1. }
  destruct (reachable_inv _ _ Hc Hreach6) as (es & n & w & Hi6).
  assert (Hes : es = [e]) by (pose proof (i_hist _ _ _ _ Hi6) as Hh; simpl in Hh; by rewrite <- Hh).
  destruct (inv_rq _ _ _ _ Hi6 eq_refl) as [Hq6 _].
  destruct (rq_trypop_ok _ _ _ Hq6) as (q7 & E7 & Hq7). rewrite Hes in E7, Hq7.
  pose proof (drain s6 (Some e) q7 eq_refl eq_refl E7) as Hd.
  eexists. split; [exact (reach_step c _ _ Hreach6 Hd)|].
  destruct (inv_popped s6 es n w (Some e) q7 RTake [] Hi6 eq_refl E7) as [n' Hn']; [by right|].
  rewrite Hes in Hn'. simpl in Hn'. split; [|done].
  assert (n' = 0) as -> by (rewrite (i_n _ _ _ _ Hn'); done).
  destruct (not_parked _ _ _ _ Hn' eq_refl) as [-> _]. done.
Qed.
End Concurrent.
Arguments state : clear implicits.

(** * Claims *)

(** The chain [newReceiveWindowQueue] starts with. *)
Definition empty_chain : bufChain listElement := chain_new 64.

Definition newReceiveWindowQueue : receiveWindowQueue (bufChain listElement) := mkRQ 0 empty_chain.

Lemma empty_chain_holds : chain_holds empty_chain [].
Proof. apply (chain_new_holds 6). lia. Qed.

(** C8. No wake-up is lost between [Pop] and [Push].  In every reachable
    interleaving: a reader waits while the pusher is idle only if no byte is
    queued; a pusher blocked in [allowPop] has a waiting reader to meet, or one
    that has timed out and is about to close the window, or a closed window; and a
    reader that saw bytes gets an element from [TryPop] as soon as the mutex is
    free, unless the window was closed. *)
Theorem receive_queue_no_lost_wakeup {Q} `{Fifo Q listElement} (c : Q) s :
  fifo_holds c [] -> reachable c s ->
  (rp s = RWait -> pp s = PIdle -> closed s = false -> rq_Len (rq s) = 0) /\
  (pp s = PSignal -> rp s = RWait \/ rp s = RTimedOut \/ closed s = true) /\
  (rp s = RTake -> closed s = false -> mutex_free (pp s) = true ->
     exists e q', rq_TryPop (rq s) = Some (Some e, q')).
Proof.
  intros Hc Hr. destruct (reachable_inv c s Hc Hr) as (es & n & w & Hi).
  assert (Hu := inv_unpack _ _ _ _ Hi). split_and!.
  - intros Hw Hp Hcl. unfold rq_Len. rewrite Hu. simpl.
    destruct (i_wait _ _ _ _ Hi Hw) as [Hw1|[Hsg|?]]; [by apply Hi in Hw1 as [? _]| |congruence].
    by rewrite Hp in Hsg.
  - intros Hp. destruct (i_signal _ _ _ _ Hi) as [_ Hpk]; [by rewrite Hp|].
    destruct (rp s) eqn:E; try done; auto.
    + destruct (i_eof _ _ _ _ Hi E) as [?|[Hrs _]]; [auto|]. apply Hi in Hrs. congruence.
    + right; right. by apply Hi.
  - intros Ht Hcl Hm. destruct (inv_rq _ _ _ _ Hi Hm) as [Hq Hn].
    assert (0 < n) by (by apply Hi). destruct (rq_trypop_ok _ _ _ Hq) as (q' & E & _).
    destruct es as [|e es]; [simpl in Hn; lia|]. by exists e, q'.
Qed.

Lemma receive_queue_no_lost_wakeup_witness :
  let s := set_rp (set_word (set_rp (init_state empty_chain) (RCas 0)) (pack 0 1)) RWait in
  (rp s = RWait -> pp s = PIdle -> closed s = false -> rq_Len (rq s) = 0) /\
  (pp s = PSignal -> rp s = RWait \/ rp s = RTimedOut \/ closed s = true) /\
  (rp s = RTake -> closed s = false -> mutex_free (pp s) = true ->
     exists e q', rq_TryPop (rq s) = Some (Some e, q')).
Proof.
  apply (receive_queue_no_lost_wakeup empty_chain).
  - apply empty_chain_holds.
  - eapply reach_step; [|apply r_cas_ok; reflexivity].
    eapply reach_step; [apply reach_init|]. apply r_load_empty; reflexivity.
Defined.

(** A reader gets the pushed elements in order, and [io.EOF] only when every
    byte the peer sent has been read, as long as the connection was not closed
    locally. *)
Theorem receive_queue_delivers {Q} `{Fifo Q listElement} (c : Q) s :
  fifo_holds c [] -> reachable c s -> closed s = false ->
  exists rest, sent s = got s ++ rest /\ (rp s = REof -> bytes rest = 0).
Proof.
  intros Hc Hr Hcl. destruct (reachable_inv c s Hc Hr) as (es & n & w & Hi).
  exists es. rewrite (i_got _ _ _ _ Hi Hcl). split; [apply Hi|]. intros He.
  destruct (i_eof _ _ _ _ Hi He) as [?|[Hrs Hz]]; [congruence|].
  rewrite (i_n _ _ _ _ Hi), (i_rstop _ _ _ _ Hi Hrs) in Hz. simpl in Hz. lia.
Qed.

Lemma receive_queue_delivers_witness :
  let s := set_rp (set_word (set_rp (remote_stop (init_state empty_chain)) (RCas 0)) (pack 0 1)) RWait in
  exists rest, sent (set_rp s REof) = got (set_rp s REof) ++ rest /\ (rp (set_rp s REof) = REof -> bytes rest = 0).
Proof.
  intros s. apply (receive_queue_delivers empty_chain).
  - apply empty_chain_holds.
  - eapply reach_step; [|apply r_eof; reflexivity].
    eapply reach_step; [|apply r_cas_ok; reflexivity].
    eapply reach_step; [|apply r_load_empty; reflexivity].
    eapply reach_step; [apply reach_init|]. apply peer_close. reflexivity.
  - reflexivity.
Defined.

(** Closing a connection can leave a reader spinning.  The [TryPop] loop of
    [Pop] does not look at [stopOp]: there is a reachable state in which another
    goroutine has closed and drained the queue after the reader saw bytes in it,
    and from which the reader never leaves its loop unless somebody pushes to the
    closed connection. *)
Theorem Pop_spins_after_close :
  exists s : state (bufChain listElement),
    reachable empty_chain s /\ closed s = true /\ rp s = RTake /\
    forall s', quiet s s' -> rp s' = RTake.
Proof.
  destruct (spin_reachable empty_chain (mkElement None 1 false)) as (s & Hr & Hi & Ht & Hc & Hp).
  - apply empty_chain_holds.
  - split; [done|reflexivity].
  - done.
  - exists s. split_and!; try done. intros s' Hq. by destruct (quiet_spins s s' Hi Ht Hc Hp Hq) as (_ & ? & _).
Qed.
