(* ===== verification/Window.v ===== *)
(** Flow-control windows: [lib/mux/conn.go] (type [window]),
    [lib/mux/conn_send_window.go], [lib/mux/conn_receive_window.go] and the
    session budget of [lib/mux/budget.go].

    Every operation here is the body of one compare-and-swap loop: a function
    from the word that was loaded (and the counters that were read) to the word
    that is stored.  [FlowControl] interleaves them. *)

From S2P Require Import Prelude GoFloat Packager Config Dequeue ReceiveQueue.
Local Open Scope Z_scope.

(** ** The packed word: wait flag, 31-bit size, 31-bit count *)
Definition waitBits : Z := dequeueBits + windowBits.

Definition wnd_unpack (ptrs : Z) : Z * Z * bool :=
  (u32 (Z.land (Z.shiftr ptrs dequeueBits) mask31),
   u32 (Z.land ptrs mask31),
   Z.land (Z.shiftr ptrs waitBits) 1 =? 1).

Definition wnd_pack (maxSize done : Z) (wait : bool) : Z :=
  Z.lor (Z.lor (u64 (Z.shiftl (if wait then 1 else 0) waitBits))
               (u64 (Z.shiftl (Z.land maxSize mask31) dequeueBits)))
        (Z.land done mask31).

(** ** The session budget *)
Definition addSessionReceive (queued n : Z) : Z := if n =? 0 then queued else u64 (queued + n).
Definition releaseSessionReceive (queued n : Z) : Z :=
  if n =? 0 then queued else u64 (queued + bnot 64 (u64 (n - 1))).

Definition sessionReceiveWindowForConn (limit queued buffered : Z) : Z :=
  if limit <=? queued then
    if buffered =? 0 then defaultInitialConnWindow
    else if mask31 <? buffered then mask31 else buffered
  else
    let allowed := u64 (buffered + u64 (limit - queued)) in
    let allowed := if (buffered =? 0) && (allowed <? defaultInitialConnWindow)
                   then defaultInitialConnWindow else allowed in
    let allowed := if mask31 <? allowed then mask31 else allowed in
    u32 allowed.

Definition normalizedMaxConnReceiveWindow (v : defaults) : Z :=
  MaxConnReceiveWindow (normalizeMuxConfig v (DefaultMuxConfig v)).

Definition maxConnReceiveWindow (v : defaults) (cfg : MuxConfig) : Z :=
  if MaxConnReceiveWindow cfg =? 0 then normalizedMaxConnReceiveWindow v else MaxConnReceiveWindow cfg.

(** What a receive window reads of its multiplexer: the connection limit and the
    session limit, fixed, and the session's queued bytes, which other connections
    change at any time. *)
Record limits := mkLimits { connLimit : Z; sessionRecvLimit : Z }.

(** ** The receive window *)

(** The counters [buffered] (uint32) and [sessionRecvQueued] (uint64). *)
Definition reserveBytes (buffered queued l : Z) : Z * Z :=
  if l =? 0 then (buffered, queued) else (u32 (buffered + l), addSessionReceive queued l).
Definition releaseBytes (buffered queued l : Z) : Z * Z :=
  if l =? 0 then (buffered, queued)
  else (u32 (buffered + bnot 32 (u32 (l - 1))), releaseSessionReceive queued l).

Definition effectiveMaxSize (lim : limits) (queued buffered maxSize : Z) : Z :=
  let maxSize := if maxSize <? defaultInitialConnWindow then defaultInitialConnWindow else maxSize in
  let maxSize := if connLimit lim <? maxSize then connLimit lim else maxSize in
  let sessionLimit := sessionReceiveWindowForConn (sessionRecvLimit lim) queued buffered in
  if sessionLimit <? maxSize then sessionLimit else maxSize.

Definition remainingSize (lim : limits) (queued buffered maxSize delta : Z) : Z :=
  let maxSize := effectiveMaxSize lim queued buffered maxSize in
  let used := buffered + delta in
  if used <? maxSize then u32 (maxSize - used) else 0.

(** The bandwidths and the latency [calcSize] reads, and what out-of-range
    conversions yield. *)
Record estimates := mkEst {
  muxBw : float64; connBw : float64; latency : float64; other : float64 -> Z;
}.

Definition float_0_8 : float64 := float_of 3602879701896397 (-52).
Definition float_1_5625 : float64 := float_of 25 (-4).

(** The part of [calcSize] before its compare-and-swap loop: the wished size. *)
Definition calc_wish (est : estimates) : Z * float64 :=
  let known := fgtb (connBw est) fzero && fgtb (muxBw est) fzero in
  let connBw' := if known && fgtb (connBw est) (muxBw est) then muxBw est else connBw est in
  let n := if known then to_uint32 (other est) (fmul (latency est) (fadd (muxBw est) connBw')) else 0 in
  let n := if n <? defaultInitialConnWindow then defaultInitialConnWindow else n in
  let gain := to_uint32 (other est) (fmul (float_of_Z (maximumSegmentSize * 3000)) (latency est)) in
  (if n <? gain then gain else n, connBw').

(** One round of the loop.  [q1] to [q3] are the values of the session counter the
    three evaluations of [effectiveMaxSize] read.  The first loop round may fail
    its swap with an updated [n]; the loop then starts from that [n]. *)
Definition calc_round (lim : limits) (est : estimates) (connBw' : float64)
    (q1 q2 q3 : Z) (buffered n ptrs : Z) : Z * Z :=
  let known := fgtb (connBw est) fzero && fgtb (muxBw est) fzero in
  let '(size, read, wait) := wnd_unpack ptrs in
  let size := effectiveMaxSize lim q1 buffered size in
  let rem := remainingSize lim q2 buffered size 0 in
  let ra := fdiv (float_of_Z rem) (float_of_Z size) in
  let n := if fgtb ra float_0_8
           then to_uint32 (other est) (fmul (fmul (fmul (float_of_Z n) float_1_5625) ra) ra) else n in
  let minN := u32 ((size * 7) / 8) in
  let minN := if wait && (rem =? 0) then size / 2 else minN in
  let n := if n <? minN then minN else n in
  let n :=
    if u32 (2 * size) <? n then
      if size =? defaultInitialConnWindow
      then (if u32 (size * 6) <? n then u32 (size * 6) else n)
      else u32 (2 * size)
    else n in
  let n :=
    if known then
      let limit := to_uint32 (other est)
        (fmul (float_of_Z maximumWindowSize) (fdiv connBw' (fadd (muxBw est) connBw'))) in
      if limit <? n then limit else n
    else n in
  let n := if connLimit lim <? n then connLimit lim else n in
  let n := effectiveMaxSize lim q3 buffered n in
  (n, wnd_pack n read wait).

Definition i8 := swrap 8.

(** [calcSize]: the word is recomputed on every tenth call. *)
Definition calcSize (lim : limits) (est : estimates) (q1 q2 q3 : Z) (buffered count ptrs : Z) : Z * Z :=
  if count =? 0 then
    let '(n, connBw') := calc_wish est in
    let '(_, ptrs') := calc_round lim est connBw' q1 q2 q3 buffered n ptrs in
    (i8 (-10 + 1), ptrs')
  else (i8 (count + 1), ptrs).

(** [Write]: the new word and the size and count to report to the sender. *)
Definition rw_write_cas (lim : limits) (q1 q2 buffered l ptrs : Z) : Z * option (Z * Z) :=
  let '(rawMaxSize, read, wait) := wnd_unpack ptrs in
  let maxSize := effectiveMaxSize lim q1 buffered rawMaxSize in
  let remain := remainingSize lim q2 buffered maxSize l in
  let wait := if (remain =? 0) && negb wait then true else wait in
  let sendUpdate := negb (maxSize =? rawMaxSize) in
  let sendUpdate :=
    if negb wait && (0 <? read) && ((maxSize / 2 <=? read) || (maximumSegmentSize * 4 <=? read))
    then true else sendUpdate in
  let nextRead := if sendUpdate then 0 else read in
  (wnd_pack maxSize nextRead wait, if sendUpdate then Some (maxSize, read) else None).

(** [sendStatus] after reading an element of [l] bytes. *)
Definition sendStatus_cas (lim : limits) (q1 q2 buffered l ptrs : Z) : Z * option (Z * Z) :=
  let '(rawMaxSize, read, wait) := wnd_unpack ptrs in
  let maxSize := effectiveMaxSize lim q1 buffered rawMaxSize in
  let nextRead := u32 (read + l) in
  let sendUpdate := negb (maxSize =? rawMaxSize) in
  let overflow := Z.land nextRead mask31 <? read in
  let nextRead := if overflow then l else nextRead in
  let sendUpdate := if overflow then true else sendUpdate in
  let remain := remainingSize lim q2 buffered maxSize 0 in
  let sendUpdate :=
    if (wait && (0 <? remain)) || (maxSize / 2 <=? nextRead) ||
       (maximumSegmentSize * 4 <=? nextRead) || (remain =? maxSize)
    then true else sendUpdate in
  if sendUpdate then (wnd_pack maxSize 0 false, Some (maxSize, nextRead))
  else (wnd_pack maxSize nextRead wait, None).

(** ** The send window *)
Definition sw_remainingSize (maxSize send : Z) : Z :=
  let l := Z.land maxSize mask31 - Z.land send mask31 in
  if 0 <? l then u32 l else 0.

Inductive set_size_result :=
| SetSizeInvalid                     (* the peer acknowledged more than was sent: the mux is closed *)
| SetSizeSame                        (* nothing to do *)
| SetSizeStored (ptrs : Z) (wake : bool).

(** [SetSize] on an open window. *)
Definition SetSize (currentMaxSizeDone ptrs : Z) : set_size_result :=
  let '(currentMaxSize, read, _) := wnd_unpack currentMaxSizeDone in
  let '(maxsize, send, wait) := wnd_unpack ptrs in
  if send <? read then SetSizeInvalid
  else if (read =? 0) && (currentMaxSize =? maxsize) then SetSizeSame
  else
    let outstanding := Z.land (u32 (send - read)) mask31 in
    let remain := sw_remainingSize currentMaxSize outstanding in
    let nextWait := (remain =? 0) && wait in
    SetSizeStored (wnd_pack currentMaxSize outstanding nextWait) (wait && negb nextWait).

(** [sendWindow.sent]: [None] is the overflow branch, which retries. *)
Definition sw_sent (sentSize ptrs : Z) : option Z :=
  let '(maxSize, send, wait) := wnd_unpack ptrs in
  if Z.land (u32 (send + sentSize)) mask31 <? send then None
  else Some (wnd_pack maxSize (u32 (send + sentSize)) wait).

Definition rollbackSent (sentSize ptrs : Z) : Z :=
  let '(maxSize, send, wait) := wnd_unpack ptrs in
  let sentSize := if send <? sentSize then send else sentSize in
  wnd_pack maxSize (u32 (send - sentSize)) wait.

Definition rollback_off (sentSize off : Z) : Z :=
  if sentSize =? 0 then off else if sentSize <=? off then off - sentSize else 0.

(** [WriteTo] on an open window: one round with the word [ptrs]. *)
Inductive write_to_result :=
| WriteToEOF
| WriteToWait (ptrs : Z)                        (* stores the wait flag and waits *)
| WriteToSegment (p : list byte) (part : bool). (* then [off] and [sent] advance by its length *)

Definition WriteTo (buf : list byte) (off ptrs : Z) : write_to_result :=
  if u32 (Z.of_nat (length buf)) <=? off then WriteToEOF
  else
    let '(maxSize, send, _) := wnd_unpack ptrs in
    let remain := sw_remainingSize maxSize send in
    if remain =? 0 then WriteToWait (wnd_pack maxSize send true)
    else
      let rest := drop (Z.to_nat off) buf in
      let left := Z.of_nat (length rest) in
      let sendSize := if maximumSegmentSize <? left then maximumSegmentSize else u32 left in
      let sendSize := if remain <? sendSize then remain else sendSize in
      WriteToSegment (take (Z.to_nat sendSize) rest) (sendSize <? u32 left).

(** ** The word is its three fields *)
Definition field31 (z : Z) : Prop := 0 <= z < 2 ^ 31.

Lemma land_mask31 z : Z.land z mask31 = z mod 2 ^ 31.
Proof. exact (land_mask 31 z ltac:(lia)). Qed.

Lemma wnd_pack_val m d w :
  wnd_pack m d w = (if w then 1 else 0) * 2 ^ 63 + (m mod 2 ^ 31) * 2 ^ 32 + d mod 2 ^ 31.
Proof.
  unfold wnd_pack. rewrite !land_mask31.
  pose proof (Z.mod_pos_bound m (2 ^ 31) ltac:(lia)). pose proof (Z.mod_pos_bound d (2 ^ 31) ltac:(lia)).
  change waitBits with 63. change dequeueBits with 32.
  assert (H1 : u64 (Z.shiftl (m mod 2 ^ 31) 32) = Z.shiftl (m mod 2 ^ 31) 32).
  { apply wrap_small. unfold is_uint. rewrite Z.shiftl_mul_pow2; lia. }
  assert (H2 : u64 (Z.shiftl (if w then 1 else 0) 63) = Z.shiftl (if w then 1 else 0) 63) by (by destruct w).
  rewrite H1, H2.
  assert (H3 : Z.shiftl (m mod 2 ^ 31) 32 = (m mod 2 ^ 31) * 2 ^ 32) by (rewrite Z.shiftl_mul_pow2; lia).
  rewrite H3. rewrite (lor_shiftl_small 63) by lia.
  replace ((if w then 1 else 0) * 2 ^ 63 + m mod 2 ^ 31 * 2 ^ 32)
    with (Z.shiftl ((if w then 1 else 0) * 2 ^ 31 + m mod 2 ^ 31) 32)
    by (rewrite Z.shiftl_mul_pow2 by lia; destruct w; lia).
  rewrite (lor_shiftl_small 32) by lia. by rewrite Z.shiftl_mul_pow2.
Qed.

Lemma wnd_unpack_pack_mod m d w : wnd_unpack (wnd_pack m d w) = (m mod 2 ^ 31, d mod 2 ^ 31, w).
Proof.
  rewrite wnd_pack_val. unfold wnd_unpack.
  pose proof (Z.mod_pos_bound m (2 ^ 31) ltac:(lia)) as Hm. pose proof (Z.mod_pos_bound d (2 ^ 31) ltac:(lia)) as Hd.
  set (M := m mod 2 ^ 31) in *. set (D := d mod 2 ^ 31) in *. set (b := if w then 1 else 0).
  assert (Hb : 0 <= b <= 1) by (unfold b; destruct w; lia).
  rewrite !land_mask31. change waitBits with 63. change dequeueBits with 32. f_equal; [f_equal|].
  - replace (b * 2 ^ 63 + M * 2 ^ 32 + D) with ((b * 2 ^ 31 + M) * 2 ^ 32 + D) by lia.
    rewrite shiftr_field, mod_field by lia. apply wrap_small. unfold is_uint. lia.
  - replace (b * 2 ^ 63 + M * 2 ^ 32 + D) with ((b * 2 ^ 32 + M * 2) * 2 ^ 31 + D) by lia.
    rewrite mod_field by lia. apply wrap_small. unfold is_uint. lia.
  - replace (b * 2 ^ 63 + M * 2 ^ 32 + D) with (b * 2 ^ 63 + (M * 2 ^ 32 + D)) by lia.
    rewrite shiftr_field by lia. unfold b. by destruct w.
Qed.

Lemma wnd_unpack_pack m d w :
  field31 m -> field31 d -> wnd_unpack (wnd_pack m d w) = (m, d, w).
Proof. unfold field31. intros Hm Hd. rewrite wnd_unpack_pack_mod. by rewrite !Z.mod_small. Qed.

Lemma u32_land_mask31 z : field31 (u32 (Z.land z mask31)).
Proof.
  rewrite land_mask31. pose proof (Z.mod_pos_bound z (2 ^ 31) ltac:(lia)).
  unfold u32. rewrite wrap_small; [done|]. unfold is_uint. lia.
Qed.

Lemma wnd_unpack_range ptrs m d w : wnd_unpack ptrs = (m, d, w) -> field31 m /\ field31 d.
Proof.
  intros H. replace m with (fst (fst (wnd_unpack ptrs))) by (by rewrite H).
  replace d with (snd (fst (wnd_unpack ptrs))) by (by rewrite H).
  split; apply u32_land_mask31.
Qed.

(** ** The advertised window is never zero *)
Record wf_limits (lim : limits) : Prop := {
  wl_conn : defaultInitialConnWindow <= connLimit lim <= mask31;
  wl_session : 0 <= sessionRecvLimit lim <= mask31;
}.

Lemma session_window_pos lim queued buffered :
  wf_limits lim -> 0 <= queued -> 0 <= buffered < 2 ^ 31 ->
  let s := sessionReceiveWindowForConn (sessionRecvLimit lim) queued buffered in
  1 <= s <= mask31 /\ (buffered = 0 -> defaultInitialConnWindow <= s).
Proof.
  intros [Hc Hs] Hq Hb. destruct window_constants as (Hd & Hm & _). rewrite Hd, Hm in *.
  unfold sessionReceiveWindowForConn. rewrite Hd, Hm.
  destruct (Z.leb_spec (sessionRecvLimit lim) queued); [repeat if_case; lia|].
  unfold u64. rewrite (wrap_small 64 (sessionRecvLimit lim - queued)) by (unfold is_uint; lia).
  rewrite (wrap_small 64) by (unfold is_uint; lia).
  repeat if_case; unfold u32; rewrite wrap_small by (unfold is_uint; lia); lia.
Qed.

Lemma effectiveMaxSize_bounds lim queued buffered maxSize :
  wf_limits lim -> 0 <= queued -> 0 <= buffered < 2 ^ 31 ->
  1 <= effectiveMaxSize lim queued buffered maxSize <= connLimit lim /\
  (buffered = 0 -> defaultInitialConnWindow <= effectiveMaxSize lim queued buffered maxSize).
Proof.
  intros Hl Hq Hb. pose proof (session_window_pos lim queued buffered Hl Hq Hb) as [H1 H2].
  destruct Hl as [Hc Hs]. destruct window_constants as (Hd & Hm & _). rewrite Hd, Hm in *.
  unfold effectiveMaxSize. rewrite Hd.
  set (m1 := if maxSize <? 122550 then 122550 else maxSize).
  assert (122550 <= m1) by (unfold m1; if_case; lia). clearbody m1.
  set (m2 := if connLimit lim <? m1 then connLimit lim else m1).
  assert (122550 <= m2 <= connLimit lim) by (unfold m2; if_case; lia). clearbody m2.
  split; [|intros Hb0; specialize (H2 Hb0)]; if_case; lia.
Qed.

Lemma effectiveMaxSize_field lim q b m :
  wf_limits lim -> 0 <= q -> 0 <= b < 2 ^ 31 -> field31 (effectiveMaxSize lim q b m).
Proof.
  intros Hl Hq Hb. destruct (effectiveMaxSize_bounds lim q b m Hl Hq Hb) as [H _].
  destruct Hl as [Hc _]. destruct window_constants as (_ & Hm & _). rewrite Hm in Hc.
  unfold field31. lia.
Qed.

(** With an empty buffer the effective size is a fixed point, so the whole window
    remains. *)
Lemma remaining_whole lim q m :
  wf_limits lim -> 0 <= q ->
  remainingSize lim q 0 (effectiveMaxSize lim q 0 m) 0 = effectiveMaxSize lim q 0 m.
Proof.
  intros Hl Hq. set (e := effectiveMaxSize lim q 0 m).
  destruct (effectiveMaxSize_bounds lim q 0 m Hl Hq ltac:(lia)) as [He Hd]. fold e in He, Hd.
  specialize (Hd eq_refl). unfold remainingSize.
  assert (Hfix : effectiveMaxSize lim q 0 e = e).
  { unfold effectiveMaxSize at 1. destruct (Z.ltb_spec e defaultInitialConnWindow); [lia|].
    destruct (Z.ltb_spec (connLimit lim) e); [lia|].
    assert (Hs : e <= sessionReceiveWindowForConn (sessionRecvLimit lim) q 0).
    { unfold e, effectiveMaxSize. generalize (if connLimit lim <? (if m <? defaultInitialConnWindow
        then defaultInitialConnWindow else m) then connLimit lim else (if m <? defaultInitialConnWindow
        then defaultInitialConnWindow else m)). intros z. if_case; lia. }
    destruct (Z.ltb_spec (sessionReceiveWindowForConn (sessionRecvLimit lim) q 0) e); lia. }
  rewrite Hfix. destruct (Z.ltb_spec (0 + 0) e); [|lia].
  pose proof (effectiveMaxSize_field lim q 0 m Hl Hq ltac:(lia)) as Hf. fold e in Hf. unfold field31 in Hf.
  unfold u32. rewrite wrap_small; unfold is_uint; lia.
Qed.

(** ** What each swap does to the count *)

(** The bytes of an acknowledgement. *)
Definition ack_read (a : option (Z * Z)) : Z := match a with Some (_, r) => r | None => 0 end.
Definition ack_ok (lim : limits) (a : option (Z * Z)) : Prop :=
  match a with Some (m, r) => 1 <= m <= connLimit lim /\ field31 r | None => True end.

(** [calcSize] keeps the count and the wait flag. *)
Lemma calcSize_word lim est q1 q2 q3 b count ptrs count' ptrs' m r w :
  wf_limits lim -> 0 <= q3 -> 0 <= b < 2 ^ 31 ->
  wnd_unpack ptrs = (m, r, w) -> 1 <= m <= connLimit lim ->
  calcSize lim est q1 q2 q3 b count ptrs = (count', ptrs') ->
  exists m', wnd_unpack ptrs' = (m', r, w) /\ 1 <= m' <= connLimit lim.
Proof.
  intros Hl Hq Hb Hu Hm. destruct (wnd_unpack_range _ _ _ _ Hu) as [_ Hr]. unfold calcSize.
  destruct (count =? 0); [|intros [= _ <-]; by exists m].
  destruct (calc_wish est) as [n bw]. unfold calc_round. rewrite Hu.
  match goal with |- context [effectiveMaxSize lim q3 b ?n0] => generalize n0 as n1 end.
  intros n1 [= _ <-]. exists (effectiveMaxSize lim q3 b n1).
  split; [|by apply effectiveMaxSize_bounds]. apply wnd_unpack_pack; [by apply effectiveMaxSize_field|done].
Qed.

(** [Write] moves the count to the acknowledgement it sends, if any. *)
Lemma rw_write_word lim q1 q2 b l ptrs ptrs' a m r w :
  wf_limits lim -> 0 <= q1 -> 0 <= b < 2 ^ 31 -> wnd_unpack ptrs = (m, r, w) ->
  rw_write_cas lim q1 q2 b l ptrs = (ptrs', a) ->
  exists m' r' w', wnd_unpack ptrs' = (m', r', w') /\ 1 <= m' <= connLimit lim /\
    r = r' + ack_read a /\ ack_ok lim a /\ field31 r'.
Proof.
  intros Hl Hq Hb Hu. destruct (wnd_unpack_range _ _ _ _ Hu) as [_ Hr]. unfold rw_write_cas. rewrite Hu.
  pose proof (effectiveMaxSize_bounds lim q1 b m Hl Hq Hb) as [He _].
  pose proof (effectiveMaxSize_field lim q1 b m Hl Hq Hb) as Hf.
  generalize dependent (effectiveMaxSize lim q1 b m). intros e He Hf.
  generalize (remainingSize lim q2 b e l) as rem. intros rem.
  match goal with |- context [wnd_pack e _ ?w0] => generalize w0 as w1 end. intros w1.
  match goal with |- context [if ?c then Some _ else None] => destruct c end;
    intros [= <- <-]; eexists e, _, w1; (split; [by apply wnd_unpack_pack|]); simpl; split_and!; try done; lia.
Qed.

(** [sendStatus] adds the bytes read; it never takes its overflow branch while
    the counts stay below 2^31, and it reports everything once the buffer is
    empty, provided the session counter did not move between its two looks. *)
Lemma sendStatus_word lim q1 q2 b l ptrs ptrs' a m r w :
  wf_limits lim -> 0 <= q1 -> 0 <= b < 2 ^ 31 -> 0 <= l -> wnd_unpack ptrs = (m, r, w) ->
  r + l < 2 ^ 31 ->
  sendStatus_cas lim q1 q2 b l ptrs = (ptrs', a) ->
  exists m' r' w', wnd_unpack ptrs' = (m', r', w') /\ 1 <= m' <= connLimit lim /\
    r + l = r' + ack_read a /\ ack_ok lim a /\ field31 r' /\
    (b = 0 -> q1 = q2 -> r' = 0 /\ w' = false /\ a = Some (m', r + l)).
Proof.
  intros Hl Hq Hb H0 Hu Hfit. destruct (wnd_unpack_range _ _ _ _ Hu) as [_ Hr]. unfold field31 in Hr.
  unfold sendStatus_cas. rewrite Hu. unfold u32.
  rewrite (wrap_small 32 (r + l)) by (unfold is_uint; lia). rewrite land_mask31, Z.mod_small by lia.
  destruct (Z.ltb_spec (r + l) r); [lia|].
  pose proof (effectiveMaxSize_bounds lim q1 b m Hl Hq Hb) as [He _].
  pose proof (effectiveMaxSize_field lim q1 b m Hl Hq Hb) as Hf.
  assert (Hrem : b = 0 -> q1 = q2 ->
    (remainingSize lim q2 b (effectiveMaxSize lim q1 b m) 0 =? effectiveMaxSize lim q1 b m) = true).
  { intros -> <-. apply Z.eqb_eq. by apply remaining_whole. }
  generalize dependent (effectiveMaxSize lim q1 b m). intros e He Hf Hrem.
  generalize dependent (remainingSize lim q2 b e 0). intros rem Hrem.
  destruct (_ || (rem =? e)) eqn:Eup.
  - intros [= <- <-]. exists e, 0, false. split; [by apply wnd_unpack_pack|].
    simpl. unfold field31. split_and!; try done; try lia.
  - assert (Hno : b = 0 -> q1 = q2 -> False).
    { intros H1 H2. specialize (Hrem H1 H2). by rewrite Hrem, orb_true_r in Eup. }
    destruct (negb (e =? m)); intros [= <- <-].
    + exists e, 0, false. split; [by apply wnd_unpack_pack|].
      simpl. unfold field31. split_and!; try done; try lia.
    + exists e, (r + l), w. split; [apply wnd_unpack_pack; [done|unfold field31; lia]|].
      simpl. unfold field31. split_and!; try done; try lia.
Qed.

(** ** The send window *)
Lemma sw_remaining_val m s : field31 m -> field31 s -> sw_remainingSize m s = Z.max 0 (m - s).
Proof.
  unfold field31, sw_remainingSize. intros Hm Hs. rewrite !land_mask31, !Z.mod_small by lia.
  destruct (Z.ltb_spec 0 (m - s)); [|lia]. unfold u32. rewrite wrap_small; unfold is_uint; lia.
Qed.

(** An update that acknowledges no more than is outstanding is accepted; the wait
    flag stays only while the window is exhausted, and is reported when it goes. *)
Lemma SetSize_word cm rd cur m s w ptrs :
  wnd_unpack cur = (cm, rd, false) -> wnd_unpack ptrs = (m, s, w) -> rd <= s ->
  (SetSize cur ptrs = SetSizeSame /\ rd = 0 /\ cm = m) \/
  (exists p nw, SetSize cur ptrs = SetSizeStored p (w && negb nw) /\
     wnd_unpack p = (cm, s - rd, nw) /\ nw = ((cm <=? s - rd) && w)).
Proof.
  intros Hc Hp Hle. destruct (wnd_unpack_range _ _ _ _ Hc) as [Hcm Hrd].
  destruct (wnd_unpack_range _ _ _ _ Hp) as [Hm Hs]. unfold field31 in *.
  unfold SetSize. rewrite Hc, Hp. destruct (Z.ltb_spec s rd); [lia|].
  destruct ((rd =? 0) && (cm =? m)) eqn:E; [left; zbool; done|right].
  unfold u32. rewrite (wrap_small 32) by (unfold is_uint; lia). rewrite land_mask31, Z.mod_small by lia.
  rewrite sw_remaining_val by (unfold field31; lia).
  assert (Hr : (Z.max 0 (cm - (s - rd)) =? 0) = (cm <=? s - rd)).
  { destruct (Z.leb_spec cm (s - rd)); destruct (Z.eqb_spec (Z.max 0 (cm - (s - rd))) 0); lia. }
  rewrite Hr. eexists _, _. split; [done|]. split; [|done].
  apply wnd_unpack_pack; unfold field31; lia.
Qed.

Lemma sw_sent_word n m s w ptrs :
  wnd_unpack ptrs = (m, s, w) -> 0 <= n -> s + n < 2 ^ 31 ->
  exists p, sw_sent n ptrs = Some p /\ wnd_unpack p = (m, s + n, w).
Proof.
  intros Hu Hn Hlt. destruct (wnd_unpack_range _ _ _ _ Hu) as [Hm Hs]. unfold field31 in *.
  unfold sw_sent. rewrite Hu. unfold u32. rewrite (wrap_small 32) by (unfold is_uint; lia).
  rewrite land_mask31, Z.mod_small by lia. destruct (Z.ltb_spec (s + n) s); [lia|].
  eexists. split; [done|]. apply wnd_unpack_pack; unfold field31; lia.
Qed.

Lemma rollback_word n m s w ptrs :
  wnd_unpack ptrs = (m, s, w) -> 0 <= n <= s -> wnd_unpack (rollbackSent n ptrs) = (m, s - n, w).
Proof.
  intros Hu Hn. destruct (wnd_unpack_range _ _ _ _ Hu) as [Hm Hs]. unfold field31 in *.
  unfold rollbackSent. rewrite Hu. destruct (Z.ltb_spec s n); [lia|].
  unfold u32. rewrite wrap_small by (unfold is_uint; lia). apply wnd_unpack_pack; unfold field31; lia.
Qed.

(** ** Segmentation of a write *)

(** [WriteFull] with the words its rounds load: the frames handed to the mux, with
    their part flag, and what is left of the buffer when the words run out. *)
Fixpoint WriteFull (words : list Z) (buf : list byte) (off : Z) : list (list byte * bool) * bool :=
  match words with
  | [] => ([], false)
  | ptrs :: words =>
    match WriteTo buf off ptrs with
    | WriteToEOF => ([], true)
    | WriteToWait _ => WriteFull words buf off
    | WriteToSegment p part =>
      let '(fs, done) := WriteFull words buf (off + Z.of_nat (length p)) in ((p, part) :: fs, done)
    end
  end.

Lemma WriteTo_segment buf off ptrs p part :
  0 <= off -> Z.of_nat (length buf) < 2 ^ 32 ->
  WriteTo buf off ptrs = WriteToSegment p part ->
  exists rest, drop (Z.to_nat off) buf = p ++ rest /\ p <> [] /\
    Z.of_nat (length p) <= maximumSegmentSize /\ part = negb (bool_decide (rest = [])) /\
    (forall m s w, wnd_unpack ptrs = (m, s, w) -> s + Z.of_nat (length p) <= m).
Proof.
  intros Ho Hb. unfold WriteTo. unfold u32 at 1. rewrite wrap_small by (unfold is_uint; lia).
  destruct (Z.leb_spec (Z.of_nat (length buf)) off) as [|Hlt]; [done|].
  destruct (wnd_unpack ptrs) as [[m s] w] eqn:Hu. destruct (wnd_unpack_range _ _ _ _ Hu) as [Hm Hs].
  rewrite sw_remaining_val by done. unfold field31 in *.
  destruct (Z.eqb_spec (Z.max 0 (m - s)) 0) as [|Hrem]; [done|].
  set (rest := drop (Z.to_nat off) buf). assert (Hlen : Z.of_nat (length rest) = Z.of_nat (length buf) - off).
  { unfold rest. rewrite length_drop. lia. }
  unfold u32. rewrite wrap_small by (unfold is_uint; lia).
  destruct window_constants as (_ & _ & Hmss). rewrite Hmss.
  set (n1 := if 4085 <? Z.of_nat (length rest) then 4085 else Z.of_nat (length rest)).
  assert (H1 : 1 <= n1 <= 4085 /\ n1 <= Z.of_nat (length rest)) by (unfold n1; if_case; lia). clearbody n1.
  set (n := if Z.max 0 (m - s) <? n1 then Z.max 0 (m - s) else n1).
  assert (Hn : 1 <= n <= 4085 /\ n <= Z.of_nat (length rest) /\ n <= m - s) by (unfold n; if_case; lia). clearbody n.
  intros [= <- <-]. exists (drop (Z.to_nat n) rest). rewrite take_drop.
  assert (Hlp : length (take (Z.to_nat n) rest) = Z.to_nat n) by (rewrite length_take; lia).
  split_and!; try done; rewrite ?Hlp; try lia.
  - intros E. apply (f_equal length) in E. rewrite Hlp in E. simpl in E. lia.
  - destruct (Z.ltb_spec n (Z.of_nat (length rest))) as [Hl|Hl].
    + rewrite bool_decide_eq_false_2; [done|]. intros E. apply (f_equal length) in E.
      rewrite length_drop in E. simpl in E. lia.
    + rewrite bool_decide_eq_true_2; [done|]. apply nil_length_inv. rewrite length_drop. lia.
  - intros m' s' w' [= <- <- <-]. lia.
Qed.

(** The frames of a write are consecutive, non-empty pieces of the buffer that fit
    a frame, and exactly the one that ends the buffer is not a part. *)
Lemma WriteFull_spec words : forall buf off fs done,
  0 <= off <= Z.of_nat (length buf) -> Z.of_nat (length buf) < 2 ^ 32 ->
  WriteFull words buf off = (fs, done) ->
  exists rest, drop (Z.to_nat off) buf = concat fs.*1 ++ rest /\ (done = true -> rest = []) /\
    Forall (fun f => f.1 <> [] /\ Z.of_nat (length f.1) <= maximumSegmentSize) fs /\
    forall a f b, fs = a ++ f :: b -> (f.2 = false <-> drop (Z.to_nat off) buf = concat a.*1 ++ f.1).
Proof.
  induction words as [|ptrs words IH]; intros buf off fs done Ho Hb; simpl.
  - intros [= <- <-]. exists (drop (Z.to_nat off) buf). split_and!; try done.
    intros a f b E. by destruct a.
  - destruct (WriteTo buf off ptrs) as [|p0|p part] eqn:Ew.
    + intros [= <- <-]. exists []. unfold WriteTo in Ew.
      destruct (u32 (Z.of_nat (length buf)) <=? off) eqn:El; [|by destruct (wnd_unpack ptrs) as [[m s] w]; if_case_in Ew].
      unfold u32 in El. rewrite wrap_small in El by (unfold is_uint; lia). zbool.
      rewrite drop_ge by lia. split_and!; try done. intros a f b E. by destruct a.
    + by apply IH.
    + destruct (WriteTo_segment _ _ _ _ _ (proj1 Ho) Hb Ew) as (rest & Hd & Hne & Hl & Hp & _).
      destruct (WriteFull words buf _) as [fs' done'] eqn:E. intros [= <- <-].
      assert (Hlen : Z.of_nat (length p) + Z.of_nat (length rest) = Z.of_nat (length buf) - off).
      { apply (f_equal length) in Hd. rewrite length_drop, length_app in Hd. lia. }
      assert (Hd' : drop (Z.to_nat (off + Z.of_nat (length p))) buf = rest).
      { rewrite Z2Nat.inj_add by lia. rewrite Nat2Z.id, <- drop_drop, Hd. apply drop_app_length. }
      apply IH in E as (rest' & Hr & Hdn & Hall & Hpart); [|lia|done]. rewrite Hd' in Hr, Hpart.
      exists rest'. rewrite Hd. simpl. split_and!; [by rewrite Hr, app_assoc|done|by constructor|].
      intros [|a0 a] f b Ef; injection Ef as <- Ef; simpl.
      * split; [|intros Hx%(f_equal length); rewrite Hp, length_app in *].
        -- rewrite Hp. intros Hx%negb_false_iff%bool_decide_eq_true. by rewrite Hx, app_nil_r.
        -- apply negb_false_iff, bool_decide_eq_true, nil_length_inv. lia.
      * rewrite (Hpart a f b Ef). split; [intros ->; by rewrite app_assoc|].
        rewrite <- app_assoc. intros Hx%app_inv_head. done.
Qed.

(** ** Reading *)

(** The unread bytes of an element. *)
Definition unread (e : listElement) (off : Z) : list byte :=
  drop (Z.to_nat off) (take (Z.to_nat (L e)) (default [] (Buf e))).

(** [readFromQueue] from the point where the current element is used up: [None]
    when the queue runs dry, where [Pop] blocks.  The result is the data, the
    current element with its offset, the lengths released and the queue. *)
Fixpoint read_next (q : list listElement) (want : nat)
    : option (list byte * listElement * Z * list Z * list listElement) :=
  match q with
  | [] => None
  | e :: q =>
    let data := take want (unread e 0) in
    let off := Z.of_nat (length data) in
    let rel := if off =? L e then [L e] else [] in
    if (length data <? want)%nat && Part e then
      '(data', e', off', rel', q') ← read_next q (want - length data);
      Some (data ++ data', e', off', rel ++ rel', q')
    else Some (data, e, off, rel, q)
  end.

Definition readFromQueue (q : list listElement) (e : listElement) (off : Z) (want : nat)
    : option (list byte * listElement * Z * list Z * list listElement) :=
  if off =? L e then read_next q want
  else
    let data := take want (unread e off) in
    let off := off + Z.of_nat (length data) in
    let rel := if off =? L e then [L e] else [] in
    if (length data <? want)%nat && Part e then
      '(data', e', off', rel', q') ← read_next q (want - length data);
      Some (data ++ data', e', off', rel ++ rel', q')
    else Some (data, e, off, rel, q).

(** The bytes a reader has still to get. *)
Definition stream_of (e : listElement) (off : Z) (q : list listElement) : list byte :=
  unread e off ++ concat ((fun x => unread x 0) <$> q).

Definition wf_element (e : listElement) : Prop :=
  0 <= L e /\ L e <= Z.of_nat (length (default [] (Buf e))).

Lemma length_unread e off : wf_element e -> 0 <= off <= L e ->
  Z.of_nat (length (unread e off)) = L e - off.
Proof. intros [H1 H2] Ho. unfold unread. rewrite length_drop, length_take. lia. Qed.

Lemma unread_split e off want : wf_element e -> 0 <= off <= L e ->
  unread e off = take want (unread e off) ++ unread e (off + Z.of_nat (length (take want (unread e off)))) /\
  0 <= off + Z.of_nat (length (take want (unread e off))) <= L e /\
  ((length (take want (unread e off)) < want)%nat -> unread e (off + Z.of_nat (length (take want (unread e off)))) = []).
Proof.
  intros Hw Ho. pose proof (length_unread e off Hw Ho) as Hl.
  assert (Hlt : length (take want (unread e off)) = (want `min` length (unread e off))%nat) by apply length_take.
  assert (Hdrop : forall k, unread e (off + Z.of_nat k) = drop k (unread e off)).
  { intros k. unfold unread. rewrite drop_drop. f_equal. lia. }
  rewrite Hdrop, Hlt. split_and!; try lia.
  - destruct (Nat.le_ge_cases want (length (unread e off))).
    + rewrite Nat.min_l by done. by rewrite take_drop.
    + rewrite Nat.min_r by done. rewrite take_ge by done. rewrite drop_all. by rewrite app_nil_r.
  - intros H. rewrite Nat.min_r by lia. apply drop_all.
Qed.

Lemma read_next_spec q : forall want data e off rel q',
  Forall wf_element q -> read_next q want = Some (data, e, off, rel, q') ->
  concat ((fun x => unread x 0) <$> q) = data ++ stream_of e off q' /\
  (length data <= want)%nat /\ wf_element e /\ 0 <= off <= L e /\ Forall wf_element q'.
Proof.
  induction q as [|x q IH]; intros want data e off rel q' Hwf; csimpl; [done|].
  apply Forall_cons in Hwf as [Hx Hq]. destruct Hx as [H0 H1].
  destruct (unread_split x 0 want) as (Hs & Ho & Hrest); [done|lia|]. rewrite Z.add_0_l in *.
  destruct (_ && Part x) eqn:Ec.
  - destruct (read_next q (want - _)) as [[[[[d e'] o'] r'] q'']|] eqn:E; [|done].
    intros [= <- <- <- <- <-]. apply andb_true_iff in Ec as [Ec%Nat.ltb_lt _]. specialize (Hrest Ec).
    apply IH in E as (E & Hl & He & Hoff & Hq''); [|done]. split_and!; try done; try apply Hoff.
    + rewrite Hs at 1. rewrite Hrest, app_nil_r, E. by rewrite app_assoc.
    + rewrite length_app. lia.
  - intros [= <- <- <- <- <-]. split_and!; try done; try lia.
    + unfold stream_of. rewrite Hs at 1. by rewrite app_assoc.
    + rewrite length_take. lia.
Qed.

Lemma readFromQueue_spec q e off want data e' off' rel q' :
  Forall wf_element q -> wf_element e -> 0 <= off <= L e ->
  readFromQueue q e off want = Some (data, e', off', rel, q') ->
  stream_of e off q = data ++ stream_of e' off' q' /\ (length data <= want)%nat /\
  wf_element e' /\ 0 <= off' <= L e' /\ Forall wf_element q'.
Proof.
  intros Hq He Ho. unfold readFromQueue. destruct (Z.eqb_spec off (L e)) as [->|Hne].
  - intros E. apply read_next_spec in E as (E & Hr); [|done]. split; [|done].
    unfold stream_of at 1. rewrite E. replace (unread e (L e)) with (@nil byte); [done|].
    symmetry. apply nil_length_inv. pose proof (length_unread e (L e) He ltac:(lia)). lia.
  - destruct (unread_split e off want He Ho) as (Hs & Ho' & Hrest). destruct (_ && Part e) eqn:Ec.
    + destruct (read_next q (want - _)) as [[[[[d e1] o1] r1] q1]|] eqn:E; [|done].
      intros [= <- <- <- <- <-]. apply andb_true_iff in Ec as [Ec%Nat.ltb_lt _]. specialize (Hrest Ec).
      apply read_next_spec in E as (E & Hl & Hr); [|done]. split_and!; try done; try apply Hr.
      * unfold stream_of at 1. rewrite Hs at 1. rewrite Hrest, app_nil_r, E. by rewrite app_assoc.
      * rewrite length_app. lia.
    + intros [= <- <- <- <- <-]. split_and!; try done; try lia.
      * unfold stream_of at 1. rewrite Hs at 1. by rewrite <- app_assoc.
      * rewrite length_take. lia.
Qed.

(** The current element and the queue are a suffix of what they were. *)
Lemma read_next_suffix q : forall want data e off rel q',
  read_next q want = Some (data, e, off, rel, q') -> exists pre, q = pre ++ e :: q'.
Proof.
  induction q as [|x q IH]; intros want data e off rel q'; simpl; [done|].
  destruct (_ && Part x).
  - destruct (read_next q _) as [[[[[d e'] o'] r'] q'']|] eqn:E; [|done].
    intros [= <- <- <- <- <-]. apply IH in E as [pre ->]. by exists (x :: pre).
  - intros [= <- <- <- <- <-]. by exists [].
Qed.

Lemma readFromQueue_suffix q e off want data e' off' rel q' :
  readFromQueue q e off want = Some (data, e', off', rel, q') -> exists pre, e :: q = pre ++ e' :: q'.
Proof.
  unfold readFromQueue. destruct (off =? L e).
  - intros [pre ->]%read_next_suffix. by exists (e :: pre).
  - destruct (_ && Part e).
    + destruct (read_next q _) as [[[[[d e1] o1] r1] q1]|] eqn:E; [|done].
      intros [= <- <- <- <- <-]. apply read_next_suffix in E as [pre ->]. by exists (e :: pre).
    + intros [= <- <- <- <- <-]. by exists [].
Qed.

(** The queue ends with the last piece of a message, so that a read inside a
    message does not run dry. *)
Definition ends_message (es : list listElement) : Prop :=
  match last es with Some x => Part x = false | None => True end.

Lemma read_next_total q : forall want,
  q <> [] -> ends_message q -> exists r, read_next q want = Some r.
Proof.
  induction q as [|x q IH]; intros want Hne Hend; [done|]. simpl.
  destruct (_ && Part x) eqn:Ec; [|by eexists]. apply andb_true_iff in Ec as [_ Ep].
  destruct q as [|y q]; [by unfold ends_message in Hend; simpl in Hend; rewrite Ep in Hend|].
  destruct (IH (want - length (take want (unread x 0)))%nat) as [[[[[d e'] o'] r'] q''] ->]; [done|by apply Hend|].
  by eexists.
Qed.

(** A read of at least one byte returns data as long as there is some. *)
Lemma readFromQueue_progress q e off want :
  Forall wf_element q -> Forall (fun x => 0 < L x) q -> wf_element e -> 0 <= off <= L e ->
  ends_message (e :: q) -> (0 < want)%nat -> stream_of e off q <> [] ->
  exists data e' off' rel q', readFromQueue q e off want = Some (data, e', off', rel, q') /\ data <> [].
Proof.
  intros Hq Hpos He Ho Hend Hw Hs. unfold readFromQueue. destruct (Z.eqb_spec off (L e)) as [->|Hne].
  - destruct q as [|x q].
    { exfalso. apply Hs. unfold stream_of. simpl. rewrite app_nil_r. apply nil_length_inv.
      pose proof (length_unread e (L e) He ltac:(lia)). lia. }
    destruct (read_next_total (x :: q) want) as [[[[[d e'] o'] r'] q'] E]; [done|by apply Hend|].
    exists d, e', o', r', q'. split; [done|]. inversion_clear Hq. inversion_clear Hpos. simpl in E.
    assert (Hd : take want (unread x 0) <> []).
    { intros Hd%(f_equal length). rewrite length_take in Hd. simpl in Hd.
      pose proof (length_unread x 0 ltac:(done) ltac:(lia)). lia. }
    destruct (_ && Part x); [destruct (read_next q _) as [[[[[? ?] ?] ?] ?]|]; [|done]|]; simplify_eq/=; [|done].
    by intros [? _]%app_eq_nil.
  - assert (Hd : take want (unread e off) <> []).
    { intros Hd%(f_equal length). rewrite length_take in Hd. simpl in Hd.
      pose proof (length_unread e off He ltac:(lia)). lia. }
    destruct (_ && Part e) eqn:Ec; [|by eexists _, _, _, _, _].
    apply andb_true_iff in Ec as [_ Ep].
    destruct q as [|y q]; [by unfold ends_message in Hend; simpl in Hend; rewrite Ep in Hend|].
    destruct (read_next_total (y :: q) (want - length (take want (unread e off)))) as [[[[[d e'] o'] r'] q'] ->];
      [done|by apply Hend|].
    eexists _, _, _, _, _. split; [done|]. by intros [? _]%app_eq_nil.
Qed.

(** Successive reads, up to the first that would block. *)
Fixpoint read_all (sizes : list nat) (q : list listElement) (e : listElement) (off : Z) : list byte :=
  match sizes with
  | [] => []
  | n :: sizes =>
    match readFromQueue q e off n with
    | Some (data, e', off', _, q') => data ++ read_all sizes q' e' off'
    | None => []
    end
  end.

Lemma read_all_prefix sizes : forall q e off,
  Forall wf_element q -> wf_element e -> 0 <= off <= L e ->
  read_all sizes q e off `prefix_of` stream_of e off q.
Proof.
  induction sizes as [|n sizes IH]; intros q e off Hq He Ho; simpl; [apply prefix_nil|].
  destruct (readFromQueue q e off n) as [[[[[data e'] off'] rel] q']|] eqn:E; [|apply prefix_nil].
  apply readFromQueue_spec in E as (-> & _ & He' & Ho' & Hq'); [|done..].
  by apply prefix_app, IH.
Qed.

Lemma read_all_complete sizes : forall q e off,
  Forall wf_element q -> Forall (fun x => 0 < L x) q -> wf_element e -> 0 <= off <= L e ->
  ends_message (e :: q) -> Forall (fun n => 0 < n)%nat sizes ->
  (length (stream_of e off q) <= length sizes)%nat -> read_all sizes q e off = stream_of e off q.
Proof.
  induction sizes as [|n sizes IH]; intros q e off Hq Hpos He Ho Hend Hn Hlen.
  { simpl in Hlen. symmetry. apply nil_length_inv. lia. }
  inversion_clear Hn. destruct (decide (stream_of e off q = [])) as [Hs|Hs].
  { rewrite Hs. apply prefix_nil_inv. rewrite <- Hs. by apply read_all_prefix. }
  destruct (readFromQueue_progress q e off n) as (data & e' & off' & rel & q' & E & Hd); try done.
  simpl. rewrite E. destruct (readFromQueue_suffix _ _ _ _ _ _ _ _ _ E) as [pre Hpre].
  apply readFromQueue_spec in E as (Es & _ & He' & Ho' & Hq'); [|done..]. rewrite Es. f_equal.
  assert (length data <> 0%nat) by (by destruct data).
  apply IH; try done.
  - destruct pre as [|p pre]; simplify_eq/=; [done|]. apply Forall_app in Hpos as [_ Hpos]. by inversion Hpos.
  - unfold ends_message in *. rewrite Hpre, last_app_cons in Hend. done.
  - rewrite Es, length_app in Hlen. simpl in Hlen. lia.
Qed.

(** * Claims *)

(** The element [newMsg] queues for a frame. *)
Definition element_of (f : list byte * bool) : listElement :=
  mkElement (Some f.1) (Z.of_nat (length f.1)) f.2.

Lemma element_unread f : unread (element_of f) 0 = f.1.
Proof. unfold unread, element_of. simpl. rewrite Nat2Z.id, drop_0, take_ge; done. Qed.

Lemma elements_stream fs : stream_of Reset 0 (element_of <$> fs) = concat fs.*1.
Proof.
  unfold stream_of. simpl. induction fs as [|f fs IH]; [done|]. csimpl. by rewrite element_unread, IH.
Qed.

Lemma elements_wf fs : Forall wf_element (element_of <$> fs).
Proof. apply Forall_fmap, Forall_true. intros f. split; simpl; lia. Qed.

(** C6. A write arrives as it was written.  Whatever window sizes [WriteFull]
    meets, its frames are accepted by the codec, and whatever read sizes the peer
    uses, reads return consecutive bytes of the written buffer.  If the write
    completed, reads of at least one byte each return the whole buffer. *)
Theorem write_read_stream words buf fs done sizes :
  Z.of_nat (length buf) < 2 ^ 32 -> WriteFull words buf 0 = (fs, done) ->
  Forall (fun f : list byte * bool => set_accepts (if f.2 then muxNewMsgPart else muxNewMsg) (ArgBytes (Some f.1)) = true) fs /\
  read_all sizes (element_of <$> fs) Reset 0 `prefix_of` buf /\
  (done = true -> Forall (fun n => 0 < n)%nat sizes -> (length buf <= length sizes)%nat ->
     read_all sizes (element_of <$> fs) Reset 0 = buf).
Proof.
  intros Hb E. destruct (WriteFull_spec _ _ _ _ _ (conj (Z.le_refl 0) (Nat2Z.is_nonneg _)) Hb E)
    as (rest & Hd & Hdone & Hall & Hpart). rewrite drop_0 in Hd, Hpart.
  assert (Hwr : wf_element Reset) by done.
  split_and!.
  - eapply Forall_impl; [exact Hall|]. intros [p part] [Hne Hl]. simpl in *. unfold set_accepts.
    destruct p as [|b p]; [done|]. simpl in Hl. destruct part; simpl; apply Z.leb_le; lia.
  - etrans; [apply read_all_prefix; [apply elements_wf|done|done]|].
    rewrite elements_stream, Hd. by apply prefix_app_r.
  - intros Hdn Hs Hlen. rewrite (Hdone Hdn), app_nil_r in Hd. rewrite read_all_complete; try done.
    + by rewrite elements_stream.
    + apply elements_wf.
    + apply Forall_fmap. eapply Forall_impl; [exact Hall|]. intros [p ?] [Hne _]. simpl in *.
      destruct p; [done|simpl; lia].
    + unfold ends_message. destruct (decide (fs = [])) as [->|Hne]; [done|].
      destruct (exists_last Hne) as (a & f & ->). rewrite fmap_app. csimpl.
      rewrite app_comm_cons, last_snoc. simpl. apply (Hpart a f []); [done|].
      rewrite Hd, fmap_app, concat_app. simpl. by rewrite app_nil_r.
    + rewrite elements_stream, <- Hd. lia.
Qed.

Lemma write_read_stream_witness :
  let words := [wnd_pack 2 0 false; wnd_pack 2 2 false; wnd_pack 9 0 false; wnd_pack 9 3 false] in
  let fs := [([x68; x65], true); ([x79; x21; x0a], false)] in
  Forall (fun f : list byte * bool => set_accepts (if f.2 then muxNewMsgPart else muxNewMsg) (ArgBytes (Some f.1)) = true) fs /\
  read_all [1; 1; 1; 1; 1]%nat (element_of <$> fs) Reset 0 `prefix_of` [x68; x65; x79; x21; x0a] /\
  (true = true -> Forall (fun n => 0 < n)%nat [1; 1; 1; 1; 1]%nat ->
     (length [x68; x65; x79; x21; x0a] <= length [1; 1; 1; 1; 1]%nat)%nat ->
     read_all [1; 1; 1; 1; 1]%nat (element_of <$> fs) Reset 0 = [x68; x65; x79; x21; x0a]).
Proof.
  intros words fs. apply (write_read_stream words [x68; x65; x79; x21; x0a] fs true [1; 1; 1; 1; 1]%nat).
  - reflexivity.
  - vm_compute. reflexivity.
Defined.
