(* ===== verification/FlowControl.v ===== *)
(** The flow-control protocol of one direction of a connection: the send window
    of one peer, the receive window of the other, and the frames between them.

    An [action] is one atomic step of one goroutine: the writer ([WriteTo],
    [sent], [sendInfo], the wait on [setSizeCh]), the sender's read loop
    ([SetSize], [allow]), the receiver's read loop ([Write]) and the reader
    ([readFromQueue], [sendStatus]).  A compare-and-swap that fails changes
    nothing, so an action is a swap that succeeds.  The session counter belongs
    to all connections of the multiplexer: every look at it may see another
    value, which is an argument of the action.  Frames and acknowledgements are
    delivered in order, by the codec and the write queue. *)

From S2P Require Import Prelude GoFloat Packager Config Dequeue ReceiveQueue Window.
Local Open Scope Z_scope.

#[local] Arguments wnd_pack : simpl never.
#[local] Arguments wnd_unpack : simpl never.
#[local] Arguments calcSize : simpl never.
#[local] Arguments rw_write_cas : simpl never.
#[local] Arguments sendStatus_cas : simpl never.
#[local] Arguments SetSize : simpl never.
#[local] Arguments WriteTo : simpl never.
#[local] Arguments sw_sent : simpl never.
#[local] Arguments rollbackSent : simpl never.
#[local] Arguments reserveBytes : simpl never.
#[local] Arguments releaseBytes : simpl never.
#[local] Arguments defaultInitialConnWindow : simpl never.

(** ** State *)
Inductive spc :=
| SReady                   (* outside a write, or at the start of [WriteTo] *)
| SWaiting                 (* in [waitReceiveWindow] *)
| SSend (n : Z)            (* [WriteTo] chose a segment of [n] bytes *)
| SSent (n : Z).           (* counted, not yet accepted by the write queue *)

Inductive wpc :=
| WIdle
| WGot (l : Z)                                (* in [Write], before [calcSize] *)
| WCalc (l : Z)                               (* before the swap *)
| WStored (l : Z) (a : option (Z * Z))        (* swapped, not yet reserved *)
| WReserved (l : Z) (a : option (Z * Z))      (* reserved, not yet pushed *)
| WPushed (a : option (Z * Z)).               (* pushed, the update not yet sent *)

Inductive rdpc :=
| RdNone
| RdHolding (l : Z)                           (* an element popped and being copied *)
| RdReleased (l : Z)                          (* released, in [sendStatus] before [calcSize] *)
| RdCalc (l : Z)                              (* before the swap *)
| RdStored (a : option (Z * Z)).              (* swapped, the update not yet sent *)

Record fstate := mkF {
  s_ptrs : Z; s_pc : spc; s_token : bool; s_allow : bool; s_invalid : bool;
  data : list Z; acks : list (Z * Z);
  r_ptrs : Z; buffered : Z; calls : Z; w_pc : wpc; queue : list Z; r_pc : rdpc;
}.

Definition f_init : fstate :=
  mkF (wnd_pack defaultInitialConnWindow 0 false) SReady false false false [] []
      (wnd_pack defaultInitialConnWindow 0 false) 0 0 WIdle [] RdNone.

(** ** Actions *)
Inductive action :=
| AWriteTo (buf : list byte) (off : Z)
| ASent | AEmit | ARollback
| AWake | ATimeout
| AAck | AAllow
| AData
| AWCalc (est : estimates) (q1 q2 q3 : Z) | AWStore (q1 q2 : Z) | AWReserve | AWPush | AWEmit
| APop | ARelease
| ARCalc (est : estimates) (q1 q2 q3 : Z) | ARStore (q1 q2 : Z) | AREmit.

Definition with_s (s : fstate) ptrs pc token allow invalid : fstate :=
  mkF ptrs pc token allow invalid (data s) (acks s) (r_ptrs s) (buffered s) (calls s) (w_pc s) (queue s) (r_pc s).
Definition with_net (s : fstate) d a : fstate :=
  mkF (s_ptrs s) (s_pc s) (s_token s) (s_allow s) (s_invalid s) d a
      (r_ptrs s) (buffered s) (calls s) (w_pc s) (queue s) (r_pc s).
Definition with_r (s : fstate) ptrs b w q r : fstate :=
  mkF (s_ptrs s) (s_pc s) (s_token s) (s_allow s) (s_invalid s) (data s) (acks s) ptrs b (calls s) w q r.
(** After [calcSize]: its counter and the word. *)
Definition with_calc (s : fstate) (c : Z * Z) w r : fstate :=
  mkF (s_ptrs s) (s_pc s) (s_token s) (s_allow s) (s_invalid s) (data s) (acks s)
      (snd c) (buffered s) (fst c) w (queue s) r.

Definition ack_list (a : option (Z * Z)) : list (Z * Z) := match a with Some x => [x] | None => [] end.

Definition exec (lim : limits) (a : action) (s : fstate) : option fstate :=
  match a with
  (* the writer *)
  | AWriteTo buf off =>
    match s_pc s, WriteTo buf off (s_ptrs s) with
    | SReady, WriteToSegment p _ =>
      Some (with_s s (s_ptrs s) (SSend (Z.of_nat (length p))) (s_token s) (s_allow s) (s_invalid s))
    | SReady, WriteToWait ptrs => Some (with_s s ptrs SWaiting (s_token s) (s_allow s) (s_invalid s))
    | _, _ => None
    end
  | ASent =>
    match s_pc s with
    | SSend n => ptrs ← sw_sent n (s_ptrs s);
                 Some (with_s s ptrs (SSent n) (s_token s) (s_allow s) (s_invalid s))
    | _ => None
    end
  | AEmit =>
    match s_pc s with
    | SSent n => Some (with_net (with_s s (s_ptrs s) SReady (s_token s) (s_allow s) (s_invalid s))
                         (data s ++ [n]) (acks s))
    | _ => None
    end
  | ARollback =>
    match s_pc s with
    | SSent n => Some (with_s s (rollbackSent n (s_ptrs s)) SReady (s_token s) (s_allow s) (s_invalid s))
    | _ => None
    end
  | AWake =>
    match s_pc s, s_token s with
    | SWaiting, true => Some (with_s s (s_ptrs s) SReady false (s_allow s) (s_invalid s))
    | _, _ => None
    end
  | ATimeout =>
    match s_pc s with
    | SWaiting => Some (with_s s (s_ptrs s) SReady (s_token s) (s_allow s) (s_invalid s))
    | _ => None
    end
  (* the sender's read loop *)
  | AAck =>
    match acks s, s_allow s with
    | (m, r) :: rest, false =>
      match SetSize (wnd_pack m r false) (s_ptrs s) with
      | SetSizeInvalid => Some (with_net (with_s s (s_ptrs s) (s_pc s) (s_token s) false true) (data s) rest)
      | SetSizeSame => Some (with_net s (data s) rest)
      | SetSizeStored ptrs wake =>
        Some (with_net (with_s s ptrs (s_pc s) (s_token s) wake (s_invalid s)) (data s) rest)
      end
    | _, _ => None
    end
  | AAllow =>
    if s_allow s then Some (with_s s (s_ptrs s) (s_pc s) true false (s_invalid s)) else None
  (* the receiver's read loop *)
  | AData =>
    match data s, w_pc s with
    | l :: rest, WIdle =>
      Some (with_r (with_net s rest (acks s)) (r_ptrs s) (buffered s) (WGot l) (queue s) (r_pc s))
    | _, _ => None
    end
  | AWCalc est q1 q2 q3 =>
    match w_pc s with
    | WGot l => Some (with_calc s (calcSize lim est q1 q2 q3 (buffered s) (calls s) (r_ptrs s)) (WCalc l) (r_pc s))
    | _ => None
    end
  | AWStore q1 q2 =>
    match w_pc s with
    | WCalc l => let '(ptrs, a) := rw_write_cas lim q1 q2 (buffered s) l (r_ptrs s) in
                Some (with_r s ptrs (buffered s) (WStored l a) (queue s) (r_pc s))
    | _ => None
    end
  | AWReserve =>
    match w_pc s with
    | WStored l a => Some (with_r s (r_ptrs s) (fst (reserveBytes (buffered s) 0 l)) (WReserved l a) (queue s) (r_pc s))
    | _ => None
    end
  | AWPush =>
    match w_pc s with
    | WReserved l a => Some (with_r s (r_ptrs s) (buffered s) (WPushed a) (queue s ++ [l]) (r_pc s))
    | _ => None
    end
  | AWEmit =>
    match w_pc s with
    | WPushed a => Some (with_r (with_net s (data s) (acks s ++ ack_list a))
                           (r_ptrs s) (buffered s) WIdle (queue s) (r_pc s))
    | _ => None
    end
  (* the reader *)
  | APop =>
    match queue s, r_pc s with
    | l :: q, RdNone => Some (with_r s (r_ptrs s) (buffered s) (w_pc s) q (RdHolding l))
    | _, _ => None
    end
  | ARelease =>
    match r_pc s with
    | RdHolding l => Some (with_r s (r_ptrs s) (fst (releaseBytes (buffered s) 0 l)) (w_pc s) (queue s) (RdReleased l))
    | _ => None
    end
  | ARCalc est q1 q2 q3 =>
    match r_pc s with
    | RdReleased l => Some (with_calc s (calcSize lim est q1 q2 q3 (buffered s) (calls s) (r_ptrs s)) (w_pc s) (RdCalc l))
    | _ => None
    end
  | ARStore q1 q2 =>
    match r_pc s with
    | RdCalc l => let '(ptrs, a) := sendStatus_cas lim q1 q2 (buffered s) l (r_ptrs s) in
                      Some (with_r s ptrs (buffered s) (w_pc s) (queue s) (RdStored a))
    | _ => None
    end
  | AREmit =>
    match r_pc s with
    | RdStored a => Some (with_r (with_net s (data s) (acks s ++ ack_list a))
                            (r_ptrs s) (buffered s) (w_pc s) (queue s) RdNone)
    | _ => None
    end
  end.

(** The session counter is not negative, and a buffer is less than 4 GiB. *)
Definition action_ok (a : action) : Prop :=
  match a with
  | AWriteTo buf off => 0 <= off /\ Z.of_nat (length buf) < 2 ^ 32
  | AWCalc _ q1 q2 q3 | ARCalc _ q1 q2 q3 => 0 <= q1 /\ 0 <= q2 /\ 0 <= q3
  | AWStore q1 q2 | ARStore q1 q2 => 0 <= q1 /\ 0 <= q2
  | _ => True
  end.

(** The two looks [sendStatus] takes at the session counter agree. *)
Definition steady (a : action) : Prop :=
  match a with ARStore q1 q2 => q1 = q2 | _ => True end.

Inductive freach (lim : limits) (ok : action -> Prop) : fstate -> Prop :=
| freach_init : freach lim ok f_init
| freach_step s a s' : freach lim ok s -> action_ok a -> ok a -> exec lim a s = Some s' -> freach lim ok s'.

(** ** Where the outstanding bytes are *)
Definition zsum (ls : list Z) : Z := foldr Z.add 0 ls.
Definition all_pos (ls : list Z) : Prop := Forall (fun l => 1 <= l) ls.

Lemma zsum_app a b : zsum (a ++ b) = zsum a + zsum b.
Proof. unfold zsum. induction a; simpl; lia. Qed.

Lemma zsum_pos ls : all_pos ls -> 0 <= zsum ls /\ (zsum ls = 0 -> ls = []).
Proof. unfold zsum. induction 1 as [|l ls Hl _ [IH1 IH2]]; simpl; [done|]. split; lia. Qed.

Definition in_write (w : wpc) : Z :=
  match w with WGot l | WCalc l | WStored l _ | WReserved l _ => l | _ => 0 end.
Definition write_reserved (w : wpc) : Z := match w with WReserved l _ => l | _ => 0 end.
Definition write_ack (w : wpc) : option (Z * Z) :=
  match w with WStored _ a | WReserved _ a | WPushed a => a | _ => None end.
Definition in_read (r : rdpc) : Z := match r with RdHolding l | RdReleased l | RdCalc l => l | _ => 0 end.
Definition read_held (r : rdpc) : Z := match r with RdHolding l => l | _ => 0 end.
Definition read_ack (r : rdpc) : option (Z * Z) := match r with RdStored a => a | _ => None end.
Definition in_send (p : spc) : Z := match p with SSent n => n | _ => 0 end.

Definition wpc_pos (w : wpc) : Prop :=
  match w with WGot l | WCalc l | WStored l _ | WReserved l _ => 1 <= l | _ => True end.
Definition rdpc_pos (r : rdpc) : Prop := match r with RdHolding l | RdReleased l | RdCalc l => 1 <= l | _ => True end.

(** The fields of the two words: size, count, wait flag. *)
Record words (s : fstate) (ms out : Z) (wt : bool) (mr rd : Z) (wr : bool) : Prop := {
  w_s : wnd_unpack (s_ptrs s) = (ms, out, wt);
  w_r : wnd_unpack (r_ptrs s) = (mr, rd, wr);
}.

(** What is counted as sent is in exactly one place. *)
Definition accounted (s : fstate) (rd : Z) : Z :=
  in_send (s_pc s) + zsum (data s) + in_write (w_pc s) + zsum (queue s) + in_read (r_pc s) +
  rd + ack_read (write_ack (w_pc s)) + ack_read (read_ack (r_pc s)) + zsum (acks s).*2.

Record finv (lim : limits) (s : fstate) (ms out : Z) (wt : bool) (mr rd : Z) (wr : bool) : Prop := {
  fi_words : words s ms out wt mr rd wr;
  fi_conserve : out = accounted s rd;
  fi_buffered : buffered s = write_reserved (w_pc s) + zsum (queue s) + read_held (r_pc s);
  fi_ms : 1 <= ms <= connLimit lim;
  fi_mr : 1 <= mr <= connLimit lim;
  fi_out : 0 <= out <= connLimit lim;
  fi_rd : 0 <= rd;
  fi_data : all_pos (data s);
  fi_queue : all_pos (queue s);
  fi_wpc : wpc_pos (w_pc s);
  fi_rpc : rdpc_pos (r_pc s);
  fi_acks : Forall (fun a => ack_ok lim (Some a)) (acks s);
  fi_wack : ack_ok lim (write_ack (w_pc s));
  fi_rack : ack_ok lim (read_ack (r_pc s));
  fi_wait : wt = true -> ms <= out;
  fi_sending : forall n, s_pc s = SSend n -> 1 <= n /\ out + n <= connLimit lim /\ wt = false;
  fi_sent : forall n, s_pc s = SSent n -> 1 <= n /\ wt = false;
  fi_waiting : s_pc s = SWaiting -> s_token s = true \/ s_allow s = true \/ wt = true;
  fi_valid : s_invalid s = false;
}.

Lemma acks_nonneg lim al : Forall (fun a => ack_ok lim (Some a)) al -> 0 <= zsum al.*2.
Proof.
  unfold zsum. induction 1 as [|[m r] al [_ Hr] _ IH]; csimpl; [done|]. unfold field31 in Hr. lia.
Qed.

Lemma ack_read_nonneg lim a : ack_ok lim a -> 0 <= ack_read a.
Proof. destruct a as [[m r]|]; simpl; [|done]. unfold field31. lia. Qed.

(** Every part of the account is non-negative, hence at most [out]. *)
Lemma finv_parts lim s ms out wt mr rd wr :
  finv lim s ms out wt mr rd wr ->
  0 <= in_send (s_pc s) /\ 0 <= zsum (data s) /\ 0 <= in_write (w_pc s) /\ 0 <= zsum (queue s) /\
  0 <= in_read (r_pc s) /\ 0 <= ack_read (write_ack (w_pc s)) /\ 0 <= ack_read (read_ack (r_pc s)) /\
  0 <= zsum (acks s).*2 /\ 0 <= write_reserved (w_pc s) <= in_write (w_pc s) /\
  0 <= read_held (r_pc s) <= in_read (r_pc s).
Proof.
  intros H. destruct (zsum_pos _ (fi_data _ _ _ _ _ _ _ _ H)) as [Hd _].
  destruct (zsum_pos _ (fi_queue _ _ _ _ _ _ _ _ H)) as [Hq _].
  pose proof (acks_nonneg _ _ (fi_acks _ _ _ _ _ _ _ _ H)).
  pose proof (ack_read_nonneg _ _ (fi_wack _ _ _ _ _ _ _ _ H)).
  pose proof (ack_read_nonneg _ _ (fi_rack _ _ _ _ _ _ _ _ H)).
  pose proof (fi_wpc _ _ _ _ _ _ _ _ H). pose proof (fi_rpc _ _ _ _ _ _ _ _ H).
  assert (0 <= in_send (s_pc s)).
  { destruct (s_pc s) as [| |n|n] eqn:E; simpl; try lia. destruct (fi_sent _ _ _ _ _ _ _ _ H n E). lia. }
  split_and!; try done; destruct (w_pc s), (r_pc s); simpl in *; lia.
Qed.

Lemma finv_init lim : wf_limits lim ->
  finv lim f_init defaultInitialConnWindow 0 false defaultInitialConnWindow 0 false.
Proof.
  intros [Hc _]. destruct window_constants as (Hd & Hm & _). unfold f_init.
  assert (Hu : wnd_unpack (wnd_pack defaultInitialConnWindow 0 false) = (defaultInitialConnWindow, 0, false))
    by (apply wnd_unpack_pack; unfold field31; lia).
  generalize dependent (wnd_pack defaultInitialConnWindow 0 false). intros p Hu.
  split; simpl; try done; try lia; by constructor.
Qed.

(** The buffered bytes fit the window. *)
Lemma finv_buffered lim s ms out wt mr rd wr :
  wf_limits lim -> finv lim s ms out wt mr rd wr ->
  0 <= buffered s <= out /\ out < 2 ^ 31 /\ buffered s < 2 ^ 31.
Proof.
  intros [Hl _] H. destruct (finv_parts _ _ _ _ _ _ _ _ H) as (? & ? & ? & ? & ? & ? & ? & ? & ? & ?).
  pose proof (fi_conserve _ _ _ _ _ _ _ _ H) as Hc. unfold accounted in Hc.
  pose proof (fi_rd _ _ _ _ _ _ _ _ H). pose proof (fi_out _ _ _ _ _ _ _ _ H).
  rewrite (fi_buffered _ _ _ _ _ _ _ _ H). destruct window_constants as (_ & Hm & _). rewrite Hm in Hl. lia.
Qed.

Ltac fin_fields H :=
  destruct H as [[Hus Hur] Hcons Hbuf Hms Hmr Hout Hrd Hdata Hqueue Hwpc Hrpc Hacks Hwack Hrack Hwait
    Hsending Hsent Hwaiting Hvalid].

Ltac fsplit := split; simpl in *; try done; try (unfold accounted; simpl; lia).

(** *** The writer *)
Lemma finv_WriteTo lim s ms out wt mr rd wr buf off s' :
  wf_limits lim -> finv lim s ms out wt mr rd wr -> action_ok (AWriteTo buf off) ->
  exec lim (AWriteTo buf off) s = Some s' ->
  exists wt', finv lim s' ms out wt' mr rd wr.
Proof.
  intros Hl H [Ho Hb] E. unfold exec in E. destruct (s_pc s) eqn:Ep; try done.
  destruct (WriteTo buf off (s_ptrs s)) as [|ptrs|p part] eqn:Ew; simplify_eq/=.
  - exists true. fin_fields H. unfold WriteTo in Ew. rewrite Hus in Ew. if_case_in Ew; [done|].
    destruct (wnd_unpack_range _ _ _ _ Hus) as [Hm Hs]. rewrite sw_remaining_val in Ew by done.
    destruct (Z.eqb_spec (Z.max 0 (ms - out)) 0); [|done]. injection Ew as <-.
    unfold accounted in Hcons. rewrite Ep in Hcons.
    fsplit; auto. split; simpl; [by apply wnd_unpack_pack|done].
  - exists wt. destruct (WriteTo_segment _ _ _ _ _ Ho Hb Ew) as (rest & _ & Hne & _ & _ & Hfit).
    fin_fields H. specialize (Hfit _ _ _ Hus). unfold accounted in Hcons. rewrite Ep in Hcons.
    assert (1 <= Z.of_nat (length p)) by (destruct p; [done|simpl; lia]).
    fsplit. intros n [= <-]. split_and!; try lia. destruct wt; [|done]. specialize (Hwait eq_refl). lia.
Qed.

Lemma finv_Sent lim s ms out wt mr rd wr s' :
  wf_limits lim -> finv lim s ms out wt mr rd wr -> exec lim ASent s = Some s' ->
  exists out', finv lim s' ms out' wt mr rd wr.
Proof.
  intros [Hl _] H E. unfold exec in E. destruct (s_pc s) as [| |n|] eqn:Ep; try done. fin_fields H.
  destruct (Hsending n Ep) as (Hn & Hle & ->). destruct window_constants as (_ & Hm & _).
  destruct (sw_sent_word n _ _ _ _ Hus) as (p & Esent & Hup); [lia..|]. rewrite Esent in E. injection E as <-.
  exists (out + n). unfold accounted in Hcons. rewrite Ep in Hcons.
  fsplit. intros n' [= <-]. done.
Qed.

Lemma finv_Emit lim s ms out wt mr rd wr s' :
  finv lim s ms out wt mr rd wr -> exec lim AEmit s = Some s' -> finv lim s' ms out wt mr rd wr.
Proof.
  intros H E. unfold exec in E. destruct (s_pc s) as [| | |n] eqn:Ep; simplify_eq/=. fin_fields H.
  destruct (Hsent n Ep) as (Hn & ->). unfold accounted in Hcons. rewrite Ep in Hcons.
  fsplit.
  - unfold accounted. simpl. rewrite zsum_app. simpl. lia.
  - apply Forall_app. split; [done|]. by constructor.
Qed.

Lemma finv_Rollback lim s ms out wt mr rd wr s' :
  wf_limits lim -> finv lim s ms out wt mr rd wr -> exec lim ARollback s = Some s' ->
  exists out', finv lim s' ms out' wt mr rd wr.
Proof.
  intros Hl H E. pose proof (finv_parts _ _ _ _ _ _ _ _ H) as (? & ? & ? & ? & ? & ? & ? & ? & _).
  unfold exec in E. destruct (s_pc s) as [| | |n] eqn:Ep; simplify_eq/=. fin_fields H.
  destruct (Hsent n Ep) as (Hn & ->). unfold accounted in Hcons. rewrite Ep in Hcons. simpl in Hcons.
  exists (out - n). fsplit. split; simpl; [|done]. apply rollback_word; [done|lia].
Qed.

Lemma finv_Wake lim s ms out wt mr rd wr s' a :
  a = AWake \/ a = ATimeout ->
  finv lim s ms out wt mr rd wr -> exec lim a s = Some s' -> finv lim s' ms out wt mr rd wr.
Proof.
  intros Ha H E. destruct (s_pc s) eqn:Ep; destruct Ha as [-> | ->]; unfold exec in E; rewrite Ep in E;
    try destruct (s_token s); simplify_eq/=; fin_fields H; unfold accounted in Hcons; rewrite Ep in Hcons;
    fsplit.
Qed.

(** *** The sender's read loop *)
Lemma finv_Ack lim s ms out wt mr rd wr s' :
  wf_limits lim -> finv lim s ms out wt mr rd wr -> exec lim AAck s = Some s' ->
  exists ms' out' wt', finv lim s' ms' out' wt' mr rd wr.
Proof.
  intros [Hl _] H E. pose proof (finv_parts _ _ _ _ _ _ _ _ H) as (? & ? & ? & ? & ? & ? & ? & _ & _).
  destruct window_constants as (_ & Hm & _).
  unfold exec in E. destruct (acks s) as [|[m r] rest] eqn:Ea; [done|].
  destruct (s_allow s) eqn:Eal; [done|]. fin_fields H. unfold accounted in Hcons. rewrite Ea in Hcons.
  rewrite Ea in Hacks. apply Forall_cons in Hacks as [[Hmr0 Hr0] Hrest]. pose proof (acks_nonneg _ _ Hrest).
  csimpl in Hcons. unfold field31 in Hr0.
  assert (Hle : r <= out) by lia.
  assert (Hcur : wnd_unpack (wnd_pack m r false) = (m, r, false)) by (apply wnd_unpack_pack; unfold field31; lia).
  destruct (SetSize_word _ _ _ _ _ _ _ Hcur Hus Hle) as [(Es & -> & ->)|(p & nw & Es & Hup & Hnw)];
    rewrite Es in E; injection E as <-.
  - exists ms, out, wt. fsplit.
  - exists m, (out - r), nw. fsplit.
    + intros ->. zbool. lia.
    + intros n Hn. destruct (Hsending n Hn) as (? & ? & ->). rewrite andb_false_r in Hnw. split_and!; try done; lia.
    + intros n Hn. destruct (Hsent n Hn) as (? & ->). by rewrite andb_false_r in Hnw.
    + intros Hw. destruct (Hwaiting Hw) as [?|[?| -> ]]; [by left|congruence|]. destruct nw; auto.
Qed.

Lemma finv_Allow lim s ms out wt mr rd wr s' :
  finv lim s ms out wt mr rd wr -> exec lim AAllow s = Some s' -> finv lim s' ms out wt mr rd wr.
Proof.
  intros H E. unfold exec in E. destruct (s_allow s); simplify_eq/=. fin_fields H.
  unfold accounted in Hcons. fsplit.
Qed.

(** *** The receiver's read loop *)
Lemma finv_Data lim s ms out wt mr rd wr s' :
  finv lim s ms out wt mr rd wr -> exec lim AData s = Some s' -> finv lim s' ms out wt mr rd wr.
Proof.
  intros H E. unfold exec in E. destruct (data s) as [|l rest] eqn:Ed; [done|].
  destruct (w_pc s) eqn:Ew; simplify_eq/=. fin_fields H. unfold accounted in Hcons.
  rewrite Ed, Ew in *. inversion_clear Hdata. fsplit.
Qed.

Lemma finv_Calc lim s ms out wt mr rd wr est q1 q2 q3 w' r' :
  wf_limits lim -> finv lim s ms out wt mr rd wr -> 0 <= q3 ->
  (exists l, w_pc s = WGot l /\ w' = WCalc l /\ r' = r_pc s) \/
  (exists l, r_pc s = RdReleased l /\ r' = RdCalc l /\ w' = w_pc s) ->
  exists mr', finv lim (with_calc s (calcSize lim est q1 q2 q3 (buffered s) (calls s) (r_ptrs s)) w' r')
    ms out wt mr' rd wr.
Proof.
  intros Hl H Hq Hor. destruct (finv_buffered _ _ _ _ _ _ _ _ Hl H) as (Hb & _ & Hb2).
  set (c := calcSize lim est q1 q2 q3 (buffered s) (calls s) (r_ptrs s)).
  destruct (calcSize_word _ _ _ _ _ _ _ _ _ _ _ _ _ Hl Hq (conj (proj1 Hb) Hb2) (w_r _ _ _ _ _ _ _ (fi_words _ _ _ _ _ _ _ _ H))
    (fi_mr _ _ _ _ _ _ _ _ H) (surjective_pairing c)) as (mr' & Hu & Hm). clearbody c. exists mr'.
  fin_fields H. unfold accounted in Hcons.
  destruct Hor as [(l & Hw & -> & ->)|(l & Hr & -> & ->)]; [rewrite Hw in *|rewrite Hr in *]; fsplit.
Qed.

Lemma finv_WStore lim s ms out wt mr rd wr q1 q2 s' :
  wf_limits lim -> finv lim s ms out wt mr rd wr -> 0 <= q1 ->
  exec lim (AWStore q1 q2) s = Some s' ->
  exists mr' rd' wr', finv lim s' ms out wt mr' rd' wr'.
Proof.
  intros Hl H Hq E. destruct (finv_buffered _ _ _ _ _ _ _ _ Hl H) as (Hb & _ & Hb2). unfold exec in E.
  destruct (w_pc s) as [| |l| | |] eqn:Ew; try done.
  destruct (rw_write_cas lim q1 q2 (buffered s) l (r_ptrs s)) as [ptrs a] eqn:Ec. injection E as <-.
  destruct (rw_write_word _ _ _ _ _ _ _ _ _ _ _ Hl Hq (conj (proj1 Hb) Hb2)
    (w_r _ _ _ _ _ _ _ (fi_words _ _ _ _ _ _ _ _ H)) Ec) as (mr' & rd' & wr' & Hu & Hm & Hr & Ha & Hf).
  exists mr', rd', wr'. fin_fields H. unfold accounted in Hcons. rewrite Ew in *. unfold field31 in Hf. fsplit.
Qed.

Lemma finv_WReserve lim s ms out wt mr rd wr s' :
  wf_limits lim -> finv lim s ms out wt mr rd wr -> exec lim AWReserve s = Some s' ->
  finv lim s' ms out wt mr rd wr.
Proof.
  intros Hl H E. destruct (finv_buffered _ _ _ _ _ _ _ _ Hl H) as (Hb & Ho & Hb2).
  pose proof (finv_parts _ _ _ _ _ _ _ _ H) as (? & ? & ? & ? & ? & ? & ? & ? & _ & Hrh).
  unfold exec in E. destruct (w_pc s) as [| | |l a| |] eqn:Ew; simplify_eq/=.
  assert (Hfit : buffered s + l <= out).
  { rewrite (fi_buffered _ _ _ _ _ _ _ _ H), (fi_conserve _ _ _ _ _ _ _ _ H), Ew. unfold accounted.
    rewrite Ew. simpl. pose proof (fi_rd _ _ _ _ _ _ _ _ H). lia. }
  fin_fields H. unfold accounted in Hcons. rewrite Ew in *. simpl in *.
  assert (Hres : fst (reserveBytes (buffered s) 0 l) = buffered s + l).
  { unfold reserveBytes. destruct (Z.eqb_spec l 0); [lia|]. simpl. unfold u32. apply wrap_small.
    unfold is_uint. lia. }
  fsplit.
Qed.

Lemma finv_WPush lim s ms out wt mr rd wr s' :
  finv lim s ms out wt mr rd wr -> exec lim AWPush s = Some s' -> finv lim s' ms out wt mr rd wr.
Proof.
  intros H E. unfold exec in E. destruct (w_pc s) as [| | | |l a|] eqn:Ew; simplify_eq/=. fin_fields H.
  unfold accounted in Hcons. rewrite Ew in *. simpl in *.
  assert (Hz : zsum (queue s ++ [l]) = zsum (queue s) + l) by (rewrite zsum_app; simpl; lia).
  fsplit. apply Forall_app. split; [done|]. by constructor.
Qed.

Lemma zsum_acks_app al a : zsum (al ++ ack_list a).*2 = zsum al.*2 + ack_read a.
Proof. rewrite fmap_app, zsum_app. destruct a as [[m r]|]; simpl; lia. Qed.

Lemma acks_app_ok lim al a :
  Forall (fun a => ack_ok lim (Some a)) al -> ack_ok lim a ->
  Forall (fun a => ack_ok lim (Some a)) (al ++ ack_list a).
Proof. intros H1 H2. apply Forall_app. split; [done|]. destruct a; simpl; [|done]. by constructor. Qed.

Lemma finv_WEmit lim s ms out wt mr rd wr s' :
  finv lim s ms out wt mr rd wr -> exec lim AWEmit s = Some s' -> finv lim s' ms out wt mr rd wr.
Proof.
  intros H E. unfold exec in E. destruct (w_pc s) as [| | | | |a] eqn:Ew; simplify_eq/=. fin_fields H.
  unfold accounted in Hcons. rewrite Ew in *. simpl in *. pose proof (zsum_acks_app (acks s) a).
  fsplit. by apply acks_app_ok.
Qed.

(** *** The reader *)
Lemma finv_Pop lim s ms out wt mr rd wr s' :
  finv lim s ms out wt mr rd wr -> exec lim APop s = Some s' -> finv lim s' ms out wt mr rd wr.
Proof.
  intros H E. unfold exec in E. destruct (queue s) as [|l rest] eqn:Eq; [done|].
  destruct (r_pc s) eqn:Er; simplify_eq/=. fin_fields H. unfold accounted in Hcons.
  rewrite Eq, Er in *. inversion_clear Hqueue. fsplit.
Qed.

Lemma finv_Release lim s ms out wt mr rd wr s' :
  wf_limits lim -> finv lim s ms out wt mr rd wr -> exec lim ARelease s = Some s' ->
  finv lim s' ms out wt mr rd wr.
Proof.
  intros Hl H E. destruct (finv_buffered _ _ _ _ _ _ _ _ Hl H) as (Hb & Ho & Hb2).
  pose proof (finv_parts _ _ _ _ _ _ _ _ H) as (? & ? & ? & ? & ? & ? & ? & ? & ? & _).
  unfold exec in E. destruct (r_pc s) as [|l| | |] eqn:Er; simplify_eq/=.
  fin_fields H. unfold accounted in Hcons. rewrite Er in *. simpl in *.
  assert (Hrel : fst (releaseBytes (buffered s) 0 l) = buffered s - l).
  { unfold releaseBytes. destruct (Z.eqb_spec l 0); [lia|]. simpl. unfold u32.
    rewrite add_bnot_pred by lia. apply wrap_small. unfold is_uint. lia. }
  fsplit.
Qed.

Lemma finv_RStore lim s ms out wt mr rd wr q1 q2 s' :
  wf_limits lim -> finv lim s ms out wt mr rd wr -> 0 <= q1 ->
  exec lim (ARStore q1 q2) s = Some s' ->
  exists mr' rd' wr', finv lim s' ms out wt mr' rd' wr' /\ (buffered s' = 0 -> q1 = q2 -> rd' = 0).
Proof.
  intros Hl H Hq E. destruct (finv_buffered _ _ _ _ _ _ _ _ Hl H) as (Hb & Ho & Hb2).
  pose proof (finv_parts _ _ _ _ _ _ _ _ H) as (? & ? & ? & ? & ? & ? & ? & ? & _).
  unfold exec in E. destruct (r_pc s) as [| | |l|] eqn:Er; try done.
  destruct (sendStatus_cas lim q1 q2 (buffered s) l (r_ptrs s)) as [ptrs a] eqn:Ec. injection E as <-.
  fin_fields H. unfold accounted in Hcons. rewrite Er in *. simpl in *.
  assert (Hl0 : 0 <= l) by lia. assert (Hsum : rd + l < 2 ^ 31) by lia.
  destruct (sendStatus_word _ _ _ _ _ _ _ _ _ _ _ Hl Hq (conj (proj1 Hb) Hb2) Hl0 Hur Hsum Ec)
    as (mr' & rd' & wr' & Hu & Hm & Hr & Ha & Hf & Hst).
  exists mr', rd', wr'. unfold field31 in Hf. split; [fsplit|]. intros Hb0 Hq12. by apply Hst.
Qed.

Lemma finv_REmit lim s ms out wt mr rd wr s' :
  finv lim s ms out wt mr rd wr -> exec lim AREmit s = Some s' -> finv lim s' ms out wt mr rd wr.
Proof.
  intros H E. unfold exec in E. destruct (r_pc s) as [| | | |a] eqn:Er; simplify_eq/=. fin_fields H.
  unfold accounted in Hcons. rewrite Er in *. simpl in *. pose proof (zsum_acks_app (acks s) a).
  fsplit. by apply acks_app_ok.
Qed.

(** ** Along a run *)

(** Nothing of what the reader has consumed is unreported once everything has been
    consumed. *)
Definition reported (s : fstate) (rd : Z) : Prop :=
  buffered s = 0 ->
  match r_pc s with RdNone | RdStored _ => True | _ => False end ->
  match w_pc s with WStored _ _ => False | _ => True end -> rd = 0.

Lemma finv_step lim s a s' ms out wt mr rd wr :
  wf_limits lim -> finv lim s ms out wt mr rd wr -> action_ok a -> exec lim a s = Some s' ->
  exists ms' out' wt' mr' rd' wr', finv lim s' ms' out' wt' mr' rd' wr' /\
    (steady a -> reported s rd -> reported s' rd').
Proof.
  intros Hl H Ha E.
  assert (Hsame : forall ms' out' wt' mr' rd' wr', finv lim s' ms' out' wt' mr' rd' wr' ->
    rd' = rd -> buffered s' = buffered s -> r_pc s' = r_pc s -> w_pc s' = w_pc s ->
    exists ms' out' wt' mr' rd' wr', finv lim s' ms' out' wt' mr' rd' wr' /\
      (steady a -> reported s rd -> reported s' rd')).
  { intros ms' out' wt' mr' rd' wr' H' -> Hb Hr Hw. do 6 eexists. split; [exact H'|].
    unfold reported. by rewrite Hb, Hr, Hw. }
  destruct a.
  - destruct (finv_WriteTo _ _ _ _ _ _ _ _ _ _ _ Hl H Ha E) as [wt' H']. eapply Hsame; [exact H'|done|..];
      unfold exec in E; destruct (s_pc s), (WriteTo buf off (s_ptrs s)); by simplify_eq/=.
  - destruct (finv_Sent _ _ _ _ _ _ _ _ _ Hl H E) as [out' H']. eapply Hsame; [exact H'|done|..];
      unfold exec in E; destruct (s_pc s); try done; destruct (sw_sent _ _); by simplify_eq/=.
  - eapply Hsame; [by eapply finv_Emit|done|..]; unfold exec in E; destruct (s_pc s); by simplify_eq/=.
  - destruct (finv_Rollback _ _ _ _ _ _ _ _ _ Hl H E) as [out' H']. eapply Hsame; [exact H'|done|..];
      unfold exec in E; destruct (s_pc s); by simplify_eq/=.
  - eapply Hsame; [by apply (finv_Wake _ _ _ _ _ _ _ _ _ AWake (or_introl eq_refl) H E)|done|..]; unfold exec in E; destruct (s_pc s), (s_token s); by simplify_eq/=.
  - eapply Hsame; [by apply (finv_Wake _ _ _ _ _ _ _ _ _ ATimeout (or_intror eq_refl) H E)|done|..]; unfold exec in E; destruct (s_pc s); by simplify_eq/=.
  - destruct (finv_Ack _ _ _ _ _ _ _ _ _ Hl H E) as (ms' & out' & wt' & H'). eapply Hsame; [exact H'|done|..];
      unfold exec in E; destruct (acks s) as [|[] ?], (s_allow s); try done; destruct (SetSize _ _); by simplify_eq/=.
  - eapply Hsame; [by eapply finv_Allow|done|..]; unfold exec in E; destruct (s_allow s); by simplify_eq/=.
  - pose proof (finv_Data _ _ _ _ _ _ _ _ _ H E) as H'. do 6 eexists. split; [exact H'|].
    unfold exec in E. destruct (data s), (w_pc s) eqn:Ew; simplify_eq/=. unfold reported. simpl. by rewrite Ew.
  - unfold exec in E. destruct (w_pc s) as [|l| | | |] eqn:Ew; try done. destruct Ha as (_ & _ & Hq3).
    destruct (finv_Calc _ _ _ _ _ _ _ _ est q1 q2 q3 (WCalc l) (r_pc s) Hl H Hq3) as [mr' H']; [left; by exists l|].
    injection E as <-. do 6 eexists. split; [exact H'|]. unfold reported. simpl. by rewrite Ew.
  - destruct Ha as [Hq1 _]. destruct (finv_WStore _ _ _ _ _ _ _ _ _ _ _ Hl H Hq1 E) as (mr' & rd' & wr' & H').
    do 6 eexists. split; [exact H'|]. intros _ _. unfold exec in E. destruct (w_pc s); try done.
    destruct (rw_write_cas _ _ _ _ _ _); simplify_eq/=. unfold reported. by simpl.
  - pose proof (finv_WReserve _ _ _ _ _ _ _ _ _ Hl H E) as H'. do 6 eexists. split; [exact H'|]. intros _ _.
    pose proof (finv_parts _ _ _ _ _ _ _ _ H') as (_ & _ & _ & ? & _ & _ & _ & _ & _ & ?).
    unfold reported. rewrite (fi_buffered _ _ _ _ _ _ _ _ H'). pose proof (fi_wpc _ _ _ _ _ _ _ _ H').
    unfold exec in E. destruct (w_pc s) eqn:Ew; simplify_eq/=. lia.
  - pose proof (finv_WPush _ _ _ _ _ _ _ _ _ H E) as H'. do 6 eexists. split; [exact H'|]. intros _ Hrep Hb0.
    pose proof (finv_parts _ _ _ _ _ _ _ _ H) as (_ & _ & _ & ? & _ & _ & _ & _ & _ & ?).
    pose proof (fi_buffered _ _ _ _ _ _ _ _ H) as Hb. pose proof (fi_wpc _ _ _ _ _ _ _ _ H).
    unfold exec in E. destruct (w_pc s) eqn:Ew; simplify_eq/=. lia.
  - pose proof (finv_WEmit _ _ _ _ _ _ _ _ _ H E) as H'. do 6 eexists. split; [exact H'|].
    unfold exec in E. destruct (w_pc s) eqn:Ew; simplify_eq/=. unfold reported. simpl. by rewrite Ew.
  - pose proof (finv_Pop _ _ _ _ _ _ _ _ _ H E) as H'. do 6 eexists. split; [exact H'|].
    unfold exec in E. destruct (queue s), (r_pc s); simplify_eq/=. unfold reported. by simpl.
  - pose proof (finv_Release _ _ _ _ _ _ _ _ _ Hl H E) as H'. do 6 eexists. split; [exact H'|].
    unfold exec in E. destruct (r_pc s); simplify_eq/=. unfold reported. by simpl.
  - unfold exec in E. destruct (r_pc s) as [| |l| |] eqn:Er; try done. destruct Ha as (_ & _ & Hq3).
    destruct (finv_Calc _ _ _ _ _ _ _ _ est q1 q2 q3 (w_pc s) (RdCalc l) Hl H Hq3) as [mr' H']; [right; by exists l|].
    injection E as <-. do 6 eexists. split; [exact H'|]. unfold reported. by simpl.
  - destruct Ha as [Hq1 _]. destruct (finv_RStore _ _ _ _ _ _ _ _ _ _ _ Hl H Hq1 E) as (mr' & rd' & wr' & H' & Hst).
    do 6 eexists. split; [exact H'|]. intros Hsteady _ Hb0 _ _. by apply Hst.
  - pose proof (finv_REmit _ _ _ _ _ _ _ _ _ H E) as H'. do 6 eexists. split; [exact H'|].
    unfold exec in E. destruct (r_pc s) eqn:Er; simplify_eq/=. unfold reported. simpl. by rewrite Er.
Qed.

Lemma freach_inv lim ok s : wf_limits lim -> freach lim ok s ->
  exists ms out wt mr rd wr, finv lim s ms out wt mr rd wr /\
    ((forall a, ok a -> steady a) -> reported s rd).
Proof.
  intros Hl. induction 1 as [|s a s' _ (ms & out & wt & mr & rd & wr & H & Hrep) Ha Hok E].
  - do 6 eexists. split; [by apply finv_init|]. done.
  - destruct (finv_step _ _ _ _ _ _ _ _ _ _ Hl H Ha E) as (ms' & out' & wt' & mr' & rd' & wr' & H' & Hst).
    do 6 eexists. split; [exact H'|]. intros Hs. apply Hst; auto.
Qed.

Fixpoint frun (lim : limits) (acts : list action) (s : fstate) : option fstate :=
  match acts with
  | [] => Some s
  | a :: acts => s ← exec lim a s; frun lim acts s
  end.

Lemma frun_reach lim ok acts : forall s s',
  freach lim ok s -> Forall (fun a => action_ok a /\ ok a) acts -> frun lim acts s = Some s' -> freach lim ok s'.
Proof.
  induction acts as [|a acts IH]; intros s s' Hr Hok; simpl; [by intros [= <-]|].
  apply Forall_cons in Hok as [[Ha Hoka] Hok]. destruct (exec lim a s) as [s1|] eqn:E; [|done].
  cbn [mbind option_bind]. apply IH; [|done]. by eapply freach_step.
Qed.

(** Nothing is in flight and every goroutine but the writer is at rest. *)
Definition idle (s : fstate) : Prop :=
  data s = [] /\ acks s = [] /\ w_pc s = WIdle /\ queue s = [] /\ r_pc s = RdNone /\ s_allow s = false /\
  (s_pc s = SReady \/ s_pc s = SWaiting).

Lemma idle_accounted s rd : idle s -> accounted s rd = rd /\ (forall lim ms out wt mr wr,
  finv lim s ms out wt mr rd wr -> buffered s = 0).
Proof.
  intros (Hd & Ha & Hw & Hq & Hr & _ & Hs). split.
  - unfold accounted. rewrite Hd, Ha, Hw, Hq, Hr. simpl. destruct Hs as [-> | ->]; simpl; lia.
  - intros lim ms out wt mr wr H. rewrite (fi_buffered _ _ _ _ _ _ _ _ H), Hw, Hq, Hr. done.
Qed.

(** The default limits of a multiplexer. *)
Definition example_limits : limits := mkLimits maximumWindowSize (2 ^ 31 - 1).

Lemma example_limits_wf : wf_limits example_limits.
Proof. split; vm_compute; split; congruence. Qed.

Definition no_estimates : estimates := mkEst fzero fzero fzero (fun _ => 0).

(** A frame of [n] bytes travels from the writer to the queue. *)
Definition deliver (n : nat) (q : Z) : list action :=
  [AWriteTo (replicate n x00) 0; ASent; AEmit; AData; AWCalc no_estimates q q q; AWStore q q;
   AWReserve; AWPush; AWEmit].
Definition consume (q1 q2 : Z) : list action :=
  [APop; ARelease; ARCalc no_estimates q1 q1 q1; ARStore q1 q2; AREmit].

(** * Claims *)



(** C10. Flow control does not deadlock.  If the two looks [sendStatus] takes at
    the session counter agree, then whenever nothing is in flight and the reader
    has consumed everything, nothing is outstanding, the window is open, and a
    writer waiting for window has its wake-up token. *)
Theorem flow_control_no_deadlock lim s :
  wf_limits lim -> freach lim steady s -> idle s ->
  (exists ms wt, wnd_unpack (s_ptrs s) = (ms, 0, wt) /\ 1 <= ms) /\
  (s_pc s = SWaiting -> s_token s = true).
Proof.
  intros Hl Hr Hi. destruct (freach_inv lim steady s Hl Hr) as (ms & out & wt & mr & rd & wr & H & Hrep).
  destruct (idle_accounted s rd Hi) as [Hacc Hb0]. specialize (Hb0 _ _ _ _ _ _ H).
  destruct Hi as (_ & _ & Hw & _ & Hrp & Hal & _).
  assert (rd = 0) as -> by (apply Hrep; [done|done|by rewrite Hrp|by rewrite Hw]).
  assert (out = 0) as -> by (rewrite (fi_conserve _ _ _ _ _ _ _ _ H); done).
  pose proof (fi_ms _ _ _ _ _ _ _ _ H). destruct (fi_words _ _ _ _ _ _ _ _ H) as [Hs _]. split.
  - exists ms, wt. split; [done|lia].
  - intros Hsw. destruct (fi_waiting _ _ _ _ _ _ _ _ H Hsw) as [?|[?|Hwt]]; [done|congruence|].
    pose proof (fi_wait _ _ _ _ _ _ _ _ H Hwt). lia.
Qed.

Lemma flow_control_no_deadlock_witness :
  exists s, frun example_limits (deliver 100 0 ++ consume 0 0 ++ [AAck]) f_init = Some s /\
  (exists ms wt, wnd_unpack (s_ptrs s) = (ms, 0, wt) /\ 1 <= ms) /\
  (s_pc s = SWaiting -> s_token s = true).
Proof.
  destruct (frun example_limits (deliver 100 0 ++ consume 0 0 ++ [AAck]) f_init) as [s|] eqn:E;
    [|vm_compute in E; discriminate].
  exists s. split; [reflexivity|].
  apply (flow_control_no_deadlock example_limits).
  - apply example_limits_wf.
  - eapply (frun_reach _ _ (deliver 100 0 ++ consume 0 0 ++ [AAck])); [apply freach_init| |exact E].
    repeat constructor; simpl; lia.
  - vm_compute in E. injection E as <-. repeat split. left. reflexivity.
Defined.

(** Four exchanges, then: the budget of this connection shrinks to 250 bytes while
    it holds 50, the eleventh [calcSize] raises the window without telling the
    sender, and the budget moves between the two looks of the last [sendStatus].
    The session counter is never below the connection's own bytes. *)
Definition stall_limits : limits := mkLimits maximumWindowSize 300000.
Definition exchange : list action := deliver 10 1000 ++ consume 1000 1000 ++ [AAck].
Definition stall_trace : list action :=
  exchange ++ exchange ++ exchange ++ exchange ++
  deliver 50 1000 ++ deliver 100 299800 ++ [AAck] ++
  [AWriteTo (replicate 200 x00) 0; ASent; AEmit; AWriteTo (replicate 100 x00) 0; AData;
   AWCalc no_estimates 1000 1000 1000; AWStore 1000 1000; AWReserve; AWPush; AWEmit] ++
  consume 1000 1000 ++ consume 1000 1000 ++ consume 1000 300000.

(** Without that agreement it can.  There is a run of honest peers after which
    nothing is in flight, the reader has consumed everything, and the writer waits
    for an acknowledgement that will never be sent: only a write deadline can end
    the wait.  [sendStatus] compares a remaining size computed from one value of
    the session counter with a window computed from another. *)
Theorem flow_control_can_stall :
  exists s, freach stall_limits (fun _ => True) s /\ idle s /\ s_pc s = SWaiting /\ s_token s = false /\
    forall a, a <> ATimeout -> exec stall_limits a s = None.
Proof.
  destruct (frun stall_limits stall_trace f_init) as [s|] eqn:E; [|vm_compute in E; discriminate].
  exists s. split.
  { eapply (frun_reach _ _ stall_trace); [apply freach_init| |exact E].
    repeat constructor; simpl; lia. }
  vm_compute in E. injection E as <-. split; [repeat split; right; reflexivity|].
  split; [reflexivity|]. split; [reflexivity|]. intros a Ha. destruct a; try reflexivity. done.
Qed.
