(* ===== verification/MuxCore.v ===== *)
(** Streams of a multiplexer: stream ids, the stream map, opening, accepting and
    closing streams, and the dispatch of received frames.

    Sources: [lib/mux/mux.go] ([ConnMap], [getId], [newConnWithTimeout], [Accept],
    [closeWithReason]), [lib/mux/conn.go] ([Conn]) and [lib/mux/mux_io.go]
    ([sendInfo], [readSession], [enqueueAcceptedConn], [newMsg]).

    A stream is an address into a store of [Conn] records, so that two map entries
    or a map entry and an accepted stream can share one.  The write queue is the
    list of frames it has accepted (its own file shows how it orders them), the
    receive window the list of received payloads; the model is of one goroutine
    after another, the interleavings of the queues and windows are in
    [ReceiveQueue] and [FlowControl]. *)

From S2P Require Import Prelude Packager.
Local Open Scope Z_scope.

Definition MaxInt32 : Z := 2 ^ 31 - 1.

(** ** State *)
Record Conn := mkConn {
  connId : Z;                   (* int32 *)
  c_priority : bool;
  isClose : bool;
  closingFlag : bool;
  writeClosed : bool;
  remoteWriteClosed : bool;
  okCh : bool;                  (* a token in connStatusOkCh *)
  failCh : bool;                (* a token in connStatusFailCh *)
  sw_closed : bool;             (* sendWindow closed *)
  rw_stopped : bool;            (* receiveWindow stopped: readers drain, then see EOF *)
  rw_closed : bool;             (* receiveWindow closed: data is refused *)
  received : list (list byte);
}.

Record out_frame := mkOut { o_flag : Z; o_id : Z; o_priority : bool; o_data : list byte }.

Record Mux := mkMux {
  m_id : Z;                     (* int32 counter *)
  m_isInitiator : bool;         (* the struct field *)
  m_closed : bool;
  remoteCapabilities : Z;
  connMap : gmap Z nat;
  conns : gmap nat Conn;
  newConnCh : list nat;
  backlog : nat;
  outq : list out_frame;
  pings : list (list byte);     (* handed to the ping goroutine *)
}.

Definition NewConn (id : Z) : Conn :=
  mkConn id false false false false false false false false false false [].

(** [NewMuxWithConfig]: [isInitiator] selects the first id; the struct literal has
    no [isInitiator] entry, so the field keeps its zero value. *)
Definition NewMux (isInitiator : bool) (bl : nat) : Mux :=
  mkMux (if isInitiator then -1 else 0) false false 0 ∅ ∅ [] bl [] [].

Definition with_id (m : Mux) (i : Z) : Mux :=
  mkMux i (m_isInitiator m) (m_closed m) (remoteCapabilities m) (connMap m) (conns m) (newConnCh m) (backlog m) (outq m) (pings m).
Definition with_map (m : Mux) (cm : gmap Z nat) : Mux :=
  mkMux (m_id m) (m_isInitiator m) (m_closed m) (remoteCapabilities m) cm (conns m) (newConnCh m) (backlog m) (outq m) (pings m).
Definition with_conns (m : Mux) (cs : gmap nat Conn) : Mux :=
  mkMux (m_id m) (m_isInitiator m) (m_closed m) (remoteCapabilities m) (connMap m) cs (newConnCh m) (backlog m) (outq m) (pings m).
Definition with_outq (m : Mux) (q : list out_frame) : Mux :=
  mkMux (m_id m) (m_isInitiator m) (m_closed m) (remoteCapabilities m) (connMap m) (conns m) (newConnCh m) (backlog m) q (pings m).
Definition with_newConnCh (m : Mux) (ch : list nat) : Mux :=
  mkMux (m_id m) (m_isInitiator m) (m_closed m) (remoteCapabilities m) (connMap m) (conns m) ch (backlog m) (outq m) (pings m).

(** ** The stream map *)
Definition map_Get (m : Mux) (id : Z) : option nat := connMap m !! id.
Definition map_Set (m : Mux) (id : Z) (a : nat) : Mux := with_map m (<[id := a]> (connMap m)).
Definition map_Delete (m : Mux) (id : Z) : Mux := with_map m (delete id (connMap m)).

(** ** Stream ids *)

(** One attempt: the counter is reset near its maximum, then advanced by two. *)
Definition next_id (m : Mux) : Z * Mux :=
  let curID := m_id m in
  let m := if i32 (MaxInt32 - curID) <? 10000
           then with_id m (if m_isInitiator m then -1 else 0) else m in
  let id := i32 (m_id m + 2) in
  (id, with_id m id).

(** [getId] retries while the id is in use; [fuel] bounds the retries. *)
Fixpoint getId (fuel : nat) (m : Mux) : option (Z * Mux) :=
  match fuel with
  | O => None
  | S fuel =>
    let '(id, m) := next_id m in
    match map_Get m id with
    | Some _ => getId fuel m
    | None => Some (id, m)
    end
  end.

(** ** Sending *)

(** [writeQueue.Push] on an open multiplexer. *)
Definition push_frame (m : Mux) (flag id : Z) (prio : bool) (d : list byte) : Mux :=
  if m_closed m then m else with_outq m (outq m ++ [mkOut flag id prio d]).

(** ** Closing a stream *)
Definition upd_conn (m : Mux) (a : nat) (f : Conn -> Conn) : Mux :=
  match conns m !! a with
  | Some c => with_conns m (<[a := f c]> (conns m))
  | None => m
  end.

Definition mark_closed (c : Conn) : Conn :=
  mkConn (connId c) (c_priority c) true true true (remoteWriteClosed c) (okCh c) (failCh c)
    (sw_closed c) (rw_stopped c) (rw_closed c) (received c).
Definition close_windows (c : Conn) : Conn :=
  mkConn (connId c) (c_priority c) (isClose c) (closingFlag c) (writeClosed c) (remoteWriteClosed c)
    (okCh c) (failCh c) true true true [].

(** [closeProcess] runs once per stream: [isClose] is set by it and only by it. *)
Definition closeProcess (m : Mux) (a : nat) (notifyRemote : bool) : Mux :=
  match conns m !! a with
  | None => m
  | Some c =>
    if isClose c then m
    else
      let m := upd_conn m a mark_closed in
      let m := map_Delete m (connId c) in
      let m := if notifyRemote && negb (m_closed m)
               then push_frame m muxConnClose (connId c) (c_priority c) [] else m in
      upd_conn m a close_windows
  end.

Definition SetPriority (m : Mux) (a : nat) : Mux :=
  upd_conn m a (fun c => mkConn (connId c) true (isClose c) (closingFlag c) (writeClosed c) (remoteWriteClosed c)
    (okCh c) (failCh c) (sw_closed c) (rw_stopped c) (rw_closed c) (received c)).

Definition Close (m : Mux) (a : nat) : Mux := closeProcess m a true.
Definition closeLocal (m : Mux) (a : nat) : Mux := closeProcess m a false.

Definition capabilityCloseWrite : Z := 1.
Definition supportsRemoteCapability (m : Mux) (cap : Z) : bool := Z.land (remoteCapabilities m) cap =? cap.

Definition mark_write_closed (c : Conn) : Conn :=
  mkConn (connId c) (c_priority c) (isClose c) (closingFlag c) true (remoteWriteClosed c) (okCh c) (failCh c)
    true (rw_stopped c) (rw_closed c) (received c).

(** [CloseWrite]; [false] is the error "the conn has closed". *)
Definition CloseWrite (m : Mux) (a : nat) : bool * Mux :=
  match conns m !! a with
  | None => (false, m)
  | Some c =>
    if isClose c then (false, m)
    else if negb (supportsRemoteCapability m capabilityCloseWrite) then (true, Close m a)
    else if writeClosed c then (true, m)
    else
      let m := upd_conn m a mark_write_closed in
      (true, push_frame m muxConnCloseWrite (connId c) (c_priority c) [])
  end.

(** ** Closing the multiplexer *)
Definition close_all (m : Mux) : Mux := foldr (fun a m => Close m a) m (map_to_list (connMap m)).*2.

Definition closeWithReason (m : Mux) : Mux :=
  if m_closed m then m
  else
    let m := mkMux (m_id m) (m_isInitiator m) true (remoteCapabilities m) (connMap m) (conns m)
               (newConnCh m) (backlog m) (outq m) (pings m) in
    with_outq (close_all m) [].

(** [sendInfo], without its waiting for the write queue to drain; [false] is an
    error.  A frame that cannot be built closes the multiplexer. *)
Definition sendInfo (m : Mux) (flag id : Z) (prio : bool) (d : list byte) : bool * Mux :=
  if m_closed m then (false, m)
  else if carriesContent flag && negb (set_accepts flag (ArgBytes (Some d)))
  then (false, closeWithReason m)
  else (true, push_frame m flag id prio d).

(** ** Pings *)

(** [pad] is the drawn padding length, [rnd] the bytes [fillPingPad] writes;
    [content] is the pooled buffer, of which [len] bytes were received. *)
Definition preparePingReply (pad : nat) (rnd : list byte) (content : list byte) (len : nat) : list byte :=
  let buf := take len content in
  if (len <=? 8)%nat then take (Nat.min len 8) buf
  else if forallb (fun b => Byte.eqb b x00) (drop 8 buf)
  then take 8 content ++ (if (0 <? pad)%nat then take pad (rnd ++ drop 8 content) else [])
  else buf.

Definition preparePingPayload (pad : nat) (rnd : list byte) (now : Z) : list byte :=
  rev (le_put 8 now) ++ take pad rnd.

(** ** Opening and accepting *)
Definition alloc_conn (m : Mux) (c : Conn) : nat * Mux :=
  let a := fresh (dom (conns m)) in (a, with_conns m (<[a := c]> (conns m))).

(** The first half of [newConnWithTimeout]: the stream is in the map before its
    opening frame is sent. *)
Definition open_start (fuel : nat) (m : Mux) : option (option nat * Mux) :=
  if m_closed m then Some (None, m)
  else
    '(id, m) ← getId fuel m;
    let '(a, m) := alloc_conn m (NewConn id) in
    let m := map_Set m id a in
    let '(ok, m) := sendInfo m muxNewConn id false [] in
    Some (if (ok : bool) then (Some a, m) else (None, closeLocal m a)).

Inductive open_outcome := Opened | Refused | Pending.

(** The second half: the select on the status channels; [timeout] is the timer. *)
Definition open_finish (m : Mux) (a : nat) (timeout : bool) : open_outcome * Mux :=
  match conns m !! a with
  | None => (Pending, m)
  | Some c =>
    if okCh c then (Opened, m)
    else if failCh c || m_closed m || timeout then (Refused, closeLocal m a)
    else (Pending, m)
  end.

Definition enqueueAcceptedConn (m : Mux) (a : nat) (id : Z) : bool * Mux :=
  if m_closed m then (false, m)
  else if (length (newConnCh m) <? backlog m)%nat
  then (true, map_Set (with_newConnCh m (newConnCh m ++ [a])) id a)
  else (false, m).

Definition Accept (m : Mux) : option (nat * Mux) :=
  if m_closed m then None
  else match newConnCh m with
       | [] => None
       | a :: ch => Some (a, with_newConnCh m ch)
       end.

(** ** Received frames *)
Definition set_ok (c : Conn) : Conn :=
  mkConn (connId c) (c_priority c) (isClose c) (closingFlag c) (writeClosed c) (remoteWriteClosed c)
    true (failCh c) (sw_closed c) (rw_stopped c) (rw_closed c) (received c).
Definition set_fail (c : Conn) : Conn :=
  mkConn (connId c) (c_priority c) (isClose c) (closingFlag c) (writeClosed c) (remoteWriteClosed c)
    (okCh c) true (sw_closed c) (rw_stopped c) (rw_closed c) (received c).
Definition remote_close_write (c : Conn) : Conn :=
  mkConn (connId c) (c_priority c) (isClose c) (closingFlag c) (writeClosed c) true (okCh c) (failCh c)
    (sw_closed c) true (rw_closed c) (received c).
Definition remote_close (c : Conn) : Conn :=
  mkConn (connId c) (c_priority c) (isClose c) true (writeClosed c) true (okCh c) (failCh c)
    (sw_closed c) true (rw_closed c) (received c).
Definition receive_data (d : list byte) (c : Conn) : Conn :=
  mkConn (connId c) (c_priority c) (isClose c) (closingFlag c) (writeClosed c) (remoteWriteClosed c) (okCh c)
    (failCh c) (sw_closed c) (rw_stopped c) (rw_closed c) (received c ++ [d]).

(** [newMsg]: data is refused on a closed receive window, and the stream closed. *)
Definition newMsg (m : Mux) (a : nat) (d : list byte) : Mux :=
  match conns m !! a with
  | None => m
  | Some c => if isClose c || rw_closed c then Close m a else upd_conn m a (receive_data d)
  end.

(** One round of [readSession] for an unpacked frame; [reply] is
    [preparePingReply] with its draws. *)
Definition handle_frame (reply : list byte -> list byte) (m : Mux) (flag id : Z) (d : list byte) : Mux :=
  if m_closed m then m
  else if flag =? muxNewConn then
    let '(a, m) := alloc_conn m (NewConn id) in
    let '(ok, m) := enqueueAcceptedConn m a id in
    if (ok : bool) then snd (sendInfo m muxNewConnOk id false [])
    else snd (sendInfo (closeLocal m a) muxNewConnFail id false [])
  else if flag =? muxPingFlag then snd (sendInfo m muxPingReturn muxPing false (reply d))
  else if flag =? muxPingReturn then
    mkMux (m_id m) (m_isInitiator m) (m_closed m) (remoteCapabilities m) (connMap m) (conns m)
      (newConnCh m) (backlog m) (outq m) (pings m ++ [d])
  else if flag =? muxPeerHello then
    mkMux (m_id m) (m_isInitiator m) (m_closed m) (u32 id) (connMap m) (conns m)
      (newConnCh m) (backlog m) (outq m) (pings m)
  else
    match map_Get m id with
    | None => m
    | Some a =>
      match conns m !! a with
      | None => m
      | Some c =>
        if isClose c then m
        else if (flag =? muxNewMsg) || (flag =? muxNewMsgPart) then newMsg m a d
        else if flag =? muxNewConnOk then upd_conn m a set_ok
        else if flag =? muxNewConnFail then upd_conn m a set_fail
        else if flag =? muxConnCloseWrite then upd_conn m a remote_close_write
        else if flag =? muxConnClose then upd_conn m a remote_close
        else m                                 (* muxMsgSendOk: the send window, see FlowControl *)
      end
    end.


(** ** Stream ids *)

(** Even ids cycle through [2, 4, ..., 2 * id_cycle]. *)
Definition id_cycle : Z := 1073736824.
Definition id_index (x : Z) : Z := x / 2 - 1.
Definition even_counter (x : Z) : Prop := exists k, x = 2 * k /\ 0 <= k <= id_cycle.

Lemma next_id_even m :
  m_isInitiator m = false -> even_counter (m_id m) ->
  let id := fst (next_id m) in
  snd (next_id m) = with_id m id /\ even_counter id /\ 2 <= id /\
  id_index id = (id_index (m_id m) + 1) mod id_cycle.
Proof.
  intros Hf (k & Hk & Hr). unfold next_id. rewrite Hk, Hf. unfold MaxInt32, i32.
  rewrite (swrap_small 32 (2 ^ 31 - 1 - 2 * k)) by (unfold is_sint, id_cycle in *; lia).
  assert (Hidx : forall j, id_index (2 * j) = j - 1) by (intros j; unfold id_index; rewrite Z.mul_comm, Z.div_mul; lia).
  destruct (Z.ltb_spec (2 ^ 31 - 1 - 2 * k) 10000) as [Hw|Hw]; cbn [fst snd m_id with_id].
  - replace (swrap 32 (0 + 2)) with (2 * 1) by reflexivity.
    split; [by destruct m|]. split; [exists 1; unfold id_cycle; lia|]. split; [lia|].
    assert (k = id_cycle) as -> by (unfold id_cycle in *; lia). rewrite !Hidx. reflexivity.
  - rewrite Hk. rewrite swrap_small by (unfold is_sint, id_cycle in *; lia).
    replace (2 * k + 2) with (2 * (k + 1)) by lia.
    split; [by destruct m|]. split; [exists (k + 1); unfold id_cycle in *; lia|]. split; [lia|].
    rewrite !Hidx. destruct (decide (k = 0)) as [->|].
    + reflexivity.
    + rewrite Z.mod_small; unfold id_cycle in *; lia.
Qed.

(** The ids [getId] tries, in order. *)
Fixpoint tried_ids (n : nat) (m : Mux) : list Z :=
  match n with
  | O => []
  | S n => let '(id, m) := next_id m in id :: tried_ids n m
  end.

Lemma tried_ids_S n m : tried_ids (S n) m = fst (next_id m) :: tried_ids n (snd (next_id m)).
Proof. reflexivity. Qed.

Lemma tried_ids_length n : forall m, length (tried_ids n m) = n.
Proof. induction n as [|n IH]; intros m; [done|]. rewrite tried_ids_S. simpl. by rewrite IH. Qed.

Lemma tried_ids_index n : forall m j id,
  m_isInitiator m = false -> even_counter (m_id m) -> tried_ids n m !! j = Some id ->
  even_counter id /\ 2 <= id /\ id_index id = (id_index (m_id m) + 1 + Z.of_nat j) mod id_cycle.
Proof.
  induction n as [|n IH]; intros m j id Hf He; [done|]. rewrite tried_ids_S.
  pose proof (next_id_even m Hf He) as (H1 & H2 & H3 & H4).
  generalize dependent (next_id m). intros [i m1]. cbn [fst snd]. intros H1 H2 H3 H4. destruct j as [|j]; simpl.
  - intros [= <-]. split_and!; try done. rewrite H4. f_equal. lia.
  - intros Hj. subst m1. apply IH in Hj; [|by destruct m|by destruct m].
    destruct Hj as (Ha & Hb & Hc). split_and!; try done. rewrite Hc.
    replace (m_id (with_id m i)) with i by (by destruct m). rewrite H4.
    rewrite <- Z.add_assoc, Zplus_mod_idemp_l. f_equal. lia.
Qed.

Lemma tried_ids_nodup n m :
  m_isInitiator m = false -> even_counter (m_id m) -> Z.of_nat n <= id_cycle -> NoDup (tried_ids n m).
Proof.
  intros Hf He Hn. apply NoDup_alt. intros i j x Hi Hj.
  assert (Hlen : forall k y, tried_ids n m !! k = Some y -> (k < n)%nat).
  { intros k y Hk%lookup_lt_Some. by rewrite tried_ids_length in Hk. }
  pose proof (Hlen _ _ Hi). pose proof (Hlen _ _ Hj).
  destruct (tried_ids_index n m i x Hf He Hi) as (_ & _ & H1).
  destruct (tried_ids_index n m j x Hf He Hj) as (_ & _ & H2). rewrite H1 in H2.
  set (b := id_index (m_id m) + 1) in *.
  apply (f_equal (fun z => (z - b) mod id_cycle)) in H2. rewrite !Zminus_mod_idemp_l in H2.
  replace (b + Z.of_nat i - b) with (Z.of_nat i) in H2 by lia.
  replace (b + Z.of_nat j - b) with (Z.of_nat j) in H2 by lia.
  rewrite !Z.mod_small in H2 by lia. lia.
Qed.

Lemma getId_spec fuel : forall m,
  m_isInitiator m = false -> even_counter (m_id m) ->
  match getId fuel m with
  | Some (id, m') => connMap m !! id = None /\ m' = with_id m id /\ even_counter id /\ 2 <= id
  | None => Forall (fun id => is_Some (connMap m !! id)) (tried_ids fuel m)
  end.
Proof.
  induction fuel as [|fuel IH]; intros m Hf He; [constructor|]. rewrite tried_ids_S.
  pose proof (next_id_even m Hf He) as (H1 & H2 & H3 & _). cbn [getId].
  generalize dependent (next_id m). intros [i m1]. cbn [fst snd]. intros -> H2 H3. unfold map_Get.
  change (connMap (with_id m i)) with (connMap m).
  destruct (connMap m !! i) as [a|] eqn:Ei.
  - specialize (IH (with_id m i) Hf H2). destruct (getId fuel (with_id m i)) as [[id m']|]; [done|].
    constructor; [by exists a|done].
  - done.
Qed.

(** Both constructors' counters: the initiator's [-1] is reset by the first draw. *)
Definition ids_ok (m : Mux) : Prop := m_isInitiator m = false /\ (even_counter (m_id m) \/ m_id m = -1).
Definition even_start (m : Mux) : Mux := if m_id m =? -1 then with_id m 0 else m.

Lemma next_id_start m : m_isInitiator m = false -> next_id (even_start m) = next_id m.
Proof.
  intros Hf. unfold even_start. destruct (Z.eqb_spec (m_id m) (-1)) as [E|]; [|done].
  unfold next_id. cbn [m_id with_id m_isInitiator]. rewrite E, Hf. reflexivity.
Qed.

Lemma getId_start fuel m : m_isInitiator m = false -> getId fuel (even_start m) = getId fuel m.
Proof. intros Hf. destruct fuel as [|fuel]; [done|]. cbn [getId]. by rewrite next_id_start. Qed.

Lemma even_start_ok m : ids_ok m ->
  m_isInitiator (even_start m) = false /\ even_counter (m_id (even_start m)) /\
  connMap (even_start m) = connMap m /\ forall i, with_id (even_start m) i = with_id m i.
Proof.
  intros [Hf Hi]. unfold even_start. destruct (Z.eqb_spec (m_id m) (-1)); split_and!; try done.
  - exists 0. cbn. unfold id_cycle. lia.
  - by destruct Hi.
Qed.

Lemma getId_found fuel m id m' : ids_ok m -> getId fuel m = Some (id, m') ->
  connMap m !! id = None /\ m' = with_id m id /\ even_counter id /\ 2 <= id.
Proof.
  intros Hi. destruct (even_start_ok m Hi) as (Hf & He & Hm & Hw).
  rewrite <- (getId_start fuel m) by apply Hi. intros E.
  pose proof (getId_spec fuel _ Hf He) as Hs. rewrite E in Hs. by rewrite Hm, Hw in Hs.
Qed.

(** One more attempt than there are open streams finds a free id. *)
Lemma getId_enough fuel m : ids_ok m -> (size (connMap m) < fuel)%nat -> Z.of_nat fuel <= id_cycle ->
  is_Some (getId fuel m).
Proof.
  intros Hi Hsz Hf'. destruct (even_start_ok m Hi) as (Hf & He & Hm & _).
  rewrite <- (getId_start fuel m) by apply Hi.
  pose proof (getId_spec fuel _ Hf He) as Hs. destruct (getId fuel (even_start m)) as [[id m']|]; [done|].
  exfalso. pose proof (tried_ids_nodup fuel _ Hf He Hf') as Hnd. rewrite Hm in Hs.
  assert (Hsub : list_to_set (tried_ids fuel (even_start m)) ⊆@{gset Z} dom (connMap m)).
  { intros x Hx%elem_of_list_to_set. apply elem_of_dom. by eapply Forall_forall in Hs. }
  apply subseteq_size in Hsub. rewrite size_list_to_set in Hsub by done.
  rewrite size_dom, tried_ids_length in Hsub. lia.
Qed.

(** ** Every mapped stream is open and known under its id *)
Definition map_ok (m : Mux) : Prop :=
  forall id a, connMap m !! id = Some a ->
    exists c, conns m !! a = Some c /\ connId c = id /\ isClose c = false.

Lemma map_ok_upd m a f :
  map_ok m -> (forall c, connId (f c) = connId c /\ isClose (f c) = isClose c) -> map_ok (upd_conn m a f).
Proof.
  intros Hm Hf. unfold upd_conn. destruct (conns m !! a) as [c|] eqn:Ea; [|done].
  intros id b Hb. simpl in Hb. destruct (Hm id b Hb) as (cb & Hcb & Hid & Hcl).
  destruct (decide (a = b)) as [->|Hne]; simpl.
  - rewrite Hcb in Ea. injection Ea as <-. exists (f cb). rewrite lookup_insert_eq.
    destruct (Hf cb) as [-> ->]. done.
  - exists cb. by rewrite lookup_insert_ne.
Qed.

Lemma map_ok_push m flag id p d : map_ok m -> map_ok (push_frame m flag id p d).
Proof. unfold push_frame. by destruct (m_closed m). Qed.

Lemma closeProcess_eq m a n c :
  conns m !! a = Some c -> isClose c = false ->
  connMap (closeProcess m a n) = delete (connId c) (connMap m) /\
  conns (closeProcess m a n) = <[a := close_windows (mark_closed c)]> (conns m) /\
  m_closed (closeProcess m a n) = m_closed m.
Proof.
  intros Ha Hc. unfold closeProcess, upd_conn, push_frame. rewrite Ha, Hc. simpl.
  destruct n, (m_closed m) eqn:Em; simpl; rewrite ?Em; simpl; rewrite lookup_insert_eq; simpl;
    by rewrite insert_insert_eq.
Qed.

Lemma closeProcess_closed m a n : (conns m !! a = None \/ exists c, conns m !! a = Some c /\ isClose c = true) ->
  closeProcess m a n = m.
Proof. unfold closeProcess. by intros [-> |(c & -> & ->)]. Qed.

Lemma map_ok_close m a n : map_ok m -> map_ok (closeProcess m a n).
Proof.
  intros Hm. destruct (conns m !! a) as [c|] eqn:Ha; [|rewrite closeProcess_closed; auto].
  destruct (isClose c) eqn:Hc; [rewrite closeProcess_closed; eauto|].
  destruct (closeProcess_eq m a n c Ha Hc) as (E1 & E2 & _).
  intros id b. rewrite E1, E2. intros [Hne Hb]%lookup_delete_Some.
  destruct (Hm id b Hb) as (cb & Hcb & Hid & Hcl). exists cb. split; [|done].
  rewrite lookup_insert_ne; [done|]. intros <-. congruence.
Qed.

Lemma closeProcess_unmaps m a n : map_ok m ->
  connMap (closeProcess m a n) ⊆ connMap m /\
  (forall id, connMap (closeProcess m a n) !! id <> Some a) /\
  m_closed (closeProcess m a n) = m_closed m.
Proof.
  intros Hm. destruct (conns m !! a) as [c|] eqn:Ha.
  - destruct (isClose c) eqn:Hc.
    + rewrite closeProcess_closed by eauto. split_and!; try done.
      intros id Hid. destruct (Hm id a Hid) as (c' & Hc' & _ & Hcl). congruence.
    + destruct (closeProcess_eq m a n c Ha Hc) as (-> & _ & ->).
      split_and!; [apply delete_subseteq| |done].
      intros id [Hne Hid]%lookup_delete_Some. destruct (Hm id a Hid) as (c' & Hc' & Hi & _). congruence.
  - rewrite closeProcess_closed by eauto. split_and!; try done.
    intros id Hid. destruct (Hm id a Hid) as (c' & Hc' & _). congruence.
Qed.

Lemma close_list_spec ls m : map_ok m ->
  let m' := foldr (fun a m => Close m a) m ls in
  map_ok m' /\ connMap m' ⊆ connMap m /\ (forall a id, a ∈ ls -> connMap m' !! id <> Some a) /\
  m_closed m' = m_closed m.
Proof.
  intros Hm. induction ls as [|a ls IH]; simpl.
  - split_and!; try done. by intros a id ?%not_elem_of_nil.
  - destruct IH as (H1 & H2 & H3 & H4). unfold Close at 1 2 3 4.
    set (m1 := foldr (fun a m => Close m a) m ls) in *.
    destruct (closeProcess_unmaps m1 a true H1) as (H5 & H6 & H7).
    split_and!; [by apply map_ok_close|by etrans| |by etrans].
    intros b id [->|Hb]%elem_of_cons; [apply H6|]. intros Hid. apply (H3 b id Hb).
    eapply lookup_weaken; [exact Hid|done].
Qed.

Lemma close_all_empty m : map_ok m -> map_ok (close_all m) /\ connMap (close_all m) = ∅ /\
  m_closed (close_all m) = m_closed m.
Proof.
  intros Hm. destruct (close_list_spec (map_to_list (connMap m)).*2 m Hm) as (H1 & H2 & H3 & H4).
  fold (close_all m) in *. split_and!; try done. apply map_empty. intros id.
  destruct (connMap (close_all m) !! id) as [a|] eqn:E; [|done].
  exfalso. apply (H3 a id); [|done]. apply list_elem_of_fmap. exists (id, a). split; [done|].
  apply elem_of_map_to_list. by eapply lookup_weaken.
Qed.

(** ** Every operation keeps the map *)
Lemma map_ok_closeWithReason m : map_ok m -> map_ok (closeWithReason m).
Proof.
  intros Hm. unfold closeWithReason. destruct (m_closed m); [done|].
  match goal with |- map_ok (with_outq (close_all ?m0) _) => destruct (close_all_empty m0) as (H & _ & _) end; done.
Qed.

Lemma map_ok_sendInfo m flag id p d : map_ok m -> map_ok (snd (sendInfo m flag id p d)).
Proof.
  intros Hm. unfold sendInfo. destruct (m_closed m) eqn:E; [done|].
  destruct (carriesContent flag && _); [by apply map_ok_closeWithReason|by apply map_ok_push].
Qed.

Lemma fresh_conn m : conns m !! fst (alloc_conn m (NewConn 0)) = None.
Proof. apply not_elem_of_dom, is_fresh. Qed.

(** A new stream under a free address, entered in the map under its id. *)
Lemma map_ok_alloc m id a m1 :
  map_ok m -> alloc_conn m (NewConn id) = (a, m1) ->
  conns m !! a = None /\ conns m1 = <[a := NewConn id]> (conns m) /\ connMap m1 = connMap m /\
  map_ok m1 /\ map_ok (map_Set m1 id a).
Proof.
  intros Hm [= <- <-]. assert (Ha : conns m !! fresh (dom (conns m)) = None) by (apply not_elem_of_dom, is_fresh).
  assert (Hm1 : map_ok (with_conns m (<[fresh (dom (conns m)) := NewConn id]> (conns m)))).
  { intros i b Hb. simpl in Hb. destruct (Hm i b Hb) as (c & Hc & Hr). exists c. split; [|done]. simpl.
    rewrite lookup_insert_ne; [done|]. congruence. }
  split_and!; try done. intros i b. simpl. rewrite lookup_insert_Some. intros [[<- <-]|[Hne Hb]].
  - exists (NewConn id). by rewrite lookup_insert_eq.
  - by apply Hm1.
Qed.

Lemma map_ok_open fuel m r m' : map_ok m -> ids_ok m ->
  open_start fuel m = Some (r, m') -> map_ok m'.
Proof.
  intros Hm Hi. unfold open_start. destruct (m_closed m); [by intros [= _ <-]|].
  destruct (getId fuel m) as [[id m1]|] eqn:Hg; [|done].
  destruct (getId_found _ _ _ _ Hi Hg) as (_ & -> & _). cbn [mbind option_bind].
  assert (Hm0 : map_ok (with_id m id)) by done.
  destruct (alloc_conn (with_id m id) (NewConn id)) as [a m1] eqn:Ea.
  destruct (map_ok_alloc _ _ _ _ Hm0 Ea) as (_ & _ & _ & _ & H5).
  pose proof (map_ok_sendInfo (map_Set m1 id a) muxNewConn id false [] H5) as H6.
  destruct (sendInfo (map_Set m1 id a) muxNewConn id false []) as [[] m2]; intros [= _ <-]; [done|].
  by apply map_ok_close.
Qed.

Lemma map_ok_newMsg m a d : map_ok m -> map_ok (newMsg m a d).
Proof.
  intros Hm. unfold newMsg. destruct (conns m !! a); [|done].
  destruct (_ || _); [by apply map_ok_close|by apply map_ok_upd].
Qed.

Lemma map_ok_handle reply m flag id d : map_ok m -> map_ok (handle_frame reply m flag id d).
Proof.
  intros Hm. unfold handle_frame. destruct (m_closed m) eqn:Ecl; [done|].
  destruct (flag =? muxNewConn).
  { destruct (alloc_conn m (NewConn id)) as [a m1] eqn:Ea.
    destruct (map_ok_alloc _ _ _ _ Hm Ea) as (_ & _ & _ & H4 & H5). unfold enqueueAcceptedConn.
    destruct (m_closed m1); [apply map_ok_sendInfo; by apply map_ok_close|].
    destruct (_ <? _)%nat; [by apply map_ok_sendInfo|apply map_ok_sendInfo; by apply map_ok_close]. }
  destruct (flag =? muxPingFlag); [by apply map_ok_sendInfo|].
  destruct (flag =? muxPingReturn); [done|]. destruct (flag =? muxPeerHello); [done|].
  destruct (map_Get m id) as [a|]; [|done]. destruct (conns m !! a) as [c|]; [|done].
  destruct (isClose c); [done|]. destruct (_ || _); [by apply map_ok_newMsg|].
  repeat (match goal with |- map_ok (if ?b then _ else _) => destruct b end; [by apply map_ok_upd|]). done.
Qed.

Lemma map_ok_CloseWrite m a : map_ok m -> map_ok (snd (CloseWrite m a)).
Proof.
  intros Hm. unfold CloseWrite. destruct (conns m !! a) as [c|]; [|done]. destruct (isClose c); [done|].
  destruct (negb _); [by apply map_ok_close|]. destruct (writeClosed c); [done|].
  apply map_ok_push. by apply map_ok_upd.
Qed.

Lemma map_ok_finish m a t : map_ok m -> map_ok (snd (open_finish m a t)).
Proof.
  intros Hm. unfold open_finish. destruct (conns m !! a) as [c|]; [|done]. destruct (okCh c); [done|].
  destruct (_ || _); [by apply map_ok_close|done].
Qed.

(** ** Histories of a multiplexer *)
Inductive mux_op :=
  | MOpen | MOpenFinish (a : nat) (timeout : bool) | MAccept | MFrame (flag id : Z) (d : list byte)
  | MSetPriority (a : nat) | MClose (a : nat) | MCloseWrite (a : nat) | MCloseMux.

(** [fuel] bounds the retries of [getId]; an operation that is out of fuel or finds
    nothing to accept leaves the state as it is. *)
Definition mux_step (fuel : nat) (reply : list byte -> list byte) (m : Mux) (o : mux_op) : Mux :=
  match o with
  | MOpen => match open_start fuel m with Some (_, m') => m' | None => m end
  | MOpenFinish a t => snd (open_finish m a t)
  | MAccept => match Accept m with Some (_, m') => m' | None => m end
  | MFrame flag id d => handle_frame reply m flag id d
  | MSetPriority a => SetPriority m a
  | MClose a => Close m a
  | MCloseWrite a => snd (CloseWrite m a)
  | MCloseMux => closeWithReason m
  end.

(** The id counter is moved by [getId] only, the flag by nothing. *)
Definition same_ids (m m' : Mux) : Prop := m_id m' = m_id m /\ m_isInitiator m' = m_isInitiator m.

Lemma same_ids_refl m : same_ids m m.
Proof. done. Qed.
Lemma same_ids_trans m1 m2 m3 : same_ids m1 m2 -> same_ids m2 m3 -> same_ids m1 m3.
Proof. unfold same_ids. intuition congruence. Qed.
Lemma ids_ok_same m m' : same_ids m m' -> ids_ok m -> ids_ok m'.
Proof. unfold same_ids, ids_ok. intros [-> ->]. done. Qed.
Lemma same_ids_upd m a f : same_ids m (upd_conn m a f).
Proof. unfold upd_conn. by destruct (conns m !! a). Qed.
Lemma same_ids_push m flag id p d : same_ids m (push_frame m flag id p d).
Proof. unfold push_frame. by destruct (m_closed m). Qed.
Lemma same_ids_close m a n : same_ids m (closeProcess m a n).
Proof.
  unfold closeProcess. destruct (conns m !! a) as [c|]; [|done]. destruct (isClose c); [done|].
  eapply same_ids_trans; [|apply same_ids_upd]. destruct (_ && _).
  - eapply same_ids_trans; [|apply same_ids_push]. apply (same_ids_upd m).
  - apply (same_ids_upd m).
Qed.
Lemma same_ids_closeWithReason m : same_ids m (closeWithReason m).
Proof.
  unfold closeWithReason. destruct (m_closed m); [done|]. unfold close_all.
  match goal with |- context [foldr _ ?m0 ?ls] =>
    enough (same_ids m0 (foldr (fun a m => Close m a) m0 ls)) by done;
    generalize ls; generalize m0 end.
  intros m0 ls. induction ls as [|a ls IH]; [done|]. simpl.
  eapply same_ids_trans; [exact IH|apply same_ids_close].
Qed.
Lemma same_ids_sendInfo m flag id p d : same_ids m (snd (sendInfo m flag id p d)).
Proof.
  unfold sendInfo. destruct (m_closed m) eqn:E; [done|].
  destruct (_ && _); [apply same_ids_closeWithReason|apply same_ids_push].
Qed.

Create HintDb mux_ids.
#[export] Hint Resolve same_ids_refl same_ids_upd same_ids_push same_ids_close same_ids_closeWithReason
  same_ids_sendInfo : mux_ids.

Lemma same_ids_handle reply m flag id d : same_ids m (handle_frame reply m flag id d).
Proof.
  unfold handle_frame. destruct (m_closed m) eqn:Ecl; [done|]. destruct (flag =? muxNewConn).
  { unfold alloc_conn, enqueueAcceptedConn. cbn [m_closed with_conns]. rewrite Ecl.
    destruct (_ <? _)%nat; eapply same_ids_trans; [|apply same_ids_sendInfo| |apply same_ids_sendInfo]; [done|].
    unfold closeLocal. eapply same_ids_trans; [|apply same_ids_close]. done. }
  destruct (flag =? muxPingFlag); [auto with mux_ids|].
  destruct (flag =? muxPingReturn); [done|]. destruct (flag =? muxPeerHello); [done|].
  destruct (map_Get m id) as [a|]; [|done]. destruct (conns m !! a) as [c|] eqn:Ea; [|done].
  destruct (isClose c) eqn:Ec; [done|]. destruct (_ || _).
  { unfold newMsg. rewrite Ea. destruct (_ || _); [apply same_ids_close|apply same_ids_upd]. }
  repeat case_match; auto with mux_ids.
Qed.

Lemma ids_ok_open fuel m r m' : ids_ok m -> open_start fuel m = Some (r, m') -> ids_ok m'.
Proof.
  intros Hi. unfold open_start. destruct (m_closed m); [intros [= _ <-]; done|].
  destruct (getId fuel m) as [[id m1]|] eqn:Hg; [|done].
  destruct (getId_found _ _ _ _ Hi Hg) as (_ & -> & Hid & _).
  assert (Hi' : ids_ok (with_id m id)) by (split; [apply Hi|by left]). cbn [mbind option_bind alloc_conn].
  pose proof (same_ids_sendInfo (map_Set (with_conns (with_id m id) (<[fresh (dom (conns (with_id m id))):=NewConn id]>
    (conns (with_id m id)))) id (fresh (dom (conns (with_id m id))))) muxNewConn id false []) as Hs.
  destruct (sendInfo _ _ _ _ _) as [[] m2]; intros [= _ <-]; cbn [snd] in Hs.
  - by eapply ids_ok_same.
  - eapply ids_ok_same; [apply same_ids_close|]. by eapply ids_ok_same.
Qed.

Lemma ids_ok_step fuel reply m o : ids_ok m -> ids_ok (mux_step fuel reply m o).
Proof.
  intros Hi. destruct o; cbn [mux_step].
  - destruct (open_start fuel m) as [[r m']|] eqn:E; [by eapply ids_ok_open|done].
  - unfold open_finish. destruct (conns m !! a) as [c|]; [|done]. destruct (okCh c); [done|].
    destruct (_ || _); [|done]. eapply ids_ok_same; [apply same_ids_close|done].
  - unfold Accept. destruct (m_closed m); [done|]. by destruct (newConnCh m).
  - eapply ids_ok_same; [apply same_ids_handle|done].
  - eapply ids_ok_same; [apply same_ids_upd|done].
  - eapply ids_ok_same; [apply same_ids_close|done].
  - unfold CloseWrite. destruct (conns m !! a) as [c|]; [|done]. destruct (isClose c); [done|].
    destruct (negb _); [eapply ids_ok_same; [apply same_ids_close|done]|]. destruct (writeClosed c); [done|].
    eapply ids_ok_same; [apply same_ids_push|]. eapply ids_ok_same; [apply same_ids_upd|done].
  - eapply ids_ok_same; [apply same_ids_closeWithReason|done].
Qed.

Lemma map_ok_step fuel reply m o : ids_ok m -> map_ok m -> map_ok (mux_step fuel reply m o).
Proof.
  intros Hi Hm. destruct o; cbn [mux_step].
  - destruct (open_start fuel m) as [[r m']|] eqn:E; [by eapply map_ok_open|done].
  - by apply map_ok_finish.
  - unfold Accept. destruct (m_closed m); [done|]. by destruct (newConnCh m).
  - by apply map_ok_handle.
  - by apply map_ok_upd.
  - by apply map_ok_close.
  - by apply map_ok_CloseWrite.
  - by apply map_ok_closeWithReason.
Qed.

Definition run_mux (fuel : nat) (reply : list byte -> list byte) (m : Mux) (ops : list mux_op) : Mux :=
  foldl (mux_step fuel reply) m ops.

Lemma run_mux_ok fuel reply ops : forall m, ids_ok m -> map_ok m ->
  ids_ok (run_mux fuel reply m ops) /\ map_ok (run_mux fuel reply m ops).
Proof.
  induction ops as [|o ops IH]; intros m Hi Hm; [done|]. apply IH; [by apply ids_ok_step|by apply map_ok_step].
Qed.

Lemma NewMux_ok init bl : ids_ok (NewMux init bl) /\ map_ok (NewMux init bl).
Proof.
  split; [|done]. split; [done|]. destruct init; [by right|left]. exists 0. cbn. unfold id_cycle. lia.
Qed.

(** ** Frames of one stream *)
Lemma upd_conn_other m a f b : b <> a -> conns (upd_conn m a f) !! b = conns m !! b.
Proof. intros Hb. unfold upd_conn. destruct (conns m !! a); [|done]. simpl. by rewrite lookup_insert_ne. Qed.
Lemma upd_conn_map m a f : connMap (upd_conn m a f) = connMap m.
Proof. unfold upd_conn. by destruct (conns m !! a). Qed.

(** What a frame of stream [id] may touch: the stream mapped at [id], and its entry. *)
Definition touches (id : Z) (m m' : Mux) : Prop :=
  (forall b, connMap m !! id <> Some b -> conns m' !! b = conns m !! b) /\
  (forall i, i <> id -> connMap m' !! i = connMap m !! i).

Lemma touches_upd id m a f : connMap m !! id = Some a -> touches id m (upd_conn m a f).
Proof.
  intros Ha. split; [|by rewrite upd_conn_map]. intros b Hb. apply upd_conn_other. congruence.
Qed.

Lemma touches_close id m a n : map_ok m -> connMap m !! id = Some a -> touches id m (closeProcess m a n).
Proof.
  intros Hm Ha. destruct (Hm id a Ha) as (c & Hc & Hi & Hcl).
  destruct (closeProcess_eq m a n c Hc Hcl) as (H1 & H2 & _). split.
  - intros b Hb. rewrite H2, lookup_insert_ne; [done|congruence].
  - intros i Hi'. rewrite H1, lookup_delete_ne; congruence.
Qed.

Definition stream_flag (flag : Z) : bool :=
  (flag =? muxNewMsg) || (flag =? muxNewMsgPart) || (flag =? muxNewConnOk) || (flag =? muxNewConnFail) ||
  (flag =? muxMsgSendOk) || (flag =? muxConnCloseWrite) || (flag =? muxConnClose).

Lemma stream_flag_not flag : stream_flag flag = true ->
  (flag =? muxNewConn) = false /\ (flag =? muxPingFlag) = false /\ (flag =? muxPingReturn) = false /\
  (flag =? muxPeerHello) = false.
Proof.
  unfold stream_flag. intros H.
  repeat (apply orb_true_iff in H; destruct H as [H|H]); apply Z.eqb_eq in H; rewrite H; done.
Qed.

Lemma preparePingReply_spec pad rnd d rest :
  length rnd = pad -> (length d <> 0)%nat ->
  Z.of_nat pad <= maximumSegmentSize - 8 -> Z.of_nat (length d) <= maximumSegmentSize ->
  let r := preparePingReply pad rnd (d ++ rest) (length d) in
  take 8 r = take 8 d /\ (0 < length r)%nat /\ Z.of_nat (length r) <= maximumSegmentSize.
Proof.
  intros Hr Hd Hp Hl. unfold preparePingReply. rewrite take_app_length.
  destruct (Nat.leb_spec (length d) 8).
  - rewrite Nat.min_l, firstn_all by lia. split_and!; [done|lia|lia].
  - destruct (forallb _ _).
    + assert (H8 : length (take 8 (d ++ rest)) = 8%nat) by (rewrite length_take, length_app; lia).
      rewrite (take_app_length' (take 8 (d ++ rest))) by done. rewrite take_app_le by lia.
      rewrite length_app, length_take.
      destruct (Nat.ltb_spec 0 pad); cbn [length]; [|split_and!; [done|lia|lia]].
      rewrite length_take, length_app, length_drop, Hr. split_and!; [done|lia|].
      rewrite (Nat.min_l 8) by lia. rewrite (Nat.min_l pad) by lia. lia.
    + split_and!; [done|lia|lia].
Qed.

(** The reply of a peer without padding. *)
Definition echo (d : list byte) : list byte := d.

(** ** Properties *)



(** C12. [getId] terminates with a fresh id: in every history, one attempt more than
    there are open streams is enough, and the id it returns is even, positive, at
    most [2 * id_cycle] and not in the stream map; only the counter has moved. *)
Theorem stream_ids_fresh init bl fuel0 reply ops fuel :
  let m := run_mux fuel0 reply (NewMux init bl) ops in
  (size (connMap m) < fuel)%nat -> Z.of_nat fuel <= id_cycle ->
  exists id, getId fuel m = Some (id, with_id m id) /\ map_Get m id = None /\
    Z.even id = true /\ 2 <= id <= 2 * id_cycle.
Proof.
  intros m Hs Hf. destruct (NewMux_ok init bl) as [Hi Hm].
  destruct (run_mux_ok fuel0 reply ops _ Hi Hm) as [Hi' _]. fold m in Hi'.
  destruct (getId_enough fuel m Hi' Hs Hf) as [[id m'] E].
  destruct (getId_found _ _ _ _ Hi' E) as (H1 & -> & (k & Hk & Hr) & H2).
  exists id. split_and!; try done; [|lia]. rewrite Hk. apply Z.even_spec. by exists k.
Qed.

Lemma stream_ids_fresh_witness :
  exists i, getId 2 (run_mux 1 echo (NewMux false 1) [MOpen]) = Some (i, with_id (run_mux 1 echo (NewMux false 1) [MOpen]) i) /\
    map_Get (run_mux 1 echo (NewMux false 1) [MOpen]) i = None /\ Z.even i = true /\ 2 <= i <= 2 * id_cycle.
Proof. apply (stream_ids_fresh false 1 1 echo [MOpen] 2); vm_compute; congruence || lia. Defined.

(** Frames do not cross streams: in every history, a frame of stream [id] leaves
    every stream but the one mapped at [id] as it was, and every map entry but its
    own; a data frame for an open receive window appends its payload to that stream
    and changes nothing else of it. *)
Theorem frames_stay_in_their_stream init bl fuel reply ops flag id d :
  let m := run_mux fuel reply (NewMux init bl) ops in
  stream_flag flag = true -> m_closed m = false ->
  let m' := handle_frame reply m flag id d in
  touches id m m' /\
  (forall a c, map_Get m id = Some a -> conns m !! a = Some c -> rw_closed c = false ->
    (flag = muxNewMsg \/ flag = muxNewMsgPart) -> conns m' !! a = Some (receive_data d c)).
Proof.
  intros m Hfl Hcl m'. destruct (NewMux_ok init bl) as [Hi Hm0].
  destruct (run_mux_ok fuel reply ops _ Hi Hm0) as [_ Hm]. fold m in Hm. clearbody m.
  destruct (stream_flag_not flag Hfl) as (H1 & H2 & H3 & H4).
  unfold m', handle_frame. rewrite Hcl, H1, H2, H3, H4. unfold map_Get.
  destruct (connMap m !! id) as [a|] eqn:Ea; [|by split].
  destruct (Hm id a Ea) as (c & Hc & _ & Hcc). rewrite Hc, Hcc. split.
  - unfold newMsg. rewrite Hc, Hcc.
    repeat case_match; auto using touches_upd; [by apply touches_close|by split].
  - intros a' c' [= <-] Hc' Hrw Hflag. rewrite Hc in Hc'. injection Hc' as <-.
    assert (Hor : (flag =? muxNewMsg) || (flag =? muxNewMsgPart) = true) by (destruct Hflag as [-> | ->]; done).
    rewrite Hor. unfold newMsg, upd_conn. rewrite Hc, Hcc, Hrw. simpl. by rewrite lookup_insert_eq.
Qed.

Lemma frames_stay_in_their_stream_witness :
  let m := run_mux 1 echo (NewMux false 1) [MOpen] in
  let m' := handle_frame echo m muxNewMsg 2 [x01] in
  touches 2 m m' /\
  (forall a c, map_Get m 2 = Some a -> conns m !! a = Some c -> rw_closed c = false ->
    (muxNewMsg = muxNewMsg \/ muxNewMsg = muxNewMsgPart) -> conns m' !! a = Some (receive_data [x01] c)).
Proof. apply (frames_stay_in_their_stream false 1 1 echo [MOpen] muxNewMsg 2 [x01]); vm_compute; reflexivity. Defined.

Lemma close_list_keeps ls : forall m a c,
  conns m !! a = Some c -> isClose c = true -> conns (foldr (fun a m => Close m a) m ls) !! a = Some c.
Proof.
  induction ls as [|b ls IH]; intros m a c Ha Hc; [done|]. simpl. specialize (IH m a c Ha Hc).
  set (m1 := foldr _ m ls) in *. unfold Close. destruct (conns m1 !! b) as [cb|] eqn:Eb.
  - destruct (isClose cb) eqn:Ecb.
    + by rewrite closeProcess_closed by eauto.
    + destruct (closeProcess_eq m1 b true cb Eb Ecb) as (_ & -> & _).
      rewrite lookup_insert_ne; [done|]. intros ->. congruence.
  - by rewrite closeProcess_closed by eauto.
Qed.

(** Closing a list of streams closes each of them, with its windows. *)
Lemma close_list_closes ls m a c :
  a ∈ ls -> conns m !! a = Some c -> isClose c = false ->
  conns (foldr (fun a m => Close m a) m ls) !! a = Some (close_windows (mark_closed c)).
Proof.
  intros Hin Ha Hc. induction ls as [|b ls IH]; [by apply elem_of_nil in Hin|].
  simpl. set (m1 := foldr _ m ls) in *. destruct (decide (a ∈ ls)) as [Hl|Hl].
  - specialize (IH Hl). change (foldr _ _ (b :: ls)) with (foldr (fun a m => Close m a) m1 [b]).
    by apply (close_list_keeps [b]).
  - apply elem_of_cons in Hin as [->|]; [|done].
    assert (E : conns m1 !! b = Some c).
    { unfold m1. clear -Hl Ha. induction ls as [|x ls IH]; [done|]. simpl. apply not_elem_of_cons in Hl as [Hne Hl].
      specialize (IH Hl). set (m1 := foldr _ m ls) in *. unfold Close, closeProcess.
      destruct (conns m1 !! x) as [cx|] eqn:Ex; [|done]. destruct (isClose cx); [done|].
      rewrite upd_conn_other by done. unfold push_frame.
      repeat case_match; simpl; rewrite upd_conn_other; done. }
    unfold Close. destruct (closeProcess_eq m1 b true c E Hc) as (_ & -> & _). by rewrite lookup_insert_eq.
Qed.

(** Closing the multiplexer releases every stream: in every history, after
    [closeWithReason] the map and the write queue are empty, each stream that was
    mapped is closed with both its windows, and from then on no stream can be
    opened or accepted, received frames are ignored and closing again is a no-op. *)
Theorem mux_close_releases_streams init bl fuel reply ops :
  let m := run_mux fuel reply (NewMux init bl) ops in
  m_closed m = false ->
  let m' := closeWithReason m in
  connMap m' = ∅ /\ outq m' = [] /\ m_closed m' = true /\
  (forall id a, map_Get m id = Some a -> exists c, conns m !! a = Some c /\
     conns m' !! a = Some (close_windows (mark_closed c))) /\
  closeWithReason m' = m' /\ open_start fuel m' = Some (None, m') /\ Accept m' = None /\
  (forall flag id d, handle_frame reply m' flag id d = m').
Proof.
  intros m Hcl m'. destruct (NewMux_ok init bl) as [Hi Hm0].
  destruct (run_mux_ok fuel reply ops _ Hi Hm0) as [_ Hm]. fold m in Hm. clearbody m.
  unfold m', closeWithReason. rewrite Hcl.
  match goal with |- context [close_all ?x] => set (m1 := x) in * end.
  destruct (close_all_empty m1 Hm) as (_ & H2 & H3).
  assert (Hc' : m_closed (with_outq (close_all m1) []) = true) by (by cbn; rewrite H3).
  split_and!; try done.
  - intros id a Ha. destruct (Hm id a Ha) as (c & Hc & _ & Hcc). exists c. split; [done|].
    apply close_list_closes; [|done|done]. apply list_elem_of_fmap. exists (id, a).
    split; [done|]. by apply elem_of_map_to_list.
  - by rewrite Hc'.
  - unfold open_start. by rewrite Hc'.
  - unfold Accept. by rewrite Hc'.
  - intros flag id d. unfold handle_frame. by rewrite Hc'.
Qed.

Lemma mux_close_releases_streams_witness :
  let m := run_mux 1 echo (NewMux true 1) [MOpen] in
  let m' := closeWithReason m in
  connMap m' = ∅ /\ outq m' = [] /\ m_closed m' = true /\
  (forall id a, map_Get m id = Some a -> exists c, conns m !! a = Some c /\
     conns m' !! a = Some (close_windows (mark_closed c))) /\
  closeWithReason m' = m' /\ open_start 1 m' = Some (None, m') /\ Accept m' = None /\
  (forall flag id d, handle_frame echo m' flag id d = m').
Proof. apply (mux_close_releases_streams true 1 1 echo [MOpen]). reflexivity. Defined.

(** A ping is answered with its own timestamp: for a nonempty ping of at most
    [maximumSegmentSize] bytes and a padding the configuration allows, the reply is
    queued as one ping-return frame whose first eight bytes are those received. *)
Lemma ping_is_answered m pad rnd rest id d :
  m_closed m = false -> length rnd = pad -> Z.of_nat pad <= maximumSegmentSize - 8 ->
  d <> [] -> Z.of_nat (length d) <= maximumSegmentSize ->
  let reply d := preparePingReply pad rnd (d ++ rest) (length d) in
  handle_frame reply m muxPingFlag id d
    = with_outq m (outq m ++ [mkOut muxPingReturn muxPing false (reply d)]) /\
  take 8 (reply d) = take 8 d.
Proof.
  intros Hcl Hr Hp Hd Hl reply.
  destruct (preparePingReply_spec pad rnd d rest Hr) as (H1 & H2 & H3); [by destruct d|done|done|].
  fold (reply d) in H1, H2, H3. split; [|done].
  unfold handle_frame. rewrite Hcl. change (muxPingFlag =? muxNewConn) with false.
  change (muxPingFlag =? muxPingFlag) with true. cbn iota. unfold sendInfo, push_frame. rewrite Hcl.
  change (carriesContent muxPingReturn) with true. unfold set_accepts. change (carriesContent muxPingReturn) with true.
  cbn iota. rewrite (proj2 (Z.ltb_lt _ _)) by lia. rewrite (proj2 (Z.leb_le _ _)) by lia. done.
Qed.

Lemma ping_is_answered_witness :
  let reply d := preparePingReply 1 [x07] (d ++ [x00]) (length d) in
  let d := [x01; x02; x03; x04; x05; x06; x07; x08; x00] in
  handle_frame reply (NewMux true 1) muxPingFlag muxPing d
    = with_outq (NewMux true 1) [mkOut muxPingReturn muxPing false (reply d)] /\
  take 8 (reply d) = take 8 d.
Proof. apply (ping_is_answered (NewMux true 1) 1 [x07] [x00]); vm_compute; congruence. Defined.

(** An empty ping closes the session: the frame with a zero length that [UnPack]
    accepts makes [sendInfo] build an empty reply, which [Set] refuses. *)
Lemma empty_ping_closes_mux m pad rnd rest id :
  handle_frame (fun d => preparePingReply pad rnd (d ++ rest) (length d)) m muxPingFlag id []
    = closeWithReason m.
Proof.
  unfold handle_frame, closeWithReason. destruct (m_closed m) eqn:Hcl; [done|].
  change (muxPingFlag =? muxNewConn) with false. change (muxPingFlag =? muxPingFlag) with true. cbn iota.
  unfold sendInfo, closeWithReason. by rewrite Hcl.
Qed.

(** The frames a multiplexer has queued, handed to its peer in order. *)
Definition deliver (reply : list byte -> list byte) (fs : list out_frame) (m : Mux) : Mux :=
  foldl (fun m f => handle_frame reply m (o_flag f) (o_id f) (o_data f)) m fs.

(** The two ends draw the same ids: the initiator's first id is 2, as is the
    responder's, so when both open a stream at once each end's map entry is replaced
    by the accepted stream, the acknowledgement goes to that one and neither open
    ever completes. *)
Theorem simultaneous_opens_collide reply n :
  exists a b c d,
    open_start 1 (NewMux true (S n)) = Some (Some a, c) /\
    open_start 1 (NewMux false (S n)) = Some (Some b, d) /\
    let c1 := deliver reply (outq d) c in
    let d1 := deliver reply (outq c) d in
    let c2 := deliver reply (drop 1 (outq d1)) c1 in
    let d2 := deliver reply (drop 1 (outq c1)) d1 in
    open_finish c2 a false = (Pending, c2) /\ open_finish d2 b false = (Pending, d2) /\
    map_Get c2 2 <> Some a /\ map_Get d2 2 <> Some b.
Proof. do 4 eexists. split; [reflexivity|]. split; [reflexivity|]. vm_compute. split_and!; congruence. Qed.
