(* ===== verification/RateLimit.v ===== *)
(** The rate limiter: a generic cell rate algorithm on a monotonic clock, its
    hierarchical composition, the meters and the limited connection.

    Sources: [lib/rate/rate.go], [lib/rate/limiter.go].

    A [*Rate] is an address into a store, so that two levels of a hierarchy can
    be the same limiter; a stop channel is a number, closed or not.  Every read
    of the clock is an argument.  The compare-and-swap loops are single steps. *)

From S2P Require Import Prelude.
Local Open Scope Z_scope.

Definition maxI64 : Z := 2 ^ 63 - 1.
Definition minI64 : Z := - maxI64 - 1.
Definition nanos : Z := 1000000000.
Definition sampleIntervalNs : Z := nanos.
Definition coalesceWaitNs : Z := 200000.
Definition shortWaitNs : Z := 2000000.
Definition burstWindowNs : Z := 2 * nanos.

(** ** Arithmetic *)
Definition bytesToNsCeil (bytes rate : Z) : Z :=
  if (bytes <=? 0) || (rate <=? 0) then 0
  else if maxI64 / nanos <? bytes then maxI64
  else let num := i64 (bytes * nanos) in
       Z.quot (i64 (i64 (num + rate) - 1)) rate.

Definition bytesPerSec (bytes dtNs : Z) : Z :=
  if (bytes <=? 0) || (dtNs <=? 0) then 0
  else
    let q := Z.quot bytes dtNs in
    let rem := Z.rem bytes dtNs in
    if maxI64 / nanos <? q then maxI64
    else
      let res := i64 (q * nanos) in
      if 0 <? rem then
        let add := if maxI64 / nanos <? rem then Z.quot maxI64 dtNs else Z.quot (i64 (rem * nanos)) dtNs in
        if i64 (maxI64 - res) <? add then maxI64
        else let res := i64 (res + add) in if res <? 0 then maxI64 else res
      else if res <? 0 then maxI64 else res.

Definition clampAdd (a b : Z) : Z :=
  if b <=? 0 then a else if i64 (maxI64 - b) <? a then maxI64 else i64 (a + b).
Definition clampSub (a b : Z) : Z :=
  if b <=? 0 then a else if a <? i64 (minI64 + b) then minI64 else i64 (a - b).

(** ** One limiter *)
Record Rate := mkRate {
  rate : Z;                (* bytes/s, <= 0 is unlimited *)
  burstNs : Z;
  tat : Z;                 (* theoretical arrival time *)
  enabled : bool;
  stopped : bool;
  stop : option nat;       (* the current stop channel *)
  bytesAcc : Z;
  lastSampleNs : Z;
  nowBps : Z;
}.

Definition with_tat (r : Rate) (t : Z) : Rate :=
  mkRate (rate r) (burstNs r) t (enabled r) (stopped r) (stop r) (bytesAcc r) (lastSampleNs r) (nowBps r).
Definition with_bytesAcc (r : Rate) (b : Z) : Rate :=
  mkRate (rate r) (burstNs r) (tat r) (enabled r) (stopped r) (stop r) b (lastSampleNs r) (nowBps r).

(** [NewRate]; [ch] is the new stop channel. *)
Definition NewRate (ch : nat) (now limitBps : Z) : Rate :=
  let limitBps := if limitBps <=? 0 then 0 else limitBps in
  mkRate limitBps burstWindowNs (if 0 <? limitBps then - burstWindowNs else 0) true false (Some ch) 0 now 0.

Definition updateRateWithNow (now : Z) (r : Rate) : Rate :=
  let last := lastSampleNs r in
  if i64 (now - last) <? sampleIntervalNs then r
  else
    let bytes := if bytesAcc r <? 0 then 0 else bytesAcc r in
    let dt := i64 (now - last) in
    mkRate (rate r) (burstNs r) (tat r) (enabled r) (stopped r) (stop r) 0 now
      (if dt <=? 0 then nowBps r else bytesPerSec bytes dt).

(** [reserve]: the wait in nanoseconds. *)
Definition reserve (now size : Z) (r : Rate) : Z * Rate :=
  if (size <=? 0) || negb (enabled r) then (0, r)
  else
    let r := with_bytesAcc r (i64 (bytesAcc r + size)) in
    let r := updateRateWithNow now r in
    if rate r <=? 0 then (0, r)
    else
      let cost := bytesToNsCeil size (rate r) in
      let minTat := i64 (now - burstNs r) in
      let base := if tat r <? minTat then minTat else tat r in
      let next := clampAdd base cost in
      let wait := i64 (next - now) in
      (if wait <? 0 then 0 else wait, with_tat r next).

Definition ReturnBucket (now size : Z) (r : Rate) : Rate :=
  if (size <=? 0) || negb (enabled r) then r
  else
    let r := with_bytesAcc r (i64 (bytesAcc r - size)) in
    if rate r <=? 0 then r
    else
      let refund := bytesToNsCeil size (rate r) in
      let minTat := i64 (now - burstNs r) in
      let next := clampSub (tat r) refund in
      with_tat r (if next <? minTat then minTat else next).

Definition SetLimit (limitBps : Z) (r : Rate) : Rate :=
  let limitBps := if limitBps <=? 0 then 0 else limitBps in
  mkRate limitBps (burstNs r) (tat r) (enabled r) (stopped r) (stop r) (bytesAcc r) (lastSampleNs r) (nowBps r).

Definition Limit (r : Rate) : Z := rate r.
Definition Now (now : Z) (r : Rate) : Z * Rate := let r := updateRateWithNow now r in (nowBps r, r).

(** ** Limiters in the store *)
Record world := mkW { rates : gmap nat Rate; closed_ch : gset nat; next_ch : nat }.

Definition upd_rate (w : world) (a : nat) (r : Rate) : world := mkW (<[a := r]> (rates w)) (closed_ch w) (next_ch w).

(** [Start]: a stopped limiter gets a new stop channel and a full burst. *)
Definition Start (now : Z) (a : nat) (w : world) : world :=
  match rates w !! a with
  | None => w
  | Some r =>
    let fresh := stopped r || bool_decide (stop r = None) in
    let needReset := stopped r || negb (enabled r) || bool_decide (stop r = None) in
    let w := if fresh then mkW (rates w) (closed_ch w) (S (next_ch w)) else w in
    let st := if fresh then Some (pred (next_ch w)) else stop r in
    let sd := if fresh then false else stopped r in
    let r := if needReset
             then mkRate (rate r) (burstNs r) (if 0 <? rate r then i64 (now - burstNs r) else 0) (enabled r) sd st 0 now 0
             else mkRate (rate r) (burstNs r) (tat r) (enabled r) sd st (bytesAcc r) (lastSampleNs r) (nowBps r) in
    upd_rate w a (mkRate (rate r) (burstNs r) (tat r) true (stopped r) (stop r) (bytesAcc r) (lastSampleNs r) (nowBps r))
  end.

Definition Stop (a : nat) (w : world) : world :=
  match rates w !! a with
  | None => w
  | Some r =>
    let cl := match stop r with
              | Some ch => if stopped r then closed_ch w else {[ch]} ∪ closed_ch w
              | None => closed_ch w
              end in
    mkW (<[a := mkRate (rate r) (burstNs r) (tat r) false true (stop r) 0 (lastSampleNs r) 0]> (rates w)) cl (next_ch w)
  end.

Definition ResetLimit (now limitBps : Z) (a : nat) (w : world) : world :=
  let w := Stop a w in
  let w := match rates w !! a with Some r => upd_rate w a (SetLimit limitBps r) | None => w end in
  Start now a w.

(** [sleepNs]: how long it sleeps when no stop arrives meanwhile. *)
Definition sleepNs (closed : gset nat) (waitNs : Z) (stopCh : option nat) : Z :=
  if waitNs <=? 0 then 0
  else if waitNs <=? shortWaitNs then waitNs
  else match stopCh with
       | None => waitNs
       | Some ch => if bool_decide (ch ∈ closed) then 0 else waitNs
       end.

(** [reserve] and [Get] on a pointer; a nil limiter never waits. *)
Definition reserve_at (now size : Z) (a : nat) (w : world) : Z * world :=
  match rates w !! a with
  | None => (0, w)
  | Some r => let '(wait, r) := reserve now size r in (wait, upd_rate w a r)
  end.

Definition stopCh (a : nat) (w : world) : option nat := rates w !! a ≫= stop.

(** The time slept, with the state after it. *)
Definition Get (now size : Z) (a : nat) (w : world) : Z * world :=
  let '(wait, w) := reserve_at now size a w in
  (if wait <=? coalesceWaitNs then 0 else sleepNs (closed_ch w) wait (stopCh a w), w).

Definition ReturnBucket_at (now size : Z) (a : nat) (w : world) : world :=
  match rates w !! a with Some r => upd_rate w a (ReturnBucket now size r) | None => w end.

(** ** Hierarchies *)
Record HierarchicalLimiter := mkHier {
  first : option nat; second : option nat; third : option nat;
  extra : list nat; count : nat; h_stopCh : option nat;
}.

(** A [Limiter] interface value; [LRate None] is an interface that holds a nil
    [*Rate]. *)
Inductive Limiter :=
| LNil
| LRate (a : option nat)
| LHier (h : HierarchicalLimiter).

Definition enabledLimiter (w : world) (current : option nat) : option nat :=
  match current with
  | None => None
  | Some a => match rates w !! a with
              | Some r => if Limit r <=? 0 then None else Some a
              | None => None
              end
  end.

Definition new_builder : HierarchicalLimiter := mkHier None None None [] 0 None.

Definition builder_add (w : world) (b : HierarchicalLimiter) (current : option nat) : HierarchicalLimiter :=
  match enabledLimiter w current with
  | None => b
  | Some a =>
    let st := match h_stopCh b with None => stopCh a w | s => s end in
    match count b with
    | 0%nat => mkHier (Some a) (second b) (third b) (extra b) 1 st
    | 1%nat => mkHier (first b) (Some a) (third b) (extra b) 2 st
    | 2%nat => mkHier (first b) (second b) (Some a) (extra b) 3 st
    | n => mkHier (first b) (second b) (third b) (extra b ++ [a]) (S n) st
    end
  end.

Definition build (b : HierarchicalLimiter) : Limiter :=
  match count b with
  | 0%nat => LNil
  | 1%nat => LRate (first b)
  | _ => LHier b
  end.

Definition NewHierarchicalLimiter2 (w : world) (a b : option nat) : Limiter :=
  build (builder_add w (builder_add w new_builder a) b).
Definition NewHierarchicalLimiter3 (w : world) (a b c : option nat) : Limiter :=
  build (builder_add w (builder_add w (builder_add w new_builder a) b) c).
Definition NewHierarchicalLimiter (w : world) (limiters : list (option nat)) : Limiter :=
  match limiters with
  | [] => LNil
  | [a] => LRate (enabledLimiter w a)
  | [a; b] => NewHierarchicalLimiter2 w a b
  | [a; b; c] => NewHierarchicalLimiter3 w a b c
  | _ => build (foldl (builder_add w) new_builder limiters)
  end.

(** One level of [HierarchicalLimiter.Get]; [i] counts the clock reads. *)
Definition level_reserve (clock : nat -> Z) (size : Z) (acc : Z * nat * world) (a : nat) : Z * nat * world :=
  let '(maxWait, i, w) := acc in
  let '(wait, w) := reserve_at (clock i) size a w in
  (if maxWait <? wait then wait else maxWait, S i, w).

Definition opt_level (clock : nat -> Z) (size : Z) (acc : Z * nat * world) (a : option nat) : Z * nat * world :=
  match a with Some a => level_reserve clock size acc a | None => acc end.

Definition hier_Get (clock : nat -> Z) (size : Z) (l : HierarchicalLimiter) (w : world) : Z * world :=
  if size <=? 0 then (0, w)
  else
    let acc := opt_level clock size (0, 0%nat, w) (first l) in
    let acc := opt_level clock size acc (second l) in
    let acc := opt_level clock size acc (third l) in
    let '(maxWait, _, w) := foldl (level_reserve clock size) acc (extra l) in
    (if coalesceWaitNs <? maxWait then sleepNs (closed_ch w) maxWait (h_stopCh l) else 0, w).

Definition hier_ReturnBucket (clock : nat -> Z) (size : Z) (l : HierarchicalLimiter) (w : world) : world :=
  if size <=? 0 then w
  else
    let level (acc : nat * world) a := (S (fst acc), ReturnBucket_at (clock (fst acc)) size a (snd acc)) in
    let opt acc o := match o with Some a => level acc a | None => acc end in
    snd (foldl level (opt (opt (opt (0%nat, w) (first l)) (second l)) (third l)) (extra l)).

(** [Get] and [ReturnBucket] through the interface; [LNil] is not called. *)
Definition limiter_Get (clock : nat -> Z) (size : Z) (l : Limiter) (w : world) : Z * world :=
  match l with
  | LNil | LRate None => (0, w)
  | LRate (Some a) => Get (clock 0%nat) size a w
  | LHier h => hier_Get clock size h w
  end.
Definition limiter_ReturnBucket (clock : nat -> Z) (size : Z) (l : Limiter) (w : world) : world :=
  match l with
  | LNil | LRate None => w
  | LRate (Some a) => ReturnBucket_at (clock 0%nat) size a w
  | LHier h => hier_ReturnBucket clock size h w
  end.

(** ** The limited connection: the charges of one [Read] and one [Write]; [n] is
    what the underlying connection returned. *)
Definition rateConn_Read (clock : nat -> Z) (l : Limiter) (n : Z) (w : world) : Z * world :=
  match l with LNil => (0, w) | _ => if 0 <? n then limiter_Get clock n l w else (0, w) end.

Definition rateConn_Write (clock clock' : nat -> Z) (l : Limiter) (len n : Z) (w : world) : Z * world :=
  match l with
  | LNil => (0, w)
  | _ =>
    let '(slept, w) := if 0 <? len then limiter_Get clock len l w else (0, w) in
    (slept, if (0 <? len) && (n <? len) then limiter_ReturnBucket clock' (len - n) l w else w)
  end.

(** ** The meter *)
Record Meter := mkMeter { m_last : Z; inAcc : Z; outAcc : Z; inBps : Z; outBps : Z }.

Definition NewMeter (now : Z) : Meter := mkMeter now 0 0 0 0.

Definition roll (nowNs : Z) (m : Meter) : Meter :=
  let last := m_last m in
  if (nowNs <=? last) || (i64 (nowNs - last) <? sampleIntervalNs) then m
  else
    let delta := i64 (nowNs - last) in
    if delta <=? 0 then mkMeter nowNs (inAcc m) (outAcc m) (inBps m) (outBps m)
    else mkMeter nowNs 0 0 (Z.quot (i64 (inAcc m * sampleIntervalNs)) delta)
           (Z.quot (i64 (outAcc m * sampleIntervalNs)) delta).

Definition meter_Add (now inb outb : Z) (m : Meter) : Meter :=
  let m := if inb =? 0 then m else mkMeter (m_last m) (i64 (inAcc m + inb)) (outAcc m) (inBps m) (outBps m) in
  let m := if outb =? 0 then m else mkMeter (m_last m) (inAcc m) (i64 (outAcc m + outb)) (inBps m) (outBps m) in
  roll now m.

Definition Snapshot (now : Z) (m : Meter) : (Z * Z * Z) * Meter :=
  let m := roll now m in ((inBps m, outBps m, i64 (inBps m + outBps m)), m).

Definition meter_Reset (now : Z) (m : Meter) : Meter := mkMeter now 0 0 0 0.

(** ** Arithmetic facts *)
Lemma bytesToNsCeil_exact bytes rate :
  0 < bytes -> 0 < rate -> bytes * nanos + rate <= maxI64 ->
  bytesToNsCeil bytes rate = (bytes * nanos + rate - 1) / rate.
Proof.
  intros Hb Hr Hs. unfold bytesToNsCeil.
  assert (E : maxI64 / nanos = 9223372036) by reflexivity. rewrite E.
  rewrite (proj2 (Z.leb_gt bytes 0)), (proj2 (Z.leb_gt rate 0)) by lia. cbn [orb].
  unfold maxI64, nanos in *. destruct (Z.ltb_spec 9223372036 bytes); [lia|].
  rewrite (i64_small (bytes * 1000000000)), (i64_small (_ + rate)), i64_small by lia.
  by rewrite Z.quot_div_nonneg by lia.
Qed.

(** ** Histories of a limited [Rate] *)
Inductive rate_event :=
| EGet (now size : Z)
| EReturn (now size : Z).

Definition event_now (e : rate_event) : Z := match e with EGet t _ | EReturn t _ => t end.
Definition event_size (e : rate_event) : Z := match e with EGet _ s | EReturn _ s => s end.

(** The wait of each event (none for a refund), and the limiter after them. *)
Fixpoint rate_run (es : list rate_event) (r : Rate) : list Z * Rate :=
  match es with
  | [] => ([], r)
  | EGet t s :: es =>
    let '(w, r) := reserve t s r in
    let '(ws, r) := rate_run es r in (w :: ws, r)
  | EReturn t s :: es =>
    let '(ws, r) := rate_run es (ReturnBucket t s r) in (0 :: ws, r)
  end.

(** A limiter that limits, with a clock and sizes far from the ends of [int64]. *)
Definition limited (r : Rate) : Prop :=
  enabled r = true /\ 0 < rate r /\ 0 <= burstNs r <= 2 ^ 60.
Definition event_ok (rt : Z) (e : rate_event) : Prop :=
  0 <= event_now e <= 2 ^ 60 /\ 0 < event_size e /\ event_size e * nanos + rt <= 2 ^ 60.
Definition weight (es : list rate_event) : Z := foldr (fun e acc => event_size e * nanos + acc) 0 es.

(** Nanoseconds a transfer takes at the rate, rounded up. *)
Definition ns_cost (rt size : Z) : Z := (size * nanos + rt - 1) / rt.

Lemma ns_cost_bounds rt size : 0 < size -> 0 < rt ->
  0 < ns_cost rt size <= size * nanos /\ size * nanos <= rt * ns_cost rt size < size * nanos + rt.
Proof.
  intros Hs Hr. unfold ns_cost, nanos.
  pose proof (Z.div_mod (size * 1000000000 + rt - 1) rt ltac:(lia)).
  pose proof (Z.mod_pos_bound (size * 1000000000 + rt - 1) rt ltac:(lia)).
  set (c := (size * 1000000000 + rt - 1) / rt) in *. clearbody c. nia.
Qed.

Lemma updateRate_keeps now r :
  let r' := updateRateWithNow now r in
  rate r' = rate r /\ burstNs r' = burstNs r /\ tat r' = tat r /\ enabled r' = enabled r.
Proof. unfold updateRateWithNow. by destruct (_ <? _). Qed.

Lemma reserve_eq t s r :
  limited r -> event_ok (rate r) (EGet t s) -> - 2 ^ 61 <= tat r <= 2 ^ 62 ->
  let next := Z.max (tat r) (t - burstNs r) + ns_cost (rate r) s in
  let '(w, r') := reserve t s r in
  w = Z.max 0 (next - t) /\ tat r' = next /\ limited r' /\ rate r' = rate r /\ burstNs r' = burstNs r.
Proof.
  intros (He & Hr & Hb) (Ht & Hs & Hsz) Htat next. cbn [event_now event_size] in *. unfold reserve.
  rewrite (proj2 (Z.leb_gt s 0)), He by lia. cbn [orb negb].
  destruct (updateRate_keeps t (with_bytesAcc r (i64 (bytesAcc r + s)))) as (E1 & E2 & E3 & E4).
  set (r1 := updateRateWithNow t (with_bytesAcc r (i64 (bytesAcc r + s)))) in *. clearbody r1.
  cbn [with_bytesAcc rate burstNs tat enabled] in E1, E2, E3, E4. rewrite E1, E2, E3.
  rewrite (proj2 (Z.leb_gt (rate r) 0)) by lia.
  rewrite bytesToNsCeil_exact by (unfold maxI64; lia). fold (ns_cost (rate r) s).
  destruct (ns_cost_bounds (rate r) s Hs Hr) as [[Hc1 Hc2] _].
  assert (Hnext : clampAdd (if tat r <? i64 (t - burstNs r) then i64 (t - burstNs r) else tat r) (ns_cost (rate r) s) = next).
  { rewrite i64_small by lia. unfold clampAdd, next. rewrite (proj2 (Z.leb_gt _ 0)) by lia.
    unfold maxI64. rewrite (i64_small (2 ^ 63 - 1 - _)) by lia.
    destruct (Z.ltb_spec (tat r) (t - burstNs r));
      (rewrite (proj2 (Z.ltb_ge _ _)) by lia); rewrite i64_small by lia; lia. }
  rewrite Hnext. cbn [with_tat tat rate burstNs enabled]. unfold limited. cbn [with_tat tat rate burstNs enabled].
  rewrite i64_small by (unfold next; lia). rewrite E1, E2, E4.
  split_and!; try done; try lia. destruct (Z.ltb_spec (next - t) 0); lia.
Qed.

Lemma ReturnBucket_eq t s r :
  limited r -> event_ok (rate r) (EReturn t s) -> - 2 ^ 61 <= tat r <= 2 ^ 62 ->
  let r' := ReturnBucket t s r in
  tat r' = Z.max (tat r - ns_cost (rate r) s) (t - burstNs r) /\
  limited r' /\ rate r' = rate r /\ burstNs r' = burstNs r.
Proof.
  intros (He & Hr & Hb) (Ht & Hs & Hsz) Htat. cbn [event_now event_size] in *. unfold ReturnBucket.
  rewrite (proj2 (Z.leb_gt s 0)), He by lia. cbn [orb negb with_bytesAcc rate burstNs tat].
  rewrite (proj2 (Z.leb_gt (rate r) 0)) by lia.
  rewrite bytesToNsCeil_exact by (unfold maxI64; lia). fold (ns_cost (rate r) s).
  destruct (ns_cost_bounds (rate r) s Hs Hr) as [[Hc1 Hc2] _].
  unfold limited. cbn [with_bytesAcc with_tat rate burstNs tat enabled]. split_and!; try done; try lia.
  unfold clampSub, minI64, maxI64. rewrite (proj2 (Z.leb_gt (ns_cost _ _) 0)) by lia.
  rewrite (i64_small (- (2 ^ 63 - 1) - 1 + _)) by lia. rewrite (i64_small (t - _)) by lia.
  rewrite (i64_small (tat r - _)) by lia. rewrite (proj2 (Z.ltb_ge (tat r) _)) by lia. if_case; zbool; lia.
Qed.

(** Room for a run: the arrival time stays within [int64]. *)
Definition room (es : list rate_event) (r : Rate) : Prop :=
  limited r /\ Forall (event_ok (rate r)) es /\
  - 2 ^ 61 <= tat r /\ Z.max (tat r) (2 ^ 60) + weight es <= 2 ^ 62.

Lemma weight_nonneg rt es : Forall (event_ok rt) es -> 0 <= weight es.
Proof.
  induction 1 as [|e es [_ [He _]] _ IH]; simpl; [lia|]. unfold nanos. lia.
Qed.

Lemma room_get t s es r : room (EGet t s :: es) r -> room es (snd (reserve t s r)).
Proof.
  intros (Hl & Hok & H1 & H2). apply Forall_cons in Hok as [He Hok].
  pose proof (weight_nonneg _ _ Hok) as Hw. simpl in H2. destruct He as (Ht & Hs & Hsz).
  cbn [event_size event_now] in *. assert (0 < s * nanos) by (unfold nanos; lia).
  pose proof (reserve_eq t s r Hl (conj Ht (conj Hs Hsz)) ltac:(lia)) as E.
  destruct (reserve t s r) as [w r']. destruct E as (_ & E1 & E2 & E3 & E4).
  destruct (ns_cost_bounds (rate r) s Hs (proj1 (proj2 Hl))) as [[Hc1 Hc2] _].
  destruct Hl as (_ & _ & Hb). unfold room. cbn [snd]. rewrite E3. split_and!; [done..| |]; lia.
Qed.

Lemma room_return t s es r : room (EReturn t s :: es) r -> room es (ReturnBucket t s r).
Proof.
  intros (Hl & Hok & H1 & H2). apply Forall_cons in Hok as [He Hok].
  pose proof (weight_nonneg _ _ Hok) as Hw. simpl in H2. destruct He as (Ht & Hs & Hsz).
  cbn [event_size event_now] in *. assert (0 < s * nanos) by (unfold nanos; lia).
  destruct (ReturnBucket_eq t s r Hl (conj Ht (conj Hs Hsz)) ltac:(lia)) as (E1 & E2 & E3 & E4).
  destruct (ns_cost_bounds (rate r) s Hs (proj1 (proj2 Hl))) as [[Hc1 Hc2] _].
  destruct Hl as (_ & _ & Hb). unfold room. rewrite E3. split_and!; [done..| |]; lia.
Qed.

Lemma room_tat es r : room es r -> - 2 ^ 61 <= tat r <= 2 ^ 62.
Proof. intros (Hl & Hok & H1 & H2). pose proof (weight_nonneg _ _ Hok). lia. Qed.

(** ** The token bucket *)

(** The bucket holds time: [tokens] nanoseconds of transfer at [last], refilled at
    the speed of the clock up to [burst]; a request takes its cost even when that
    leaves a debt, and waits for the debt. *)
Record bucket := mkBucket { tokens : Z; last : Z }.

Definition bucket_step (burst rt : Z) (e : rate_event) (b : bucket) : Z * bucket :=
  match e with
  | EGet t s =>
    let left := Z.min burst (tokens b + (t - last b)) - ns_cost rt s in
    (Z.max 0 (- left), mkBucket left t)
  | EReturn t s => (0, mkBucket (Z.min burst (tokens b + (t - last b) + ns_cost rt s)) t)
  end.

Fixpoint bucket_run (burst rt : Z) (es : list rate_event) (b : bucket) : list Z * bucket :=
  match es with
  | [] => ([], b)
  | e :: es =>
    let '(w, b) := bucket_step burst rt e b in
    let '(ws, b) := bucket_run burst rt es b in (w :: ws, b)
  end.

Lemma rate_run_bucket es : forall r b,
  room es r -> tokens b = last b - tat r ->
  let '(ws, r') := rate_run es r in
  let '(ws', b') := bucket_run (burstNs r) (rate r) es b in
  ws = ws' /\ tokens b' = last b' - tat r'.
Proof.
  induction es as [|e es IH]; intros r b Hroom Hb; [done|].
  pose proof (room_tat _ _ Hroom) as Htat. pose proof Hroom as (Hl & Hok & _).
  apply Forall_cons in Hok as [He _]. destruct e as [t s|t s]; cbn [rate_run bucket_run bucket_step].
  - pose proof (room_get _ _ _ _ Hroom) as Hr'. pose proof (reserve_eq t s r Hl He Htat) as E.
    destruct (reserve t s r) as [w r1]. destruct E as (E0 & E1 & _ & E3 & E4).
    set (b1 := mkBucket (Z.min (burstNs r) (tokens b + (t - last b)) - ns_cost (rate r) s) t).
    specialize (IH r1 b1 Hr' ltac:(cbn; lia)). rewrite E3, E4 in IH.
    destruct (rate_run es r1) as [ws r']. destruct (bucket_run _ _ es b1) as [ws' b'].
    destruct IH as [-> IH]. split; [|done]. f_equal. lia.
  - pose proof (room_return _ _ _ _ Hroom) as Hr'.
    destruct (ReturnBucket_eq t s r Hl He Htat) as (E1 & _ & E3 & E4).
    set (b1 := mkBucket (Z.min (burstNs r) (tokens b + (t - last b) + ns_cost (rate r) s)) t).
    specialize (IH (ReturnBucket t s r) b1 Hr' ltac:(cbn; lia)). rewrite E3, E4 in IH.
    destruct (rate_run es (ReturnBucket t s r)) as [ws r']. destruct (bucket_run _ _ es b1) as [ws' b'].
    destruct IH as [-> IH]. by split.
Qed.

(** ** Bytes granted in a window *)
Definition granted (es : list rate_event) : Z :=
  foldr (fun e acc => match e with EGet _ s => s | EReturn _ s => - s end + acc) 0 es.
Definition refunds (es : list rate_event) : Z :=
  foldr (fun e acc => match e with EGet _ _ => 0 | EReturn _ _ => 1 end + acc) 0 es.

(** The arrival time advances at least by what was granted. *)
Lemma rate_run_lower es : forall r, room es r ->
  let r' := snd (rate_run es r) in
  granted es * nanos <= rate r * (tat r' - tat r + refunds es) /\
  limited r' /\ rate r' = rate r /\ burstNs r' = burstNs r.
Proof.
  induction es as [|e es IH]; intros r Hroom.
  - cbn. split_and!; try done; [lia|apply Hroom].
  - pose proof (room_tat _ _ Hroom) as Htat. pose proof Hroom as (Hl & Hok & _).
    apply Forall_cons in Hok as [He _]. pose proof He as (_ & Hs & _).
    destruct (ns_cost_bounds (rate r) (event_size e) Hs (proj1 (proj2 Hl))) as [_ Hc].
    destruct e as [t s|t s]; cbn [rate_run granted refunds foldr event_size] in *;
      fold (granted es) (refunds es).
    + pose proof (room_get _ _ _ _ Hroom) as Hr'. pose proof (reserve_eq t s r Hl He Htat) as E.
      destruct (reserve t s r) as [w r1]. destruct E as (_ & E1 & _ & E3 & E4).
      specialize (IH r1 Hr'). destruct (rate_run es r1) as [ws r']. cbn [snd] in *.
      destruct IH as (H1 & H2 & H3 & H4). rewrite E3 in H1, H3. rewrite E4 in H4.
      split_and!; try done. destruct Hl as (_ & Hpos & _). clear -H1 E1 Hc Hpos. nia.
    + pose proof (room_return _ _ _ _ Hroom) as Hr'.
      destruct (ReturnBucket_eq t s r Hl He Htat) as (E1 & _ & E3 & E4).
      specialize (IH _ Hr'). destruct (rate_run es (ReturnBucket t s r)) as [ws r']. cbn [snd] in *.
      destruct IH as (H1 & H2 & H3 & H4). rewrite E3 in H1, H3. rewrite E4 in H4.
      split_and!; try done. destruct Hl as (_ & Hpos & _). clear -H1 E1 Hc Hpos. nia.
Qed.

Lemma rate_run_app es1 es2 : forall r,
  rate_run (es1 ++ es2) r =
  (fst (rate_run es1 r) ++ fst (rate_run es2 (snd (rate_run es1 r))), snd (rate_run es2 (snd (rate_run es1 r)))).
Proof.
  induction es1 as [|e es1 IH]; intros r; [cbn; by destruct (rate_run es2 r)|].
  destruct e as [t s|t s]; cbn [rate_run app].
  - destruct (reserve t s r) as [w r1]. rewrite IH. by destruct (rate_run es1 r1).
  - rewrite IH. by destruct (rate_run es1 (ReturnBucket t s r)).
Qed.

Lemma room_app es1 es2 : forall r, room (es1 ++ es2) r -> room es2 (snd (rate_run es1 r)).
Proof.
  induction es1 as [|e es1 IH]; intros r Hr; [done|]. destruct e as [t s|t s]; cbn [rate_run].
  - apply room_get in Hr. destruct (reserve t s r) as [w r1]. specialize (IH r1 Hr).
    by destruct (rate_run es1 r1).
  - apply room_return in Hr. specialize (IH _ Hr). by destruct (rate_run es1 (ReturnBucket t s r)).
Qed.

(** ** Hierarchies: the reference *)

(** The levels a list of limiters has, and what charging them all means: one
    reservation per level in order, and the longest of their waits. *)
Definition levels (w : world) (limiters : list (option nat)) : list nat := omap (enabledLimiter w) limiters.
Definition charge_all (clock : nat -> Z) (size : Z) (ls : list nat) (w : world) : Z * nat * world :=
  foldl (level_reserve clock size) (0, 0%nat, w) ls.

Definition hier_levels (l : HierarchicalLimiter) : list nat :=
  option_list (first l) ++ option_list (second l) ++ option_list (third l) ++ extra l.

(** The builder fills its slots in order. *)
Definition builder_ok (b : HierarchicalLimiter) : Prop :=
  count b = length (hier_levels b) /\
  match count b with
  | 0%nat => first b = None /\ second b = None /\ third b = None /\ extra b = []
  | 1%nat => is_Some (first b) /\ second b = None /\ third b = None /\ extra b = []
  | 2%nat => is_Some (first b) /\ is_Some (second b) /\ third b = None /\ extra b = []
  | _ => is_Some (first b) /\ is_Some (second b) /\ is_Some (third b)
  end.

Lemma builder_add_levels w b o : builder_ok b ->
  builder_ok (builder_add w b o) /\
  hier_levels (builder_add w b o) = hier_levels b ++ option_list (enabledLimiter w o).
Proof.
  intros [Hc Hs]. unfold builder_add. destruct (enabledLimiter w o) as [a|].
  - destruct b as [f s t e c st]. unfold hier_levels, builder_ok in *. cbn [first second third extra count h_stopCh] in *.
    destruct c as [|[|[|c]]]; destruct Hs as (Hf & Hs & Ht); [destruct Ht as [Ht He]..|];
      repeat match goal with H : is_Some _ |- _ => destruct H as [? ->] end; subst;
      cbn in *; rewrite ?length_app; cbn; split_and!; eauto; lia.
  - cbn. by rewrite app_nil_r.
Qed.

Lemma builder_fold_levels w os : forall b, builder_ok b ->
  let b' := foldl (builder_add w) b os in
  builder_ok b' /\ hier_levels b' = hier_levels b ++ levels w os.
Proof.
  induction os as [|o os IH]; intros b Hb; cbn [foldl].
  - split; [done|]. cbn. by rewrite app_nil_r.
  - destruct (builder_add_levels w b o Hb) as [H1 H2]. destruct (IH _ H1) as [H3 H4].
    split; [done|]. rewrite H4, H2, <- app_assoc. f_equal. unfold levels. cbn. by destruct (enabledLimiter w o).
Qed.

Lemma opt_level_fold clock size acc o :
  opt_level clock size acc o = foldl (level_reserve clock size) acc (option_list o).
Proof. by destruct o. Qed.

Lemma hier_Get_levels clock size l w : 0 < size ->
  hier_Get clock size l w =
  let '(maxWait, _, w') := charge_all clock size (hier_levels l) w in
  (if coalesceWaitNs <? maxWait then sleepNs (closed_ch w') maxWait (h_stopCh l) else 0, w').
Proof.
  intros Hs. unfold hier_Get, charge_all, hier_levels. rewrite (proj2 (Z.leb_gt size 0)) by lia.
  by rewrite !opt_level_fold, !foldl_app.
Qed.

Lemma reserve_at_nonneg now size a w : 0 <= fst (reserve_at now size a w).
Proof.
  unfold reserve_at. destruct (rates w !! a) as [r|]; [|done]. unfold reserve.
  repeat (case_match; simplify_eq/=; zbool); lia.
Qed.

(** A hierarchy of one is the limiter itself. *)
Lemma single_level clock size a w :
  exists ch, limiter_Get clock size (LRate (Some a)) w =
  let '(maxWait, _, w') := charge_all clock size [a] w in
  (if coalesceWaitNs <? maxWait then sleepNs (closed_ch w') maxWait ch else 0, w').
Proof.
  cbn [limiter_Get charge_all foldl level_reserve]. unfold Get, charge_all. cbn [foldl level_reserve].
  pose proof (reserve_at_nonneg (clock 0%nat) size a w).
  destruct (reserve_at (clock 0%nat) size a w) as [wait w1]. cbn [fst] in *. exists (stopCh a w1).
  destruct (Z.ltb_spec 0 wait); destruct (Z.leb_spec wait coalesceWaitNs);
    rewrite ?(proj2 (Z.ltb_ge coalesceWaitNs _)), ?(proj2 (Z.ltb_lt coalesceWaitNs _)) by (unfold coalesceWaitNs in *; lia); try done.
  unfold coalesceWaitNs in *. lia.
Qed.

(** ** Properties *)

(** C27. The limiter keeps its rate: between any grant at time [t] and the end of the
    wait of any later one, the bytes granted less those returned are at most what
    the rate allows for that time and the burst (plus one nanosecond per refund, the
    rounding), whatever the clock readings in between. *)
Theorem rate_conformance r t s mid t' s' :
  room (EGet t s :: mid ++ [EGet t' s']) r ->
  exists wait, list.last (fst (rate_run (EGet t s :: mid ++ [EGet t' s']) r)) = Some wait /\ 0 <= wait /\
    granted (EGet t s :: mid ++ [EGet t' s']) * nanos
      <= rate r * (t' + wait - t + burstNs r + refunds (EGet t s :: mid ++ [EGet t' s'])).
Proof.
  intros Hroom. pose proof (room_tat _ _ Hroom) as Htat. pose proof Hroom as (Hl & Hok & _).
  apply Forall_cons in Hok as [He _]. pose proof He as (_ & Hs & _). pose proof (room_get _ _ _ _ Hroom) as Hr1.
  destruct (ns_cost_bounds (rate r) s Hs (proj1 (proj2 Hl))) as [_ Hc].
  pose proof (reserve_eq t s r Hl He Htat) as E. cbn [rate_run].
  destruct (reserve t s r) as [w r1]. destruct E as (_ & E1 & _ & E3 & E4). cbn [snd] in Hr1.
  pose proof (room_app _ _ _ Hr1) as Hr2. destruct (rate_run_lower _ _ Hr1) as (Hlow & _).
  rewrite rate_run_app in Hlow |- *. set (r2 := snd (rate_run mid r1)) in *. cbn [fst snd] in *.
  pose proof (room_tat _ _ Hr2) as Htat2. destruct Hr2 as (Hl2 & Hok2 & _).
  apply Forall_cons in Hok2 as [He2 _]. pose proof (reserve_eq t' s' r2 Hl2 He2 Htat2) as E.
  cbn [rate_run] in *. destruct (reserve t' s' r2) as [w' r3]. destruct E as (Ew & Et & _).
  cbn [fst snd] in *. exists w'. split_and!; [by rewrite app_comm_cons, last_snoc|lia|].
  cbn [granted refunds foldr]. fold (granted (mid ++ [EGet t' s'])) (refunds (mid ++ [EGet t' s'])).
  rewrite E3 in Hlow. destruct Hl as (_ & Hpos & _). clear -Hlow Hc E1 Ew Et Hpos. nia.
Qed.

(** A limiter of 1000 bytes per second, as [NewRate] makes it. *)
Definition example_rate : Rate := NewRate 0 0 1000.
Definition example_mid : list rate_event := [EGet 10 1500; EReturn 20 500].

Lemma example_room es : Forall (event_ok 1000) es -> weight es <= 2 ^ 61 -> room es example_rate.
Proof.
  intros H1 H2. assert (limited example_rate) by (split_and!; vm_compute; congruence).
  assert (E : tat example_rate = -2000000000) by reflexivity.
  split_and!; [done|done|rewrite E; lia|rewrite E; lia].
Qed.

Lemma rate_conformance_witness :
  exists wait, list.last (fst (rate_run (EGet 0 1000 :: example_mid ++ [EGet 30 900]) example_rate)) = Some wait /\
    0 <= wait /\
    granted (EGet 0 1000 :: example_mid ++ [EGet 30 900]) * nanos
      <= rate example_rate * (30 + wait - 0 + burstNs example_rate + refunds (EGet 0 1000 :: example_mid ++ [EGet 30 900])).
Proof.
  apply (rate_conformance example_rate 0 1000 example_mid 30 900). apply example_room.
  - repeat constructor; vm_compute; congruence.
  - vm_compute. congruence.
Defined.

(** C29. The arrival-time bookkeeping is a token bucket: over any history of
    reservations and refunds, each wait is the one of the bucket that refills with
    the clock up to the burst and goes into debt for the excess. *)
Theorem gcra_refines_token_bucket r es now :
  room es r ->
  fst (rate_run es r) = fst (bucket_run (burstNs r) (rate r) es (mkBucket (now - tat r) now)).
Proof.
  intros Hr. pose proof (rate_run_bucket es r (mkBucket (now - tat r) now) Hr eq_refl) as H.
  destruct (rate_run es r), (bucket_run _ _ es _). apply H.
Qed.

Lemma gcra_refines_token_bucket_witness :
  fst (rate_run (EGet 0 5000 :: example_mid) example_rate)
    = fst (bucket_run (burstNs example_rate) 1000 (EGet 0 5000 :: example_mid) (mkBucket (2 * nanos) 0)).
Proof.
  apply (gcra_refines_token_bucket example_rate (EGet 0 5000 :: example_mid) 0). apply example_room.
  - repeat constructor; vm_compute; congruence.
  - vm_compute. congruence.
Defined.

(** A hierarchy charges every enabled level once: whatever the number of
    limiters it was built from, [Get] reserves on each enabled one in order, leaves
    the store as those reservations do, and sleeps for the longest of their waits
    unless that is within the coalescing bound or its stop channel is closed. *)
Theorem hierarchy_charges_every_level w limiters clock size :
  0 < size ->
  exists ch,
    limiter_Get clock size (NewHierarchicalLimiter w limiters) w =
    let '(maxWait, _, w') := charge_all clock size (levels w limiters) w in
    (if coalesceWaitNs <? maxWait then sleepNs (closed_ch w') maxWait ch else 0, w').
Proof.
  intros Hs.
  assert (Hb : forall os, exists ch, limiter_Get clock size (build (foldl (builder_add w) new_builder os)) w =
    let '(maxWait, _, w') := charge_all clock size (levels w os) w in
    (if coalesceWaitNs <? maxWait then sleepNs (closed_ch w') maxWait ch else 0, w')).
  { intros os. destruct (builder_fold_levels w os new_builder) as [[Hc Hk] Hl]; [done|].
    rewrite <- (app_nil_l (levels w os)). change [] with (hier_levels new_builder). rewrite <- Hl.
    set (b := foldl _ _ os) in *. unfold build. destruct (count b) as [|[|c]] eqn:Ec.
    - destruct Hk as (H1 & H2 & H3 & H4). unfold hier_levels. rewrite H1, H2, H3, H4. by exists None.
    - destruct Hk as ([a H1] & H2 & H3 & H4). unfold hier_levels. rewrite H1, H2, H3, H4.
      apply single_level.
    - exists (h_stopCh b). cbn [limiter_Get]. by rewrite hier_Get_levels. }
  destruct limiters as [|a [|b [|c [|d rest]]]].
  - by exists None.
  - unfold levels. cbn [NewHierarchicalLimiter omap list_omap].
    destruct (enabledLimiter w a) as [x|]; [apply single_level|by exists None].
  - apply (Hb [a; b]).
  - apply (Hb [a; b; c]).
  - apply (Hb (a :: b :: c :: d :: rest)).
Qed.

Lemma hierarchy_charges_every_level_witness :
  let w := mkW {[0%nat := NewRate 0 0 1000; 1%nat := NewRate 1 0 0; 2%nat := NewRate 2 0 500]} ∅ 3 in
  exists ch,
    limiter_Get (fun _ => 0) 9000 (NewHierarchicalLimiter w [Some 0%nat; Some 1%nat; Some 2%nat; None]) w =
    let '(maxWait, _, w') := charge_all (fun _ => 0) 9000
      (levels w [Some 0%nat; Some 1%nat; Some 2%nat; None]) w in
    (if coalesceWaitNs <? maxWait then sleepNs (closed_ch w') maxWait ch else 0, w').
Proof. intros w. apply (hierarchy_charges_every_level w). lia. Defined.

Lemma charge_keeps_channels clock size ls : forall acc,
  closed_ch (snd (foldl (level_reserve clock size) acc ls)) = closed_ch (snd acc).
Proof.
  induction ls as [|a ls IH]; intros [[mw i] w]; [done|]. cbn [foldl]. rewrite IH. cbn [level_reserve].
  unfold reserve_at. destruct (rates w !! a) as [r|]; [|done]. by destruct (reserve (clock i) size r).
Qed.

(** A hierarchy stops throttling when the limit of its first level is changed:
    it keeps the stop channel of the time it was built, [ResetLimit] closes that
    channel and opens a new one, and from then on [Get] never sleeps longer than
    [shortWaitNs], whatever wait the levels ask for. *)
Theorem hierarchy_unthrottled_after_reset w a b ra ch h now limit clock size :
  rates w !! a = Some ra -> stop ra = Some ch -> stopped ra = false -> 0 < rate ra ->
  NewHierarchicalLimiter2 w (Some a) b = LHier h ->
  fst (hier_Get clock size h (ResetLimit now limit a w)) <= shortWaitNs.
Proof.
  intros Ha Hch Hst Hr Hh.
  assert (Hs : h_stopCh h = Some ch).
  { unfold NewHierarchicalLimiter2, builder_add in Hh. cbn [enabledLimiter] in Hh. rewrite Ha in Hh.
    unfold Limit in Hh. rewrite (proj2 (Z.leb_gt _ 0)) in Hh by lia. cbn [new_builder count h_stopCh] in Hh.
    unfold stopCh in Hh. rewrite Ha in Hh. cbn [mbind option_bind] in Hh. rewrite Hch in Hh.
    destruct (enabledLimiter w b); [|done]. cbn in Hh. injection Hh as <-. done. }
  assert (Hc : ch ∈ closed_ch (ResetLimit now limit a w)).
  { unfold ResetLimit, Stop. rewrite Ha, Hch, Hst. cbn [rates]. rewrite lookup_insert_eq. unfold Start, upd_rate.
    cbn [rates closed_ch]. rewrite lookup_insert_eq. cbn. set_solver. }
  set (w1 := ResetLimit now limit a w) in *. clearbody w1.
  destruct (Z.leb_spec size 0) as [|Hpos]; [unfold hier_Get; rewrite (proj2 (Z.leb_le _ _)) by lia; done|].
  rewrite hier_Get_levels by done. pose proof (charge_keeps_channels clock size (hier_levels h) (0, 0%nat, w1)) as Hk.
  fold (charge_all clock size (hier_levels h) w1) in Hk.
  destruct (charge_all clock size (hier_levels h) w1) as [[mw i] w2]. cbn [snd fst] in *.
  rewrite Hk, Hs. unfold sleepNs, shortWaitNs. rewrite bool_decide_true by done.
  repeat case_match; zbool; lia.
Qed.

(** One gigabyte through a hierarchy of one megabyte per second, after the limit of
    its first level was set again. *)
Lemma hierarchy_unthrottled_after_reset_witness :
  let w := mkW {[0%nat := NewRate 0 0 1000000; 1%nat := NewRate 1 0 1000000]} ∅ 2 in
  exists h, NewHierarchicalLimiter2 w (Some 0%nat) (Some 1%nat) = LHier h /\
    fst (hier_Get (fun _ => 0) 1000000000 h w) = 998 * nanos /\
    fst (hier_Get (fun _ => 0) 1000000000 h (ResetLimit 0 1000000 0 w)) <= shortWaitNs.
Proof.
  intros w. eexists. split; [reflexivity|]. split; [vm_compute; reflexivity|].
  apply (hierarchy_unthrottled_after_reset w 0 (Some 1%nat) (NewRate 0 0 1000000) 0); done.
Defined.
