(* ===== verification/DomainIndex.v ===== *)
(** The domain index: a trie of reversed labels, copied on every change.

    Source: [lib/index/host.go].

    A [*node] is never changed once it is in a tree, so a node is a value; the
    sets and maps of Go are [gset] and [gmap], and the order in which [Lookup]
    lists the ids is not specified. *)

From stdpp Require Import gmap.
From S2P Require Import Prelude GoString.
Local Open Scope Z_scope.

(** ** The trie *)
Inductive node := Node (children : gmap string node) (ids : gset Z).

Definition children (n : node) : gmap string node := let 'Node c _ := n in c.
Definition ids (n : node) : gset Z := let 'Node _ i := n in i.
Definition empty_node : node := Node ∅ ∅.
Definition NewDomainTree : node := empty_node.

Definition splitDomain (domain : string) : list string :=
  let d := ToLower (TrimSpace domain) in
  if decide (d = EmptyString) then [] else reverse (split_on "."%char d).

Fixpoint cloneAdd (parts : list string) (id : Z) (n : node) : node :=
  match parts with
  | [] => Node (children n) ({[id]} ∪ ids n)
  | p :: parts =>
    let child := default empty_node (children n !! p) in
    Node (<[p := cloneAdd parts id child]> (children n)) (ids n)
  end.

Definition CloneAdd (domain : string) (id : Z) (root : node) : node := cloneAdd (splitDomain domain) id root.

(** [None] is the pair of a nil node and the flag to delete it. *)
Fixpoint cloneRemove (parts : list string) (id : Z) (n : node) : option node :=
  let '(newChildren, newIDs) :=
    match parts with
    | [] => (children n, ids n ∖ {[id]})
    | p :: parts =>
      (match children n !! p with
       | Some child =>
         match cloneRemove parts id child with
         | None => delete p (children n)
         | Some nc => <[p := nc]> (children n)
         end
       | None => children n
       end, ids n)
    end in
  if decide (newIDs = ∅ /\ newChildren = ∅) then None else Some (Node newChildren newIDs).

Definition CloneRemove (domain : string) (id : Z) (root : node) : node :=
  match cloneRemove (splitDomain domain) id root with
  | None => NewDomainTree
  | Some n => n
  end.

Fixpoint lookup_parts (n : node) (parts : list string) (out : gset Z) : gset Z :=
  let out := ids n ∪ out in
  match parts with
  | [] => out
  | p :: parts => match children n !! p with
                  | Some child => lookup_parts child parts out
                  | None => out
                  end
  end.

Definition tree_Lookup (root : node) (domain : string) : gset Z := lookup_parts root (splitDomain domain) ∅.

Fixpoint has (n : node) (parts : list string) (id : Z) : bool :=
  match parts with
  | [] => bool_decide (id ∈ ids n)
  | p :: parts => match children n !! p with Some child => has child parts id | None => false end
  end.

Definition Has (root : node) (domain : string) (id : Z) : bool := has root (splitDomain domain) id.

(** ** The index *)
Definition normalizeDomain (domain : string) : string :=
  let d := ToLower (TrimSpace domain) in
  let d := TrimPrefix d "*." in
  TrimPrefix d "*".

Definition index_Lookup (tree : node) (domain : string) : gset Z :=
  tree_Lookup tree (ToLower (TrimSpace domain)).
Definition index_Add (tree : node) (domain : string) (id : Z) : node :=
  let d := normalizeDomain domain in
  if Has tree d id then tree else CloneAdd d id tree.
Definition index_Remove (tree : node) (domain : string) (id : Z) : node :=
  let d := normalizeDomain domain in
  if Has tree d id then CloneRemove d id tree else tree.
Definition Destroy (tree : node) : node := NewDomainTree.

Inductive index_op :=
| IAdd (domain : string) (id : Z)
| IRemove (domain : string) (id : Z)
| IDestroy.

Definition index_step (t : node) (o : index_op) : node :=
  match o with
  | IAdd d i => index_Add t d i
  | IRemove d i => index_Remove t d i
  | IDestroy => Destroy t
  end.

(** ** What a trie holds *)
Lemma has_add parts id : forall n p i,
  has (cloneAdd parts id n) p i = true <-> (p = parts /\ i = id) \/ has n p i = true.
Proof.
  induction parts as [|a parts IH]; intros n p i; destruct p as [|b p]; cbn.
  - rewrite !bool_decide_eq_true. set_solver.
  - naive_solver.
  - naive_solver.
  - destruct (decide (a = b)) as [->|Hne].
    + rewrite lookup_insert_eq, IH. destruct (children n !! b) as [c|]; cbn; [naive_solver|].
      assert (Hf : has empty_node p i = false) by (by destruct p).
      rewrite Hf. naive_solver.
    + rewrite lookup_insert_ne by done. naive_solver.
Qed.

Definition has_opt (o : option node) (p : list string) (i : Z) : bool :=
  match o with Some n => has n p i | None => false end.

Lemma has_opt_node c s p i :
  has_opt (if decide (s = ∅ /\ c = ∅) then None else Some (Node c s)) p i = has (Node c s) p i.
Proof. case_decide as H; [|done]. destruct H as [-> ->]. by destruct p. Qed.

Lemma has_remove parts id : forall n p i,
  has_opt (cloneRemove parts id n) p i = true <-> has n p i = true /\ ~ (p = parts /\ i = id).
Proof.
  induction parts as [|a parts IH]; intros n p i; cbn [cloneRemove]; rewrite has_opt_node.
  - destruct p as [|b p]; cbn; [rewrite !bool_decide_eq_true; set_solver|]. naive_solver.
  - destruct p as [|b p]; cbn; [naive_solver|]. destruct (children n !! a) as [c|] eqn:Ea.
    + specialize (IH c p i). destruct (decide (a = b)) as [->|Hne].
      * rewrite Ea. destruct (cloneRemove parts id c); cbn in IH; [rewrite lookup_insert_eq|rewrite lookup_delete_eq];
          naive_solver.
      * destruct (cloneRemove parts id c); [rewrite lookup_insert_ne by done|rewrite lookup_delete_ne by done];
          naive_solver.
    + destruct (decide (a = b)) as [->|Hne]; [rewrite Ea; naive_solver|naive_solver].
Qed.

Lemma lookup_parts_spec parts : forall n out i,
  i ∈ lookup_parts n parts out <-> i ∈ out \/ exists p, p `prefix_of` parts /\ has n p i = true.
Proof.
  induction parts as [|a parts IH]; intros n out i; cbn [lookup_parts].
  - rewrite elem_of_union. split.
    + intros [H|H]; [right; exists []; cbn; by rewrite bool_decide_eq_true|by left].
    + intros [H|(p & Hp%prefix_nil_inv & H)]; [by right|]. subst. cbn in H. rewrite bool_decide_eq_true in H. by left.
  - assert (Hsplit : (exists p, p `prefix_of` a :: parts /\ has n p i = true) <->
      i ∈ ids n \/ exists c p, children n !! a = Some c /\ p `prefix_of` parts /\ has c p i = true).
    { split.
      - intros (p & Hp & H). destruct p as [|b p]; [left; by rewrite <- bool_decide_eq_true|].
        pose proof (prefix_cons_inv_1 _ _ _ _ Hp). subst. apply prefix_cons_inv_2 in Hp. cbn in H.
        destruct (children n !! a) as [c|]; [|done]. right. by exists c, p.
      - intros [H|(c & p & Hc & Hp & H)]; [exists []; split; [apply prefix_nil|]; by apply bool_decide_eq_true|].
        exists (a :: p). split; [by apply prefix_cons|]. cbn. by rewrite Hc. }
    rewrite Hsplit. destruct (children n !! a) as [c|]; [rewrite IH|]; rewrite elem_of_union; naive_solver.
Qed.

(** ** The contract *)

(** Names as the trie compares them. *)
Definition canon (domain : string) : string := ToLower (TrimSpace domain).

(** The entries a history leaves: pairs of a name and an id. *)
Definition entries_step (e : gset (string * Z)) (o : index_op) : gset (string * Z) :=
  match o with
  | IAdd d i => {[(canon (normalizeDomain d), i)]} ∪ e
  | IRemove d i => e ∖ {[(canon (normalizeDomain d), i)]}
  | IDestroy => ∅
  end.

(** An entry covers a host that is its name or ends in its name after a dot; the
    empty name covers every host. *)
Definition covers (name host : string) : Prop :=
  name = EmptyString \/ host = name \/ exists x, host = x +:+ String "."%char name.

Definition parts_of (name : string) : list string :=
  if decide (name = EmptyString) then [] else reverse (split_on "."%char name).

Lemma splitDomain_canon d : splitDomain d = parts_of (canon d).
Proof. reflexivity. Qed.

Lemma parts_of_inj x y : parts_of x = parts_of y -> x = y.
Proof.
  unfold parts_of. intros H. repeat case_decide; subst; try done.
  - apply (f_equal reverse) in H. rewrite reverse_involutive in H. by apply symmetry, split_on_not_nil in H.
  - apply (f_equal reverse) in H. rewrite reverse_involutive in H. by apply split_on_not_nil in H.
  - apply (f_equal reverse) in H. rewrite !reverse_involutive in H. by apply split_inj in H.
Qed.

Lemma parts_of_covers name host : host <> EmptyString ->
  (parts_of name `prefix_of` parts_of host <-> covers name host).
Proof.
  intros Hh. unfold parts_of, covers. rewrite (decide_False (P := host = _)) by done. case_decide as Hn.
  - split; [by left|]. intros _. apply prefix_nil.
  - rewrite <- suffix_prefix_reverse, split_suffix. naive_solver.
Qed.

(** The trie holds exactly the entries. *)
Definition represents (t : node) (e : gset (string * Z)) : Prop :=
  (forall name i, has t (parts_of name) i = true <-> (name, i) ∈ e) /\
  (forall p i, has t p i = true -> exists name, p = parts_of name).

Lemma represents_step t e o : represents t e -> represents (index_step t o) (entries_step e o).
Proof.
  intros [H1 H2]. destruct o as [d i|d i|]; cbn [index_step entries_step].
  - unfold index_Add, Has, CloneAdd. rewrite splitDomain_canon. set (x := canon (normalizeDomain d)).
    destruct (has t (parts_of x) i) eqn:Eh.
    + split; [|done]. intros name j. rewrite H1. apply H1 in Eh. set_solver.
    + split; intros p j; rewrite has_add.
      * rewrite H1, elem_of_union, elem_of_singleton. split; [|naive_solver].
        intros [[->%parts_of_inj ->]|?]; naive_solver.
      * intros [[-> ->]|?]; eauto.
  - unfold index_Remove, Has, CloneRemove. rewrite splitDomain_canon. set (x := canon (normalizeDomain d)).
    destruct (has t (parts_of x) i) eqn:Eh.
    + assert (Hr : forall p j, has (default NewDomainTree (cloneRemove (parts_of x) i t)) p j = true
        <-> has t p j = true /\ ~ (p = parts_of x /\ j = i)).
      { intros p j. rewrite <- has_remove. destruct (cloneRemove _ _ _); [done|]. cbn. by destruct p. }
      assert (E : match cloneRemove (parts_of x) i t with Some n => n | None => NewDomainTree end
        = default NewDomainTree (cloneRemove (parts_of x) i t)) by (by destruct (cloneRemove _ _ _)).
      rewrite E. split; intros p j; rewrite Hr.
      * rewrite H1, elem_of_difference, elem_of_singleton. split.
        -- intros [? Hn]. split; [done|]. intros [= -> ->]. by apply Hn.
        -- intros [? Hn]. split; [done|]. intros [->%parts_of_inj ->]. by apply Hn.
      * intros [? _]. eauto.
    + split; [|done]. intros name j. rewrite H1, elem_of_difference, elem_of_singleton.
      split; [|naive_solver]. intros Hin. split; [done|]. intros [= -> ->]. apply H1 in Hin. congruence.
  - split; intros p j; cbn.
    + destruct (parts_of p); cbn; set_solver.
    + by destruct p.
Qed.

Lemma represents_run ops : forall t e, represents t e ->
  represents (foldl index_step t ops) (foldl entries_step e ops).
Proof. induction ops as [|o ops IH]; intros t e H; [done|]. apply IH. by apply represents_step. Qed.

Lemma represents_new : represents NewDomainTree ∅.
Proof. split; intros p i; [destruct (parts_of p)|destruct p]; cbn; set_solver. Qed.

Lemma canon_idem d : canon (canon d) = canon d.
Proof. unfold canon. by rewrite TrimSpace_lower, TrimSpace_idem, ToLower_idem. Qed.

(** ** Nodes of the trie *)
Fixpoint descend (n : node) (p : list string) : option node :=
  match p with
  | [] => Some n
  | a :: p => children n !! a ≫= fun c => descend c p
  end.

Definition live (n : node) : Prop := exists q i, has n q i = true.
Definition all_live (n : node) : Prop := forall p n', p <> [] -> descend n p = Some n' -> live n'.

Lemma all_live_children n :
  all_live n <-> forall a c, children n !! a = Some c -> live c /\ all_live c.
Proof.
  split.
  - intros H a c Hc. split; [apply (H [a]); [done|]; cbn; by rewrite Hc|].
    intros p n' Hp Hd. apply (H (a :: p)); [done|]. cbn. by rewrite Hc.
  - intros H [|a p] n' Hp Hd; [done|]. cbn in Hd. destruct (children n !! a) as [c|] eqn:Ec; [|done].
    destruct (H a c Ec) as [Hl Ha]. destruct p; [by simplify_eq/=|]. by apply (Ha (s :: p)).
Qed.

Lemma live_add parts id n : live (cloneAdd parts id n).
Proof. exists parts, id. apply has_add. by left. Qed.

Lemma all_live_add parts id : forall n, all_live n -> all_live (cloneAdd parts id n).
Proof.
  induction parts as [|a parts IH]; intros n Hn; rewrite all_live_children in Hn |- *; cbn; [done|].
  intros b c. rewrite lookup_insert_Some. intros [[<- <-]|[Hne Hc]]; [|by apply (Hn b)].
  split; [apply live_add|]. apply IH. destruct (children n !! a) as [c|] eqn:Ec; cbn; [by apply (Hn a)|].
  by intros [|? ?].
Qed.

Lemma live_node (c : gmap string node) (s : gset Z) :
  ~ (s = ∅ /\ c = ∅) -> (forall a x, c !! a = Some x -> live x) -> live (Node c s).
Proof.
  intros Hne Hc. destruct (decide (s = ∅)) as [Hs|Hs].
  - destruct (map_choose c) as (a & x & Hx); [naive_solver|]. destruct (Hc a x Hx) as (q & i & Hq).
    exists (a :: q), i. cbn. by rewrite Hx.
  - apply set_choose_L in Hs as [i Hi]. exists [], i. by apply bool_decide_eq_true.
Qed.

Lemma all_live_remove parts id : forall n, all_live n ->
  match cloneRemove parts id n with Some r => live r /\ all_live r | None => True end.
Proof.
  induction parts as [|a parts IH]; intros n Hn; cbn [cloneRemove]; case_decide as Hd; try done;
    rewrite all_live_children in Hn.
  - split; [apply live_node; [done|]; intros b x Hx; apply (Hn b x Hx)|]. by apply all_live_children.
  - assert (Hc : forall b x, (match children n !! a with
         | Some child => match cloneRemove parts id child with
           | Some nc => <[a:=nc]> (children n) | None => delete a (children n) end
         | None => children n end) !! b = Some x -> live x /\ all_live x).
    { intros b x. destruct (children n !! a) as [c|] eqn:Ea; [|apply Hn].
      specialize (IH c (proj2 (Hn a c Ea))). destruct (cloneRemove parts id c) as [nc|].
      - rewrite lookup_insert_Some. intros [[<- <-]|[_ Hx]]; [done|by apply (Hn b)].
      - rewrite lookup_delete_Some. intros [_ Hx]. by apply (Hn b). }
    split; [apply live_node; [done|]; intros b x Hx; apply (Hc b x Hx)|]. by apply all_live_children.
Qed.

Lemma all_live_step t o : all_live t -> all_live (index_step t o).
Proof.
  intros Ht. destruct o as [d i|d i|]; cbn [index_step].
  - unfold index_Add. destruct (Has _ _ _); [done|]. by apply all_live_add.
  - unfold index_Remove, CloneRemove. destruct (Has _ _ _); [|done].
    pose proof (all_live_remove (splitDomain (normalizeDomain d)) i t Ht) as H.
    destruct (cloneRemove _ _ _); [apply H|]. by intros [|? ?].
  - by intros [|? ?].
Qed.

Lemma all_live_run ops : forall t, all_live t -> all_live (foldl index_step t ops).
Proof. induction ops as [|o ops IH]; intros t Ht; [done|]. apply IH. by apply all_live_step. Qed.

Lemma has_descend p : forall n n' q i, descend n p = Some n' -> has n' q i = true -> has n (p ++ q) i = true.
Proof.
  induction p as [|a p IH]; intros n n' q i Hd Hq; cbn in *; [by simplify_eq|].
  destruct (children n !! a) as [c|]; [|done]. by eapply IH.
Qed.

(** Lookup in a trie that holds the entries [e]. *)
Lemma index_Lookup_spec t e host i : represents t e -> canon host <> EmptyString ->
  i ∈ index_Lookup t host <-> exists name, (name, i) ∈ e /\ covers name (canon host).
Proof.
  intros [H1 H2] Hh. unfold index_Lookup, tree_Lookup. fold (canon host).
  rewrite lookup_parts_spec, splitDomain_canon, canon_idem. split.
  - intros [?%elem_of_empty|(p & Hp & Hi)]; [done|]. destruct (H2 p i Hi) as [name ->].
    exists name. rewrite <- H1. split; [done|]. by apply parts_of_covers.
  - intros (name & Hi & Hc). right. exists (parts_of name). rewrite H1. split; [|done]. by apply parts_of_covers.
Qed.

(** ** Properties *)

(** Lookup is suffix matching: after any sequence of additions, removals and
    clearings, the ids found for a host are those of the entries whose normalised
    name is empty, is the host's, or is what follows a dot in it - case and
    surrounding space ignored, a leading [*.] or [*] of an entry dropped. *)
Theorem domain_index_lookup ops host i :
  canon host <> EmptyString ->
  i ∈ index_Lookup (foldl index_step NewDomainTree ops) host <->
  exists name, (name, i) ∈ foldl entries_step ∅ ops /\ covers name (canon host).
Proof.
  intros Hh. by apply index_Lookup_spec; [apply represents_run, represents_new|].
Qed.

Lemma domain_index_lookup_witness :
  7 ∈ index_Lookup (foldl index_step NewDomainTree [IAdd "*.Example.com" 7; IAdd "a.org" 8]) " www.example.COM" <->
  exists name, (name, 7) ∈ foldl entries_step ∅ [IAdd "*.Example.com" 7; IAdd "a.org" 8] /\
    covers name (canon " www.example.COM").
Proof. apply (domain_index_lookup [IAdd "*.Example.com" 7; IAdd "a.org" 8]). vm_compute. congruence. Defined.

(** The trie keeps no dead nodes: after any history, every node below the root
    is on the path of an entry that is still in the index. *)
Theorem domain_index_no_dead_nodes ops p n' :
  p <> [] -> descend (foldl index_step NewDomainTree ops) p = Some n' ->
  exists name i, (name, i) ∈ foldl entries_step ∅ ops /\ p `prefix_of` parts_of name.
Proof.
  intros Hp Hd. destruct (represents_run ops _ _ represents_new) as [H1 H2].
  assert (Hl : all_live NewDomainTree) by (by intros [|? ?]).
  destruct (all_live_run ops _ Hl p n' Hp Hd) as (q & i & Hq).
  pose proof (has_descend p _ _ q i Hd Hq) as Hh. destruct (H2 _ _ Hh) as [name E]. exists name, i.
  rewrite <- H1, <- E. split; [done|]. by exists q.
Qed.

Lemma domain_index_no_dead_nodes_witness :
  exists name i, (name, i) ∈ foldl entries_step ∅ [IAdd "a.com" 1; IAdd "b.com" 2; IRemove "a.com" 1] /\
    ["com"%string] `prefix_of` parts_of name.
Proof.
  apply (domain_index_no_dead_nodes [IAdd "a.com" 1; IAdd "b.com" 2; IRemove "a.com" 1] ["com"%string]
    (Node {["b"%string := Node ∅ {[2]}]} ∅)); [done|]. vm_compute. reflexivity.
Defined.
