(* ===== verification/HostRouting.v ===== *)
(** Routing of HTTP requests to hosts: the host table with its domain index, the
    choice of the best rule for a request and of the certificate for a name.

    Sources: [lib/file/db_host.go], [lib/common/addr.go] ([GetIpByAddr]).

    The table is a map from ids to rules with the fields that routing reads; a rule
    handed to [NewHost] or [UpdateHost] is not also one of the table's.  The order
    in which the index lists ids is a Go map's: an argument, any permutation.
    Whether the client of a rule exists is an argument too. *)

From stdpp Require Import gmap.
From S2P Require Import Prelude GoString DomainIndex.
Local Open Scope string_scope.
Local Open Scope list_scope.
Local Open Scope Z_scope.

(** ** Rules *)
Record Host := mkHost {
  Id : Z; Revision : Z; ExpectedRevision : Z;
  Host_ : string; Location : string; Scheme : string;
  HttpsJustProxy : bool; CertFile : string; KeyFile : string; IsClose : bool;
}.

#[export] Instance Host_eq_dec : EqDecision Host.
Proof. solve_decision. Defined.

Definition with_Id (h : Host) (i : Z) : Host :=
  mkHost i (Revision h) (ExpectedRevision h) (Host_ h) (Location h) (Scheme h) (HttpsJustProxy h) (CertFile h) (KeyFile h) (IsClose h).
Definition with_ExpectedRevision (h : Host) (r : Z) : Host :=
  mkHost (Id h) (Revision h) r (Host_ h) (Location h) (Scheme h) (HttpsJustProxy h) (CertFile h) (KeyFile h) (IsClose h).

(** ** Normalisation *)
Definition GetIpByAddr (host : string) : string :=
  match host with
  | EmptyString => host
  | String "["%char rest =>
    if contains_char "]"%char rest then default "" (head (split_on "]"%char rest)) else ""
  | _ => match split_on ":"%char host with
         | [before; _] => before
         | _ => host
         end
  end.

Definition normalizedHostLocation (location : string) : string :=
  let location := TrimSpace location in
  if decide (location = "") then "/" else location.

Definition normalizedHostScheme (scheme : string) : string :=
  let s := ToLower (TrimSpace scheme) in
  if decide (s = "http" \/ s = "https") then s else "all".

Definition normalizedLookupRequestScheme (scheme : string) : string :=
  let s := ToLower (TrimSpace scheme) in
  if decide (s = "http" \/ s = "https") then s else "".

(** [url] is the scheme of the request's URL, if it has one; [header] the
    X-Forwarded-Proto header. *)
Definition requestSchemeForHostLookup (url : option string) (tls : bool) (header : string) : string :=
  let of_url := match url with Some s => normalizedLookupRequestScheme s | None => "" end in
  if negb (bool_decide (of_url = "")) then of_url
  else if tls then "https"
  else
    let forwarded := TrimSpace header in
    if decide (forwarded = "") then "http"
    else
      let scheme := normalizedLookupRequestScheme (default "" (head (split_on ","%char forwarded))) in
      if decide (scheme = "") then "http" else scheme.

Definition normalizeHostRoutingFields (h : Host) : Host :=
  mkHost (Id h) (Revision h) (ExpectedRevision h) (Host_ h)
    (if decide (Location h = "") then "/" else Location h) (normalizedHostScheme (Scheme h))
    (HttpsJustProxy h) (CertFile h) (KeyFile h) (IsClose h).

(** ** The table *)
Record DbUtils := mkDb { Hosts : gmap Z Host; hostIndex : node; HostIncreaseId : Z }.

Definition new_db : DbUtils := mkDb ∅ NewDomainTree 0.

Inductive db_err := ErrHostNotFound | ErrClient | ErrHostExist | ErrRevisionConflict.

Definition IsHostExist (h : Host) (db : DbUtils) : bool :=
  let location := normalizedHostLocation (Location h) in
  let scheme := normalizedHostScheme (Scheme h) in
  existsb (fun v =>
    negb (Id v =? Id h) && bool_decide (Host_ v = Host_ h) &&
    bool_decide (normalizedHostLocation (Location v) = location) &&
    (bool_decide (normalizedHostScheme (Scheme v) = "all") || bool_decide (normalizedHostScheme (Scheme v) = scheme)))
    (map_to_list (Hosts db)).*2.

Definition NewHost (client_ok : bool) (t : Host) (db : DbUtils) : DbUtils + db_err :=
  if negb client_ok then inr ErrClient
  else
    let t := normalizeHostRoutingFields t in
    if IsHostExist t db then inr ErrHostExist
    else
      let '(t, inc) :=
        if Id t =? 0 then let inc := i32 (HostIncreaseId db + 1) in (with_Id t inc, inc)
        else (t, if HostIncreaseId db <? Id t then i32 (Id t) else HostIncreaseId db) in
      inl (mkDb (<[Id t := t]> (Hosts db)) (index_Add (hostIndex db) (Host_ t) (Id t)) inc).

Definition UpdateHost (client_ok : bool) (t : Host) (db : DbUtils) : DbUtils + db_err :=
  if negb client_ok then inr ErrClient
  else match Hosts db !! Id t with
  | None => inr ErrHostNotFound
  | Some old =>
    if (0 <? ExpectedRevision t) && negb (Revision old =? ExpectedRevision t) then inr ErrRevisionConflict
    else
      let t := normalizeHostRoutingFields t in
      if IsHostExist t db then inr ErrHostExist
      else
        let t := with_ExpectedRevision t 0 in
        let idx := index_Remove (hostIndex db) (Host_ old) (Id t) in
        inl (mkDb (<[Id t := t]> (Hosts db)) (index_Add idx (Host_ t) (Id t)) (HostIncreaseId db))
  end.

Definition DelHost (id : Z) (db : DbUtils) : DbUtils + db_err :=
  match Hosts db !! id with
  | None => inr ErrHostNotFound
  | Some h => inl (mkDb (delete id (Hosts db)) (index_Remove (hostIndex db) (Host_ h) id) (HostIncreaseId db))
  end.

Definition GetHostById (id : Z) (db : DbUtils) : option Host := Hosts db !! id.

(** ** Choosing a rule *)
Definition str_len (s : string) : Z := Z.of_nat (String.length s).
Definition wildcard_match (pattern host : string) : bool := HasPrefix pattern "*" && HasSuffix host (tail_str pattern).
Definition dom_len (v : Host) : Z := str_len (TrimPrefix (Host_ v) "*").
Definition route_location (v : Host) : string := if decide (Location v = "") then "/" else Location v.

(** The [continue] guards of the loop of [GetInfoByHost]. *)
Definition route_eligible (host requestPath scheme : string) (v : Host) : bool :=
  let hostScheme := normalizedHostScheme (Scheme v) in
  negb (IsClose v || (negb (bool_decide (hostScheme = "all")) && negb (bool_decide (hostScheme = scheme)))) &&
  negb (str_len host <? dom_len v) &&
  (bool_decide (Host_ v = host) || wildcard_match (Host_ v) host) &&
  HasPrefix requestPath (route_location v).

Definition best := option (Host * Z * Z).

Definition route_step (host requestPath scheme : string) (b : best) (v : Host) : best :=
  if negb (route_eligible host requestPath scheme v) then b
  else
    let equaled := bool_decide (Host_ v = host) in
    let curDomainLength := dom_len v in
    let curLocationLength := str_len (route_location v) in
    let cur := Some (v, curDomainLength, curLocationLength) in
    match b with
    | None => cur
    | Some (_, bestDomainLength, bestLocationLength) =>
      if bestLocationLength <? curLocationLength then cur
      else if curLocationLength =? bestLocationLength then
        if bestDomainLength <? curDomainLength then cur
        else if equaled then cur else b
      else b
    end.

Definition best_host (b : best) : option Host := option_map (fun x => fst (fst x)) b.

(** [GetInfoByHost] up to the choice among the owners of the best rule; [ids] is the
    order in which the index lists the matches. *)
Definition GetInfoByHost (db : DbUtils) (ids : list Z) (addr requestPath scheme : string) : option Host :=
  let host := GetIpByAddr addr in
  best_host (foldl (route_step host requestPath scheme) None (omap (fun i => Hosts db !! i) ids)).

(** ** Certificates *)
Definition hostMatchesPattern (pattern host : string) : bool :=
  let pattern := GetIpByAddr pattern in
  let host := GetIpByAddr host in
  if bool_decide (pattern = "") || bool_decide (host = "") then false
  else bool_decide (pattern = host) || wildcard_match pattern host.

Definition hostHasReusableManualCert (h : Host) : bool :=
  if bool_decide (normalizedHostScheme (Scheme h) = "http") || HttpsJustProxy h then false
  else negb (bool_decide (TrimSpace (CertFile h) = "")) && negb (bool_decide (TrimSpace (KeyFile h) = "")).

Definition reusable_step (host : string) (excludeID : Z) (b : best) (c : Host) : best :=
  if (Id c =? excludeID) || negb (hostHasReusableManualCert c) || negb (hostMatchesPattern (Host_ c) host) then b
  else
    let curDomainLength := dom_len c in
    let curLocationLength := str_len (normalizedHostLocation (Location c)) in
    let cur := Some (c, curDomainLength, curLocationLength) in
    match b with
    | None => cur
    | Some (bestMatch, bestDomainLength, bestLocationLength) =>
      if bestDomainLength <? curDomainLength then cur
      else if curDomainLength =? bestDomainLength then
        if curLocationLength <? bestLocationLength then cur
        else if curLocationLength =? bestLocationLength then
          if IsClose bestMatch && negb (IsClose c) then cur
          else if Id c <? Id bestMatch then cur else b
        else b
      else b
    end.

(** A nil candidate is skipped by the loop; the list has none. *)
Definition SelectReusableCertHost (host : string) (candidates : list Host) (excludeID : Z) : option Host :=
  let host := GetIpByAddr host in
  if decide (host = "") then None
  else best_host (foldl (reusable_step host excludeID) None candidates).

Definition FindReusableCertHost (db : DbUtils) (ids : list Z) (host : string) (excludeID : Z) : option Host :=
  if decide (host = "") then None
  else SelectReusableCertHost (GetIpByAddr host) (omap (fun i => Hosts db !! i) ids) excludeID.

(** The guards of the loop of [FindCertByHost]. *)
Definition cert_eligible (host : string) (v : Host) : bool :=
  negb (IsClose v || bool_decide (normalizedHostScheme (Scheme v) = "http")) &&
  negb (str_len host <? dom_len v) &&
  (bool_decide (Host_ v = host) || wildcard_match (Host_ v) host).

Definition root_location (v : Host) : bool := bool_decide (Location v = "/") || bool_decide (Location v = "").

(** The loop, with its [break] at an exact rule for the whole site. *)
Fixpoint cert_loop (host : string) (b : option (Host * Z)) (vs : list Host) : option (Host * Z) :=
  match vs with
  | [] => b
  | v :: vs =>
    if negb (cert_eligible host v) then cert_loop host b vs
    else
      let equaled := bool_decide (Host_ v = host) in
      let curDomainLength := dom_len v in
      let cur := Some (v, curDomainLength) in
      if equaled && root_location v then cur
      else match b with
      | None => cert_loop host cur vs
      | Some (bestMatch, bestDomainLength) =>
        if bestDomainLength <? curDomainLength then cert_loop host cur vs
        else if curDomainLength =? bestDomainLength then
          let shorter := str_len (Location v) <=? str_len (Location bestMatch) in
          let star := HasPrefix (Host_ bestMatch) "*" in
          if equaled && (shorter || star) then cert_loop host cur vs
          else if shorter && star then cert_loop host cur vs
          else cert_loop host b vs
        else cert_loop host b vs
      end
  end.

Definition FindCertByHost (db : DbUtils) (ids : list Z) (addr : string) : option Host :=
  if decide (addr = "") then None
  else let host := GetIpByAddr addr in
       option_map fst (cert_loop host None (omap (fun i => Hosts db !! i) ids)).

(** ** The order of rules for a request *)

(** Longer location, then longer domain, then exact over wildcard. *)
Definition route_le (host : string) (v b : Host) : Prop :=
  let loc x := str_len (route_location x) in
  loc v < loc b \/ loc v = loc b /\
  (dom_len v < dom_len b \/ dom_len v = dom_len b /\ (Host_ v = host -> Host_ b = host)).

Lemma route_le_refl host v : route_le host v v.
Proof. right. split; [done|]. right. done. Qed.

Lemma route_le_trans host u v w : route_le host u v -> route_le host v w -> route_le host u w.
Proof.
  unfold route_le. intros [H1|[H1 [H2|[H2 H3]]]] [G1|[G1 [G2|[G2 G3]]]];
    try (left; lia); right; (split; [lia|]); try (left; lia). right. split; [lia|auto].
Qed.

Lemma TrimPrefix_star s : TrimPrefix s "*" = if HasPrefix s "*" then tail_str s else s.
Proof. unfold TrimPrefix. destruct s as [|c s]; [done|]. cbn. case_decide; [|done]. by destruct s. Qed.

Lemma dom_len_exact host v : HasPrefix host "*" = false -> Host_ v = host -> dom_len v = str_len host.
Proof. intros Hh Hv. unfold dom_len. by rewrite TrimPrefix_star, Hv, Hh. Qed.

Lemma eligible_dom host path scheme v : route_eligible host path scheme v = true -> dom_len v <= str_len host.
Proof.
  unfold route_eligible. rewrite !andb_true_iff, !negb_true_iff. intros [[[_ H] _] _].
  by apply Z.ltb_ge in H.
Qed.

(** The state of the loop: the best rule with its lengths. *)
Definition best_ok (host path scheme : string) (b : best) (seen : list Host) : Prop :=
  match b with
  | None => forall v, v ∈ seen -> route_eligible host path scheme v = false
  | Some (m, d, l) =>
    m ∈ seen /\ route_eligible host path scheme m = true /\ d = dom_len m /\ l = str_len (route_location m) /\
    forall v, v ∈ seen -> route_eligible host path scheme v = true -> route_le host v m
  end.

Lemma best_ok_step host path scheme b seen v :
  HasPrefix host "*" = false -> best_ok host path scheme b seen ->
  best_ok host path scheme (route_step host path scheme b v) (seen ++ [v]).
Proof.
  intros Hh Hb. unfold route_step. destruct (route_eligible host path scheme v) eqn:Ev; cbn [negb].
  2: { destruct b as [[[m d] l]|]; cbn in *.
       - destruct Hb as (H1 & H2 & H3 & H4 & H5). split_and!; try done; [set_solver|].
         intros u [Hu| ->%list_elem_of_singleton]%elem_of_app; [by apply H5|congruence].
       - intros u [Hu| ->%list_elem_of_singleton]%elem_of_app; [by apply Hb|done]. }
  assert (Hnew : (forall u, u ∈ seen -> route_eligible host path scheme u = true -> route_le host u v) ->
    best_ok host path scheme (Some (v, dom_len v, str_len (route_location v))) (seen ++ [v])).
  { intros Hu. cbn. split_and!; try done; [set_solver|].
    intros u [Hin| ->%list_elem_of_singleton]%elem_of_app He; [by apply Hu|apply route_le_refl]. }
  assert (Hold : forall m, best_ok host path scheme (Some (m, dom_len m, str_len (route_location m))) seen ->
    route_le host v m -> best_ok host path scheme (Some (m, dom_len m, str_len (route_location m))) (seen ++ [v])).
  { intros m (H1 & H2 & _ & _ & H5) Hle. cbn. split_and!; try done; [set_solver|].
    intros u [Hin| ->%list_elem_of_singleton]%elem_of_app He; [by apply H5|done]. }
  destruct b as [[[m d] l]|].
  - pose proof Hb as (H1 & H2 & -> & -> & H5). pose proof (eligible_dom _ _ _ _ H2) as Hd.
    assert (Hbetter : route_le host m v ->
      best_ok host path scheme (Some (v, dom_len v, str_len (route_location v))) (seen ++ [v])).
    { intros Hle. apply Hnew. intros u Hu He. eapply route_le_trans; [by apply H5|done]. }
    destruct (Z.ltb_spec (str_len (route_location m)) (str_len (route_location v))) as [Hl|Hl];
      [apply Hbetter; left; lia|].
    destruct (Z.eqb_spec (str_len (route_location v)) (str_len (route_location m))) as [He|He];
      [|apply Hold; [done|]; left; lia].
    destruct (Z.ltb_spec (dom_len m) (dom_len v)) as [Hdl|Hdl]; [apply Hbetter; right; split; [lia|]; left; lia|].
    case_bool_decide as Heq.
    + apply Hbetter. right. split; [lia|]. pose proof (dom_len_exact host v Hh Heq). right. split; [lia|done].
    + apply Hold; [done|]. right. split; [lia|]. destruct (decide (dom_len v = dom_len m)); [|left; lia].
      right. split; [done|]. done.
  - apply Hnew. intros u Hu He. rewrite (Hb u Hu) in He. done.
Qed.

Lemma best_ok_nil host path scheme : best_ok host path scheme None [].
Proof. intros v Hv. by apply not_elem_of_nil in Hv. Qed.

Lemma best_ok_foldl host path scheme vs : HasPrefix host "*" = false -> forall b seen,
  best_ok host path scheme b seen ->
  best_ok host path scheme (foldl (route_step host path scheme) b vs) (seen ++ vs).
Proof.
  intros Hh. induction vs as [|v vs IH]; intros b seen Hb; [by rewrite app_nil_r|]. cbn [foldl].
  replace (seen ++ v :: vs) with ((seen ++ [v]) ++ vs) by (by rewrite <- app_assoc).
  apply IH. by apply best_ok_step.
Qed.

(** Rules that rank equally for a request have the same name and location. *)
Lemma route_le_antisym host path scheme u v :
  route_eligible host path scheme u = true -> route_eligible host path scheme v = true ->
  route_le host u v -> route_le host v u -> Host_ u = Host_ v /\ route_location u = route_location v.
Proof.
  unfold route_eligible. rewrite !andb_true_iff. intros [[_ Mu] Pu] [[_ Mv] Pv] H1 H2.
  assert (Hkey : str_len (route_location u) = str_len (route_location v) /\ dom_len u = dom_len v /\
    (Host_ u = host <-> Host_ v = host)).
  { unfold route_le in *. destruct H1 as [H1|[H1 [G1|[G1 K1]]]], H2 as [H2|[H2 [G2|[G2 K2]]]]; try lia. done. }
  destruct Hkey as (Hl & Hd & He). unfold str_len in Hl. split; [|eapply prefix_unique; eauto; lia].
  destruct (decide (Host_ u = host)) as [Eu|Nu]; [rewrite Eu; symmetry; by apply He|].
  assert (Nv : Host_ v <> host) by naive_solver.
  rewrite bool_decide_eq_false_2 in Mu, Mv by done. cbn in Mu, Mv. unfold wildcard_match in Mu, Mv.
  apply andb_true_iff in Mu as [Su Tu]. apply andb_true_iff in Mv as [Sv Tv].
  unfold dom_len, str_len in Hd. rewrite !TrimPrefix_star, Su, Sv in Hd.
  pose proof (suffix_unique _ _ _ Tu Tv ltac:(lia)) as E.
  apply HasPrefix_spec in Su as [x Hx]. apply HasPrefix_spec in Sv as [y Hy].
  rewrite Hx, Hy in E |- *. change (x = y) in E. by rewrite E.
Qed.

(** ** The table and its index *)
Definition db_ok (db : DbUtils) : Prop :=
  exists e, represents (hostIndex db) e /\
    forall id h, Hosts db !! id = Some h -> Id h = id /\ (canon (normalizeDomain (Host_ h)), id) ∈ e.

Lemma new_db_ok : db_ok new_db.
Proof. exists ∅. split; [apply represents_new|done]. Qed.

Lemma NewHost_ok ok t db db' : db_ok db -> NewHost ok t db = inl db' -> db_ok db'.
Proof.
  intros (e & He & Hh). unfold NewHost. destruct ok; [|done]. cbn [negb].
  destruct (IsHostExist _ _); [done|]. set (t' := normalizeHostRoutingFields t) in *.
  assert (Hins : forall h inc, db_ok (mkDb (<[Id h := h]> (Hosts db)) (index_Add (hostIndex db) (Host_ h) (Id h)) inc)).
  { intros h inc. exists (entries_step e (IAdd (Host_ h) (Id h))). split; [exact (represents_step _ _ (IAdd _ _) He)|].
    intros id v. cbn. rewrite lookup_insert_Some. intros [[<- <-]|[_ Hv]]; [set_solver|].
    destruct (Hh id v Hv). set_solver. }
  destruct (Id t' =? 0); intros E; injection E as <-; [apply (Hins (with_Id t' _))|apply (Hins t')].
Qed.

Lemma UpdateHost_ok ok t db db' : db_ok db -> UpdateHost ok t db = inl db' -> db_ok db'.
Proof.
  intros (e & He & Hh). unfold UpdateHost. destruct ok; [|done]. cbn [negb].
  destruct (Hosts db !! Id t) as [old|] eqn:Eo; [|done]. destruct (_ && _); [done|].
  destruct (IsHostExist _ _); [done|]. intros [= <-].
  set (h := with_ExpectedRevision (normalizeHostRoutingFields t) 0). change (Id (normalizeHostRoutingFields t)) with (Id h).
  exists (entries_step (entries_step e (IRemove (Host_ old) (Id h))) (IAdd (Host_ h) (Id h))).
  split; [exact (represents_step _ _ (IAdd _ _) (represents_step _ _ (IRemove _ _) He))|].
  intros id v. cbn [Hosts]. rewrite lookup_insert_Some. intros [[<- <-]|[Hne Hv]]; [set_solver|].
  destruct (Hh id v Hv). set_solver.
Qed.

Lemma DelHost_ok id db db' : db_ok db -> DelHost id db = inl db' -> db_ok db'.
Proof.
  intros (e & He & Hh). unfold DelHost. destruct (Hosts db !! id) as [h|]; [|done]. intros [= <-].
  exists (entries_step e (IRemove (Host_ h) id)). split; [exact (represents_step _ _ (IRemove _ _) He)|].
  intros id' v. cbn. rewrite lookup_delete_Some. intros [Hne Hv]. destruct (Hh id' v Hv). set_solver.
Qed.

Inductive db_op :=
| DNew (client_ok : bool) (h : Host)
| DUpdate (client_ok : bool) (h : Host)
| DDel (id : Z).

(** A failed operation leaves the table as it was. *)
Definition db_step (db : DbUtils) (o : db_op) : DbUtils :=
  match match o with DNew ok h => NewHost ok h db | DUpdate ok h => UpdateHost ok h db | DDel i => DelHost i db end with
  | inl db' => db'
  | inr _ => db
  end.

Lemma db_ok_run ops : forall db, db_ok db -> db_ok (foldl db_step db ops).
Proof.
  induction ops as [|o ops IH]; intros db Hdb; [done|]. cbn [foldl]. apply IH.
  unfold db_step. destruct o as [ok h|ok h|i].
  - destruct (NewHost ok h db) eqn:E; [by eapply NewHost_ok|done].
  - destruct (UpdateHost ok h db) eqn:E; [by eapply UpdateHost_ok|done].
  - destruct (DelHost i db) eqn:E; [by eapply DelHost_ok|done].
Qed.

(** ** Names the index handles *)

(** A request's host: lower case, no surrounding space, not empty, no wildcard. *)
Definition plain_host (host : string) : bool :=
  bool_decide (canon host = host) && negb (bool_decide (host = "")) && negb (HasPrefix host "*").

(** A rule's name: a plain name, or [*.] before one. *)
Definition plain_pattern (p : string) : bool :=
  match drop_prefix "*." p with
  | Some d => bool_decide (canon d = d) && negb (HasPrefix d "*")
  | None => negb (HasPrefix p "*")
  end.

Lemma canon_parts d : canon d = d -> ToLower d = d /\ trim_right d = d /\ trim_left d = d.
Proof.
  intros H. unfold canon in H.
  assert (HL : ToLower d = d) by (rewrite <- H at 1; by rewrite ToLower_idem).
  assert (HT : TrimSpace d = d) by (rewrite <- H at 1; rewrite TrimSpace_lower, TrimSpace_idem; done).
  unfold TrimSpace in HT. split_and!; [done| |].
  - rewrite <- HT at 1. rewrite trim_right_idem. done.
  - rewrite <- HT at 1. rewrite trim_left_right, trim_left_idem. done.
Qed.

Lemma canon_wildcard d : canon d = d -> canon ("*." +:+ d) = "*." +:+ d.
Proof.
  intros (H1 & H2 & _)%canon_parts. unfold canon, TrimSpace.
  change (trim_left ("*." +:+ d)) with (String "*"%char (String "."%char d)).
  assert (E : trim_right (String "."%char d) = String "."%char d) by (cbn [trim_right]; rewrite H2; by destruct d).
  cbn [trim_right] in E |- *. rewrite E. change ("*." +:+ d) with (String "*"%char (String "."%char d)).
  cbn [ToLower]. by rewrite H1.
Qed.

Lemma no_star_TrimPrefix s : HasPrefix s "*" = false -> TrimPrefix s "*" = s /\ TrimPrefix s "*." = s.
Proof.
  intros H. split; [by rewrite TrimPrefix_star, H|]. unfold TrimPrefix. destruct s as [|c s]; [done|].
  cbn in *. case_decide; [subst; cbn in H; by destruct s|done].
Qed.

Lemma normalize_wildcard d : canon d = d -> HasPrefix d "*" = false -> normalizeDomain ("*." +:+ d) = d.
Proof.
  intros Hd Hs. unfold normalizeDomain. fold (canon ("*." +:+ d)). rewrite canon_wildcard by done.
  unfold TrimPrefix at 2. rewrite (proj2 (drop_prefix_spec "*." ("*." +:+ d) d)) by done. cbn [default].
  by apply no_star_TrimPrefix.
Qed.

Lemma normalize_plain p : canon p = p -> HasPrefix p "*" = false -> normalizeDomain p = p.
Proof.
  intros Hp Hs. unfold normalizeDomain. fold (canon p). rewrite Hp.
  destruct (no_star_TrimPrefix p Hs) as [H1 H2]. by rewrite H2, H1.
Qed.

(** A rule whose name matches a plain host is one the index finds. *)
Lemma match_covers p host :
  plain_pattern p = true -> plain_host host = true ->
  bool_decide (p = host) || wildcard_match p host = true ->
  covers (canon (normalizeDomain p)) (canon host).
Proof.
  unfold plain_host. rewrite !andb_true_iff, bool_decide_eq_true, !negb_true_iff.
  intros Hp [[Hc Hne] Hs] Hm. rewrite Hc. apply orb_true_iff in Hm as [E%bool_decide_eq_true|Hw].
  - subst p. rewrite normalize_plain, Hc by done. by right; left.
  - unfold wildcard_match in Hw. apply andb_true_iff in Hw as [Hst Hsuf]. unfold plain_pattern in Hp.
    destruct (drop_prefix "*." p) as [d|] eqn:Ed; [|by rewrite Hst in Hp].
    apply drop_prefix_spec in Ed as ->. rewrite andb_true_iff, bool_decide_eq_true, negb_true_iff in Hp.
    destruct Hp as [Hd Hds]. rewrite normalize_wildcard, Hd by done.
    change (tail_str ("*." +:+ d)) with (String "."%char d) in Hsuf. apply HasSuffix_spec in Hsuf as [x ->].
    right; right. by exists x.
Qed.

(** ** The certificate loop *)
Definition cert_best (host : string) (vs : list Host) (m : Host) : Prop :=
  m ∈ vs /\ cert_eligible host m = true /\
  (forall v, v ∈ vs -> cert_eligible host v = true -> dom_len v <= dom_len m) /\
  (forall v, v ∈ vs -> cert_eligible host v = true -> Host_ v = host -> Host_ m = host).

Lemma cert_dom host v : cert_eligible host v = true -> dom_len v <= str_len host.
Proof. unfold cert_eligible. rewrite !andb_true_iff, !negb_true_iff. intros [[_ H] _]. by apply Z.ltb_ge in H. Qed.

Definition cert_state (host : string) (seen : list Host) (b : option (Host * Z)) : Prop :=
  match b with
  | None => forall v, v ∈ seen -> cert_eligible host v = false
  | Some (m, d) => d = dom_len m /\ cert_best host seen m
  end.

Lemma cert_best_exact host vs m : HasPrefix host "*" = false ->
  m ∈ vs -> cert_eligible host m = true -> Host_ m = host -> cert_best host vs m.
Proof.
  intros Hh Hin He Hm. split_and!; try done. intros v _ Hv. rewrite (dom_len_exact host m) by done.
  by apply cert_dom.
Qed.

Lemma cert_best_keep host seen v m : cert_best host seen m ->
  (cert_eligible host v = true -> dom_len v <= dom_len m /\ (Host_ v = host -> Host_ m = host)) ->
  cert_best host (seen ++ [v]) m.
Proof.
  intros (H1 & H2 & H3 & H4) Hv. split_and!; [set_solver|done| |];
    intros u [Hu| ->%list_elem_of_singleton]%elem_of_app He; eauto; by destruct (Hv He); auto.
Qed.

Lemma cert_best_new host seen v : cert_eligible host v = true ->
  (forall u, u ∈ seen -> cert_eligible host u = true -> dom_len u <= dom_len v /\ (Host_ u = host -> Host_ v = host)) ->
  cert_best host (seen ++ [v]) v.
Proof.
  intros He Hu. split_and!; [set_solver|done| |];
    intros u [Hin| ->%list_elem_of_singleton]%elem_of_app Hue; try done; by destruct (Hu u Hin Hue); auto.
Qed.

(** A match without a wildcard is exact. *)
Lemma cert_no_star host m : cert_eligible host m = true -> HasPrefix (Host_ m) "*" = false -> Host_ m = host.
Proof.
  unfold cert_eligible, wildcard_match. intros He Hs. rewrite Hs in He. rewrite !andb_true_iff in He.
  destruct He as [_ Hm]. rewrite orb_false_r in Hm. by apply bool_decide_eq_true in Hm.
Qed.

(** Unless the loop breaks, its state describes what it has seen; when it breaks, at
    an exact rule for the whole site. *)
Lemma cert_loop_spec host vs : HasPrefix host "*" = false -> forall b seen,
  cert_state host seen b -> (forall v, v ∈ seen -> cert_eligible host v = true -> Host_ v = host -> root_location v = false) ->
  match cert_loop host b vs with
  | None => forall v, v ∈ seen ++ vs -> cert_eligible host v = false
  | Some (m, _) => cert_best host (seen ++ vs) m /\
      (forall v, v ∈ seen ++ vs -> cert_eligible host v = true -> Host_ v = host -> root_location v = true ->
         root_location m = true)
  end.
Proof.
  intros Hh. induction vs as [|v vs IH]; intros b seen Hb Hroot.
  { rewrite app_nil_r. cbn. destruct b as [[m d]|]; [|done]. destruct Hb as [_ Hb]. split; [done|].
    intros u Hu He Hx Hr. rewrite (Hroot u) in Hr; done. }
  replace (seen ++ v :: vs) with ((seen ++ [v]) ++ vs) by (by rewrite <- app_assoc). cbn [cert_loop].
  destruct (cert_eligible host v) eqn:Ev; cbn [negb].
  2: { apply IH.
       - destruct b as [[m d]|]; [destruct Hb as [-> Hb]; split; [done|]; apply cert_best_keep; [done|congruence]|].
         intros u [Hu| ->%list_elem_of_singleton]%elem_of_app; [by apply Hb|done].
       - intros u [Hu| ->%list_elem_of_singleton]%elem_of_app; [by apply Hroot|congruence]. }
  destruct (bool_decide (Host_ v = host) && root_location v) eqn:Ebr.
  { apply andb_true_iff in Ebr as [Hx%bool_decide_eq_true Hr]. split; [|done].
    apply cert_best_exact; [done|set_solver|done|done]. }
  assert (Hroot' : forall u, u ∈ seen ++ [v] -> cert_eligible host u = true -> Host_ u = host -> root_location u = false).
  { intros u [Hu| ->%list_elem_of_singleton]%elem_of_app Hu1 Hu2; [by apply Hroot|].
    rewrite bool_decide_eq_true_2 in Ebr by done. done. }
  assert (Hcur : (forall u, u ∈ seen -> cert_eligible host u = true -> dom_len u <= dom_len v /\ (Host_ u = host -> Host_ v = host)) ->
    cert_state host (seen ++ [v]) (Some (v, dom_len v))) by (intros; split; [done|by apply cert_best_new]).
  destruct b as [[m d]|].
  2: { apply IH; [|done]. apply Hcur. intros u Hu He. rewrite Hb in He; done. }
  destruct Hb as [-> Hb]. pose proof Hb as (Hm & Hme & Hlong & Hex).
  assert (Hkeep : (dom_len v <= dom_len m /\ (Host_ v = host -> Host_ m = host)) ->
    cert_state host (seen ++ [v]) (Some (m, dom_len m))) by (intros; split; [done|by apply cert_best_keep]).
  destruct (Z.ltb_spec (dom_len m) (dom_len v)) as [Hlt|Hge].
  { apply IH; [|done]. apply Hcur. intros u Hu He. specialize (Hlong u Hu He). split; [lia|].
    intros Hx. pose proof (Hex u Hu He Hx). pose proof (dom_len_exact host m Hh ltac:(done)). pose proof (cert_dom _ _ Ev). lia. }
  destruct (Z.eqb_spec (dom_len v) (dom_len m)) as [Heq|Hne].
  2: { apply IH; [|done]. apply Hkeep. split; [lia|]. intros Hx.
       pose proof (dom_len_exact host v Hh Hx). pose proof (cert_dom _ _ Hme). lia. }
  set (shorter := str_len (Location v) <=? str_len (Location m)). set (star := HasPrefix (Host_ m) "*").
  assert (Hstar : star = true -> Host_ m <> host) by (unfold star; intros Hs Hx; rewrite Hx in Hs; congruence).
  destruct (bool_decide (Host_ v = host) && (shorter || star)) eqn:E1.
  { apply andb_true_iff in E1 as [Hx%bool_decide_eq_true _]. apply IH; [|done]. apply Hcur.
    intros u Hu He. specialize (Hlong u Hu He). split; [lia|done]. }
  destruct (shorter && star) eqn:E2; (apply IH; [|done]).
  - apply andb_true_iff in E2 as [_ Hs]. apply Hcur. intros u Hu He. specialize (Hlong u Hu He). split; [lia|].
    intros Hx. exfalso. apply (Hstar Hs). by apply (Hex u).
  - apply Hkeep. split; [lia|]. intros Hx. rewrite bool_decide_eq_true_2 in E1 by done. cbn in E1.
    apply orb_false_iff in E1 as [_ Hs]. by apply cert_no_star.
Qed.

(** ** What the index lists *)

(** The candidates of a request are stored rules, and every stored rule with a plain
    name that matches the host is one of them. *)
Lemma candidates_spec db host ids :
  db_ok db -> plain_host host = true -> Permutation ids (elements (index_Lookup (hostIndex db) host)) ->
  (forall v, v ∈ omap (fun i => Hosts db !! i) ids -> exists i, Hosts db !! i = Some v) /\
  (forall i v, Hosts db !! i = Some v -> plain_pattern (Host_ v) = true ->
     bool_decide (Host_ v = host) || wildcard_match (Host_ v) host = true ->
     v ∈ omap (fun i => Hosts db !! i) ids).
Proof.
  intros (e & He & Hh) Hp Hperm. split.
  - intros v Hv. apply list_elem_of_omap in Hv as (i & _ & Hi). by exists i.
  - intros i v Hi Hpat Hm. apply list_elem_of_omap. exists i. split; [|done]. rewrite Hperm, elem_of_elements.
    apply (index_Lookup_spec _ _ _ _ He).
    + intros Hc. unfold plain_host in Hp. rewrite !andb_true_iff, bool_decide_eq_true, negb_true_iff, bool_decide_eq_false in Hp.
      destruct Hp as [[H1 H2] _]. congruence.
    + exists (canon (normalizeDomain (Host_ v))). split; [by apply Hh|]. by apply match_covers.
Qed.

Lemma plain_no_star host : plain_host host = true -> HasPrefix host "*" = false.
Proof. unfold plain_host. rewrite !andb_true_iff, !negb_true_iff. by intros [_ ?]. Qed.

Lemma eligible_matches host path scheme v : route_eligible host path scheme v = true ->
  bool_decide (Host_ v = host) || wildcard_match (Host_ v) host = true.
Proof. unfold route_eligible. rewrite !andb_true_iff. by intros [[_ ?] _]. Qed.

Lemma cert_matches host v : cert_eligible host v = true ->
  bool_decide (Host_ v = host) || wildcard_match (Host_ v) host = true.
Proof. unfold cert_eligible. rewrite !andb_true_iff. by intros [_ ?]. Qed.

(** ** Properties *)


Definition rule (i : Z) (host location scheme : string) : Host := mkHost i 0 0 host location scheme false "" "" false.
Definition example_ops : list db_op :=
  [DNew true (rule 0 "*.example.com" "" ""); DNew true (rule 0 "www.example.com" "/" "http");
   DNew true (rule 0 "www.example.com" "/api" "")].
Definition example_db : DbUtils := foldl db_step new_db example_ops.


(** Routing does not depend on the map order of the index: when no two stored
    rules that accept the request have the same name and location, every order of
    the ids gives the same rule. *)
Theorem routing_deterministic db ids ids' addr path scheme :
  let host := GetIpByAddr addr in
  HasPrefix host "*" = false -> Permutation ids ids' ->
  (forall i j u v, Hosts db !! i = Some u -> Hosts db !! j = Some v ->
     route_eligible host path scheme u = true -> route_eligible host path scheme v = true ->
     Host_ u = Host_ v -> route_location u = route_location v -> u = v) ->
  GetInfoByHost db ids addr path scheme = GetInfoByHost db ids' addr path scheme.
Proof.
  intros host Hs Hperm Huniq. unfold GetInfoByHost. fold host.
  set (vs := omap (fun i => Hosts db !! i) ids). set (vs' := omap (fun i => Hosts db !! i) ids').
  assert (Hv : forall v, v ∈ vs <-> v ∈ vs') by (intros v; unfold vs, vs'; by rewrite Hperm).
  assert (Hst : forall v, v ∈ vs -> exists i, Hosts db !! i = Some v).
  { intros v Hin. apply list_elem_of_omap in Hin as (i & _ & Hi). by exists i. }
  pose proof (best_ok_foldl host path scheme vs Hs None [] (best_ok_nil _ _ _)) as H1.
  pose proof (best_ok_foldl host path scheme vs' Hs None [] (best_ok_nil _ _ _)) as H2.
  cbn [app] in H1, H2.
  destruct (foldl (route_step host path scheme) None vs) as [[[m d] l]|],
    (foldl (route_step host path scheme) None vs') as [[[m' d'] l']|]; cbn in H1, H2 |- *; [| | |done].
  - destruct H1 as (I1 & E1 & _ & _ & L1), H2 as (I2 & E2 & _ & _ & L2). apply Hv in I2 as I2'. apply Hv in I1 as I1'.
    destruct (Hst m I1) as [i Hi]. destruct (Hst m' I2') as [j Hj].
    destruct (route_le_antisym host path scheme m m' E1 E2 (L2 m I1' E1) (L1 m' I2' E2)) as [HH HL].
    by rewrite (Huniq i j m m').
  - destruct H1 as (I1 & E1 & _). apply Hv in I1. rewrite H2 in E1; done.
  - destruct H2 as (I2 & E2 & _). apply Hv in I2. rewrite H1 in E2; done.
Qed.

Lemma routing_deterministic_witness :
  GetInfoByHost example_db [1; 2; 3] "www.example.com" "/api/users" "http"
    = GetInfoByHost example_db [3; 2; 1] "www.example.com" "/api/users" "http".
Proof.
  apply (routing_deterministic example_db [1; 2; 3] [3; 2; 1]); [reflexivity|apply (Permutation_rev [1; 2; 3])|].
  intros i j u v Hu Hv _ _ Hn Hl.
  assert (Hall : map_Forall (fun _ u => map_Forall (fun _ v =>
    Host_ u = Host_ v -> route_location u = route_location v -> u = v) (Hosts example_db)) (Hosts example_db)).
  { apply (bool_decide_unpack _). vm_compute. exact I. }
  by apply (Hall i u Hu j v Hv).
Defined.

(** The certificate of a name: in every history of the table and for every order
    of the index, [FindCertByHost] returns an open rule that may serve TLS and
    matches the name, with the longest domain of all such rules, the exact one when
    there is one, and the one for the whole site when there is such an exact one;
    it fails only when no such rule with a plain name exists. *)
Theorem certificate_for_name ops ids addr :
  let db := foldl db_step new_db ops in
  let host := GetIpByAddr addr in
  addr <> "" -> plain_host host = true -> Permutation ids (elements (index_Lookup (hostIndex db) host)) ->
  match FindCertByHost db ids addr with
  | Some m => (exists i, Hosts db !! i = Some m) /\ cert_eligible host m = true /\
      forall i v, Hosts db !! i = Some v -> plain_pattern (Host_ v) = true -> cert_eligible host v = true ->
        dom_len v <= dom_len m /\ (Host_ v = host -> Host_ m = host) /\
        (Host_ v = host -> root_location v = true -> root_location m = true)
  | None => forall i v, Hosts db !! i = Some v -> plain_pattern (Host_ v) = true -> cert_eligible host v = false
  end.
Proof.
  intros db host Ha Hp Hperm. destruct (candidates_spec db host ids (db_ok_run ops _ new_db_ok) Hp Hperm) as [H1 H2].
  unfold FindCertByHost. rewrite decide_False by done. fold host.
  pose proof (cert_loop_spec host (omap (fun i => Hosts db !! i) ids) (plain_no_star _ Hp) None []) as Hc.
  specialize (Hc ltac:(intros v Hv; by apply not_elem_of_nil in Hv) ltac:(intros v Hv; by apply not_elem_of_nil in Hv)).
  destruct (cert_loop host None (omap (fun i => Hosts db !! i) ids)) as [[m d]|]; cbn in Hc |- *.
  - destruct Hc as [(Hin & He & Hlong & Hex) Hroot]. split_and!; [by apply H1|done|].
    intros i v Hi Hpl Hv. assert (v ∈ omap (fun i => Hosts db !! i) ids) by (by apply (H2 i), cert_matches).
    split_and!; eauto.
  - intros i v Hi Hpl. destruct (cert_eligible host v) eqn:Ev; [|done].
    rewrite <- Ev. apply Hc. by apply (H2 i), cert_matches.
Qed.

Lemma certificate_for_name_witness :
  match FindCertByHost example_db (elements (index_Lookup (hostIndex example_db) "www.example.com")) "www.example.com" with
  | Some m => (exists i, Hosts example_db !! i = Some m) /\ cert_eligible "www.example.com" m = true /\
      forall i v, Hosts example_db !! i = Some v -> plain_pattern (Host_ v) = true -> cert_eligible "www.example.com" v = true ->
        dom_len v <= dom_len m /\ (Host_ v = "www.example.com" -> Host_ m = "www.example.com") /\
        (Host_ v = "www.example.com" -> root_location v = true -> root_location m = true)
  | None => forall i v, Hosts example_db !! i = Some v -> plain_pattern (Host_ v) = true ->
      cert_eligible "www.example.com" v = false
  end.
Proof.
  apply (certificate_for_name example_ops (elements (index_Lookup (hostIndex example_db) "www.example.com"))
    "www.example.com"); [done|vm_compute; reflexivity|reflexivity].
Defined.

(** ** Where routing is not what it looks like *)

(** Two rules of one name and location can coexist, one for http stored before one
    for all schemes, and which of them serves a request depends on the map order. *)
Theorem routing_ties_follow_map_order :
  let db := foldl db_step new_db [DNew true (rule 0 "a.com" "/" "http"); DNew true (rule 0 "a.com" "/" "all")] in
  size (Hosts db) = 2%nat /\
  option_map Id (GetInfoByHost db [1; 2] "a.com" "/" "http") = Some 2 /\
  option_map Id (GetInfoByHost db [2; 1] "a.com" "/" "http") = Some 1.
Proof. vm_compute. done. Qed.

(** A wildcard without a dot matches by suffix, but the index does not list it for
    the hosts it matches only so. *)
Theorem dotless_wildcard_is_not_routed :
  let db := foldl db_step new_db [DNew true (rule 0 "*example.com" "/" "all")] in
  hostMatchesPattern "*example.com" "myexample.com" = true /\
  GetInfoByHost db (elements (index_Lookup (hostIndex db) "myexample.com")) "myexample.com" "/" "http" = None.
Proof. vm_compute. done. Qed.

(** The index ignores case, the comparison of names does not: a request with an upper
    case letter in its host is not routed. *)
Theorem routing_is_case_sensitive :
  let db := foldl db_step new_db [DNew true (rule 0 "example.com" "/" "all")] in
  elements (index_Lookup (hostIndex db) "Example.com") = [1] /\
  GetInfoByHost db [1] "Example.com" "/" "http" = None.
Proof. vm_compute. done. Qed.

(** The reusable certificate depends on the order of the candidates: a closed rule with
    a smaller id displaces an open one that came first. *)
Theorem reusable_cert_depends_on_order :
  let open := mkHost 5 0 0 "*.a.com" "/" "https" false "c" "k" false in
  let closed := mkHost 3 0 0 "*.a.com" "/" "https" false "c" "k" true in
  option_map Id (SelectReusableCertHost "x.a.com" [open; closed] 0) = Some 3 /\
  option_map Id (SelectReusableCertHost "x.a.com" [closed; open] 0) = Some 5.
Proof. vm_compute. done. Qed.
