(* ===== verification/Orders.v ===== *)
(** Strict orders given by boolean comparisons, their lexicographic products, and the
    first of a list in such an order.

    The program chooses by chains of comparisons ("if the scores differ, by score,
    else if ..."); the lemmas here show that such a chain is a strict order and that
    the choice it makes does not depend on the order in which the candidates come. *)

From Stdlib Require Import String.
From S2P Require Import Prelude GoString.
Local Open Scope Z_scope.

(** [eqv] says that two elements tie, [lt] that the first comes before the second. *)
Class StrictOrderB {A} (eqv lt : A -> A -> bool) : Prop := {
  so_trichotomy x y : lt x y = true \/ eqv x y = true \/ lt y x = true;
  so_irrefl x y : eqv x y = true -> lt x y = false;
  so_asym x y : lt x y = true -> lt y x = false;
  so_trans x y z : lt x y = true -> lt y z = true -> lt x z = true;
  so_eqv_sym x y : eqv x y = true -> eqv y x = true;
  so_eqv_lt x y z : eqv x y = true -> lt y z = true -> lt x z = true;
  so_lt_eqv x y z : lt x y = true -> eqv y z = true -> lt x z = true;
  so_eqv_trans x y z : eqv x y = true -> eqv y z = true -> eqv x z = true;
}.

Ltac solve_key := split; intros; repeat match goal with
    | H : (_ <? _) = true |- _ => apply Z.ltb_lt in H
    | H : (_ =? _) = true |- _ => apply Z.eqb_eq in H end;
    rewrite ?Z.ltb_lt, ?Z.ltb_ge, ?Z.eqb_eq; lia.

(** The order of a key. *)
Lemma so_key {A} (f : A -> Z) : StrictOrderB (fun x y => f x =? f y) (fun x y => f x <? f y).
Proof. solve_key. Qed.

Lemma so_key_desc {A} (f : A -> Z) : StrictOrderB (fun x y => f x =? f y) (fun x y => f y <? f x).
Proof. solve_key. Qed.

(** A key whose zero comes last. *)
Lemma so_zero_last {A} (f : A -> Z) :
  StrictOrderB (fun x y => f x =? f y) (fun x y => if f x =? 0 then false else if f y =? 0 then true else f x <? f y).
Proof.
  split; intros *;
    repeat match goal with |- context [?a =? ?b] => destruct (Z.eqb_spec a b) end;
    rewrite ?Z.ltb_lt, ?Z.ltb_ge; intros; try done; try lia; auto; try (exfalso; congruence).
Qed.

Lemma so_comap {A B} (f : A -> B) (e l : B -> B -> bool) : StrictOrderB e l ->
  StrictOrderB (fun x y => e (f x) (f y)) (fun x y => l (f x) (f y)).
Proof. intros []. split; eauto. Qed.

Definition lex {A} (eqv1 lt1 lt2 : A -> A -> bool) (x y : A) : bool :=
  if negb (eqv1 x y) then lt1 x y else lt2 x y.

Lemma so_lex {A} (e1 l1 e2 l2 : A -> A -> bool) :
  StrictOrderB e1 l1 -> StrictOrderB e2 l2 -> StrictOrderB (fun x y => e1 x y && e2 x y) (lex e1 l1 l2).
Proof.
  intros S1 S2.
  assert (Hlt : forall x y, lex e1 l1 l2 x y = true <-> l1 x y = true \/ e1 x y = true /\ l2 x y = true).
  { intros x y. unfold lex. destruct (e1 x y) eqn:E; cbn; [|split; [by left|by intros [?|[? _]]]].
    pose proof (so_irrefl (lt := l1) x y E) as F. split; [by right|]. intros [?|[_ ?]]; congruence. }
  assert (Hf : forall x y, lex e1 l1 l2 x y = false <-> ~ (l1 x y = true \/ e1 x y = true /\ l2 x y = true)).
  { intros x y. rewrite <- Hlt. by rewrite not_true_iff_false. }
  split; intros *; rewrite ?Hf, ?Hlt, ?andb_true_iff.
  - destruct (so_trichotomy (eqv := e1) (lt := l1) x y) as [?|[?|?]]; [by auto| |by auto].
    pose proof (so_eqv_sym (eqv := e1) (lt := l1) x y). destruct (so_trichotomy (eqv := e2) (lt := l2) x y); naive_solver.
  - intros [H1 H2] [H|[_ H]]; [rewrite (so_irrefl (eqv := e1)) in H by done|rewrite (so_irrefl (eqv := e2)) in H by done]; done.
  - intros [H|[H G]] [K|[K L]].
    + by rewrite (so_asym (eqv := e1) x y H) in K.
    + rewrite (so_irrefl (eqv := e1) x y) in H; [done|by apply (so_eqv_sym (lt := l1))].
    + rewrite (so_irrefl (eqv := e1) y x) in K; [done|by apply (so_eqv_sym (lt := l1))].
    + by rewrite (so_asym (eqv := e2) x y G) in L.
  - intros [H|[H G]] [K|[K L]].
    + left. by eapply (so_trans (eqv := e1)).
    + left. by eapply so_lt_eqv.
    + left. by eapply so_eqv_lt.
    + right. split; [by eapply (so_eqv_trans (lt := l1))|by eapply (so_trans (eqv := e2))].
  - intros [H1 H2]. split; [by apply (so_eqv_sym (lt := l1))|by apply (so_eqv_sym (lt := l2))].
  - intros [H1 H2] [K|[K L]]; [left; by eapply so_eqv_lt|right]. split; [by eapply (so_eqv_trans (lt := l1))|by eapply so_eqv_lt].
  - intros [H|[H G]] [K1 K2]; [left; by eapply so_lt_eqv|right]. split; [by eapply (so_eqv_trans (lt := l1))|by eapply so_lt_eqv].
  - intros [H1 H2] [K1 K2]. split; [by eapply (so_eqv_trans (lt := l1))|by eapply (so_eqv_trans (lt := l2))].
Qed.

(** The bytewise order of strings. *)
Lemma ascii_compare_N a b : Ascii.compare a b = N.compare (N_of_ascii a) (N_of_ascii b).
Proof. reflexivity. Qed.

Lemma string_ltb_cons a x b y : String.ltb (String a x) (String b y) = true <->
  (N_of_ascii a < N_of_ascii b)%N \/ a = b /\ String.ltb x y = true.
Proof.
  unfold String.ltb. cbn. rewrite ascii_compare_N.
  destruct (N.compare_spec (N_of_ascii a) (N_of_ascii b)) as [E|E|E].
  - apply (f_equal ascii_of_N) in E. rewrite !ascii_N_embedding in E. subst. split; [naive_solver lia|].
    intros [?|[_ ?]]; [lia|done].
  - split; [naive_solver|done].
  - split; [done|]. intros [?|[-> _]]; lia.
Qed.

Lemma string_ltb_trans x : forall y z, String.ltb x y = true -> String.ltb y z = true -> String.ltb x z = true.
Proof.
  induction x as [|a x IH]; intros [|b y] [|c z]; try done.
  rewrite !string_ltb_cons. intros [H|[-> H]] [K|[<- K]]; [left; lia|by left|by left|].
  right. split; [done|]. by eapply IH.
Qed.

Lemma string_ltb_irrefl x : String.ltb x x = false.
Proof.
  induction x as [|a x IH]; [done|]. apply not_true_iff_false. rewrite string_ltb_cons, IH. naive_solver lia.
Qed.

Lemma string_ltb_total x : forall y, String.ltb x y = true \/ x = y \/ String.ltb y x = true.
Proof.
  induction x as [|a x IH]; intros [|b y]; [by auto|by left|by right; right|]. rewrite !string_ltb_cons.
  destruct (N.lt_trichotomy (N_of_ascii a) (N_of_ascii b)) as [?|[E|?]]; [by auto| |by auto].
  apply (f_equal ascii_of_N) in E. rewrite !ascii_N_embedding in E. subst.
  destruct (IH y) as [?|[->|?]]; auto.
Qed.

Lemma so_string {A} (f : A -> string) :
  StrictOrderB (fun x y => bool_decide (f x = f y)) (fun x y => String.ltb (f x) (f y)).
Proof.
  split; intros *; rewrite ?bool_decide_eq_true.
  - apply string_ltb_total.
  - intros ->. apply string_ltb_irrefl.
  - intros H. apply not_true_iff_false. intros K. pose proof (string_ltb_trans _ _ _ H K) as E.
    by rewrite string_ltb_irrefl in E.
  - apply string_ltb_trans.
  - done.
  - by intros ->.
  - by intros ? <-.
  - congruence.
Qed.

(** ** The first of a list *)
Section First.
Context {A : Type} (eqv lt : A -> A -> bool) `{StrictOrderB A eqv lt}.

Definition first_step (b : option A) (x : A) : option A :=
  match b with
  | None => Some x
  | Some y => if lt x y then Some x else b
  end.

Definition first_of (l : list A) : option A := foldl first_step None l.

Lemma first_step_spec l : forall b,
  match foldl first_step b l with
  | None => b = None /\ l = []
  | Some x => (b = Some x \/ x ∈ l) /\ (forall y, y ∈ l -> lt y x = false) /\
              (forall y, b = Some y -> lt y x = false)
  end.
Proof.
  induction l as [|z l IH]; intros b; cbn [foldl].
  - destruct b as [x|]; [|done]. split_and!; [by left|by intros y ?%not_elem_of_nil|].
    intros y [= <-]. destruct (lt x x) eqn:E; [|done]. by rewrite (so_asym x x E) in E.
  - specialize (IH (first_step b z)). destruct (foldl first_step (first_step b z) l) as [x|]; [|by destruct b as [y|]; [destruct IH as [IH _]; cbn in IH; destruct (lt z y)|destruct IH]].
    destruct IH as (H1 & H2 & H3). unfold first_step in H1, H3. destruct b as [y|].
    + destruct (lt z y) eqn:E.
      * assert (Hyx : lt y x = false).
        { apply not_true_iff_false. intros K. pose proof (H3 z eq_refl). pose proof (so_trans _ _ _ E K). congruence. }
        split_and!; [destruct H1 as [[= <-]|]; set_solver| |by intros ? [= <-]].
        intros u [->|Hu]%elem_of_cons; auto.
      * assert (Hzx : lt z x = false).
        { apply not_true_iff_false. intros K. destruct (so_trichotomy z y) as [?|[Eq|Lt]]; [congruence| |].
          - pose proof (so_eqv_lt y z x (so_eqv_sym _ _ Eq) K) as G. rewrite (H3 y) in G; done.
          - pose proof (so_trans _ _ _ Lt K) as G. rewrite (H3 y) in G; done. }
        split_and!; [destruct H1 as [[= <-]|]; set_solver| |intros u [= <-]; by apply H3].
        intros u [->|Hu]%elem_of_cons; auto.
    + split_and!; [destruct H1 as [[= <-]|]; set_solver| |done].
      intros u [->|Hu]%elem_of_cons; auto.
Qed.

Lemma first_of_spec l :
  match first_of l with
  | None => l = []
  | Some x => x ∈ l /\ forall y, y ∈ l -> lt y x = false
  end.
Proof.
  unfold first_of. pose proof (first_step_spec l None) as Hs. destruct (foldl first_step None l); naive_solver.
Qed.

(** Up to ties, the first does not depend on the order of the list. *)
Lemma first_of_perm l l' : (forall x y, x ∈ l -> y ∈ l -> eqv x y = true -> x = y) ->
  Permutation l l' -> first_of l = first_of l'.
Proof.
  intros Hu Hp. pose proof (first_of_spec l) as H1. pose proof (first_of_spec l') as H2.
  destruct (first_of l) as [x|], (first_of l') as [y|]; [| | |done].
  - destruct H1 as [I1 M1], H2 as [I2 M2]. f_equal. apply Hu; [done|by rewrite Hp|].
    destruct (so_trichotomy x y) as [K|[K|K]]; [|done|].
    + rewrite M2 in K; [done|by rewrite <- Hp].
    + rewrite M1 in K; [done|by rewrite Hp].
  - subst l'. destruct H1 as [I1 _]. rewrite Hp in I1. by apply not_elem_of_nil in I1.
  - subst l. destruct H2 as [I2 _]. rewrite <- Hp in I2. by apply not_elem_of_nil in I2.
Qed.
End First.
