(* ===== verification/Candidates.v ===== *)
(** Candidate pairs of a peer-to-peer session: observation, success, nomination and
    confirmation.

    Source: [lib/p2p/candidate.go].

    The manager's mutex makes each method one step.  A time is a number of
    nanoseconds with 0 for the zero [time.Time]; the clock readings are arguments.
    The map never holds a nil pair.  The order in which Go walks the map is an
    argument where it could matter. *)

From stdpp Require Import gmap.
From S2P Require Import Prelude GoString Orders.
Local Open Scope string_scope.
Local Open Scope list_scope.
Local Open Scope Z_scope.

(** ** Data *)
Inductive CandidateState :=
| CandidateDiscovered | CandidateSucceeded | CandidateNominated | CandidateConfirmed | CandidateClosed.

#[export] Instance CandidateState_eq_dec : EqDecision CandidateState.
Proof. solve_decision. Defined.

Record CandidatePair := mkPair {
  LocalAddr : string; RemoteAddr : string; State : CandidateState;
  FirstSeenAt : Z; LastSeenAt : Z; SucceededAt : Z;
  Nominated : bool; Confirmed : bool; SuccessCount : Z;
  Score : Z; ScoreReason : string;
  NominationFailures : Z; NominationCooldownUntil : Z;
}.

Record CandidatePriority := mkPriority { p_Score : Z; p_Reason : string }.
Definition no_priority : CandidatePriority := mkPriority 0 "".

Record CandidateManager := mkCM {
  candidates : gmap string CandidatePair;
  nominatedKey : string; confirmedKey : string;
  candidateRemote : string; confirmedRemote : string;
}.

Definition NewCandidateManager (rendezvousRemote : string) : CandidateManager :=
  mkCM ∅ "" "" rendezvousRemote "".

Definition candidateKey (localAddr remoteAddr : string) : string := localAddr +:+ "->" +:+ remoteAddr.

Definition newCandidatePair (localAddr remoteAddr : string) (now : Z) : CandidatePair :=
  mkPair localAddr remoteAddr CandidateDiscovered now now 0 false false 0 0 "" 0 0.

(** ** Updates of one pair *)
Definition with_LastSeenAt (p : CandidatePair) (t : Z) : CandidatePair :=
  mkPair (LocalAddr p) (RemoteAddr p) (State p) (FirstSeenAt p) t (SucceededAt p) (Nominated p) (Confirmed p)
    (SuccessCount p) (Score p) (ScoreReason p) (NominationFailures p) (NominationCooldownUntil p).
Definition with_State (p : CandidatePair) (s : CandidateState) : CandidatePair :=
  mkPair (LocalAddr p) (RemoteAddr p) s (FirstSeenAt p) (LastSeenAt p) (SucceededAt p) (Nominated p) (Confirmed p)
    (SuccessCount p) (Score p) (ScoreReason p) (NominationFailures p) (NominationCooldownUntil p).
Definition with_flags (p : CandidatePair) (nominated confirmed : bool) : CandidatePair :=
  mkPair (LocalAddr p) (RemoteAddr p) (State p) (FirstSeenAt p) (LastSeenAt p) (SucceededAt p) nominated confirmed
    (SuccessCount p) (Score p) (ScoreReason p) (NominationFailures p) (NominationCooldownUntil p).
Definition with_success (p : CandidatePair) (t n : Z) : CandidatePair :=
  mkPair (LocalAddr p) (RemoteAddr p) (State p) (FirstSeenAt p) (LastSeenAt p) t (Nominated p) (Confirmed p)
    n (Score p) (ScoreReason p) (NominationFailures p) (NominationCooldownUntil p).
Definition with_score (p : CandidatePair) (s : Z) (r : string) : CandidatePair :=
  mkPair (LocalAddr p) (RemoteAddr p) (State p) (FirstSeenAt p) (LastSeenAt p) (SucceededAt p) (Nominated p) (Confirmed p)
    (SuccessCount p) s r (NominationFailures p) (NominationCooldownUntil p).
Definition with_failures (p : CandidatePair) (n t : Z) : CandidatePair :=
  mkPair (LocalAddr p) (RemoteAddr p) (State p) (FirstSeenAt p) (LastSeenAt p) (SucceededAt p) (Nominated p) (Confirmed p)
    (SuccessCount p) (Score p) (ScoreReason p) n t.

Definition applyCandidatePriority (p : CandidatePair) (priority : CandidatePriority) : CandidatePair :=
  if Score p <? p_Score priority then with_score p (p_Score priority) (p_Reason priority)
  else if (p_Score priority =? Score p) && bool_decide (ScoreReason p = "")
  then with_score p (Score p) (p_Reason priority) else p.

Definition reopenClosedCandidate (p : CandidatePair) : CandidatePair :=
  with_failures (with_score (with_success (with_flags (with_State p CandidateDiscovered) false false) 0 0) 0 "") 0 0.

Definition revertNominatedPair (p : CandidatePair) : CandidatePair :=
  let p := with_flags p false (Confirmed p) in
  with_State p (if 0 <? SuccessCount p then CandidateSucceeded else CandidateDiscovered).

(** ** The manager *)
Definition set_pair (m : CandidateManager) (key : string) (p : CandidatePair) : CandidateManager :=
  mkCM (<[key := p]> (candidates m)) (nominatedKey m) (confirmedKey m) (candidateRemote m) (confirmedRemote m).
Definition set_nominated (m : CandidateManager) (key : string) : CandidateManager :=
  mkCM (candidates m) key (confirmedKey m) (candidateRemote m) (confirmedRemote m).

Definition updateCandidateRemoteLocked (m : CandidateManager) (remoteAddr : string) : CandidateManager :=
  if decide (confirmedRemote m = "" \/ confirmedRemote m = remoteAddr)
  then mkCM (candidates m) (nominatedKey m) (confirmedKey m) remoteAddr (confirmedRemote m) else m.

Definition observe (now : Z) (localAddr remoteAddr : string) (priority : CandidatePriority) (m : CandidateManager)
  : CandidatePair * CandidateManager :=
  let key := candidateKey localAddr remoteAddr in
  match candidates m !! key with
  | Some cand =>
    let cand := if bool_decide (State cand = CandidateClosed) && bool_decide (confirmedKey m = "")
                then reopenClosedCandidate cand else cand in
    let cand := applyCandidatePriority (with_LastSeenAt cand now) priority in
    (cand, set_pair m key cand)
  | None =>
    let cand := applyCandidatePriority (newCandidatePair localAddr remoteAddr now) priority in
    (cand, updateCandidateRemoteLocked (set_pair m key cand) remoteAddr)
  end.

Definition Observe (now : Z) (localAddr remoteAddr : string) (m : CandidateManager) : CandidatePair * CandidateManager :=
  observe now localAddr remoteAddr no_priority m.

Definition MarkSucceededWithPriority (now : Z) (localAddr remoteAddr : string) (priority : CandidatePriority)
    (m : CandidateManager) : CandidatePair * CandidateManager :=
  let key := candidateKey localAddr remoteAddr in
  let cand := default (newCandidatePair localAddr remoteAddr now) (candidates m !! key) in
  let cand := applyCandidatePriority (with_LastSeenAt cand now) priority in
  if Confirmed cand || bool_decide (confirmedKey m = key) then
    let cand := with_State cand CandidateConfirmed in (cand, set_pair m key cand)
  else if decide (State cand = CandidateClosed) then
    if decide (confirmedKey m = "") then
      let cand := with_failures (with_success (with_State (with_flags cand false false) CandidateSucceeded) now 1) 0 0 in
      (cand, updateCandidateRemoteLocked (set_pair m key cand) remoteAddr)
    else (cand, set_pair m key cand)
  else
    let cand := with_State cand CandidateSucceeded in
    let cand := with_success cand (if SucceededAt cand =? 0 then now else SucceededAt cand) (SuccessCount cand + 1) in
    (cand, updateCandidateRemoteLocked (set_pair m key cand) remoteAddr).

Definition MarkSucceeded (now : Z) (localAddr remoteAddr : string) (m : CandidateManager) : CandidatePair * CandidateManager :=
  MarkSucceededWithPriority now localAddr remoteAddr no_priority m.

Definition TryNominate (now : Z) (localAddr remoteAddr : string) (m : CandidateManager)
  : option CandidatePair * bool * CandidateManager :=
  let key := candidateKey localAddr remoteAddr in
  match candidates m !! key with
  | None => (None, false, m)
  | Some cand =>
    let cand := with_LastSeenAt cand now in
    if negb (bool_decide (nominatedKey m = "")) then (Some cand, false, set_pair m key cand)
    else
      let cand := with_flags (with_State cand CandidateNominated) true (Confirmed cand) in
      (Some cand, true, updateCandidateRemoteLocked (set_pair (set_nominated m key) key cand) remoteAddr)
  end.

(** The previously nominated pair, if any, goes back to what it was. *)
Definition revert_previous (m : CandidateManager) : CandidateManager :=
  if decide (nominatedKey m = "") then m
  else match candidates m !! nominatedKey m with
       | Some previous => set_pair m (nominatedKey m) (revertNominatedPair previous)
       | None => m
       end.

Definition AdoptNomination (now : Z) (localAddr remoteAddr : string) (m : CandidateManager)
  : CandidatePair * bool * CandidateManager :=
  let key := candidateKey localAddr remoteAddr in
  let cand := with_LastSeenAt (default (newCandidatePair localAddr remoteAddr now) (candidates m !! key)) now in
  let m := set_pair m key cand in
  if Confirmed cand || bool_decide (confirmedKey m = key) then (cand, false, m)
  else if negb (bool_decide (confirmedKey m = "")) && negb (bool_decide (confirmedKey m = key)) then (cand, false, m)
  else
    let nominated := with_flags (with_State cand CandidateNominated) true (Confirmed cand) in
    if decide (nominatedKey m = key) then (nominated, true, set_pair m key nominated)
    else
      let m := revert_previous m in
      (nominated, true, updateCandidateRemoteLocked (set_pair (set_nominated m key) key nominated) remoteAddr).

(** [order] is the order in which the map is walked. *)
Definition betterCandidateForNomination (cand : CandidatePair) (best : option CandidatePair) : bool :=
  match best with
  | None => true
  | Some best =>
    if negb (Score cand =? Score best) then Score best <? Score cand
    else if negb (SuccessCount cand =? SuccessCount best) then SuccessCount best <? SuccessCount cand
    else if negb (NominationFailures cand =? NominationFailures best)
    then NominationFailures cand <? NominationFailures best
    else if negb (SucceededAt cand =? SucceededAt best) then
      if SucceededAt cand =? 0 then false
      else if SucceededAt best =? 0 then true
      else SucceededAt cand <? SucceededAt best
    else if negb (FirstSeenAt cand =? FirstSeenAt best) then FirstSeenAt cand <? FirstSeenAt best
    else if negb (bool_decide (LocalAddr cand = LocalAddr best)) then String.ltb (LocalAddr cand) (LocalAddr best)
    else String.ltb (RemoteAddr cand) (RemoteAddr best)
  end.

(** The [continue] guards of [TryNominateBest]. *)
Definition nominable (now : Z) (cand : CandidatePair) : bool :=
  negb (Confirmed cand || bool_decide (State cand = CandidateClosed)) &&
  negb (negb (bool_decide (State cand = CandidateSucceeded)) || (SuccessCount cand =? 0)) &&
  negb (negb (NominationCooldownUntil cand =? 0) && (now <? NominationCooldownUntil cand)).

Definition best_step (now : Z) (best : option (string * CandidatePair)) (kp : string * CandidatePair)
  : option (string * CandidatePair) :=
  if negb (nominable now (snd kp)) then best
  else if betterCandidateForNomination (snd kp) (option_map snd best) then Some kp else best.

Definition TryNominateBest (now : Z) (order : list (string * CandidatePair)) (m : CandidateManager)
  : option CandidatePair * bool * CandidateManager :=
  if negb (bool_decide (nominatedKey m = "")) then (candidates m !! nominatedKey m, false, m)
  else match foldl (best_step now) None order with
  | None => (None, false, m)
  | Some (bestKey, best) =>
    let best := with_flags (with_State (with_LastSeenAt best now) CandidateNominated) true (Confirmed best) in
    (Some best, true, updateCandidateRemoteLocked (set_nominated (set_pair m bestKey best) bestKey) (RemoteAddr best))
  end.

(** Closing every other pair when one is confirmed. *)
Definition close_other (key otherKey : string) (other : CandidatePair) : CandidatePair :=
  if bool_decide (otherKey = key) || Confirmed other then other
  else with_flags (with_State other CandidateClosed) false (Confirmed other).

Definition Confirm (now : Z) (localAddr remoteAddr : string) (m : CandidateManager)
  : option CandidatePair * CandidateManager :=
  let key := candidateKey localAddr remoteAddr in
  match candidates m !! key with
  | None => (None, m)
  | Some cand =>
    if Confirmed cand || bool_decide (confirmedKey m = key) then (None, m)
    else if bool_decide (nominatedKey m = "") || negb (bool_decide (nominatedKey m = key)) then (None, m)
    else if negb (bool_decide (confirmedKey m = "")) && negb (bool_decide (confirmedKey m = key)) then (None, m)
    else
      let cand := with_flags (with_State (with_LastSeenAt cand now) CandidateConfirmed) false true in
      let cs := map_imap (fun k p => Some (close_other key k p)) (<[key := cand]> (candidates m)) in
      (Some cand, mkCM cs "" key remoteAddr remoteAddr)
  end.

(** The guard the two ways of giving up a nomination share. *)
Definition holds_nomination (key : string) (m : CandidateManager) : bool :=
  negb (bool_decide (nominatedKey m = "") || negb (bool_decide (nominatedKey m = key)) ||
        negb (bool_decide (confirmedKey m = ""))).

Definition BackoffNomination (now : Z) (localAddr remoteAddr : string) (cooldown : Z) (m : CandidateManager)
  : option CandidatePair * CandidateManager :=
  let key := candidateKey localAddr remoteAddr in
  if negb (holds_nomination key m) then (None, m)
  else match candidates m !! key with
  | None => (None, set_nominated m "")
  | Some cand =>
    let cand := with_flags (with_LastSeenAt cand now) false (Confirmed cand) in
    let cand := with_failures cand (NominationFailures cand + 1)
                  (if 0 <? cooldown then now + cooldown else NominationCooldownUntil cand) in
    let cand := with_State cand (if 0 <? SuccessCount cand then CandidateSucceeded else CandidateDiscovered) in
    (Some cand, set_nominated (set_pair m key cand) "")
  end.

Definition ReleaseNomination (now : Z) (localAddr remoteAddr : string) (m : CandidateManager)
  : option CandidatePair * CandidateManager :=
  let key := candidateKey localAddr remoteAddr in
  if negb (holds_nomination key m) then (None, m)
  else match candidates m !! key with
  | None => (None, set_nominated m "")
  | Some cand =>
    let cand := revertNominatedPair (with_LastSeenAt cand now) in
    (Some cand, set_nominated (set_pair m key cand) "")
  end.

Definition lastSeen (cand : CandidatePair) : Z := if LastSeenAt cand =? 0 then FirstSeenAt cand else LastSeenAt cand.
Definition stale (now maxAge : Z) (cand : CandidatePair) : bool :=
  negb ((lastSeen cand =? 0) || (now - lastSeen cand <=? maxAge)).

Definition prunable (now maxAge : Z) (cand : CandidatePair) : bool :=
  negb (Confirmed cand || Nominated cand || bool_decide (State cand = CandidateClosed)) && stale now maxAge cand.

Definition PruneStale (now maxAge : Z) (m : CandidateManager) : Z * CandidateManager :=
  if maxAge <=? 0 then (0, m)
  else
    (Z.of_nat (size (filter (fun kp => prunable now maxAge (snd kp) = true) (candidates m))),
     mkCM ((fun p => if prunable now maxAge p then with_LastSeenAt (with_State p CandidateClosed) now else p) <$> candidates m)
       (nominatedKey m) (confirmedKey m) (candidateRemote m) (confirmedRemote m)).

Definition removable (now maxAge : Z) (cand : CandidatePair) : bool :=
  negb (negb (bool_decide (State cand = CandidateClosed)) || Confirmed cand) && stale now maxAge cand.

Definition CleanupClosed (now maxAge : Z) (m : CandidateManager) : Z * CandidateManager :=
  if maxAge <=? 0 then (0, m)
  else
    (Z.of_nat (size (filter (fun kp => removable now maxAge (snd kp) = true) (candidates m))),
     mkCM (filter (fun kp => removable now maxAge (snd kp) = false) (candidates m))
       (nominatedKey m) (confirmedKey m) (candidateRemote m) (confirmedRemote m)).

Definition NominatedPair (m : CandidateManager) : option CandidatePair :=
  if decide (nominatedKey m = "") then None else candidates m !! nominatedKey m.
Definition ConfirmedPair (m : CandidateManager) : option CandidatePair :=
  if decide (confirmedKey m = "") then None else candidates m !! confirmedKey m.
Definition HasConfirmed (m : CandidateManager) : bool := negb (bool_decide (confirmedKey m = "")).
Definition HasNominated (m : CandidateManager) : bool := negb (bool_decide (nominatedKey m = "")).
Definition HasConfirmedOrNominated (m : CandidateManager) : bool := HasConfirmed m || HasNominated m.

(** ** Histories *)
Inductive cm_op :=
| CObserve (l r : string) (p : CandidatePriority)
| CSucceed (l r : string) (p : CandidatePriority)
| CNominate (l r : string)
| CAdopt (l r : string)
| CNominateBest (order : list (string * CandidatePair))
| CConfirm (l r : string)
| CBackoff (l r : string) (cooldown : Z)
| CRelease (l r : string)
| CPrune (maxAge : Z)
| CCleanup (maxAge : Z).

(** One call at a time, each with its clock reading; the walk of the map lists it. *)
Inductive cm_step (m : CandidateManager) : cm_op -> CandidateManager -> Prop :=
| st_observe now l r p : cm_step m (CObserve l r p) (snd (observe now l r p m))
| st_succeed now l r p : cm_step m (CSucceed l r p) (snd (MarkSucceededWithPriority now l r p m))
| st_nominate now l r : cm_step m (CNominate l r) (snd (TryNominate now l r m))
| st_adopt now l r : cm_step m (CAdopt l r) (snd (AdoptNomination now l r m))
| st_best now order : Permutation order (map_to_list (candidates m)) ->
    cm_step m (CNominateBest order) (snd (TryNominateBest now order m))
| st_confirm now l r : cm_step m (CConfirm l r) (snd (Confirm now l r m))
| st_backoff now l r c : cm_step m (CBackoff l r c) (snd (BackoffNomination now l r c m))
| st_release now l r : cm_step m (CRelease l r) (snd (ReleaseNomination now l r m))
| st_prune now a : cm_step m (CPrune a) (snd (PruneStale now a m))
| st_cleanup now a : cm_step m (CCleanup a) (snd (CleanupClosed now a m)).

Inductive cm_run (m : CandidateManager) : list cm_op -> CandidateManager -> Prop :=
| run_nil : cm_run m [] m
| run_snoc ops m1 o m2 : cm_run m ops m1 -> cm_step m1 o m2 -> cm_run m (ops ++ [o]) m2.

(** ** The invariant: the flags of the pairs agree with the two keys *)
Definition pair_ok (m : CandidateManager) (k : string) (p : CandidatePair) : Prop :=
  k <> "" /\ (Nominated p = true <-> nominatedKey m = k) /\ (Confirmed p = true <-> confirmedKey m = k) /\
  (Nominated p = true -> State p <> CandidateClosed).

Definition cm_ok (m : CandidateManager) : Prop :=
  map_Forall (pair_ok m) (candidates m) /\
  (nominatedKey m <> "" -> is_Some (candidates m !! nominatedKey m)) /\
  (confirmedKey m <> "" -> is_Some (candidates m !! confirmedKey m)).

Lemma candidateKey_nonempty l r : candidateKey l r <> "".
Proof. unfold candidateKey. by destruct l. Qed.

Lemma cm_ok_new r : cm_ok (NewCandidateManager r).
Proof. split_and!; [apply map_Forall_empty|done|done]. Qed.

Lemma cm_ok_remote m r : cm_ok m -> cm_ok (updateCandidateRemoteLocked m r).
Proof. unfold updateCandidateRemoteLocked. by case_decide. Qed.

Lemma lookup_insert_is_Some_mono {A} (c : gmap string A) k k' (x : A) : is_Some (c !! k') -> is_Some (<[k := x]> c !! k').
Proof. intros H. destruct (decide (k = k')) as [->|]; [by rewrite lookup_insert_eq|by rewrite lookup_insert_ne]. Qed.

Lemma cm_ok_set m k p : cm_ok m -> pair_ok m k p -> cm_ok (set_pair m k p).
Proof.
  intros (H1 & H2 & H3) Hp. split_and!; cbn.
  - by apply map_Forall_insert_2.
  - intros Hn. by apply lookup_insert_is_Some_mono, H2.
  - intros Hc. by apply lookup_insert_is_Some_mono, H3.
Qed.

Lemma pair_ok_flags m k p p' : pair_ok m k p -> Nominated p' = Nominated p -> Confirmed p' = Confirmed p ->
  (Nominated p = true -> State p' <> CandidateClosed) -> pair_ok m k p'.
Proof. unfold pair_ok. intros (H1 & H2 & H3 & H4) -> ->. done. Qed.

(** A pair the manager has not seen. *)
Lemma pair_ok_new m k p : cm_ok m -> candidates m !! k = None -> k <> "" ->
  Nominated p = false -> Confirmed p = false -> pair_ok m k p.
Proof.
  intros (_ & H2 & H3) Hk Hne Hn Hc. unfold pair_ok. rewrite Hn, Hc. split_and!; try done.
  - split; [done|]. intros E. subst k. destruct (H2 Hne) as [? E]. congruence.
  - split; [done|]. intros E. subst k. destruct (H3 Hne) as [? E]. congruence.
Qed.

Lemma applyPriority_keeps p pr :
  let p' := applyCandidatePriority p pr in
  Nominated p' = Nominated p /\ Confirmed p' = Confirmed p /\ State p' = State p /\
  SuccessCount p' = SuccessCount p /\ SucceededAt p' = SucceededAt p.
Proof. unfold applyCandidatePriority. by repeat case_match. Qed.

(** What [default] finds: a known pair, or a new one. *)
Lemma pair_ok_default m l r now : cm_ok m ->
  pair_ok m (candidateKey l r) (default (newCandidatePair l r now) (candidates m !! candidateKey l r)).
Proof.
  intros Hm. destruct (candidates m !! candidateKey l r) as [p|] eqn:E; cbn.
  - by apply (proj1 Hm).
  - apply pair_ok_new; try done. apply candidateKey_nonempty.
Qed.

Lemma closed_not_nominated m k p : pair_ok m k p -> State p = CandidateClosed -> Nominated p = false.
Proof. intros (_ & _ & _ & H) Hs. destruct (Nominated p); [|done]. by destruct (H eq_refl). Qed.

(** Making [k] the nominated pair when no other is. *)
Lemma cm_ok_nominate m k p :
  (forall i q, i <> k -> candidates m !! i = Some q ->
     i <> "" /\ Nominated q = false /\ (Confirmed q = true <-> confirmedKey m = i)) ->
  (confirmedKey m <> "" -> is_Some (candidates m !! confirmedKey m)) ->
  k <> "" -> Nominated p = true -> (Confirmed p = true <-> confirmedKey m = k) -> State p <> CandidateClosed ->
  cm_ok (set_pair (set_nominated m k) k p).
Proof.
  intros H1 H3 Hk Hp Hc Hs. split_and!; cbn.
  - intros i q. rewrite lookup_insert_Some. intros [[<- <-]|[Hne Hq]]; [done|].
    destruct (H1 i q (not_eq_sym Hne) Hq) as (E1 & E2 & E3). unfold pair_ok. cbn. rewrite E2. split_and!; done.
  - intros _. by rewrite lookup_insert_eq.
  - intros Hc'. by apply lookup_insert_is_Some_mono, H3.
Qed.

(** Giving the nomination up. *)
Lemma cm_ok_release m k p : cm_ok m -> nominatedKey m = k -> k <> "" ->
  Nominated p = false -> (Confirmed p = true <-> confirmedKey m = k) ->
  cm_ok (set_nominated (set_pair m k p) "").
Proof.
  intros (H1 & H2 & H3) Hn Hk Hp Hc. split_and!; cbn; [|done|].
  - intros i q. rewrite lookup_insert_Some. intros [[<- <-]|[Hne Hq]]; unfold pair_ok; cbn.
    + rewrite Hp. done.
    + destruct (H1 i q Hq) as (E1 & E2 & E3 & E4). destruct (Nominated q); [naive_solver|]. split_and!; done.
  - intros Hc'. by apply lookup_insert_is_Some_mono, H3.
Qed.

(** ** Every method keeps it *)
Lemma observe_ok now l r pr m : cm_ok m -> cm_ok (snd (observe now l r pr m)).
Proof.
  intros Hm. unfold observe. destruct (candidates m !! candidateKey l r) as [p|] eqn:E; cbn [snd].
  - pose proof (proj1 Hm _ _ E) as Hp. apply cm_ok_set; [done|].
    destruct (bool_decide (State p = CandidateClosed) && bool_decide (confirmedKey m = "")) eqn:Eb;
      match goal with |- context [applyCandidatePriority ?q ?x] => destruct (applyPriority_keeps q x) as (A1 & A2 & A3 & _) end.
    + apply andb_true_iff in Eb as [Hs%bool_decide_eq_true Hc%bool_decide_eq_true].
      pose proof (closed_not_nominated _ _ _ Hp Hs) as Hn. destruct Hp as (B1 & B2 & B3 & B4).
      unfold pair_ok. rewrite A1, A2, A3. cbn. rewrite Hn in B2. rewrite Hc in B3 |- *. naive_solver.
    + eapply pair_ok_flags; [exact Hp|done|done|]. rewrite A3. apply Hp.
  - apply cm_ok_remote, cm_ok_set; [done|].
    destruct (applyPriority_keeps (newCandidatePair l r now) pr) as (A1 & A2 & _).
    apply pair_ok_new; [done|done|apply candidateKey_nonempty|by rewrite A1|by rewrite A2].
Qed.

Lemma succeed_ok now l r pr m : cm_ok m -> cm_ok (snd (MarkSucceededWithPriority now l r pr m)).
Proof.
  intros Hm. unfold MarkSucceededWithPriority. pose proof (pair_ok_default m l r now Hm) as Hp.
  set (p0 := default _ _) in *. clearbody p0.
  destruct (applyPriority_keeps (with_LastSeenAt p0 now) pr) as (A1 & A2 & A3 & _). cbn in A1, A2, A3.
  set (p := applyCandidatePriority _ _) in *. clearbody p.
  assert (Hq : pair_ok m (candidateKey l r) p) by (eapply pair_ok_flags; [exact Hp|done..|rewrite A3; apply Hp]).
  destruct (Confirmed p || _); cbn [snd].
  { apply cm_ok_set; [done|]. by eapply pair_ok_flags; [exact Hq|..]. }
  case_decide as Hs; [case_decide as Hc|]; cbn [snd].
  - apply cm_ok_remote, cm_ok_set; [done|]. pose proof (closed_not_nominated _ _ _ Hq Hs) as Hn.
    destruct Hq as (B1 & B2 & B3 & B4). unfold pair_ok. cbn. rewrite Hn in B2. rewrite Hc in B3 |- *. naive_solver.
  - by apply cm_ok_set.
  - apply cm_ok_remote, cm_ok_set; [done|]. by eapply pair_ok_flags; [exact Hq|..].
Qed.

(** Without a nominated key no pair has the flag. *)
Lemma nobody_nominated m : cm_ok m -> nominatedKey m = "" -> forall i q, candidates m !! i = Some q ->
  i <> "" /\ Nominated q = false /\ (Confirmed q = true <-> confirmedKey m = i).
Proof.
  intros (H1 & _ & _) Hn i q Hq. destruct (H1 i q Hq) as (E1 & E2 & E3 & _). rewrite Hn in E2.
  split_and!; [done| |done]. destruct (Nominated q); naive_solver.
Qed.

Lemma nominate_ok now l r m : cm_ok m -> cm_ok (snd (TryNominate now l r m)).
Proof.
  intros Hm. unfold TryNominate. destruct (candidates m !! candidateKey l r) as [p|] eqn:E; [|done].
  pose proof (proj1 Hm _ _ E) as Hp. case_bool_decide as Hn; cbn [negb snd].
  - apply cm_ok_remote, cm_ok_nominate; cbn; try done.
    + intros i q _ Hq. by apply nobody_nominated.
    + apply Hm.
    + apply Hp.
    + apply Hp.
  - apply cm_ok_set; [done|]. eapply pair_ok_flags; [exact Hp|done|done|apply Hp].
Qed.

Lemma best_step_in now order : forall b key p,
  foldl (best_step now) b order = Some (key, p) -> b = Some (key, p) \/ (key, p) ∈ order /\ nominable now p = true.
Proof.
  induction order as [|kp order IH]; intros b key p; cbn [foldl]; [auto|].
  intros H. apply IH in H as [H|[H1 H2]]; [|right; split; [by right|done]].
  unfold best_step in H. destruct (nominable now (snd kp)) eqn:En; cbn in H; [|by left].
  destruct (betterCandidateForNomination _ _); [|by left]. injection H as ->. right. split; [left|done].
Qed.

Lemma best_ok now order m : cm_ok m -> Permutation order (map_to_list (candidates m)) ->
  cm_ok (snd (TryNominateBest now order m)).
Proof.
  intros Hm Hperm. unfold TryNominateBest. case_bool_decide as Hn; cbn [negb]; [|done].
  destruct (foldl (best_step now) None order) as [[k p]|] eqn:E; [|done]. cbn [snd].
  apply best_step_in in E as [E|[Hin _]]; [done|]. rewrite Hperm, elem_of_map_to_list in Hin.
  pose proof (proj1 Hm _ _ Hin) as Hp. apply cm_ok_remote. cbn.
  apply (cm_ok_nominate m); cbn; try done.
  - intros i q _ Hq. by apply nobody_nominated.
  - apply Hm.
  - apply Hp.
  - apply Hp.
Qed.

Lemma revert_other m : cm_ok m ->
  let m' := revert_previous m in
  (forall i q, candidates m' !! i = Some q -> i <> "" /\ Nominated q = false /\ (Confirmed q = true <-> confirmedKey m = i)) /\
  (confirmedKey m <> "" -> is_Some (candidates m' !! confirmedKey m)) /\ confirmedKey m' = confirmedKey m.
Proof.
  intros Hm. unfold revert_previous. case_decide as En.
  - split_and!; [by apply nobody_nominated|apply Hm|done].
  - pose proof Hm as (H1 & H2 & H3). destruct (H2 En) as [prev Hprev]. rewrite Hprev. cbn.
    split_and!; [|intros Hc; apply lookup_insert_is_Some_mono; by apply H3|done].
    intros i q. rewrite lookup_insert_Some. intros [[<- <-]|[Hne Hq]].
    + destruct (H1 _ _ Hprev) as (E1 & E2 & E3 & _). done.
    + destruct (H1 i q Hq) as (E1 & E2 & E3 & _). destruct (Nominated q); naive_solver.
Qed.

Lemma adopt_ok now l r m : cm_ok m -> cm_ok (snd (AdoptNomination now l r m)).
Proof.
  intros Hm. unfold AdoptNomination. pose proof (pair_ok_default m l r now Hm) as Hp.
  set (p := with_LastSeenAt _ now). assert (Hq : pair_ok m (candidateKey l r) p).
  { eapply pair_ok_flags; [exact Hp|done|done|apply Hp]. }
  clearbody p. clear Hp. set (m1 := set_pair m (candidateKey l r) p).
  assert (Hm1 : cm_ok m1) by (by apply cm_ok_set).
  assert (Hq1 : pair_ok m1 (candidateKey l r) p) by exact Hq.
  clearbody m1. destruct (Confirmed p || _); [done|]. destruct (_ && _); [done|].
  case_decide as Hk; cbn [snd].
  - apply cm_ok_set; [done|]. unfold pair_ok. cbn. split_and!; [apply candidateKey_nonempty|naive_solver|apply Hq1|done].
  - apply cm_ok_remote. destruct (revert_other m1 Hm1) as (R1 & R2 & R3).
    set (m2 := revert_previous m1) in *. clearbody m2.
    apply cm_ok_nominate; cbn; rewrite ?R3; try done.
    + intros i q _ Hiq. by apply R1.
    + apply candidateKey_nonempty.
    + apply Hq1.
Qed.

Lemma confirm_ok now l r m : cm_ok m -> cm_ok (snd (Confirm now l r m)).
Proof.
  intros Hm. unfold Confirm. destruct (candidates m !! candidateKey l r) as [p|] eqn:E; [|done].
  destruct (Confirmed p || bool_decide (confirmedKey m = candidateKey l r)) eqn:Hx; [done|].
  apply orb_false_iff in Hx as [_ Hx%bool_decide_eq_false].
  destruct (bool_decide (nominatedKey m = "") || negb (bool_decide (nominatedKey m = candidateKey l r))) eqn:En; [done|].
  destruct (decide (confirmedKey m = "")) as [Hc|Hc].
  2: { rewrite !bool_decide_eq_false_2 by done. done. }
  rewrite (bool_decide_eq_true_2 (confirmedKey m = "")) by done. cbn [negb andb].
  set (k := candidateKey l r) in *. cbn [snd]. pose proof Hm as (H1 & _ & _). split_and!; cbn; [|done|].
  - intros i q. rewrite map_lookup_imap. destruct (decide (i = k)) as [->|Hne].
    + rewrite lookup_insert_eq. cbn. intros [= <-]. unfold close_other. rewrite bool_decide_eq_true_2 by done. cbn.
      unfold pair_ok. cbn. pose proof (candidateKey_nonempty l r). naive_solver.
    + rewrite lookup_insert_ne by done. destruct (candidates m !! i) as [q0|] eqn:Ei; [|done]. cbn. intros [= <-].
      destruct (H1 i q0 Ei) as (E1 & E2 & E3 & E4). rewrite Hc in E3.
      assert (Hcf : Confirmed q0 = false) by (destruct (Confirmed q0); naive_solver).
      unfold close_other. rewrite bool_decide_eq_false_2, Hcf by done. unfold pair_ok. cbn. naive_solver.
  - intros _. rewrite map_lookup_imap, lookup_insert_eq. by eexists.
Qed.

Lemma holds_nomination_key k m : holds_nomination k m = true -> nominatedKey m = k /\ confirmedKey m = "".
Proof.
  unfold holds_nomination. rewrite negb_true_iff, !orb_false_iff, !negb_false_iff, !bool_decide_eq_true. naive_solver.
Qed.

Lemma nominated_present m k : cm_ok m -> holds_nomination k m = true -> k <> "" -> is_Some (candidates m !! k).
Proof. intros (_ & H2 & _) Hh Hk. destruct (holds_nomination_key _ _ Hh) as [<- _]. by apply H2. Qed.

Lemma backoff_ok now l r c m : cm_ok m -> cm_ok (snd (BackoffNomination now l r c m)).
Proof.
  intros Hm. unfold BackoffNomination. destruct (holds_nomination (candidateKey l r) m) eqn:Hh; [|done]. cbn [negb].
  destruct (nominated_present _ _ Hm Hh (candidateKey_nonempty l r)) as [p Hp]. rewrite Hp. cbn [snd].
  apply cm_ok_release; [done|by apply holds_nomination_key|apply candidateKey_nonempty|done|apply (proj1 Hm _ _ Hp)].
Qed.

Lemma release_ok now l r m : cm_ok m -> cm_ok (snd (ReleaseNomination now l r m)).
Proof.
  intros Hm. unfold ReleaseNomination. destruct (holds_nomination (candidateKey l r) m) eqn:Hh; [|done]. cbn [negb].
  destruct (nominated_present _ _ Hm Hh (candidateKey_nonempty l r)) as [p Hp]. rewrite Hp. cbn [snd].
  apply cm_ok_release; [done|by apply holds_nomination_key|apply candidateKey_nonempty|done|apply (proj1 Hm _ _ Hp)].
Qed.

Lemma prune_ok now a m : cm_ok m -> cm_ok (snd (PruneStale now a m)).
Proof.
  intros Hm. unfold PruneStale. destruct (a <=? 0); [done|]. pose proof Hm as (H1 & H2 & H3). split_and!; cbn.
  - intros i q. rewrite lookup_fmap. destruct (candidates m !! i) as [p|] eqn:Ei; [|done]. cbn. intros [= <-].
    pose proof (H1 i p Ei) as Hp. destruct (prunable now a p) eqn:Epr; [|done].
    eapply pair_ok_flags; [exact Hp|done|done|]. intros Hn. unfold prunable in Epr. rewrite Hn in Epr.
    by rewrite orb_true_r in Epr.
  - intros Hn. rewrite lookup_fmap. by apply fmap_is_Some, H2.
  - intros Hc. rewrite lookup_fmap. by apply fmap_is_Some, H3.
Qed.

Lemma cleanup_ok now a m : cm_ok m -> cm_ok (snd (CleanupClosed now a m)).
Proof.
  intros Hm. unfold CleanupClosed. destruct (a <=? 0); [done|]. pose proof Hm as (H1 & H2 & H3).
  assert (Hkeep : forall k p, candidates m !! k = Some p -> Nominated p = true \/ Confirmed p = true ->
    filter (fun kp => removable now a (snd kp) = false) (candidates m) !! k = Some p).
  { intros k p Hp Hf. apply map_lookup_filter_Some. split; [done|]. cbn. unfold removable.
    destruct (H1 k p Hp) as (_ & _ & _ & H4). destruct Hf as [Hn|Hc].
    - rewrite bool_decide_eq_false_2 by auto. done.
    - rewrite Hc. by rewrite orb_true_r. }
  split_and!; cbn.
  - intros i q [Hq _]%map_lookup_filter_Some. by apply H1.
  - intros Hn. destruct (H2 Hn) as [p Hp]. exists p. apply Hkeep; [done|]. left. by apply (H1 _ _ Hp).
  - intros Hn. destruct (H3 Hn) as [p Hp]. exists p. apply Hkeep; [done|]. right. by apply (H1 _ _ Hp).
Qed.

Lemma cm_ok_step m o m' : cm_ok m -> cm_step m o m' -> cm_ok m'.
Proof.
  intros Hm Hs. destruct Hs; auto using observe_ok, succeed_ok, nominate_ok, adopt_ok, best_ok, confirm_ok,
    backoff_ok, release_ok, prune_ok, cleanup_ok.
Qed.

Lemma cm_ok_run m ops m' : cm_ok m -> cm_run m ops m' -> cm_ok m'.
Proof. intros Hm. induction 1; [done|]. by eapply cm_ok_step. Qed.

(** ** The order of nomination *)
Definition better_than (p q : CandidatePair) : bool := betterCandidateForNomination p (Some q).
Definition ties (p q : CandidatePair) : bool :=
  (Score p =? Score q) && ((SuccessCount p =? SuccessCount q) && ((NominationFailures p =? NominationFailures q) &&
  ((SucceededAt p =? SucceededAt q) && ((FirstSeenAt p =? FirstSeenAt q) &&
  (bool_decide (LocalAddr p = LocalAddr q) && bool_decide (RemoteAddr p = RemoteAddr q)))))).

#[export] Instance better_than_order : StrictOrderB ties better_than.
Proof.
  apply (so_lex _ _ _ _ (so_key_desc Score)). apply (so_lex _ _ _ _ (so_key_desc SuccessCount)).
  apply (so_lex _ _ _ _ (so_key NominationFailures)). apply (so_lex _ _ _ _ (so_zero_last SucceededAt)).
  apply (so_lex _ _ _ _ (so_key FirstSeenAt)). apply (so_lex _ _ _ _ (so_string LocalAddr)), so_string.
Qed.

#[export] Instance better_entry_order :
  StrictOrderB (fun x y : string * CandidatePair => ties (snd x) (snd y)) (fun x y => better_than (snd x) (snd y)).
Proof. apply (so_comap snd), _. Qed.

(** The loop of [TryNominateBest] is the first nominable entry in this order. *)
Definition nominable_entries (now : Z) (order : list (string * CandidatePair)) : list (string * CandidatePair) :=
  filter (fun kp => nominable now (snd kp) = true) order.

Lemma best_loop now order : foldl (best_step now) None order =
  first_of (fun x y => better_than (snd x) (snd y)) (nominable_entries now order).
Proof.
  unfold first_of. generalize (None : option (string * CandidatePair)).
  induction order as [|kp order IH]; intros b; [done|]. cbn [foldl]. unfold nominable_entries. rewrite filter_cons.
  unfold best_step at 2. destruct (nominable now (snd kp)); cbn [negb].
  - rewrite decide_True by done. cbn [foldl]. rewrite IH. f_equal. by destruct b.
  - rewrite decide_False by done. apply IH.
Qed.

(** ** Keys are made of the addresses *)
Definition keyed (m : CandidateManager) : Prop :=
  map_Forall (fun k p => k = candidateKey (LocalAddr p) (RemoteAddr p)) (candidates m).

Lemma keyed_set m k p : keyed m -> k = candidateKey (LocalAddr p) (RemoteAddr p) -> keyed (set_pair m k p).
Proof. intros. by apply map_Forall_insert_2. Qed.

Lemma keyed_remote m r : keyed m -> keyed (updateCandidateRemoteLocked m r).
Proof. unfold updateCandidateRemoteLocked. by case_decide. Qed.

Lemma keyed_nominated m k : keyed m -> keyed (set_nominated m k).
Proof. done. Qed.

Lemma applyPriority_addrs p pr : LocalAddr (applyCandidatePriority p pr) = LocalAddr p /\
  RemoteAddr (applyCandidatePriority p pr) = RemoteAddr p.
Proof. unfold applyCandidatePriority. by repeat case_match. Qed.

Lemma keyed_default m l r now : keyed m ->
  let p := default (newCandidatePair l r now) (candidates m !! candidateKey l r) in
  candidateKey l r = candidateKey (LocalAddr p) (RemoteAddr p).
Proof. intros Hm. destruct (candidates m !! candidateKey l r) eqn:E; cbn; [by apply Hm|done]. Qed.

Create HintDb keyed.
#[export] Hint Resolve keyed_set keyed_remote keyed_nominated : keyed.

Lemma keyed_step m o m' : keyed m -> cm_step m o m' -> keyed m'.
Proof.
  intros Hm Hs. destruct Hs as [now l r pr|now l r pr|now l r|now l r|now order Ho|now l r|now l r c|now l r|now a|now a].
  - unfold observe. destruct (candidates m !! candidateKey l r) as [p|] eqn:E; cbn [snd].
    + apply keyed_set; [done|]. rewrite (proj1 (applyPriority_addrs _ _)), (proj2 (applyPriority_addrs _ _)).
      destruct (_ && _); cbn; by apply Hm.
    + apply keyed_remote, keyed_set; [done|]. by rewrite (proj1 (applyPriority_addrs _ _)), (proj2 (applyPriority_addrs _ _)).
  - unfold MarkSucceededWithPriority. pose proof (keyed_default m l r now Hm) as Hd. cbn in Hd.
    set (p0 := default _ _) in *. clearbody p0.
    destruct (applyPriority_addrs (with_LastSeenAt p0 now) pr) as [A1 A2]. cbn in A1, A2.
    set (p := applyCandidatePriority _ _) in *. clearbody p. rewrite <- A1, <- A2 in Hd.
    repeat case_match; cbn [snd]; auto with keyed.
  - unfold TryNominate. destruct (candidates m !! candidateKey l r) as [p|] eqn:E; [|done].
    pose proof (Hm _ _ E) as Hp. cbn in Hp. destruct (negb _); cbn [snd]; auto with keyed.
  - unfold AdoptNomination. pose proof (keyed_default m l r now Hm) as Hd. cbn in Hd.
    set (p0 := default _ _) in *. clearbody p0. set (m1 := set_pair m _ _).
    assert (H1 : keyed m1) by (by apply keyed_set). clearbody m1.
    repeat (case_match; cbn [snd]; try done; auto with keyed).
    apply keyed_remote, keyed_set; [|done]. apply keyed_nominated. unfold revert_previous.
    destruct (decide (nominatedKey m1 = "")); [done|]. destruct (candidates m1 !! nominatedKey m1) as [q|] eqn:E; [|done].
    apply keyed_set; [done|]. unfold revertNominatedPair. exact (H1 _ _ E).
  - unfold TryNominateBest. destruct (negb _); [done|]. destruct (foldl (best_step now) None order) as [[k p]|] eqn:E; [|done].
    apply best_step_in in E as [E|[Hin _]]; [done|]. rewrite Ho, elem_of_map_to_list in Hin.
    apply keyed_remote, keyed_nominated, keyed_set; [done|]. exact (Hm _ _ Hin).
  - unfold Confirm. destruct (candidates m !! candidateKey l r) as [p|] eqn:E; [|done].
    do 3 (case_match; [done|]). intros i q. cbn. rewrite map_lookup_imap.
    destruct (<[_ := _]> (candidates m) !! i) as [q0|] eqn:Eq; [|done]. cbn. intros [= <-].
    assert (Hq : i = candidateKey (LocalAddr q0) (RemoteAddr q0)).
    { apply lookup_insert_Some in Eq as [[<- <-]|[_ Eq]]; [by apply (Hm _ _ E)|by apply Hm]. }
    unfold close_other. by case_match.
  - unfold BackoffNomination. case_match; [done|]. destruct (candidates m !! candidateKey l r) as [p|] eqn:E; [|done].
    pose proof (Hm _ _ E) as Hp. cbn in Hp. cbn [snd]. auto with keyed.
  - unfold ReleaseNomination. case_match; [done|]. destruct (candidates m !! candidateKey l r) as [p|] eqn:E; [|done].
    pose proof (Hm _ _ E) as Hp. cbn in Hp. cbn [snd]. auto with keyed.
  - unfold PruneStale. case_match; [done|]. intros i q. cbn. rewrite lookup_fmap.
    destruct (candidates m !! i) as [p|] eqn:E; [|done]. cbn. intros [= <-]. case_match; by apply (Hm _ _ E).
  - unfold CleanupClosed. case_match; [done|]. intros i q [Hq _]%map_lookup_filter_Some. by apply Hm.
Qed.

Lemma keyed_run r ops m : cm_run (NewCandidateManager r) ops m -> keyed m.
Proof. induction 1; [apply map_Forall_empty|]. by eapply keyed_step. Qed.

(** ** A confirmed session stays confirmed *)
Definition settled (key remote : string) (m : CandidateManager) : Prop :=
  confirmedKey m = key /\ confirmedRemote m = remote /\ candidateRemote m = remote.

Lemma settled_remote key remote m r : remote <> "" -> settled key remote m -> settled key remote (updateCandidateRemoteLocked m r).
Proof.
  intros Hr (H1 & H2 & H3). unfold updateCandidateRemoteLocked. case_decide as Hd; [|done].
  destruct Hd as [Hd|Hd]; split_and!; cbn; congruence.
Qed.

Lemma settled_pair key remote m k p : settled key remote m -> settled key remote (set_pair m k p).
Proof. done. Qed.
Lemma settled_nominated key remote m k : settled key remote m -> settled key remote (set_nominated m k).
Proof. done. Qed.
Lemma settled_revert key remote m : settled key remote m -> settled key remote (revert_previous m).
Proof. unfold revert_previous. repeat case_match; done. Qed.

#[export] Hint Resolve settled_remote settled_pair settled_nominated settled_revert : keyed.

Lemma confirm_refused now l r m : cm_ok m -> confirmedKey m <> "" -> Confirm now l r m = (None, m).
Proof.
  intros Hm Hc. unfold Confirm. destruct (candidates m !! candidateKey l r) as [p|]; [|done].
  rewrite (bool_decide_eq_false_2 (confirmedKey m = "")) by done.
  destruct (bool_decide (confirmedKey m = candidateKey l r)); [by rewrite orb_true_r|].
  destruct (Confirmed p), (bool_decide (nominatedKey m = "")), (bool_decide (nominatedKey m = candidateKey l r)); done.
Qed.

Lemma settled_step key remote m o m' : cm_ok m -> key <> "" -> remote <> "" ->
  settled key remote m -> cm_step m o m' -> settled key remote m'.
Proof.
  intros Hm Hk Hr Hs Hst. destruct Hst.
  - unfold observe. destruct (candidates m !! _); cbn [snd]; auto with keyed.
  - unfold MarkSucceededWithPriority. repeat case_match; cbn [snd]; auto with keyed.
  - unfold TryNominate. repeat case_match; cbn [snd]; auto with keyed.
  - unfold AdoptNomination. repeat case_match; cbn [snd]; auto 8 with keyed.
  - unfold TryNominateBest. repeat case_match; cbn [snd]; auto with keyed.
  - rewrite confirm_refused; [done|done|]. by rewrite (proj1 Hs).
  - unfold BackoffNomination. repeat case_match; cbn [snd]; auto with keyed.
  - unfold ReleaseNomination. repeat case_match; cbn [snd]; auto with keyed.
  - unfold PruneStale. by case_match.
  - unfold CleanupClosed. by case_match.
Qed.

Lemma settled_run key remote m ops m' : cm_ok m -> key <> "" -> remote <> "" ->
  settled key remote m -> cm_run m ops m' -> settled key remote m'.
Proof.
  intros Hm Hk Hr Hs. induction 1 as [|ops m1 o m2 Hrun IH Hstep]; [done|].
  eapply settled_step; [by eapply cm_ok_run|done..|done].
Qed.

Lemma confirm_settles now l r m p m' : Confirm now l r m = (Some p, m') ->
  settled (candidateKey l r) r m' /\ nominatedKey m = candidateKey l r.
Proof.
  unfold Confirm. destruct (candidates m !! candidateKey l r); [|done].
  destruct (_ || _); [done|]. destruct (bool_decide (nominatedKey m = "")); [done|]. cbn.
  case_bool_decide as Hn; [|done]. cbn. destruct (_ && _); [done|]. intros [= <- <-]. done.
Qed.

(** In every history of a manager the pairs' flags agree with its two keys: at most
    one pair is nominated and at most one confirmed, [NominatedPair] and [ConfirmedPair]
    return a pair with the flag whenever [HasNominated] and [HasConfirmed] say there is
    one, and no other pair has it. *)
Theorem candidate_flags_agree r ops m : cm_run (NewCandidateManager r) ops m ->
  (forall k p, candidates m !! k = Some p -> Nominated p = true -> NominatedPair m = Some p /\ nominatedKey m = k) /\
  (forall k p, candidates m !! k = Some p -> Confirmed p = true -> ConfirmedPair m = Some p /\ confirmedKey m = k) /\
  (HasNominated m = true -> exists p, NominatedPair m = Some p /\ Nominated p = true) /\
  (HasConfirmed m = true -> exists p, ConfirmedPair m = Some p /\ Confirmed p = true).
Proof.
  intros Hrun. destruct (cm_ok_run _ _ _ (cm_ok_new r) Hrun) as (H1 & H2 & H3).
  unfold NominatedPair, ConfirmedPair, HasNominated, HasConfirmed. split_and!.
  - intros k p Hp Hn. destruct (H1 k p Hp) as (E1 & E2 & _). apply E2 in Hn as <-. by rewrite decide_False.
  - intros k p Hp Hn. destruct (H1 k p Hp) as (E1 & _ & E3 & _). apply E3 in Hn as <-. by rewrite decide_False.
  - case_bool_decide as Hn; [done|]. intros _. destruct (H2 Hn) as [p Hp]. exists p. rewrite decide_False by done.
    split; [done|]. by apply (H1 _ _ Hp).
  - case_bool_decide as Hn; [done|]. intros _. destruct (H3 Hn) as [p Hp]. exists p. rewrite decide_False by done.
    split; [done|]. by apply (H1 _ _ Hp).
Qed.

(** Confirmation needs the nomination and is final: when [Confirm] succeeds for a
    pair with a remote address, that pair was the nominated one, and after any further
    history it is still the confirmed pair, with the same confirmed and candidate
    remote, and every other [Confirm] is refused and changes nothing. *)
Theorem confirmation_is_final r ops m now l rem p m1 ops' m2 :
  cm_run (NewCandidateManager r) ops m -> rem <> "" ->
  Confirm now l rem m = (Some p, m1) -> cm_run m1 ops' m2 ->
  nominatedKey m = candidateKey l rem /\
  confirmedKey m2 = candidateKey l rem /\ confirmedRemote m2 = rem /\ candidateRemote m2 = rem /\
  (exists q, ConfirmedPair m2 = Some q /\ Confirmed q = true) /\
  forall now' l' r', Confirm now' l' r' m2 = (None, m2).
Proof.
  intros Hrun Hrem Hc Hrun2. pose proof (cm_ok_run _ _ _ (cm_ok_new r) Hrun) as Hm.
  destruct (confirm_settles _ _ _ _ _ _ Hc) as [Hs Hn].
  assert (Hm1 : cm_ok m1) by (pose proof (confirm_ok now l rem m Hm) as K; by rewrite Hc in K).
  pose proof (cm_ok_run _ _ _ Hm1 Hrun2) as Hm2. pose proof (candidateKey_nonempty l rem) as Hk.
  destruct (settled_run _ _ _ _ _ Hm1 Hk Hrem Hs Hrun2) as (E1 & E2 & E3).
  split_and!; try done.
  - unfold ConfirmedPair. rewrite E1, decide_False by done. pose proof Hm2 as (H1 & _ & H3). rewrite E1 in H3.
    destruct (H3 Hk) as [q Hq]. exists q. split; [done|]. by apply (H1 _ _ Hq).
  - intros. apply confirm_refused; [done|]. by rewrite E1.
Qed.

(** When no pair is nominated, [TryNominateBest] nominates a pair that may be
    nominated and that no other such pair beats, and returns nothing exactly when there
    is none.  The order in which Go walks the candidate map does not matter. *)
Theorem nominates_the_best r ops m now order : cm_run (NewCandidateManager r) ops m ->
  nominatedKey m = "" -> Permutation order (map_to_list (candidates m)) ->
  TryNominateBest now order m = TryNominateBest now (map_to_list (candidates m)) m /\
  match TryNominateBest now order m with
  | (Some p', true, m') => exists p, candidates m !! nominatedKey m' = Some p /\ nominable now p = true /\
      NominatedPair m' = Some p' /\ Nominated p' = true /\
      LocalAddr p' = LocalAddr p /\ RemoteAddr p' = RemoteAddr p /\
      forall k q, candidates m !! k = Some q -> nominable now q = true -> betterCandidateForNomination q (Some p) = false
  | (None, false, m') => m' = m /\ forall k q, candidates m !! k = Some q -> nominable now q = false
  | _ => False
  end.
Proof.
  intros Hrun Hn Hperm. pose proof (keyed_run _ _ _ Hrun) as Hk.
  pose proof (cm_ok_run _ _ _ (cm_ok_new r) Hrun) as Hm.
  assert (Hin : forall k q, (k, q) ∈ nominable_entries now order <-> candidates m !! k = Some q /\ nominable now q = true).
  { intros k q. unfold nominable_entries. rewrite list_elem_of_filter, Hperm, elem_of_map_to_list. cbn. tauto. }
  assert (Hf : first_of (fun x y => better_than (snd x) (snd y)) (nominable_entries now order) =
    first_of (fun x y => better_than (snd x) (snd y)) (nominable_entries now (map_to_list (candidates m)))).
  { apply (first_of_perm (fun x y => ties (snd x) (snd y)) (fun x y => better_than (snd x) (snd y))); [|by apply filter_Permutation].
    intros [k p] [k' p'] [H _]%Hin [H' _]%Hin. unfold ties. rewrite !andb_true_iff, !bool_decide_eq_true. cbn [snd].
    intros (_ & _ & _ & _ & _ & Hl & Hr). pose proof (Hk _ _ H) as K. pose proof (Hk _ _ H') as K'. cbn in K, K'.
    rewrite Hl, Hr in K. congruence. }
  unfold TryNominateBest. rewrite !best_loop, Hf, Hn. split; [done|]. rewrite <- Hf. cbn [negb bool_decide].
  rewrite bool_decide_eq_true_2 by done. cbn [negb].
  pose proof (first_of_spec (fun x y => ties (snd x) (snd y)) _ (nominable_entries now order)) as Hs.
  destruct (first_of _ _) as [[k p]|].
  - destruct Hs as [[Hp Hnom]%Hin Hbest]. exists p.
    assert (Hkn : forall m' rr, nominatedKey (updateCandidateRemoteLocked m' rr) = nominatedKey m' /\
      candidates (updateCandidateRemoteLocked m' rr) = candidates m').
    { intros m' rr. unfold updateCandidateRemoteLocked. by case_decide. }
    rewrite (proj1 (Hkn _ _)). cbn [nominatedKey set_nominated]. split_and!; try done.
    + unfold NominatedPair. rewrite (proj1 (Hkn _ _)), (proj2 (Hkn _ _)). cbn. rewrite decide_False, lookup_insert_eq; [done|].
      apply (proj1 Hm _ _ Hp).
    + intros k' q Hq Hqn. apply (Hbest (k', q)), Hin. done.
  - split; [done|]. intros k q Hq. destruct (nominable now q) eqn:E; [|done].
    assert (H : (k, q) ∈ nominable_entries now order) by (by apply Hin). rewrite Hs in H. by apply not_elem_of_nil in H.
Qed.

(** ** A session *)
Definition ex_seen : CandidateManager := snd (MarkSucceededWithPriority 1 "a" "b" no_priority (NewCandidateManager "s")).
Definition ex_two : CandidateManager := snd (MarkSucceededWithPriority 2 "a" "c" (mkPriority 5 "direct") ex_seen).
Definition ex_nominated : CandidateManager := snd (TryNominate 3 "a" "b" ex_two).
Definition ex_confirmed : CandidateManager := snd (Confirm 4 "a" "b" ex_nominated).
Definition ex_later : CandidateManager := snd (AdoptNomination 5 "a" "c" ex_confirmed).

Definition ex_ops : list cm_op := [CSucceed "a" "b" no_priority; CSucceed "a" "c" (mkPriority 5 "direct")].

Lemma ex_run : cm_run (NewCandidateManager "s") ex_ops ex_two.
Proof.
  apply (run_snoc _ [CSucceed "a" "b" no_priority] ex_seen (CSucceed "a" "c" (mkPriority 5 "direct")) ex_two).
  - apply (run_snoc _ [] (NewCandidateManager "s") (CSucceed "a" "b" no_priority) ex_seen); [apply run_nil|].
    exact (st_succeed _ 1 "a" "b" no_priority).
  - exact (st_succeed ex_seen 2 "a" "c" (mkPriority 5 "direct")).
Qed.

Lemma ex_run_nominated : cm_run (NewCandidateManager "s") (ex_ops ++ [CNominate "a" "b"]) ex_nominated.
Proof. exact (run_snoc _ ex_ops ex_two (CNominate "a" "b") ex_nominated ex_run (st_nominate ex_two 3 "a" "b")). Qed.

Lemma candidate_flags_agree_witness :
  HasNominated ex_nominated = true /\ exists p, NominatedPair ex_nominated = Some p /\ Nominated p = true.
Proof.
  assert (H : HasNominated ex_nominated = true) by (vm_compute; reflexivity). split; [exact H|].
  destruct (candidate_flags_agree "s" (ex_ops ++ [CNominate "a" "b"]) ex_nominated ex_run_nominated) as (_ & _ & K & _).
  exact (K H).
Defined.

Lemma confirmation_is_final_witness :
  nominatedKey ex_nominated = candidateKey "a" "b" /\ confirmedKey ex_later = candidateKey "a" "b" /\
  candidateRemote ex_later = "b" /\ Confirm 6 "a" "c" ex_later = (None, ex_later).
Proof.
  assert (Hc : Confirm 4 "a" "b" ex_nominated =
    (Some (mkPair "a" "b" CandidateConfirmed 1 4 1 false true 1 0 "" 0 0), ex_confirmed)) by (vm_compute; reflexivity).
  assert (Hr : cm_run ex_confirmed ([] ++ [CAdopt "a" "c"]) ex_later)
    by exact (run_snoc _ [] ex_confirmed (CAdopt "a" "c") ex_later (run_nil _) (st_adopt ex_confirmed 5 "a" "c")).
  assert (Hne : "b" <> "") by discriminate.
  destruct (confirmation_is_final "s" (ex_ops ++ [CNominate "a" "b"]) ex_nominated 4 "a" "b" _ ex_confirmed
    ([] ++ [CAdopt "a" "c"]) ex_later ex_run_nominated Hne Hc Hr) as (H1 & H2 & _ & H4 & _ & H5).
  exact (conj H1 (conj H2 (conj H4 (H5 6 "a" "c")))).
Defined.

Lemma nominates_the_best_witness :
  nominatedKey ex_two = "" /\
  TryNominateBest 3 (reverse (map_to_list (candidates ex_two))) ex_two = TryNominateBest 3 (map_to_list (candidates ex_two)) ex_two /\
  nominatedKey (snd (TryNominateBest 3 (map_to_list (candidates ex_two)) ex_two)) = "a->c".
Proof.
  assert (Hn : nominatedKey ex_two = "") by (vm_compute; reflexivity).
  split; [exact Hn|]. split; [|vm_compute; reflexivity].
  exact (proj1 (nominates_the_best "s" ex_ops ex_two 3 (reverse (map_to_list (candidates ex_two))) ex_run Hn
    (reverse_Permutation (map_to_list (candidates ex_two))))).
Defined.
