(* ===== verification/P2PPacket.v ===== *)
(** The packets two peers exchange: payload layout, sealing, and what the receiver
    checks.

    Sources: [lib/p2p/wire_codec.go], [lib/p2p/protocol_udp_packet.go], the packet of
    [lib/p2p/protocol.go] and the checks of the read loop in [lib/p2p/handshake.go].

    SHA-256 and AES-GCM are parameters with the properties the code relies on: the hash
    has 32 bytes, sealing adds a 16-byte tag, and opening what was sealed under the same
    key, nonce and additional data gives the plaintext back.  The system's random bytes
    are arguments. *)

From Stdlib Require Import String Ascii.
From S2P Require Import Prelude GoString GoEncoding.
Local Open Scope string_scope.
Local Open Scope list_scope.
Local Open Scope Z_scope.

(** ** Data *)
Definition udpPacketRouteSize : nat := 16.
Definition udpPacketNonceSize : nat := 12.
Definition udpPacketEnvelopeSize : nat := udpPacketRouteSize + udpPacketNonceSize.
Definition udpPacketMinCiphertextSize : nat := 16.
Definition defaultWirePayloadMinBytes : Z := 96.
Definition defaultWirePayloadMaxBytes : Z := 192.
Definition udpPayloadVersion : Z := 1.
Definition udpFlagExtraReply : Z := 1.

Record P2PWireSpec := mkWire { RouteID : string; PayloadMinBytes : Z; PayloadMaxBytes : Z }.

Record UDPPacket := mkUDP {
  WireID : string; u_PayloadMin : Z; u_PayloadMax : Z; u_SessionID : string; u_Token : string;
  u_Type : string; u_Role : string; u_Epoch : Z; u_ProbePort : Z; u_ObservedAddr : string;
  u_ExtraReply : bool; u_Timestamp : Z; u_Nonce : string;
}.

Record udpWirePacket := mkWirePacket { RouteKey : string; w_Nonce : list byte; Ciphertext : list byte }.

Definition NormalizeP2PWireSpec (spec : P2PWireSpec) (fallbackRouteID : string) : P2PWireSpec :=
  let route := if decide (TrimSpace (RouteID spec) = "") then fallbackRouteID else RouteID spec in
  let min := if PayloadMinBytes spec <=? 0 then defaultWirePayloadMinBytes else PayloadMinBytes spec in
  let max := if PayloadMaxBytes spec <=? 0 then defaultWirePayloadMaxBytes else PayloadMaxBytes spec in
  let min := if min <? 32 then 32 else min in
  let max := if max <? min then min else max in
  let max := if 1024 <? max then 1024 else max in
  mkWire route min max.

(** ** Codes *)
Definition udpPacketTypeCode (packetType : string) : option Z :=
  if decide (packetType = "probe") then Some 1
  else if decide (packetType = "probe_ack") then Some 2
  else if decide (packetType = "probe_extra") then Some 3
  else if decide (packetType = "punch") then Some 4
  else if decide (packetType = "success") then Some 5
  else if decide (packetType = "end") then Some 6
  else if decide (packetType = "accept") then Some 7
  else if decide (packetType = "ready") then Some 8
  else None.

Definition udpPacketTypeFromCode (code : Z) : option string :=
  match code with
  | 1 => Some "probe" | 2 => Some "probe_ack" | 3 => Some "probe_extra" | 4 => Some "punch"
  | 5 => Some "success" | 6 => Some "end" | 7 => Some "accept" | 8 => Some "ready"
  | _ => None
  end.

Definition udpPacketRoleCode (role : string) : option Z :=
  if decide (role = "") then Some 0
  else if decide (role = "p2pv") then Some 1
  else if decide (role = "p2pp") then Some 2
  else None.

Definition udpPacketRoleFromCode (code : Z) : option string :=
  match code with 0 => Some "" | 1 => Some "p2pv" | 2 => Some "p2pp" | _ => None end.

(** ** Random lengths: [draw] is the 16-bit number read from the system *)
Definition randomInt (draw min max : Z) : Z :=
  if max <=? min then min
  else let span := max - min + 1 in min + Z.rem draw span.

Definition randomPayloadTarget (draw baseLen minBytes maxBytes : Z) : Z :=
  let baseLen := if baseLen <? 0 then 0 else baseLen in
  let minBytes := if minBytes <=? 0 then defaultWirePayloadMinBytes else minBytes in
  let maxBytes := if maxBytes <=? 0 then defaultWirePayloadMaxBytes else maxBytes in
  let maxBytes := if maxBytes <? minBytes then minBytes else maxBytes in
  let minTarget := if baseLen <? minBytes then minBytes else baseLen in
  let maxTarget := if baseLen <? maxBytes then maxBytes else baseLen in
  randomInt draw minTarget maxTarget.

(** ** Payload *)
Definition payload_head (typeCode roleCode : Z) (pkt : UDPPacket) : list byte :=
  [byte_of_Z udpPayloadVersion; byte_of_Z typeCode; byte_of_Z roleCode;
   byte_of_Z (if u_ExtraReply pkt then udpFlagExtraReply else 0)]
  ++ be_put 2 (u_ProbePort pkt) ++ be_put 8 (u_Timestamp pkt) ++ be_put 4 (u_Epoch pkt)
  ++ [byte_of_Z (Z.of_nat (String.length (u_SessionID pkt))); byte_of_Z (Z.of_nat (String.length (u_ObservedAddr pkt)))].

(** [noise n] is the [n] random bytes of the padding. *)
Definition encodeUDPPacketPayload (draw : Z) (noise : nat -> list byte) (pkt : UDPPacket) : option (list byte) :=
  match udpPacketTypeCode (u_Type pkt), udpPacketRoleCode (u_Role pkt) with
  | Some typeCode, Some roleCode =>
    let sl := Z.of_nat (String.length (u_SessionID pkt)) in
    let ol := Z.of_nat (String.length (u_ObservedAddr pkt)) in
    if (sl =? 0) || (255 <? sl) || (255 <? ol) then None
    else
      let baseLen := 20 + sl + ol + 2 in
      let targetLen := randomPayloadTarget draw baseLen (u_PayloadMin pkt) (u_PayloadMax pkt) in
      let padLen := targetLen - baseLen in
      let padLen := if padLen <? 0 then 0 else padLen in
      Some (payload_head typeCode roleCode pkt ++ bytes_of (u_SessionID pkt) ++ bytes_of (u_ObservedAddr pkt)
            ++ be_put 2 padLen ++ noise (Z.to_nat padLen))
  | _, _ => None
  end.

Definition byte_at (p : list byte) (i : nat) : Z := Z_of_byte (nth i p x00).
Definition slice (p : list byte) (from to : nat) : list byte := take (to - from) (drop from p).

Definition decodeUDPPacketPayload (payload : list byte) : option UDPPacket :=
  if (length payload <? 22)%nat || negb (byte_at payload 0 =? udpPayloadVersion) then None
  else match udpPacketTypeFromCode (byte_at payload 1), udpPacketRoleFromCode (byte_at payload 2) with
  | Some packetType, Some role =>
    let sessionLen := Z.to_nat (byte_at payload 18) in
    let observedLen := Z.to_nat (byte_at payload 19) in
    if (length payload <? 20 + sessionLen + observedLen + 2)%nat then None
    else
      let sessionID := string_of (slice payload 20 (20 + sessionLen)) in
      let offset := (20 + sessionLen)%nat in
      let observedAddr := string_of (slice payload offset (offset + observedLen)) in
      let offset := (offset + observedLen)%nat in
      let padLen := Z.to_nat (be_get (slice payload offset (offset + 2))) in
      let offset := (offset + 2)%nat in
      if negb (length payload =? offset + padLen)%nat || bool_decide (sessionID = "") then None
      else Some (mkUDP "" 0 0 sessionID "" packetType role (be_get (slice payload 14 18))
                  (be_get (slice payload 4 6)) observedAddr
                  (negb (Z.land (byte_at payload 3) udpFlagExtraReply =? 0))
                  (i64 (be_get (slice payload 6 14))) "")
  | _, _ => None
  end.

(** ** Routes and nonces *)
Definition decodeWireRouteID (routeID : string) : option (list byte) :=
  match RawURL_DecodeString routeID with
  | Some d => if (length d =? udpPacketRouteSize)%nat then Some d else
      match hex_DecodeString routeID with
      | Some d => if (length d =? udpPacketRouteSize)%nat then Some d else None
      | None => None
      end
  | None =>
      match hex_DecodeString routeID with
      | Some d => if (length d =? udpPacketRouteSize)%nat then Some d else None
      | None => None
      end
  end.

(** The nonce of the packet if it has one of the right size, else [fresh]. *)
Definition udpPacketNonceBytes (fresh : list byte) (nonce : string) : list byte * string :=
  let nonce := TrimSpace nonce in
  let other :=
    match RawURL_DecodeString nonce with
    | Some d => if negb (bool_decide (nonce = "")) && (length d =? udpPacketNonceSize)%nat then (d, hex_EncodeToString d)
                else (fresh, hex_EncodeToString fresh)
    | None => (fresh, hex_EncodeToString fresh)
    end in
  match hex_DecodeString nonce with
  | Some d => if negb (bool_decide (nonce = "")) && (length d =? udpPacketNonceSize)%nat then (d, ToLower nonce) else other
  | None => other
  end.

Definition parseUDPPacketWire (data : list byte) : option udpWirePacket :=
  if (length data <? udpPacketEnvelopeSize + udpPacketMinCiphertextSize)%nat then None
  else
    let ciphertext := drop udpPacketEnvelopeSize data in
    if (length ciphertext <? udpPacketMinCiphertextSize)%nat then None
    else Some (mkWirePacket (hex_EncodeToString (slice data 0 udpPacketRouteSize))
                 (slice data udpPacketRouteSize udpPacketEnvelopeSize) ciphertext).

(** ** Sealed packets *)
Section Crypto.
Variable sum256 : list byte -> list byte.
Variable seal : list byte -> list byte -> list byte -> list byte -> list byte.
Variable open : list byte -> list byte -> list byte -> list byte -> option (list byte).

Definition udpPacketRouteBytes (routeID : string) : option (list byte) :=
  let routeID := TrimSpace routeID in
  if decide (routeID = "") then None
  else match decodeWireRouteID routeID with
  | Some decoded => Some decoded
  | None => Some (take udpPacketRouteSize (sum256 (bytes_of ("nps-p2p-route|" +:+ routeID))))
  end.

Definition WireRouteKey (routeID : string) : string :=
  match udpPacketRouteBytes routeID with Some r => hex_EncodeToString r | None => "" end.

Definition SameWireRoute (left right : string) : bool :=
  if bool_decide (TrimSpace left = "") || bool_decide (TrimSpace right = "")
  then bool_decide (TrimSpace left = TrimSpace right)
  else bool_decide (WireRouteKey left = WireRouteKey right).

(** The cipher of a token and route: its key, if AES takes it, and the additional data. *)
Definition udpPacketCipher (token routeKey : string) : option (list byte * list byte) :=
  if bool_decide (token = "") || bool_decide (routeKey = "") then None
  else
    let key := sum256 (bytes_of ("nps-p2p-aead|" +:+ routeKey +:+ "|" +:+ token)) in
    if negb ((length key =? 16)%nat || (length key =? 24)%nat || (length key =? 32)%nat) then None
    else match hex_DecodeString routeKey with
    | Some routeBytes => Some (key, routeBytes)
    | None => None
    end.

Definition sealUDPPayload (token routeKey : string) (nonce payload : list byte) : option (list byte) :=
  match udpPacketCipher token routeKey with
  | Some (key, aad) => Some (seal key nonce payload aad)
  | None => None
  end.

Definition openUDPPayload (token routeKey : string) (nonce sealed : list byte) : option (list byte) :=
  match udpPacketCipher token routeKey with
  | Some (key, aad) => open key nonce sealed aad
  | None => None
  end.

(** What the sender draws: the clock, a nonce, the padding. *)
Record draws := mkDraws { d_now : Z; d_nonce : list byte; d_target : Z; d_noise : nat -> list byte }.

Definition newUDPPacketWithWire (now : Z) (sessionID token role typ : string) (wire : P2PWireSpec) : UDPPacket :=
  let wire := NormalizeP2PWireSpec wire sessionID in
  mkUDP (RouteID wire) (PayloadMinBytes wire) (PayloadMaxBytes wire) sessionID token typ role 0 0 "" false now "".

Definition with_epoch (pkt : UDPPacket) (epoch : Z) : UDPPacket :=
  mkUDP (WireID pkt) (u_PayloadMin pkt) (u_PayloadMax pkt) (u_SessionID pkt) (u_Token pkt) (u_Type pkt) (u_Role pkt) epoch
    (u_ProbePort pkt) (u_ObservedAddr pkt) (u_ExtraReply pkt) (u_Timestamp pkt) (u_Nonce pkt).

(** The packet is also updated: its route, time stamp and nonce are filled in. *)
Definition EncodeUDPPacket (d : draws) (pkt : UDPPacket) : option (list byte * UDPPacket) :=
  let wireID := if decide (WireID pkt = "") then u_SessionID pkt else WireID pkt in
  let timestamp := if u_Timestamp pkt =? 0 then d_now d else u_Timestamp pkt in
  let '(nonce, nonceText) := udpPacketNonceBytes (d_nonce d) (u_Nonce pkt) in
  let pkt := mkUDP wireID (u_PayloadMin pkt) (u_PayloadMax pkt) (u_SessionID pkt) (u_Token pkt) (u_Type pkt) (u_Role pkt)
               (u_Epoch pkt) (u_ProbePort pkt) (u_ObservedAddr pkt) (u_ExtraReply pkt) timestamp nonceText in
  match udpPacketRouteBytes wireID with
  | None => None
  | Some route =>
    match encodeUDPPacketPayload (d_target d) (d_noise d) pkt with
    | None => None
    | Some payload =>
      match sealUDPPayload (u_Token pkt) (hex_EncodeToString route) nonce payload with
      | None => None
      | Some sealed => Some (route ++ nonce ++ sealed, pkt)
      end
    end
  end.

(** [session] is the session the route belongs to, or empty when it is not known. *)
Definition decodeUDPPacketWire (wire : udpWirePacket) (session token : string) : option UDPPacket :=
  if decide (token = "") then None
  else match openUDPPayload token (RouteKey wire) (w_Nonce wire) (Ciphertext wire) with
  | None => None
  | Some plaintext =>
    match decodeUDPPacketPayload plaintext with
    | None => None
    | Some p =>
      if negb (bool_decide (session = "")) && negb (bool_decide (session = u_SessionID p)) then None
      else Some (mkUDP (RouteKey wire) (u_PayloadMin p) (u_PayloadMax p) (u_SessionID p) token (u_Type p) (u_Role p)
                  (u_Epoch p) (u_ProbePort p) (u_ObservedAddr p) (u_ExtraReply p) (u_Timestamp p)
                  (hex_EncodeToString (w_Nonce wire)))
    end
  end.

Definition DecodeUDPPacket (data : list byte) (token : string) : option UDPPacket :=
  match parseUDPPacketWire data with
  | None => None
  | Some wire => decodeUDPPacketWire wire "" token
  end.

Definition DecodeUDPPacketWithLookup (data : list byte) (lookup : string -> option (string * string)) : option UDPPacket :=
  match parseUDPPacketWire data with
  | None => None
  | Some wire =>
    match lookup (RouteKey wire) with
    | None => None
    | Some (session, token) => if decide (token = "") then None else decodeUDPPacketWire wire session token
    end
  end.

(** The checks of the read loop on a decoded packet, before the replay window. *)
Definition packet_is_ours (sessionID token : string) (wire : P2PWireSpec) (packet : UDPPacket) : bool :=
  let routeID := RouteID (NormalizeP2PWireSpec wire sessionID) in
  bool_decide (u_SessionID packet = sessionID) && bool_decide (u_Token packet = token) &&
  negb (negb (bool_decide (routeID = "")) && negb (SameWireRoute (WireID packet) routeID)).
End Crypto.

(** ** Round trip of the payload *)
Lemma slice_app a b c i j : i = length a -> j = (i + length b)%nat -> slice (a ++ b ++ c) i j = b.
Proof.
  intros -> ->. unfold slice. rewrite drop_app_length. replace (length a + length b - length a)%nat with (length b) by lia.
  apply take_app_length.
Qed.

Lemma slice_mid p a b c i j : p = a ++ b ++ c -> i = length a -> j = (i + length b)%nat -> slice p i j = b.
Proof. intros ->. apply slice_app. Qed.

Lemma type_code_roundtrip t c : udpPacketTypeCode t = Some c -> udpPacketTypeFromCode c = Some t /\ 0 <= c < 256.
Proof. unfold udpPacketTypeCode. repeat case_decide; intros [= <-]; subst; done. Qed.
Lemma role_code_roundtrip r c : udpPacketRoleCode r = Some c -> udpPacketRoleFromCode c = Some r /\ 0 <= c < 256.
Proof. unfold udpPacketRoleCode. repeat case_decide; intros [= <-]; subst; done. Qed.

Lemma byte_of_small z : 0 <= z < 256 -> Z_of_byte (byte_of_Z z) = z.
Proof. intros H. rewrite Z_of_byte_of_Z. by apply Z.mod_small. Qed.

Lemma length_head t r pkt : length (payload_head t r pkt) = 20%nat.
Proof. reflexivity. Qed.

(** The fields of the fixed part. *)
Lemma packet_head_fields t r pkt rest : 0 <= t < 256 -> 0 <= r < 256 ->
  (String.length (u_SessionID pkt) <= 255)%nat -> (String.length (u_ObservedAddr pkt) <= 255)%nat ->
  let p := payload_head t r pkt ++ rest in
  byte_at p 0 = udpPayloadVersion /\ byte_at p 1 = t /\ byte_at p 2 = r /\
  negb (Z.land (byte_at p 3) udpFlagExtraReply =? 0) = u_ExtraReply pkt /\
  slice p 4 6 = be_put 2 (u_ProbePort pkt) /\ slice p 6 14 = be_put 8 (u_Timestamp pkt) /\
  slice p 14 18 = be_put 4 (u_Epoch pkt) /\
  Z.to_nat (byte_at p 18) = String.length (u_SessionID pkt) /\ Z.to_nat (byte_at p 19) = String.length (u_ObservedAddr pkt).
Proof.
  intros Ht Hr Hs Ho p. unfold p, payload_head, byte_at. split_and!; try reflexivity.
  - by apply byte_of_small.
  - by apply byte_of_small.
  - by destruct (u_ExtraReply pkt).
  - change (Z.to_nat (Z_of_byte (byte_of_Z (Z.of_nat (String.length (u_SessionID pkt))))) = String.length (u_SessionID pkt)).
    rewrite byte_of_small by lia. lia.
  - change (Z.to_nat (Z_of_byte (byte_of_Z (Z.of_nat (String.length (u_ObservedAddr pkt))))) = String.length (u_ObservedAddr pkt)).
    rewrite byte_of_small by lia. lia.
Qed.

Definition packet_in_range (pkt : UDPPacket) : Prop :=
  0 <= u_ProbePort pkt < 65536 /\ 0 <= u_Epoch pkt < 2 ^ 32 /\ - 2 ^ 63 <= u_Timestamp pkt < 2 ^ 63 /\
  u_PayloadMin pkt <= 65535 /\ u_PayloadMax pkt <= 65535.

Lemma randomInt_bounds draw mn mx : 0 <= draw -> mn <= randomInt draw mn mx <= Z.max mn mx.
Proof.
  intros Hd. unfold randomInt. destruct (Z.leb_spec mx mn); [lia|].
  pose proof (Z.rem_bound_pos draw (mx - mn + 1) ltac:(lia) ltac:(lia)). lia.
Qed.

Lemma target_bounds draw base mn mx : 0 <= draw -> 0 <= base <= 65535 -> mn <= 65535 -> mx <= 65535 ->
  base <= randomPayloadTarget draw base mn mx <= 65535.
Proof.
  intros Hd Hb Hmn Hmx. unfold randomPayloadTarget, defaultWirePayloadMinBytes, defaultWirePayloadMaxBytes.
  rewrite (proj2 (Z.ltb_ge base 0)) by lia. set (mn1 := if mn <=? 0 then 96 else mn). set (mx1 := if mx <=? 0 then 192 else mx).
  assert (mn1 <= 65535 /\ mx1 <= 65535) by (unfold mn1, mx1; destruct (Z.leb_spec mn 0), (Z.leb_spec mx 0); lia).
  clearbody mn1 mx1. set (mx2 := if mx1 <? mn1 then mn1 else mx1).
  assert (mx2 <= 65535) by (unfold mx2; destruct (Z.ltb_spec mx1 mn1); lia). clearbody mx2.
  match goal with |- _ <= randomInt _ ?a ?b <= _ => pose proof (randomInt_bounds draw a b Hd) end.
  destruct (Z.ltb_spec base mn1), (Z.ltb_spec base mx2); lia.
Qed.

Lemma payload_roundtrip draw noise pkt payload : 0 <= draw -> (forall n, length (noise n) = n) -> packet_in_range pkt ->
  encodeUDPPacketPayload draw noise pkt = Some payload ->
  decodeUDPPacketPayload payload = Some (mkUDP "" 0 0 (u_SessionID pkt) "" (u_Type pkt) (u_Role pkt) (u_Epoch pkt)
    (u_ProbePort pkt) (u_ObservedAddr pkt) (u_ExtraReply pkt) (u_Timestamp pkt) "").
Proof.
  intros Hd Hn (R1 & R2 & R3 & R4 & R5). unfold encodeUDPPacketPayload.
  destruct (udpPacketTypeCode (u_Type pkt)) as [tc|] eqn:Et; [|done]. destruct (udpPacketRoleCode (u_Role pkt)) as [rc|] eqn:Er; [|done].
  destruct (type_code_roundtrip _ _ Et) as [Et' Bt]. destruct (role_code_roundtrip _ _ Er) as [Er' Br].
  set (sl := String.length (u_SessionID pkt)). set (ol := String.length (u_ObservedAddr pkt)).
  destruct (_ || _) eqn:Eg; [done|]. rewrite !orb_false_iff in Eg. destruct Eg as [[Eg1 Eg2] Eg3]. zbool.
  set (base := 20 + Z.of_nat sl + Z.of_nat ol + 2).
  pose proof (target_bounds draw base (u_PayloadMin pkt) (u_PayloadMax pkt) Hd ltac:(unfold base; lia) R4 R5) as Htg.
  set (pad := randomPayloadTarget draw base (u_PayloadMin pkt) (u_PayloadMax pkt) - base) in *.
  destruct (Z.ltb_spec pad 0); [lia|]. assert (Hpad : 0 <= pad < 65536) by (unfold base in *; lia). clearbody pad.
  intros <-%(inj Some). set (rest := bytes_of (u_SessionID pkt) ++ _).
  destruct (packet_head_fields tc rc pkt rest Bt Br ltac:(lia) ltac:(lia)) as (F0 & F1 & F2 & F3 & F4 & F5 & F6 & F7 & F8).
  set (p := payload_head tc rc pkt ++ rest) in *.
  pose proof (length_bytes_of (u_SessionID pkt)) as Ls. pose proof (length_bytes_of (u_ObservedAddr pkt)) as Lo.
  assert (Hlen : length p = (20 + sl + ol + 2 + Z.to_nat pad)%nat).
  { unfold p, rest. rewrite length_app, length_head, !length_app, length_be_put, Hn, Ls, Lo. fold sl ol. lia. }
  unfold decodeUDPPacketPayload. rewrite F0, F1, F2, Et', Er', F3, F4, F5, F6, F7, F8. fold sl ol.
  rewrite (proj2 (Nat.ltb_ge _ _)) by lia. cbn [orb negb]. rewrite Z.eqb_refl. cbn [orb negb].
  rewrite (proj2 (Nat.ltb_ge _ _)) by lia.
  rewrite (slice_mid p (payload_head tc rc pkt) (bytes_of (u_SessionID pkt)) _ 20 (20 + sl) eq_refl eq_refl) by (rewrite Ls; done).
  rewrite (slice_mid p (payload_head tc rc pkt ++ bytes_of (u_SessionID pkt)) (bytes_of (u_ObservedAddr pkt))
    (be_put 2 pad ++ noise (Z.to_nat pad)) (20 + sl) (20 + sl + ol)); cycle 1.
  { by rewrite <- app_assoc. } { by rewrite length_app, length_head, Ls. } { by rewrite Lo. }
  rewrite (slice_mid p (payload_head tc rc pkt ++ bytes_of (u_SessionID pkt) ++ bytes_of (u_ObservedAddr pkt)) (be_put 2 pad)
    (noise (Z.to_nat pad)) (20 + sl + ol) (20 + sl + ol + 2)); cycle 1.
  { by rewrite <- !app_assoc. } { rewrite !length_app, length_head, Ls, Lo. fold sl ol. lia. } { by rewrite length_be_put. }
  rewrite !be_get_put, !string_of_bytes_of. change (256 ^ Z.of_nat 2) with 65536. rewrite !(Z.mod_small _ 65536) by lia.
  rewrite (proj2 (Nat.eqb_eq _ _)) by lia. cbn [negb orb].
  rewrite bool_decide_eq_false_2 by (intros E; unfold sl in Eg1; rewrite E in Eg1; cbn in Eg1; lia).
  change (256 ^ Z.of_nat 4) with (2 ^ 32). change (256 ^ Z.of_nat 8) with (2 ^ 64). rewrite (Z.mod_small _ (2 ^ 32)) by lia.
  repeat f_equal. apply (swrap_wrap 64); [lia|]. unfold is_sint. cbn. lia.
Qed.

(** ** A genuine packet reaches the handlers *)
Section Genuine.
Variable sum256 : list byte -> list byte.
Variable seal : list byte -> list byte -> list byte -> list byte -> list byte.
Variable open : list byte -> list byte -> list byte -> list byte -> option (list byte).
Hypothesis sum256_length : forall x, length (sum256 x) = 32%nat.
Hypothesis seal_length : forall k n p a, length (seal k n p a) = (length p + 16)%nat.
Hypothesis open_seal : forall k n p a, open k n (seal k n p a) a = Some p.

Lemma route_length routeID r : udpPacketRouteBytes sum256 routeID = Some r -> length r = 16%nat.
Proof.
  unfold udpPacketRouteBytes. case_decide; [done|]. destruct (decodeWireRouteID (TrimSpace routeID)) as [d|] eqn:E.
  - intros <-%(inj Some). unfold decodeWireRouteID in E. revert E.
    repeat (case_match; try done); intros <-%(inj Some); by apply Nat.eqb_eq.
  - intros <-%(inj Some). rewrite length_take, sum256_length. done.
Qed.

Lemma route_of_key r : length r = 16%nat -> udpPacketRouteBytes sum256 (hex_EncodeToString r) = Some r.
Proof.
  intros Hr. unfold udpPacketRouteBytes. rewrite trim_hex, decide_False by (apply hex_nonempty; by intros ->).
  unfold decodeWireRouteID. rewrite hex_roundtrip, Hr. cbn.
  destruct (RawURL_DecodeString (hex_EncodeToString r)) as [ds|] eqn:E; [|done].
  apply RawURL_hex_length in E. rewrite Hr in E. by rewrite E.
Qed.

(** The key a receiver reads from the envelope names the same route as the identifier
    both ends were given. *)
Lemma route_key_same routeID r : udpPacketRouteBytes sum256 routeID = Some r ->
  SameWireRoute sum256 (hex_EncodeToString r) routeID = true.
Proof.
  intros Hr. pose proof (route_length _ _ Hr) as Hl. unfold SameWireRoute. rewrite trim_hex.
  rewrite bool_decide_eq_false_2 by (apply hex_nonempty; by intros ->). cbn [orb].
  assert (Ht : TrimSpace routeID <> "").
  { intros E. unfold udpPacketRouteBytes in Hr. rewrite decide_True in Hr; done. }
  rewrite (bool_decide_eq_false_2 _ Ht). apply bool_decide_eq_true. unfold WireRouteKey.
  by rewrite (route_of_key r Hl), Hr.
Qed.

Lemma cipher_of token r : token <> "" -> length r = 16%nat ->
  exists key, udpPacketCipher sum256 token (hex_EncodeToString r) = Some (key, r).
Proof.
  intros Ht Hr. eexists. unfold udpPacketCipher. rewrite (bool_decide_eq_false_2 _ Ht).
  rewrite bool_decide_eq_false_2 by (apply hex_nonempty; by intros ->). cbn [orb].
  rewrite sum256_length, hex_roundtrip. reflexivity.
Qed.

Definition draws_ok (d : draws) : Prop :=
  length (d_nonce d) = 12%nat /\ 0 <= d_target d /\ (forall n, length (d_noise d n) = n) /\ 0 < d_now d < 2 ^ 63.

(** Opening what was sealed for the same route and token. *)
Lemma envelope_roundtrip route nonce token payload p : length route = 16%nat -> length nonce = 12%nat -> token <> "" ->
  decodeUDPPacketPayload payload = Some p ->
  exists sealed, sealUDPPayload sum256 seal token (hex_EncodeToString route) nonce payload = Some sealed /\
    DecodeUDPPacket sum256 open (route ++ nonce ++ sealed) token =
      Some (mkUDP (hex_EncodeToString route) (u_PayloadMin p) (u_PayloadMax p) (u_SessionID p) token (u_Type p) (u_Role p)
        (u_Epoch p) (u_ProbePort p) (u_ObservedAddr p) (u_ExtraReply p) (u_Timestamp p) (hex_EncodeToString nonce)).
Proof.
  intros Hr Hn Ht Hp. destruct (cipher_of token route Ht Hr) as [key Hk]. exists (seal key nonce payload route).
  unfold sealUDPPayload. rewrite Hk. split; [done|]. unfold DecodeUDPPacket, parseUDPPacketWire.
  pose proof (seal_length key nonce payload route) as Hl.
  rewrite (proj2 (Nat.ltb_ge _ _)) by (rewrite !length_app, Hr, Hn, Hl; unfold udpPacketEnvelopeSize, udpPacketRouteSize, udpPacketNonceSize, udpPacketMinCiphertextSize; lia).
  assert (Hd : drop udpPacketEnvelopeSize (route ++ nonce ++ seal key nonce payload route) = seal key nonce payload route).
  { rewrite app_assoc. apply drop_app_length'. by rewrite length_app, Hr, Hn. }
  rewrite Hd, (proj2 (Nat.ltb_ge _ _)) by (rewrite Hl; unfold udpPacketEnvelopeSize, udpPacketRouteSize, udpPacketNonceSize, udpPacketMinCiphertextSize; lia).
  rewrite (slice_mid (route ++ nonce ++ seal key nonce payload route) [] route (nonce ++ seal key nonce payload route) 0
    udpPacketRouteSize eq_refl eq_refl) by (by rewrite Hr).
  rewrite (slice_mid _ route nonce (seal key nonce payload route) udpPacketRouteSize udpPacketEnvelopeSize eq_refl) by (by rewrite ?Hr, ?Hn).
  unfold decodeUDPPacketWire, openUDPPayload. cbn [RouteKey w_Nonce Ciphertext]. rewrite decide_False by done.
  by rewrite Hk, open_seal, Hp.
Qed.

Lemma normalize_route wire sid : TrimSpace sid <> "" -> TrimSpace (RouteID (NormalizeP2PWireSpec wire sid)) <> "" /\
  RouteID (NormalizeP2PWireSpec (NormalizeP2PWireSpec wire sid) sid) = RouteID (NormalizeP2PWireSpec wire sid).
Proof.
  intros Hs. assert (H : TrimSpace (RouteID (NormalizeP2PWireSpec wire sid)) <> "").
  { unfold NormalizeP2PWireSpec. cbn [RouteID]. by case_decide. }
  split; [done|]. unfold NormalizeP2PWireSpec at 1. cbn [RouteID]. by rewrite decide_False.
Qed.

Lemma normalize_sizes wire sid : PayloadMinBytes wire <= 65535 ->
  PayloadMinBytes (NormalizeP2PWireSpec wire sid) <= 65535 /\ PayloadMaxBytes (NormalizeP2PWireSpec wire sid) <= 65535.
Proof.
  intros H. unfold NormalizeP2PWireSpec, defaultWirePayloadMinBytes. cbn [PayloadMinBytes PayloadMaxBytes].
  split.
  - destruct (Z.leb_spec (PayloadMinBytes wire) 0); [done|]. destruct (Z.ltb_spec (PayloadMinBytes wire) 32); lia.
  - match goal with |- (if 1024 <? ?m then _ else _) <= _ => destruct (Z.ltb_spec 1024 m); lia end.
Qed.

(** C24. A packet that one end makes for the session is encoded, and the other end
    decodes it to the same type, role, nomination epoch and time and lets it pass its
    checks of session, token and route, for every route identifier (given as base64, as
    hexadecimal or as any other text) and every draw of nonce and padding, as long as
    the smallest payload asked for is less than 64 KiB. *)
Theorem genuine_packet_accepted d now sid token role typ wire epoch : draws_ok d ->
  token <> "" -> TrimSpace sid <> "" -> (String.length sid <= 255)%nat ->
  is_Some (udpPacketTypeCode typ) -> is_Some (udpPacketRoleCode role) ->
  PayloadMinBytes wire <= 65535 -> 0 <= epoch < 2 ^ 32 -> 0 < now < 2 ^ 63 ->
  exists raw sent got,
    EncodeUDPPacket sum256 seal d
      (with_epoch (newUDPPacketWithWire now sid token role typ (NormalizeP2PWireSpec wire sid)) epoch) = Some (raw, sent) /\
    DecodeUDPPacket sum256 open raw token = Some got /\
    packet_is_ours sum256 sid token wire got = true /\
    u_Type got = typ /\ u_Role got = role /\ u_Epoch got = epoch /\ u_Timestamp got = now /\
    u_SessionID got = sid /\ u_Nonce got = u_Nonce sent.
Proof.
  intros (D1 & D2 & D3 & D4) Ht Hs Hl [tc Htc] [rc Hrc] Hm He Hw.
  destruct (normalize_route wire sid Hs) as [Hr1 Hr2]. set (w := NormalizeP2PWireSpec wire sid) in *.
  destruct (normalize_sizes w sid (proj1 (normalize_sizes wire sid Hm))) as [M1 M2].
  assert (Hne : RouteID w <> "") by (intros E; by rewrite E in Hr1).
  set (pkt := mkUDP (RouteID w) (PayloadMinBytes (NormalizeP2PWireSpec w sid)) (PayloadMaxBytes (NormalizeP2PWireSpec w sid))
    sid token typ role epoch 0 "" false now (hex_EncodeToString (d_nonce d))).
  destruct (udpPacketRouteBytes sum256 (RouteID w)) as [route|] eqn:Er.
  2: { exfalso. unfold udpPacketRouteBytes in Er. rewrite decide_False in Er by done. by case_match. }
  pose proof (route_length _ _ Er) as Hrl.
  destruct (encodeUDPPacketPayload (d_target d) (d_noise d) pkt) as [payload|] eqn:Ep.
  2: { exfalso. revert Ep. unfold encodeUDPPacketPayload. cbn [pkt u_Type u_Role u_SessionID u_ObservedAddr]. rewrite Htc, Hrc.
       destruct (Z.eqb_spec (Z.of_nat (String.length sid)) 0) as [E|E]; [destruct sid; [done|cbn in E; lia]|].
       rewrite (proj2 (Z.ltb_ge 255 (Z.of_nat (String.length sid)))) by lia. done. }
  assert (Hrange : packet_in_range pkt).
  { unfold packet_in_range, pkt. cbn [u_ProbePort u_Epoch u_Timestamp u_PayloadMin u_PayloadMax]. lia. }
  pose proof (payload_roundtrip _ _ _ _ D2 D3 Hrange Ep) as Hdec.
  destruct (envelope_roundtrip route (d_nonce d) token payload _ Hrl D1 Ht Hdec) as (sealed & Hsl & Hd).
  exists (route ++ d_nonce d ++ sealed), pkt. eexists. split_and!; [|exact Hd|..]; try done.
  - unfold EncodeUDPPacket, with_epoch, newUDPPacketWithWire. cbn [WireID u_Timestamp u_Nonce u_SessionID u_Token u_Type u_Role
      u_Epoch u_ProbePort u_ObservedAddr u_ExtraReply u_PayloadMin u_PayloadMax]. rewrite Hr2, decide_False by done.
    rewrite (proj2 (Z.eqb_neq now 0)) by lia. change (udpPacketNonceBytes (d_nonce d) "") with (d_nonce d, hex_EncodeToString (d_nonce d)).
    cbv beta iota. fold pkt. by rewrite Er, Ep, Hsl.
  - unfold packet_is_ours. fold w. cbn [u_SessionID u_Token WireID]. rewrite !(bool_decide_eq_true_2 (_ = _)) by done.
    rewrite (route_key_same _ _ Er). by rewrite andb_false_r.
Qed.
End Genuine.

(** A toy hash and cipher with the properties assumed. *)
Definition toy_sum (x : list byte) : list byte := replicate 32 x00.
Definition toy_seal (k n p a : list byte) : list byte := p ++ replicate 16 x00.
Definition toy_open (k n c a : list byte) : option (list byte) := Some (take (length c - 16) c).

Lemma genuine_packet_accepted_witness :
  exists raw sent got,
    EncodeUDPPacket toy_sum toy_seal (mkDraws 5 (replicate 12 x01) 7 (fun n => replicate n x02))
      (with_epoch (newUDPPacketWithWire 1000 "s1" "tok" "p2pv" "end" (NormalizeP2PWireSpec (mkWire "r" 0 0) "s1")) 3) = Some (raw, sent) /\
    DecodeUDPPacket toy_sum toy_open raw "tok" = Some got /\ u_Epoch got = 3.
Proof.
  destruct (genuine_packet_accepted toy_sum toy_seal toy_open) with
    (d := mkDraws 5 (replicate 12 x01) 7 (fun n => replicate n x02)) (now := 1000) (sid := "s1") (token := "tok")
    (role := "p2pv") (typ := "end") (wire := mkWire "r" 0 0) (epoch := 3)
    as (raw & sent & got & H1 & H2 & _ & _ & _ & H3 & _).
  - reflexivity.
  - intros k n p a. unfold toy_seal. rewrite length_app, length_replicate. reflexivity.
  - intros k n p a. unfold toy_open, toy_seal. rewrite length_app, length_replicate, Nat.add_sub. f_equal. apply take_app_length.
  - split_and!; [reflexivity|cbn; lia|intros n; apply length_replicate|cbn; lia|cbn; lia].
  - discriminate.
  - vm_compute. discriminate.
  - cbn. lia.
  - eexists. reflexivity.
  - eexists. reflexivity.
  - cbn. lia.
  - lia.
  - lia.
  - exists raw, sent, got. split_and!; assumption.
Defined.

(** A configured minimum above 64 KiB survives [NormalizeP2PWireSpec], whose limit is on
    the maximum only; the padding length then does not fit its 16-bit field and the
    receiver refuses the packet. *)
Lemma large_minimum_is_undecodable :
  let wire := NormalizeP2PWireSpec (mkWire "r" 70000 0) "s1" in
  PayloadMinBytes wire = 70000 /\ PayloadMaxBytes wire = 1024 /\
  match encodeUDPPacketPayload 0 (fun n => replicate n x00) (newUDPPacketWithWire 1000 "s1" "tok" "p2pv" "end" wire) with
  | Some payload => bool_decide (decodeUDPPacketPayload payload = None)
  | None => false
  end = true.
Proof. split_and!; vm_compute; reflexivity. Qed.
