(* ===== verification/ReplayWindow.v ===== *)
(** The window that drops packets seen before.

    Source: [lib/p2p/runtime_session.go] ([ReplayWindow]).

    [Accept] holds the mutex from the expiry loop on, and reads only constants before,
    so a call is one step.  The clock, in milliseconds, is an argument.  The loop over
    the map deletes by a test on the entry, so its order does not matter; the entries
    sorted by [pruneOverflowLocked] have different nonces, so the sorted order is
    unique and the map order does not matter either. *)

From stdpp Require Import gmap sorting.
From S2P Require Import Prelude GoString Orders.
Local Open Scope string_scope.
Local Open Scope list_scope.
Local Open Scope Z_scope.

Definition defaultReplayWindow : Z := 30 * 1000000000.
Definition defaultReplayWindowMaxEntries : Z := 512.

(** [maxAge] in nanoseconds, as a [time.Duration]. *)
Record ReplayWindow := mkReplay { maxAge : Z; maxEntries : Z; observed : gmap string Z }.

Definition newReplayWindow (age entries : Z) : ReplayWindow :=
  mkReplay (if age <=? 0 then defaultReplayWindow else age)
           (if entries <=? 0 then defaultReplayWindowMaxEntries else entries) ∅.

Definition NewReplayWindow (age : Z) : ReplayWindow := newReplayWindow age defaultReplayWindowMaxEntries.

Definition Milliseconds (d : Z) : Z := Z.quot d 1000000.

(** The comparison of [sort.Slice], made reflexive. *)
Definition older (x y : string * Z) : bool :=
  lex (fun x y => snd x =? snd y) (fun x y => snd x <? snd y) (fun x y => String.ltb (fst x) (fst y)) x y.
Definition older_eq (x y : string * Z) : Prop := older y x = false.
#[export] Instance older_eq_dec x y : Decision (older_eq x y) := bool_eq_dec _ _.

Definition pruneOverflowLocked (w : ReplayWindow) : ReplayWindow :=
  let len := Z.of_nat (size (observed w)) in
  if (maxEntries w <=? 0) || (len <? maxEntries w) then w
  else
    let overflow := len - maxEntries w + 1 in
    let oldest := merge_sort older_eq (map_to_list (observed w)) in
    mkReplay (maxAge w) (maxEntries w)
      (foldl (fun obs e => delete (fst e) obs) (observed w) (take (Z.to_nat overflow) oldest)).

(** Dropping the entries older than the window. *)
Definition expire (before : Z) (w : ReplayWindow) : ReplayWindow :=
  mkReplay (maxAge w) (maxEntries w) (filter (fun e => before <= snd e) (observed w)).

Definition Accept (now timestampMs : Z) (nonce : string) (w : ReplayWindow) : bool * ReplayWindow :=
  if bool_decide (nonce = "") || (timestampMs <=? 0) then (false, w)
  else
    let windowMs := Milliseconds (maxAge w) in
    if (timestampMs <? now - windowMs) || (now + windowMs <? timestampMs) then (false, w)
    else
      let w := pruneOverflowLocked (expire (now - windowMs) w) in
      match observed w !! nonce with
      | Some _ => (false, w)
      | None => (true, mkReplay (maxAge w) (maxEntries w) (<[nonce := timestampMs]> (observed w)))
      end.

(** A sequence of calls, each with its clock reading. *)
Record replay_call := mkCall { c_now : Z; c_ts : Z; c_nonce : string }.

Fixpoint accepts (w : ReplayWindow) (calls : list replay_call) : ReplayWindow :=
  match calls with
  | [] => w
  | c :: rest => accepts (snd (Accept (c_now c) (c_ts c) (c_nonce c) w)) rest
  end.

(** The clock does not go back from [t] on. *)
Fixpoint clock_from (t : Z) (calls : list replay_call) : Prop :=
  match calls with
  | [] => True
  | c :: rest => t <= c_now c /\ clock_from (c_now c) rest
  end.

(** ** Sizes *)
Definition window_ok (w : ReplayWindow) : Prop := 0 < maxEntries w /\ 0 < maxAge w /\ Z.of_nat (size (observed w)) <= maxEntries w.

Lemma newReplayWindow_ok age entries : window_ok (newReplayWindow age entries).
Proof.
  unfold window_ok, newReplayWindow. cbn. rewrite map_size_empty.
  destruct (Z.leb_spec age 0), (Z.leb_spec entries 0); unfold defaultReplayWindow, defaultReplayWindowMaxEntries; lia.
Qed.

Lemma size_filter_le (P : string * Z -> Prop) `{forall x, Decision (P x)} (o : gmap string Z) : (size (filter P o) <= size o)%nat.
Proof. apply map_subseteq_size, map_filter_subseteq. Qed.

Lemma lookup_foldl_delete (l : list (string * Z)) : forall (o : gmap string Z) k,
  foldl (fun obs e => delete (fst e) obs) o l !! k = if decide (k ∈ l.*1) then None else o !! k.
Proof.
  induction l as [|e l IH]; intros o k; [done|]. cbn [foldl fmap list_fmap]. rewrite IH.
  destruct (decide (k ∈ l.*1)) as [H|H].
  - rewrite decide_True; [done|by right].
  - destruct (decide (k = fst e)) as [->|Hne].
    + rewrite decide_True by left. apply lookup_delete_eq.
    + rewrite decide_False by (by apply not_elem_of_cons). by rewrite lookup_delete_ne.
Qed.

Lemma foldl_delete_size (l : list (string * Z)) : forall o : gmap string Z, NoDup l.*1 -> (forall k, k ∈ l.*1 -> is_Some (o !! k)) ->
  (size (foldl (fun obs e => delete (fst e) obs) o l) + length l = size o)%nat.
Proof.
  induction l as [|e l IH]; intros o Hnd Hin; cbn [foldl length]; [lia|].
  cbn in Hnd. apply NoDup_cons in Hnd as [Hne Hnd].
  assert (He : is_Some (o !! fst e)) by (apply Hin; left). pose proof (map_size_delete_Some (fst e) o He) as Hs.
  assert (size o <> 0%nat).
  { destruct He as [x Hx]. intros E%map_size_empty_iff. by rewrite E in Hx. }
  rewrite <- (Nat.succ_pred (size o)) by done. rewrite <- Hs, <- (IH (delete (fst e) o)); [lia|done|].
  intros k Hk. rewrite lookup_delete_ne; [apply Hin; by right|]. intros E. apply Hne. by rewrite E.
Qed.

Lemma sorted_keys (w : ReplayWindow) : NoDup (merge_sort older_eq (map_to_list (observed w))).*1.
Proof. rewrite merge_sort_Permutation. apply NoDup_fst_map_to_list. Qed.

Lemma prune_size w : window_ok w -> Z.of_nat (size (observed (pruneOverflowLocked w))) < maxEntries w.
Proof.
  intros (H1 & _ & H2). unfold pruneOverflowLocked. destruct (Z.leb_spec (maxEntries w) 0); [lia|]. cbn [orb].
  destruct (Z.ltb_spec (Z.of_nat (size (observed w))) (maxEntries w)); [done|]. cbn [observed].
  set (l := merge_sort older_eq (map_to_list (observed w))).
  assert (Hl : length l = size (observed w)).
  { unfold l. by rewrite merge_sort_Permutation, length_map_to_list. }
  set (n := Z.to_nat (Z.of_nat (size (observed w)) - maxEntries w + 1)).
  assert (Hs : (size (foldl (fun obs e => delete (fst e) obs) (observed w) (take n l)) + length (take n l) = size (observed w))%nat).
  { apply foldl_delete_size; rewrite fmap_take.
    - eapply sublist_NoDup; [apply sorted_keys|apply sublist_take].
    - intros k Hk. apply (fun H => elem_of_sublist _ _ _ H (sublist_take _ _)) in Hk. unfold l in Hk.
      rewrite merge_sort_Permutation in Hk. apply list_elem_of_fmap in Hk as ([k' v] & -> & Hk%elem_of_map_to_list). by exists v. }
  rewrite length_take in Hs. lia.
Qed.

Lemma expire_ok b w : window_ok w -> window_ok (expire b w).
Proof.
  intros (H1 & H2 & H3). split_and!; try done. cbn.
  pose proof (size_filter_le (fun e => b <= snd e) (observed w)). lia.
Qed.

Lemma Accept_bounds now ts n w : window_ok w ->
  let w' := snd (Accept now ts n w) in
  maxEntries w' = maxEntries w /\ maxAge w' = maxAge w /\ window_ok w' /\
  (size (observed w') <= S (size (observed w)))%nat.
Proof.
  intros Hw. unfold Accept. destruct (_ || _); [naive_solver|]. destruct (_ || _); [naive_solver|].
  set (w0 := expire (now - Milliseconds (maxAge w)) w).
  pose proof (expire_ok (now - Milliseconds (maxAge w)) w Hw) as Hw0. fold w0 in Hw0.
  pose proof (prune_size w0 Hw0) as Hp. cbn [maxEntries w0 expire] in Hp.
  pose proof (size_filter_le (fun e => now - Milliseconds (maxAge w) <= snd e) (observed w)) as Hf.
  assert (Hs : (size (observed (pruneOverflowLocked w0)) <= size (observed w0))%nat).
  { unfold pruneOverflowLocked. destruct (_ || _); [done|]. cbn. apply map_subseteq_size, map_subseteq_spec.
    intros k v. rewrite lookup_foldl_delete. by case_decide. }
  assert (Hk : maxEntries (pruneOverflowLocked w0) = maxEntries w /\ maxAge (pruneOverflowLocked w0) = maxAge w).
  { unfold pruneOverflowLocked. by destruct (_ || _). }
  cbn [observed w0 expire] in Hs. destruct Hw as (H1 & H2 & H3). destruct Hk as [K1 K2].
  destruct (observed (pruneOverflowLocked w0) !! n) eqn:En; cbn [snd]; unfold window_ok; cbn; rewrite ?K1, ?K2;
    rewrite ?map_size_insert_None by done; split_and!; try done; lia.
Qed.

(** ** Replays *)
Definition remembered (t ts : Z) (n : string) (w : ReplayWindow) : Prop :=
  observed w !! n = Some ts \/ ts < t - Milliseconds (maxAge w).

Lemma no_prune w : Z.of_nat (size (observed w)) < maxEntries w -> pruneOverflowLocked w = w.
Proof.
  intros H. unfold pruneOverflowLocked. rewrite (proj2 (Z.ltb_lt _ _) H). by rewrite orb_true_r.
Qed.

Lemma remembered_step now ts' n' t ts n w : t <= now -> Z.of_nat (size (observed w)) < maxEntries w ->
  remembered t ts n w -> remembered now ts n (snd (Accept now ts' n' w)).
Proof.
  intros Ht Hs Hr. assert (Hr' : remembered now ts n w) by (destruct Hr; [by left|right; lia]).
  unfold Accept. destruct (_ || _); [done|]. destruct (_ || _); [done|].
  rewrite no_prune by (cbn; pose proof (size_filter_le (fun e => now - Milliseconds (maxAge w) <= snd e) (observed w)); lia).
  assert (Hx : remembered now ts n (expire (now - Milliseconds (maxAge w)) w)).
  { destruct Hr' as [H|H]; [|by right]. destruct (Z_lt_ge_dec ts (now - Milliseconds (maxAge w))); [by right|].
    left. apply map_lookup_filter_Some. split; [done|]. cbn. lia. }
  destruct (observed _ !! n') eqn:En; [done|]. destruct Hx as [H|H]; [left|by right]. cbn.
  rewrite lookup_insert_ne; [done|]. intros ->. congruence.
Qed.

Lemma Accept_inserts now ts n w w' : Accept now ts n w = (true, w') ->
  observed w' !! n = Some ts /\ now - Milliseconds (maxAge w) <= ts <= now + Milliseconds (maxAge w).
Proof.
  unfold Accept. destruct (_ || _); [done|]. destruct (_ || _) eqn:E; [done|].
  destruct (observed _ !! n); [done|]. intros [= <-]. cbn. rewrite lookup_insert_eq.
  apply orb_false_iff in E as [?%Z.ltb_ge ?%Z.ltb_ge]. split; [done|lia].
Qed.

Lemma clock_head c calls now : clock_from (c_now c) calls ->
  (forall d, last (c :: calls) = Some d -> c_now d <= now) -> c_now c <= now.
Proof.
  revert c. induction calls as [|d calls IH]; intros c Hc Hl; [by apply Hl|].
  destruct Hc as [H1 H2]. apply (Z.le_trans _ (c_now d)); [done|]. apply IH; [done|].
  intros e He. apply Hl. by rewrite last_cons, He.
Qed.

Lemma remembered_run calls : forall t ts n w, window_ok w -> clock_from t calls ->
  Z.of_nat (size (observed w) + length calls) <= maxEntries w ->
  remembered t ts n w -> forall now, (forall c, last calls = Some c -> c_now c <= now) -> t <= now ->
  remembered now ts n (accepts w calls) /\ maxEntries (accepts w calls) = maxEntries w /\
  (size (observed (accepts w calls)) <= size (observed w) + length calls)%nat.
Proof.
  induction calls as [|c calls IH]; intros t ts n w Hw Hc Hs Hr now Hl Ht; cbn [accepts].
  - split_and!; [|done|cbn; lia]. destruct Hr; [by left|right; lia].
  - cbn in Hc. destruct Hc as [Hc1 Hc2]. cbn [length] in Hs.
    destruct (Accept_bounds (c_now c) (c_ts c) (c_nonce c) w Hw) as (B1 & B2 & B3 & B4).
    destruct (IH (c_now c) ts n (snd (Accept (c_now c) (c_ts c) (c_nonce c) w)) B3 Hc2) with (now := now) as (R1 & R2 & R3).
    + rewrite B1. lia.
    + apply (remembered_step _ _ _ t); [done|lia|done].
    + intros d Hd. apply Hl. rewrite last_cons, Hd. done.
    + by apply (clock_head c calls).
    + split_and!; [done|congruence|cbn [length]; lia].
Qed.

(** A packet is not accepted twice: once [Accept] has taken a timestamp and nonce,
    every later call with the same two is refused, whatever came in between, provided
    that the clock does not go back and that fewer packets came in between than the
    window has room for. *)
Theorem replays_are_dropped w now ts n w1 calls now' : window_ok w ->
  Accept now ts n w = (true, w1) ->
  clock_from now (calls ++ [mkCall now' ts n]) ->
  Z.of_nat (size (observed w1) + length calls) < maxEntries w1 ->
  fst (Accept now' ts n (accepts w1 calls)) = false.
Proof.
  intros Hw Ha Hc Hs. destruct (Accept_inserts _ _ _ _ _ Ha) as [Hin Hts].
  destruct (Accept_bounds now ts n w Hw) as (B1 & B2 & B3 & B4). rewrite Ha in B1, B2, B3. cbn [snd] in *.
  assert (Hc1 : clock_from now calls /\ (forall c, last calls = Some c -> c_now c <= now') /\ now <= now').
  { clear -Hc. revert now Hc. induction calls as [|c calls IH]; intros now [H Hc]; cbn in *.
    - split_and!; [done|done|done].
    - destruct (IH _ Hc) as (I1 & I2 & I3). split_and!; [done|done| |lia].
      intros d Hd. rewrite last_cons in Hd. destruct (last calls); [by apply I2|injection Hd as <-; done]. }
  destruct Hc1 as (Hc1 & Hc2 & Hc3).
  destruct (remembered_run calls now ts n w1 B3 Hc1 ltac:(lia) (or_introl Hin) now' Hc2 Hc3) as (R1 & R2 & R3).
  unfold Accept. destruct (_ || _); [done|].
  destruct (ts <? now' - Milliseconds (maxAge (accepts w1 calls))) eqn:E1; [done|]. apply Z.ltb_ge in E1.
  destruct (_ <? ts); [done|]. cbn [orb].
  set (b := now' - Milliseconds (maxAge (accepts w1 calls))) in *.
  rewrite no_prune by (cbn; pose proof (size_filter_le (fun e => b <= snd e) (observed (accepts w1 calls))); lia).
  destruct R1 as [R1|R1]; [|unfold b in E1; lia].
  assert (E : observed (expire b (accepts w1 calls)) !! n = Some ts) by (apply map_lookup_filter_Some; done).
  by rewrite E.
Qed.

Lemma replays_are_dropped_witness :
  fst (Accept 1500 990 "n1" (accepts (snd (Accept 1000 990 "n1" (NewReplayWindow 0)))
    [mkCall 1200 1190 "n2"; mkCall 1300 1290 "n3"])) = false.
Proof.
  apply (replays_are_dropped (NewReplayWindow 0) 1000 990 "n1" _ [mkCall 1200 1190 "n2"; mkCall 1300 1290 "n3"] 1500).
  - apply newReplayWindow_ok.
  - vm_compute. reflexivity.
  - cbn. lia.
  - vm_compute. reflexivity.
Defined.

(** A full window forgets the oldest packet before it looks the packet up, so that one
    packet can be replayed although it is well inside the thirty seconds. *)
Definition flood (n : nat) : list replay_call :=
  (fun i => mkCall 1000 (990 + Z.of_nat i) (String (ascii_of_nat (i mod 256)) (String (ascii_of_nat (1 + i / 256)) EmptyString))) <$> seq 0 n.

Lemma full_window_accepts_replay :
  fst (Accept 1000 990 (c_nonce (default (mkCall 0 0 "") (head (flood 1)))) (accepts (NewReplayWindow 0) (flood 512))) = true.
Proof. vm_compute. reflexivity. Qed.
