(* ===== verification/Pacing.v ===== *)
(** Delays of a peer-to-peer session: the timers of the punch plan and the jitter of
    the pacer.

    Sources: [lib/p2p/punch_plan.go] (the plan and its timers), [lib/p2p/pacing.go].

    A duration is an [int64] of nanoseconds.  The hash, SHA-256, is a parameter: a
    function from bytes to bytes. *)

From Stdlib Require Import String.
From S2P Require Import Prelude GoString GoEncoding.
Local Open Scope string_scope.
Local Open Scope list_scope.
Local Open Scope Z_scope.

Definition Millisecond : Z := 1000000.
Definition Second : Z := 1000 * Millisecond.

Record PunchPlan := mkPlan {
  EnablePrediction : bool; UseTargetSpray : bool; UseBirthdayAttack : bool; AllowBirthdayFallback : bool;
  PredictionInterval : Z; PredictionIntervals : list Z;
  HandshakeTimeout_ : Z; NominationDelay : Z; NominationRetryInterval : Z;
  SpraySpan : Z; SprayRounds : Z; SprayBurst : Z;
  SprayPerPacketSleep : Z; SprayBurstGap : Z; SprayPhaseGap : Z;
  BirthdayListenPorts : Z; BirthdayTargetsPerPort : Z;
}.

Definition DefaultPredictionInterval : Z := 1.

Definition predictionIntervals (p : PunchPlan) : list Z :=
  match PredictionIntervals p with
  | [] => if 0 <? PredictionInterval p then [PredictionInterval p] else [DefaultPredictionInterval]
  | l => l
  end.

(** A timer is cut to a fraction of the handshake timeout. *)
Definition cut (handshake parts d : Z) : Z :=
  if 0 <? handshake then
    let max := Z.quot handshake parts in
    if (0 <? max) && (max <? d) then max else d
  else d.

Definition plan_nominationDelay (p : PunchPlan) : Z :=
  let delay := NominationDelay p in
  if delay <=? 0 then 0 else cut (HandshakeTimeout_ p) 6 delay.

Definition nominationRetryInterval (p : PunchPlan) : Z :=
  let interval := NominationRetryInterval p in
  let interval := if interval <=? 0 then 300 * Millisecond else interval in
  let interval := cut (HandshakeTimeout_ p) 5 interval in
  if interval <=? 0 then 50 * Millisecond else interval.

Definition renominationTimeout (p : PunchPlan) : Z :=
  let timeout := i64 (nominationRetryInterval p * 3) in
  let timeout := if timeout <? 450 * Millisecond then 450 * Millisecond else timeout in
  cut (HandshakeTimeout_ p) 4 timeout.

Definition renominationCooldown (p : PunchPlan) : Z :=
  let cooldown := i64 (nominationRetryInterval p * 2) in
  let cooldown := if cooldown <? 250 * Millisecond then 250 * Millisecond else cooldown in
  cut (HandshakeTimeout_ p) 5 cooldown.

(** ** The pacer *)
Definition minPunchBindingGap : Z := 5 * Millisecond.
Definition sprayPacketJitterPercent : Z := 25.
Definition sprayBurstJitterPercent : Z := 20.
Definition sprayPhaseJitterPercent : Z := 20.
Definition periodicJitterPercent : Z := 12.
Definition controlJitterPercent : Z := 20.
Definition nominationJitterPercent : Z := 15.

Definition basePeriodicSprayDelay (attempt : Z) : Z :=
  let attempt := if attempt <? 0 then 0 else attempt in
  let delay := 1500 * Millisecond + Z.min attempt 5 * (500 * Millisecond) in
  let delay := match Z.rem attempt 3 with
               | 1 => delay + 100 * Millisecond
               | 2 => delay - 100 * Millisecond
               | _ => delay
               end in
  let delay := if delay <? 500 * Millisecond then 500 * Millisecond else delay in
  if 4 * Second <? delay then 4 * Second else delay.

Section Pacer.
Variable sum256 : list byte -> list byte.

(** The session's pacer is its seed. *)
Definition newSessionPacer (sessionID token routeID role : string) : list byte :=
  sum256 (list_byte_of_string ("nps-p2p-pacer|" ++ sessionID ++ "|" ++ token ++ "|" ++ routeID ++ "|" ++ role)%string).

Definition offset (seed : list byte) (label : string) (index spread : Z) : Z :=
  if spread <=? 0 then 0
  else
    let buf := sum256 (seed ++ list_byte_of_string label ++ be_put 8 index) in
    let value := be_get (take 8 buf) in
    let window := u64 (spread * 2 + 1) in
    i64 (i64 (value mod window) - spread).

Definition duration (seed : list byte) (label : string) (index base min jitterPercent : Z) : Z :=
  if base <=? 0 then 0
  else
    let base := if (0 <? min) && (base <? min) then min else base in
    if jitterPercent <=? 0 then base
    else
      let spread := Z.quot (i64 (base * jitterPercent)) 100 in
      if spread <=? 0 then base
      else
        let value := i64 (base + offset seed label index spread) in
        if (0 <? min) && (value <? min) then min else value.

Definition sprayPacketGap (seed : list byte) (targetIndex burstIndex base : Z) : Z :=
  duration seed "spray-packet" (i64 (targetIndex * 1024 + burstIndex)) base minPunchBindingGap sprayPacketJitterPercent.
Definition sprayBurstGap (seed : list byte) (targetIndex base : Z) : Z :=
  duration seed "spray-burst" targetIndex base minPunchBindingGap sprayBurstJitterPercent.
Definition sprayPhaseGap (seed : list byte) (round base : Z) : Z :=
  duration seed "spray-phase" round base minPunchBindingGap sprayPhaseJitterPercent.
Definition periodicRetryDelay (seed : list byte) (attempt : Z) : Z :=
  duration seed "spray-periodic" attempt (basePeriodicSprayDelay attempt) (500 * Millisecond) periodicJitterPercent.
Definition controlGap (seed : list byte) (packetType : string) (sq base : Z) : Z :=
  duration seed ("control-" ++ packetType)%string sq base minPunchBindingGap controlJitterPercent.
Definition pacer_nominationDelay (seed : list byte) (base : Z) : Z :=
  duration seed "nomination-delay" 0 base 0 nominationJitterPercent.
Definition nominationRetryDelay (seed : list byte) (epoch attempt base : Z) : Z :=
  duration seed "nomination-retry" (i64 (epoch * 256 + attempt)) base (50 * Millisecond) nominationJitterPercent.

(** ** Bounds *)
Lemma offset_range seed label index spread : 0 <= spread < 2 ^ 60 ->
  - spread <= offset seed label index spread <= spread.
Proof.
  intros Hs. unfold offset. destruct (Z.leb_spec spread 0); [lia|].
  replace (u64 (spread * 2 + 1)) with (spread * 2 + 1) by (symmetry; apply wrap_small; unfold is_uint; lia).
  set (v := be_get _). pose proof (Z.mod_pos_bound v (spread * 2 + 1) ltac:(lia)).
  rewrite (i64_small (v mod _)) by lia. rewrite i64_small by lia. lia.
Qed.

(** The jittered delay stays within the percentage of the base, and above the minimum. *)
Lemma duration_bounds seed label index base min j : 0 < base < 2 ^ 53 -> 0 <= min < 2 ^ 53 -> 0 <= j <= 100 ->
  let b := Z.max base min in
  let d := duration seed label index base min j in
  b - Z.quot (b * j) 100 <= d <= b + Z.quot (b * j) 100 /\ (0 < min -> min <= d).
Proof.
  intros Hb Hm Hj b d. unfold d, duration. destruct (Z.leb_spec base 0); [lia|].
  replace (if (0 <? min) && (base <? min) then min else base) with b.
  2: { unfold b. destruct (Z.ltb_spec 0 min), (Z.ltb_spec base min); cbn; lia. }
  assert (Hbb : 0 < b < 2 ^ 53) by (unfold b; lia). assert (Hmb : min <= b) by (unfold b; lia). clearbody b.
  destruct (Z.leb_spec j 0).
  { replace j with 0 by lia. rewrite Z.mul_0_r. change (Z.quot 0 100) with 0. split; [lia|]. intros _. lia. }
  rewrite (i64_small (b * j)) by nia. set (sp := Z.quot (b * j) 100).
  assert (Hsp : 0 <= sp <= b). { unfold sp. rewrite Z.quot_div_nonneg by nia. split; [apply Z.div_pos; nia|].
    apply Z.div_le_upper_bound; nia. }
  clearbody sp. destruct (Z.leb_spec sp 0); [lia|].
  pose proof (offset_range seed label index sp ltac:(lia)) as Ho. rewrite i64_small by lia.
  destruct (Z.ltb_spec 0 min), (Z.ltb_spec (b + offset seed label index sp) min); cbn; lia.
Qed.
End Pacer.

(** The plan's timers are positive and, with a handshake timeout of at least six
    nanoseconds, shorter than it. *)
Lemma cut_le h k d : 1 < k -> k <= h -> 0 < d -> 0 < cut h k d <= d /\ cut h k d <= Z.quot h k.
Proof.
  intros Hk Hh Hd. unfold cut. rewrite (proj2 (Z.ltb_lt 0 h)) by lia. rewrite Z.quot_div_nonneg by lia.
  assert (0 < h / k) by (apply Z.div_str_pos; lia). rewrite (proj2 (Z.ltb_lt 0 (h / k))) by done. cbn.
  destruct (Z.ltb_spec (h / k) d); lia.
Qed.
