(* ===== verification/SessionPhase.v ===== *)
(** The phase of a peer-to-peer session.

    Source: [lib/p2p/runtime_session.go] ([sessionEventSpecs], [dispatchSessionEvent],
    [transitionPhase], [recordPhaseEvent] and the counters of dropped events).

    The mutex makes a dispatch one step.  The zero phase and the zero event, the empty
    strings of the source, are [PhaseNone] and [EventNone]; a name that the tables do
    not know is [EventOther].  The time stamp of a recorded transition is left out. *)

From S2P Require Import Prelude.
Local Open Scope Z_scope.

Inductive sessionPhase :=
| PhaseNone | PhaseCreated | PhaseReadySent | PhasePunching | PhaseNegotiating
| PhaseConfirmed | PhaseHandover | PhaseFailed.
#[export] Instance sessionPhase_eq_dec : EqDecision sessionPhase.
Proof. solve_decision. Defined.

Inductive sessionEvent :=
| EventNone | SessionCreated | ReadySent | PunchGo | SprayStarted | CandidateHit | NominationQueued
| ProposalAdopted | CandidateNominatedEv | AcceptReceived | ReadyReceived | CandidateConfirmedEv
| HandoverBegin | HandshakeTimeout | EventOther.
#[export] Instance sessionEvent_eq_dec : EqDecision sessionEvent.
Proof. solve_decision. Defined.

Record sessionEventSpec := mkSpec { nextPhase : sessionPhase; samePhase : bool }.

Definition sessionEventSpecs (event : sessionEvent) : option sessionEventSpec :=
  match event with
  | SessionCreated => Some (mkSpec PhaseCreated false)
  | ReadySent => Some (mkSpec PhaseReadySent false)
  | PunchGo => Some (mkSpec PhasePunching false)
  | SprayStarted => Some (mkSpec PhasePunching false)
  | CandidateHit => Some (mkSpec PhaseNegotiating false)
  | NominationQueued => Some (mkSpec PhaseNone true)
  | ProposalAdopted => Some (mkSpec PhaseNegotiating false)
  | CandidateNominatedEv => Some (mkSpec PhaseNegotiating false)
  | AcceptReceived => Some (mkSpec PhaseNone true)
  | ReadyReceived => Some (mkSpec PhaseNone true)
  | CandidateConfirmedEv => Some (mkSpec PhaseConfirmed false)
  | HandoverBegin => Some (mkSpec PhaseHandover false)
  | HandshakeTimeout => Some (mkSpec PhaseFailed false)
  | EventNone | EventOther => None
  end.

(** A phase that the map does not list reads as 0. *)
Definition sessionPhaseOrder (p : sessionPhase) : Z :=
  match p with
  | PhaseCreated => 0
  | PhaseReadySent => 1
  | PhasePunching => 2
  | PhaseNegotiating => 3
  | PhaseConfirmed => 4
  | PhaseHandover => 5
  | PhaseNone | PhaseFailed => 0
  end.

Record sessionPhaseTransition := mkTransition { From : sessionPhase; To : sessionPhase; Event : sessionEvent }.

Record phaseState := mkPhase {
  phase : sessionPhase; lastEvent : sessionEvent; phaseTransitions : list sessionPhaseTransition;
  sessionEventDropped : Z; lastDroppedEvent : sessionEvent;
}.

Definition initial_phase : phaseState := mkPhase PhaseNone EventNone [] 0 EventNone.

Definition recordDroppedSessionEventLocked (event : sessionEvent) (s : phaseState) : phaseState :=
  mkPhase (phase s) (lastEvent s) (phaseTransitions s) (sessionEventDropped s + 1)
    (if decide (event = EventNone) then lastDroppedEvent s else event).

Definition recordPhaseTransitionLocked (from to : sessionPhase) (event : sessionEvent) (s : phaseState) : phaseState :=
  mkPhase to event (phaseTransitions s ++ [mkTransition from to event]) (sessionEventDropped s) (lastDroppedEvent s).

Definition transitionPhase (event : sessionEvent) (next : sessionPhase) (s : phaseState) : bool * phaseState :=
  if decide (next = PhaseNone) then (false, s)
  else
    let current := phase s in
    if decide (current = next) then (false, recordDroppedSessionEventLocked event s)
    else match current with
    | PhaseFailed | PhaseHandover => (false, recordDroppedSessionEventLocked event s)
    | _ =>
      if decide (next = PhaseFailed) then (true, recordPhaseTransitionLocked current next event s)
      else if decide (current = PhaseFailed) then (false, recordDroppedSessionEventLocked event s)
      else if sessionPhaseOrder next <? sessionPhaseOrder current then (false, recordDroppedSessionEventLocked event s)
      else (true, recordPhaseTransitionLocked current next event s)
    end.

Definition recordPhaseEvent (event : sessionEvent) (s : phaseState) : bool * phaseState :=
  if decide (event = EventNone) then (false, s)
  else match phase s with
  | PhaseFailed | PhaseHandover => (false, recordDroppedSessionEventLocked event s)
  | p => (true, recordPhaseTransitionLocked p p event s)
  end.

Definition dispatchSessionEvent (event : sessionEvent) (s : phaseState) : bool * phaseState :=
  if decide (event = EventNone) then (false, s)
  else match sessionEventSpecs event with
  | None => (false, recordDroppedSessionEventLocked event s)
  | Some spec => if samePhase spec then recordPhaseEvent event s else transitionPhase event (nextPhase spec) s
  end.

Definition dispatch_all (events : list sessionEvent) (s : phaseState) : phaseState :=
  foldl (fun s e => snd (dispatchSessionEvent e s)) s events.

(** ** The recorded transitions are a path that climbs *)
Definition terminal (p : sessionPhase) : bool :=
  match p with PhaseFailed | PhaseHandover => true | _ => false end.

(** The phases a session may go to from [p]. *)
Definition climbs (p q : sessionPhase) : Prop :=
  p = q \/ terminal p = false /\ (q = PhaseFailed \/ sessionPhaseOrder p <= sessionPhaseOrder q).

Fixpoint path (from : sessionPhase) (l : list sessionPhaseTransition) (to : sessionPhase) : Prop :=
  match l with
  | [] => from = to
  | t :: l => From t = from /\ terminal from = false /\ (To t = PhaseFailed \/ sessionPhaseOrder from <= sessionPhaseOrder (To t)) /\
              path (To t) l to
  end.

Lemma path_snoc t l : forall from to, path from l to -> From t = to -> terminal to = false ->
  (To t = PhaseFailed \/ sessionPhaseOrder to <= sessionPhaseOrder (To t)) -> path from (l ++ [t]) (To t).
Proof. induction l as [|u l IH]; intros from to; cbn; naive_solver. Qed.

Lemma climbs_trans p q r : climbs p q -> climbs q r -> climbs p r.
Proof.
  intros [->|[T [->|H]]] [<-|[T' H']]; unfold climbs; try naive_solver.
  right. split; [done|]. destruct H' as [->|H']; [by left|right; lia].
Qed.

Lemma path_climbs l : forall from to, path from l to -> climbs from to.
Proof.
  induction l as [|t l IH]; intros from to; cbn; [by left|]. intros (_ & Ht & H & Hp).
  eapply climbs_trans; [right; split; [done|exact H]|by apply IH].
Qed.

(** What one dispatch does. *)
Lemma dispatch_cases e s :
  let s' := snd (dispatchSessionEvent e s) in
  (phase s' = phase s /\ phaseTransitions s' = phaseTransitions s /\ fst (dispatchSessionEvent e s) = false) \/
  (terminal (phase s) = false /\ (phase s' = PhaseFailed \/ sessionPhaseOrder (phase s) <= sessionPhaseOrder (phase s')) /\
   phaseTransitions s' = phaseTransitions s ++ [mkTransition (phase s) (phase s') e] /\ fst (dispatchSessionEvent e s) = true).
Proof.
  destruct s as [p le tr d ld]. destruct e, p; cbn; first [left; by split_and! | right; split_and!; first [done | by left | right; by apply Z.leb_le]].
Qed.

(** A session's phase only advances: from any phase, whatever events are
    dispatched, the phase reached is the same or, unless the session had handed over
    or failed, a later one or failure; the recorded transitions are exactly the path
    taken, each from the phase before it; and every event that is not recorded leaves
    the phase as it is. *)
Theorem phases_only_advance events : forall s,
  climbs (phase s) (phase (dispatch_all events s)) /\
  exists taken, phaseTransitions (dispatch_all events s) = phaseTransitions s ++ taken /\
    path (phase s) taken (phase (dispatch_all events s)).
Proof.
  induction events as [|e events IH]; intros s; cbn [dispatch_all foldl].
  { split; [by left|]. exists []. by rewrite app_nil_r. }
  destruct (IH (snd (dispatchSessionEvent e s))) as [Hc (taken & Ht & Hp)]. fold (dispatch_all events (snd (dispatchSessionEvent e s))).
  destruct (dispatch_cases e s) as [(E1 & E2 & _)|(E1 & E2 & E3 & _)].
  - rewrite E1 in Hc, Hp. rewrite E2 in Ht. split; [done|]. by exists taken.
  - split.
    + eapply climbs_trans; [right; split; [done|exact E2]|exact Hc].
    + exists (mkTransition (phase s) (phase (snd (dispatchSessionEvent e s))) e :: taken).
      rewrite Ht, E3, <- app_assoc. split; [done|]. by cbn.
Qed.
