(* ===== verification/Negotiation.v ===== *)
(** The negotiation between the two ends of a peer-to-peer session: probes, nomination,
    acceptance and confirmation of an address pair.

    Sources: [lib/p2p/runtime_session.go] (the session, dispatch of packets, retry
    loops), [lib/p2p/session_handshake_handlers.go], [lib/p2p/session_negotiation.go],
    [lib/p2p/handshake.go] (read loop, endpoints, the confirmation signal).

    The goroutines of a session share its state under two mutexes, the session's and the
    candidate manager's.  A goroutine is a program [prog] whose calls are the regions
    those mutexes protect, one step each, so that the model has every interleaving at
    that grain.  A loop is a goroutine whose body ends by naming itself again.  What a
    goroutine cannot control is drawn from an oracle: the clock, whether a sleep ends
    before the context does, whether a write succeeds, which packet comes in, the walk
    order of a map.  A packet that was written may be delivered any number of times, in
    any order, from any apparent address and also back to its sender; only packets that
    one of the two ends wrote are delivered, since others do not decode under the
    session's token.  Progress messages to the server and logging are left out. *)

From stdpp Require Import gmap pretty.
From S2P Require Import Prelude GoString Candidates ReplayWindow SessionPhase Pacing.
Local Open Scope string_scope.
Local Open Scope list_scope.
Local Open Scope Z_scope.

(** ** Data *)
Inductive role := Visitor | Provider.
#[export] Instance role_eq_dec : EqDecision role.
Proof. solve_decision. Defined.

Inductive packetType := TProbe | TPunch | TSucc | TEnd | TAccept | TReady.
#[export] Instance packetType_eq_dec : EqDecision packetType.
Proof. solve_decision. Defined.

(** The fields of a packet that the handlers read. *)
Record upacket := mkPacket { p_Type : packetType; p_Epoch : Z; p_Timestamp : Z; p_Nonce : string }.

Definition effectiveNominationEpoch (packet : upacket) : Z :=
  if negb (p_Epoch packet =? 0) then p_Epoch packet
  else match p_Type packet with TEnd | TAccept | TReady => 1 | _ => 0 end.

Record outboundNominationState := mkOutbound { o_key : string; o_epoch : Z; o_startedAt : Z }.
Record inboundProposalState := mkInbound { i_key : string; i_epoch : Z }.

Record runtimeSession := mkSession {
  rs_cm : CandidateManager; rs_ranker : string -> string -> CandidatePriority;
  rs_plan : PunchPlan; rs_pacer : list byte; rs_replay : ReplayWindow;
  rs_candidateRemote : string; rs_confirmedRemote : string;
  rs_confirmed : list (string * string);
  rs_nominate : gmap string nat; rs_accept : gmap string nat; rs_tokens : nat;
  rs_outbound : outboundNominationState; rs_inbound : inboundProposalState;
  rs_nextEpoch : Z; rs_scheduled : bool; rs_phase : phaseState; rs_replayDropped : Z;
}.

(** Field updates. *)
Definition set_cm (s : runtimeSession) (m : CandidateManager) : runtimeSession :=
  mkSession m (rs_ranker s) (rs_plan s) (rs_pacer s) (rs_replay s) (rs_candidateRemote s) (rs_confirmedRemote s)
    (rs_confirmed s) (rs_nominate s) (rs_accept s) (rs_tokens s) (rs_outbound s) (rs_inbound s) (rs_nextEpoch s)
    (rs_scheduled s) (rs_phase s) (rs_replayDropped s).
Definition set_replay (s : runtimeSession) (w : ReplayWindow) (dropped : Z) : runtimeSession :=
  mkSession (rs_cm s) (rs_ranker s) (rs_plan s) (rs_pacer s) w (rs_candidateRemote s) (rs_confirmedRemote s)
    (rs_confirmed s) (rs_nominate s) (rs_accept s) (rs_tokens s) (rs_outbound s) (rs_inbound s) (rs_nextEpoch s)
    (rs_scheduled s) (rs_phase s) dropped.
Definition set_remotes (s : runtimeSession) (cand conf : string) : runtimeSession :=
  mkSession (rs_cm s) (rs_ranker s) (rs_plan s) (rs_pacer s) (rs_replay s) cand conf
    (rs_confirmed s) (rs_nominate s) (rs_accept s) (rs_tokens s) (rs_outbound s) (rs_inbound s) (rs_nextEpoch s)
    (rs_scheduled s) (rs_phase s) (rs_replayDropped s).
Definition set_confirmed (s : runtimeSession) (c : list (string * string)) : runtimeSession :=
  mkSession (rs_cm s) (rs_ranker s) (rs_plan s) (rs_pacer s) (rs_replay s) (rs_candidateRemote s) (rs_confirmedRemote s)
    c (rs_nominate s) (rs_accept s) (rs_tokens s) (rs_outbound s) (rs_inbound s) (rs_nextEpoch s)
    (rs_scheduled s) (rs_phase s) (rs_replayDropped s).
Definition set_loops (s : runtimeSession) (nominate accept : gmap string nat) (tokens : nat) : runtimeSession :=
  mkSession (rs_cm s) (rs_ranker s) (rs_plan s) (rs_pacer s) (rs_replay s) (rs_candidateRemote s) (rs_confirmedRemote s)
    (rs_confirmed s) nominate accept tokens (rs_outbound s) (rs_inbound s) (rs_nextEpoch s)
    (rs_scheduled s) (rs_phase s) (rs_replayDropped s).
Definition set_outbound (s : runtimeSession) (o : outboundNominationState) (next : Z) : runtimeSession :=
  mkSession (rs_cm s) (rs_ranker s) (rs_plan s) (rs_pacer s) (rs_replay s) (rs_candidateRemote s) (rs_confirmedRemote s)
    (rs_confirmed s) (rs_nominate s) (rs_accept s) (rs_tokens s) o (rs_inbound s) next
    (rs_scheduled s) (rs_phase s) (rs_replayDropped s).
Definition set_inbound (s : runtimeSession) (i : inboundProposalState) : runtimeSession :=
  mkSession (rs_cm s) (rs_ranker s) (rs_plan s) (rs_pacer s) (rs_replay s) (rs_candidateRemote s) (rs_confirmedRemote s)
    (rs_confirmed s) (rs_nominate s) (rs_accept s) (rs_tokens s) (rs_outbound s) i (rs_nextEpoch s)
    (rs_scheduled s) (rs_phase s) (rs_replayDropped s).
Definition set_scheduled (s : runtimeSession) (b : bool) : runtimeSession :=
  mkSession (rs_cm s) (rs_ranker s) (rs_plan s) (rs_pacer s) (rs_replay s) (rs_candidateRemote s) (rs_confirmedRemote s)
    (rs_confirmed s) (rs_nominate s) (rs_accept s) (rs_tokens s) (rs_outbound s) (rs_inbound s) (rs_nextEpoch s)
    b (rs_phase s) (rs_replayDropped s).
Definition set_phase (s : runtimeSession) (p : phaseState) : runtimeSession :=
  mkSession (rs_cm s) (rs_ranker s) (rs_plan s) (rs_pacer s) (rs_replay s) (rs_candidateRemote s) (rs_confirmedRemote s)
    (rs_confirmed s) (rs_nominate s) (rs_accept s) (rs_tokens s) (rs_outbound s) (rs_inbound s) (rs_nextEpoch s)
    (rs_scheduled s) p (rs_replayDropped s).

(** [observed] is the first address the server saw the peer at. *)
Definition newRuntimeSession (observed : string) (ranker : string -> string -> CandidatePriority) (plan : PunchPlan)
    (pacer : list byte) : runtimeSession :=
  mkSession (NewCandidateManager observed) ranker plan pacer (NewReplayWindow (30 * Second)) "" "" [] ∅ ∅ 0
    (mkOutbound "" 0 0) (mkInbound "" 0) 0 false (snd (dispatchSessionEvent SessionCreated initial_phase)) 0.

(** ** Regions under the session's mutex *)
Definition nextOutboundNominationEpoch (s : runtimeSession) : Z * runtimeSession :=
  let next := u32 (rs_nextEpoch s + 1) in
  let next := if next =? 0 then 1 else next in
  (next, set_outbound s (rs_outbound s) next).

Definition setOutboundNomination (now : Z) (l r : string) (epoch : Z) (s : runtimeSession) : runtimeSession :=
  set_outbound s (mkOutbound (candidateKey l r) epoch now) (rs_nextEpoch s).

Definition clearOutboundNomination (l r : string) (epoch : Z) (s : runtimeSession) : runtimeSession :=
  if negb (bool_decide (o_key (rs_outbound s) = candidateKey l r)) || negb (o_epoch (rs_outbound s) =? epoch) then s
  else set_outbound s (mkOutbound "" 0 0) (rs_nextEpoch s).

Definition matchesOutboundNomination (l r : string) (epoch : Z) (s : runtimeSession) : bool :=
  if epoch =? 0 then false
  else bool_decide (o_key (rs_outbound s) = candidateKey l r) && (o_epoch (rs_outbound s) =? epoch).

Definition shouldRenominate (now : Z) (l r : string) (epoch : Z) (s : runtimeSession) : bool :=
  if negb (bool_decide (o_key (rs_outbound s) = candidateKey l r)) || negb (o_epoch (rs_outbound s) =? epoch) then false
  else if o_startedAt (rs_outbound s) =? 0 then false
  else renominationTimeout (rs_plan s) <=? now - o_startedAt (rs_outbound s).

(** The part of [adoptInboundProposal] under the session's mutex. *)
Definition takeProposal (l r : string) (epoch : Z) (s : runtimeSession) : bool * runtimeSession :=
  let current := rs_inbound s in
  if epoch <? i_epoch current then (false, s)
  else if (i_epoch current =? epoch) && negb (bool_decide (i_key current = "")) &&
          negb (bool_decide (i_key current = candidateKey l r)) then (false, s)
  else (true, set_inbound s (mkInbound (candidateKey l r) epoch)).

Definition matchesInboundProposal (l r : string) (epoch : Z) (s : runtimeSession) : bool :=
  if epoch =? 0 then false
  else bool_decide (i_key (rs_inbound s) = candidateKey l r) && (i_epoch (rs_inbound s) =? epoch).

Definition updateCandidateRemote (remote : string) (s : runtimeSession) : runtimeSession :=
  if negb (bool_decide (rs_confirmedRemote s = "")) && negb (bool_decide (rs_confirmedRemote s = remote)) then s
  else set_remotes s remote (rs_confirmedRemote s).

Definition updateConfirmedRemote (remote : string) (s : runtimeSession) : runtimeSession :=
  if negb (bool_decide (rs_confirmedRemote s = "")) && negb (bool_decide (rs_confirmedRemote s = remote)) then s
  else set_remotes s remote remote.

Definition acceptReplay (now : Z) (packet : upacket) (s : runtimeSession) : bool * runtimeSession :=
  let '(ok, w) := Accept now (p_Timestamp packet) (p_Nonce packet) (rs_replay s) in
  (ok, set_replay s w (if ok then rs_replayDropped s else rs_replayDropped s + 1)).

(** The two sets of retry loops.  The token identifies the loop that registered. *)
Inductive loop_set := NominateLoops | AcceptLoops.

Definition nominationLoopKey (candidateID : string) (epoch : Z) : string :=
  candidateID +:+ "|" +:+ pretty (Z.to_N epoch).

Definition get_loops (which : loop_set) (s : runtimeSession) : gmap string nat :=
  match which with NominateLoops => rs_nominate s | AcceptLoops => rs_accept s end.
Definition put_loops (which : loop_set) (m : gmap string nat) (tokens : nat) (s : runtimeSession) : runtimeSession :=
  match which with
  | NominateLoops => set_loops s m (rs_accept s) tokens
  | AcceptLoops => set_loops s (rs_nominate s) m tokens
  end.

Definition beginRetryLoop (which : loop_set) (key : string) (s : runtimeSession) : option nat * runtimeSession :=
  match get_loops which s !! key with
  | Some _ => (None, s)
  | None => (Some (rs_tokens s), put_loops which {[key := rs_tokens s]} (S (rs_tokens s)) s)
  end.

Definition finishRetryLoop (which : loop_set) (key : string) (token : nat) (s : runtimeSession) : runtimeSession :=
  if decide (get_loops which s !! key = Some token)
  then put_loops which (delete key (get_loops which s)) (rs_tokens s) s else s.

Definition cancelRetryLoopSet (which : loop_set) (s : runtimeSession) : runtimeSession := put_loops which ∅ (rs_tokens s) s.

(** The channel has room for one pair; a second is dropped. *)
Definition signal (l r : string) (s : runtimeSession) : runtimeSession :=
  match rs_confirmed s with [] => set_confirmed s [(l, r)] | _ => s end.

(** ** Programs *)
Inductive recv_result := RStop | RAgain | RPacket (remote : string) (packet : upacket).

Inductive call : Set -> Type :=
| KObserve (l r : string) : call unit
| KMarkSucceeded (l r : string) : call unit
| KTryNominateBest : call (option CandidatePair * bool)
| KAdopt (l r : string) : call (CandidatePair * bool)
| KConfirm (l r : string) : call (option CandidatePair)
| KRelease (l r : string) : call unit
| KBackoff (l r : string) : call unit
| KHasConfirmed : call bool
| KHasNominated : call bool
| KHasConfirmedOrNominated : call bool
| KPrune : call unit
| KCleanup : call unit
| KNextEpoch : call Z
| KSetOutbound (l r : string) (epoch : Z) : call unit
| KClearOutbound (l r : string) (epoch : Z) : call unit
| KMatchesOutbound (l r : string) (epoch : Z) : call bool
| KShouldRenominate (l r : string) (epoch : Z) : call bool
| KTakeProposal (l r : string) (epoch : Z) : call bool
| KMatchesInbound (l r : string) (epoch : Z) : call bool
| KEvent (e : sessionEvent) : call unit
| KCandidateRemote (r : string) : call unit
| KConfirmedRemote (r : string) : call unit
| KNominationDelay : call Z
| KTestScheduled : call bool
| KClearScheduled : call unit
| KBegin (which : loop_set) (key : string) : call (option nat)
| KFinish (which : loop_set) (key : string) (token : nat) : call unit
| KCancel (which : loop_set) : call unit
| KSignal (l r : string) : call unit
| KUsable : call bool
| KSocket (l r : string) : call bool
| KSend (l r : string) (t : packetType) (epoch : Z) : call bool
| KSleep : call bool
| KRecv (l : string) : call recv_result
| KReplay (packet : upacket) : call bool
| KGo (g : goroutine) : call unit
with goroutine : Type :=
| GRead (l : string)
| GNominate (l r : string) (epoch : Z) (token : nat)
| GAccept (l r : string) (epoch : Z) (token : nat)
| GScheduled
| GRetry
| GMaintain
| GSpray (targets : list (string * string)).

Inductive prog (A : Type) : Type :=
| Ret (a : A)
| Call {B : Set} (c : call B) (k : B -> prog A).
Arguments Ret {A} a.
Arguments Call {A B} c k.

Fixpoint pbind {A B} (p : prog A) (f : A -> prog B) : prog B :=
  match p with
  | Ret a => f a
  | Call c k => Call c (fun b => pbind (k b) f)
  end.

Definition do_ {B : Set} (c : call B) : prog B := Call c (fun b => Ret b).

Declare Scope prog_scope.
Delimit Scope prog_scope with prog.
Notation "x <- p ;; q" := (pbind p (fun x => q)) (at level 100, p at next level, right associativity) : prog_scope.
Notation "p ;;; q" := (pbind p (fun _ => q)) (at level 100, right associativity) : prog_scope.
Local Open Scope prog_scope.

(** *** Bursts *)
Definition successBurstCount : nat := 2.
Definition readyBurstCount : nat := 4.

(** The gaps between the packets of a burst are positive constants. *)
Fixpoint sendControlBurst (l r : string) (t : packetType) (count : nat) (epoch : Z) : prog unit :=
  match count with
  | O => Ret tt
  | S n =>
    do_ (KSend l r t epoch) ;;;
    match n with
    | O => Ret tt
    | _ => ok <- do_ KSleep ;; if ok : bool then sendControlBurst l r t n epoch else Ret tt
    end
  end.

Definition send_pair (l r : string) (t1 t2 : packetType) (epoch : Z) : prog bool :=
  ok <- do_ (KSend l r t1 epoch) ;;
  if negb ok then Ret false
  else
    slept <- do_ KSleep ;;
    if negb slept then Ret false else do_ (KSend l r t2 epoch).

Definition sendNominationBurst (l r : string) (epoch : Z) : prog bool := send_pair l r TPunch TEnd epoch.
Definition sendAcceptBurst (l r : string) (epoch : Z) : prog bool := send_pair l r TSucc TAccept epoch.
Definition sendSuccessBurst (l r : string) : prog unit := sendControlBurst l r TSucc successBurstCount 0.

(** *** Nomination *)
Definition startNominationLoopWithEpoch (l r : string) (epoch : Z) : prog unit :=
  started <- do_ (KBegin NominateLoops (nominationLoopKey (candidateKey l r) epoch)) ;;
  match started with
  | None => Ret tt
  | Some token => do_ (KGo (GNominate l r epoch token))
  end.

Definition startAcceptLoop (l r : string) (epoch : Z) : prog unit :=
  started <- do_ (KBegin AcceptLoops (nominationLoopKey (candidateKey l r) epoch)) ;;
  match started with
  | None => Ret tt
  | Some token => do_ (KGo (GAccept l r epoch token))
  end.

Definition nominateBestCandidate (me : role) : prog unit :=
  if decide (me = Provider) then Ret tt
  else
    res <- do_ KTryNominateBest ;;
    match res with
    | (Some p, true) =>
      let l := LocalAddr p in
      let r := RemoteAddr p in
      found <- do_ (KSocket l r) ;;
      if negb found then do_ (KRelease l r)
      else
        epoch <- do_ KNextEpoch ;;
        do_ (KSetOutbound l r epoch) ;;;
        do_ (KEvent CandidateNominatedEv) ;;;
        sent <- sendNominationBurst l r epoch ;;
        if negb sent then
          do_ (KClearOutbound l r epoch) ;;;
          do_ (KRelease l r)
        else
          do_ (KCandidateRemote r) ;;;
          startNominationLoopWithEpoch l r epoch
    | _ => Ret tt
    end.

Definition scheduleBestNomination (me : role) : prog unit :=
  if decide (me = Provider) then Ret tt
  else
    busy <- do_ KHasConfirmedOrNominated ;;
    if busy : bool then Ret tt
    else
      do_ (KEvent NominationQueued) ;;;
      delay <- do_ KNominationDelay ;;
      if delay <=? 0 then nominateBestCandidate me
      else
        scheduled <- do_ KTestScheduled ;;
        if scheduled : bool then Ret tt else do_ (KGo GScheduled).

Definition tryRenominate (me : role) (l r : string) (epoch : Z) : prog unit :=
  mine <- do_ (KMatchesOutbound l r epoch) ;;
  if negb mine then Ret tt
  else
    do_ (KBackoff l r) ;;;
    do_ (KClearOutbound l r epoch) ;;;
    nominateBestCandidate me ;;;
    nominated <- do_ KHasNominated ;;
    if negb nominated then do_ (KGo GRetry) else Ret tt.

Definition adoptInboundProposal (l r : string) (epoch : Z) : prog (option CandidatePair * bool) :=
  if epoch =? 0 then Ret (None, false)
  else
    taken <- do_ (KTakeProposal l r epoch) ;;
    if negb taken then Ret (None, false)
    else
      res <- do_ (KAdopt l r) ;;
      Ret (Some (fst res), snd res).

(** *** Packets *)
Definition signalConfirmed (l r : string) : prog unit :=
  usable <- do_ KUsable ;;
  if negb usable then Ret tt
  else
    do_ (KEvent CandidateConfirmedEv) ;;;
    do_ (KCancel NominateLoops) ;;;
    do_ (KCancel AcceptLoops) ;;;
    do_ (KSignal l r).

Definition handleProbePacket (l r : string) : prog unit :=
  do_ (KObserve l r) ;;;
  do_ (KCandidateRemote r) ;;;
  sendSuccessBurst l r.

Definition handleSuccessPacket (me : role) (l r : string) : prog unit :=
  do_ (KObserve l r) ;;;
  do_ (KEvent CandidateHit) ;;;
  do_ (KMarkSucceeded l r) ;;;
  do_ (KCandidateRemote r) ;;;
  if decide (me = Visitor) then scheduleBestNomination me else sendSuccessBurst l r.

Definition handleProposalPacket (me : role) (l r : string) (epoch : Z) : prog unit :=
  do_ (KObserve l r) ;;;
  if bool_decide (me <> Provider) || (epoch =? 0) then Ret tt
  else
    res <- adoptInboundProposal l r epoch ;;
    if snd res || match fst res with Some p => Nominated p | None => false end then
      do_ (KEvent ProposalAdopted) ;;;
      sendAcceptBurst l r epoch ;;;
      startAcceptLoop l r epoch
    else Ret tt.

Definition handleAcceptPacket (me : role) (l r : string) (epoch : Z) : prog unit :=
  do_ (KObserve l r) ;;;
  if decide (me <> Visitor) then Ret tt
  else
    mine <- do_ (KMatchesOutbound l r epoch) ;;
    if negb mine then Ret tt
    else
      do_ (KEvent AcceptReceived) ;;;
      confirmed <- do_ (KConfirm l r) ;;
      match confirmed with
      | None => Ret tt
      | Some _ =>
        do_ (KConfirmedRemote r) ;;;
        do_ (KClearOutbound l r epoch) ;;;
        sendControlBurst l r TReady readyBurstCount epoch ;;;
        signalConfirmed l r
      end.

Definition handleReadyPacket (me : role) (l r : string) (epoch : Z) : prog unit :=
  do_ (KObserve l r) ;;;
  if decide (me <> Provider) then Ret tt
  else
    mine <- do_ (KMatchesInbound l r epoch) ;;
    if negb mine then Ret tt
    else
      do_ (KEvent ReadyReceived) ;;;
      confirmed <- do_ (KConfirm l r) ;;
      match confirmed with
      | None => Ret tt
      | Some _ =>
        do_ (KConfirmedRemote r) ;;;
        signalConfirmed l r
      end.

Definition dispatchValidatedPacket (me : role) (l r : string) (packet : upacket) : prog unit :=
  match p_Type packet with
  | TProbe | TPunch => handleProbePacket l r
  | TSucc => handleSuccessPacket me l r
  | TEnd => handleProposalPacket me l r (effectiveNominationEpoch packet)
  | TAccept => handleAcceptPacket me l r (effectiveNominationEpoch packet)
  | TReady => handleReadyPacket me l r (effectiveNominationEpoch packet)
  end.

(** *** Goroutines: one round of the body, and whether there is another *)
Definition finish (which : loop_set) (l r : string) (epoch : Z) (token : nat) : prog (option goroutine) :=
  do_ (KFinish which (nominationLoopKey (candidateKey l r) epoch) token) ;;; Ret None.

Definition nominationLoop (me : role) (l r : string) (epoch : Z) (token : nat) : prog (option goroutine) :=
  let stop := finish NominateLoops l r epoch token in
  slept <- do_ KSleep ;;
  if negb slept then stop
  else
    confirmed <- do_ KHasConfirmed ;;
    if confirmed : bool then stop
    else
      mine <- do_ (KMatchesOutbound l r epoch) ;;
      if negb mine then stop
      else
        late <- do_ (KShouldRenominate l r epoch) ;;
        if late : bool then tryRenominate me l r epoch ;;; stop
        else
          sent <- sendNominationBurst l r epoch ;;
          if negb sent then stop else Ret (Some (GNominate l r epoch token)).

Definition acceptLoop (l r : string) (epoch : Z) (token : nat) : prog (option goroutine) :=
  let stop := finish AcceptLoops l r epoch token in
  slept <- do_ KSleep ;;
  if negb slept then stop
  else
    confirmed <- do_ KHasConfirmed ;;
    if confirmed : bool then stop
    else
      mine <- do_ (KMatchesInbound l r epoch) ;;
      if negb mine then stop
      else
        sent <- sendAcceptBurst l r epoch ;;
        if negb sent then stop else Ret (Some (GAccept l r epoch token)).

Definition readLoopOnConn (me : role) (l : string) : prog (option goroutine) :=
  got <- do_ (KRecv l) ;;
  match got with
  | RStop => Ret None
  | RAgain => Ret (Some (GRead l))
  | RPacket r packet =>
    fresh <- do_ (KReplay packet) ;;
    if negb fresh then Ret (Some (GRead l))
    else
      dispatchValidatedPacket me l r packet ;;;
      Ret (Some (GRead l))
  end.

(** The packets of the spray phases, each from a socket to a target. *)
Fixpoint spray (targets : list (string * string)) : prog unit :=
  match targets with
  | [] => Ret tt
  | (l, r) :: rest =>
    do_ (KSend l r TPunch 0) ;;;
    slept <- do_ KSleep ;;
    if negb slept then Ret tt else spray rest
  end.

Definition body (me : role) (g : goroutine) : prog (option goroutine) :=
  match g with
  | GRead l => readLoopOnConn me l
  | GNominate l r epoch token => nominationLoop me l r epoch token
  | GAccept l r epoch token => acceptLoop l r epoch token
  | GScheduled =>
    slept <- do_ KSleep ;;
    (if negb slept then Ret tt else nominateBestCandidate me) ;;;
    do_ KClearScheduled ;;;
    Ret None
  | GRetry =>
    slept <- do_ KSleep ;;
    (if negb slept then Ret tt else nominateBestCandidate me) ;;;
    Ret None
  | GMaintain =>
    slept <- do_ KSleep ;;
    if negb slept then Ret None
    else
      do_ KPrune ;;;
      do_ KCleanup ;;;
      Ret (Some GMaintain)
  | GSpray targets =>
    do_ (KEvent SprayStarted) ;;;
    spray targets ;;;
    Ret None
  end.

(** ** The world: two sessions and the packets between them *)
Inductive event :=
| ESent (who : role) (l r : string) (p : upacket)
| EDelivered (to : role) (l r : string) (from_l from_r : string) (p : upacket)
| ETaken (key : string) (epoch : Z)
| EConfirmed (who : role) (key : string).

Record gstate := mkG { g_visitor : runtimeSession; g_provider : runtimeSession; g_hist : list event }.

Definition get (me : role) (g : gstate) : runtimeSession :=
  match me with Visitor => g_visitor g | Provider => g_provider g end.
Definition put (me : role) (s : runtimeSession) (g : gstate) : gstate :=
  match me with
  | Visitor => mkG s (g_provider g) (g_hist g)
  | Provider => mkG (g_visitor g) s (g_hist g)
  end.
Definition log (e : event) (g : gstate) : gstate := mkG (g_visitor g) (g_provider g) (e :: g_hist g).

(** What the environment decides at a call. *)
Record oracle := mkOracle {
  or_now : Z; or_bool : bool; or_order : list (string * CandidatePair) -> list (string * CandidatePair);
  or_packet : option nat; or_remote : string; or_nonce : string;
}.
Definition fair (o : oracle) : Prop := forall l, Permutation (or_order o l) l.

Definition maintenanceMaxAge (p : PunchPlan) : Z :=
  if (0 <? HandshakeTimeout_ p) && (HandshakeTimeout_ p <? 20 * Second) then
    let a := Z.quot (HandshakeTimeout_ p) 3 in if a <? 2 * Second then 2 * Second else a
  else 5 * Second.

Section World.
Variable sum256 : list byte -> list byte.

Definition nominationDelay (s : runtimeSession) : Z :=
  let base := plan_nominationDelay (rs_plan s) in
  if base <=? 0 then 0 else pacer_nominationDelay sum256 (rs_pacer s) base.

Definition with_cm (me : role) (m : CandidateManager) (g : gstate) : gstate := put me (set_cm (get me g) m) g.

(** One call of a goroutine of [me]. *)
Definition exec (me : role) {B : Set} (c : call B) (o : oracle) (g : gstate) : option (B * gstate) :=
  let s := get me g in
  let now := or_now o in
  match c in call B return option (B * gstate) with
  | KObserve l r => Some (tt, with_cm me (snd (Observe now l r (rs_cm s))) g)
  | KMarkSucceeded l r => Some (tt, with_cm me (snd (MarkSucceededWithPriority now l r (rs_ranker s l r) (rs_cm s))) g)
  | KTryNominateBest =>
    let res := TryNominateBest now (or_order o (map_to_list (candidates (rs_cm s)))) (rs_cm s) in
    Some (fst res, with_cm me (snd res) g)
  | KAdopt l r => let res := AdoptNomination now l r (rs_cm s) in Some (fst res, with_cm me (snd res) g)
  | KConfirm l r =>
    let res := Confirm now l r (rs_cm s) in
    let g' := with_cm me (snd res) g in
    Some (fst res, match fst res with Some _ => log (EConfirmed me (candidateKey l r)) g' | None => g' end)
  | KRelease l r => Some (tt, with_cm me (snd (ReleaseNomination now l r (rs_cm s))) g)
  | KBackoff l r =>
    Some (tt, with_cm me (snd (BackoffNomination now l r (renominationCooldown (rs_plan s)) (rs_cm s))) g)
  | KHasConfirmed => Some (HasConfirmed (rs_cm s), g)
  | KHasNominated => Some (HasNominated (rs_cm s), g)
  | KHasConfirmedOrNominated => Some (HasConfirmedOrNominated (rs_cm s), g)
  | KPrune => Some (tt, with_cm me (snd (PruneStale now (maintenanceMaxAge (rs_plan s)) (rs_cm s))) g)
  | KCleanup => Some (tt, with_cm me (snd (CleanupClosed now (maintenanceMaxAge (rs_plan s)) (rs_cm s))) g)
  | KNextEpoch => let res := nextOutboundNominationEpoch s in Some (fst res, put me (snd res) g)
  | KSetOutbound l r epoch => Some (tt, put me (setOutboundNomination now l r epoch s) g)
  | KClearOutbound l r epoch => Some (tt, put me (clearOutboundNomination l r epoch s) g)
  | KMatchesOutbound l r epoch => Some (matchesOutboundNomination l r epoch s, g)
  | KShouldRenominate l r epoch => Some (shouldRenominate now l r epoch s, g)
  | KTakeProposal l r epoch =>
    let res := takeProposal l r epoch s in
    let g' := put me (snd res) g in
    Some (fst res, if fst res then log (ETaken (candidateKey l r) epoch) g' else g')
  | KMatchesInbound l r epoch => Some (matchesInboundProposal l r epoch s, g)
  | KEvent e => Some (tt, put me (set_phase s (snd (dispatchSessionEvent e (rs_phase s)))) g)
  | KCandidateRemote r => Some (tt, put me (updateCandidateRemote r s) g)
  | KConfirmedRemote r => Some (tt, put me (updateConfirmedRemote r s) g)
  | KNominationDelay => Some (nominationDelay s, g)
  | KTestScheduled => Some (rs_scheduled s, put me (set_scheduled s true) g)
  | KClearScheduled => Some (tt, put me (set_scheduled s false) g)
  | KBegin which key => let res := beginRetryLoop which key s in Some (fst res, put me (snd res) g)
  | KFinish which key token => Some (tt, put me (finishRetryLoop which key token s) g)
  | KCancel which => Some (tt, put me (cancelRetryLoopSet which s) g)
  | KSignal l r => Some (tt, put me (signal l r s) g)
  | KUsable => Some (or_bool o, g)
  | KSocket _ _ => Some (or_bool o, g)
  | KSend l r t epoch => Some (or_bool o, log (ESent me l r (mkPacket t epoch now (or_nonce o))) g)
  | KSleep => Some (or_bool o, g)
  | KRecv l =>
    match or_packet o with
    | None => Some (if or_bool o then RAgain else RStop, g)
    | Some i =>
      match g_hist g !! i with
      | Some (ESent _ fl fr p) => Some (RPacket (or_remote o) p, log (EDelivered me l (or_remote o) fl fr p) g)
      | _ => None
      end
    end
  | KReplay p => let res := acceptReplay now p s in Some (fst res, put me (snd res) g)
  | KGo _ => Some (tt, g)
  end.

Definition spawned {B : Set} (c : call B) : list goroutine := match c with KGo g => [g] | _ => [] end.

Definition thread : Type := role * prog (option goroutine).
Record world := mkWorld { w_g : gstate; w_threads : list thread }.

(** One goroutine makes one call, or goes round its loop. *)
Definition world_step (i : nat) (o : oracle) (w : world) : option world :=
  match w_threads w !! i with
  | None => None
  | Some (me, Ret None) => None
  | Some (me, Ret (Some g)) => Some (mkWorld (w_g w) (<[i := (me, body me g)]> (w_threads w)))
  | Some (me, Call c k) =>
    '(b, g) ← exec me c o (w_g w);
    Some (mkWorld g (<[i := (me, k b)]> (w_threads w) ++ ((fun gr => (me, body me gr)) <$> spawned c)))
  end.

Inductive reachable (w : world) : world -> Prop :=
| reach_refl : reachable w w
| reach_step w1 i o w2 : reachable w w1 -> fair o -> world_step i o w1 = Some w2 -> reachable w w2.

(** Both ends start with their read loops, spray and maintenance. *)
Definition starts (me : role) (l : list goroutine) : list thread := (fun g => (me, body me g)) <$> l.

Definition is_start (g : goroutine) : bool := match g with GRead _ | GMaintain | GSpray _ => true | _ => false end.

Definition initial_world (vobs pobs : string) (vrank prank : string -> string -> CandidatePriority)
    (vplan pplan : PunchPlan) (vseed pseed : list byte) (vgo pgo : list goroutine) : world :=
  mkWorld (mkG (newRuntimeSession vobs vrank vplan vseed) (newRuntimeSession pobs prank pplan pseed) [])
    (starts Visitor vgo ++ starts Provider pgo).

Fixpoint run_script (script : list (nat * oracle)) (w : world) : option world :=
  match script with
  | [] => Some w
  | (i, o) :: rest => w' ← world_step i o w; run_script rest w'
  end.
End World.
