(* ===== verification/Agreement.v ===== *)
(** The two ends of a peer-to-peer session agree on the pair they confirm.

    Source: the protocol of [Negotiation].

    The goroutines are verified one at a time with a small program logic: [wp] says that
    a program makes each call only when its precondition holds of the history, where the
    history only grows and each call's postcondition says what it adds.  An invariant
    ties the history to the state of the two sessions. *)

From stdpp Require Import gmap pretty.
From S2P Require Import Prelude GoString Candidates ReplayWindow SessionPhase Pacing Negotiation.
Local Open Scope string_scope.
Local Open Scope list_scope.
Local Open Scope Z_scope.

(** ** The confirmed key of the candidate manager *)
Lemma confirmedKey_remote m r : confirmedKey (updateCandidateRemoteLocked m r) = confirmedKey m.
Proof. unfold updateCandidateRemoteLocked. by case_decide. Qed.

Lemma confirmedKey_revert m : confirmedKey (revert_previous m) = confirmedKey m.
Proof. unfold revert_previous. by repeat case_match. Qed.

Ltac keep_key := repeat case_match; cbn; rewrite ?confirmedKey_remote; cbn; rewrite ?confirmedKey_revert; done.

Lemma confirmedKey_observe now l r p m : confirmedKey (snd (observe now l r p m)) = confirmedKey m.
Proof. unfold observe. keep_key. Qed.
Lemma confirmedKey_succeed now l r p m : confirmedKey (snd (MarkSucceededWithPriority now l r p m)) = confirmedKey m.
Proof. unfold MarkSucceededWithPriority. keep_key. Qed.
Lemma confirmedKey_best now o m : confirmedKey (snd (TryNominateBest now o m)) = confirmedKey m.
Proof. unfold TryNominateBest. keep_key. Qed.
Lemma confirmedKey_adopt now l r m : confirmedKey (snd (AdoptNomination now l r m)) = confirmedKey m.
Proof. unfold AdoptNomination. keep_key. Qed.
Lemma confirmedKey_release now l r m : confirmedKey (snd (ReleaseNomination now l r m)) = confirmedKey m.
Proof. unfold ReleaseNomination. keep_key. Qed.
Lemma confirmedKey_backoff now l r c m : confirmedKey (snd (BackoffNomination now l r c m)) = confirmedKey m.
Proof. unfold BackoffNomination. keep_key. Qed.
Lemma confirmedKey_prune now a m : confirmedKey (snd (PruneStale now a m)) = confirmedKey m.
Proof. unfold PruneStale. keep_key. Qed.
Lemma confirmedKey_cleanup now a m : confirmedKey (snd (CleanupClosed now a m)) = confirmedKey m.
Proof. unfold CleanupClosed. keep_key. Qed.

Lemma Confirm_key now l r m :
  match Confirm now l r m with
  | (Some _, m') => confirmedKey m = "" /\ confirmedKey m' = candidateKey l r
  | (None, m') => m' = m
  end.
Proof.
  unfold Confirm. destruct (candidates m !! candidateKey l r) as [p|]; [|done].
  destruct (decide (confirmedKey m = candidateKey l r)) as [E|E].
  { rewrite (bool_decide_eq_true_2 _ E). by rewrite orb_true_r. }
  rewrite (bool_decide_eq_false_2 _ E). destruct (Confirmed p); [done|]. cbn. destruct (_ || _); [done|].
  destruct (decide (confirmedKey m = "")) as [E'|E'].
  - by rewrite (bool_decide_eq_true_2 _ E').
  - by rewrite (bool_decide_eq_false_2 _ E').
Qed.

(** ** The logic *)
Definition delivered (to : role) (t : packetType) (l r : string) (epoch : Z) (H : list event) : Prop :=
  exists fl fr p, EDelivered to l r fl fr p ∈ H /\ p_Type p = t /\ effectiveNominationEpoch p = epoch.

Definition go_ok (me : role) (g : goroutine) : Prop := match g with GAccept _ _ _ _ => me = Provider | _ => True end.

Definition pre (me : role) {B : Set} (c : call B) (H : list event) : Prop :=
  match c with
  | KSend l r TAccept e => me = Provider /\ e <> 0 /\ ETaken (candidateKey l r) e ∈ H
  | KSend l r TReady e => me = Visitor /\ e <> 0 /\ EConfirmed Visitor (candidateKey l r) ∈ H /\ delivered Visitor TAccept l r e H
  | KConfirm l r => me = Provider -> exists e, ETaken (candidateKey l r) e ∈ H /\ delivered Provider TReady l r e H
  | KTakeProposal _ _ e => me = Provider /\ e <> 0
  | KGo g => go_ok me g
  | _ => True
  end.

Definition post (me : role) {B : Set} (c : call B) : B -> list event -> Prop :=
  match c in call B return B -> list event -> Prop with
  | KRecv l => fun b H =>
      match b with RPacket r p => exists fl fr, EDelivered me l r fl fr p ∈ H | _ => True end
  | KTakeProposal l r e => fun b H => b = true -> ETaken (candidateKey l r) e ∈ H
  | KMatchesInbound l r e => fun b H => b = true -> e <> 0 /\ (me = Provider -> ETaken (candidateKey l r) e ∈ H)
  | KMatchesOutbound _ _ e => fun b H => b = true -> e <> 0
  | KConfirm l r => fun b H => match b with Some _ => EConfirmed me (candidateKey l r) ∈ H | None => True end
  | _ => fun _ _ => True
  end.

Fixpoint wp (me : role) {A} (p : prog A) (Q : A -> Prop) (H : list event) : Prop :=
  match p with
  | Ret a => Q a
  | Call c k => pre me c H /\ forall b H', H ⊆ H' -> post me c b H' -> wp me (k b) Q H'
  end.

Lemma delivered_mono to t l r e H H' : H ⊆ H' -> delivered to t l r e H -> delivered to t l r e H'.
Proof. intros Hs (fl & fr & p & Hin & ?). exists fl, fr, p. split; [by apply Hs|done]. Qed.

Lemma pre_mono me {B : Set} (c : call B) H H' : H ⊆ H' -> pre me c H -> pre me c H'.
Proof.
  intros Hs. destruct c; try done; cbn.
  - intros Hp E. destruct (Hp E) as (e & H1 & H2). exists e. split; [by apply Hs|by eapply delivered_mono].
  - destruct t; try done.
    + intros (H1 & H2 & H3). split_and!; [done|done|by apply Hs].
    + intros (H1 & H2 & H3 & H4). split_and!; [done|done|by apply Hs|by eapply delivered_mono].
Qed.

Lemma wp_mono me {A} (p : prog A) Q H H' : H ⊆ H' -> wp me p Q H -> wp me p Q H'.
Proof.
  destruct p as [a|B c k]; [done|]. intros Hs [H1 H2]. split; [by eapply pre_mono|].
  intros b H'' Hs' Hp. apply H2; [by etrans|done].
Qed.

Lemma wp_bind me {A B} (p : prog A) (f : A -> prog B) (R : A -> Prop) Q H :
  wp me p R H -> (forall a H', H ⊆ H' -> R a -> wp me (f a) Q H') -> wp me (pbind p f) Q H.
Proof.
  revert H. induction p as [a|C c k IH]; intros H; cbn.
  - intros HR Hf. by apply Hf.
  - intros [H1 H2] Hf. split; [done|]. intros b H' Hs Hp. apply IH; [by apply H2|].
    intros a H'' Hs' HR. apply Hf; [by etrans|done].
Qed.

(** Symbolic execution of a goroutine. *)
Ltac wp_step :=
  match goal with
  | |- wp _ (Ret _) _ _ => cbn [wp]
  | |- wp _ (do_ _) _ _ => unfold do_
  | |- wp _ (Call _ _) _ _ => cbn [wp]; split; [cbn [pre go_ok]|intros ? ? ? ?; cbn [post] in *]
  | |- pre _ _ _ /\ _ => split; [cbn [pre go_ok]|intros ? ? ? ?; cbn [post] in *]
  | |- wp _ (if ?b then _ else _) _ _ => destruct b eqn:?
  | |- wp _ (match ?b with _ => _ end) _ _ => destruct b eqn:?
  end.
Ltac wp_run := repeat (cbn [pbind do_]; wp_step).

(** ** The goroutines make their calls rightly *)
Local Notation "'any'" := (fun _ => True).

Lemma wp_controlBurst me l r t n e H : pre me (KSend l r t e) H -> wp me (sendControlBurst l r t n e) any H.
Proof.
  revert H. induction n as [|n IH]; intros H Hp; [done|]. cbn [sendControlBurst pbind do_ wp]. split; [done|]. intros b H1 Hs1 _.
  destruct n as [|n]; [done|]. cbn [pbind do_ wp]. split; [done|]. intros [] H2 Hs2 _; [|done].
  cbn [pbind]. apply IH. eapply pre_mono, Hp. by etrans.
Qed.

Lemma wp_acceptBurst me l r e H : me = Provider -> e <> 0 -> ETaken (candidateKey l r) e ∈ H ->
  wp me (sendAcceptBurst l r e) any H.
Proof.
  intros Hm He Ht. unfold sendAcceptBurst, send_pair. wp_run; try done.
  split_and!; [done|done|]. by repeat match goal with Hs : _ ⊆ _ |- _ => apply Hs in Ht; clear Hs end.
Qed.

Lemma wp_nominationBurst me l r e H : wp me (sendNominationBurst l r e) any H.
Proof. unfold sendNominationBurst, send_pair. by wp_run. Qed.

Lemma wp_nominateBest me H : wp me (nominateBestCandidate me) any H.
Proof.
  unfold nominateBestCandidate. case_decide; [done|]. cbn [pbind do_]. split; [done|]. intros [[p|] []] H1 _ _; try done.
  cbn [pbind do_ wp]. split; [done|]. intros found H2 _ _. destruct (negb found); [by wp_run|].
  cbn [pbind do_ wp]. split; [done|]. intros e H3 _ _. split; [done|]. intros _ H4 _ _. split; [done|]. intros _ H5 _ _.
  apply wp_bind with (R := any); [apply wp_nominationBurst|]. intros sent H6 _ _.
  unfold startNominationLoopWithEpoch. by wp_run.
Qed.

Lemma wp_schedule me H : wp me (scheduleBestNomination me) any H.
Proof.
  unfold scheduleBestNomination. case_decide; [done|]. cbn [pbind do_]. split; [done|]. intros [] H1 _ _; [done|].
  cbn [pbind do_ wp]. split; [done|]. intros _ H2 _ _. split; [done|]. intros d H3 _ _.
  destruct (d <=? 0); [apply wp_nominateBest|by wp_run].
Qed.

Lemma wp_renominate me l r e H : wp me (tryRenominate me l r e) any H.
Proof.
  unfold tryRenominate. cbn [pbind do_ wp]. split; [done|]. intros mine H1 _ _. destruct (negb mine); [done|].
  cbn [pbind do_ wp]. split; [done|]. intros _ H2 _ _. split; [done|]. intros _ H3 _ _.
  apply wp_bind with (R := any); [apply wp_nominateBest|]. intros _ H4 _ _. by wp_run.
Qed.

Lemma wp_signalConfirmed me l r H : wp me (signalConfirmed l r) any H.
Proof. unfold signalConfirmed. by wp_run. Qed.

Lemma wp_probe me l r H : wp me (handleProbePacket l r) any H.
Proof.
  unfold handleProbePacket, sendSuccessBurst. cbn [pbind do_ wp]. split; [done|]. intros _ H1 _ _. split; [done|].
  intros _ H2 _ _. by apply wp_controlBurst.
Qed.

Lemma wp_success me l r H : wp me (handleSuccessPacket me l r) any H.
Proof.
  unfold handleSuccessPacket. cbn [pbind do_ wp]. do 4 (split; [done|]; intros _ ? _ _).
  case_decide; [apply wp_schedule|by apply wp_controlBurst].
Qed.

Lemma wp_proposal me l r e H : wp me (handleProposalPacket me l r e) any H.
Proof.
  unfold handleProposalPacket. cbn [pbind do_ wp]. split; [done|]. intros _ H1 _ _.
  destruct (decide (me = Provider)) as [->|Hm].
  2: { rewrite bool_decide_eq_true_2 by done. done. }
  rewrite bool_decide_eq_false_2 by auto. cbn [orb]. destruct (Z.eqb_spec e 0) as [->|He]; [done|].
  unfold adoptInboundProposal. rewrite (proj2 (Z.eqb_neq _ _) He). cbn [pbind do_ wp].
  split; [done|]. intros taken H2 _ Ht. destruct taken; [|done]. cbn [negb pbind do_ wp]. specialize (Ht eq_refl).
  split; [done|]. intros res H3 Hs3 _. cbn [pbind fst snd]. destruct (_ || _); [|done]. cbn [pbind do_ wp].
  split; [done|]. intros _ H4 Hs4 _. apply wp_bind with (R := any); [by apply wp_acceptBurst; auto|].
  intros _ H5 _ _. unfold startAcceptLoop. by wp_run.
Qed.

Lemma wp_accept me l r e H : delivered me TAccept l r e H -> wp me (handleAcceptPacket me l r e) any H.
Proof.
  intros Hd. unfold handleAcceptPacket. cbn [pbind do_ wp]. split; [done|]. intros _ H1 Hs1 _.
  case_decide as Hm; [done|]. assert (me = Visitor) as -> by (destruct me; [done|]; by destruct Hm).
  cbn [pbind do_ wp]. split; [done|]. intros mine H2 Hs2 He. destruct mine; [|done]. specialize (He eq_refl).
  cbn [negb pbind do_ wp]. split; [done|]. intros _ H3 Hs3 _. split; [done|]. intros [p|] H4 Hs4 Hc; [|done].
  cbn [pbind do_ wp]. split; [done|]. intros _ H5 Hs5 _. split; [done|]. intros _ H6 Hs6 _.
  apply wp_bind with (R := any); [|intros; apply wp_signalConfirmed]. apply wp_controlBurst. cbn.
  split_and!; [done|done|by apply Hs6, Hs5|]. eapply delivered_mono, Hd. by do 5 (etrans; [eassumption|]).
Qed.

Lemma wp_ready me l r e H : delivered me TReady l r e H -> wp me (handleReadyPacket me l r e) any H.
Proof.
  intros Hd. unfold handleReadyPacket. cbn [pbind do_ wp]. split; [done|]. intros _ H1 Hs1 _.
  case_decide as Hm; [done|]. assert (me = Provider) as -> by (destruct me; [by destruct Hm|done]).
  cbn [pbind do_ wp]. split; [done|]. intros mine H2 Hs2 Ht. destruct mine; [|done]. destruct (Ht eq_refl) as [He Ht'].
  cbn [negb pbind do_ wp]. split; [done|]. intros _ H3 Hs3 _. split.
  { intros _. exists e. split; [by apply Hs3, Ht'|]. eapply delivered_mono, Hd. by do 2 (etrans; [eassumption|]). }
  intros [p|] H4 Hs4 _; [|done]. cbn [pbind do_ wp]. split; [done|]. intros _ H5 _ _. apply wp_signalConfirmed.
Qed.

Lemma wp_dispatch me l r p H : (exists fl fr, EDelivered me l r fl fr p ∈ H) -> wp me (dispatchValidatedPacket me l r p) any H.
Proof.
  intros (fl & fr & Hin). unfold dispatchValidatedPacket.
  destruct (p_Type p) eqn:Et; [apply wp_probe|apply wp_probe|apply wp_success|apply wp_proposal| |].
  - apply wp_accept. by exists fl, fr, p.
  - apply wp_ready. by exists fl, fr, p.
Qed.

Definition goes (me : role) (r : option goroutine) : Prop := match r with Some g => go_ok me g | None => True end.

Lemma wp_spray me targets H : wp me (spray targets) any H.
Proof.
  revert H. induction targets as [|[l r] rest IH]; intros H; [done|]. cbn. split; [done|]. intros b H1 _ _.
  split; [done|]. intros [] H2 _ _; [apply IH|done].
Qed.

Lemma wp_body me g H : go_ok me g -> wp me (body me g) (goes me) H.
Proof.
  intros Hg. destruct g as [l|l r e tok|l r e tok| | | |targets]; cbn [body].
  - unfold readLoopOnConn. cbn [pbind do_ wp]. split; [done|]. intros [| |r p] H1 _ Hr; [done|done|].
    cbn [pbind do_ wp]. split; [done|]. intros fresh H2 Hs2 _. destruct (negb fresh); [done|].
    apply wp_bind with (R := any); [|done]. apply wp_dispatch. destruct Hr as (fl & fr & Hin). exists fl, fr. by apply Hs2.
  - unfold nominationLoop, finish. cbn [pbind do_ wp]. split; [done|]. intros [] H1 _ _; [|by wp_run].
    cbn [negb pbind do_ wp]. split; [done|]. intros [] H2 _ _; [by wp_run|].
    cbn [pbind do_ wp]. split; [done|]. intros [] H3 _ _; [|by wp_run].
    cbn [negb pbind do_ wp]. split; [done|]. intros [] H4 _ _.
    + apply wp_bind with (R := any); [apply wp_renominate|]. intros. by wp_run.
    + apply wp_bind with (R := any); [apply wp_nominationBurst|]. intros. by wp_run.
  - unfold acceptLoop, finish. cbn [pbind do_ wp]. split; [done|]. intros [] H1 _ _; [|by wp_run].
    cbn [negb pbind do_ wp]. split; [done|]. intros [] H2 _ _; [by wp_run|].
    cbn [pbind do_ wp]. split; [done|]. intros [] H3 _ Hm; [|by wp_run]. destruct (Hm eq_refl) as [He Ht].
    cbn [negb]. apply wp_bind with (R := any); [by apply wp_acceptBurst; auto|]. intros. by wp_run.
  - cbn [pbind do_ wp]. split; [done|]. intros slept H1 _ _. apply wp_bind with (R := any); [|by intros; wp_run].
    destruct (negb slept); [done|apply wp_nominateBest].
  - cbn [pbind do_ wp]. split; [done|]. intros slept H1 _ _. apply wp_bind with (R := any); [|done].
    destruct (negb slept); [done|apply wp_nominateBest].
  - by wp_run.
  - cbn [pbind do_ wp]. split; [done|]. intros _ H1 _ _. apply wp_bind with (R := any); [apply wp_spray|done].
Qed.

(** ** The invariant *)
Definition cm_of (who : role) (g : gstate) : CandidateManager := rs_cm (get who g).

Record Inv (g : gstate) : Prop := {
  inv_taken k e : ETaken k e ∈ g_hist g -> k <> "" /\ e <= i_epoch (rs_inbound (g_provider g)) /\
    (e = i_epoch (rs_inbound (g_provider g)) -> k = i_key (rs_inbound (g_provider g)));
  inv_unique k k' e : ETaken k e ∈ g_hist g -> ETaken k' e ∈ g_hist g -> k = k';
  inv_current : i_epoch (rs_inbound (g_provider g)) <> 0 ->
    ETaken (i_key (rs_inbound (g_provider g))) (i_epoch (rs_inbound (g_provider g))) ∈ g_hist g;
  inv_sent who l r p : ESent who l r p ∈ g_hist g -> pre who (KSend l r (p_Type p) (p_Epoch p)) (g_hist g);
  inv_delivered to l r fl fr p : EDelivered to l r fl fr p ∈ g_hist g -> exists who, ESent who fl fr p ∈ g_hist g;
  inv_confirmed who k : EConfirmed who k ∈ g_hist g -> k <> "" /\ confirmedKey (cm_of who g) = k;
  inv_provider : confirmedKey (cm_of Provider g) <> "" -> exists l r e,
    confirmedKey (cm_of Provider g) = candidateKey l r /\ ETaken (candidateKey l r) e ∈ g_hist g /\
    delivered Provider TReady l r e (g_hist g);
}.

Lemma inv_frame g g' : g_hist g' = g_hist g -> (forall who, confirmedKey (cm_of who g') = confirmedKey (cm_of who g)) ->
  rs_inbound (g_provider g') = rs_inbound (g_provider g) -> Inv g -> Inv g'.
Proof.
  intros Hh Hc Hi [I1 I2 I3 I4 I5 I6 I7]. split; rewrite ?Hh, ?Hi; try done.
  - intros who k Hk. rewrite Hc. by apply I6.
  - rewrite Hc. done.
Qed.

Lemma get_put me s g : get me (put me s g) = s.
Proof. by destruct me. Qed.

Lemma inv_put me s g : Inv g -> confirmedKey (rs_cm s) = confirmedKey (cm_of me g) ->
  rs_inbound s = rs_inbound (get me g) -> Inv (put me s g).
Proof.
  intros Hg Hc Hi. apply (inv_frame g); [by destruct me| |by destruct me|done].
  intros who. unfold cm_of. destruct me, who; cbn; done.
Qed.

Lemma inv_with_cm me m g : Inv g -> confirmedKey m = confirmedKey (cm_of me g) -> Inv (with_cm me m g).
Proof. intros Hg Hm. by apply inv_put. Qed.

Lemma sub_log e g : g_hist g ⊆ g_hist (log e g).
Proof. intros x Hx. by right. Qed.

(** Adding to the history what the clauses about it allow. *)
Lemma inv_log_sent g me l r p : Inv g -> pre me (KSend l r (p_Type p) (p_Epoch p)) (g_hist g) -> Inv (log (ESent me l r p) g).
Proof.
  intros [I1 I2 I3 I4 I5 I6 I7] Hp. split; cbn [log put g_hist g_provider g_visitor].
  - intros k e [E|Hk]%elem_of_cons; [done|by apply I1].
  - intros k k' e [E|Hk]%elem_of_cons [E'|Hk']%elem_of_cons; try done. by eapply I2.
  - intros He. right. by apply I3.
  - intros who l' r' p' [E|Hk]%elem_of_cons.
    + injection E as -> -> -> ->. eapply pre_mono, Hp. intros x Hx. by right.
    + eapply pre_mono, I4, Hk. intros x Hx. by right.
  - intros to l' r' fl fr p' [E|Hk]%elem_of_cons; [done|]. destruct (I5 _ _ _ _ _ _ Hk) as [who Hw]. exists who. by right.
  - intros who k [E|Hk]%elem_of_cons; [done|by apply I6].
  - intros Hc. destruct (I7 Hc) as (l' & r' & e & H1 & H2 & H3). exists l', r', e.
    split_and!; [done|by right|]. eapply delivered_mono, H3. intros x Hx. by right.
Qed.

Lemma inv_log_delivered g me l r fl fr p who : Inv g -> ESent who fl fr p ∈ g_hist g -> Inv (log (EDelivered me l r fl fr p) g).
Proof.
  intros [I1 I2 I3 I4 I5 I6 I7] Hp. split; cbn [log put g_hist g_provider g_visitor].
  - intros k e [E|Hk]%elem_of_cons; [done|by apply I1].
  - intros k k' e [E|Hk]%elem_of_cons [E'|Hk']%elem_of_cons; try done. by eapply I2.
  - intros He. right. by apply I3.
  - intros who' l' r' p' [E|Hk]%elem_of_cons; [done|]. eapply pre_mono, I4, Hk. intros x Hx. by right.
  - intros to l' r' fl' fr' p' [E|Hk]%elem_of_cons.
    + injection E as -> -> -> -> -> ->. exists who. by right.
    + destruct (I5 _ _ _ _ _ _ Hk) as [who' Hw]. exists who'. by right.
  - intros who' k [E|Hk]%elem_of_cons; [done|by apply I6].
  - intros Hc. destruct (I7 Hc) as (l' & r' & e & H1 & H2 & H3). exists l', r', e.
    split_and!; [done|by right|]. eapply delivered_mono, H3. intros x Hx. by right.
Qed.

(** The provider takes a proposal: newer than the last, or the last one again. *)
Lemma inv_take g l r e : Inv g -> e <> 0 -> fst (takeProposal l r e (g_provider g)) = true ->
  Inv (log (ETaken (candidateKey l r) e) (put Provider (snd (takeProposal l r e (g_provider g))) g)).
Proof.
  intros [I1 I2 I3 I4 I5 I6 I7] He Ht. unfold takeProposal in *. pose proof (candidateKey_nonempty l r) as Hne.
  destruct (Z.ltb_spec e (i_epoch (rs_inbound (g_provider g)))) as [|Hle]; [done|].
  destruct (_ && _) eqn:Ec; [done|]. clear Ht. cbn [snd put log g_hist].
  assert (Hsame : forall k, ETaken k e ∈ g_hist g -> k = candidateKey l r).
  { intros k Hk. destruct (I1 k e Hk) as (K1 & K2 & K3). assert (E : e = i_epoch (rs_inbound (g_provider g))) by lia.
    specialize (K3 E). rewrite <- E, Z.eqb_refl in Ec. cbn in Ec. rewrite <- K3 in Ec.
    rewrite (bool_decide_eq_false_2 (k = "")) in Ec by done. cbn in Ec. case_bool_decide; done. }
  split; cbn [log put g_hist g_provider g_visitor set_inbound rs_inbound i_epoch i_key].
  - intros k e' [E|Hk]%elem_of_cons; [by injection E as -> ->|]. destruct (I1 k e' Hk) as (K1 & K2 & K3).
    split_and!; [done|lia|]. intros ->. by apply Hsame.
  - intros k k' e' [E|Hk]%elem_of_cons [E'|Hk']%elem_of_cons.
    + by injection E as -> _; injection E' as -> _.
    + injection E as -> ->. symmetry. by apply Hsame.
    + injection E' as -> ->. by apply Hsame.
    + by eapply I2.
  - intros _. by left.
  - intros who l' r' p' [E|Hk]%elem_of_cons; [done|]. eapply pre_mono, I4, Hk. intros x Hx. by right.
  - intros to l' r' fl fr p' [E|Hk]%elem_of_cons; [done|]. destruct (I5 _ _ _ _ _ _ Hk) as [who Hw]. exists who. by right.
  - intros who k [E|Hk]%elem_of_cons; [done|]. destruct who; by apply (I6 _ _ Hk).
  - intros Hc. destruct (I7 Hc) as (l' & r' & e' & H1 & H2 & H3). exists l', r', e'.
    split_and!; [done|by right|]. eapply delivered_mono, H3. intros x Hx. by right.
Qed.

(** One end confirms a pair. *)
Lemma inv_confirm g me l r now : Inv g -> pre me (KConfirm l r) (g_hist g) ->
  let res := Confirm now l r (cm_of me g) in
  let g' := with_cm me (snd res) g in
  Inv (match fst res with Some _ => log (EConfirmed me (candidateKey l r)) g' | None => g' end).
Proof.
  intros Hg Hp res g'. unfold g', res. clear g' res. pose proof (Confirm_key now l r (cm_of me g)) as Hk.
  destruct (Confirm now l r (cm_of me g)) as [[p|] m']; cbn [fst snd] in *.
  2: { subst m'. by apply inv_with_cm. }
  destruct Hk as [Hk1 Hk2]. destruct Hg as [I1 I2 I3 I4 I5 I6 I7].
  assert (Hh : g_hist (with_cm me m' g) = g_hist g) by (by destruct me).
  assert (Hi : rs_inbound (g_provider (with_cm me m' g)) = rs_inbound (g_provider g)) by (by destruct me).
  assert (Hnone : forall k, EConfirmed me k ∈ g_hist g -> False).
  { intros k Hin. destruct (I6 _ _ Hin) as [K1 K2]. congruence. }
  split; cbn [log g_hist g_provider]; rewrite ?Hh, ?Hi.
  - intros k e [E|Hk]%elem_of_cons; [done|by apply I1].
  - intros k k' e [E|Hk]%elem_of_cons [E'|Hk']%elem_of_cons; try done. by eapply I2.
  - intros He. right. by apply I3.
  - intros who' l' r' p' [E|Hk]%elem_of_cons; [done|]. eapply pre_mono, I4, Hk. intros x Hx. by right.
  - intros to l' r' fl fr p' [E|Hk]%elem_of_cons; [done|]. destruct (I5 _ _ _ _ _ _ Hk) as [who Hw]. exists who. by right.
  - intros who k [E|Hk]%elem_of_cons.
    + injection E as -> ->. split; [apply candidateKey_nonempty|]. by destruct me.
    + assert (who <> me) by (intros ->; by eapply Hnone). destruct (I6 _ _ Hk) as [K1 K2]. split; [done|].
      by destruct who, me.
  - destruct me.
    + intros Hc. destruct (I7 Hc) as (l' & r' & e & H1 & H2 & H3). exists l', r', e.
      split_and!; [done|by right|]. eapply delivered_mono, H3. intros x Hx. by right.
    + intros _. destruct (Hp eq_refl) as (e & H1 & H2). exists l, r, e.
      split_and!; [done|by right|]. eapply delivered_mono, H2. intros x Hx. by right.
Qed.

Lemma takeProposal_refused l r e s : fst (takeProposal l r e s) = false -> snd (takeProposal l r e s) = s.
Proof. unfold takeProposal. by repeat case_match. Qed.

Lemma clearOutbound_keeps l r e s : rs_cm (clearOutboundNomination l r e s) = rs_cm s /\
  rs_inbound (clearOutboundNomination l r e s) = rs_inbound s.
Proof. unfold clearOutboundNomination. by case_match. Qed.
Lemma remotes_keep r s : (rs_cm (updateCandidateRemote r s) = rs_cm s /\ rs_inbound (updateCandidateRemote r s) = rs_inbound s) /\
  (rs_cm (updateConfirmedRemote r s) = rs_cm s /\ rs_inbound (updateConfirmedRemote r s) = rs_inbound s).
Proof. unfold updateCandidateRemote, updateConfirmedRemote. by case_match. Qed.
Lemma loops_keep which key tok s :
  (rs_cm (snd (beginRetryLoop which key s)) = rs_cm s /\ rs_inbound (snd (beginRetryLoop which key s)) = rs_inbound s) /\
  (rs_cm (finishRetryLoop which key tok s) = rs_cm s /\ rs_inbound (finishRetryLoop which key tok s) = rs_inbound s) /\
  (rs_cm (cancelRetryLoopSet which s) = rs_cm s /\ rs_inbound (cancelRetryLoopSet which s) = rs_inbound s).
Proof.
  unfold beginRetryLoop, finishRetryLoop, cancelRetryLoopSet, put_loops. destruct which; split_and!; repeat case_match; done.
Qed.
Lemma signal_keeps l r s : rs_cm (signal l r s) = rs_cm s /\ rs_inbound (signal l r s) = rs_inbound s.
Proof. unfold signal. by case_match. Qed.
Lemma replay_keeps now p s : rs_cm (snd (acceptReplay now p s)) = rs_cm s /\ rs_inbound (snd (acceptReplay now p s)) = rs_inbound s.
Proof. unfold acceptReplay. by destruct (Accept _ _ _ _). Qed.

Lemma hist_put me s g : g_hist (put me s g) = g_hist g.
Proof. by destruct me. Qed.

Lemma put_ok me s g (P : Prop) : Inv g -> confirmedKey (rs_cm s) = confirmedKey (cm_of me g) ->
  rs_inbound s = rs_inbound (get me g) -> P -> Inv (put me s g) /\ g_hist g ⊆ g_hist (put me s g) /\ P.
Proof. intros. split_and!; [by apply inv_put|by rewrite hist_put|done]. Qed.

Section Worlds.
Variable sum256 : list byte -> list byte.

(** Every call keeps the invariant and delivers its postcondition. *)
Lemma exec_ok me {B : Set} (c : call B) o g b g' : Inv g -> pre me c (g_hist g) -> exec sum256 me c o g = Some (b, g') ->
  Inv g' /\ g_hist g ⊆ g_hist g' /\ post me c b (g_hist g').
Proof.
  intros Hg Hp He. destruct c; cbn [exec] in He; try (injection He as <- <-);
    try (split; [exact Hg|split; [reflexivity|exact I]]; fail);
    try (apply (put_ok me); [done| |reflexivity|exact I]; cbn;
         first [reflexivity | apply confirmedKey_observe | apply confirmedKey_succeed | apply confirmedKey_best
                | apply confirmedKey_adopt | apply confirmedKey_release | apply confirmedKey_backoff
                | apply confirmedKey_prune | apply confirmedKey_cleanup]; fail).
  - (* KConfirm *)
    split; [|split].
    + by apply (inv_confirm g me l r (or_now o)).
    + destruct (fst _); cbn [log g_hist]; unfold with_cm; rewrite hist_put; [intros x Hx; by right|done].
    + cbn. destruct (fst _); [|done]. by left.
  - apply put_ok; [done|unfold cm_of; by rewrite (proj1 (clearOutbound_keeps _ _ _ _))|apply clearOutbound_keeps|exact I].
  - split_and!; [done|done|]. intros Hm. unfold matchesOutboundNomination in Hm. by destruct (Z.eqb_spec epoch 0).
  - (* KTakeProposal *)
    destruct Hp as [-> He]. cbn [get]. destruct (fst (takeProposal l r epoch (g_provider g))) eqn:Et.
    + split_and!; [by apply inv_take|cbn [log g_hist]; rewrite hist_put; intros x Hx; by right|intros _; cbn; by left].
    + rewrite (takeProposal_refused _ _ _ _ Et). split_and!; [by apply inv_put|done|done].
  - (* KMatchesInbound *)
    split_and!; [done|done|]. intros Hm. unfold matchesInboundProposal in Hm. destruct (Z.eqb_spec epoch 0); [done|]. split; [done|]. intros ->.
    apply andb_true_iff in Hm as [Hk%bool_decide_eq_true Hi%Z.eqb_eq]. cbn [get] in *. rewrite <- Hk, <- Hi. apply inv_current; [done|].
    by rewrite Hi.
  - apply put_ok; [done|unfold cm_of; by rewrite (proj1 (proj1 (remotes_keep _ _)))|apply remotes_keep|exact I].
  - apply put_ok; [done|unfold cm_of; by rewrite (proj1 (proj2 (remotes_keep _ _)))|apply remotes_keep|exact I].
  - apply put_ok; [done|unfold cm_of; by rewrite (proj1 (proj1 (loops_keep _ _ 0%nat _)))|apply (loops_keep _ _ 0%nat)|exact I].
  - apply put_ok; [done|unfold cm_of; by rewrite (proj1 (proj1 (proj2 (loops_keep _ _ _ _))))|apply loops_keep|exact I].
  - apply put_ok; [done|unfold cm_of; by destruct which|by destruct which|exact I].
  - apply put_ok; [done|unfold cm_of; by rewrite (proj1 (signal_keeps _ _ _))|apply signal_keeps|exact I].
  - (* KSend *)
    split_and!; [by apply inv_log_sent|apply sub_log|done].
  - (* KRecv *)
    destruct (or_packet o) as [i|].
    + destruct (g_hist g !! i) as [[who fl fr p| | |]|] eqn:Ei; try done. injection He as <- <-.
      apply list_elem_of_lookup_2 in Ei. split_and!; [by eapply inv_log_delivered|apply sub_log|].
      exists fl, fr. by left.
    + injection He as <- <-. split_and!; [done|done|]. by destruct (or_bool o).
  - apply put_ok; [done|unfold cm_of; by rewrite (proj1 (replay_keeps _ _ _))|apply replay_keeps|exact I].
Qed.

Definition thread_ok (H : list event) (t : thread) : Prop := wp (fst t) (snd t) (goes (fst t)) H.
Definition WInv (w : world) : Prop := Inv (w_g w) /\ Forall (thread_ok (g_hist (w_g w))) (w_threads w).

Lemma thread_ok_mono H H' t : H ⊆ H' -> thread_ok H t -> thread_ok H' t.
Proof. intros Hs. by apply wp_mono. Qed.

Lemma body_ok me g H : go_ok me g -> thread_ok H (me, body me g).
Proof. intros Hg. by apply wp_body. Qed.

Lemma WInv_step i o w w' : WInv w -> world_step sum256 i o w = Some w' -> WInv w'.
Proof.
  intros [Hg Ht] Hs. unfold world_step in Hs. destruct (w_threads w !! i) as [[me p]|] eqn:Ei; [|done].
  pose proof (Forall_lookup_1 _ _ _ _ Ht Ei) as Hi. destruct p as [[g|]|B c k]; [|done|].
  - injection Hs as <-. split; [done|]. cbn. apply Forall_insert; [done|]. by apply body_ok.
  - destruct (exec sum256 me c o (w_g w)) as [[b g]|] eqn:Ee; [|done]. injection Hs as <-. destruct Hi as [Hp Hk].
    destruct (exec_ok me c o (w_g w) b g Hg Hp Ee) as (G1 & G2 & G3). split; [done|]. cbn.
    apply Forall_app_2.
    + apply Forall_insert; [|by apply Hk]. eapply Forall_impl; [exact Ht|]. intros t. by apply thread_ok_mono.
    + apply Forall_fmap, Forall_forall. intros gr Hgr. apply body_ok. destruct c; try by apply not_elem_of_nil in Hgr.
      apply list_elem_of_singleton in Hgr as ->. exact Hp.
Qed.

Lemma WInv_initial vobs pobs vrank prank vplan pplan vseed pseed vgo pgo :
  forallb is_start vgo = true -> forallb is_start pgo = true ->
  WInv (initial_world vobs pobs vrank prank vplan pplan vseed pseed vgo pgo).
Proof.
  intros Hv Hp. split.
  - split; cbn; try (intros; by match goal with H : _ ∈ [] |- _ => apply not_elem_of_nil in H end); done.
  - cbn. apply Forall_app_2; apply Forall_fmap, Forall_forall; intros g Hg; apply body_ok;
      [apply (forallb_forall is_start vgo) with (x := g) in Hv|apply (forallb_forall is_start pgo) with (x := g) in Hp];
      try (by apply list_elem_of_In); by destruct g.
Qed.

Lemma WInv_reachable w w' : WInv w -> reachable sum256 w w' -> WInv w'.
Proof. intros Hw. induction 1 as [|w1 i o w2 _ IH _ Hs]; [done|]. by eapply WInv_step. Qed.

Lemma effective_nonzero p : p_Epoch p <> 0 -> effectiveNominationEpoch p = p_Epoch p.
Proof. intros H. unfold effectiveNominationEpoch. by rewrite (proj2 (Z.eqb_neq _ _) H). Qed.

(** C23. When the provider has confirmed a pair, the visitor has confirmed one too, and
    the two are the ends of one path that has carried packets both ways: an acceptance
    that the provider sent from its confirmed pair reached the visitor on the visitor's
    confirmed pair, and a ready packet that the visitor sent from that pair reached the
    provider on its confirmed pair, both for the same nomination.  This holds for every
    interleaving of the goroutines, whatever packets are lost, duplicated, reordered,
    reflected or rewritten in their source address. *)
Theorem both_ends_confirm_one_path vobs pobs vrank prank vplan pplan vseed pseed vgo pgo w :
  forallb is_start vgo = true -> forallb is_start pgo = true ->
  reachable sum256 (initial_world vobs pobs vrank prank vplan pplan vseed pseed vgo pgo) w ->
  HasConfirmed (cm_of Provider (w_g w)) = true ->
  exists vl vr pl pr al ar accept ready,
    HasConfirmed (cm_of Visitor (w_g w)) = true /\
    confirmedKey (cm_of Visitor (w_g w)) = candidateKey vl vr /\
    confirmedKey (cm_of Provider (w_g w)) = candidateKey pl pr /\
    (p_Type accept = TAccept /\ ESent Provider al ar accept ∈ g_hist (w_g w) /\
     candidateKey al ar = candidateKey pl pr /\ EDelivered Visitor vl vr al ar accept ∈ g_hist (w_g w)) /\
    (p_Type ready = TReady /\ ESent Visitor vl vr ready ∈ g_hist (w_g w) /\
     EDelivered Provider pl pr vl vr ready ∈ g_hist (w_g w)) /\
    p_Epoch accept = p_Epoch ready.
Proof.
  intros Hv Hp Hr Hc.
  destruct (WInv_reachable _ _ (WInv_initial vobs pobs vrank prank vplan pplan vseed pseed vgo pgo Hv Hp) Hr) as [Hg _].
  unfold HasConfirmed in Hc. apply negb_true_iff, bool_decide_eq_false in Hc.
  destruct (inv_provider _ Hg Hc) as (pl & pr & e & E1 & E2 & (vl & vr & ready & D1 & D2 & D3)).
  destruct (inv_delivered _ Hg _ _ _ _ _ _ D1) as [who S1]. pose proof (inv_sent _ Hg _ _ _ _ S1) as P1. rewrite D2 in P1.
  destruct P1 as (-> & N1 & C1 & (al & ar & accept & A1 & A2 & A3)).
  destruct (inv_delivered _ Hg _ _ _ _ _ _ A1) as [who' S2]. pose proof (inv_sent _ Hg _ _ _ _ S2) as P2. rewrite A2 in P2.
  destruct P2 as (-> & N2 & T2). rewrite (effective_nonzero _ N1) in D3. rewrite (effective_nonzero _ N2) in A3.
  destruct (inv_confirmed _ Hg _ _ C1) as [K1 K2].
  exists vl, vr, pl, pr, al, ar, accept, ready. split_and!; try done.
  - unfold HasConfirmed. apply negb_true_iff, bool_decide_eq_false. congruence.
  - apply (inv_unique _ Hg _ _ e); [|done]. congruence.
Qed.

Lemma run_script_reachable script : forall w w', Forall (fun io => fair (snd io)) script ->
  run_script sum256 script w = Some w' -> forall w0, reachable sum256 w0 w -> reachable sum256 w0 w'.
Proof.
  induction script as [|[i o] rest IH]; intros w w' Hf Hr w0 H0; cbn in Hr; [by injection Hr as <-|].
  apply Forall_cons in Hf as [Hf1 Hf2]. destruct (world_step sum256 i o w) as [w1|] eqn:Es; [|done].
  apply (IH w1 w' Hf2 Hr). by eapply reach_step.
Qed.
End Worlds.

(** ** A session from the first packet to both confirmations *)
Definition ex_plan : PunchPlan := mkPlan false false false false 0 [] (20 * Second) 0 0 0 0 0 0 0 0 0 0.
Definition ex_world : world :=
  initial_world "p" "v" (fun _ _ => no_priority) (fun _ _ => no_priority) ex_plan ex_plan [] []
    [GRead "v"; GSpray [("v", "p")]] [GRead "p"].

(** [n] calls of one goroutine, each receiving the newest packet from [remote]. *)
Definition turn (i : nat) (remote : string) (t n : nat) : list (nat * oracle) :=
  (fun k => (i, mkOracle (1000 + Z.of_nat (t + k)) true (fun l => l) (Some 0%nat) remote (pretty (N.of_nat (t + k))))) <$> seq 0 n.

Definition ex_script : list (nat * oracle) :=
  turn 1 "" 0 2 ++ turn 2 "v" 10 8 ++ turn 0 "p" 20 21 ++ turn 2 "v" 50 12 ++ turn 0 "p" 70 9 ++ turn 2 "v" 80 6.
Definition ex_final : world := default ex_world (run_script (fun _ => []) ex_script ex_world).

Lemma ex_confirms : HasConfirmed (cm_of Provider (w_g ex_final)) = true.
Proof. vm_compute. reflexivity. Qed.

Lemma ex_reachable : reachable (fun _ => []) ex_world ex_final.
Proof.
  assert (E : exists w, run_script (fun _ => []) ex_script ex_world = Some w).
  { destruct (run_script (fun _ => []) ex_script ex_world) as [w|] eqn:E; [by exists w|].
    pose proof ex_confirms as H. unfold ex_final in H. rewrite E in H. exfalso. revert H. vm_compute. discriminate. }
  destruct E as [w E]. unfold ex_final. rewrite E. cbn. eapply run_script_reachable; [|exact E|apply reach_refl].
  unfold ex_script. rewrite !Forall_app. split_and!; apply Forall_fmap, Forall_forall; intros k _ l; done.
Qed.

Lemma both_ends_confirm_one_path_witness :
  HasConfirmed (cm_of Provider (w_g ex_final)) = true /\ HasConfirmed (cm_of Visitor (w_g ex_final)) = true.
Proof.
  split; [exact ex_confirms|].
  destruct (both_ends_confirm_one_path (fun _ => []) "p" "v" (fun _ _ => no_priority) (fun _ _ => no_priority) ex_plan ex_plan [] []
    [GRead "v"; GSpray [("v", "p")]] [GRead "p"] ex_final eq_refl eq_refl ex_reachable ex_confirms)
    as (vl & vr & pl & pr & al & ar & accept & ready & H & _).
  exact H.
Defined.
