(* ===== verification/LoginPolicy.v ===== *)
(** Lockout of repeated login failures.

    Source: [web/service/login_policy.go] ([DefaultLoginPolicy]) and the order of its calls
    in [web/api/auth.go].

    The table maps an address or a user name to its number of failures and the time of
    the last.  The table only ever holds records, so the branches for other values are
    left out; each operation holds the record's mutex for its update and is one step.
    Times are nanoseconds since 1970, read from the clock as arguments; [Unix] is the
    second they fall in. *)

From stdpp Require Import gmap.
From S2P Require Import Prelude GoString GoEncoding GoNetip.
Local Open Scope string_scope.
Local Open Scope list_scope.
Local Open Scope Z_scope.

Record LoginPolicySettings := mkSettings {
  BanTime : Z; IPBanTime : Z; UserBanTime : Z; MaxFailTimes : Z; MaxLoginBody : Z; MaxSkew : Z;
}.

Record loginFailureRecord := mkRecord { hasLoginFailTimes : Z; lastLoginTime : Z }.

Record LoginBanRecord := mkBan { b_Key : string; b_FailTimes : Z; b_LastLoginTime : Z; b_IsBanned : bool; b_BanType : string }.

Notation records := (gmap string loginFailureRecord).

Definition Unix (t : Z) : Z := t / 1000000000.

Definition LoginDelayMillis (s : LoginPolicySettings) : Z := i64 (BanTime s * 1000).

(** The check also clears the count of a key whose ban is over. *)
Definition isBanned (s : LoginPolicySettings) (now : Z) (key : string) (ttl : Z) (r : records) : bool * records :=
  if decide (key = "") then (false, r)
  else match r !! key with
  | None => (false, r)
  | Some cur =>
    let duration := Unix now - Unix (lastLoginTime cur) in
    if duration <? BanTime s then (true, r)
    else
      let cur := if ttl <=? duration then mkRecord 0 (lastLoginTime cur) else cur in
      (MaxFailTimes s <=? hasLoginFailTimes cur, <[key := cur]> r)
  end.

Definition IsIPBanned (s : LoginPolicySettings) (now : Z) (ip : string) (r : records) : bool * records :=
  isBanned s now ip (IPBanTime s) r.
Definition IsUserBanned (s : LoginPolicySettings) (now : Z) (username : string) (r : records) : bool * records :=
  isBanned s now username (UserBanTime s) r.

Definition RecordFailure (now : Z) (key : string) (explicit : bool) (r : records) : records :=
  if negb explicit || bool_decide (key = "") then r
  else match r !! key with
  | None => <[key := mkRecord 1 now]> r
  | Some cur => <[key := mkRecord (i64 (hasLoginFailTimes cur + 1)) now]> r
  end.

Definition RemoveBan (key : string) (r : records) : bool * records :=
  if decide (key = "") then (false, r)
  else match r !! key with Some _ => (true, delete key r) | None => (false, r) end.

Definition RemoveAllBans (r : records) : records := ∅.

(** How long a key's failures are remembered. *)
Definition key_ttl (s : LoginPolicySettings) (key : string) : Z :=
  match ParseIP key with Some _ => IPBanTime s | None => UserBanTime s end.

(** [draw] is the number below 100 that decides whether an unforced cleaning runs. *)
Definition Clean (s : LoginPolicySettings) (now draw : Z) (force : bool) (r : records) : records :=
  if negb (draw =? 1) && negb force then r
  else filter (fun kc => Unix now - Unix (lastLoginTime (snd kc)) < key_ttl s (fst kc)) r.

Definition ban_entry (s : LoginPolicySettings) (now : Z) (kc : string * loginFailureRecord) : LoginBanRecord :=
  let '(key, cur) := kc in
  let duration := Unix now - Unix (lastLoginTime cur) in
  mkBan key (hasLoginFailTimes cur) (lastLoginTime cur)
    ((duration <? BanTime s) || ((MaxFailTimes s <=? hasLoginFailTimes cur) && (duration <? key_ttl s key)))
    (match ParseIP key with Some _ => "ip" | None => "username" end).

Definition BanList (s : LoginPolicySettings) (now : Z) (r : records) : list LoginBanRecord := ban_entry s now <$> map_to_list r.

(** ** The list shows what the check does *)
Lemma ban_list_agrees s now key cur r : 0 < MaxFailTimes s -> key <> "" -> r !! key = Some cur ->
  fst (isBanned s now key (key_ttl s key) r) = b_IsBanned (ban_entry s now (key, cur)).
Proof.
  intros Hm Hk Hr. unfold isBanned. rewrite decide_False, Hr by done. cbn.
  destruct (_ <? BanTime s); [done|]. cbn. destruct (Z.leb_spec (key_ttl s key) (Unix now - Unix (lastLoginTime cur))); cbn.
  - rewrite (proj2 (Z.ltb_ge _ _)), andb_false_r by done. by apply Z.leb_gt.
  - rewrite (proj2 (Z.ltb_lt _ _)) by done. by rewrite andb_true_r.
Qed.

(** With a limit of zero the check refuses a key for ever, while the list shows it free. *)
Lemma zero_limit_never_ends :
  let s := mkSettings 5 180 3600 0 1024 60 in
  let r := RecordFailure 0 "u" true ∅ in
  let later := 1000000000 * 1000000 in
  fst (IsUserBanned s later "u" r) = true /\ (b_IsBanned <$> BanList s later r) = [false].
Proof. by vm_compute. Qed.

(** ** Guessing a password *)
Inductive login_event :=
| Attempt (user : string)                  (** a login of [user]: checked, and if let through a failure *)
| CheckIP (ip : string) | FailIP (ip : string)
| Cleaning (draw : Z) (force : bool)
| Listing.
#[export] Instance login_event_eq_dec : EqDecision login_event.
Proof. solve_decision. Defined.

(** [true] when the password of [user] was tried. *)
Definition login_step (s : LoginPolicySettings) (now : Z) (e : login_event) (r : records) : bool * records :=
  match e with
  | Attempt user =>
    let '(banned, r) := IsUserBanned s now user r in
    if banned then (false, r) else (true, RecordFailure now user true r)
  | CheckIP ip => (false, snd (IsIPBanned s now ip r))
  | FailIP ip => (false, RecordFailure now ip true r)
  | Cleaning draw force => (false, Clean s now draw force r)
  | Listing => (false, r)
  end.

(** The number of tries of [user] in a sequence of events with their times. *)
Fixpoint guesses (s : LoginPolicySettings) (user : string) (events : list (Z * login_event)) (r : records) : Z :=
  match events with
  | [] => 0
  | (now, e) :: rest =>
    let '(tried, r') := login_step s now e r in
    (if tried && bool_decide (e = Attempt user) then 1 else 0) + guesses s user rest r'
  end.

Section Window.
Context (s : LoginPolicySettings) (user : string) (t0 : Z).
Hypothesis user_name : user <> "" /\ ParseIP user = None.

(** An event inside the window that does not check the user name as an address. *)
Definition in_window (te : Z * login_event) : Prop :=
  t0 <= fst te /\ Unix (fst te) - Unix t0 < UserBanTime s /\ snd te <> CheckIP user.

(** What is known of the user's record after [k] tries in the window, with room for [n]
    more failures. *)
Definition tried_state (k n : Z) (r : records) : Prop :=
  (forall cur, r !! user = Some cur -> 0 <= hasLoginFailTimes cur /\ hasLoginFailTimes cur + n < 2 ^ 63) /\
  (0 < k -> exists cur, r !! user = Some cur /\ t0 <= lastLoginTime cur /\ k <= hasLoginFailTimes cur).

Lemma unix_mono a b : a <= b -> Unix a <= Unix b.
Proof. intros H. unfold Unix. apply Z.div_le_mono; lia. Qed.

Lemma tried_same k n r r' : 0 <= n -> r' !! user = r !! user -> tried_state k (n + 1) r -> tried_state k n r'.
Proof.
  intros Hn E [H1 H2]. split; rewrite E; [|done]. intros cur Hc. destruct (H1 cur Hc). lia.
Qed.

Lemma tried_fail now k n r : t0 <= now -> 0 <= k -> 1 <= n + 1 < 2 ^ 63 -> tried_state k (n + 1) r ->
  tried_state (k + 1) n (RecordFailure now user true r).
Proof.
  intros Ht Hk Hn [H1 H2]. unfold RecordFailure. cbn [negb]. rewrite bool_decide_eq_false_2 by apply user_name. cbn [orb].
  destruct (r !! user) as [cur|] eqn:E.
  - destruct (H1 cur eq_refl) as [F1 F2]. rewrite i64_small by lia. split.
    + intros c. rewrite lookup_insert_eq. intros <-%(inj Some). cbn. lia.
    + intros _. exists (mkRecord (hasLoginFailTimes cur + 1) now). rewrite lookup_insert_eq. split_and!; [done|done|]. cbn.
      destruct (decide (k = 0)) as [->|]; [lia|]. destruct H2 as (c & Hc & _ & G); [lia|]. injection Hc as <-. lia.
  - split.
    + intros c. rewrite lookup_insert_eq. intros <-%(inj Some). cbn. lia.
    + intros _. exists (mkRecord 1 now). rewrite lookup_insert_eq. split_and!; [done|done|]. cbn.
      destruct (decide (k = 0)) as [->|]; [lia|]. destruct H2 as (c & Hc & _); [lia|done].
Qed.

Lemma tried_mono k k' n r : k' <= k -> tried_state k n r -> tried_state k' n r.
Proof.
  intros Hk [H1 H2]. split; [done|]. intros H. destruct H2 as (c & Hc & G1 & G2); [lia|]. exists c. split_and!; [done|done|lia].
Qed.

Lemma isBanned_other key ttl now r : key <> user -> snd (isBanned s now key ttl r) !! user = r !! user.
Proof.
  intros Hne. unfold isBanned. case_decide; [done|]. destruct (r !! key); [|done]. case_match; [done|]. cbn.
  by rewrite lookup_insert_ne.
Qed.

Lemma Clean_window now draw force k n r : t0 <= now -> Unix now - Unix t0 < UserBanTime s -> 0 <= n ->
  tried_state k (n + 1) r -> tried_state k n (Clean s now draw force r).
Proof.
  intros H1 H2 Hn [T1 T2]. unfold Clean. destruct (_ && _); [by apply (tried_same k n r)|]. split.
  - intros cur [Hc _]%map_lookup_filter_Some. destruct (T1 cur Hc). lia.
  - intros Hk. destruct (T2 Hk) as (cur & Hc & G1 & G2). exists cur. split_and!; [|done|done].
    apply map_lookup_filter_Some. split; [done|]. cbn. unfold key_ttl. rewrite (proj2 user_name).
    pose proof (unix_mono _ _ G1). lia.
Qed.

(** Inside the window the check keeps the count, and lets nobody through at the limit. *)
Lemma check_window now k n r : t0 <= now -> Unix now - Unix t0 < UserBanTime s -> 0 <= n -> tried_state k (n + 1) r ->
  let '(banned, r') := IsUserBanned s now user r in
  tried_state k n r' /\ (banned = false -> 0 < k -> k < MaxFailTimes s).
Proof.
  intros H1 H2 Hn Ht. unfold IsUserBanned, isBanned. rewrite decide_False by apply user_name.
  destruct (r !! user) as [cur|] eqn:E.
  2: { split; [by apply (tried_same k n r)|]. intros _ Hk. destruct Ht as [_ T2]. destruct (T2 Hk) as (c & Hc & _). congruence. }
  destruct (_ <? BanTime s); [split; [by apply (tried_same k n r)|done]|].
  destruct Ht as [T1 T2]. destruct (T1 cur E) as [F1 F2].
  destruct (Z.leb_spec (UserBanTime s) (Unix now - Unix (lastLoginTime cur))) as [Hl|Hl].
  - assert (Hk : ~ 0 < k).
    { intros Hk. destruct (T2 Hk) as (c & Hc & G1 & _). rewrite E in Hc. injection Hc as <-. pose proof (unix_mono _ _ G1). lia. }
    split; [|by intros]. split; [|done]. intros c. rewrite lookup_insert_eq. intros <-%(inj Some). cbn. lia.
  - split.
    + apply (tried_same k n r); [done|by rewrite lookup_insert_eq|done].
    + intros Hb Hk. apply Z.leb_gt in Hb. destruct (T2 Hk) as (c & Hc & _ & G2). rewrite E in Hc. injection Hc as <-. lia.
Qed.

Lemma guesses_window : 0 < MaxFailTimes s -> forall events k r, Forall in_window events -> 0 <= k <= MaxFailTimes s ->
  2 * Z.of_nat (length events) + 1 < 2 ^ 63 ->
  tried_state k (2 * Z.of_nat (length events)) r -> k + guesses s user events r <= MaxFailTimes s.
Proof.
  intros Hm. induction events as [|[now e] events IH]; intros k r Hw Hk Hlen Ht; [cbn; lia|].
  apply Forall_cons in Hw as [(W1 & W2 & W3) Hw]. cbn [fst snd length guesses] in *.
  rewrite Nat2Z.inj_succ in *. set (n := Z.of_nat (length events)) in *.
  assert (Ht1 : tried_state k (2 * n + 1 + 1) r) by (by replace (2 * n + 1 + 1) with (2 * Z.succ n) by lia).
  assert (Ht2 : tried_state k (2 * n + 1) r) by (apply (tried_same k (2 * n + 1) r r); [lia|done|done]).
  destruct (login_step s now e r) as [tried r'] eqn:El.
  destruct e as [u|ip|ip|draw force|]; cbn [login_step] in El.
  - destruct (decide (u = user)) as [->|Hne].
    + pose proof (check_window now k (2 * n + 1) r W1 W2 ltac:(lia) Ht1) as Hc.
      destruct (IsUserBanned s now user r) as [banned r1]. destruct Hc as [C1 C2]. destruct banned; injection El as <- <-.
      * cbn. apply IH; [done|lia|lia|]. apply (tried_same k (2 * n) r1 r1); [lia|done|done].
      * rewrite bool_decide_eq_true_2 by done. cbn [andb]. rewrite Z.add_assoc. apply IH; [done| |lia|apply tried_fail; try lia; done].
        destruct (decide (0 < k)); [specialize (C2 eq_refl ltac:(done)); lia|lia].
    + rewrite bool_decide_eq_false_2, andb_false_r by congruence. rewrite Z.add_0_l. apply IH; [done|lia|lia|].
      unfold IsUserBanned in El. pose proof (isBanned_other u (UserBanTime s) now r Hne) as Eo.
      destruct (isBanned s now u (UserBanTime s) r) as [banned r1]. cbn [snd] in Eo.
      apply (tried_same k (2 * n) r); [lia| |done]. destruct banned; injection El as <- <-; [done|]. rewrite <- Eo.
      unfold RecordFailure. destruct (_ || _); [done|]. destruct (r1 !! u); by rewrite lookup_insert_ne.
  - injection El as <- <-. cbn. apply IH; [done|lia|lia|].
    apply (tried_same k (2 * n) r); [lia|apply isBanned_other; congruence|done].
  - injection El as <- <-. cbn. apply IH; [done|lia|lia|]. destruct (decide (ip = user)) as [->|Hne].
    + apply (tried_mono (k + 1)); [lia|]. apply tried_fail; try lia; done.
    + apply (tried_same k (2 * n) r); [lia| |done]. unfold RecordFailure. destruct (_ || _); [done|].
      destruct (r !! ip); by rewrite lookup_insert_ne.
  - injection El as <- <-. cbn. apply IH; [done|lia|lia|]. apply Clean_window; try lia; done.
  - injection El as <- <-. cbn. apply IH; [done|lia|lia|]. apply (tried_same k (2 * n) r); [lia|done|done].
Qed.
End Window.


Definition ex_settings : LoginPolicySettings := mkSettings 0 180 3600 3 1024 60.
Definition ex_events : list (Z * login_event) :=
  (fun i => (1000000000 * Z.of_nat i, Attempt "root")) <$> seq 0 10.

