(* ===== verification/LRU.v ===== *)
(** The least-recently-used cache.

    Source: [lib/cache/lru.go].

    The program keeps a doubly linked list of elements, each pointing to its entry, and
    a map from keys to elements.  The model has the addresses of the elements in list
    order, a store from addresses to entries and the map.  Each method holds the mutex
    and is one step; the calls of [OnEvicted] are returned in order.  The promise to
    the callers is a list of key and value pairs, the most recently used first. *)

From stdpp Require Import gmap.
From S2P Require Import Prelude.
Local Open Scope Z_scope.

Section LRU.
Context {K : Type} `{Countable K} {V : Type}.

Record Cache := mkCache {
  MaxEntries : Z; ll : list nat; elems : gmap nat (K * V); cache : gmap K nat; fresh_elem : nat;
}.

Definition New (maxEntries : Z) : Cache := mkCache maxEntries [] ∅ ∅ 0.

Definition MoveToFront (e : nat) (l : list nat) : list nat := e :: filter (fun x => x <> e) l.
Definition list_Remove (e : nat) (l : list nat) : list nat := filter (fun x => x <> e) l.

Definition removeElementLocked (e : nat) (c : Cache) : list (K * V) * Cache :=
  match elems c !! e with
  | None => ([], c)
  | Some kv =>
    ([kv], mkCache (MaxEntries c) (list_Remove e (ll c)) (delete e (elems c)) (delete (fst kv) (cache c)) (fresh_elem c))
  end.

Definition removeOldestLocked (c : Cache) : list (K * V) * Cache :=
  match last (ll c) with
  | None => ([], c)
  | Some e => removeElementLocked e c
  end.

Definition Add (key : K) (value : V) (c : Cache) : list (K * V) * Cache :=
  match cache c !! key with
  | Some ee => ([], mkCache (MaxEntries c) (MoveToFront ee (ll c)) (<[ee := (key, value)]> (elems c)) (cache c) (fresh_elem c))
  | None =>
    let ele := fresh_elem c in
    let c := mkCache (MaxEntries c) (ele :: ll c) (<[ele := (key, value)]> (elems c)) (<[key := ele]> (cache c)) (S ele) in
    if negb (MaxEntries c =? 0) && (MaxEntries c <? Z.of_nat (length (ll c))) then removeOldestLocked c else ([], c)
  end.

Definition Get (key : K) (c : Cache) : option V * Cache :=
  match cache c !! key with
  | Some ele =>
    (snd <$> elems c !! ele, mkCache (MaxEntries c) (MoveToFront ele (ll c)) (elems c) (cache c) (fresh_elem c))
  | None => (None, c)
  end.

Definition Remove (key : K) (c : Cache) : list (K * V) * Cache :=
  match cache c !! key with Some ele => removeElementLocked ele c | None => ([], c) end.

Definition RemoveOldest (c : Cache) : list (K * V) * Cache := removeOldestLocked c.
Definition Len (c : Cache) : Z := Z.of_nat (length (ll c)).

(** [order] is the order in which the map is walked. *)
Definition Clear (order : list (K * nat)) (c : Cache) : list (K * V) * Cache :=
  (omap (fun ke => elems c !! snd ke) order, mkCache (MaxEntries c) [] ∅ ∅ (fresh_elem c)).

(** ** The promise *)
Local Notation spec := (list (K * V)).
Definition s_remove (key : K) (s : spec) : spec := filter (fun kv => fst kv <> key) s.
Fixpoint s_lookup (key : K) (s : spec) : option V :=
  match s with [] => None | (k, v) :: s => if decide (k = key) then Some v else s_lookup key s end.

Definition s_oldest (s : spec) : list (K * V) * spec :=
  match last s with None => ([], s) | Some kv => ([kv], removelast s) end.

Definition s_Add (max : Z) (key : K) (value : V) (s : spec) : list (K * V) * spec :=
  match s_lookup key s with
  | Some _ => ([], (key, value) :: s_remove key s)
  | None =>
    let s := (key, value) :: s in
    if negb (max =? 0) && (max <? Z.of_nat (length s)) then s_oldest s else ([], s)
  end.

Definition s_Get (key : K) (s : spec) : option V * spec :=
  match s_lookup key s with Some v => (Some v, (key, v) :: s_remove key s) | None => (None, s) end.

Definition s_Remove (key : K) (s : spec) : list (K * V) * spec :=
  match s_lookup key s with Some v => ([(key, v)], s_remove key s) | None => ([], s) end.

(** ** The cache as that list *)
Definition abs (c : Cache) : spec := omap (fun e => elems c !! e) (ll c).

Record wf (c : Cache) : Prop := {
  wf_nodup : NoDup (ll c);
  wf_elems e : e ∈ ll c <-> is_Some (elems c !! e);
  wf_cache k e : cache c !! k = Some e <-> exists v, elems c !! e = Some (k, v);
  wf_fresh e : e ∈ ll c -> (e < fresh_elem c)%nat;
}.

Lemma cache_wf_New n : wf (New n).
Proof.
  split; cbn.
  - constructor.
  - intros e. rewrite lookup_empty. split; [by intros ?%not_elem_of_nil|by intros [? ?]].
  - intros k e. rewrite !lookup_empty. split; [done|]. by intros [v Hv].
  - by intros e ?%not_elem_of_nil.
Qed.

(** Leaving one element out of the list is leaving its key out of the promise. *)
Lemma omap_filter (m : gmap nat (K * V)) (l : list nat) e k :
  (forall x, x ∈ l -> exists kv, m !! x = Some kv /\ (fst kv = k <-> x = e)) ->
  omap (fun x => m !! x) (filter (fun x => x <> e) l) = filter (fun kv => fst kv <> k) (omap (fun x => m !! x) l).
Proof.
  induction l as [|x l IH]; intros Hl; [done|]. rewrite filter_cons. cbn [omap list_omap].
  destruct (Hl x ltac:(left)) as ([k' v'] & Hx & He). rewrite Hx. cbn in He.
  rewrite filter_cons. cbn [fst]. rewrite <- IH by (intros y Hy; apply Hl; by right).
  destruct (decide (x <> e)) as [Hne|Heq].
  - cbn [omap list_omap]. rewrite Hx. rewrite decide_True by tauto. done.
  - rewrite decide_False by (apply dec_stable in Heq; tauto). done.
Qed.

Lemma omap_agree (m m' : gmap nat (K * V)) (l : list nat) : (forall x, x ∈ l -> m !! x = m' !! x) ->
  omap (fun x => m !! x) l = omap (fun x => m' !! x) l.
Proof.
  induction l as [|x l IH]; intros Hl; [done|]. cbn [omap list_omap]. rewrite (Hl x ltac:(left)).
  rewrite IH; [done|]. intros y Hy. apply Hl. by right.
Qed.

Lemma key_elem c e k v x : wf c -> elems c !! e = Some (k, v) -> x ∈ ll c ->
  exists kv, elems c !! x = Some kv /\ (fst kv = k <-> x = e).
Proof.
  intros W He Hx. apply (wf_elems c W) in Hx as [[k' v'] Hx]. exists (k', v'). split; [done|]. cbn. split.
  - intros ->. assert (H1 : cache c !! k = Some e) by (apply (wf_cache c W); by exists v).
    assert (H2 : cache c !! k = Some x) by (apply (wf_cache c W); by exists v'). congruence.
  - intros ->. congruence.
Qed.

Lemma abs_without c e k v : wf c -> elems c !! e = Some (k, v) ->
  omap (fun x => elems c !! x) (filter (fun x => x <> e) (ll c)) = s_remove k (abs c).
Proof. intros W He. apply omap_filter. intros x Hx. by eapply key_elem. Qed.

Lemma lookup_abs c k : wf c -> s_lookup k (abs c) = e ← cache c !! k; snd <$> elems c !! e.
Proof.
  intros W. unfold abs.
  assert (Hs : forall l, (forall x, x ∈ l -> x ∈ ll c) -> s_lookup k (omap (fun e => elems c !! e) l) =
    match cache c !! k with Some e => if decide (e ∈ l) then snd <$> elems c !! e else None | None => None end).
  { induction l as [|x l IH]; intros Hl.
    - cbn. destruct (cache c !! k); [|done]. rewrite decide_False; [done|]. apply not_elem_of_nil.
    - cbn [omap list_omap]. destruct (proj1 (wf_elems c W x) (Hl x ltac:(left))) as [[k' v'] Hx]. rewrite Hx. cbn [s_lookup].
      rewrite IH by (intros y Hy; apply Hl; by right). destruct (decide (k' = k)) as [->|Hne].
      + assert (E : cache c !! k = Some x) by (apply (wf_cache c W); by exists v'). rewrite E, decide_True by left. by rewrite Hx.
      + destruct (cache c !! k) as [e|] eqn:E; [|done]. assert (x <> e).
        { intros ->. apply (wf_cache c W) in E as [v E]. congruence. }
        destruct (decide (e ∈ l)); [by rewrite decide_True by (by right)|]. rewrite decide_False; [done|].
        rewrite not_elem_of_cons. done. }
  rewrite Hs by done. destruct (cache c !! k) as [e|] eqn:E; [|done]. cbn. rewrite decide_True; [done|].
  apply (wf_elems c W). apply (wf_cache c W) in E as [v E]. by exists (k, v).
Qed.

Lemma MoveToFront_elem e l x : e ∈ l -> x ∈ MoveToFront e l <-> x ∈ l.
Proof.
  intros He. unfold MoveToFront. rewrite elem_of_cons, list_elem_of_filter. destruct (decide (x = e)) as [->|]; tauto.
Qed.

Lemma MoveToFront_NoDup e l : NoDup l -> NoDup (MoveToFront e l).
Proof.
  intros Hl. constructor; [|by apply NoDup_filter]. rewrite list_elem_of_filter. by intros [? _].
Qed.

(** ** Each method refines its promise *)
Lemma Get_refines key c : wf c -> wf (snd (Get key c)) /\
  (fst (Get key c), abs (snd (Get key c))) = s_Get key (abs c).
Proof.
  intros W. unfold Get, s_Get. rewrite (lookup_abs c key W). destruct (cache c !! key) as [e|] eqn:E; [|done].
  pose proof (proj1 (wf_cache c W key e) E) as [v He]. cbn. rewrite He. cbn.
  assert (Hin : e ∈ ll c) by (apply (wf_elems c W); by eexists). split.
  - split; cbn; [by apply MoveToFront_NoDup, W| |apply W|].
    + intros x. rewrite MoveToFront_elem by done. apply W.
    + intros x. rewrite MoveToFront_elem by done. apply W.
  - rewrite (f_equal (cons (key, v)) (eq_sym (abs_without c e key v W He))). unfold abs, MoveToFront.
    cbn [elems ll omap list_omap]. done.
Qed.

Lemma removeElement_refines e c k v : wf c -> elems c !! e = Some (k, v) ->
  wf (snd (removeElementLocked e c)) /\ fst (removeElementLocked e c) = [(k, v)] /\
  abs (snd (removeElementLocked e c)) = s_remove k (abs c).
Proof.
  intros W He. unfold removeElementLocked. rewrite He. cbn. split_and!; [|done|].
  - split; cbn.
    + apply NoDup_filter, W.
    + intros x. unfold list_Remove. rewrite list_elem_of_filter. destruct (decide (x = e)) as [->|Hne].
      * rewrite lookup_delete_eq. split; [tauto|by intros [? ?]].
      * rewrite lookup_delete_ne by done. rewrite (wf_elems c W x). tauto.
    + intros k' x. destruct (decide (k' = k)) as [->|Hk].
      * rewrite lookup_delete_eq. split; [done|]. intros [v' Hv']. destruct (decide (x = e)) as [->|Hne].
        { by rewrite lookup_delete_eq in Hv'. }
        rewrite lookup_delete_ne in Hv' by done. exfalso. apply Hne.
        assert (H1 : cache c !! k = Some e) by (apply (wf_cache c W); by exists v).
        assert (H2 : cache c !! k = Some x) by (apply (wf_cache c W); by exists v'). congruence.
      * rewrite lookup_delete_ne by done. rewrite (wf_cache c W). destruct (decide (x = e)) as [->|Hne].
        { rewrite lookup_delete_eq. split; [intros [v' Hv']; congruence|by intros [? ?]]. }
        by rewrite lookup_delete_ne.
    + intros x. unfold list_Remove. rewrite list_elem_of_filter. intros [_ Hx]. by apply W.
  - rewrite <- (abs_without c e k v W He). apply omap_agree.
    intros x. rewrite list_elem_of_filter. intros [Hne _]. by rewrite lookup_delete_ne.
Qed.

Lemma Remove_refines key c : wf c -> wf (snd (Remove key c)) /\
  (fst (Remove key c), abs (snd (Remove key c))) = s_Remove key (abs c).
Proof.
  intros W. unfold Remove, s_Remove. rewrite (lookup_abs c key W). destruct (cache c !! key) as [e|] eqn:E; [|done].
  pose proof (proj1 (wf_cache c W key e) E) as [v He]. cbn. rewrite He. cbn.
  destruct (removeElement_refines e c key v W He) as (R1 & R2 & R3). by rewrite R2, R3.
Qed.

Lemma removelast_app_one {A} (l : list A) x : removelast (l ++ [x]) = l.
Proof. by rewrite removelast_app, app_nil_r. Qed.

Lemma filter_keeps_all {A} (P : A -> Prop) `{forall x, Decision (P x)} (l : list A) : (forall x, x ∈ l -> P x) -> filter P l = l.
Proof.
  induction l as [|x l IH]; intros Hl; [done|]. rewrite filter_cons, decide_True by (apply Hl; left).
  f_equal. apply IH. intros y Hy. apply Hl. by right.
Qed.

(** The keys of the promise are different, so removing the last one's key removes it. *)
Lemma oldest_abs c : wf c -> match last (ll c) with
  | None => abs c = []
  | Some e => exists k v, elems c !! e = Some (k, v) /\ last (abs c) = Some (k, v) /\ removelast (abs c) = s_remove k (abs c)
  end.
Proof.
  intros W. destruct (last (ll c)) as [e|] eqn:El.
  2: { apply last_None in El. unfold abs. by rewrite El. }
  apply last_Some in El as [l' El]. assert (Hin : e ∈ ll c) by (rewrite El; apply elem_of_app; right; left).
  destruct (proj1 (wf_elems c W e) Hin) as [[k v] He]. exists k, v.
  assert (Ea : abs c = omap (fun x => elems c !! x) l' ++ [(k, v)]).
  { unfold abs. rewrite El, omap_app. cbn. by rewrite He. }
  split_and!; [done|by rewrite Ea, last_snoc|]. rewrite Ea at 1. rewrite removelast_app_one.
  rewrite <- (abs_without c e k v W He). rewrite El, filter_app, filter_cons, decide_False by tauto.
  rewrite filter_nil, app_nil_r. f_equal. symmetry. apply filter_keeps_all.
  intros x Hx Heq. subst x. pose proof (wf_nodup c W) as Hnd. rewrite El in Hnd. apply NoDup_app in Hnd as (_ & Hd & _).
  apply (Hd e Hx). left.
Qed.

Lemma removeOldest_refines c : wf c -> wf (snd (removeOldestLocked c)) /\
  (fst (removeOldestLocked c), abs (snd (removeOldestLocked c))) = s_oldest (abs c).
Proof.
  intros W. unfold removeOldestLocked, s_oldest. pose proof (oldest_abs c W) as Ho. destruct (last (ll c)) as [e|] eqn:El.
  - destruct Ho as (k & v & He & Hl & Hr). destruct (removeElement_refines e c k v W He) as (R1 & R2 & R3).
    by rewrite Hl, R2, R3, Hr.
  - cbn [fst snd]. by rewrite Ho.
Qed.

Lemma length_abs c : wf c -> length (abs c) = length (ll c).
Proof.
  intros W. unfold abs. assert (Hl : forall l, (forall x, x ∈ l -> x ∈ ll c) -> length (omap (fun e => elems c !! e) l) = length l).
  { induction l as [|x l IH]; intros Hl; [done|]. cbn [omap list_omap]. destruct (proj1 (wf_elems c W x) (Hl x ltac:(left))) as [kv Hx].
    rewrite Hx. cbn. rewrite IH; [done|]. intros y Hy. apply Hl. by right. }
  by apply Hl.
Qed.

(** A new element in front. *)
Lemma cache_push_wf key value c : wf c -> cache c !! key = None ->
  let c' := mkCache (MaxEntries c) (fresh_elem c :: ll c) (<[fresh_elem c := (key, value)]> (elems c))
              (<[key := fresh_elem c]> (cache c)) (S (fresh_elem c)) in
  wf c' /\ abs c' = (key, value) :: abs c.
Proof.
  intros W E c'. assert (Hf : fresh_elem c ∉ ll c) by (intros Hin; apply (wf_fresh c W) in Hin; lia).
  assert (Hfe : elems c !! fresh_elem c = None).
  { destruct (elems c !! fresh_elem c) eqn:E'; [|done]. destruct Hf. apply (wf_elems c W). by eexists. }
  split.
  - split; cbn.
    + constructor; [done|apply W].
    + intros x. rewrite elem_of_cons, lookup_insert_is_Some, (wf_elems c W x).
      destruct (decide (x = fresh_elem c)) as [->|]; naive_solver.
    + intros k x. rewrite lookup_insert_Some. destruct (decide (x = fresh_elem c)) as [->|Hne].
      * rewrite lookup_insert_eq. split.
        { intros [[<- _]|[Hk Hc]]; [by exists value|]. apply (wf_cache c W) in Hc as [v Hc]. congruence. }
        intros [v [= <- <-]]. by left.
      * rewrite lookup_insert_ne by done. rewrite (wf_cache c W k x). split; [naive_solver|]. intros [v Hv]. right.
        split; [|by exists v]. intros <-. assert (cache c !! key = Some x) by (apply (wf_cache c W); by exists v). congruence.
    + intros x [->|Hx]%elem_of_cons; [lia|]. apply (wf_fresh c W) in Hx. lia.
  - unfold c', abs. cbn [ll elems omap list_omap]. rewrite lookup_insert_eq. f_equal. apply omap_agree.
    intros x Hx. rewrite lookup_insert_ne; [done|]. intros <-. done.
Qed.

(** An element that is already there, with a new value and in front. *)
Lemma update_wf key value c e : wf c -> cache c !! key = Some e ->
  let c' := mkCache (MaxEntries c) (MoveToFront e (ll c)) (<[e := (key, value)]> (elems c)) (cache c) (fresh_elem c) in
  wf c' /\ abs c' = (key, value) :: s_remove key (abs c).
Proof.
  intros W E c'. pose proof (proj1 (wf_cache c W key e) E) as [v He].
  assert (Hin : e ∈ ll c) by (apply (wf_elems c W); by eexists). split.
  - split; cbn; [by apply MoveToFront_NoDup, W| | |].
    + intros x. rewrite MoveToFront_elem by done. rewrite lookup_insert_is_Some, (wf_elems c W x).
      destruct (decide (x = e)) as [->|]; naive_solver.
    + intros k x. rewrite (wf_cache c W k x). destruct (decide (x = e)) as [->|Hne].
      * rewrite lookup_insert_eq, He. naive_solver.
      * by rewrite lookup_insert_ne.
    + intros x. rewrite MoveToFront_elem by done. apply W.
  - rewrite (f_equal (cons (key, value)) (eq_sym (abs_without c e key v W He))). unfold c', abs, MoveToFront.
    cbn [ll elems omap list_omap]. rewrite lookup_insert_eq. f_equal. apply omap_agree.
    intros x. rewrite list_elem_of_filter. intros [Hne _]. by rewrite lookup_insert_ne.
Qed.

Lemma Add_refines key value c : wf c -> wf (snd (Add key value c)) /\
  (fst (Add key value c), abs (snd (Add key value c))) = s_Add (MaxEntries c) key value (abs c).
Proof.
  intros W. unfold Add, s_Add. rewrite (lookup_abs c key W). destruct (cache c !! key) as [e|] eqn:E.
  - pose proof (proj1 (wf_cache c W key e) E) as [v He]. cbn [mbind option_bind]. rewrite He. cbn [fmap option_fmap option_map fst snd].
    destruct (update_wf key value c e W E) as [U1 U2]. by rewrite U2.
  - cbn [mbind option_bind]. destruct (cache_push_wf key value c W E) as [P1 P2]. set (c' := mkCache _ _ _ _ _) in *.
    rewrite <- P2, (length_abs c' P1). destruct (_ && _); [by apply removeOldest_refines|done].
Qed.

Lemma Clear_refines order c : abs (snd (Clear order c)) = [] /\ wf (snd (Clear order c)).
Proof.
  split; [done|]. unfold Clear. split; cbn.
  - constructor.
  - intros e. rewrite lookup_empty. split; [by intros ?%not_elem_of_nil|by intros [? ?]].
  - intros k e. rewrite !lookup_empty. split; [done|]. by intros [v Hv].
  - by intros e ?%not_elem_of_nil.
Qed.

(** ** Histories *)
Inductive cache_op := OAdd (k : K) (v : V) | OGet (k : K) | ORemove (k : K) | ORemoveOldest | OClear (order : list (K * nat)).

(** The answer of a call: the value found and the entries evicted. *)
Definition run_op (o : cache_op) (c : Cache) : (option V * list (K * V)) * Cache :=
  match o with
  | OAdd k v => let '(ev, c) := Add k v c in ((None, ev), c)
  | OGet k => let '(r, c) := Get k c in ((r, []), c)
  | ORemove k => let '(ev, c) := Remove k c in ((None, ev), c)
  | ORemoveOldest => let '(ev, c) := RemoveOldest c in ((None, ev), c)
  | OClear order => let '(ev, c) := Clear order c in ((None, ev), c)
  end.

Definition spec_op (max : Z) (o : cache_op) (s : spec) : (option V * list (K * V)) * spec :=
  match o with
  | OAdd k v => let '(ev, s) := s_Add max k v s in ((None, ev), s)
  | OGet k => let '(r, s) := s_Get k s in ((r, []), s)
  | ORemove k => let '(ev, s) := s_Remove k s in ((None, ev), s)
  | ORemoveOldest => let '(ev, s) := s_oldest s in ((None, ev), s)
  | OClear _ => ((None, s), [])
  end.

(** Clearing reports every entry once, in the order of the map. *)
Definition same_answer (o : cache_op) (a b : option V * list (K * V)) : Prop :=
  match o with
  | OClear _ => Permutation (snd a) (snd b) /\ fst a = fst b
  | _ => a = b
  end.

Definition op_ok (o : cache_op) (c : Cache) : Prop :=
  match o with OClear order => Permutation order (map_to_list (cache c)) | _ => True end.

Lemma cache_entries c order : wf c -> Permutation order (map_to_list (cache c)) ->
  Permutation (omap (fun ke => elems c !! snd ke) order) (abs c).
Proof.
  intros W Ho. unfold abs. assert (Hp : Permutation (order.*2) (ll c)).
  { apply NoDup_Permutation; [|apply W|].
    - rewrite Ho. apply NoDup_fmap_2_strong; [|apply NoDup_map_to_list].
      intros [k1 e1] [k2 e2] H1 H2 E. cbn in E. subst e2. apply elem_of_map_to_list, (wf_cache c W) in H1 as [v1 H1].
      apply elem_of_map_to_list, (wf_cache c W) in H2 as [v2 H2]. congruence.
    - intros e. rewrite (wf_elems c W e). rewrite list_elem_of_fmap. split.
      + intros ([k e'] & -> & Hin). rewrite Ho in Hin. apply elem_of_map_to_list, (wf_cache c W) in Hin as [v Hv]. by eexists.
      + intros [[k v] Hv]. exists (k, e). split; [done|]. rewrite Ho. apply elem_of_map_to_list, (wf_cache c W). by exists v. }
  rewrite <- Hp. clear. induction order as [|[k e] order IH]; [done|]. cbn. destruct (elems c !! e); [by constructor|done].
Qed.

Lemma run_op_refines o c : wf c -> op_ok o c ->
  wf (snd (run_op o c)) /\ MaxEntries (snd (run_op o c)) = MaxEntries c /\
  same_answer o (fst (run_op o c)) (fst (spec_op (MaxEntries c) o (abs c))) /\
  abs (snd (run_op o c)) = snd (spec_op (MaxEntries c) o (abs c)).
Proof.
  assert (Hkeep : forall e c, MaxEntries (snd (removeElementLocked e c)) = MaxEntries c).
  { intros e c'. unfold removeElementLocked. by case_match. }
  intros W Hok. destruct o as [k v|k|k| |order]; cbn [run_op spec_op same_answer].
  - destruct (Add_refines k v c W) as [R1 R2]. assert (R3 : MaxEntries (snd (Add k v c)) = MaxEntries c).
    { unfold Add, removeOldestLocked. repeat (case_match; try done); cbn; by rewrite ?Hkeep. }
    destruct (Add k v c) as [ev c']. rewrite <- R2. done.
  - destruct (Get_refines k c W) as [R1 R2]. assert (R3 : MaxEntries (snd (Get k c)) = MaxEntries c) by (unfold Get; by case_match).
    destruct (Get k c) as [r c']. rewrite <- R2. done.
  - destruct (Remove_refines k c W) as [R1 R2]. assert (R3 : MaxEntries (snd (Remove k c)) = MaxEntries c).
    { unfold Remove. case_match; [apply Hkeep|done]. }
    destruct (Remove k c) as [ev c']. rewrite <- R2. done.
  - destruct (removeOldest_refines c W) as [R1 R2]. unfold RemoveOldest.
    assert (R3 : MaxEntries (snd (removeOldestLocked c)) = MaxEntries c).
    { unfold removeOldestLocked. case_match; [apply Hkeep|done]. }
    destruct (removeOldestLocked c) as [ev c']. rewrite <- R2. done.
  - destruct (Clear_refines order c) as [R1 R2]. split_and!; [done|done| |done|done]. by apply cache_entries.
Qed.

Fixpoint run_ops (ops : list cache_op) (c : Cache) : list (option V * list (K * V)) * Cache :=
  match ops with
  | [] => ([], c)
  | o :: ops => let '(a, c) := run_op o c in let '(answers, c) := run_ops ops c in (a :: answers, c)
  end.

Fixpoint spec_ops (max : Z) (ops : list cache_op) (s : spec) : list (option V * list (K * V)) * spec :=
  match ops with
  | [] => ([], s)
  | o :: ops => let '(a, s) := spec_op max o s in let '(answers, s) := spec_ops max ops s in (a :: answers, s)
  end.

(** The orders given for clearing are walks of the map at that point. *)
Fixpoint ops_ok (ops : list cache_op) (c : Cache) : Prop :=
  match ops with [] => True | o :: ops => op_ok o c /\ ops_ok ops (snd (run_op o c)) end.

Fixpoint answers_match (ops : list cache_op) (a b : list (option V * list (K * V))) : Prop :=
  match ops, a, b with
  | [], [], [] => True
  | o :: ops, x :: a, y :: b => same_answer o x y /\ answers_match ops a b
  | _, _, _ => False
  end.

Lemma s_remove_length k s : (length (s_remove k s) <= length s)%nat.
Proof. apply length_filter. Qed.

Lemma s_remove_hit k v (s : spec) : s_lookup k s = Some v -> (length (s_remove k s) < length s)%nat.
Proof.
  induction s as [|[k' v'] s IH]; [done|]. cbn [s_lookup length]. unfold s_remove in *. rewrite filter_cons. cbn [fst].
  destruct (decide (k' = k)) as [->|Hne].
  - intros _. rewrite decide_False by tauto. pose proof (length_filter (fun kv : K * V => fst kv <> k) s). lia.
  - intros Hl. rewrite decide_True by done. cbn. apply IH in Hl. lia.
Qed.

Lemma s_oldest_length (s : spec) : (length (snd (s_oldest s)) <= length s)%nat /\ (s <> [] -> (length (snd (s_oldest s)) < length s)%nat).
Proof.
  unfold s_oldest. destruct (last s) as [kv|] eqn:E.
  - apply last_Some in E as [l ->]. cbn [snd]. rewrite removelast_app_one, length_app. cbn. lia.
  - apply last_None in E as ->. done.
Qed.

Lemma spec_op_bounded max o s : 0 < max -> Z.of_nat (length s) <= max -> Z.of_nat (length (snd (spec_op max o s))) <= max.
Proof.
  intros Hm Hs. destruct o as [k v|k|k| |order]; cbn [spec_op].
  - unfold s_Add. destruct (s_lookup k s) eqn:E.
    + cbn. apply s_remove_hit in E. lia.
    + rewrite (proj2 (Z.eqb_neq max 0)) by lia. cbn [negb andb]. destruct (Z.ltb_spec max (Z.of_nat (length ((k, v) :: s)))).
      * pose proof (proj2 (s_oldest_length ((k, v) :: s)) ltac:(done)). destruct (s_oldest ((k, v) :: s)). cbn in *. lia.
      * cbn in *. lia.
  - unfold s_Get. destruct (s_lookup k s) eqn:E; cbn; [apply s_remove_hit in E; lia|lia].
  - unfold s_Remove. destruct (s_lookup k s) eqn:E; cbn; [apply s_remove_hit in E; lia|lia].
  - pose proof (proj1 (s_oldest_length s)). destruct (s_oldest s). cbn in *. lia.
  - cbn. lia.
Qed.

Lemma run_ops_refine ops : forall c, wf c -> ops_ok ops c ->
  answers_match ops (fst (run_ops ops c)) (fst (spec_ops (MaxEntries c) ops (abs c))) /\
  abs (snd (run_ops ops c)) = snd (spec_ops (MaxEntries c) ops (abs c)) /\ wf (snd (run_ops ops c)) /\
  (0 < MaxEntries c -> Z.of_nat (length (abs c)) <= MaxEntries c -> Len (snd (run_ops ops c)) <= MaxEntries c).
Proof.
  induction ops as [|o ops IH]; intros c W Hok.
  - split_and!; try done. intros _ Hl. rewrite (length_abs c W) in Hl. exact Hl.
  - destruct Hok as [Ho Hok]. destruct (run_op_refines o c W Ho) as (R1 & R2 & R3 & R4). cbn [run_ops spec_ops].
    pose proof (spec_op_bounded (MaxEntries c) o (abs c)) as Hb.
    destruct (run_op o c) as [a c1]. destruct (spec_op (MaxEntries c) o (abs c)) as [b s1]. cbn [fst snd] in *. subst s1.
    destruct (IH c1 R1 Hok) as (I1 & I2 & I3 & I4). rewrite R2 in I1, I2, I4.
    destruct (run_ops ops c1) as [answers c2]. destruct (spec_ops (MaxEntries c) ops (abs c1)) as [answers' s2].
    cbn in *. split_and!; auto.
Qed.

(** C39. The cache answers every history of calls as a list of its entries in order of
    last use would: the values found, and the entries evicted with the calls that evict
    them (when the whole cache is cleared, in the order of the map), are the same; and a
    cache with a limit never holds more entries than the limit. *)
Theorem lru_refines max ops : ops_ok ops (New max) ->
  answers_match ops (fst (run_ops ops (New max))) (fst (spec_ops max ops [])) /\
  abs (snd (run_ops ops (New max))) = snd (spec_ops max ops []) /\
  (0 < max -> Len (snd (run_ops ops (New max))) <= max).
Proof.
  intros Hok. destruct (run_ops_refine ops (New max) (cache_wf_New max) Hok) as (R1 & R2 & _ & R4). split_and!; [done|done|].
  intros Hm. apply R4; [done|]. cbn. lia.
Qed.
End LRU.
Arguments Cache K {_ _} V.
Arguments cache_op K V : clear implicits.

Lemma lru_refines_witness :
  abs (snd (run_ops [OAdd 1 10; OAdd 2 20; OGet 1; OAdd 3 30] (New 2))) = [(3, 30); (1, 10)] /\
  fst (run_ops [OAdd 1 10; OAdd 2 20; OGet 1; OAdd 3 30] (New 2)) = [(None, []); (None, []); (Some 10, []); (None, [(2, 20)])].
Proof.
  destruct (lru_refines (K := Z) (V := Z) 2 [OAdd 1 10; OAdd 2 20; OGet 1; OAdd 3 30]) as (_ & H & _).
  - cbn. tauto.
  - split; [rewrite H; vm_compute; reflexivity|vm_compute; reflexivity].
Defined.
