(* ===== verification/Pool.v ===== *)
(** The pool of a client's nodes, [lib/pool/pool.go]: a set of values kept as a slice and
    a map from each value to its index, with removal by moving the last value into the
    gap, and cursors for taking values in rotation.

    Every operation that changes the slice or the map holds the mutex, and the callbacks
    of [Range] and [Clear] run on a snapshot after it is released, so a history of calls
    is a list of operations.  The two atomic counters, which [Next] and [Random] advance
    under the read lock, are fields of the state.  An index outside the slice, on which
    Go panics, is [None]. *)

From S2P Require Import Prelude.
Import GoInt.
Open Scope Z_scope.

Section Pool.
Context {T : Type} `{Countable T}.

Record Pool := mkPool {
  rr : Z; rnd : Z; head : Z; plist : list T; idx : gmap T Z
}.

Definition New : Pool := mkPool 0 0 0 [] ∅.

Definition at_ (l : list T) (i : Z) : option T := if i <? 0 then None else l !! Z.to_nat i.

Definition len (p : Pool) : Z := Z.of_nat (length (plist p)).

Definition Has (v : T) (p : Pool) : bool := bool_decide (is_Some (idx p !! v)).

Definition add (v : T) (p : Pool) : Pool :=
  if Has v p then p
  else let l := plist p ++ [v] in
       mkPool (rr p) (rnd p) (head p) l (<[v := Z.of_nat (length l) - 1]> (idx p)).

(** The head is a uint64; [i] is in range or the source panics. *)
Definition removeAt (i : Z) (p : Pool) : option Pool :=
  let last := len p - 1 in
  v ← at_ (plist p) i;
  w ← at_ (plist p) last;
  let l := if i =? last then plist p else <[Z.to_nat i := w]> (plist p) in
  let ix := if i =? last then idx p else <[w := i]> (idx p) in
  let l := take (Z.to_nat last) l in
  let ix := delete v ix in
  let h := if last <=? 1 then 0
           else let lastIdx := u64 (last - 1) in if lastIdx <? head p then lastIdx else head p in
  Some (mkPool (rr p) (rnd p) h l ix).

Definition reset_if_empty (p : Pool) : Pool :=
  if len p =? 0 then mkPool (rr p) (rnd p) 0 (plist p) (idx p) else p.

Definition Remove (v : T) (p : Pool) : option Pool :=
  match idx p !! v with
  | Some i => p ← removeAt i p; Some (reset_if_empty p)
  | None => Some p
  end.

Definition Pop (p : Pool) : option (option T * Pool) :=
  let n := len p in
  if 0 <? n then
    v ← at_ (plist p) (n - 1);
    p ← removeAt (n - 1) p;
    Some (Some v, reset_if_empty p)
  else Some (None, p).

Definition Peek (p : Pool) : option (option T) :=
  let n := len p in
  if 0 <? n then v ← at_ (plist p) (n - 1); Some (Some v) else Some None.

Definition Dequeue (p : Pool) : option (option T * Pool) :=
  let n := len p in
  if n =? 0 then Some (None, p)
  else
    let i := Z.rem (i64 (head p)) n in
    v ← at_ (plist p) i;
    p ← removeAt i p;
    let h := if n <=? 2 then 0
             else let last := u64 (n - 2) in
                  if last <=? head p then last else u64 (head p + 1) in
    Some (Some v, mkPool (rr p) (rnd p) h (plist p) (idx p)).

Definition Front (p : Pool) : option (option T) :=
  let n := len p in
  if 0 <? n then v ← at_ (plist p) (i64 (head p mod n)); Some (Some v) else Some None.

Definition Next (p : Pool) : option (option T * Pool) :=
  let n := len p in
  if 0 <? n then
    let r := u64 (rr p + 1) in
    let i := u64 (r - 1) in
    let '(i, r) := if 2 ^ 60 <? i then (0, 0) else (i, r) in
    v ← at_ (plist p) (i mod n);
    Some (Some v, mkPool r (rnd p) (head p) (plist p) (idx p))
  else Some (None, p).

Definition mixUint64 (x : Z) : Z :=
  let x := Z.lxor x (Z.shiftr x 30) in
  let x := u64 (x * 0xbf58476d1ce4e5b9) in
  let x := Z.lxor x (Z.shiftr x 27) in
  let x := u64 (x * 0x94d049bb133111eb) in
  Z.lxor x (Z.shiftr x 31).

Definition Random (p : Pool) : option (option T * Pool) :=
  let n := len p in
  if 0 <? n then
    let r := u64 (rnd p + 0x9e3779b97f4a7c15) in
    v ← at_ (plist p) (mixUint64 r mod n);
    Some (Some v, mkPool (rr p) r (head p) (plist p) (idx p))
  else Some (None, p).

(** The values [fn] is called with, up to and including the one it stops at. *)
Fixpoint visit (fn : T -> bool) (snap : list T) : list T :=
  match snap with [] => [] | v :: snap => v :: if fn v then visit fn snap else [] end.

Definition Range (fn : T -> bool) (p : Pool) : list T := visit fn (plist p).

(** The values handed to [clean], where one is given. *)
Definition Clear (clean : bool) (p : Pool) : list T * Pool :=
  (if clean then plist p else [], mkPool 0 (rnd p) 0 [] ∅).

(** ** Histories of calls *)

Inductive pool_op := PHas (v : T) | PAdd (v : T) | PRemove (v : T) | PPop | PPeek | PDequeue
  | PFront | PNext | PRandom | PSize | PRange (fn : T -> bool) | PClear (clean : bool).

Inductive pool_answer := ABool (b : bool) | AUnit | AValue (v : option T) | ASize (n : Z) | AList (l : list T).

Definition run_op (o : pool_op) (p : Pool) : option (pool_answer * Pool) :=
  let value r := '(v, p) ← r; Some (AValue v, p) in
  match o with
  | PHas v => Some (ABool (Has v p), p)
  | PAdd v => Some (AUnit, add v p)
  | PRemove v => p ← Remove v p; Some (AUnit, p)
  | PPop => value (Pop p)
  | PPeek => v ← Peek p; Some (AValue v, p)
  | PDequeue => value (Dequeue p)
  | PFront => v ← Front p; Some (AValue v, p)
  | PNext => value (Next p)
  | PRandom => value (Random p)
  | PSize => Some (ASize (len p), p)
  | PRange fn => Some (AList (Range fn p), p)
  | PClear clean => let '(l, p) := Clear clean p in Some (AList l, p)
  end.

Fixpoint run_ops (ops : list pool_op) (p : Pool) : option (list pool_answer * Pool) :=
  match ops with
  | [] => Some ([], p)
  | o :: ops => '(a, p) ← run_op o p; '(answers, p) ← run_ops ops p; Some (a :: answers, p)
  end.

(** ** What is promised: a set *)

(** A value is found exactly when there is one, and is in the set. *)
Definition some_member (s : gset T) (v : option T) : Prop :=
  match v with Some v => v ∈ s | None => s = ∅ end.

Definition without (v : option T) (s : gset T) : gset T :=
  match v with Some v => s ∖ {[v]} | None => s end.

Inductive set_step : pool_op -> gset T -> pool_answer -> gset T -> Prop :=
| S_Has v s : set_step (PHas v) s (ABool (bool_decide (v ∈ s))) s
| S_Add v s : set_step (PAdd v) s AUnit ({[v]} ∪ s)
| S_Remove v s : set_step (PRemove v) s AUnit (s ∖ {[v]})
| S_Pop v s : some_member s v -> set_step PPop s (AValue v) (without v s)
| S_Peek v s : some_member s v -> set_step PPeek s (AValue v) s
| S_Dequeue v s : some_member s v -> set_step PDequeue s (AValue v) (without v s)
| S_Front v s : some_member s v -> set_step PFront s (AValue v) s
| S_Next v s : some_member s v -> set_step PNext s (AValue v) s
| S_Random v s : some_member s v -> set_step PRandom s (AValue v) s
| S_Size s : set_step PSize s (ASize (Z.of_nat (size s))) s
| S_Range fn s l rest : NoDup (l ++ rest) -> list_to_set (l ++ rest) = s ->
    (rest = [] \/ exists v, last l = Some v /\ fn v = false) ->
    set_step (PRange fn) s (AList l) s
| S_Clear clean s l : NoDup l -> list_to_set l = (if clean : bool then s else ∅) ->
    set_step (PClear clean) s (AList l) ∅.

Inductive set_run : list pool_op -> gset T -> list pool_answer -> gset T -> Prop :=
| SR_nil s : set_run [] s [] s
| SR_cons o ops s a s1 answers s2 : set_step o s a s1 -> set_run ops s1 answers s2 ->
    set_run (o :: ops) s (a :: answers) s2.

Definition members (p : Pool) : gset T := list_to_set (plist p).

(** ** The invariant *)

Record wf (p : Pool) : Prop := {
  wf_idx : forall v i, idx p !! v = Some i <-> at_ (plist p) i = Some v;
  wf_head : 0 <= head p <= Z.max 0 (len p - 1)
}.

Lemma pool_wf_New : wf New.
Proof.
  split; [|cbn; lia]. intros v i. cbn. rewrite lookup_empty. unfold at_. destruct (i <? 0); [done|]. by rewrite lookup_nil.
Qed.

Lemma at_Some l i v : at_ l i = Some v <-> 0 <= i /\ l !! Z.to_nat i = Some v.
Proof. unfold at_. destruct (Z.ltb_spec i 0); split; try (intros ?; split; [lia|done]); [done|lia|tauto]. Qed.

Lemma at_lt l i v : at_ l i = Some v -> 0 <= i < Z.of_nat (length l).
Proof. rewrite at_Some. intros [? Hl]. apply lookup_lt_Some in Hl. lia. Qed.

Lemma at_in_range l i : 0 <= i < Z.of_nat (length l) -> exists v, at_ l i = Some v.
Proof.
  intros Hi. destruct (lookup_lt_is_Some_2 l (Z.to_nat i)) as [v Hv]; [lia|]. exists v. rewrite at_Some. split; [lia|done].
Qed.

Lemma at_elem l v : v ∈ l <-> exists i, at_ l i = Some v.
Proof.
  rewrite list_elem_of_lookup. split; intros [i Hi].
  - exists (Z.of_nat i). rewrite at_Some, Nat2Z.id. split; [lia|done].
  - apply at_Some in Hi as [_ Hi]. eauto.
Qed.

Lemma wf_inj p i j v : wf p -> at_ (plist p) i = Some v -> at_ (plist p) j = Some v -> i = j.
Proof. intros W Hi Hj. apply (wf_idx _ W) in Hi, Hj. congruence. Qed.

Lemma wf_NoDup p : wf p -> NoDup (plist p).
Proof.
  intros W. apply NoDup_alt. intros i j v Hi Hj.
  cut (Z.of_nat i = Z.of_nat j); [lia|].
  apply (wf_inj p _ _ v W); rewrite at_Some, Nat2Z.id; split; done || lia.
Qed.

Lemma elem_of_members p v : v ∈ members p <-> exists i, at_ (plist p) i = Some v.
Proof. unfold members. rewrite elem_of_list_to_set. apply at_elem. Qed.

Lemma Has_members v p : wf p -> Has v p = bool_decide (v ∈ members p).
Proof.
  intros W. apply bool_decide_ext. rewrite elem_of_members. unfold is_Some.
  split; intros [i Hi]; exists i; by apply (wf_idx _ W).
Qed.

Lemma size_members p : wf p -> Z.of_nat (size (members p)) = len p.
Proof. intros W. unfold members. by rewrite size_list_to_set by by apply wf_NoDup. Qed.

Lemma members_empty p : len p = 0 -> members p = ∅.
Proof. unfold len, members. destruct (plist p); [done|cbn; lia]. Qed.

Lemma at_app_one l v i w : at_ (l ++ [v]) i = Some w <-> at_ l i = Some w \/ i = Z.of_nat (length l) /\ w = v.
Proof.
  rewrite !at_Some, lookup_app_Some, list_lookup_singleton_Some. split.
  - intros [? [?|(? & ? & ?)]]; [tauto|right; split; [lia|done]].
  - intros [[? ?]|[-> ->]]; [tauto|]. split; [lia|right]. split_and!; lia || done.
Qed.

Lemma add_ok v p : wf p -> wf (add v p) /\ members (add v p) = {[v]} ∪ members p /\ len (add v p) <= len p + 1.
Proof.
  intros W. unfold add. rewrite (Has_members v p W). case_bool_decide as Hv.
  { split_and!; [done|set_solver|lia]. }
  split_and!.
  - split; [|destruct (wf_head _ W); unfold len in *; cbn; rewrite length_app; cbn; lia].
    intros w i. cbn. rewrite at_app_one, length_app, lookup_insert_Some. cbn [length].
    rewrite (wf_idx _ W). split.
    + intros [[-> <-]|[_ ?]]; [right; split; [lia|done]|by left].
    + intros [Hi|[-> ->]]; [right|left; split; [done|lia]].
      split; [intros ->; apply Hv, elem_of_members; eauto|done].
  - unfold members. cbn. rewrite list_to_set_app_L. set_solver.
  - unfold len. cbn. rewrite length_app. cbn. lia.
Qed.

(** The slice after removing index [i]: the last value fills the gap. *)
Lemma at_removed l i w j x : 0 <= i < Z.of_nat (length l) -> at_ l (Z.of_nat (length l) - 1) = Some w ->
  at_ (take (length l - 1) (if i =? Z.of_nat (length l) - 1 then l else <[Z.to_nat i := w]> l)) j = Some x <->
  j < Z.of_nat (length l) - 1 /\ (j = i /\ x = w \/ j <> i /\ at_ l j = Some x).
Proof.
  intros Hi Hw. rewrite !at_Some, lookup_take_Some. destruct (Z.eqb_spec i (Z.of_nat (length l) - 1)) as [->|Hne].
  - split; [intros (? & ? & ?)|intros (? & [[-> ?]|(? & ? & ?)])]; [|lia|split_and!; lia || done].
    split; [lia|right]. split_and!; done || lia.
  - rewrite list_lookup_insert_Some. split.
    + intros (? & [(? & ? & ?)|[? ?]] & ?); split; try lia; [left; split; [lia|done]|right; split_and!; done || lia].
    + intros (? & [[-> ->]|(? & ? & ?)]); split_and!; try lia; [left; split_and!; done || lia|right; split; [lia|done]].
Qed.

Definition removed_head (p : Pool) : Z :=
  let last := len p - 1 in if last <=? 1 then 0 else if last - 1 <? head p then last - 1 else head p.

(** The map follows the slice. *)
Lemma idx_removed p i v w x j : wf p -> at_ (plist p) i = Some v -> at_ (plist p) (len p - 1) = Some w ->
  delete v (if i =? len p - 1 then idx p else <[w := i]> (idx p)) !! x = Some j <->
  j < len p - 1 /\ (j = i /\ x = w \/ j <> i /\ at_ (plist p) j = Some x).
Proof.
  intros W Hv Hw. pose proof (at_lt _ _ _ Hv) as Hi. fold (len p) in Hi.
  pose proof (fun a b y => wf_inj p a b y W) as Hinj.
  assert (Hlast : forall a y, at_ (plist p) a = Some y -> a <> len p - 1 -> a < len p - 1).
  { intros a y Ha%at_lt ?. fold (len p) in Ha. lia. }
  rewrite lookup_delete_Some. destruct (Z.eqb_spec i (len p - 1)) as [->|Hne].
  - rewrite (wf_idx _ W). split.
    + intros [Hx Hj]. assert (j <> len p - 1) by (intros ->; congruence). split; [eauto|by right].
    + intros [Hj [[-> _]|[Hji Hx]]]; [lia|]. split; [intros ->; eauto|done].
  - rewrite lookup_insert_Some, (wf_idx _ W). split.
    + intros [Hx [[<- <-]|[Hxw Hj]]]; [split; [lia|by left]|].
      assert (j <> len p - 1) by (intros ->; congruence). assert (j <> i) by (intros ->; congruence).
      split; [eauto|by right].
    + intros [Hj [[-> ->]|[Hji Hx]]].
      * split; [intros ->; eauto|by left].
      * split; [intros ->; eauto|right]. split; [intros ->; assert (j = len p - 1) by eauto; lia|done].
Qed.

Lemma removeAt_ok p i v : wf p -> len p < 2 ^ 63 -> at_ (plist p) i = Some v ->
  exists p', removeAt i p = Some p' /\ wf p' /\ members p' = members p ∖ {[v]} /\ len p' = len p - 1 /\
    head p' = removed_head p.
Proof.
  intros W Hn Hv. pose proof (at_lt _ _ _ Hv) as Hi. fold (len p) in Hi.
  destruct (at_in_range (plist p) (len p - 1)) as [w Hw]; [unfold len in *; lia|].
  pose proof (fun x j => idx_removed p i v w x j W Hv Hw) as Hidx.
  pose proof (fun j x => at_removed (plist p) i w j x Hi Hw) as Hat. fold (len p) in Hat.
  unfold removeAt. rewrite Hv, Hw. cbn [mbind option_bind]. eexists. split; [reflexivity|].
  replace (Z.to_nat (len p - 1)) with (length (plist p) - 1)%nat by (unfold len; lia).
  set (l' := take _ _) in *. set (ix := delete v _) in *.
  assert (Hlen : Z.of_nat (length l') = len p - 1).
  { unfold l'. rewrite length_take. destruct (i =? len p - 1); [|rewrite length_insert]; unfold len in *; lia. }
  assert (Hh : (if len p - 1 <=? 1 then 0 else
                if u64 (len p - 1 - 1) <? head p then u64 (len p - 1 - 1) else head p) = removed_head p).
  { unfold removed_head. destruct (Z.leb_spec (len p - 1) 1); [done|].
    unfold u64. rewrite wrap_small by (unfold is_uint; lia). done. }
  rewrite Hh. pose proof (wf_head _ W) as Hhd. 
  set (p' := mkPool _ _ _ l' ix). assert (Hlen' : len p' = len p - 1) by exact Hlen.
  split_and!; [split| | |].
  - intros x j. unfold p'. cbn [idx plist]. by rewrite Hidx, Hat.
  - rewrite Hlen'. cbn [p' head]. unfold removed_head. destruct (Z.leb_spec (len p - 1) 1), (Z.ltb_spec (len p - 1 - 1) (head p)); lia.
  - apply set_eq. intros x. rewrite elem_of_difference, elem_of_singleton, !elem_of_members. unfold p'. cbn [plist]. split.
    + intros [j Hj]. pose proof (proj1 (Hat _ _) Hj) as Hx. apply Hidx, lookup_delete_Some in Hx as [Hx _]. apply Hat in Hj as [_ [[_ ->]|[_ Hj]]]; split; eauto.
    + intros [[j Hj] Hx]. destruct (decide (j = len p - 1)) as [->|Hjl].
      * exists i. apply Hat. assert (i <> len p - 1) by (intros ->; congruence). split; [lia|left; split; [done|congruence]].
      * exists j. apply Hat. apply at_lt in Hj as Hj'. fold (len p) in Hj'. split; [lia|right].
        split; [intros ->; congruence|done].
  - exact Hlen'.
  - done.
Qed.

(** What the calls that take a value out do. *)
Definition takes_out (r : option (option T * Pool)) (p : Pool) : Prop :=
  exists v p', r = Some (v, p') /\ wf p' /\ some_member (members p) v /\
    members p' = without v (members p) /\ len p' <= len p.

(** What the calls that only look do; [Next] and [Random] move their counter. *)
Definition looks (r : option (option T * Pool)) (p : Pool) : Prop :=
  exists v p', r = Some (v, p') /\ some_member (members p) v /\
    plist p' = plist p /\ idx p' = idx p /\ head p' = head p.

Lemma reset_ok p : wf p -> wf (reset_if_empty p) /\ members (reset_if_empty p) = members p /\ len (reset_if_empty p) = len p.
Proof.
  intros W. unfold reset_if_empty. destruct (len p =? 0); [|done]. split_and!; [split|done|done].
  - exact (wf_idx _ W).
  - unfold len. cbn. lia.
Qed.

Lemma set_head_ok p h : wf p -> 0 <= h <= Z.max 0 (len p - 1) -> wf (mkPool (rr p) (rnd p) h (plist p) (idx p)).
Proof. intros W Hh. split; [exact (wf_idx _ W)|exact Hh]. Qed.

Lemma index_member p i : 0 <= i < len p -> exists v, at_ (plist p) i = Some v /\ v ∈ members p.
Proof. intros Hi. destruct (at_in_range (plist p) i Hi) as [v Hv]. exists v. split; [done|]. apply elem_of_members. eauto. Qed.

Lemma Remove_ok v p : wf p -> len p < 2 ^ 63 ->
  exists p', Remove v p = Some p' /\ wf p' /\ members p' = members p ∖ {[v]} /\ len p' <= len p.
Proof.
  intros W Hn. unfold Remove. destruct (idx p !! v) as [i|] eqn:E.
  - apply (wf_idx _ W) in E. destruct (removeAt_ok p i v W Hn E) as (p' & -> & W' & Hm & Hl & _). cbn.
    destruct (reset_ok p' W') as (? & ? & ?). eexists. split_and!; [done|done|congruence|lia].
  - exists p. split_and!; [done|done| |lia]. apply set_eq. intros x.
    rewrite elem_of_difference, elem_of_singleton. split; [|tauto]. intros Hx. split; [done|]. intros ->.
    apply elem_of_members in Hx as [i Hi]. apply (wf_idx _ W) in Hi. congruence.
Qed.

Lemma Pop_ok p : wf p -> len p < 2 ^ 63 -> takes_out (Pop p) p.
Proof.
  intros W Hn. unfold Pop, takes_out. destruct (Z.ltb_spec 0 (len p)).
  - destruct (index_member p (len p - 1)) as (v & Hv & Hm); [lia|]. rewrite Hv.
    destruct (removeAt_ok p _ v W Hn Hv) as (p' & Hr & W' & Hm' & Hl & _). cbn. rewrite Hr. cbn.
    destruct (reset_ok p' W') as (? & ? & ?). do 2 eexists. split_and!; [done|done|done|cbn; congruence|lia].
  - exists None, p. split_and!; [done|done| |done|lia]. apply members_empty. unfold len in *. lia.
Qed.

Lemma Dequeue_ok p : wf p -> len p < 2 ^ 63 -> takes_out (Dequeue p) p.
Proof.
  intros W Hn. unfold Dequeue, takes_out. pose proof (wf_head _ W) as Hh. destruct (Z.eqb_spec (len p) 0) as [E|E].
  { exists None, p. split_and!; [done|done| |done|lia]. by apply members_empty. }
  assert (0 < len p) by (unfold len in *; lia). rewrite i64_small by lia. rewrite Z.rem_small by lia.
  destruct (index_member p (head p)) as (v & Hv & Hm); [lia|]. rewrite Hv.
  destruct (removeAt_ok p _ v W Hn Hv) as (p' & Hr & W' & Hm' & Hl & Hh'). cbn. rewrite Hr. cbn.
  exists (Some v). eexists. split_and!; [reflexivity| |done|exact Hm'|unfold len in *; cbn; lia].
  apply set_head_ok; [done|]. pose proof (wf_head _ W') as Hb. rewrite Hl in *.
  destruct (Z.leb_spec (len p) 2); [lia|].
  assert (u64 (len p - 2) = len p - 2) as -> by (apply wrap_small; unfold is_uint; lia).
  destruct (Z.leb_spec (len p - 2) (head p')); [lia|].
  assert (u64 (head p' + 1) = head p' + 1) as -> by (apply wrap_small; unfold is_uint; lia). lia.
Qed.

Lemma Peek_ok p : exists v, Peek p = Some v /\ some_member (members p) v.
Proof.
  unfold Peek. destruct (Z.ltb_spec 0 (len p)).
  - destruct (index_member p (len p - 1)) as (v & Hv & Hm); [lia|]. rewrite Hv. by exists (Some v).
  - exists None. split; [done|]. apply members_empty. unfold len in *. lia.
Qed.

Lemma Front_ok p : len p < 2 ^ 63 -> exists v, Front p = Some v /\ some_member (members p) v.
Proof.
  intros Hn. unfold Front. destruct (Z.ltb_spec 0 (len p)).
  - pose proof (Z.mod_pos_bound (head p) (len p) ltac:(lia)).
    destruct (index_member p (head p mod len p)) as (v & Hv & Hm); [lia|].
    rewrite i64_small by lia. rewrite Hv. by exists (Some v).
  - exists None. split; [done|]. apply members_empty. unfold len in *. lia.
Qed.

Lemma looks_at p i r r' : 0 < len p -> looks (v ← at_ (plist p) (i mod len p);
  Some (Some v, mkPool r r' (head p) (plist p) (idx p))) p.
Proof.
  intros Hp. destruct (index_member p (i mod len p)) as (v & Hv & Hm); [by apply Z.mod_pos_bound|].
  rewrite Hv. exists (Some v). eexists. split_and!; done.
Qed.

Lemma looks_empty p : ~ 0 < len p -> looks (Some (None, p)) p.
Proof. intros Hp. exists None, p. split_and!; try done. apply members_empty. unfold len in *. lia. Qed.

Lemma Next_ok p : looks (Next p) p.
Proof.
  unfold Next. destruct (Z.ltb_spec 0 (len p)); [|apply looks_empty; lia].
  destruct (2 ^ 60 <? u64 (u64 (rr p + 1) - 1)); by apply looks_at.
Qed.

Lemma Random_ok p : looks (Random p) p.
Proof. unfold Random. destruct (Z.ltb_spec 0 (len p)); [by apply looks_at|apply looks_empty; lia]. Qed.

Lemma looks_same r p : wf p -> looks r p ->
  exists v p', r = Some (v, p') /\ some_member (members p) v /\ wf p' /\ members p' = members p /\ len p' = len p.
Proof.
  intros W (v & p' & Hr & Hv & Hp & Hi & Hh). exists v, p'. unfold members, len. rewrite Hp.
  split_and!; try done. split; [rewrite Hp, Hi; exact (wf_idx _ W)|unfold len; rewrite Hp, Hh; exact (wf_head _ W)].
Qed.

Lemma visit_spec fn l : exists rest, l = visit fn l ++ rest /\
  (rest = [] \/ exists v, last (visit fn l) = Some v /\ fn v = false).
Proof.
  induction l as [|v l (rest & El & Hr)]; [by exists []; split; [|left]|]. cbn [visit]. destruct (fn v) eqn:E.
  - exists rest. split; [cbn; by rewrite El at 1|]. destruct Hr as [?|(w & Hw & ?)]; [by left|right].
    exists w. split; [|done]. rewrite last_cons, Hw. done.
  - exists l. split; [done|right]. by exists v.
Qed.

Lemma run_op_ok o p : wf p -> len p < 2 ^ 63 ->
  exists a p', run_op o p = Some (a, p') /\ wf p' /\ set_step o (members p) a (members p') /\ len p' <= len p + 1.
Proof.
  intros W Hn. destruct o as [v|v|v| | | | | | | |fn|clean]; cbn [run_op].
  - do 2 eexists. split_and!; [done|done| |lia]. rewrite (Has_members v p W). constructor.
  - destruct (add_ok v p W) as (? & Hm & ?). do 2 eexists. split_and!; [done|done| |done]. rewrite Hm. constructor.
  - destruct (Remove_ok v p W Hn) as (p' & -> & ? & Hm & ?). do 2 eexists. split_and!; [done|done| |lia]. rewrite Hm. constructor.
  - destruct (Pop_ok p W Hn) as (v & p' & -> & ? & ? & Hm & ?). do 2 eexists. split_and!; [done|done| |lia]. rewrite Hm. by constructor.
  - destruct (Peek_ok p) as (v & -> & ?). do 2 eexists. split_and!; [done|done| |lia]. by constructor.
  - destruct (Dequeue_ok p W Hn) as (v & p' & -> & ? & ? & Hm & ?). do 2 eexists. split_and!; [done|done| |lia]. rewrite Hm. by constructor.
  - destruct (Front_ok p Hn) as (v & -> & ?). do 2 eexists. split_and!; [done|done| |lia]. by constructor.
  - destruct (looks_same _ p W (Next_ok p)) as (v & p' & -> & ? & ? & Hm & ?). do 2 eexists. split_and!; [done|done| |lia]. rewrite Hm. by constructor.
  - destruct (looks_same _ p W (Random_ok p)) as (v & p' & -> & ? & ? & Hm & ?). do 2 eexists. split_and!; [done|done| |lia]. rewrite Hm. by constructor.
  - do 2 eexists. split_and!; [done|done| |lia]. rewrite <- (size_members p W). constructor.
  - do 2 eexists. split_and!; [done|done| |lia]. destruct (visit_spec fn (plist p)) as (rest & El & Hr).
    unfold Range. apply (S_Range _ _ _ rest); [rewrite <- El; by apply wf_NoDup|by rewrite <- El|done].
  - do 2 eexists. split_and!; [done|apply (Build_wf (mkPool _ _ _ _ _)); [exact (wf_idx _ pool_wf_New)|unfold len; cbn; lia]| |unfold len; cbn; lia].
    apply S_Clear; destruct clean; [by apply wf_NoDup|constructor|done|done].
Qed.

Lemma run_ops_ok ops : forall p, wf p -> len p + Z.of_nat (length ops) <= 2 ^ 63 ->
  exists answers p', run_ops ops p = Some (answers, p') /\ wf p' /\ set_run ops (members p) answers (members p').
Proof.
  induction ops as [|o ops IH]; intros p W Hn; cbn [run_ops].
  - do 2 eexists. split_and!; [done|done|constructor].
  - cbn [length] in Hn. destruct (run_op_ok o p W) as (a & p1 & -> & W1 & Hs & Hl); [lia|].
    destruct (IH p1 W1) as (answers & p2 & Hr & W2 & Hrun); [lia|]. cbn. rewrite Hr.
    do 2 eexists. split_and!; [done|done|]. by econstructor.
Qed.

(** A pool behaves as a set through every history of calls: no call indexes outside
    the slice; membership, size and the values that Range and Clear hand out are those of
    the set; Pop, Peek, Dequeue, Front, Next and Random return a member exactly when there
    is one; and the values Pop and Dequeue return are the ones that leave. *)
Theorem pool_refines ops : Z.of_nat (length ops) <= 2 ^ 63 ->
  exists answers p, run_ops ops New = Some (answers, p) /\ set_run ops ∅ answers (members p).
Proof.
  intros Hn. destruct (run_ops_ok ops New pool_wf_New) as (answers & p & ? & _ & ?); [exact Hn|]. eauto.
Qed.

(** Round robin: as many calls of Next as there are values visit each value, until the
    counter is reset. *)
Fixpoint nexts (n : nat) (p : Pool) : option (list T) :=
  match n with
  | O => Some []
  | S n => '(v, p) ← Next p; v ← v; l ← nexts n p; Some (v :: l)
  end.

Lemma Next_at p : 0 <= rr p < 2 ^ 60 -> 0 < len p ->
  exists v, at_ (plist p) (rr p mod len p) = Some v /\
    Next p = Some (Some v, mkPool (rr p + 1) (rnd p) (head p) (plist p) (idx p)).
Proof.
  intros Hr Hp. destruct (index_member p (rr p mod len p)) as (v & Hv & _); [by apply Z.mod_pos_bound|].
  exists v. split; [done|]. unfold Next. destruct (Z.ltb_spec 0 (len p)); [|lia].
  unfold u64. rewrite (wrap_small 64 (rr p + 1)) by (unfold is_uint; lia).
  rewrite wrap_small by (unfold is_uint; lia). replace (rr p + 1 - 1) with (rr p) by lia.
  destruct (Z.ltb_spec (2 ^ 60) (rr p)); [lia|]. by rewrite Hv.
Qed.

Lemma nexts_visit n : forall p, 0 < len p -> 0 <= rr p -> rr p + Z.of_nat n <= 2 ^ 60 ->
  exists l, nexts n p = Some l /\ length l = n /\
    forall k, 0 <= k < Z.of_nat n -> at_ l k = at_ (plist p) ((rr p + k) mod len p).
Proof.
  induction n as [|n IH]; intros p Hp Hr Hn; cbn [nexts].
  - exists []. split_and!; [done|done|lia].
  - destruct (Next_at p) as (v & Hv & ->); [lia|done|]. cbn.
    destruct (IH (mkPool (rr p + 1) (rnd p) (head p) (plist p) (idx p))) as (l & -> & Hl & Hk); [done|cbn; lia|cbn; lia|].
    exists (v :: l). split_and!; [done|cbn; lia|]. intros k Hkn. destruct (decide (k = 0)) as [->|Hk0].
    + by rewrite Z.add_0_r, Hv.
    + replace k with (k - 1 + 1) at 1 by lia. transitivity (at_ l (k - 1)).
      * unfold at_. destruct (Z.ltb_spec (k - 1 + 1) 0), (Z.ltb_spec (k - 1) 0); try lia.
        by replace (Z.to_nat (k - 1 + 1)) with (S (Z.to_nat (k - 1))) by lia.
      * rewrite Hk by lia. cbn. by replace (rr p + 1 + (k - 1)) with (rr p + k) by lia.
Qed.

Lemma next_is_fair p : 0 < len p -> 0 <= rr p -> rr p + len p <= 2 ^ 60 ->
  exists l, nexts (length (plist p)) p = Some l /\ forall v, v ∈ members p -> v ∈ l.
Proof.
  intros Hp Hr Hn. destruct (nexts_visit (length (plist p)) p Hp Hr Hn) as (l & Hl & _ & Hk).
  exists l. split; [done|]. intros v [i Hi]%elem_of_members. apply at_elem.
  pose proof (at_lt _ _ _ Hi) as Hil. fold (len p) in Hil.
  pose proof (Z.mod_pos_bound (i - rr p) (len p) Hp) as Hb. exists ((i - rr p) mod len p).
  rewrite Hk by (fold (len p); lia). rewrite Zplus_mod_idemp_r. replace (rr p + (i - rr p)) with i by lia.
  by rewrite Z.mod_small.
Qed.
End Pool.
Arguments pool_op T : clear implicits.

Lemma pool_refines_witness :
  exists answers p, run_ops [PAdd 1; PAdd 2; PAdd 3; PDequeue; PHas 1; PNext; PSize] New = Some (answers, p) /\
    answers = [AUnit; AUnit; AUnit; AValue (Some 1); ABool false; AValue (Some 3); ASize 2].
Proof.
  destruct (pool_refines (T := Z) [PAdd 1; PAdd 2; PAdd 3; PDequeue; PHas 1; PNext; PSize]) as (answers & p & H & _).
  - cbn. lia.
  - exists answers, p. split; [exact H|]. vm_compute in H. by injection H as <- _.
Defined.
