(* ===== verification/Authorization.v ===== *)
(** Who may do what in the management interface: principals and their normalisation,
    permissions, and the access of a principal to clients, tunnels and hosts.

    Sources: [web/service/authorization.go], [web/service/repository.go] (ownership),
    [lib/file/obj_user_client_runtime.go] (the owner and managers of a client).

    Attributes are a finite map; nil and the empty map, which the code never tells apart
    when it reads them, are both the empty map.  The order in which Go walks the map is
    the argument [walk].  The permission resolver and the repository are the default
    ones; the tables of tunnels and hosts give the client of each id. *)

From S2P Require Import Prelude GoString GoStrconv.
Local Open Scope string_scope.
Local Open Scope list_scope.
Local Open Scope Z_scope.

Definition RoleAnonymous := "anonymous".
Definition RoleAdmin := "admin".
Definition RoleClient := "client".
Definition RoleUser := "user".

Definition PermissionAll := "*".
Definition PermissionManagementAdmin := "management:admin".
Definition PermissionClientsCreate := "clients:create".
Definition PermissionClientsRead := "clients:read".
Definition PermissionClientsUpdate := "clients:update".
Definition PermissionClientsDelete := "clients:delete".
Definition PermissionClientsStatus := "clients:status".
Definition PermissionTunnelsCreate := "tunnels:create".
Definition PermissionTunnelsRead := "tunnels:read".
Definition PermissionTunnelsUpdate := "tunnels:update".
Definition PermissionTunnelsDelete := "tunnels:delete".
Definition PermissionTunnelsControl := "tunnels:control".
Definition PermissionHostsCreate := "hosts:create".
Definition PermissionHostsRead := "hosts:read".
Definition PermissionHostsUpdate := "hosts:update".
Definition PermissionHostsDelete := "hosts:delete".
Definition PermissionHostsControl := "hosts:control".
Definition PermissionGlobalManage := "global:manage".

Record Principal := mkPrincipal {
  Authenticated : bool; Kind : string; SubjectID : string; Username : string; IsAdmin : bool;
  ClientIDs : list Z; Roles : list string; Permissions : list string; Attributes : gmap string string
}.

(** ** Lists without repetitions *)

(** The loops that skip what is not wanted and what was [seen] before. *)
Fixpoint unique {A} `{Countable A} (wanted : A -> bool) (seen : gset A) (l : list A) : list A :=
  match l with
  | [] => []
  | x :: l => if wanted x && negb (bool_decide (x ∈ seen)) then x :: unique wanted ({[x]} ∪ seen) l
              else unique wanted seen l
  end.

Definition nonempty (s : string) : bool := negb (bool_decide (s = "")).

Definition normalizePrincipalClientIDs (clientIDs : list Z) : list Z := unique (fun id => 0 <? id) ∅ clientIDs.

Definition normalizePrincipalStrings (values : list string) : list string :=
  unique nonempty ∅ (TrimSpace <$> values).

Definition containsString (values : list string) (target : string) : bool := bool_decide (target ∈ values).

(** ** Permissions *)

Definition DefaultRolePermissions (role : string) : list string :=
  let role := TrimSpace role in
  if decide (role = RoleAdmin) then [PermissionAll; PermissionManagementAdmin; PermissionGlobalManage]
  else if decide (role = RoleClient) then
    [PermissionClientsRead; PermissionTunnelsCreate; PermissionTunnelsRead; PermissionTunnelsUpdate;
     PermissionTunnelsDelete; PermissionTunnelsControl; PermissionHostsCreate; PermissionHostsRead;
     PermissionHostsUpdate; PermissionHostsDelete; PermissionHostsControl]
  else if decide (role = RoleUser) then
    [PermissionClientsCreate; PermissionClientsRead; PermissionClientsUpdate; PermissionClientsDelete;
     PermissionClientsStatus; PermissionTunnelsCreate; PermissionTunnelsRead; PermissionTunnelsUpdate;
     PermissionTunnelsDelete; PermissionTunnelsControl; PermissionHostsCreate; PermissionHostsRead;
     PermissionHostsUpdate; PermissionHostsDelete; PermissionHostsControl]
  else [].

(** [strings.TrimSuffix(granted, "*")] for a string that ends in a star. *)
Fixpoint drop_last (s : string) : string :=
  match s with
  | EmptyString => EmptyString
  | String _ EmptyString => EmptyString
  | String c s => String c (drop_last s)
  end.

Definition matchPermission (granted required : string) : bool :=
  let granted := TrimSpace granted in
  if decide (granted = "") then false
  else if bool_decide (granted = PermissionAll) || bool_decide (granted = required) then true
  else if HasSuffix granted "*" then HasPrefix required (drop_last granted)
  else false.

Definition permissionSetAllows (granted : list string) (required : string) : bool :=
  let required := TrimSpace required in
  if decide (required = "") then true else existsb (fun p => matchPermission p required) granted.

Definition normalizePermissionSet (isAdmin : bool) (roles explicit : list string) : list string :=
  let permissions := normalizePrincipalStrings explicit in
  let permissions := permissions ++
    unique nonempty (list_to_set permissions) (TrimSpace <$> mjoin (DefaultRolePermissions <$> roles)) in
  if isAdmin && negb (bool_decide (PermissionAll ∈ permissions)) then permissions ++ [PermissionAll] else permissions.

(** ** Principals *)

Definition trim_keys (order : list (string * string)) : gmap string string :=
  foldl (fun copied kv => <[TrimSpace (fst kv) := snd kv]> copied) ∅ order.

Definition anonymous : Principal := mkPrincipal false "anonymous" "" "" false [] [RoleAnonymous] [] ∅.

Section Resolver.
Variable walk : gmap string string -> list (string * string).

Definition NormalizePrincipal (principal : Principal) : Principal :=
  let kind := TrimSpace (Kind principal) in
  let subjectID := TrimSpace (SubjectID principal) in
  let username := TrimSpace (Username principal) in
  let clientIDs := normalizePrincipalClientIDs (ClientIDs principal) in
  let roles := normalizePrincipalStrings (Roles principal) in
  let permissions := normalizePrincipalStrings (Permissions principal) in
  let attributes := trim_keys (walk (Attributes principal)) in
  let admin := IsAdmin principal || containsString roles RoleAdmin || permissionSetAllows permissions PermissionManagementAdmin in
  let kind := if admin && bool_decide (kind = "") then "admin" else kind in
  let authenticated := admin || Authenticated principal || nonempty subjectID || nonempty username ||
                       negb (bool_decide (clientIDs = [])) in
  if negb authenticated then anonymous
  else
    let roles := if decide (roles = [])
                 then if admin then [RoleAdmin] else if decide (kind = "client") then [RoleClient] else [RoleUser]
                 else roles in
    let kind := if decide (kind = "")
                then if admin then "admin" else if containsString roles RoleClient then "client" else "user"
                else kind in
    mkPrincipal true kind subjectID username admin clientIDs roles
      (normalizePermissionSet admin roles permissions) attributes.

(** The identity kept in a session; its provider and version are left out. *)
Definition NormalizeIdentity (identity : Principal) : Principal :=
  if negb (Authenticated identity) then anonymous
  else NormalizePrincipal (mkPrincipal (Authenticated identity) (Kind identity) (SubjectID identity) (Username identity)
    (IsAdmin identity) (normalizePrincipalClientIDs (ClientIDs identity)) (Roles identity) (Permissions identity)
    (Attributes identity)).

(** ** Access *)

Inductive access_err := ErrUnauthenticated | ErrForbidden.

Definition Allows (principal : Principal) (permission : string) : bool :=
  let normalized := NormalizePrincipal principal in
  if negb (Authenticated normalized) then false else permissionSetAllows (Permissions normalized) permission.

Record ClientScope := mkScope { All : bool; PrimaryClientID : Z; scope_ClientIDs : list Z }.

Definition clientScope (principal : Principal) : ClientScope :=
  let normalized := NormalizePrincipal principal in
  mkScope (Allows normalized PermissionManagementAdmin)
    (default 0 (head (filter (fun id => 0 < id) (ClientIDs normalized)))) (ClientIDs normalized).

Definition canAccessClient (principal : Principal) (clientID : Z) : bool :=
  if clientID <=? 0 then false
  else if Allows principal PermissionManagementAdmin then true
  else bool_decide (clientID ∈ ClientIDs principal).

Definition ResolveClient (principal : Principal) (requestedClientID : Z) : access_err + Z :=
  let normalized := NormalizePrincipal principal in
  if negb (Authenticated normalized) then inl ErrUnauthenticated
  else if Allows normalized PermissionManagementAdmin then inr requestedClientID
  else if 0 <? requestedClientID then
    if canAccessClient normalized requestedClientID then inr requestedClientID else inl ErrForbidden
  else
    let scope := clientScope normalized in
    if decide (scope_ClientIDs scope = []) then inl ErrForbidden
    else if (0 <? PrimaryClientID scope) && (length (scope_ClientIDs scope) =? 1)%nat then inr (PrimaryClientID scope)
    else inr 0.

Definition RequirePermission (principal : Principal) (permission : string) : access_err + unit :=
  let normalized := NormalizePrincipal principal in
  if negb (Authenticated normalized) then inl ErrUnauthenticated
  else if Allows normalized permission then inr tt else inl ErrForbidden.

Definition RequireAdmin (principal : Principal) : access_err + unit :=
  RequirePermission principal PermissionManagementAdmin.

Definition RequireClient (principal : Principal) (clientID : Z) : access_err + unit :=
  let normalized := NormalizePrincipal principal in
  if negb (Authenticated normalized) then inl ErrUnauthenticated
  else if canAccessClient normalized clientID then inr tt else inl ErrForbidden.

(** The table has the client of each stored tunnel or host, if it has one. *)
Definition ClientOwns (owner : gmap Z (option Z)) (clientID id : Z) : bool :=
  if (clientID <=? 0) || (id <=? 0) then false
  else match owner !! id with Some (Some c) => c =? clientID | _ => false end.

Record store := mkStore { tunnel_owner : gmap Z (option Z); host_owner : gmap Z (option Z) }.

Definition ClientOwnsTunnel (st : store) : Z -> Z -> bool := ClientOwns (tunnel_owner st).
Definition ClientOwnsHost (st : store) : Z -> Z -> bool := ClientOwns (host_owner st).

(** The two methods below differ in their table only. *)
Definition RequireOwned (owns : Z -> Z -> bool) (principal : Principal) (id : Z) : access_err + unit :=
  let normalized := NormalizePrincipal principal in
  if negb (Authenticated normalized) then inl ErrUnauthenticated
  else if Allows normalized PermissionManagementAdmin then inr tt
  else if existsb (fun clientID => owns clientID id) (ClientIDs normalized) then inr tt
  else inl ErrForbidden.

Definition RequireTunnel (st : store) := RequireOwned (ClientOwnsTunnel st).
Definition RequireHost (st : store) := RequireOwned (ClientOwnsHost st).

Record ProtectedActionAccessInput := mkInput {
  in_Principal : Principal; in_Permission : string; in_ClientScope : bool; in_Ownership : string;
  RequestedClientID : Z; ResourceID : Z
}.

(** The client id is the [ResolvedClientID] of the result. *)
Definition ResolveProtectedActionAccess (st : store) (input : ProtectedActionAccessInput) : access_err + Z :=
  let p := in_Principal input in
  match (if decide (TrimSpace (in_Permission input) = "") then inr tt
         else RequirePermission p (TrimSpace (in_Permission input))) with
  | inl err => inl err
  | inr _ =>
    match (if in_ClientScope input then ResolveClient p (RequestedClientID input) else inr 0) with
    | inl err => inl err
    | inr resolved =>
      if ResourceID input <=? 0 then inr resolved
      else
        let ownership := ToLower (TrimSpace (in_Ownership input)) in
        let checked :=
          if decide (ownership = "client") then RequireClient p (ResourceID input)
          else if decide (ownership = "tunnel") then RequireTunnel st p (ResourceID input)
          else if decide (ownership = "host") then RequireHost st p (ResourceID input)
          else inr tt in
        match checked with inl err => inl err | inr _ => inr resolved end
    end
  end.

(** ** Scopes of node control *)

Definition principalAttributeValue (p : Principal) (key : string) : string :=
  TrimSpace (default "" (Attributes p !! TrimSpace key)).

Definition principalAttributeIntValue (p : Principal) (key : string) : Z :=
  let value := principalAttributeValue p key in
  if decide (value = "") then 0
  else match Atoi value with
       | Some parsed => if parsed <=? 0 then 0 else parsed
       | None => 0
       end.

Definition principalSourceType (p : Principal) : string :=
  let kind := TrimSpace (Kind p) in
  if decide (kind = "platform_admin") then "platform_admin"
  else if decide (kind = "platform_user") then "platform_user"
  else if decide (kind = "admin") then "node_admin"
  else if decide (kind = "client") then "node_client"
  else if decide (kind = "user") then "node_user"
  else kind.

Record principalContext := mkContext {
  ctx_Principal : Principal; ctx_Kind : string; PlatformID : string; PlatformActorID : string;
  UserID : Z; ServiceUserID : Z; SourceType : string
}.

Definition resolvePrincipalContext (principal : Principal) : principalContext :=
  let normalized := NormalizePrincipal principal in
  mkContext normalized (TrimSpace (Kind normalized)) (principalAttributeValue normalized "platform_id")
    (principalAttributeValue normalized "platform_actor_id") (principalAttributeIntValue normalized "user_id")
    (principalAttributeIntValue normalized "platform_service_user_id") (principalSourceType normalized).

Record NodeAccessScope := mkNodeScope {
  actorKind : string; full : bool; accountWide : bool; platformID : string; serviceUserID : Z; userID : Z;
  allowedClientIDs : gset Z
}.

Definition ResolveNodeAccessScope (principal : Principal) : NodeAccessScope :=
  let context := resolvePrincipalContext principal in
  let normalized := ctx_Principal context in
  mkNodeScope (ctx_Kind context) (IsAdmin normalized)
    (negb (IsAdmin normalized) && bool_decide (ctx_Kind context = "platform_admin"))
    (PlatformID context) (ServiceUserID context) (UserID context)
    (list_to_set (filter (fun id => 0 < id) (ClientIDs normalized))).
End Resolver.

Definition is_kind (s : NodeAccessScope) (kind : string) : bool := bool_decide (actorKind s = kind).

Definition CanViewStatus (s : NodeAccessScope) : bool := full s || is_kind s "platform_admin" || is_kind s "platform_user".
Definition IsFullAccess (s : NodeAccessScope) : bool := full s.
Definition CanViewUsage (s : NodeAccessScope) : bool :=
  full s || is_kind s "platform_admin" || is_kind s "platform_user" || is_kind s "user" || is_kind s "client".
Definition CanExportConfig (s : NodeAccessScope) : bool := full s.
Definition CanSync (s : NodeAccessScope) : bool := full s.
Definition CanWriteTraffic (s : NodeAccessScope) : bool := full s.
Definition CanViewCallbackQueue (s : NodeAccessScope) : bool := full s || accountWide s.
Definition CanManageCallbackQueue (s : NodeAccessScope) : bool := full s || accountWide s.

(** The fields of a client that decide who manages it. *)
Record Client := mkClient { Id : Z; OwnerUserID : Z; UserId : Z; ManagerUserIDs : list Z }.

Definition OwnerID (c : Client) : Z := if 0 <? OwnerUserID c then OwnerUserID c else UserId c.

Definition CanBeManagedByUser (c : Client) (userID : Z) : bool :=
  if userID <=? 0 then false
  else if OwnerID c =? userID then true else bool_decide (userID ∈ ManagerUserIDs c).

(** A nil client is [None]. *)
Definition AllowsClient (s : NodeAccessScope) (client : option Client) : bool :=
  match client with
  | None => false
  | Some client =>
    let listed := bool_decide (Id client ∈ allowedClientIDs s) in
    if full s then true
    else if is_kind s "platform_admin" then (0 <? serviceUserID s) && (OwnerID client =? serviceUserID s)
    else if is_kind s "platform_user" then
      if (0 <? serviceUserID s) && negb (OwnerID client =? serviceUserID s) then false
      else if decide (allowedClientIDs s = ∅) then false else listed
    else if is_kind s "user" then
      if 0 <? userID s then CanBeManagedByUser client (userID s)
      else if decide (allowedClientIDs s = ∅) then false else listed
    else if is_kind s "client" then if decide (allowedClientIDs s = ∅) then false else listed
    else false
  end.

Definition AllowsUser (s : NodeAccessScope) (user : option Z) : bool :=
  match user with
  | None => false
  | Some id =>
    if full s then true
    else if is_kind s "platform_admin" || is_kind s "platform_user" then (0 <? serviceUserID s) && (id =? serviceUserID s)
    else if is_kind s "user" then (0 <? userID s) && (id =? userID s)
    else false
  end.

Definition AllowsPlatform (s : NodeAccessScope) (platform : string) : bool :=
  let platform := TrimSpace platform in
  if decide (platform = "") then false
  else if full s then true
  else if is_kind s "platform_admin" || is_kind s "platform_user"
  then nonempty (platformID s) && bool_decide (platformID s = platform)
  else false.

(** ** Normalisation *)

Section Unique.
Context {A} `{Countable A}.
Implicit Types (wanted : A -> bool) (seen : gset A).

Lemma elem_of_unique wanted l : forall seen x, x ∈ unique wanted seen l <-> wanted x = true /\ x ∉ seen /\ x ∈ l.
Proof.
  induction l as [|y l IH]; intros seen x; cbn [unique]; [set_solver|].
  destruct (wanted y) eqn:Ew; cbn [andb]; [case_bool_decide; cbn [negb]|].
  - rewrite IH, elem_of_cons. split; [tauto|]. intros (? & ? & [->|?]); [done|tauto].
  - rewrite !elem_of_cons, IH, elem_of_union, elem_of_singleton.
    destruct (decide (x = y)) as [->|]; [naive_solver|naive_solver].
  - rewrite IH, elem_of_cons. split; [tauto|]. intros (? & ? & [->|?]); [congruence|tauto].
Qed.

Lemma NoDup_unique wanted l : forall seen, NoDup (unique wanted seen l).
Proof.
  induction l as [|y l IH]; intros seen; cbn [unique]; [constructor|].
  destruct (wanted y && _); [|done]. constructor; [|done]. rewrite elem_of_unique. set_solver.
Qed.

Lemma unique_id wanted l : forall seen, NoDup l -> (forall x, x ∈ l -> wanted x = true /\ x ∉ seen) -> unique wanted seen l = l.
Proof.
  induction l as [|y l IH]; intros seen Hnd Hl; [done|]. cbn [unique]. apply NoDup_cons in Hnd as [Hy Hnd].
  destruct (Hl y) as [-> Hs]; [by left|]. rewrite bool_decide_eq_false_2 by done. cbn. f_equal. apply IH; [done|].
  intros x Hx. destruct (Hl x) as [? ?]; [by right|]. split; [done|]. rewrite elem_of_union, elem_of_singleton.
  intros [->|?]; done.
Qed.

Lemma unique_none wanted l : forall seen, (forall x, x ∈ l -> x ∈ seen) -> unique wanted seen l = [].
Proof.
  induction l as [|y l IH]; intros seen Hl; [done|]. cbn [unique].
  rewrite bool_decide_eq_true_2 by (apply Hl; by left). rewrite andb_false_r. apply IH. intros x Hx. apply Hl. by right.
Qed.
End Unique.

(** What normalised lists of words are. *)
Definition tidy (l : list string) : Prop := NoDup l /\ forall x, x ∈ l -> x <> "" /\ TrimSpace x = x.

Lemma nonempty_true s : nonempty s = true <-> s <> "".
Proof. unfold nonempty. rewrite negb_true_iff, bool_decide_eq_false. done. Qed.

Lemma elem_of_normalized x l : x ∈ normalizePrincipalStrings l <-> x <> "" /\ exists y, y ∈ l /\ x = TrimSpace y.
Proof.
  unfold normalizePrincipalStrings. rewrite elem_of_unique, nonempty_true, list_elem_of_fmap.
  split; [intros (? & _ & y & ? & ?); eauto|intros (? & y & ? & ?)]. split_and!; [done|set_solver|eauto].
Qed.

Lemma tidy_normalized l : tidy (normalizePrincipalStrings l).
Proof.
  split; [apply NoDup_unique|]. intros x (? & y & _ & ->)%elem_of_normalized. split; [done|apply TrimSpace_idem].
Qed.

Lemma fmap_trim (l : list string) : (forall x, x ∈ l -> TrimSpace x = x) -> TrimSpace <$> l = l.
Proof.
  induction l as [|x l IH]; intros Hl; [done|]. cbn. rewrite (Hl x), IH by set_solver. done.
Qed.

Lemma normalize_tidy l : tidy l -> normalizePrincipalStrings l = l.
Proof.
  intros [Hnd Ht]. unfold normalizePrincipalStrings. rewrite fmap_trim by (intros; by apply Ht).
  apply unique_id; [done|]. intros x Hx. rewrite nonempty_true. split; [by apply Ht|set_solver].
Qed.

(** ** Administrators *)

(** The three ways a principal claims to be an administrator. *)
Definition admin_claim (p : Principal) : Prop :=
  IsAdmin p = true \/ RoleAdmin ∈ (TrimSpace <$> Roles p) \/
  exists granted, granted ∈ Permissions p /\ matchPermission granted PermissionManagementAdmin = true.

Lemma matchPermission_trim granted required : matchPermission (TrimSpace granted) required = matchPermission granted required.
Proof. unfold matchPermission. by rewrite TrimSpace_idem. Qed.

Lemma matchPermission_nonempty granted required : matchPermission granted required = true -> TrimSpace granted <> "".
Proof. unfold matchPermission. by destruct (decide (TrimSpace granted = "")). Qed.

Lemma allows_true granted required : TrimSpace required = required -> required <> "" ->
  permissionSetAllows granted required = true <-> exists g, g ∈ granted /\ matchPermission g required = true.
Proof.
  intros Ht Hne. unfold permissionSetAllows. rewrite Ht, decide_False by done. rewrite existsb_exists.
  split; intros (g & Hg & ?); exists g; (split; [|done]); by apply list_elem_of_In.
Qed.

Lemma allows_normalized l required : TrimSpace required = required -> required <> "" ->
  permissionSetAllows (normalizePrincipalStrings l) required = true <->
  exists g, g ∈ l /\ matchPermission g required = true.
Proof.
  intros Ht Hne. rewrite allows_true by done. split.
  - intros (g & (_ & y & Hy & ->)%elem_of_normalized & Hm). rewrite matchPermission_trim in Hm. eauto.
  - intros (g & Hg & Hm). exists (TrimSpace g). rewrite matchPermission_trim. split; [|done].
    apply elem_of_normalized. split; [by eapply matchPermission_nonempty|eauto].
Qed.

Lemma contains_role l role : role <> "" -> containsString (normalizePrincipalStrings l) role = true <-> role ∈ (TrimSpace <$> l).
Proof.
  intros Hr. unfold containsString. rewrite bool_decide_eq_true, elem_of_normalized, list_elem_of_fmap.
  split; [intros (_ & y & ? & ->); eauto|intros (y & -> & ?); eauto].
Qed.

(** No role but the administrator's gives the permission of an administrator. *)
Lemma role_not_admin role g : TrimSpace role <> RoleAdmin -> g ∈ DefaultRolePermissions role ->
  matchPermission (TrimSpace g) PermissionManagementAdmin = false.
Proof.
  intros Hr Hg. unfold DefaultRolePermissions in Hg. rewrite decide_False in Hg by done.
  repeat case_decide; [| |by apply not_elem_of_nil in Hg];
    repeat (apply elem_of_cons in Hg as [->|Hg]; [reflexivity|]); by apply not_elem_of_nil in Hg.
Qed.

(** Every permission of a role is a tidy word. *)
Lemma role_permission_tidy role g : g ∈ DefaultRolePermissions role -> g <> "" /\ TrimSpace g = g.
Proof.
  unfold DefaultRolePermissions. intros Hg.
  repeat case_decide; [| | |by apply not_elem_of_nil in Hg];
    repeat (apply elem_of_cons in Hg as [->|Hg]; [done|]); by apply not_elem_of_nil in Hg.
Qed.

Lemma elem_of_permission_set isAdmin roles explicit g : g ∈ normalizePermissionSet isAdmin roles explicit <->
  g ∈ normalizePrincipalStrings explicit \/ (exists role, role ∈ roles /\ g ∈ DefaultRolePermissions role) \/
  isAdmin = true /\ g = PermissionAll.
Proof.
  unfold normalizePermissionSet. set (perms := normalizePrincipalStrings explicit).
  assert (Hr : forall x, x ∈ perms ++ unique nonempty (list_to_set perms) (TrimSpace <$> mjoin (DefaultRolePermissions <$> roles)) <->
    x ∈ perms \/ exists role, role ∈ roles /\ x ∈ DefaultRolePermissions role).
  { intros x. rewrite elem_of_app, elem_of_unique, nonempty_true, elem_of_list_to_set, list_elem_of_fmap.
    setoid_rewrite list_elem_of_join. setoid_rewrite list_elem_of_fmap. split.
    - intros [?|(_ & _ & y & -> & l & Hy & role & -> & ?)]; [by left|right]. exists role.
      by rewrite (proj2 (role_permission_tidy role y Hy)).
    - intros [?|(role & ? & Hx)]; [by left|]. destruct (decide (x ∈ perms)); [by left|right].
      destruct (role_permission_tidy role x Hx) as [? Ht]. split_and!; [done|done|]. exists x. split; [done|]. eauto. }
  destruct isAdmin; cbn [andb]; [case_bool_decide as Ha; cbn [negb]|].
  - rewrite Hr in *. naive_solver.
  - rewrite elem_of_app, list_elem_of_singleton, Hr. naive_solver.
  - rewrite Hr. naive_solver.
Qed.

Lemma tidy_permission_set isAdmin roles explicit : tidy (normalizePermissionSet isAdmin roles explicit).
Proof.
  split.
  - unfold normalizePermissionSet. set (perms := normalizePrincipalStrings explicit).
    assert (NoDup (perms ++ unique nonempty (list_to_set perms) (TrimSpace <$> mjoin (DefaultRolePermissions <$> roles)))) as Hnd.
    { apply NoDup_app. split_and!; [apply tidy_normalized| |apply NoDup_unique].
      intros x Hx. rewrite elem_of_unique, elem_of_list_to_set. tauto. }
    destruct isAdmin; cbn [andb]; [|done]. case_bool_decide as Ha; cbn [negb]; [done|].
    apply NoDup_app. split_and!; [done|set_solver|apply NoDup_singleton].
  - intros x [Hx|[(role & _ & Hx)|[_ ->]]]%elem_of_permission_set; [|by eapply role_permission_tidy|done].
    by apply (tidy_normalized explicit).
Qed.

(** ** Normalising twice *)

(** A walk of a map lists its entries in some order. *)
Definition is_walk (walk : gmap string string -> list (string * string)) : Prop :=
  forall m, Permutation (walk m) (map_to_list m).

Definition trimmed (m : gmap string string) : Prop := forall k v, m !! k = Some v -> TrimSpace k = k.

Lemma trim_keys_snoc l kv : trim_keys (l ++ [kv]) = <[TrimSpace (fst kv) := snd kv]> (trim_keys l).
Proof. unfold trim_keys. by rewrite foldl_app. Qed.

Lemma trim_keys_trimmed l : trimmed (trim_keys l).
Proof.
  induction l as [|kv l IH] using rev_ind; intros k v; [change (trim_keys []) with (∅ : gmap string string); by rewrite lookup_empty|].
  rewrite trim_keys_snoc, lookup_insert_Some. intros [[<- _]|[_ ?]]; [apply TrimSpace_idem|eauto].
Qed.

Lemma trim_keys_lookup l k v : NoDup (l.*1) -> (forall kv, kv ∈ l -> TrimSpace (fst kv) = fst kv) ->
  trim_keys l !! k = Some v <-> (k, v) ∈ l.
Proof.
  induction l as [|[k' v'] l IH] using rev_ind; intros Hnd Ht;
    [change (trim_keys []) with (∅ : gmap string string); rewrite lookup_empty; set_solver|].
  rewrite fmap_app in Hnd. apply NoDup_app in Hnd as (Hnd & Hk' & _).
  rewrite trim_keys_snoc, lookup_insert_Some, elem_of_app, list_elem_of_singleton, IH by set_solver.
  cbn [fst snd] in *. pose proof (Ht (k', v') ltac:(set_solver)) as Hk. cbn [fst] in Hk. rewrite Hk. split; [naive_solver|].
  intros [Hl|[= -> ->]]; [|by left]. right. split; [|done]. intros ->. apply (Hk' k); [|set_solver].
  apply list_elem_of_fmap. by exists (k, v).
Qed.

Lemma trim_keys_id walk m : is_walk walk -> trimmed m -> trim_keys (walk m) = m.
Proof.
  intros Hw Hm. apply map_eq. intros k. apply option_eq. intros v. rewrite trim_keys_lookup.
  - by rewrite (Hw m), elem_of_map_to_list.
  - rewrite (Hw m). apply NoDup_fst_map_to_list.
  - intros [k' v'] Hkv. rewrite (Hw m), elem_of_map_to_list in Hkv. eauto.
Qed.

Lemma ids_idem l : normalizePrincipalClientIDs (normalizePrincipalClientIDs l) = normalizePrincipalClientIDs l.
Proof.
  unfold normalizePrincipalClientIDs. apply unique_id; [apply NoDup_unique|]. intros x. rewrite elem_of_unique. intros (? & ? & _). split; [done|set_solver].
Qed.

Lemma elem_of_ids x l : x ∈ normalizePrincipalClientIDs l <-> 0 < x /\ x ∈ l.
Proof. unfold normalizePrincipalClientIDs. rewrite elem_of_unique, Z.ltb_lt. set_solver. Qed.

(** A principal that normalising leaves alone. *)
Record normal (p : Principal) : Prop := {
  n_auth : Authenticated p = true;
  n_kind : Kind p <> "" /\ TrimSpace (Kind p) = Kind p;
  n_subject : TrimSpace (SubjectID p) = SubjectID p;
  n_user : TrimSpace (Username p) = Username p;
  n_ids : normalizePrincipalClientIDs (ClientIDs p) = ClientIDs p;
  n_roles : tidy (Roles p) /\ Roles p <> [];
  n_perms : exists explicit, Permissions p = normalizePermissionSet (IsAdmin p) (Roles p) explicit /\
    (IsAdmin p = false -> permissionSetAllows (normalizePrincipalStrings explicit) PermissionManagementAdmin = false);
  n_admin : IsAdmin p = false -> RoleAdmin ∉ Roles p;
  n_attrs : trimmed (Attributes p)
}.

Lemma perms_not_admin roles explicit : RoleAdmin ∉ roles -> tidy roles ->
  permissionSetAllows (normalizePrincipalStrings explicit) PermissionManagementAdmin = false ->
  permissionSetAllows (normalizePermissionSet false roles explicit) PermissionManagementAdmin = false.
Proof.
  intros Hr [_ Ht] He. apply not_true_is_false. rewrite allows_true by done.
  intros (g & [Hg|[(role & Hrole & Hg)|[? _]]]%elem_of_permission_set & Hm); [|by pose proof (role_permission_tidy _ _ Hg) as [_ Hg'];
    rewrite <- Hg', (role_not_admin role g) in Hm by (rewrite ?(proj2 (Ht role Hrole)); set_solver)|done].
  assert (permissionSetAllows (normalizePrincipalStrings explicit) PermissionManagementAdmin = true); [|congruence].
  apply allows_true; [done|done|eauto].
Qed.

Lemma permission_set_idem isAdmin roles explicit :
  normalizePermissionSet isAdmin roles (normalizePermissionSet isAdmin roles explicit) = normalizePermissionSet isAdmin roles explicit.
Proof.
  set (perms := normalizePermissionSet isAdmin roles explicit).
  unfold normalizePermissionSet at 1. rewrite (normalize_tidy perms) by apply tidy_permission_set.
  rewrite unique_none, app_nil_r.
  - destruct isAdmin; cbn [andb]; [|done]. rewrite bool_decide_eq_true_2; [done|].
    apply elem_of_permission_set. tauto.
  - intros x. rewrite list_elem_of_fmap. setoid_rewrite list_elem_of_join. setoid_rewrite list_elem_of_fmap.
    intros (y & -> & l & Hy & role & -> & ?). rewrite (proj2 (role_permission_tidy role y Hy)), elem_of_list_to_set.
    apply elem_of_permission_set. eauto.
Qed.

Definition claims (p : Principal) : bool :=
  IsAdmin p || containsString (normalizePrincipalStrings (Roles p)) RoleAdmin ||
  permissionSetAllows (normalizePrincipalStrings (Permissions p)) PermissionManagementAdmin.

Lemma claims_spec p : claims p = true <-> admin_claim p.
Proof.
  unfold claims, admin_claim. rewrite !orb_true_iff, contains_role, allows_normalized by done. tauto.
Qed.

(** What a principal normalises to. *)
Lemma normalize_fields walk p (n := NormalizePrincipal walk p) :
  n = anonymous /\ claims p = false \/
  Authenticated n = true /\ IsAdmin n = claims p /\ ClientIDs n = normalizePrincipalClientIDs (ClientIDs p) /\
  Attributes n = trim_keys (walk (Attributes p)) /\
  Permissions n = normalizePermissionSet (claims p) (Roles n) (normalizePrincipalStrings (Permissions p)) /\
  (Roles n = normalizePrincipalStrings (Roles p) /\ Roles n <> [] \/
   normalizePrincipalStrings (Roles p) = [] /\
   (claims p = true /\ Roles n = [RoleAdmin] \/ claims p = false /\ (Roles n = [RoleClient] \/ Roles n = [RoleUser]))) /\
  Kind n <> "" /\ TrimSpace (Kind n) = Kind n /\ SubjectID n = TrimSpace (SubjectID p) /\ Username n = TrimSpace (Username p).
Proof.
  unfold n, NormalizePrincipal. fold (claims p).
  set (auth := claims p || Authenticated p || _ || _ || _). destruct auth eqn:Ea; cbn [negb].
  - right. cbn [Authenticated IsAdmin ClientIDs Attributes Permissions Roles Kind SubjectID Username].
    split_and!; try done.
    + destruct (decide (normalizePrincipalStrings (Roles p) = [])); [right|by left]. split; [done|].
      destruct (claims p); [by left|right; split; [done|]]. case_decide; tauto.
    + destruct (claims p); cbn [andb]; repeat case_bool_decide; repeat case_decide; try done;
        by destruct (containsString _ _).
    + destruct (claims p); cbn [andb]; repeat case_bool_decide; repeat case_decide; try done;
        try apply TrimSpace_idem; by destruct (containsString _ _).
  - left. split; [done|]. unfold auth in Ea. destruct (claims p); [done|done].
Qed.

Lemma normalize_normal walk p : Authenticated (NormalizePrincipal walk p) = true -> normal (NormalizePrincipal walk p).
Proof.
  intros Ha. destruct (normalize_fields walk p) as [[E _]|(_ & Had & Hids & Hat & Hp & Hr & Hk & Hk' & Hs & Hu)].
  { rewrite E in Ha. done. }
  set (n := NormalizePrincipal walk p) in *.
  assert (Hnr : claims p = false -> RoleAdmin ∉ normalizePrincipalStrings (Roles p)).
  { unfold claims. intros [[_ Hc]%orb_false_iff _]%orb_false_iff. by apply bool_decide_eq_false in Hc. }
  split; try done.
  - by rewrite Hs, TrimSpace_idem.
  - by rewrite Hu, TrimSpace_idem.
  - by rewrite Hids, ids_idem.
  - destruct Hr as [[-> Hne]|[_ [[_ ->]|[_ [-> | ->]]]]]; (split; [|done]); [apply tidy_normalized|..];
      (split; [apply NoDup_singleton|intros x ->%list_elem_of_singleton; done]).
  - exists (normalizePrincipalStrings (Permissions p)). rewrite Had. split; [done|].
    unfold claims. intros [_ Hc]%orb_false_iff. by rewrite normalize_tidy by apply tidy_normalized.
  - rewrite Had. intros Hc. destruct Hr as [[-> _]|[_ [[? _]|[_ [-> | ->]]]]]; [auto|congruence|..];
      by intros ?%list_elem_of_singleton.
  - rewrite Hat. apply trim_keys_trimmed.
Qed.

Lemma normal_claims p : normal p -> claims p = IsAdmin p.
Proof.
  intros [_ _ _ _ _ [Hr _] (explicit & Hp & He) Hna _]. unfold claims. destruct (IsAdmin p) eqn:Ea; [done|]. cbn [orb].
  rewrite (normalize_tidy (Roles p)) by done. unfold containsString. rewrite bool_decide_eq_false_2 by auto. cbn [orb].
  rewrite Hp, normalize_tidy by apply tidy_permission_set. apply perms_not_admin; auto.
Qed.

Lemma normal_fixed walk p : is_walk walk -> normal p -> NormalizePrincipal walk p = p.
Proof.
  intros Hw Hn. pose proof (normal_claims p Hn) as Hc.
  destruct Hn as [Ha [Hk Hk'] Hs Hu Hi [Hr Hr'] (explicit & Hp & He) Hna Hat].
  unfold NormalizePrincipal. fold (claims p). rewrite Hc, Ha, Hk', Hs, Hu, Hi, (trim_keys_id walk) by done.
  rewrite orb_true_r, !orb_true_l. cbn [negb]. rewrite (bool_decide_eq_false_2 (Kind p = "")), andb_false_r by done.
  rewrite (normalize_tidy (Roles p)) by done. rewrite !decide_False by done.
  rewrite Hp, (normalize_tidy (normalizePermissionSet _ _ _)), permission_set_idem by apply tidy_permission_set.
  rewrite <- Hp. destruct p; cbn in *. by subst.
Qed.

(** ** Access, as a specification *)

Definition identified (p : Principal) : Prop :=
  admin_claim p \/ Authenticated p = true \/ TrimSpace (SubjectID p) <> "" \/ TrimSpace (Username p) <> "" \/
  exists c, 0 < c /\ c ∈ ClientIDs p.

(** The roles of a principal without any: a client's or a user's. *)
Definition roles_of (p : Principal) : list string :=
  if decide (normalizePrincipalStrings (Roles p) = [])
  then [if decide (TrimSpace (Kind p) = "client") then RoleClient else RoleUser]
  else normalizePrincipalStrings (Roles p).

Definition holds (p : Principal) (permission : string) : Prop :=
  exists g, matchPermission g permission = true /\
    (g ∈ Permissions p \/ exists role, role ∈ roles_of p /\ g ∈ DefaultRolePermissions role).

Definition may (p : Principal) (permission : string) : Prop := admin_claim p \/ identified p /\ holds p permission.

(** The clients an ordinary principal may name; without a name, it must have some. *)
Definition may_scope (p : Principal) (requested : Z) : Prop :=
  admin_claim p \/ if decide (0 < requested) then requested ∈ ClientIDs p else exists c, 0 < c /\ c ∈ ClientIDs p.

Definition may_own (owner : gmap Z (option Z)) (p : Principal) (id : Z) : Prop :=
  admin_claim p \/ exists c, 0 < c /\ c ∈ ClientIDs p /\ owner !! id = Some (Some c).

Definition may_touch (st : store) (p : Principal) (ownership : string) (id : Z) : Prop :=
  let ownership := ToLower (TrimSpace ownership) in
  if decide (ownership = "client") then admin_claim p \/ id ∈ ClientIDs p
  else if decide (ownership = "tunnel") then may_own (tunnel_owner st) p id
  else if decide (ownership = "host") then may_own (host_owner st) p id
  else True.

(** The client the request is about afterwards. *)
Definition scoped_client (p : Principal) (requested : Z) : Z :=
  if decide (claims p = true \/ 0 < requested) then requested
  else match normalizePrincipalClientIDs (ClientIDs p) with [c] => c | _ => 0 end.

Section Facts.
Variable walk : gmap string string -> list (string * string).
Hypothesis Hwalk : is_walk walk.
Notation N := (NormalizePrincipal walk).

Lemma normalize_again walk' p : is_walk walk' -> NormalizePrincipal walk' (N p) = N p.
Proof using.
  intros Hw'. destruct (Authenticated (N p)) eqn:Ha; [by apply normal_fixed; [|apply normalize_normal]|].
  destruct (normalize_fields walk p) as [[-> _]|[? _]]; [done|congruence].
Qed.

Lemma authenticated_spec p : Authenticated (N p) = true <-> identified p.
Proof using.
  unfold identified. rewrite <- claims_spec. unfold NormalizePrincipal. fold (claims p).
  assert (Hids : negb (bool_decide (normalizePrincipalClientIDs (ClientIDs p) = [])) = true <-> exists c, 0 < c /\ c ∈ ClientIDs p).
  { rewrite negb_true_iff, bool_decide_eq_false. setoid_rewrite <- elem_of_ids. split.
    - intros Hne. destruct (normalizePrincipalClientIDs _) as [|c l] eqn:E; [done|]. exists c. by left.
    - intros (c & Hc) E. rewrite E in Hc. by apply not_elem_of_nil in Hc. }
  rewrite <- !nonempty_true, <- Hids.
  destruct (claims p), (Authenticated p), (nonempty (TrimSpace (SubjectID p))), (nonempty (TrimSpace (Username p))),
    (negb (bool_decide (normalizePrincipalClientIDs (ClientIDs p) = []))); cbn; intuition congruence.
Qed.

Lemma admin_identified p : admin_claim p -> identified p.
Proof using. by left. Qed.

Lemma roles_normalized p : Authenticated (N p) = true -> claims p = false -> Roles (N p) = roles_of p.
Proof using.
  unfold NormalizePrincipal, roles_of. fold (claims p). intros Ha Hc. rewrite Hc in *.
  destruct (_ || _); [|done]. cbn [negb Roles andb]. by repeat case_decide.
Qed.

Lemma Allows_again p permission : Allows walk (N p) permission = Allows walk p permission.
Proof. unfold Allows. by rewrite normalize_again. Qed.

Lemma Allows_spec p permission : TrimSpace permission = permission -> permission <> "" ->
  Allows walk p permission = true <-> may p permission.
Proof using.
  intros Ht Hne. unfold Allows, may. rewrite <- (authenticated_spec p), <- claims_spec.
  destruct (normalize_fields walk p) as [[E Hc]|(Ha & Had & _ & _ & Hp & Hr & _)].
  { rewrite E, Hc. cbn. naive_solver. }
  rewrite Ha. cbn [negb]. rewrite allows_true, Hp by done. setoid_rewrite elem_of_permission_set.
  rewrite (normalize_tidy (normalizePrincipalStrings _)) by apply tidy_normalized.
  destruct (claims p) eqn:Hc.
  - split; [by left|]. intros _. exists PermissionAll. split; [tauto|done].
  - rewrite (roles_normalized p Ha Hc). unfold holds. split.
    + intros (g & [(_ & y & Hy & ->)%elem_of_normalized|[?|[? _]]] & Hm); [|right; eauto|done].
      rewrite matchPermission_trim in Hm. right. eauto.
    + intros [?|(_ & g & Hm & [Hg|?])]; [done| |exists g; tauto].
      exists (TrimSpace g). rewrite matchPermission_trim. split; [left|done].
      apply elem_of_normalized. split; [by eapply matchPermission_nonempty|eauto].
Qed.

Lemma Allows_admin p : Allows walk p PermissionManagementAdmin = claims p.
Proof using.
  apply eq_bool_prop_intro. split; intros H%Is_true_true; apply Is_true_true; revert H.
  - rewrite Allows_spec, claims_spec by done. intros [?|(_ & g & Hm & Hg)]; [done|]. destruct Hg as [?|(role & Hrole & Hg)]; [right; right; eauto|].
    destruct (decide (TrimSpace role = RoleAdmin)) as [Hr|Hr].
    + right; left. unfold roles_of in Hrole. case_decide.
      * apply list_elem_of_singleton in Hrole as ->. by case_decide.
      * apply elem_of_normalized in Hrole as (_ & y & ? & ->). rewrite TrimSpace_idem in Hr.
        apply list_elem_of_fmap. eauto.
    + pose proof (proj2 (role_permission_tidy role g Hg)) as Hg'. rewrite <- Hg', (role_not_admin role g) in Hm by done. done.
  - intros Hc. apply Allows_spec; [done|done|]. left. by apply claims_spec.
Qed.

Lemma RequirePermission_spec p permission : TrimSpace permission = permission -> permission <> "" ->
  RequirePermission walk p permission = inr tt <-> may p permission.
Proof.
  intros Ht Hne. unfold RequirePermission. rewrite Allows_again, <- (Allows_spec p) by done.
  unfold Allows at 2. destruct (Authenticated (N p)) eqn:Ha; cbn [negb]; [|done].
  unfold Allows. rewrite Ha. cbn [negb]. by destruct (permissionSetAllows _ _).
Qed.

Lemma canAccessClient_spec p id : 0 < id -> canAccessClient walk (N p) id = true <-> admin_claim p \/ id ∈ ClientIDs p.
Proof.
  intros Hid. unfold canAccessClient. destruct (Z.leb_spec id 0); [lia|]. rewrite Allows_again, Allows_admin, <- claims_spec.
  destruct (claims p) eqn:Hc; [tauto|]. rewrite bool_decide_eq_true.
  destruct (normalize_fields walk p) as [[E _]|(_ & _ & -> & _)]; [|rewrite elem_of_ids; naive_solver].
  rewrite E. cbn. split; [set_solver|]. intros [?|Hin]; [done|]. exfalso.
  assert (identified p) as Hi by (do 4 right; eauto). apply authenticated_spec in Hi. by rewrite E in Hi.
Qed.

Lemma RequireClient_spec p id : 0 < id -> RequireClient walk p id = inr tt <-> admin_claim p \/ id ∈ ClientIDs p.
Proof.
  intros Hid. unfold RequireClient. rewrite <- canAccessClient_spec by done.
  destruct (Authenticated (N p)) eqn:Ha; cbn [negb]; [by destruct (canAccessClient walk (N p) id)|].
  split; [done|]. rewrite canAccessClient_spec by done. intros H.
  assert (identified p) as Hi by (destruct H as [?|?]; [by left|do 4 right; eauto]). apply authenticated_spec in Hi. congruence.
Qed.

Lemma ClientOwns_spec owner c id : ClientOwns owner c id = true <-> 0 < c /\ 0 < id /\ owner !! id = Some (Some c).
Proof using.
  unfold ClientOwns. destruct (Z.leb_spec c 0), (Z.leb_spec id 0); cbn [orb]; try (split; [done|lia]).
  destruct (owner !! id) as [[c'|]|]; [rewrite Z.eqb_eq|..]; naive_solver lia.
Qed.

Lemma RequireOwned_spec owner p id : 0 < id -> RequireOwned walk (ClientOwns owner) p id = inr tt <-> may_own owner p id.
Proof.
  intros Hid. unfold RequireOwned, may_own. rewrite Allows_again, Allows_admin, <- claims_spec.
  destruct (Authenticated (N p)) eqn:Ha; cbn [negb].
  - destruct (claims p) eqn:Hc; [tauto|]. destruct (normalize_fields walk p) as [[E _]|(_ & _ & -> & _)]; [by rewrite E in Ha|].
    destruct (existsb _ _) eqn:E.
    + split; [intros _; right|done]. apply existsb_exists in E as (c & Hc'%list_elem_of_In & Ho).
      apply elem_of_ids in Hc' as [_ Hc']. apply ClientOwns_spec in Ho. naive_solver.
    + split; [done|]. intros [?|(c & Hc0 & Hc' & Ho)]; [done|]. exfalso. apply not_true_iff_false in E. apply E, existsb_exists.
      exists c. rewrite <- list_elem_of_In, elem_of_ids, ClientOwns_spec. done.
  - split; [done|]. intros H. assert (identified p) as Hi.
    { destruct H as [?%claims_spec|(c & ? & ? & _)]; [by left|do 4 right; eauto]. }
    apply authenticated_spec in Hi. congruence.
Qed.

Lemma ResolveClient_spec p requested : may_scope p requested <-> ResolveClient walk p requested = inr (scoped_client p requested).
Proof.
  unfold may_scope, ResolveClient, clientScope, scoped_client. rewrite normalize_again, !Allows_again, Allows_admin, <- claims_spec by done.
  destruct (Authenticated (N p)) eqn:Ha; cbn [negb].
  - destruct (claims p) eqn:Hc; [rewrite (decide_True (P := _ \/ _)) by tauto; split; [done|by left]|].
    destruct (Z.ltb_spec 0 requested).
    + rewrite !decide_True by tauto. pose proof (canAccessClient_spec p requested ltac:(done)) as Hs.
      rewrite <- claims_spec, Hc in Hs. destruct (canAccessClient walk (N p) requested); naive_solver.
    + rewrite !decide_False by naive_solver lia. cbn [scope_ClientIDs PrimaryClientID].
      destruct (normalize_fields walk p) as [[E _]|(_ & _ & -> & _)]; [by rewrite E in Ha|].
      setoid_rewrite <- elem_of_ids. pose proof (fun x => proj1 (elem_of_ids x (ClientIDs p))) as Hpos.
      destruct (normalizePrincipalClientIDs (ClientIDs p)) as [|c l] eqn:El; [rewrite decide_True by done; set_solver|].
      rewrite decide_False by done. rewrite filter_cons_True by (apply Hpos; by left). cbn [head default from_option].
      cbn [id]. rewrite (proj2 (Z.ltb_lt 0 c)) by (apply Hpos; by left). rewrite decide_False by naive_solver lia.
      split; [intros _|intros _; right; exists c; by left]. by destruct l.
  - split; [|done]. intros H. assert (identified p) as Hi.
    { destruct H as [?%claims_spec|H]; [by left|do 4 right]. case_decide; eauto. }
    apply authenticated_spec in Hi. congruence.
Qed.

Lemma ResolveClient_value p requested c : ResolveClient walk p requested = inr c -> c = scoped_client p requested.
Proof.
  intros H. cut (may_scope p requested); [intros Hm%ResolveClient_spec; congruence|]. revert H.
  unfold ResolveClient, may_scope, clientScope. rewrite normalize_again, !Allows_again, Allows_admin, <- claims_spec by done.
  destruct (Authenticated (N p)) eqn:Ha; cbn [negb]; [|done]. destruct (claims p) eqn:Hc; [by left|].
  destruct (Z.ltb_spec 0 requested).
  - rewrite decide_True by done. pose proof (canAccessClient_spec p requested ltac:(done)) as Hs.
    rewrite <- claims_spec, Hc in Hs. destruct (canAccessClient walk (N p) requested); [tauto|done].
  - destruct (decide (0 < requested)); [lia|]. cbn [scope_ClientIDs]. case_decide as Hn; [done|]. intros _. right.
    destruct (normalize_fields walk p) as [[E _]|(_ & _ & Hids & _)]; [by rewrite E in Ha|]. rewrite Hids in Hn.
    setoid_rewrite <- elem_of_ids. destruct (normalizePrincipalClientIDs (ClientIDs p)) as [|c' l]; [done|]. exists c'. by left.
Qed.

Lemma touch_spec st p ownership id : 0 < id ->
  (if decide (ToLower (TrimSpace ownership) = "client") then RequireClient walk p id
   else if decide (ToLower (TrimSpace ownership) = "tunnel") then RequireTunnel walk st p id
   else if decide (ToLower (TrimSpace ownership) = "host") then RequireHost walk st p id
   else inr tt) = inr tt <-> may_touch st p ownership id.
Proof.
  intros Hid. unfold may_touch. repeat case_decide; [by apply RequireClient_spec|by apply RequireOwned_spec..|done].
Qed.

Lemma access_iff st input resolved :
  ResolveProtectedActionAccess walk st input = inr resolved <->
  let p := in_Principal input in
  (TrimSpace (in_Permission input) <> "" -> may p (TrimSpace (in_Permission input))) /\
  (in_ClientScope input = true -> may_scope p (RequestedClientID input)) /\
  (0 < ResourceID input -> may_touch st p (in_Ownership input) (ResourceID input)) /\
  resolved = if in_ClientScope input then scoped_client p (RequestedClientID input) else 0.
Proof.
  cbn zeta. set (p := in_Principal input). set (permission := TrimSpace (in_Permission input)).
  unfold ResolveProtectedActionAccess. fold p permission.
  pose proof (RequirePermission_spec p permission (TrimSpace_idem _)) as Hperm.
  pose proof (ResolveClient_spec p (RequestedClientID input)) as Hscope.
  pose proof (ResolveClient_value p (RequestedClientID input)) as Hvalue.
  pose proof (touch_spec st p (in_Ownership input) (ResourceID input)) as Htouch.
  destruct (if decide (permission = "") then _ else _) as [err|[]] eqn:E1.
  { split; [done|]. intros [Hm _]. case_decide; [done|]. rewrite (proj2 (Hperm ltac:(done))) in E1 by auto. done. }
  assert (permission <> "" -> may p permission) as Hm by (intros Hne; rewrite decide_False in E1 by done; by apply Hperm).
  destruct (if in_ClientScope input then _ else _) as [err|c] eqn:E2.
  { split; [done|]. intros (_ & Hs & _). destruct (in_ClientScope input); [|done].
    rewrite (proj1 Hscope) in E2 by auto. done. }
  assert (Hc : (in_ClientScope input = true -> may_scope p (RequestedClientID input)) /\
    c = if in_ClientScope input then scoped_client p (RequestedClientID input) else 0).
  { destruct (in_ClientScope input); [|by injection E2 as <-].
    pose proof (Hvalue c E2) as ->. split; [|done]. intros _. by apply Hscope. }
  destruct Hc as [Hs ->]. destruct (Z.leb_spec (ResourceID input) 0) as [Hle|Hlt].
  { split; [intros [= <-]; split_and!; try done; lia|]. intros (_ & _ & _ & ->). done. }
  specialize (Htouch Hlt). revert Htouch.
  destruct (if decide (ToLower _ = "client") then _ else _) as [err|[]]; intros Htouch.
  - split; [done|]. intros (_ & _ & Ht & _). discriminate (proj2 Htouch (Ht Hlt)).
  - split; [intros [= <-]; split_and!; try done; intros _; by apply Htouch|]. intros (_ & _ & _ & ->). done.
Qed.
(** C28. The check before a protected action admits exactly the requests that the policy
    allows, and names the client it means: the permission asked for is granted explicitly
    or by a role, to a principal that identifies itself; the client scope is one of the
    principal's clients; the client, tunnel or host named belongs to one of them.  Only an
    administrator (by flag, role or permission) is exempt, and no role but the
    administrator's makes one. *)
Theorem access_is_exact st input resolved :
  ResolveProtectedActionAccess walk st input = inr resolved <->
  let p := in_Principal input in
  (TrimSpace (in_Permission input) <> "" -> may p (TrimSpace (in_Permission input))) /\
  (in_ClientScope input = true -> may_scope p (RequestedClientID input)) /\
  (0 < ResourceID input -> may_touch st p (in_Ownership input) (ResourceID input)) /\
  resolved = if in_ClientScope input then scoped_client p (RequestedClientID input) else 0.
Proof. apply access_iff. Qed.
End Facts.

(** A user with clients 3 and 5 stops tunnel 7 of client 5, and may not touch tunnel 8. *)
Definition ex_principal : Principal := mkPrincipal true "user" "user:1" "ann" false [3; 5] ["user"] [] ∅.
Definition ex_store : store := mkStore {[7 := Some 5; 8 := Some 4]} ∅.

Lemma map_to_list_walk : is_walk map_to_list.
Proof. by intros m. Qed.

Lemma access_is_exact_witness :
  ResolveProtectedActionAccess map_to_list ex_store (mkInput ex_principal "tunnels:control" false "tunnel" 0 7) = inr 0 /\
  may ex_principal "tunnels:control" /\ may_own (tunnel_owner ex_store) ex_principal 7 /\
  ResolveProtectedActionAccess map_to_list ex_store (mkInput ex_principal "tunnels:control" false "tunnel" 0 8) = inl ErrForbidden.
Proof.
  assert (H : ResolveProtectedActionAccess map_to_list ex_store (mkInput ex_principal "tunnels:control" false "tunnel" 0 7) = inr 0)
    by (vm_compute; reflexivity).
  pose proof (proj1 (access_is_exact map_to_list map_to_list_walk ex_store
    (mkInput ex_principal "tunnels:control" false "tunnel" 0 7) 0) H) as (Hm & _ & Ho & _).
  split; [exact H|]. split; [apply Hm; discriminate|]. split; [apply Ho; reflexivity|]. vm_compute. reflexivity.
Defined.
