(* ===== verification/ActionAccess.v ===== *)
(** The actions of the management interface and the check in front of each: actors, the
    catalogue of actions, the middleware of a route and the list of actions shown.

    Sources: [web/api/actor.go], [web/api/action_catalog.go], [web/routers/router.go]
    ([nodeProtectedActionAccessMiddleware], [nodeProtectedActionScopeAllowed]).

    A specification has the fields that decide access; its handler is left out.  The
    function that decides whether an action is shown is one of four forms.  The ids of a
    request are arguments.  A nil actor is [None]. *)

From S2P Require Import Prelude GoString GoStrconv Authorization.
Local Open Scope string_scope.
Local Open Scope list_scope.
Local Open Scope Z_scope.

(** ** Actors *)

Record Actor := mkActor {
  a_Kind : string; a_SubjectID : string; a_Username : string; a_IsAdmin : bool; a_ClientIDs : list Z;
  a_Roles : list string; a_Permissions : list string; a_Attributes : gmap string string
}.

Definition AnonymousActor : Actor := mkActor RoleAnonymous "" "" false [] [RoleAnonymous] [] ∅.

Definition hasActorRole (roles : list string) (target : string) : bool :=
  existsb (fun role => bool_decide (TrimSpace role = target)) roles.

Definition kind_or_default (kind : string) (isAdmin : bool) (roles : list string) : string :=
  if decide (kind = "") then if isAdmin then "admin" else if hasActorRole roles RoleClient then "client" else "user"
  else kind.

Definition ActorFromPrincipal (p : Principal) : Actor :=
  if negb (Authenticated p) then AnonymousActor
  else mkActor (kind_or_default (TrimSpace (Kind p)) (IsAdmin p) (Roles p)) (TrimSpace (SubjectID p)) (TrimSpace (Username p))
    (IsAdmin p) (ClientIDs p) (Roles p) (Permissions p) (Attributes p).

Definition PrincipalFromActor (actor : option Actor) : Principal :=
  match actor with
  | None => mkPrincipal false "" "" "" false [] [] [] ∅
  | Some a =>
    mkPrincipal (negb (bool_decide (a_Kind a = "")) && negb (bool_decide (a_Kind a = "anonymous"))) (a_Kind a) (a_SubjectID a)
      (a_Username a) (a_IsAdmin a) (a_ClientIDs a) (a_Roles a) (a_Permissions a) (a_Attributes a)
  end.

Section Actors.
Variable walk : gmap string string -> list (string * string).

Definition AdminActorWithFallback (username fallbackAdminUsername : string) : Actor :=
  let username := TrimSpace username in
  let username := if decide (username = "") then TrimSpace fallbackAdminUsername else username in
  let username := if decide (username = "") then "admin" else username in
  ActorFromPrincipal (NormalizePrincipal walk
    (mkPrincipal true "admin" ("admin:" +:+ username) username true [] [RoleAdmin] [PermissionAll] ∅)).

Definition UserActor (username : string) (clientIDs : list Z) : Actor :=
  ActorFromPrincipal (NormalizePrincipal walk
    (mkPrincipal true "user" (TrimSpace username) (TrimSpace username) false (filter (fun id => 0 < id) clientIDs)
       [RoleUser] [] ∅)).

Definition platform_permissions : list string :=
  [PermissionClientsCreate; PermissionClientsRead; PermissionClientsUpdate; PermissionClientsDelete;
   PermissionClientsStatus; PermissionTunnelsCreate; PermissionTunnelsRead; PermissionTunnelsUpdate;
   PermissionTunnelsDelete; PermissionTunnelsControl; PermissionHostsCreate; PermissionHostsRead;
   PermissionHostsUpdate; PermissionHostsDelete; PermissionHostsControl].

Definition platform_attributes (platformID role actorID : string) (fullControl : bool) (serviceUserID : Z) : gmap string string :=
  {["platform_id" := TrimSpace platformID; "platform_role" := role; "platform_actor_id" := TrimSpace actorID;
    "platform_control_scope" := (if fullControl then "full" else "account");
    "platform_service_user_id" := Itoa serviceUserID]}.

Definition PlatformActor (platformID role username actorID : string) (fullControl : bool) (clientIDs : list Z)
    (serviceUserID : Z) : Actor :=
  let role := ToLower (TrimSpace role) in
  let role := if decide (role = "") then "admin" else role in
  let kind := if decide (role = "admin") then "platform_admin" else "platform_user" in
  ActorFromPrincipal (NormalizePrincipal walk
    (mkPrincipal true kind ("platform:" +:+ TrimSpace platformID +:+ ":" +:+ TrimSpace actorID) (TrimSpace username) fullControl
       clientIDs [RoleUser] (if fullControl then [PermissionAll] else platform_permissions)
       (platform_attributes platformID role actorID fullControl serviceUserID))).

(** The fields of a session identity that are read are those of a principal. *)
Definition ActorFromSessionIdentityWithFallback (identity : option Principal) (fallbackAdminUsername : string) : Actor :=
  match identity with
  | None => AnonymousActor
  | Some i =>
    if negb (Authenticated i) then AnonymousActor
    else
      let actor := mkActor (kind_or_default (TrimSpace (Kind i)) (IsAdmin i) (Roles i)) (TrimSpace (SubjectID i))
        (TrimSpace (Username i)) (IsAdmin i) (ClientIDs i) (Roles i) (Permissions i) (Attributes i) in
      if bool_decide (a_Kind actor = "admin") && bool_decide (a_SubjectID actor = "")
      then AdminActorWithFallback (a_Username actor) fallbackAdminUsername
      else actor
  end.

Definition normalizeActorWithAuthorization (actor : option Actor) : Actor * Principal :=
  let principal := NormalizePrincipal walk (PrincipalFromActor actor) in (ActorFromPrincipal principal, principal).
End Actors.

Definition ActorCanAccessClient (actor : option Actor) (clientID : Z) : bool :=
  match actor with
  | None => false
  | Some a => if clientID <=? 0 then false else if a_IsAdmin a then true else bool_decide (clientID ∈ a_ClientIDs a)
  end.

Definition ActorPrimaryClientID (actor : option Actor) : option Z :=
  a ← actor; head (filter (fun id => 0 < id) (a_ClientIDs a)).

(** ** The catalogue *)

Inductive ActionOwnership := ActionOwnershipNone | ActionOwnershipClient | ActionOwnershipTunnel | ActionOwnershipHost.

Definition ownership_string (o : ActionOwnership) : string :=
  match o with
  | ActionOwnershipNone => "" | ActionOwnershipClient => "client"
  | ActionOwnershipTunnel => "tunnel" | ActionOwnershipHost => "host"
  end.

Inductive RequiredFeature := RequiredFeatureAllowUserRegister | RequiredFeatureDeviceEnrollment.

Inductive visibility :=
| VAlways | VByScope (check : NodeAccessScope -> bool) | VCallbackQueue (check : NodeAccessScope -> bool) | VWebhookManageable.

Record ActionSpec := mkSpec {
  Resource : string; Action : string; Method : string; Path : string; Permission : string; spec_ClientScope : bool;
  Ownership : ActionOwnership; Protected : bool; RequiredFeatures : list RequiredFeature; Visible : visibility
}.

Definition SessionActionCatalog : list ActionSpec := [
  mkSpec "system" "health" "GET" "/api/system/health" "" false ActionOwnershipNone false [] VAlways;
  mkSpec "session" "read" "GET" "/api/auth/session" "" false ActionOwnershipNone false [] VAlways;
  mkSpec "session" "create" "POST" "/api/auth/session" "" false ActionOwnershipNone false [] VAlways;
  mkSpec "auth" "token" "POST" "/api/auth/token" "" false ActionOwnershipNone false [] VAlways;
  mkSpec "auth" "register" "POST" "/api/auth/register" "" false ActionOwnershipNone false [RequiredFeatureAllowUserRegister] VAlways;
  mkSpec "session" "logout" "POST" "/api/auth/session/logout" "" false ActionOwnershipNone false [] VAlways;
  mkSpec "access" "ip_limit_register" "POST" "/api/access/ip-limit/actions/register" "" false ActionOwnershipNone false [] VAlways;
  mkSpec "devices" "enrollment_challenge" "POST" "/api/devices/enrollment/challenge" "" false ActionOwnershipNone false [RequiredFeatureDeviceEnrollment] VAlways;
  mkSpec "devices" "enrollment_complete" "POST" "/api/devices/enrollment/complete" "" false ActionOwnershipNone false [RequiredFeatureDeviceEnrollment] VAlways
].

Definition ProtectedActionCatalog : list ActionSpec := [
  mkSpec "system" "overview" "GET" "/api/system/overview" "" false ActionOwnershipNone true [] (VByScope (fun s => CanViewStatus s || CanViewUsage s));
  mkSpec "system" "dashboard" "GET" "/api/system/dashboard" "" false ActionOwnershipNone true [] (VByScope IsFullAccess);
  mkSpec "system" "registration" "GET" "/api/system/registration" "" false ActionOwnershipNone true [] (VByScope CanViewStatus);
  mkSpec "system" "operations" "GET" "/api/system/operations" "" false ActionOwnershipNone true [] (VByScope CanViewStatus);
  mkSpec "system" "status" "GET" "/api/system/status" "" false ActionOwnershipNone true [] (VByScope CanViewStatus);
  mkSpec "system" "changes" "GET" "/api/system/changes" "" false ActionOwnershipNone true [] VAlways;
  mkSpec "system" "usage_snapshot" "GET" "/api/system/usage-snapshot" "" false ActionOwnershipNone true [] (VByScope CanViewUsage);
  mkSpec "system" "export" "GET" "/api/system/export" "" false ActionOwnershipNone true [] (VByScope CanExportConfig);
  mkSpec "system" "import" "POST" "/api/system/import" "" false ActionOwnershipNone true [] (VByScope CanExportConfig);
  mkSpec "system" "sync" "POST" "/api/system/actions/sync" "" false ActionOwnershipNone true [] (VByScope CanSync);
  mkSpec "traffic" "write" "POST" "/api/traffic" "" false ActionOwnershipNone true [] (VByScope CanWriteTraffic);
  mkSpec "tunnels" "list" "GET" "/api/tunnels" PermissionTunnelsRead true ActionOwnershipNone true [] VAlways;
  mkSpec "tunnels" "create" "POST" "/api/tunnels" PermissionTunnelsCreate true ActionOwnershipNone true [] VAlways;
  mkSpec "hosts" "list" "GET" "/api/hosts" PermissionHostsRead true ActionOwnershipNone true [] VAlways;
  mkSpec "hosts" "create" "POST" "/api/hosts" PermissionHostsCreate true ActionOwnershipNone true [] VAlways;
  mkSpec "tunnels" "read" "GET" "/api/tunnels/{id}" PermissionTunnelsRead false ActionOwnershipTunnel true [] VAlways;
  mkSpec "tunnels" "update" "POST" "/api/tunnels/{id}/actions/update" PermissionTunnelsUpdate false ActionOwnershipTunnel true [] VAlways;
  mkSpec "tunnels" "start" "POST" "/api/tunnels/{id}/actions/start" PermissionTunnelsControl false ActionOwnershipTunnel true [] VAlways;
  mkSpec "tunnels" "stop" "POST" "/api/tunnels/{id}/actions/stop" PermissionTunnelsControl false ActionOwnershipTunnel true [] VAlways;
  mkSpec "tunnels" "clear" "POST" "/api/tunnels/{id}/actions/clear" PermissionTunnelsControl false ActionOwnershipTunnel true [] VAlways;
  mkSpec "tunnels" "delete" "POST" "/api/tunnels/{id}/actions/delete" PermissionTunnelsDelete false ActionOwnershipTunnel true [] VAlways;
  mkSpec "hosts" "read" "GET" "/api/hosts/{id}" PermissionHostsRead false ActionOwnershipHost true [] VAlways;
  mkSpec "hosts" "cert_suggestion" "GET" "/api/hosts/cert-suggestion" PermissionHostsRead false ActionOwnershipNone true [] VAlways;
  mkSpec "hosts" "update" "POST" "/api/hosts/{id}/actions/update" PermissionHostsUpdate false ActionOwnershipHost true [] VAlways;
  mkSpec "hosts" "start" "POST" "/api/hosts/{id}/actions/start" PermissionHostsControl false ActionOwnershipHost true [] VAlways;
  mkSpec "hosts" "stop" "POST" "/api/hosts/{id}/actions/stop" PermissionHostsControl false ActionOwnershipHost true [] VAlways;
  mkSpec "hosts" "clear" "POST" "/api/hosts/{id}/actions/clear" PermissionHostsControl false ActionOwnershipHost true [] VAlways;
  mkSpec "hosts" "delete" "POST" "/api/hosts/{id}/actions/delete" PermissionHostsDelete false ActionOwnershipHost true [] VAlways;
  mkSpec "clients" "list" "GET" "/api/clients" PermissionClientsRead false ActionOwnershipNone true [] VAlways;
  mkSpec "clients" "qrcode" "GET" "/api/tools/qrcode" PermissionClientsRead false ActionOwnershipNone true [] VAlways;
  mkSpec "clients" "qrcode_generate" "POST" "/api/tools/qrcode" PermissionClientsRead false ActionOwnershipNone true [] VAlways;
  mkSpec "clients" "create" "POST" "/api/clients" PermissionClientsCreate false ActionOwnershipNone true [] VAlways;
  mkSpec "clients" "connections" "GET" "/api/clients/{id}/connections" PermissionClientsRead false ActionOwnershipClient true [] VAlways;
  mkSpec "clients" "clear_all" "POST" "/api/clients/actions/clear" PermissionClientsStatus false ActionOwnershipNone true [] VAlways;
  mkSpec "clients" "kick" "POST" "/api/clients/actions/kick" PermissionClientsStatus false ActionOwnershipNone true [] VAlways;
  mkSpec "clients" "ping" "POST" "/api/clients/{id}/actions/ping" PermissionClientsRead false ActionOwnershipClient true [] VAlways;
  mkSpec "clients" "read" "GET" "/api/clients/{id}" PermissionClientsRead false ActionOwnershipClient true [] VAlways;
  mkSpec "clients" "update" "POST" "/api/clients/{id}/actions/update" PermissionClientsUpdate false ActionOwnershipClient true [] VAlways;
  mkSpec "clients" "clear" "POST" "/api/clients/{id}/actions/clear" PermissionClientsStatus false ActionOwnershipClient true [] VAlways;
  mkSpec "clients" "status" "POST" "/api/clients/{id}/actions/status" PermissionClientsStatus false ActionOwnershipClient true [] VAlways;
  mkSpec "clients" "delete" "POST" "/api/clients/{id}/actions/delete" PermissionClientsDelete false ActionOwnershipClient true [] VAlways;
  mkSpec "users" "list" "GET" "/api/users" PermissionManagementAdmin false ActionOwnershipNone true [] VAlways;
  mkSpec "users" "read" "GET" "/api/users/{id}" PermissionManagementAdmin false ActionOwnershipNone true [] VAlways;
  mkSpec "users" "create" "POST" "/api/users" PermissionManagementAdmin false ActionOwnershipNone true [] VAlways;
  mkSpec "users" "update" "POST" "/api/users/{id}/actions/update" PermissionManagementAdmin false ActionOwnershipNone true [] VAlways;
  mkSpec "users" "status" "POST" "/api/users/{id}/actions/status" PermissionManagementAdmin false ActionOwnershipNone true [] VAlways;
  mkSpec "users" "delete" "POST" "/api/users/{id}/actions/delete" PermissionManagementAdmin false ActionOwnershipNone true [] VAlways;
  mkSpec "settings_global" "read" "GET" "/api/settings/global" PermissionGlobalManage false ActionOwnershipNone true [] VAlways;
  mkSpec "settings_global" "update" "POST" "/api/settings/global/actions/update" PermissionGlobalManage false ActionOwnershipNone true [] VAlways;
  mkSpec "security_bans" "list" "GET" "/api/security/bans" PermissionGlobalManage false ActionOwnershipNone true [] VAlways;
  mkSpec "security_bans" "delete" "POST" "/api/security/bans/actions/delete" PermissionGlobalManage false ActionOwnershipNone true [] VAlways;
  mkSpec "security_bans" "delete_all" "POST" "/api/security/bans/actions/delete_all" PermissionGlobalManage false ActionOwnershipNone true [] VAlways;
  mkSpec "security_bans" "clean" "POST" "/api/security/bans/actions/clean" PermissionGlobalManage false ActionOwnershipNone true [] VAlways;
  mkSpec "callbacks_queue" "list" "GET" "/api/callbacks/queue" "" false ActionOwnershipNone true [] (VCallbackQueue CanViewCallbackQueue);
  mkSpec "callbacks_queue" "replay" "POST" "/api/callbacks/queue/actions/replay" "" false ActionOwnershipNone true [] (VCallbackQueue CanManageCallbackQueue);
  mkSpec "callbacks_queue" "clear" "POST" "/api/callbacks/queue/actions/clear" "" false ActionOwnershipNone true [] (VCallbackQueue CanManageCallbackQueue);
  mkSpec "webhooks" "list" "GET" "/api/webhooks" "" false ActionOwnershipNone true [] VWebhookManageable;
  mkSpec "webhooks" "read" "GET" "/api/webhooks/{id}" "" false ActionOwnershipNone true [] VWebhookManageable;
  mkSpec "webhooks" "create" "POST" "/api/webhooks" "" false ActionOwnershipNone true [] VWebhookManageable;
  mkSpec "webhooks" "update" "POST" "/api/webhooks/{id}/actions/update" "" false ActionOwnershipNone true [] VWebhookManageable;
  mkSpec "webhooks" "status" "POST" "/api/webhooks/{id}/actions/status" "" false ActionOwnershipNone true [] VWebhookManageable;
  mkSpec "webhooks" "delete" "POST" "/api/webhooks/{id}/actions/delete" "" false ActionOwnershipNone true [] VWebhookManageable
].

(** ** The middleware of a protected route *)

Definition nodeProtectedActionKey (spec : ActionSpec) : string :=
  let resource := ToLower (TrimSpace (Resource spec)) in
  let action := ToLower (TrimSpace (Action spec)) in
  if bool_decide (resource = "") || bool_decide (action = "") then "" else resource +:+ "/" +:+ action.

Definition nodeProtectedActionScopeAllowed (spec : ActionSpec) : option (NodeAccessScope -> bool) :=
  let key := nodeProtectedActionKey spec in
  if decide (key = "system/overview") then Some (fun s => CanViewStatus s || CanViewUsage s)
  else if decide (key = "system/dashboard") then Some IsFullAccess
  else if decide (key ∈ ["system/registration"; "system/operations"; "system/status"]) then Some CanViewStatus
  else if decide (key = "system/usage_snapshot") then Some CanViewUsage
  else if decide (key = "system/export") then Some CanExportConfig
  else if decide (key = "system/sync") then Some CanSync
  else if decide (key = "traffic/write") then Some CanWriteTraffic
  else if decide (key = "callbacks_queue/list") then Some CanViewCallbackQueue
  else if decide (key ∈ ["callbacks_queue/replay"; "callbacks_queue/clear"]) then Some CanManageCallbackQueue
  else None.

Section Middleware.
Variable walk : gmap string string -> list (string * string).

(** The client id set for the handler, or the refusal. *)
Definition nodeProtectedActionAccessMiddleware (st : store) (spec : ActionSpec) (actor : option Actor)
    (requestedClientID requestID : Z) : access_err + Z :=
  let allowed := match nodeProtectedActionScopeAllowed spec with
                 | Some check => check (ResolveNodeAccessScope walk (PrincipalFromActor actor))
                 | None => true
                 end in
  if negb allowed then inl ErrForbidden
  else ResolveProtectedActionAccess walk st
    (mkInput (PrincipalFromActor actor) (Permission spec) (spec_ClientScope spec) (ownership_string (Ownership spec))
       requestedClientID requestID).

(** ** The actions shown to an actor *)

(** The features and the platforms with callbacks, of a configuration that may be nil. *)
Record snapshot := mkSnapshot { AllowUserRegister : bool; AllowDeviceEnrollment : bool; callback_platforms : list string }.

Definition requiredFeatureEnabled (cfg : option snapshot) (feature : RequiredFeature) : bool :=
  match cfg, feature with
  | None, _ => false
  | Some cfg, RequiredFeatureAllowUserRegister => AllowUserRegister cfg
  | Some cfg, RequiredFeatureDeviceEnrollment => AllowDeviceEnrollment cfg
  end.

Definition actionSpecEnabled (cfg : option snapshot) (spec : ActionSpec) : bool :=
  forallb (requiredFeatureEnabled cfg) (RequiredFeatures spec).

Definition nodeActionVisibleCallbackQueue (check : NodeAccessScope -> bool) (cfg : option snapshot) (actor : option Actor) : bool :=
  let scope := ResolveNodeAccessScope walk (PrincipalFromActor actor) in
  if negb (check scope) then false
  else match cfg with None => false | Some cfg => existsb (AllowsPlatform scope) (callback_platforms cfg) end.

Definition nodeActionVisibleWebhookManageable (actor : option Actor) : bool :=
  match actor with
  | None => false
  | Some a => if a_IsAdmin a then true else bool_decide (ToLower (TrimSpace (a_Kind a)) = "platform_admin")
  end.

Definition spec_visible (spec : ActionSpec) (cfg : option snapshot) (actor : option Actor) : bool :=
  match Visible spec with
  | VAlways => true
  | VByScope check => check (ResolveNodeAccessScope walk (PrincipalFromActor actor))
  | VCallbackQueue check => nodeActionVisibleCallbackQueue check cfg actor
  | VWebhookManageable => nodeActionVisibleWebhookManageable actor
  end.

Definition shown (cfg : option snapshot) (actor : option Actor) (spec : ActionSpec) : bool :=
  let '(actor, principal) := normalizeActorWithAuthorization walk actor in
  if negb (actionSpecEnabled cfg spec) then false
  else if Protected spec && negb (Authenticated principal) then false
  else if negb (bool_decide (TrimSpace (Permission spec) = "")) && negb (Allows walk principal (TrimSpace (Permission spec))) then false
  else spec_visible spec cfg (Some actor).

(** The entries, without the base URL that only changes their paths. *)
Definition VisibleActionEntries (cfg : option snapshot) (actor : option Actor) (specs : list ActionSpec) : list ActionSpec :=
  filter (fun spec => shown cfg actor spec = true) specs.
End Middleware.

(** ** Properties of the catalogue *)

(** The path names one resource. *)
Definition names_resource (path : string) : bool :=
  match String.index 0 "{id}" path with Some _ => true | None => false end.

(** Every action on one resource checks its owner, or is for administrators. *)
Definition guarded (spec : ActionSpec) : bool :=
  negb (names_resource (Path spec)) || bool_decide (Resource spec = "webhooks") ||
  bool_decide (Permission spec = PermissionManagementAdmin) ||
  nonempty (Permission spec) && bool_decide (TrimSpace (Permission spec) = Permission spec) &&
    match Ownership spec with
    | ActionOwnershipNone => false
    | ActionOwnershipClient => bool_decide (Resource spec = "clients")
    | ActionOwnershipTunnel => bool_decide (Resource spec = "tunnels")
    | ActionOwnershipHost => bool_decide (Resource spec = "hosts")
    end.

Lemma catalogue_guarded : forallb guarded ProtectedActionCatalog = true.
Proof. vm_compute. reflexivity. Qed.

Definition anonymous_scope : NodeAccessScope := mkNodeScope "anonymous" false false "" 0 0 ∅.

(** The two tables of scopes agree: what is shown only to some scopes is refused to the
    others, except the import, whose handler checks for itself. *)
Definition scopes_agree (spec : ActionSpec) : Prop :=
  match nodeProtectedActionScopeAllowed spec with
  | Some check => match Visible spec with
                  | VByScope check' | VCallbackQueue check' => (forall s, check' s = check s) /\ check' anonymous_scope = false
                  | _ => False
                  end
  | None => True
  end /\ TrimSpace (Permission spec) = Permission spec /\ Protected spec = true.

Lemma catalogue_scopes_agree : Forall scopes_agree ProtectedActionCatalog.
Proof. repeat constructor. Qed.

Definition owns_resource (st : store) (p : Principal) (resource : string) (id : Z) : Prop :=
  resource = "clients" /\ id ∈ ClientIDs p \/
  resource = "tunnels" /\ may_own (tunnel_owner st) p id \/
  resource = "hosts" /\ may_own (host_owner st) p id.

Section Facts.
Variable walk : gmap string string -> list (string * string).
Hypothesis Hwalk : is_walk walk.

Lemma guarded_owner st spec p id : guarded spec = true -> names_resource (Path spec) = true ->
  (TrimSpace (Permission spec) <> "" -> may p (TrimSpace (Permission spec))) ->
  may_touch st p (ownership_string (Ownership spec)) id ->
  admin_claim p \/ Resource spec = "webhooks" \/ may p (Permission spec) /\ owns_resource st p (Resource spec) id.
Proof using.
  intros Hg Hn Hp Ht. unfold guarded in Hg. rewrite Hn in Hg. cbn [negb orb] in Hg.
  apply orb_true_iff in Hg as [[Hw|Ha]%orb_true_iff|Ho].
  - right; left. by apply bool_decide_eq_true in Hw.
  - left. apply bool_decide_eq_true in Ha. rewrite Ha in Hp. specialize (Hp ltac:(done)).
    apply (Allows_spec map_to_list) in Hp; [|done|done]. rewrite Allows_admin in Hp. by apply claims_spec.
  - apply andb_true_iff in Ho as [[Hne Htr]%andb_true_iff Ho]. apply nonempty_true in Hne. apply bool_decide_eq_true in Htr.
    rewrite Htr in Hp. specialize (Hp Hne). unfold may_touch, owns_resource in *.
    destruct (Ownership spec); [done|..]; apply bool_decide_eq_true in Ho;
      repeat first [rewrite decide_True in Ht by reflexivity|rewrite decide_False in Ht by done]; tauto.
Qed.

(** C30. Every action of the catalogue that names a client, a tunnel or a host reaches its
    handler only for the owner of that resource who holds the permission of the action, or
    for an administrator; actions that name a user only for an administrator. *)
Theorem resources_are_guarded st spec actor requested id resolved :
  spec ∈ ProtectedActionCatalog -> names_resource (Path spec) = true -> 0 < id ->
  nodeProtectedActionAccessMiddleware walk st spec actor requested id = inr resolved ->
  let p := PrincipalFromActor actor in
  admin_claim p \/ Resource spec = "webhooks" \/
  may p (Permission spec) /\ owns_resource st p (Resource spec) id.
Proof.
  intros Hs Hn Hid H. unfold nodeProtectedActionAccessMiddleware in H. destruct (negb _); [done|].
  apply access_iff in H as (Hp & _ & Ht & _); [|done]. cbn [in_Principal in_Permission in_Ownership ResourceID] in *.
  apply guarded_owner; [|done|done|auto].
  pose proof (proj1 (forallb_forall _ _) catalogue_guarded spec) as Hg. apply Hg. by apply list_elem_of_In.
Qed.

(** An actor made of a normalised principal is that principal again, or nobody. *)
Lemma actor_again p (n := NormalizePrincipal walk p) :
  NormalizePrincipal walk (PrincipalFromActor (Some (ActorFromPrincipal n))) = n \/
  NormalizePrincipal walk (PrincipalFromActor (Some (ActorFromPrincipal n))) = anonymous /\ Kind n = "anonymous".
Proof.
  destruct (Authenticated n) eqn:Ha.
  2: { right. destruct (normalize_fields walk p) as [[E _]|[? _]]; [|unfold n in Ha; congruence].
       unfold n. rewrite E. split; reflexivity. }
  pose proof (normalize_normal walk p Ha) as Hn. fold n in Hn.
  assert (ActorFromPrincipal n = mkActor (Kind n) (SubjectID n) (Username n) (IsAdmin n) (ClientIDs n) (Roles n) (Permissions n) (Attributes n)) as ->.
  { unfold ActorFromPrincipal, kind_or_default. rewrite Ha. cbn [negb].
    destruct (n_kind _ Hn) as [Hk ->]. by rewrite (n_subject _ Hn), (n_user _ Hn), decide_False. }
  cbn [PrincipalFromActor a_Kind a_SubjectID a_Username a_IsAdmin a_ClientIDs a_Roles a_Permissions a_Attributes].
  set (p' := mkPrincipal _ _ _ _ _ _ _ _ _).
  enough (NormalizePrincipal walk p' = NormalizePrincipal walk n \/ NormalizePrincipal walk p' = anonymous /\ Kind n = "anonymous") as H'
    by (by rewrite (normal_fixed walk n Hwalk Hn) in H'). unfold p'.
  destruct (negb (bool_decide (Kind n = "")) && negb (bool_decide (Kind n = "anonymous"))) eqn:Ek.
  - left. f_equal. rewrite <- Ha. by destruct n.
  - unfold NormalizePrincipal. cbn [Authenticated Kind SubjectID Username IsAdmin ClientIDs Roles Permissions Attributes].
    rewrite Ha, orb_true_r, !orb_true_l. cbn [negb].
    destruct (_ || _ || _ || _); [by left|right; split; [done|]]. rewrite (bool_decide_eq_false_2 (Kind n = "")) in Ek by apply Hn.
    by case_bool_decide.
Qed.

Lemma scope_again p : let n := NormalizePrincipal walk p in
  ResolveNodeAccessScope walk (PrincipalFromActor (Some (ActorFromPrincipal n))) = ResolveNodeAccessScope walk p \/
  ResolveNodeAccessScope walk (PrincipalFromActor (Some (ActorFromPrincipal n))) = anonymous_scope.
Proof.
  cbn zeta. unfold ResolveNodeAccessScope, resolvePrincipalContext.
  destruct (actor_again p) as [-> |[-> _]]; [by left|right; reflexivity].
Qed.

(** An action that the interface shows to an actor is not refused to it by the check
    in front of the action, as long as the request names no resource and no client that
    is not the actor's. *)
Theorem shown_actions_are_admitted st cfg spec actor requested :
  spec ∈ VisibleActionEntries walk cfg actor ProtectedActionCatalog ->
  (spec_ClientScope spec = true -> may_scope (PrincipalFromActor actor) requested) ->
  exists resolved, nodeProtectedActionAccessMiddleware walk st spec actor requested 0 = inr resolved.
Proof.
  unfold VisibleActionEntries. rewrite list_elem_of_filter. intros [Hsh Hin] Hscope. set (p := PrincipalFromActor actor) in *.
  pose proof (proj1 (Forall_forall _ _) catalogue_scopes_agree spec Hin) as (Hag & Htr & Hpr).
  unfold shown, normalizeActorWithAuthorization in Hsh. fold p in Hsh. destruct (negb (actionSpecEnabled cfg spec)); [done|].
  destruct (Protected spec && _); [done|]. rewrite Allows_again in Hsh by done.
  destruct (negb (bool_decide (TrimSpace (Permission spec) = "")) && _) eqn:Eperm; [done|].
  eexists. unfold nodeProtectedActionAccessMiddleware. fold p.
  assert (match nodeProtectedActionScopeAllowed spec with Some check => check (ResolveNodeAccessScope walk p) | None => true end = true) as ->.
  { destruct (nodeProtectedActionScopeAllowed spec) as [check|]; [|done]. unfold spec_visible in Hsh.
    pose proof (scope_again p) as Hs. cbn zeta in Hs. destruct (Visible spec) as [|check'|check'|]; [done|..|done];
      destruct Hag as [Heq Hanon]; [|unfold nodeActionVisibleCallbackQueue in Hsh];
      destruct Hs as [Hs|Hs]; rewrite Hs in Hsh; rewrite <- Heq.
    - done.
    - congruence.
    - by destruct (check' (ResolveNodeAccessScope walk p)).
    - rewrite Hanon in Hsh. done. }
  cbn [negb]. apply access_iff; [done|]. cbn [in_Principal in_Permission in_ClientScope RequestedClientID ResourceID].
  split_and!; [|done|lia|reflexivity]. intros Hne. rewrite bool_decide_eq_false_2 in Eperm by done. cbn [negb andb] in Eperm.
  apply negb_false_iff in Eperm. apply (Allows_spec walk) in Eperm; [done|apply TrimSpace_idem|done].
Qed.

(** ** Actors of a platform *)

Section PlatformActors.
Variables (platformID role username actorID : string) (clientIDs : list Z) (sid : Z).
Hypothesis Hsid : 0 < sid < 2 ^ 63.

Definition platform_role : string := let r := ToLower (TrimSpace role) in if decide (r = "") then "admin" else r.
Definition platform_kind : string := if decide (platform_role = "admin") then "platform_admin" else "platform_user".

Definition platform_principal : Principal :=
  mkPrincipal true platform_kind ("platform:" +:+ TrimSpace platformID +:+ ":" +:+ TrimSpace actorID) (TrimSpace username) false
    clientIDs [RoleUser] platform_permissions (platform_attributes platformID platform_role actorID false sid).

Lemma platform_not_admin : claims platform_principal = false.
Proof using. reflexivity. Qed.

Lemma platform_attributes_trimmed : trimmed (platform_attributes platformID platform_role actorID false sid).
Proof using.
  intros k v. unfold platform_attributes. rewrite !lookup_insert_Some, lookup_singleton_Some.
  intros [[<- _]|[_ [[<- _]|[_ [[<- _]|[_ [[<- _]|[_ [<- _]]]]]]]]]; reflexivity.
Qed.

Lemma platform_id_attr :
  platform_attributes platformID platform_role actorID false sid !! "platform_id" = Some (TrimSpace platformID).
Proof using. apply lookup_insert_eq. Qed.

Lemma platform_sid_attr :
  platform_attributes platformID platform_role actorID false sid !! "platform_service_user_id" = Some (Itoa sid).
Proof using. unfold platform_attributes. rewrite !lookup_insert_ne by discriminate. apply lookup_singleton_eq. Qed.

Lemma platform_fields (n := NormalizePrincipal walk platform_principal) :
  Authenticated n = true /\ IsAdmin n = false /\ Kind n = platform_kind /\
  ClientIDs n = normalizePrincipalClientIDs clientIDs /\
  Attributes n = platform_attributes platformID platform_role actorID false sid.
Proof.
  unfold n, NormalizePrincipal. fold (claims platform_principal). rewrite platform_not_admin.
  cbn [orb andb platform_principal Authenticated Kind SubjectID Username IsAdmin ClientIDs Roles Permissions Attributes negb].
  split_and!; try done.
  - unfold platform_kind. by destruct (decide (platform_role = "admin")).
  - apply trim_keys_id; [done|apply platform_attributes_trimmed].
Qed.

Lemma platform_scope (s := ResolveNodeAccessScope walk (PrincipalFromActor (Some (PlatformActor walk platformID role username actorID false clientIDs sid)))) :
  full s = false /\ actorKind s = platform_kind /\ serviceUserID s = sid /\ Authorization.platformID s = TrimSpace platformID /\
  forall id, id ∈ allowedClientIDs s <-> 0 < id /\ id ∈ clientIDs.
Proof.
  assert (s = ResolveNodeAccessScope walk platform_principal) as ->.
  { destruct platform_fields as (_ & _ & Hk & _). unfold s, ResolveNodeAccessScope, resolvePrincipalContext.
    change (PlatformActor walk platformID role username actorID false clientIDs sid)
      with (ActorFromPrincipal (NormalizePrincipal walk platform_principal)).
    destruct (actor_again platform_principal) as [-> |[_ E]]; [done|]. rewrite Hk in E.
    unfold platform_kind in E. destruct (decide (platform_role = "admin")); discriminate E. }
  destruct platform_fields as (_ & Had & Hk & Hids & Hat). unfold ResolveNodeAccessScope, resolvePrincipalContext.
  set (n := NormalizePrincipal walk platform_principal) in *.
  cbn [full actorKind serviceUserID Authorization.platformID allowedClientIDs ctx_Kind ctx_Principal PlatformID ServiceUserID].
  assert (Hpid : principalAttributeValue n "platform_id" = TrimSpace platformID).
  { unfold principalAttributeValue. change (TrimSpace "platform_id") with "platform_id".
    rewrite Hat, platform_id_attr. apply TrimSpace_idem. }
  assert (Hsv : principalAttributeValue n "platform_service_user_id" = Itoa sid).
  { unfold principalAttributeValue. change (TrimSpace "platform_service_user_id") with "platform_service_user_id".
    rewrite Hat, platform_sid_attr. apply TrimSpace_Itoa. }
  split_and!; [done|rewrite Hk; unfold platform_kind; by destruct (decide (platform_role = "admin"))| |done|].
  - unfold principalAttributeIntValue. rewrite Hsv, decide_False by (apply Itoa_nonempty; lia).
    rewrite Atoi_Itoa by lia. destruct (Z.leb_spec sid 0); [lia|done].
  - intros id. rewrite elem_of_list_to_set, list_elem_of_filter, Hids, elem_of_ids. tauto.
Qed.

Lemma scope_confined s c :
  full s = false -> actorKind s = platform_kind -> serviceUserID s = sid -> Authorization.platformID s = TrimSpace platformID ->
  (forall id, id ∈ allowedClientIDs s <-> 0 < id /\ id ∈ clientIDs) ->
  IsFullAccess s = false /\
  (AllowsClient s (Some c) = true ->
     OwnerID c = sid /\ (platform_kind = "platform_user" -> Id c ∈ clientIDs)) /\
  (forall user, AllowsUser s (Some user) = true -> user = sid) /\
  (forall platform, AllowsPlatform s platform = true -> TrimSpace platform = TrimSpace platformID).
Proof using Hsid.
  intros Hf Hk Hs Hp Hids.
  assert (Hkind : is_kind s "platform_admin" = true \/
    is_kind s "platform_admin" = false /\ is_kind s "platform_user" = true).
  { unfold is_kind. rewrite Hk. unfold platform_kind. destruct (decide (platform_role = "admin")); [left|right; split]; reflexivity. }
  unfold AllowsClient, AllowsUser, AllowsPlatform, IsFullAccess. rewrite Hf, Hs, Hp.
  rewrite (proj2 (Z.ltb_lt 0 sid)) by lia. cbn [andb].
  split_and!; [done| | |].
  - destruct Hkind as [Ha|[Ha Hu]]; rewrite Ha, ?Hu.
    + intros H%Z.eqb_eq. split; [done|]. unfold is_kind in Ha. rewrite Hk in Ha. apply bool_decide_eq_true in Ha.
      rewrite Ha. discriminate.
    + destruct (Z.eqb_spec (OwnerID c) sid); cbn [negb]; [|done].
      destruct (decide (allowedClientIDs s = ∅)); [done|]. rewrite bool_decide_eq_true, Hids. tauto.
  - intros user. destruct Hkind as [Ha|[Ha Hu]]; rewrite Ha, ?Hu; cbn [orb]; by rewrite Z.eqb_eq.
  - intros platform. destruct (decide (TrimSpace platform = "")); [done|].
    destruct Hkind as [Ha|[Ha Hu]]; rewrite Ha, ?Hu; cbn [orb];
      intros [_ H]%andb_true_iff; by apply bool_decide_eq_true in H.
Qed.

End PlatformActors.
End Facts.

(** ** Examples *)

Definition ex_actor : option Actor := Some (mkActor "user" "user:1" "ann" false [3; 5] ["user"] [] ∅).
Definition ex_stop : ActionSpec :=
  mkSpec "tunnels" "stop" "POST" "/api/tunnels/{id}/actions/stop" PermissionTunnelsControl false ActionOwnershipTunnel true [] VAlways.

Lemma ex_stop_listed : ex_stop ∈ ProtectedActionCatalog.
Proof. by apply (list_elem_of_lookup_2 _ 18). Qed.

Lemma resources_are_guarded_witness :
  nodeProtectedActionAccessMiddleware map_to_list ex_store ex_stop ex_actor 0 7 = inr 0 /\
  nodeProtectedActionAccessMiddleware map_to_list ex_store ex_stop ex_actor 0 8 = inl ErrForbidden /\
  (admin_claim (PrincipalFromActor ex_actor) \/ Resource ex_stop = "webhooks" \/
   may (PrincipalFromActor ex_actor) (Permission ex_stop) /\ owns_resource ex_store (PrincipalFromActor ex_actor) (Resource ex_stop) 7).
Proof.
  split; [vm_compute; reflexivity|]. split; [vm_compute; reflexivity|].
  exact (resources_are_guarded map_to_list map_to_list_walk ex_store ex_stop ex_actor 0 7 0 ex_stop_listed
    eq_refl eq_refl ltac:(vm_compute; reflexivity)).
Defined.

Lemma ex_stop_shown : ex_stop ∈ VisibleActionEntries map_to_list None ex_actor ProtectedActionCatalog.
Proof. apply list_elem_of_filter. split; [vm_compute; reflexivity|apply ex_stop_listed]. Qed.

Lemma shown_actions_are_admitted_witness :
  exists resolved, nodeProtectedActionAccessMiddleware map_to_list ex_store ex_stop ex_actor 0 0 = inr resolved.
Proof.
  apply (shown_actions_are_admitted map_to_list map_to_list_walk ex_store None ex_stop ex_actor 0 ex_stop_shown).
  discriminate.
Defined.

