(* ===== verification/Quota.v ===== *)
(** Traffic accounting and quotas of users, clients and services:
    [lib/file/obj.go] (flows and counters), [lib/file/obj_user_client_runtime.go] and
    [lib/file/obj_tunnel_host_runtime.go], and the chain of observers a connection calls
    in [server/proxy/base_transport_runtime.go].

    A tunnel and a host have the same quota fields and the same code on them; both are a
    [Resource].  A route view of a tunnel shares its traffic and its connection counter,
    so a view and its tunnel are one resource here.  Objects live in maps keyed by their
    pointers, and a client names its bound owner by pointer.  A [time.Time] is its Unix
    second, [None] for the zero time.  The clock is an argument.  Rate meters and the
    change callback of a flow, which nothing sets, are left out. *)

From S2P Require Import Prelude.
Import GoInt.
Open Scope Z_scope.

(** ** Flows and counters *)

Record Flow := mkFlow { ExportFlow : Z; InletFlow : Z; fl_FlowLimit : Z; TimeLimit : option Z }.
Definition new_Flow : Flow := mkFlow 0 0 0 None.

Record TrafficStats := mkStats { ExportBytes : Z; InletBytes : Z }.
Definition no_traffic : TrafficStats := mkStats 0 0.

Definition Flow_Add (i o : Z) (s : Flow) : Flow :=
  mkFlow (i64 (ExportFlow s + o)) (i64 (InletFlow s + i)) (fl_FlowLimit s) (TimeLimit s).

Definition Flow_Sub (i o : Z) (s : Flow) : Flow :=
  mkFlow (Z.max 0 (i64 (ExportFlow s - o))) (Z.max 0 (i64 (InletFlow s - i))) (fl_FlowLimit s) (TimeLimit s).

(** Clears the two byte counts, as the reset functions do. *)
Definition Flow_clear (s : Flow) : Flow := mkFlow 0 0 (fl_FlowLimit s) (TimeLimit s).

Definition flowSnapshot (s : option Flow) : Z * Z :=
  match s with Some s => (InletFlow s, ExportFlow s) | None => (0, 0) end.

Definition Add (i o : Z) (s : TrafficStats) : TrafficStats :=
  mkStats (if o =? 0 then ExportBytes s else i64 (ExportBytes s + o))
          (if i =? 0 then InletBytes s else i64 (InletBytes s + i)).

(** Inlet, export and total; [Add] returns those of the new counters. *)
Definition Snapshot (s : TrafficStats) : Z * Z * Z :=
  (InletBytes s, ExportBytes s, i64 (InletBytes s + ExportBytes s)).
Definition total (s : TrafficStats) : Z := snd (Snapshot s).

Definition Reset (s : TrafficStats) : TrafficStats := mkStats 0 0.

(** The counters of a record that has none yet start from its flow. *)
Definition ensure_stats (s : option TrafficStats) (flow : option Flow) : TrafficStats :=
  match s with
  | Some s => s
  | None => let '(i, o) := flowSnapshot flow in
            if negb (i =? 0) || negb (o =? 0) then Add i o no_traffic else no_traffic
  end.

(** ** Records *)

Record User := mkUser {
  u_Id : Z; u_Status : Z; u_ExpireAt : Z; u_FlowLimit : Z;
  u_TotalFlow : option Flow; u_TotalTraffic : option TrafficStats;
  MaxConnections : Z; u_NowConn : Z
}.

Record Client := mkClient {
  c_Id : Z; c_Status : bool; c_OwnerUserID : Z; c_UserId : Z; ownerUser : option Z;
  c_ExpireAt : Z; c_FlowLimit : Z; c_Flow : option Flow;
  BridgeTraffic : option TrafficStats; ServiceTraffic : option TrafficStats;
  c_MaxConn : Z; c_NowConn : Z
}.

Record Resource := mkResource {
  r_ExpireAt : Z; r_FlowLimit : Z; r_Flow : option Flow; r_ServiceTraffic : option TrafficStats;
  r_MaxConn : Z; r_NowConn : Z
}.

Definition with_user_traffic (u : User) (f : option Flow) (s : option TrafficStats) : User :=
  mkUser (u_Id u) (u_Status u) (u_ExpireAt u) (u_FlowLimit u) f s (MaxConnections u) (u_NowConn u).
Definition with_traffic (c : Client) (b s : option TrafficStats) : Client :=
  mkClient (c_Id c) (c_Status c) (c_OwnerUserID c) (c_UserId c) (ownerUser c) (c_ExpireAt c) (c_FlowLimit c) (c_Flow c)
    b s (c_MaxConn c) (c_NowConn c).
Definition with_limits (c : Client) (expireAt flowLimit : Z) (f : option Flow) (maxConn : Z) : Client :=
  mkClient (c_Id c) (c_Status c) (c_OwnerUserID c) (c_UserId c) (ownerUser c) expireAt flowLimit f
    (BridgeTraffic c) (ServiceTraffic c) maxConn (c_NowConn c).
Definition with_resource_traffic (r : Resource) (s : option TrafficStats) : Resource :=
  mkResource (r_ExpireAt r) (r_FlowLimit r) (r_Flow r) s (r_MaxConn r) (r_NowConn r).
Definition with_resource_limits (r : Resource) (expireAt flowLimit : Z) (f : option Flow) (maxConn : Z) : Resource :=
  mkResource expireAt flowLimit f (r_ServiceTraffic r) maxConn (r_NowConn r).

(** ** Limits *)

Definition normalizeNonNegativeConnectionLimit (value : Z) : Z := if value <? 0 then 0 else value.

Definition mb : Z := 1024 * 1024.
Definition legacyFlowLimitMegabytes (value : Z) : Z :=
  if value <=? 0 then 0
  else if Z.rem value mb =? 0 then Z.quot value mb else Z.quot (i64 (value + mb - 1)) mb.

(** The flow's limit in bytes. *)
Definition flow_bytes (f : Flow) : Z := i64 (Z.shiftl (fl_FlowLimit f) 20).

Definition own_expiry (expireAt : Z) (flow : option Flow) : option Z :=
  if 0 <? expireAt then Some expireAt else flow ≫= TimeLimit.
Definition own_limit (flowLimit : Z) (flow : option Flow) : option Z :=
  if 0 <? flowLimit then Some flowLimit
  else f ← flow; if 0 <? fl_FlowLimit f then Some (flow_bytes f) else None.

Definition owner_of (users : gmap Z User) (c : Client) : option User := p ← ownerUser c; users !! p.

Definition EffectiveExpireAt (users : gmap Z User) (c : Client) : Z :=
  match own_expiry (c_ExpireAt c) (c_Flow c) with
  | Some t => t
  | None => match owner_of users c with Some u => u_ExpireAt u | None => 0 end
  end.
Definition EffectiveFlowLimitBytes (users : gmap Z User) (c : Client) : Z :=
  match own_limit (c_FlowLimit c) (c_Flow c) with
  | Some n => n
  | None => match owner_of users c with Some u => u_FlowLimit u | None => 0 end
  end.
Definition resource_EffectiveExpireAt (r : Resource) : Z := default 0 (own_expiry (r_ExpireAt r) (r_Flow r)).
Definition resource_EffectiveFlowLimitBytes (r : Resource) : Z := default 0 (own_limit (r_FlowLimit r) (r_Flow r)).

(** The limits of a record and the older ones inside its flow are filled from each other. *)
Definition normalize_expiry (expireAt : Z) (f : Flow) : Z * Flow :=
  match TimeLimit f with
  | Some t => if expireAt <=? 0 then (t, f) else (expireAt, f)
  | None => if 0 <? expireAt
            then (expireAt, mkFlow (ExportFlow f) (InletFlow f) (fl_FlowLimit f) (Some expireAt))
            else (expireAt, f)
  end.
Definition normalize_limit (flowLimit : Z) (f : Flow) : Z * Flow :=
  if (flowLimit <=? 0) && (0 <? fl_FlowLimit f) then (flow_bytes f, f)
  else if (0 <? flowLimit) && (fl_FlowLimit f =? 0)
  then (flowLimit, mkFlow (ExportFlow f) (InletFlow f) (legacyFlowLimitMegabytes flowLimit) (TimeLimit f))
  else (flowLimit, f).
Definition normalize_fields (expireAt flowLimit : Z) (flow : option Flow) : Z * Z * Flow :=
  let f := default new_Flow flow in
  let '(expireAt, f) := normalize_expiry expireAt f in
  let '(flowLimit, f) := normalize_limit flowLimit f in
  (expireAt, flowLimit, f).

Definition normalizeLifecycleFieldsLocked (c : Client) : Client :=
  let '(e, l, f) := normalize_fields (c_ExpireAt c) (c_FlowLimit c) (c_Flow c) in
  with_limits c e l (Some f) (normalizeNonNegativeConnectionLimit (c_MaxConn c)).
Definition resource_normalizeLifecycleFieldsLocked (r : Resource) : Resource :=
  let '(e, l, f) := normalize_fields (r_ExpireAt r) (r_FlowLimit r) (r_Flow r) in
  with_resource_limits r e l (Some f) (normalizeNonNegativeConnectionLimit (r_MaxConn r)).

Definition set_expiry (value : Z) (flow : option Flow) : Z * Flow :=
  let value := if value <? 0 then 0 else value in
  let f := default new_Flow flow in
  (value, mkFlow (ExportFlow f) (InletFlow f) (fl_FlowLimit f) (if 0 <? value then Some value else None)).
Definition set_limit (value : Z) (flow : option Flow) : Z * Flow :=
  let value := if value <? 0 then 0 else value in
  let f := default new_Flow flow in
  (value, mkFlow (ExportFlow f) (InletFlow f) (legacyFlowLimitMegabytes value) (TimeLimit f)).

Definition SetExpireAt (value : Z) (c : Client) : Client :=
  let '(v, f) := set_expiry value (c_Flow c) in with_limits c v (c_FlowLimit c) (Some f) (c_MaxConn c).
Definition SetFlowLimitBytes (value : Z) (c : Client) : Client :=
  let '(v, f) := set_limit value (c_Flow c) in with_limits c (c_ExpireAt c) v (Some f) (c_MaxConn c).
Definition resource_SetExpireAt (value : Z) (r : Resource) : Resource :=
  let '(v, f) := set_expiry value (r_Flow r) in with_resource_limits r v (r_FlowLimit r) (Some f) (r_MaxConn r).
Definition resource_SetFlowLimitBytes (value : Z) (r : Resource) : Resource :=
  let '(v, f) := set_limit value (r_Flow r) in with_resource_limits r (r_ExpireAt r) v (Some f) (r_MaxConn r).

(** ** Traffic *)

Definition user_EnsureRuntimeTraffic (u : User) : User :=
  with_user_traffic u (u_TotalFlow u) (Some (ensure_stats (u_TotalTraffic u) (u_TotalFlow u))).
Definition EnsureRuntimeTraffic (c : Client) : Client :=
  with_traffic c (Some (ensure_stats (BridgeTraffic c) (c_Flow c))) (Some (ensure_stats (ServiceTraffic c) None)).
Definition resource_EnsureRuntimeTraffic (r : Resource) : Resource :=
  with_resource_traffic r (Some (ensure_stats (r_ServiceTraffic r) (r_Flow r))).

(** The bytes a user is charged with; this call does not create the counters. *)
Definition user_TotalTrafficTotals (u : User) : Z :=
  match u_TotalTraffic u, u_TotalFlow u with
  | Some s, _ => total s
  | None, Some f => i64 (InletFlow f + ExportFlow f)
  | None, None => 0
  end.

Definition stats_of (s : option TrafficStats) : TrafficStats := default no_traffic s.

(** The totals of a client, whose counters exist afterwards. *)
Definition TotalTrafficTotals (c : Client) : Z * Client :=
  let c := EnsureRuntimeTraffic c in
  let '(bi, bo, _) := Snapshot (stats_of (BridgeTraffic c)) in
  let '(si, so, _) := Snapshot (stats_of (ServiceTraffic c)) in
  (i64 (i64 (bi + si) + i64 (bo + so)), c).
Definition ServiceTrafficTotals (r : Resource) : Z * Resource :=
  let r := resource_EnsureRuntimeTraffic r in (total (stats_of (r_ServiceTraffic r)), r).

Inductive quota_err := TimeExceeded | FlowExceeded.

Definition check_quota (expireAt flowLimit total now : Z) : option quota_err :=
  if (0 <? expireAt) && (expireAt <=? now) then Some TimeExceeded
  else if (0 <? flowLimit) && (flowLimit <=? total) then Some FlowExceeded
  else None.

Definition ObserveTotalTraffic (now i o : Z) (u : User) : option quota_err * User :=
  if (i =? 0) && (o =? 0) then (None, u)
  else
    let u := user_EnsureRuntimeTraffic u in
    let s := Add i o (stats_of (u_TotalTraffic u)) in
    let u := with_user_traffic u (Some (Flow_Add i o (default new_Flow (u_TotalFlow u)))) (Some s) in
    (check_quota (u_ExpireAt u) (u_FlowLimit u) (total s) now, u).

Definition resource_ObserveServiceTraffic (now i o : Z) (r : Resource) : option quota_err * Resource :=
  if (i =? 0) && (o =? 0) then (None, r)
  else
    let r := resource_EnsureRuntimeTraffic r in
    let s := Add i o (stats_of (r_ServiceTraffic r)) in
    let r := with_resource_traffic r (Some s) in
    (check_quota (resource_EffectiveExpireAt r) (resource_EffectiveFlowLimitBytes r) (total s) now, r).

(** The traffic of a client, and then of its owner unless the client's own limit is
    reached; each of the two reads the clock. *)
Definition observeTraffic (bridge : bool) (now now' i o : Z) (c : Client) (users : gmap Z User)
  : option quota_err * Client * gmap Z User :=
  if (i =? 0) && (o =? 0) then (None, c, users)
  else
    let c := EnsureRuntimeTraffic c in
    let b := stats_of (BridgeTraffic c) in
    let s := stats_of (ServiceTraffic c) in
    let target := Add i o (if bridge then b else s) in
    let other := if bridge then s else b in
    let c := if bridge then with_traffic c (Some target) (Some s) else with_traffic c (Some b) (Some target) in
    match check_quota (EffectiveExpireAt users c) (EffectiveFlowLimitBytes users c)
            (i64 (total target + total other)) now with
    | Some e => (Some e, c, users)
    | None =>
        match ownerUser c with
        | None => (None, c, users)
        | Some p =>
            match users !! p with
            | None => (None, c, users)
            | Some u => let '(e, u) := ObserveTotalTraffic now' i o u in (e, c, <[p := u]> users)
            end
        end
    end.

Definition user_ResetTotalTraffic (u : User) : User :=
  with_user_traffic u (Flow_clear <$> u_TotalFlow u) (Some (Reset (ensure_stats (u_TotalTraffic u) (u_TotalFlow u)))).
Definition ResetTraffic (c : Client) : Client :=
  let c := EnsureRuntimeTraffic c in
  let c := with_traffic c (Reset <$> BridgeTraffic c) (Reset <$> ServiceTraffic c) in
  with_limits c (c_ExpireAt c) (c_FlowLimit c) (Flow_clear <$> c_Flow c) (c_MaxConn c).
Definition ResetServiceTraffic (r : Resource) : Resource :=
  let r := resource_EnsureRuntimeTraffic r in
  let r := with_resource_traffic r (Reset <$> r_ServiceTraffic r) in
  with_resource_limits r (r_ExpireAt r) (r_FlowLimit r) (Flow_clear <$> r_Flow r) (r_MaxConn r).

(** ** Limits are kept *)

Lemma own_expiry_default t f : own_expiry t (Some (default new_Flow f)) = own_expiry t f.
Proof. unfold own_expiry. destruct (0 <? t); [done|]. by destruct f. Qed.

Lemma own_limit_default n f : own_limit n (Some (default new_Flow f)) = own_limit n f.
Proof. unfold own_limit. destruct (0 <? n); [done|]. by destruct f. Qed.

Lemma normalize_expiry_kept t f :
  let '(t', f') := normalize_expiry t f in
  own_expiry t' (Some f') = own_expiry t (Some f) /\ normalize_expiry t' f' = (t', f') /\
  fl_FlowLimit f' = fl_FlowLimit f.
Proof.
  unfold normalize_expiry, own_expiry. destruct (TimeLimit f) as [u|] eqn:Hu; cbn.
  - destruct (t <=? 0) eqn:Ht; cbn; rewrite Hu; cbn; repeat if_case; repeat split; try done; lia.
  - destruct (0 <? t) eqn:Ht; cbn; rewrite ?Hu; cbn; rewrite ?Ht; repeat split; try done. if_case; done || lia.
Qed.

Lemma legacy_nonzero n : 0 < n < 2 ^ 63 -> legacyFlowLimitMegabytes n <> 0.
Proof.
  intros Hn. unfold legacyFlowLimitMegabytes, mb. replace (n <=? 0) with false by lia.
  destruct (Z.rem n (1024 * 1024) =? 0) eqn:Hr; zbool.
  - intros Hq. pose proof (Z.quot_rem' n (1024 * 1024)). lia.
  - assert (H : 2 ^ 20 <= i64 (n + 1024 * 1024 - 1) \/ i64 (n + 1024 * 1024 - 1) <= - 2 ^ 20).
    { unfold i64, swrap. destruct (decide (n + 1024 * 1024 - 1 < 2 ^ 63)).
      - left. rewrite Z.mod_small; lia.
      - right. replace (n + 1024 * 1024 - 1 + 2 ^ (64 - 1)) with (n + 1024 * 1024 - 1 - 2 ^ 63 + 1 * 2 ^ 64) by lia.
        rewrite Z.mod_add, Z.mod_small; lia. }
    intros Hq. pose proof (Z.quot_rem' (i64 (n + 1024 * 1024 - 1)) (1024 * 1024)).
    pose proof (Z.rem_bound_abs (i64 (n + 1024 * 1024 - 1)) (1024 * 1024)). lia.
Qed.

Lemma normalize_limit_kept n f :
  n < 2 ^ 63 ->
  let '(n', f') := normalize_limit n f in
  own_limit n' (Some f') = own_limit n (Some f) /\ normalize_limit n' f' = (n', f') /\
  TimeLimit f' = TimeLimit f.
Proof.
  intros Hn. unfold normalize_limit, own_limit. cbn [mbind option_bind].
  destruct ((n <=? 0) && (0 <? fl_FlowLimit f)) eqn:H1.
  - apply andb_true_iff in H1 as [? H1]. rewrite H1. replace (0 <? n) with false by lia.
    replace (fl_FlowLimit f =? 0) with false by lia. rewrite !andb_false_r, andb_true_r.
    repeat split; repeat if_case; done.
  - destruct ((0 <? n) && (fl_FlowLimit f =? 0)) eqn:H2; [|by rewrite H1, H2].
    apply andb_true_iff in H2 as [H2 _]. rewrite H2. cbn [fl_FlowLimit TimeLimit].
    replace (n <=? 0) with false by lia.
    by replace (legacyFlowLimitMegabytes n =? 0) with false by (pose proof (legacy_nonzero n); lia).
Qed.

Lemma normalize_fields_kept t n f :
  n < 2 ^ 63 ->
  let '(t', n', f') := normalize_fields t n f in
  own_expiry t' (Some f') = own_expiry t f /\ own_limit n' (Some f') = own_limit n f /\
  normalize_fields t' n' (Some f') = (t', n', f').
Proof.
  intros Hn. unfold normalize_fields. rewrite <- (own_expiry_default t f), <- (own_limit_default n f).
  generalize (default new_Flow f). intros g.
  pose proof (normalize_expiry_kept t g) as He. destruct (normalize_expiry t g) as [t' g1].
  destruct He as (He & Hi & Hl).
  pose proof (normalize_limit_kept n g1 Hn) as Hk. destruct (normalize_limit n g1) as [n' g2] eqn:Hg2.
  destruct Hk as (Hk & Hj & Ht).
  assert (HT : normalize_expiry t' g2 = (t', g2)).
  { unfold normalize_expiry in Hi |- *. rewrite Ht. destruct (TimeLimit g1) as [u|].
    - destruct (t' <=? 0); [|done]. injection Hi as Hi. by rewrite Hi.
    - destruct (0 <? t'); [|done]. injection Hi as Hi. apply (f_equal TimeLimit) in Hi. cbn in Hi.
      unfold normalize_limit in Hg2. repeat if_case_in Hg2; simplify_eq; cbn in *; congruence. }
  change (default new_Flow (Some g2)) with g2. rewrite HT, Hj. split; [|split; [|done]].
  - rewrite <- He. unfold own_expiry. cbn. by rewrite Ht.
  - rewrite Hk. unfold own_limit. cbn. unfold flow_bytes. by rewrite Hl.
Qed.

(** The expiry and the traffic limit of a client are the ones last set: filling the
    record's limits and the older ones in its flow from each other changes neither, however
    often it is done, and a positive limit that is set is the limit in force, whatever the
    owner's is. *)
Theorem limits_kept users c :
  c_FlowLimit c < 2 ^ 63 ->
  EffectiveExpireAt users (normalizeLifecycleFieldsLocked c) = EffectiveExpireAt users c /\
  EffectiveFlowLimitBytes users (normalizeLifecycleFieldsLocked c) = EffectiveFlowLimitBytes users c /\
  normalizeLifecycleFieldsLocked (normalizeLifecycleFieldsLocked c) = normalizeLifecycleFieldsLocked c /\
  forall v, 0 < v < 2 ^ 63 ->
    EffectiveExpireAt users (normalizeLifecycleFieldsLocked (SetExpireAt v c)) = v /\
    EffectiveFlowLimitBytes users (normalizeLifecycleFieldsLocked (SetFlowLimitBytes v c)) = v.
Proof.
  assert (H : forall d, c_FlowLimit d < 2 ^ 63 -> let d' := normalizeLifecycleFieldsLocked d in
    EffectiveExpireAt users d' = EffectiveExpireAt users d /\
    EffectiveFlowLimitBytes users d' = EffectiveFlowLimitBytes users d /\ normalizeLifecycleFieldsLocked d' = d').
  { intros d Hd. unfold normalizeLifecycleFieldsLocked, EffectiveExpireAt, EffectiveFlowLimitBytes.
    pose proof (normalize_fields_kept (c_ExpireAt d) (c_FlowLimit d) (c_Flow d) Hd) as Hk.
    destruct (normalize_fields (c_ExpireAt d) (c_FlowLimit d) (c_Flow d)) as [[t n] f].
    destruct Hk as (He & Hl & Hi). cbn. rewrite He, Hl, Hi. split; [done|]. split; [done|].
    unfold with_limits, normalizeNonNegativeConnectionLimit. cbn. f_equal. repeat if_case; lia. }
  intros Hc. destruct (H c Hc) as (H1 & H2 & H3). repeat (split; [done|]). intros v Hv. split.
  - destruct (H (SetExpireAt v c)) as (-> & _); [done|].
    unfold SetExpireAt, EffectiveExpireAt, set_expiry, own_expiry. cbn.
    replace (v <? 0) with false by lia. by replace (0 <? v) with true by lia.
  - unfold SetFlowLimitBytes, set_limit. replace (v <? 0) with false by lia.
    edestruct H as (_ & -> & _); [cbn; lia|]. unfold EffectiveFlowLimitBytes, own_limit. cbn.
    by replace (0 <? v) with true by lia.
Qed.

(** A client whose limit of two mebibytes stands in its flow only. *)
Definition ex_legacy : Client := mkClient 1 true 0 0 None 0 0 (Some (mkFlow 0 0 2 None)) None None 0 0.

Lemma limits_kept_witness :
  EffectiveFlowLimitBytes ∅ (normalizeLifecycleFieldsLocked ex_legacy) = 2 * 1024 * 1024 /\
  EffectiveFlowLimitBytes ∅ (normalizeLifecycleFieldsLocked (SetFlowLimitBytes 5 ex_legacy)) = 5.
Proof.
  destruct (limits_kept ∅ ex_legacy ltac:(cbn; lia)) as (_ & -> & _ & H). split; [reflexivity|].
  apply (H 5). lia.
Defined.
