(* ===== verification/ConnLimit.v ===== *)
(** Connection limits: the counters of users, clients and services, and the lease a proxy
    takes for each connection it serves.

    Sources: [lib/file/obj_user_client_runtime.go] and [lib/file/obj_tunnel_host_runtime.go]
    (the counters), [server/proxy/base_limit_runtime.go] (the checks and the lease),
    [server/proxy/runtime_context.go] (the owner of a client, its quota, the lifecycle of a
    client) and [server/proxy/base_transport_runtime.go] (the observers of traffic).

    The counters are lock-free.  Module [Cas] runs any number of threads through the loops
    of loads and compare-and-swaps, interleaved in any order; the rest of the file takes
    each acquisition and each release of a counter as one step, as [Cas] justifies.  The
    tables behind the runtime store and the database give the pointer of a user by id. *)

From S2P Require Import Prelude Quota.
Import GoInt.
Open Scope Z_scope.

(** ** Counters *)

Definition addRuntimeConn (counter : Z) : Z := i32 (counter + 1).

Definition cutRuntimeConn (counter : Z) : Z := if counter <=? 0 then 0 else counter - 1.

Definition acquireRuntimeConn (counter limit : Z) : bool * Z :=
  let current := if counter <? 0 then 0 else counter in
  if negb (limit =? 0) && (limit <=? current) then (false, current) else (true, i32 (current + 1)).

(** ** The store *)

Record store := mkStore {
  users : gmap Z User; clients : gmap Z Client; tunnels : gmap Z Resource; hosts : gmap Z Resource;
  RuntimeStore : option (gmap Z Z); RuntimeDB : option (gmap Z Z)
}.

Definition with_users (st : store) us := mkStore us (clients st) (tunnels st) (hosts st) (RuntimeStore st) (RuntimeDB st).
Definition with_clients (st : store) cs := mkStore (users st) cs (tunnels st) (hosts st) (RuntimeStore st) (RuntimeDB st).
Definition with_tunnels (st : store) ts := mkStore (users st) (clients st) ts (hosts st) (RuntimeStore st) (RuntimeDB st).
Definition with_hosts (st : store) hs := mkStore (users st) (clients st) (tunnels st) hs (RuntimeStore st) (RuntimeDB st).

Definition with_u_NowConn (n : Z) (u : User) : User :=
  mkUser (u_Id u) (u_Status u) (u_ExpireAt u) (u_FlowLimit u) (u_TotalFlow u) (u_TotalTraffic u) (MaxConnections u) n.
Definition with_c_NowConn (n : Z) (c : Client) : Client :=
  mkClient (c_Id c) (c_Status c) (c_OwnerUserID c) (c_UserId c) (ownerUser c) (c_ExpireAt c) (c_FlowLimit c) (c_Flow c)
    (BridgeTraffic c) (ServiceTraffic c) (c_MaxConn c) n.
Definition with_ownerUser (p : option Z) (c : Client) : Client :=
  mkClient (c_Id c) (c_Status c) (c_OwnerUserID c) (c_UserId c) p (c_ExpireAt c) (c_FlowLimit c) (c_Flow c)
    (BridgeTraffic c) (ServiceTraffic c) (c_MaxConn c) (c_NowConn c).
Definition with_r_NowConn (n : Z) (r : Resource) : Resource :=
  mkResource (r_ExpireAt r) (r_FlowLimit r) (r_Flow r) (r_ServiceTraffic r) (r_MaxConn r) n.

Definition user_CutConn (u : User) : User := with_u_NowConn (cutRuntimeConn (u_NowConn u)) u.
Definition client_CutConn (c : Client) : Client := with_c_NowConn (cutRuntimeConn (c_NowConn c)) c.
Definition resource_CutConn (r : Resource) : Resource := with_r_NowConn (cutRuntimeConn (r_NowConn r)) r.

Definition user_GetConn (u : User) : bool * User :=
  let '(ok, n) := acquireRuntimeConn (u_NowConn u) (MaxConnections u) in (ok, with_u_NowConn n u).
Definition client_GetConn (c : Client) : bool * Client :=
  let '(ok, n) := acquireRuntimeConn (c_NowConn c) (c_MaxConn c) in (ok, with_c_NowConn n c).
Definition resource_GetConn (r : Resource) : bool * Resource :=
  let '(ok, n) := acquireRuntimeConn (r_NowConn r) (r_MaxConn r) in (ok, with_r_NowConn n r).

(** ** The owner of a client *)

Definition OwnerID (c : Client) : Z := if 0 <? c_OwnerUserID c then c_OwnerUserID c else c_UserId c.

Definition BindOwnerUser (us : gmap Z User) (p : Z) (c : Client) : Client :=
  match us !! p with
  | Some u => if u_Id u =? OwnerID c then with_ownerUser (Some p) c else with_ownerUser None c
  | None => with_ownerUser None c
  end.

Definition GetUser (table : option (gmap Z Z)) (id : Z) : option Z := t ← table; t !! id.

(** The client of a pointer, its owner and the store with the owner bound to the client. *)
Definition Resolve (st : store) (client : Z) : option Z * store :=
  match clients st !! client with
  | None => (None, st)
  | Some c =>
      if OwnerID c <=? 0 then (None, st)
      else
        match ownerUser c with
        | Some p => (Some p, st)
        | None =>
            match (match GetUser (RuntimeStore st) (OwnerID c) with
                   | Some p => Some p
                   | None => GetUser (RuntimeDB st) (OwnerID c)
                   end) with
            | Some p => (Some p, with_clients st (<[client := BindOwnerUser (users st) p c]> (clients st)))
            | None => (None, st)
            end
        end
  end.

(** ** Checks *)

Inductive limit_err :=
| errProxyClientDisabled | errProxyUserDisabled | errProxyUserNotFound
| errProxyServiceAccessExpired | errProxyTrafficLimitExceeded | errProxyConnectionLimit.

Definition CheckEnabled (client : option Client) : option limit_err :=
  match client with
  | None => Some errProxyClientDisabled
  | Some c => if negb (c_Id c =? 0) && negb (c_Status c) then Some errProxyClientDisabled else None
  end.

Definition check_user (u : User) (nowUnix : Z) : option limit_err :=
  if u_Status u =? 0 then Some errProxyUserDisabled
  else if (0 <? u_ExpireAt u) && (u_ExpireAt u <=? nowUnix) then Some errProxyServiceAccessExpired
  else if (0 <? u_FlowLimit u) && (u_FlowLimit u <=? user_TotalTrafficTotals u) then Some errProxyTrafficLimitExceeded
  else if (0 <? MaxConnections u) && (MaxConnections u <=? u_NowConn u) then Some errProxyConnectionLimit
  else None.

Definition Check (st : store) (client nowUnix : Z) : option limit_err * store :=
  match clients st !! client with
  | None => (None, st)
  | Some c =>
      if OwnerID c <=? 0 then (None, st)
      else
        let '(user, st) := Resolve st client in
        match (p ← user; users st !! p) with
        | None => (Some errProxyUserNotFound, st)
        | Some u => (check_user u nowUnix, st)
        end
  end.

Definition CheckLifecycle (st : store) (client nowUnix : Z) : option limit_err * store :=
  match clients st !! client with
  | None => (Some errProxyClientDisabled, st)
  | Some c =>
      let expireAt := EffectiveExpireAt (users st) c in
      if (0 <? expireAt) && (expireAt <=? nowUnix) then (Some errProxyServiceAccessExpired, st)
      else
        let flowLimit := EffectiveFlowLimitBytes (users st) c in
        if 0 <? flowLimit then
          let '(total, c) := TotalTrafficTotals c in
          (if flowLimit <=? total then Some errProxyTrafficLimitExceeded else None,
           with_clients st (<[client := c]> (clients st)))
        else (None, st)
  end.

Definition check_resource (rs : gmap Z Resource) (p nowUnix : Z) : option limit_err * gmap Z Resource :=
  match rs !! p with
  | None => (None, rs)
  | Some r =>
      let expireAt := resource_EffectiveExpireAt r in
      if (0 <? expireAt) && (expireAt <=? nowUnix) then (Some errProxyServiceAccessExpired, rs)
      else
        let flowLimit := resource_EffectiveFlowLimitBytes r in
        if 0 <? flowLimit then
          let '(total, r) := ServiceTrafficTotals r in
          (if flowLimit <=? total then Some errProxyTrafficLimitExceeded else None, <[p := r]> rs)
        else (None, rs)
  end.

Definition checkProxyResourceLifecycle (st : store) (tunnel host : option Z) (nowUnix : Z) : option limit_err * store :=
  match tunnel, host with
  | Some p, _ => let '(e, ts) := check_resource (tunnels st) p nowUnix in (e, with_tunnels st ts)
  | None, Some p => let '(e, hs) := check_resource (hosts st) p nowUnix in (e, with_hosts st hs)
  | None, None => (None, st)
  end.

(** ** Leases *)

Record proxyConnectionLease := mkLease {
  once : bool; l_user : option Z; l_client : option Z; l_tunnel : option Z; l_host : option Z
}.

(** Applies a change to the object of a pointer that is not nil. *)
Definition update {A} (f : A -> A) (p : option Z) (m : gmap Z A) : gmap Z A :=
  match p with Some p => alter f p m | None => m end.

(** Calls an acquisition on the object of a pointer. *)
Definition acquire {A} (get : A -> bool * A) (p : Z) (m : gmap Z A) : bool * gmap Z A :=
  match m !! p with Some a => let '(ok, a) := get a in (ok, <[p := a]> m) | None => (false, m) end.

Definition Release (st : store) (l : proxyConnectionLease) : store * proxyConnectionLease :=
  if once l then (st, l)
  else
    let st := with_hosts st (update resource_CutConn (l_host l) (hosts st)) in
    let st := with_tunnels st (update resource_CutConn (l_tunnel l) (tunnels st)) in
    let st := with_clients st (update client_CutConn (l_client l) (clients st)) in
    let st := with_users st (update user_CutConn (l_user l) (users st)) in
    (st, mkLease true (l_user l) (l_client l) (l_tunnel l) (l_host l)).

Definition AcquireConnection (st : store) (client : Z) : option limit_err * store :=
  let '(ok, cs) := acquire client_GetConn client (clients st) in
  (if ok then None else Some errProxyConnectionLimit, with_clients st cs).

Definition acquireProxyResourceConnection (st : store) (tunnel host : option Z) : bool * store :=
  match tunnel, host with
  | Some p, _ => let '(ok, ts) := acquire resource_GetConn p (tunnels st) in (ok, with_tunnels st ts)
  | None, Some p => let '(ok, hs) := acquire resource_GetConn p (hosts st) in (ok, with_hosts st hs)
  | None, None => (true, st)
  end.

Definition acquireConnectionLease (st : store) (client : Z) (tunnel host : option Z)
  : (limit_err + proxyConnectionLease) * store :=
  let lease := mkLease false None (Some client) tunnel host in
  let '(user, st) := Resolve st client in
  let '(ok, st, lease) :=
    match user with
    | None => (true, st, lease)
    | Some p => let '(ok, us) := acquire user_GetConn p (users st) in
                (ok, with_users st us, mkLease false (Some p) (Some client) tunnel host)
    end in
  if negb ok then (inl errProxyConnectionLimit, st)
  else
    let '(err, st) := AcquireConnection st client in
    match err with
    | Some e => (inl e, fst (Release st lease))
    | None =>
        let '(ok, st) := acquireProxyResourceConnection st tunnel host in
        if ok then (inr lease, st) else (inl errProxyConnectionLimit, fst (Release st lease))
    end.

Definition CheckFlowAndConnNum (st : store) (client : option Z) (tunnel host : option Z) (nowUnix : Z)
  : (limit_err + proxyConnectionLease) * store :=
  match CheckEnabled (p ← client; clients st !! p), client with
  | Some e, _ => (inl e, st)
  | None, None => (inl errProxyClientDisabled, st)
  | None, Some client =>
      match Check st client nowUnix with
      | (Some e, st) => (inl e, st)
      | (None, st) =>
          match CheckLifecycle st client nowUnix with
          | (Some e, st) => (inl e, st)
          | (None, st) =>
              match checkProxyResourceLifecycle st tunnel host nowUnix with
              | (Some e, st) => (inl e, st)
              | (None, st) => acquireConnectionLease st client tunnel host
              end
          end
      end
  end.

(** ** Traffic of a connection *)

Definition observeBridgeTraffic (now now' i o : Z) (client : option Z) (st : store) : option quota_err * store :=
  if (i =? 0) && (o =? 0) then (None, st)
  else
    match (p ← client; c ← clients st !! p; Some (p, c)) with
    | None => (None, st)
    | Some (p, c) =>
        let '(e, c, us) := observeTraffic true now now' i o c (users st) in
        (e, with_users (with_clients st (<[p := c]> (clients st))) us)
    end.

Definition observe_resource (now i o : Z) (p : Z) (rs : gmap Z Resource) : option quota_err * gmap Z Resource :=
  match rs !! p with
  | None => (None, rs)
  | Some r => let '(e, r) := resource_ObserveServiceTraffic now i o r in (e, <[p := r]> rs)
  end.

Definition observeServiceTraffic (nowR now now' i o : Z) (client tunnel host : option Z) (st : store)
  : option quota_err * store :=
  if (i =? 0) && (o =? 0) then (None, st)
  else
    let '(e, st) :=
      match tunnel, host with
      | Some p, _ => let '(e, ts) := observe_resource nowR i o p (tunnels st) in (e, with_tunnels st ts)
      | None, Some p => let '(e, hs) := observe_resource nowR i o p (hosts st) in (e, with_hosts st hs)
      | None, None => (None, st)
      end in
    match e, (p ← client; c ← clients st !! p; Some (p, c)) with
    | Some e, _ => (Some e, st)
    | None, None => (None, st)
    | None, Some (p, c) =>
        let '(e, c, us) := observeTraffic false now now' i o c (users st) in
        (e, with_users (with_clients st (<[p := c]> (clients st))) us)
    end.

(** ** Threads on one counter *)

Module Cas.

(** Where a thread is: between connections; about to load the counter for an acquisition;
    about to reset a negative value it loaded; about to swap the value it loaded for the
    next one; serving the connection; and the same points of a release. *)
Inductive pc :=
| Idle | Load | ResetNegative (current : Z) | Swap (current : Z)
| Held | CutLoad | CutZero (current : Z) | CutSwap (current : Z).

Record state := mkState { counter : Z; threads : list pc }.

(** The part of the acquiring loop after the counter is known not to be negative. *)
Definition decide_acquire (limit current : Z) : pc :=
  if negb (limit =? 0) && (limit <=? current) then Idle else Swap current.

(** One atomic action of one thread. *)
Definition act (limit : Z) (n : Z) (t : pc) : Z * pc :=
  match t with
  | Idle => (n, Load)
  | Load => (n, if n <? 0 then ResetNegative n else decide_acquire limit n)
  | ResetNegative current => if n =? current then (0, decide_acquire limit 0) else (n, Load)
  | Swap current => if n =? current then (i32 (current + 1), Held) else (n, Load)
  | Held => (n, CutLoad)
  | CutLoad => (n, if n <=? 0 then CutZero n else CutSwap n)
  | CutZero current => if n =? current then (0, Idle) else (n, CutLoad)
  | CutSwap current => if n =? current then (current - 1, Idle) else (n, CutLoad)
  end.

Inductive step (limit : Z) : state -> state -> Prop :=
| step_act n ts i t n' t' :
    ts !! i = Some t -> act limit n t = (n', t') -> step limit (mkState n ts) (mkState n' (<[i := t']> ts)).

Definition holds (t : pc) : bool :=
  match t with Held | CutLoad | CutZero _ | CutSwap _ => true | _ => false end.

(** The connections being served. *)
Definition holders (ts : list pc) : Z := Z.of_nat (length (filter (fun t => holds t = true) ts)).

(** What a thread about to swap knows of the value it loaded. *)
Definition knows (limit : Z) (t : pc) : Prop :=
  match t with
  | Swap current => 0 <= current /\ (limit = 0 \/ current < limit)
  | CutSwap current => 0 < current
  | ResetNegative current => current < 0
  | CutZero current => current <= 0
  | _ => True
  end.

Record inv (limit : Z) (s : state) : Prop := {
  inv_count : counter s = holders (threads s);
  inv_limit : limit = 0 \/ counter s <= Z.max 0 limit;
  inv_knows : Forall (knows limit) (threads s)
}.

Lemma holders_insert ts i t t' :
  ts !! i = Some t -> holders (<[i := t']> ts) = holders ts - (if holds t then 1 else 0) + (if holds t' then 1 else 0).
Proof.
  intros Hi. rewrite <- (take_drop_middle ts i t Hi) at 2.
  pose proof (lookup_lt_Some _ _ _ Hi) as Hl.
  rewrite insert_take_drop by done. unfold holders.
  rewrite !filter_app, !filter_cons, !length_app.
  destruct (holds t), (holds t'); repeat (destruct decide; try done); cbn [length]; lia.
Qed.

Lemma holders_bound ts i t : ts !! i = Some t -> holds t = false -> holders ts < Z.of_nat (length ts).
Proof.
  intros Hi Ht. unfold holders. rewrite <- (take_drop_middle ts i t Hi).
  rewrite filter_app, filter_cons, !length_app, Ht. destruct decide; [done|].
  pose proof (length_filter (fun t => holds t = true) (take i ts)).
  pose proof (length_filter (fun t => holds t = true) (drop (S i) ts)). cbn [length]. lia.
Qed.

Lemma holders_pos ts i t : ts !! i = Some t -> holds t = true -> 0 < holders ts.
Proof.
  intros Hi Ht. unfold holders. rewrite <- (take_drop_middle ts i t Hi).
  rewrite filter_app, filter_cons, !length_app, Ht. destruct decide; [|done]. cbn [length]. lia.
Qed.

Lemma holders_nonneg ts : 0 <= holders ts.
Proof. unfold holders. lia. Qed.

Lemma decide_acquire_cases limit current :
  decide_acquire limit current = Idle \/
  decide_acquire limit current = Swap current /\ (limit = 0 \/ current < limit).
Proof. unfold decide_acquire. destruct (limit =? 0) eqn:?, (limit <=? current) eqn:?; cbn; lia || auto with lia. Qed.

(** What one action does, for a counter that holds the number of connections served. *)
Lemma act_spec limit ts i t n' t' :
  ts !! i = Some t -> act limit (holders ts) t = (n', t') -> knows limit t ->
  limit = 0 \/ holders ts <= Z.max 0 limit -> Z.of_nat (length ts) < 2 ^ 31 ->
  n' = holders (<[i := t']> ts) /\ (limit = 0 \/ n' <= Z.max 0 limit) /\ knows limit t'.
Proof.
  intros Hi Ha Hk Hl Hn. pose proof (holders_nonneg ts) as H0.
  rewrite (holders_insert _ _ _ t' Hi).
  assert (Hb : holds t = false -> holders ts < Z.of_nat (length ts)) by eauto using holders_bound.
  assert (Hp : holds t = true -> 0 < holders ts) by eauto using holders_pos.
  destruct t; cbn [act holds knows] in *; simplify_eq;
    repeat first
      [ match goal with H : (if ?b then _ else _) = _ |- _ => destruct b eqn:? end
      | match goal with |- context [decide_acquire ?l ?c] =>
          destruct (decide_acquire_cases l c) as [-> | [-> ?]] end
      | match goal with H : (_, decide_acquire ?l ?c) = _ |- _ =>
          destruct (decide_acquire_cases l c) as [He | [He ?]]; rewrite He in H end
      | if_case | progress simplify_eq ];
    cbn [holds knows] in *; rewrite ?i32_small; try (cbn; lia).
Qed.

Lemma step_inv limit s s' :
  Z.of_nat (length (threads s)) < 2 ^ 31 -> step limit s s' -> inv limit s ->
  inv limit s' /\ length (threads s') = length (threads s).
Proof.
  intros Hn Hs [Hc Hl Hk]. destruct Hs as [n ts i t n' t' Hi Ha]. cbn [counter threads] in *. subst n.
  assert (knows limit t) as Ht by (eapply Forall_lookup_1; eauto).
  edestruct act_spec as (? & ? & ?); eauto. split; [|apply length_insert].
  split; cbn [counter threads]; auto. apply Forall_insert; auto.
Qed.

Lemma reach_inv limit s s' :
  rtc (step limit) s s' -> Z.of_nat (length (threads s)) < 2 ^ 31 -> inv limit s -> inv limit s'.
Proof.
  induction 1 as [|s s1 s2 H1 _ IH]; [done|]. intros Hn Hi.
  destruct (step_inv _ _ _ Hn H1 Hi) as [Hi' Hlen]. apply IH; [rewrite Hlen|]; done.
Qed.

(** The counter before any connection. *)
Definition start (n : nat) : state := mkState 0 (replicate n Idle).

Lemma start_inv limit n : inv limit (start n).
Proof.
  split; cbn [counter threads start].
  - unfold holders. induction n as [|n IH]; cbn [replicate]; [done|].
    rewrite filter_cons. destruct decide; done.
  - lia.
  - apply Forall_replicate. done.
Qed.

(** A step that ends an acquisition or a release does to the counter what the operation
    does in one piece, and every other step leaves a counter that is not negative alone. *)
Definition atomic (limit : Z) (n : Z) (t : pc) (n' : Z) (t' : pc) : Prop :=
  match t, t' with
  | Swap _, Held => acquireRuntimeConn n limit = (true, n')
  | Load, Idle | ResetNegative _, Idle => acquireRuntimeConn n limit = (false, n')
  | CutZero _, Idle | CutSwap _, Idle => cutRuntimeConn n = n'
  | _, _ => n' = Z.max 0 n \/ n' = n
  end.

Lemma act_atomic limit n t n' t' : act limit n t = (n', t') -> knows limit t -> atomic limit n t n' t'.
Proof.
  intros Ha Hk. unfold act, decide_acquire in Ha.
  destruct t; cbn [knows] in *; repeat if_case_in Ha; simplify_eq; cbn [atomic]; auto;
    unfold acquireRuntimeConn, cutRuntimeConn; repeat if_case; try lia; auto with lia.
Qed.
End Cas.

(** ** Histories of requests *)

Inductive op :=
| Request (client tunnel host : option Z) (nowUnix : Z)
| Free (lease : nat).

(** The store and the leases granted so far, released or not. *)
Definition run_op (s : store * list proxyConnectionLease) (o : op) : store * list proxyConnectionLease :=
  match o with
  | Request client tunnel host now =>
      match CheckFlowAndConnNum s.1 client tunnel host now with
      | (inr l, st) => (st, s.2 ++ [l])
      | (inl _, st) => (st, s.2)
      end
  | Free i =>
      match s.2 !! i with
      | Some l => let '(st, l) := Release s.1 l in (st, <[i := l]> s.2)
      | None => s
      end
  end.
Definition run (ops : list op) (s : store * list proxyConnectionLease) : store * list proxyConnectionLease :=
  fold_left run_op ops s.

(** The leases of a user that are not released. *)
Definition of_user (p : Z) (l : proxyConnectionLease) : bool := negb (once l) && bool_decide (l_user l = Some p).
Definition of_client (p : Z) (l : proxyConnectionLease) : bool := negb (once l) && bool_decide (l_client l = Some p).
Definition live (f : proxyConnectionLease -> bool) (ls : list proxyConnectionLease) : Z :=
  Z.of_nat (length (filter (fun l => f l = true) ls)).

(** ** Lemmas *)

Lemma acquire_small n limit :
  0 <= n < 2 ^ 31 - 1 ->
  acquireRuntimeConn n limit = if negb (limit =? 0) && (limit <=? n) then (false, n) else (true, n + 1).
Proof.
  intros. unfold acquireRuntimeConn. replace (n <? 0) with false by lia.
  rewrite i32_small by lia. done.
Qed.

Lemma acquire_below n limit : 0 <= n < 2 ^ 31 - 1 -> limit = 0 \/ n < limit -> acquireRuntimeConn n limit = (true, n + 1).
Proof. intros. rewrite acquire_small by done. destruct (limit =? 0) eqn:?, (limit <=? n) eqn:?; cbn; lia || done. Qed.

Lemma acquire_full n limit : 0 <= n < 2 ^ 31 - 1 -> limit <> 0 -> limit <= n -> acquireRuntimeConn n limit = (false, n).
Proof. intros. rewrite acquire_small by done. destruct (limit =? 0) eqn:?, (limit <=? n) eqn:?; cbn; lia || done. Qed.

Lemma cut_succ n : 0 <= n -> cutRuntimeConn (n + 1) = n.
Proof. intros. unfold cutRuntimeConn. destruct (n + 1 <=? 0) eqn:?; lia. Qed.

Lemma live_app f ls ls' : live f (ls ++ ls') = live f ls + live f ls'.
Proof. unfold live. rewrite filter_app, length_app. lia. Qed.

Lemma live_one f l : live f [l] = if f l then 1 else 0.
Proof. unfold live. rewrite filter_cons. destruct (f l); destruct decide; done. Qed.

Lemma live_nonneg f ls : 0 <= live f ls.
Proof. unfold live. lia. Qed.

Lemma live_length f ls : live f ls <= Z.of_nat (length ls).
Proof. unfold live. pose proof (length_filter (fun l => f l = true) ls). lia. Qed.

Lemma live_insert f ls i l l' :
  ls !! i = Some l -> live f (<[i := l']> ls) = live f ls - live f [l] + live f [l'].
Proof.
  intros Hi. pose proof (lookup_lt_Some _ _ _ Hi) as Hl.
  rewrite insert_take_drop by done.
  enough (live f ls = live f (take i ls) + (live f [l] + live f (drop (S i) ls))) as ->.
  { change (l' :: drop (S i) ls) with ([l'] ++ drop (S i) ls). rewrite !live_app. lia. }
  rewrite <- (take_drop_middle ls i l Hi) at 1.
  change (l :: drop (S i) ls) with ([l] ++ drop (S i) ls). rewrite !live_app. lia.
Qed.

(** The checks touch no user. *)
Lemma Resolve_users st client : users (Resolve st client).2 = users st.
Proof. unfold Resolve. repeat (case_match; try done). Qed.

Lemma Check_users st client now e st' : Check st client now = (e, st') -> users st' = users st.
Proof.
  unfold Check. destruct (Resolve st client) as [u st1] eqn:Hr.
  pose proof (Resolve_users st client) as H. rewrite Hr in H. cbn in H.
  intros He. repeat (case_match; simplify_eq; try done).
Qed.

Lemma CheckLifecycle_users st client now e st' : CheckLifecycle st client now = (e, st') -> users st' = users st.
Proof. unfold CheckLifecycle. intros He. repeat (case_match; simplify_eq; try done). Qed.

Lemma checkResource_users st t h now e st' :
  checkProxyResourceLifecycle st t h now = (e, st') -> users st' = users st.
Proof. unfold checkProxyResourceLifecycle. intros He. repeat (case_match; simplify_eq; try done). Qed.

Lemma AcquireConnection_users st client e st' : AcquireConnection st client = (e, st') -> users st' = users st.
Proof. unfold AcquireConnection. intros He. case_match. simplify_eq. done. Qed.

Lemma acquireResource_users st t h ok st' :
  acquireProxyResourceConnection st t h = (ok, st') -> users st' = users st.
Proof. unfold acquireProxyResourceConnection. intros He. repeat (case_match; simplify_eq; try done). Qed.

Lemma Release_users st l :
  users (Release st l).1 = if once l then users st else update user_CutConn (l_user l) (users st).
Proof. unfold Release. destruct (once l); done. Qed.

(** Counters a further connection does not wrap. *)
Definition counted (us : gmap Z User) : Prop := forall p u, us !! p = Some u -> 0 <= u_NowConn u < 2 ^ 31 - 1.

Definition one_more (us : gmap Z User) (user : option Z) (us' : gmap Z User) : Prop :=
  match user with
  | None => us' = us
  | Some p => exists u, us !! p = Some u /\ (MaxConnections u = 0 \/ u_NowConn u < MaxConnections u) /\
                us' = <[p := with_u_NowConn (u_NowConn u + 1) u]> us
  end.

Lemma with_u_NowConn_same u : with_u_NowConn (u_NowConn u) u = u.
Proof. by destruct u. Qed.

Lemma acquire_user us p ok us' :
  counted us -> acquire user_GetConn p us = (ok, us') -> if ok then one_more us (Some p) us' else us' = us.
Proof.
  intros Hc. unfold acquire. destruct (us !! p) as [u|] eqn:Hp; [|by intros [= <- <-]].
  specialize (Hc _ _ Hp). unfold user_GetConn. rewrite acquire_small by done.
  destruct (negb (MaxConnections u =? 0) && (MaxConnections u <=? u_NowConn u)) eqn:Hl; intros [= <- <-].
  - rewrite with_u_NowConn_same. by apply insert_id.
  - exists u. repeat split; auto. zbool; lia.
Qed.

Lemma cut_one_more us user us' : counted us -> one_more us user us' -> update user_CutConn user us' = us.
Proof.
  intros Hc H. destruct user as [p|]; cbn in *; [|done].
  destruct H as (u & Hp & _ & ->). rewrite alter_insert_eq.
  unfold user_CutConn. cbn [with_u_NowConn u_NowConn]. rewrite cut_succ by (specialize (Hc _ _ Hp); lia).
  rewrite <- (insert_id us p u) at 2 by done. f_equal. by destruct u.
Qed.

Lemma lease_users st client t h r st' :
  counted (users st) -> acquireConnectionLease st client t h = (r, st') ->
  match r with
  | inl _ => users st' = users st
  | inr l => once l = false /\ l_client l = Some client /\ one_more (users st) (l_user l) (users st')
  end.
Proof.
  intros Hc. unfold acquireConnectionLease.
  pose proof (Resolve_users st client) as Hr. destruct (Resolve st client) as [user st1]. cbn in Hr.
  rewrite <- Hr in Hc |- *. clear Hr st.
  set (acq := match user with None => _ | Some p => _ end).
  assert (Ha : let '(ok, st2, l) := acq in
               once l = false /\ l_client l = Some client /\ if ok then one_more (users st1) (l_user l) (users st2)
               else users st2 = users st1).
  { subst acq. destruct user as [p|]; [|done].
    destruct (acquire _ _ _) as [ok us] eqn:E. apply acquire_user in E; [|done]. by destruct ok. }
  destruct acq as [[ok st2] l]. destruct Ha as (Ho & Hl & Ha).
  destruct ok; cbn [negb]; [|by intros [= <- <-]].
  destruct (AcquireConnection st2 client) as [e st3] eqn:E3. apply AcquireConnection_users in E3.
  assert (Hrel : forall st4, users st4 = users st2 -> users (Release st4 l).1 = users st1).
  { intros st4 H4. rewrite Release_users, Ho, H4. by apply cut_one_more. }
  destruct e as [e|]; [intros [= <- <-]; by apply Hrel|].
  destruct (acquireProxyResourceConnection st3 t h) as [ok st4] eqn:E4. apply acquireResource_users in E4.
  destruct ok; intros [= <- <-]; [|apply Hrel; congruence].
  repeat split; auto. rewrite E4, E3. done.
Qed.

Lemma request_users st client t h now r st' :
  counted (users st) -> CheckFlowAndConnNum st client t h now = (r, st') ->
  match r with
  | inl _ => users st' = users st
  | inr l => once l = false /\ l_client l = client /\ one_more (users st) (l_user l) (users st')
  end.
Proof.
  intros Hc. unfold CheckFlowAndConnNum. destruct (CheckEnabled _); [by intros [= <- <-]|].
  destruct client as [client|]; [|by intros [= <- <-]].
  destruct (Check st client now) as [[e|] st1] eqn:E1; apply Check_users in E1; [by intros [= <- <-]|].
  destruct (CheckLifecycle st1 client now) as [[e|] st2] eqn:E2; apply CheckLifecycle_users in E2;
    [intros [= <- <-]; congruence|].
  destruct (checkProxyResourceLifecycle st2 t h now) as [[e|] st3] eqn:E3; apply checkResource_users in E3;
    [intros [= <- <-]; congruence|].
  replace (users st) with (users st3) in * by congruence. intros. by eapply lease_users.
Qed.

(** Every user's counter is the number of leases held for the user, within its limit. *)
Definition exact (s : store * list proxyConnectionLease) : Prop :=
  forall p u, users s.1 !! p = Some u ->
    u_NowConn u = live (of_user p) s.2 /\ (0 < MaxConnections u -> live (of_user p) s.2 <= MaxConnections u).

Lemma exact_counted s : exact s -> Z.of_nat (length s.2) < 2 ^ 31 - 1 -> counted (users s.1).
Proof.
  intros He Hn p u Hp. destruct (He p u Hp) as [-> _].
  pose proof (live_nonneg (of_user p) s.2). pose proof (live_length (of_user p) s.2). lia.
Qed.

Lemma of_user_new p l : once l = false -> live (of_user p) [l] = if decide (l_user l = Some p) then 1 else 0.
Proof. intros Ho. rewrite live_one. unfold of_user. rewrite Ho. case_bool_decide; destruct decide; done. Qed.

Lemma exact_grant st ls l us' :
  exact (st, ls) -> once l = false -> one_more (users st) (l_user l) us' ->
  forall st', users st' = us' -> exact (st', ls ++ [l]).
Proof.
  intros He Ho Hm st' Hu p u Hp. cbn in *. rewrite live_app, of_user_new by done. rewrite Hu in Hp. clear Hu.
  destruct (l_user l) as [q|]; cbn in Hm.
  - destruct Hm as (v & Hq & Hlim & ->). destruct (decide (Some q = Some p)) as [[= ->]|Hne].
    + rewrite lookup_insert_eq in Hp. injection Hp as <-. destruct (He _ _ Hq). cbn in *. split; lia.
    + rewrite lookup_insert_ne in Hp by congruence. destruct (He _ _ Hp). cbn in *. split; lia.
  - subst us'. destruct (decide _); [done|]. destruct (He _ _ Hp). cbn in *. split; lia.
Qed.

Lemma exact_release st ls i l :
  exact (st, ls) -> ls !! i = Some l -> once l = false ->
  exact ((Release st l).1, <[i := (Release st l).2]> ls).
Proof.
  intros He Hi Ho p u Hp. cbn [fst snd] in *. rewrite Release_users, Ho in Hp.
  pose proof (live_insert (of_user p) ls i l (Release st l).2 Hi) as Hn.
  pose proof (live_nonneg (of_user p) (<[i := (Release st l).2]> ls)) as H0.
  assert (Hz : live (of_user p) [(Release st l).2] = 0) by (rewrite live_one; unfold of_user, Release; by rewrite Ho).
  rewrite Hz, of_user_new in Hn by done.
  destruct (decide (l_user l = Some p)) as [E|E].
  - rewrite E in Hp. cbn [update] in Hp. rewrite lookup_alter_eq in Hp.
    destruct (users st !! p) as [v|] eqn:Hv; [|done]. injection Hp as <-.
    destruct (He _ _ Hv) as [Hc Hl]. cbn in *. unfold cutRuntimeConn. split; [|lia].
    destruct (u_NowConn v <=? 0) eqn:?; lia.
  - assert (Hp' : users st !! p = Some u).
    { destruct (l_user l) as [q|]; cbn in Hp; [|done]. by rewrite lookup_alter_ne in Hp by congruence. }
    destruct (He _ _ Hp'). cbn in *. lia.
Qed.

Lemma run_op_exact s o :
  Z.of_nat (length s.2) < 2 ^ 31 - 1 -> exact s -> exact (run_op s o) /\ (length (run_op s o).2 <= S (length s.2))%nat.
Proof.
  destruct s as [st ls]. intros Hn He. pose proof (exact_counted _ He Hn) as Hc. destruct o as [c t h now|i]; cbn in *.
  - destruct (CheckFlowAndConnNum st c t h now) as [[e|l] st'] eqn:E; apply request_users in E; auto; cbn.
    + split; [|lia]. intros p u Hp. cbn in *. rewrite E in Hp. by apply He.
    + destruct E as (Ho & _ & Hm). split; [by eapply exact_grant|]. rewrite length_app. cbn. lia.
  - destruct (ls !! i) as [l|] eqn:Hi; [|auto with lia]. destruct (once l) eqn:Ho.
    + unfold Release. rewrite Ho. cbn. rewrite list_insert_id by done. auto with lia.
    + pose proof (exact_release _ _ _ _ He Hi Ho). destruct (Release st l). cbn in *.
      rewrite length_insert. auto with lia.
Qed.

Lemma run_exact ops s :
  Z.of_nat (length s.2) + Z.of_nat (length ops) < 2 ^ 31 -> exact s -> exact (run ops s).
Proof.
  revert s. induction ops as [|o ops IH]; intros s Hn He; [done|]. cbn [run fold_left].
  cbn [length] in Hn. destruct (run_op_exact s o) as [He' Hl]; [lia|done|]. apply IH; [lia|done].
Qed.

(** ** A refused connection *)

(** A counter that takes one more connection. *)
Definition room (n limit : Z) : Prop := 0 <= n < 2 ^ 31 - 1 /\ (limit = 0 \/ n < limit).

Definition user_room (st : store) (user : option Z) : Prop :=
  match user with None => True | Some p => exists u, users st !! p = Some u /\ room (u_NowConn u) (MaxConnections u) end.
Definition resource_room (rs : gmap Z Resource) (p : Z) : Prop :=
  exists r, rs !! p = Some r /\ room (r_NowConn r) (r_MaxConn r).
Definition service_room (st : store) (tunnel host : option Z) : Prop :=
  match tunnel, host with
  | Some p, _ => resource_room (tunnels st) p
  | None, Some p => resource_room (hosts st) p
  | None, None => True
  end.

Lemma with_clients_same st cs : with_clients st cs = st -> cs = clients st.
Proof. intros H. by rewrite <- H. Qed.

Lemma with_clients_id st : with_clients st (clients st) = st.
Proof. by destruct st. Qed.

Lemma BindOwnerUser_conn us p n c : BindOwnerUser us p (with_c_NowConn n c) = with_c_NowConn n (BindOwnerUser us p c).
Proof. unfold BindOwnerUser, OwnerID. cbn. repeat case_match; done. Qed.

(** The owner found does not depend on the counters. *)
Lemma Resolve_conn st client c user st' n :
  clients st !! client = Some c -> Resolve st client = (user, st) ->
  clients st' !! client = Some (with_c_NowConn n c) -> users st' = users st ->
  RuntimeStore st' = RuntimeStore st -> RuntimeDB st' = RuntimeDB st ->
  Resolve st' client = (user, st').
Proof.
  intros Hc Hr Hc' Hu Hs Hd. unfold Resolve in *. rewrite Hc in Hr. rewrite Hc', Hu, Hs, Hd.
  change (OwnerID (with_c_NowConn n c)) with (OwnerID c). cbn [ownerUser with_c_NowConn].
  destruct (OwnerID c <=? 0); [congruence|]. destruct (ownerUser c); [congruence|].
  destruct (match GetUser _ _ with Some p => Some p | None => _ end) as [p|]; [|congruence].
  injection Hr as <- Hw. apply with_clients_same in Hw.
  assert (BindOwnerUser (users st) p c = c) as Hb.
  { assert (Some (BindOwnerUser (users st) p c) = Some c) as [=]; [|done].
    rewrite <- Hc, <- Hw. by rewrite lookup_insert_eq. }
  rewrite BindOwnerUser_conn, Hb. by rewrite insert_id, with_clients_id by done.
Qed.

Lemma acquire_user_room st p :
  user_room st (Some p) ->
  exists us, acquire user_GetConn p (users st) = (true, us) /\ one_more (users st) (Some p) us /\
    update user_CutConn (Some p) us = users st.
Proof.
  intros (u & Hu & Hn & Hl). unfold acquire. rewrite Hu. unfold user_GetConn. rewrite acquire_below by done.
  eexists. split; [done|]. split; [by exists u|]. cbn. rewrite alter_insert_eq.
  unfold user_CutConn. cbn. rewrite cut_succ by lia.
  rewrite <- (insert_id (users st) p u) at 2 by done. f_equal. by destruct u.
Qed.

(** The rest of the acquisition when the owner has room. *)
Definition after_user (st : store) (client : Z) (tunnel host user : option Z)
  : (limit_err + proxyConnectionLease) * store :=
  let lease := mkLease false user (Some client) tunnel host in
  let '(err, st) := AcquireConnection st client in
  match err with
  | Some e => (inl e, fst (Release st lease))
  | None =>
      let '(ok, st) := acquireProxyResourceConnection st tunnel host in
      if ok then (inr lease, st) else (inl errProxyConnectionLimit, fst (Release st lease))
  end.

Lemma lease_after_user st client t h user :
  Resolve st client = (user, st) -> user_room st user ->
  exists us, one_more (users st) user us /\ update user_CutConn user us = users st /\
    acquireConnectionLease st client t h = after_user (with_users st us) client t h user.
Proof.
  intros Hr Hu. unfold acquireConnectionLease. rewrite Hr. destruct user as [p|].
  - destruct (acquire_user_room _ _ Hu) as (us & Ha & Hm & Hc). exists us. by rewrite Ha.
  - exists (users st). by destruct st.
Qed.

Lemma client_full st client c :
  clients st !! client = Some c -> c_MaxConn c <> 0 -> 0 <= c_NowConn c < 2 ^ 31 - 1 -> c_MaxConn c <= c_NowConn c ->
  AcquireConnection st client = (Some errProxyConnectionLimit, st).
Proof.
  intros Hc Hm Hn Hl. unfold AcquireConnection, acquire, client_GetConn. rewrite Hc, acquire_full by done.
  replace (with_c_NowConn (c_NowConn c) c) with c by (by destruct c). by rewrite insert_id, with_clients_id by done.
Qed.

Lemma client_room st client c :
  clients st !! client = Some c -> room (c_NowConn c) (c_MaxConn c) ->
  AcquireConnection st client =
    (None, with_clients st (<[client := with_c_NowConn (c_NowConn c + 1) c]> (clients st))).
Proof. intros Hc [Hn Hl]. unfold AcquireConnection, acquire, client_GetConn. by rewrite Hc, acquire_below. Qed.

Lemma resource_room_cut rs p q : resource_room rs p -> resource_room (update resource_CutConn q rs) p.
Proof.
  intros (r & Hr & Hn & Hl). destruct q as [q|]; cbn; [|by exists r].
  destruct (decide (q = p)) as [->|Hne].
  - exists (resource_CutConn r). rewrite lookup_alter_eq, Hr. split; [done|].
    cbn. unfold cutRuntimeConn. destruct (r_NowConn r <=? 0) eqn:?; split; lia.
  - exists r. by rewrite lookup_alter_ne.
Qed.

Lemma service_room_release st l t h : service_room st t h -> service_room (Release st l).1 t h.
Proof.
  unfold service_room, Release. destruct (once l); [done|].
  destruct t as [p|], h as [q|]; cbn; auto using resource_room_cut.
Qed.

Lemma acquire_service_room st t h :
  service_room st t h -> exists st', acquireProxyResourceConnection st t h = (true, st') /\ clients st' = clients st.
Proof.
  unfold service_room, acquireProxyResourceConnection, acquire, resource_GetConn.
  destruct t as [p|]; [|destruct h as [p|]; [|by eauto]];
    intros (r & Hr & Hn & Hl); rewrite Hr, acquire_below by done; by eexists.
Qed.

(** A client at its limit: the request is refused, and the same request is then granted. *)
Lemma refused_then_granted st client c user t h :
  clients st !! client = Some c -> 0 < c_MaxConn c < 2 ^ 31 - 1 -> c_NowConn c = c_MaxConn c ->
  Resolve st client = (user, st) -> user_room st user -> service_room st t h ->
  exists st1 l st2,
    acquireConnectionLease st client t h = (inl errProxyConnectionLimit, st1) /\
    acquireConnectionLease st1 client t h = (inr l, st2) /\
    c_NowConn <$> clients st1 !! client = Some (c_MaxConn c - 1) /\
    c_NowConn <$> clients st2 !! client = Some (c_MaxConn c).
Proof.
  intros Hc Hm Hn Hr Hu Hs.
  destruct (lease_after_user st client t h user Hr Hu) as (us & Hone & Hcut & Heq).
  set (l := mkLease false user (Some client) t h).
  exists (Release (with_users st us) l).1. set (st1 := (Release (with_users st us) l).1).
  assert (E1 : acquireConnectionLease st client t h = (inl errProxyConnectionLimit, st1)).
  { rewrite Heq. unfold after_user. by erewrite client_full; [..|done|lia|lia|lia]. }
  assert (Hc1 : clients st1 !! client = Some (with_c_NowConn (c_MaxConn c - 1) c)).
  { subst st1 l. unfold Release. cbn. rewrite lookup_alter_eq, Hc. cbn. f_equal. unfold client_CutConn, cutRuntimeConn.
    rewrite Hn. replace (c_MaxConn c <=? 0) with false by lia. done. }
  assert (Hu1 : users st1 = users st) by (subst st1; rewrite Release_users; done).
  assert (Hr1 : Resolve st1 client = (user, st1)) by (by eapply (Resolve_conn st client c)).
  assert (Hs1 : service_room st1 t h) by (by apply service_room_release).
  assert (Hur : user_room st1 user) by (unfold user_room; by rewrite Hu1).
  destruct (lease_after_user st1 client t h user Hr1 Hur) as (us2 & _ & _ & Heq2).
  assert (Hac : AcquireConnection (with_users st1 us2) client =
    (None, with_clients (with_users st1 us2) (<[client := with_c_NowConn (c_MaxConn c) c]> (clients st1)))).
  { rewrite (client_room _ _ (with_c_NowConn (c_MaxConn c - 1) c)); [|done|split; cbn; lia]. cbn. by replace (c_MaxConn c - 1 + 1) with (c_MaxConn c) by lia. }
  edestruct (acquire_service_room (with_clients (with_users st1 us2)
    (<[client := with_c_NowConn (c_MaxConn c) c]> (clients st1))) t h) as (st2 & Ha & Hcl); [done|].
  exists l, st2. split; [done|]. split; [|split].
  - rewrite Heq2. unfold after_user. by rewrite Hac, Ha.
  - by rewrite Hc1.
  - rewrite Hcl. cbn. by rewrite lookup_insert_eq.
Qed.

(** ** A granted connection *)

(** The counters of a store. *)
Definition conns (st : store) : gmap Z Z * gmap Z Z * gmap Z Z * gmap Z Z :=
  (u_NowConn <$> users st, c_NowConn <$> clients st, r_NowConn <$> tunnels st, r_NowConn <$> hosts st).

Definition in_range (m : gmap Z Z) : Prop := forall p n, m !! p = Some n -> 0 <= n < 2 ^ 31 - 1.
Definition fits (st : store) : Prop :=
  in_range (u_NowConn <$> users st) /\ in_range (c_NowConn <$> clients st) /\
  in_range (r_NowConn <$> tunnels st) /\ in_range (r_NowConn <$> hosts st).

Lemma fits_conns st st' : conns st' = conns st -> fits st -> fits st'.
Proof. unfold conns, fits. intros [= -> -> -> ->]. done. Qed.

(** The counters with their limits. *)
Definition ug (u : User) : Z * Z := (u_NowConn u, MaxConnections u).
Definition cg (c : Client) : Z * Z := (c_NowConn c, c_MaxConn c).
Definition rg (r : Resource) : Z * Z := (r_NowConn r, r_MaxConn r).
Definition gauge (st : store) : gmap Z (Z * Z) * gmap Z (Z * Z) * gmap Z (Z * Z) * gmap Z (Z * Z) :=
  (ug <$> users st, cg <$> clients st, rg <$> tunnels st, rg <$> hosts st).

Lemma gauge_conns st st' : gauge st' = gauge st -> conns st' = conns st.
Proof.
  assert (H : forall s, conns s = let '(a, b, c, d) := gauge s in (fst <$> a, fst <$> b, fst <$> c, fst <$> d)).
  { intros. unfold conns, gauge. by rewrite <- !map_fmap_compose. }
  intros E. by rewrite !H, E.
Qed.

Lemma same_count {A B} (f : A -> B) (m : gmap Z A) (p : Z) (a b : A) : m !! p = Some a -> f b = f a -> f <$> <[p := b]> m = f <$> m.
Proof. intros Hp Hf. rewrite fmap_insert, Hf. apply insert_id. by rewrite lookup_fmap, Hp. Qed.

Lemma BindOwnerUser_count us p c : cg (BindOwnerUser us p c) = cg c.
Proof. unfold BindOwnerUser. repeat case_match; done. Qed.

Lemma Resolve_gauge st client : gauge (Resolve st client).2 = gauge st.
Proof.
  unfold Resolve. repeat (case_match; try done); unfold gauge; cbn;
    by erewrite same_count by (done || apply BindOwnerUser_count).
Qed.

Lemma Check_gauge st client now e st' : Check st client now = (e, st') -> gauge st' = gauge st.
Proof.
  unfold Check. pose proof (Resolve_gauge st client) as Hr. destruct (Resolve st client) as [user st1]. cbn in Hr.
  intros He. repeat (case_match; try congruence).
Qed.

Lemma TotalTrafficTotals_count c : cg (TotalTrafficTotals c).2 = cg c.
Proof. done. Qed.

Lemma CheckLifecycle_gauge st client now e st' : CheckLifecycle st client now = (e, st') -> gauge st' = gauge st.
Proof.
  unfold CheckLifecycle. destruct (clients st !! client) as [c|] eqn:Hc; [|congruence].
  pose proof (TotalTrafficTotals_count c) as Ht. destruct (TotalTrafficTotals c) as [n c'].
  intros He. repeat (case_match; simplify_eq; try done); unfold gauge; cbn; erewrite same_count by (done || (unfold cg, rg in *; congruence)); done.
Qed.

Lemma check_resource_gauge rs p now e rs' :
  check_resource rs p now = (e, rs') -> rg <$> rs' = rg <$> rs.
Proof.
  unfold check_resource. destruct (rs !! p) as [r|] eqn:Hr; [|congruence].
  assert (Ht : rg (ServiceTrafficTotals r).2 = rg r) by done.
  destruct (ServiceTrafficTotals r) as [n r'].
  intros He. repeat (case_match; simplify_eq; try done); erewrite same_count by (done || (unfold cg, rg in *; congruence)); done.
Qed.

Lemma checkResource_gauge st t h now e st' : checkProxyResourceLifecycle st t h now = (e, st') -> gauge st' = gauge st.
Proof.
  unfold checkProxyResourceLifecycle. destruct t as [p|]; [|destruct h as [p|]; [|congruence]];
    destruct (check_resource _ p now) as [e1 rs] eqn:E; apply check_resource_gauge in E;
    intros [= <- <-]; unfold gauge; cbn; by rewrite E.
Qed.

(** One acquisition and the release that follows it. *)
Section Counter.
Context {A : Type} (now limit : A -> Z) (set : Z -> A -> A).
Hypothesis now_set : forall n a, now (set n a) = n.
Definition get_ (a : A) : bool * A := let '(ok, n) := acquireRuntimeConn (now a) (limit a) in (ok, set n a).
Definition cut_ (a : A) : A := set (cutRuntimeConn (now a)) a.

Lemma acquire_granted (p : Z) (m m' : gmap Z A) :
  in_range (now <$> m) -> acquire get_ p m = (true, m') ->
  exists a, m !! p = Some a /\ room (now a) (limit a) /\ m' = <[p := set (now a + 1) a]> m.
Proof.
  intros Hr. unfold acquire. destruct (m !! p) as [a|] eqn:Hp; [|done].
  assert (Ha : 0 <= now a < 2 ^ 31 - 1) by (apply (Hr p); by rewrite lookup_fmap, Hp).
  unfold get_. rewrite acquire_small by done.
  destruct (negb (limit a =? 0) && (limit a <=? now a)) eqn:Hl; [done|]. intros [= <-]. exists a.
  split; [done|]. split; [|done]. split; [lia|]. zbool; lia.
Qed.

Lemma granted_cut (p : Z) (m : gmap Z A) (a : A) :
  m !! p = Some a -> 0 <= now a -> now <$> alter cut_ p (<[p := set (now a + 1) a]> m) = now <$> m.
Proof.
  intros Hp Ha. rewrite alter_insert_eq. unfold cut_. rewrite !now_set, cut_succ by done.
  eapply same_count; [done|]. by rewrite now_set.
Qed.
End Counter.

Lemma in_range_counted us : in_range (u_NowConn <$> us) -> counted us.
Proof. intros H p u Hp. apply (H p). by rewrite lookup_fmap, Hp. Qed.

Lemma client_granted st client st' :
  in_range (c_NowConn <$> clients st) -> AcquireConnection st client = (None, st') ->
  exists c, clients st !! client = Some c /\ room (c_NowConn c) (c_MaxConn c) /\
    st' = with_clients st (<[client := with_c_NowConn (c_NowConn c + 1) c]> (clients st)).
Proof.
  intros Hc Ha. unfold AcquireConnection in Ha.
  destruct (acquire client_GetConn client (clients st)) as [ok cs] eqn:E. destruct ok; [|done]. injection Ha as <-.
  apply (acquire_granted c_NowConn c_MaxConn with_c_NowConn) in E; [|done].
  destruct E as (c & Hp & Hr & ->). eauto.
Qed.

Lemma resource_granted rs p rs' :
  in_range (r_NowConn <$> rs) -> acquire resource_GetConn p rs = (true, rs') ->
  r_NowConn <$> alter resource_CutConn p rs' = r_NowConn <$> rs.
Proof.
  intros Hr E. apply (acquire_granted r_NowConn r_MaxConn with_r_NowConn) in E; [|done].
  destruct E as (r & Hp & [Hn _] & ->). apply (granted_cut r_NowConn with_r_NowConn); [done|done|lia].
Qed.

Lemma service_granted st t h st' :
  in_range (r_NowConn <$> tunnels st) -> in_range (r_NowConn <$> hosts st) -> t = None \/ h = None ->
  acquireProxyResourceConnection st t h = (true, st') ->
  users st' = users st /\ clients st' = clients st /\
  r_NowConn <$> update resource_CutConn t (tunnels st') = r_NowConn <$> tunnels st /\
  r_NowConn <$> update resource_CutConn h (hosts st') = r_NowConn <$> hosts st.
Proof.
  intros Ht Hh Hx. unfold acquireProxyResourceConnection.
  destruct t as [p|]; [destruct Hx as [ | -> ]; [done|]|destruct h as [p|]]; cbn [update].
  - destruct (acquire _ p _) as [ok ts] eqn:E. intros [= -> <-]. cbn. by rewrite (resource_granted (tunnels st)).
  - destruct (acquire _ p _) as [ok ts] eqn:E. intros [= -> <-]. cbn. by rewrite (resource_granted (hosts st)).
  - intros [= <-]. done.
Qed.

Lemma lease_granted st client t h l st' :
  fits st -> t = None \/ h = None -> acquireConnectionLease st client t h = (inr l, st') ->
  once l = false /\ conns (Release st' l).1 = conns st /\
  exists n limit, c_NowConn <$> clients st !! client = Some n /\ room n limit /\
    c_NowConn <$> clients st' !! client = Some (n + 1) /\ c_MaxConn <$> clients st' !! client = Some limit.
Proof.
  intros Hf Hx. unfold acquireConnectionLease.
  pose proof (gauge_conns _ _ (Resolve_gauge st client)) as Hr.
  destruct (Resolve st client) as [user st1]. cbn in Hr.
  assert (Hcl : c_NowConn <$> clients st !! client = c_NowConn <$> clients st1 !! client).
  { injection Hr as _ E _ _. by rewrite <- !lookup_fmap, E. }
  rewrite <- Hr, Hcl. apply (fits_conns st st1 Hr) in Hf. clear Hr Hcl st.
  set (acq := match user with None => _ | Some p => _ end).
  assert (Ha : let '(ok, st2, l) := acq in ok = true -> l = mkLease false user (Some client) t h /\
    exists us, st2 = with_users st1 us /\ one_more (users st1) user us).
  { subst acq. destruct user as [p|]; [|intros _; split; [done|]; exists (users st1); by destruct st1].
    destruct (acquire _ _ _) as [ok us] eqn:E. intros ->. split; [done|]. exists us. split; [done|].
    apply (acquire_user (users st1) p true us); [|done]. apply in_range_counted, Hf. }
  destruct acq as [[ok st2] l2]. destruct ok; [|done]. cbn [negb]. destruct (Ha eq_refl) as (-> & us & -> & Hm).
  assert (Hcut : update user_CutConn user us = users st1) by (apply cut_one_more; [apply in_range_counted, Hf|done]).
  clear Ha. destruct (AcquireConnection _ client) as [[e|] st3] eqn:E3; [done|].
  destruct Hf as (_ & Hfc & Hft & Hfh). apply client_granted in E3; [|done].
  destruct E3 as (c & Hc & Hroom & ->). cbn [clients with_users] in *.
  destruct (acquireProxyResourceConnection _ t h) as [ok st4] eqn:E4. destruct ok; [|done]. intros [= <- <-].
  apply service_granted in E4; [|done..]. destruct E4 as (Hu4 & Hc4 & Ht4 & Hh4). cbn in *.
  split; [done|]. split.
  - unfold conns, Release. cbn. rewrite Hu4, Hc4, Ht4, Hh4, Hcut. f_equal. f_equal. f_equal.
    apply (granted_cut c_NowConn with_c_NowConn); [done|done|destruct Hroom; lia].
  - exists (c_NowConn c), (c_MaxConn c). rewrite Hc, Hc4, lookup_insert_eq. done.
Qed.

Lemma Release_once st l : Release (Release st l).1 (Release st l).2 = Release st l.
Proof. unfold Release at 1. destruct (once l) eqn:Ho; unfold Release; rewrite Ho; cbn; [by rewrite Ho|done]. Qed.

(** ** When a connection is granted *)

Definition in_time (expireAt now : Z) : Prop := expireAt <= 0 \/ now < expireAt.
Definition under (limit spent : Z) : Prop := limit <= 0 \/ spent < limit.

Definition enabled (c : Client) : Prop := c_Id c = 0 \/ c_Status c = true.

Definition active (u : User) (now : Z) : Prop :=
  u_Status u <> 0 /\ in_time (u_ExpireAt u) now /\ under (u_FlowLimit u) (user_TotalTrafficTotals u) /\
  under (MaxConnections u) (u_NowConn u).

Definition owner_active (st : store) (client : Z) (now : Z) : Prop :=
  exists p u, (Resolve st client).1 = Some p /\ users st !! p = Some u /\ active u now.

Definition resource_open (rs : gmap Z Resource) (p now : Z) : Prop :=
  forall r, rs !! p = Some r ->
    in_time (resource_EffectiveExpireAt r) now /\ under (resource_EffectiveFlowLimitBytes r) (ServiceTrafficTotals r).1.
Definition service_open (st : store) (tunnel host : option Z) (now : Z) : Prop :=
  match tunnel, host with
  | Some p, _ => resource_open (tunnels st) p now
  | None, Some p => resource_open (hosts st) p now
  | None, None => True
  end.

(** The client is enabled, its owner active, and no time or traffic limit is reached; the
    client is looked at with its owner bound. *)
Definition servable (st : store) (client : Z) (tunnel host : option Z) (now : Z) : Prop :=
  exists c, clients (Resolve st client).2 !! client = Some c /\ enabled c /\
    (OwnerID c <= 0 \/ owner_active st client now) /\
    in_time (EffectiveExpireAt (users st) c) now /\
    under (EffectiveFlowLimitBytes (users st) c) (TotalTrafficTotals c).1 /\
    service_open st tunnel host now.

Definition client_has_room (st : store) (client : Z) : Prop :=
  exists c, clients st !! client = Some c /\ room (c_NowConn c) (c_MaxConn c).

Lemma check_user_none u now : check_user u now = None <-> active u now.
Proof.
  unfold check_user, active, in_time, under. split.
  - intros H. repeat if_case_in H; try done; zbool; lia.
  - intros (? & ? & ? & ?). repeat if_case; lia || done.
Qed.

(** What resolving the owner keeps of a client. *)
Lemma Resolve_client st client c :
  clients st !! client = Some c ->
  exists p, clients (Resolve st client).2 !! client = Some (with_ownerUser p c).
Proof.
  intros Hc. assert (Hid : with_ownerUser (ownerUser c) c = c) by (by destruct c).
  unfold Resolve. rewrite Hc. destruct (OwnerID c <=? 0); [exists (ownerUser c); by rewrite Hid|].
  destruct (ownerUser c) as [q|]; [exists (Some q); by rewrite Hid|].
  destruct (match GetUser _ _ with Some p => Some p | None => _ end) as [p|]; [|exists None; by rewrite Hid].
  cbn [snd clients with_clients]. rewrite lookup_insert_eq. unfold BindOwnerUser. repeat case_match; eauto.
Qed.

Lemma Resolve_none st client : clients st !! client = None -> Resolve st client = (None, st).
Proof. intros Hc. unfold Resolve. by rewrite Hc. Qed.

Lemma Resolve_tables st client :
  tunnels (Resolve st client).2 = tunnels st /\ hosts (Resolve st client).2 = hosts st.
Proof. unfold Resolve. repeat case_match; done. Qed.

Lemma Resolve_unowned st client c :
  clients st !! client = Some c -> OwnerID c <= 0 -> Resolve st client = (None, st).
Proof. intros Hc Ho. unfold Resolve. rewrite Hc. by replace (OwnerID c <=? 0) with true by lia. Qed.

Lemma Check_none st client c now st' :
  clients st !! client = Some c ->
  Check st client now = (None, st') <->
  st' = (Resolve st client).2 /\ (OwnerID c <= 0 \/ owner_active st client now).
Proof.
  intros Hc. unfold Check, owner_active. rewrite Hc. destruct (OwnerID c <=? 0) eqn:Ho; zbool.
  - rewrite (Resolve_unowned _ _ _ Hc Ho). cbn. split; [intros [= <-]; auto|intros [-> _]; done].
  - pose proof (Resolve_users st client) as Hu. destruct (Resolve st client) as [user st1]. cbn in *. split.
    + destruct user as [p|]; cbn; [|done]. rewrite Hu. destruct (users st !! p) as [u|] eqn:Hp; [|done].
      intros [= Hn <-]. split; [done|]. right. exists p, u. by rewrite <- check_user_none.
    + intros [-> [?|(p & u & -> & Hp & Ha)]]; [lia|]. cbn. rewrite Hu, Hp. by apply check_user_none in Ha as ->.
Qed.

Lemma CheckLifecycle_none st client c now :
  clients st !! client = Some c ->
  (exists st', CheckLifecycle st client now = (None, st')) <->
  in_time (EffectiveExpireAt (users st) c) now /\
  under (EffectiveFlowLimitBytes (users st) c) (TotalTrafficTotals c).1.
Proof.
  intros Hc. unfold CheckLifecycle, in_time, under. rewrite Hc. destruct (TotalTrafficTotals c) as [n c']. cbn [fst].
  split.
  - intros [st' H]. repeat if_case_in H; try done; zbool; lia.
  - intros [? ?]. repeat if_case; eauto; lia.
Qed.

Lemma CheckLifecycle_tables st client now e st' :
  CheckLifecycle st client now = (e, st') -> tunnels st' = tunnels st /\ hosts st' = hosts st.
Proof. unfold CheckLifecycle. intros He. repeat (case_match; simplify_eq; try done). Qed.

Lemma check_resource_none rs p now :
  (exists rs', check_resource rs p now = (None, rs')) <-> resource_open rs p now.
Proof.
  unfold check_resource, resource_open, in_time, under. destruct (rs !! p) as [r|]; [|split; [intros _ r|]; eauto; done].
  destruct (ServiceTrafficTotals r) as [n r'] eqn:Hn. split.
  - intros [rs' H] r0 [= <-]. rewrite Hn. cbn. repeat if_case_in H; try done; zbool; lia.
  - intros H. destruct (H r eq_refl) as [? ?]. rewrite Hn in *. cbn in *. repeat if_case; eauto; lia.
Qed.

Lemma checkResource_none st t h now :
  (exists st', checkProxyResourceLifecycle st t h now = (None, st')) <-> service_open st t h now.
Proof.
  unfold checkProxyResourceLifecycle, service_open.
  destruct t as [p|]; [|destruct h as [p|]; [|split; eauto]]; rewrite <- check_resource_none;
    (destruct (check_resource _ p now) as [[e|] rs]; split; intros [s' [=]]; eauto).
Qed.

(** A counter is taken exactly when it has room. *)
Section Room.
Context {A : Type} (now limit : A -> Z) (set : Z -> A -> A).

Lemma acquire_room (p : Z) (m : gmap Z A) (a : A) :
  m !! p = Some a -> room (now a) (limit a) ->
  acquire (get_ now limit set) p m = (true, <[p := set (now a + 1) a]> m).
Proof. intros Hp [Hn Hl]. unfold acquire, get_. by rewrite Hp, acquire_below. Qed.

Lemma acquire_iff (p : Z) (m : gmap Z A) :
  in_range (now <$> m) ->
  (exists m', acquire (get_ now limit set) p m = (true, m')) <-> exists a, m !! p = Some a /\ room (now a) (limit a).
Proof.
  intros Hr. split.
  - intros [m' H]. apply acquire_granted in H; [|done]. destruct H as (a & ? & ? & _). eauto.
  - intros (a & Hp & Ha). rewrite (acquire_room _ _ _ Hp Ha). eauto.
Qed.
End Room.

Lemma service_iff st t h :
  in_range (r_NowConn <$> tunnels st) -> in_range (r_NowConn <$> hosts st) ->
  (exists st', acquireProxyResourceConnection st t h = (true, st')) <-> service_room st t h.
Proof.
  intros Ht Hh. unfold acquireProxyResourceConnection, service_room, resource_room.
  destruct t as [p|]; [|destruct h as [p|]; [|split; eauto]];
    rewrite <- (acquire_iff r_NowConn r_MaxConn with_r_NowConn) by done; change (get_ _ _ _) with resource_GetConn;
    (destruct (acquire resource_GetConn p _) as [ok rs]; split; intros [s' [=]]; subst; eauto).
Qed.

Lemma client_iff st client :
  in_range (c_NowConn <$> clients st) ->
  (exists st', AcquireConnection st client = (None, st')) <-> client_has_room st client.
Proof.
  intros Hc. unfold AcquireConnection, client_has_room.
  rewrite <- (acquire_iff c_NowConn c_MaxConn with_c_NowConn) by done. change (get_ _ _ _) with client_GetConn.
  destruct (acquire client_GetConn client _) as [[] cs]; split; intros [s' [=]]; subst; eauto.
Qed.

Lemma lease_iff st client t h user st1 :
  fits st1 -> Resolve st client = (user, st1) ->
  (exists l st', acquireConnectionLease st client t h = (inr l, st')) <->
  user_room st1 user /\ client_has_room st1 client /\ service_room st1 t h.
Proof.
  intros (Hu & Hc & Ht & Hh) Hr. unfold acquireConnectionLease. rewrite Hr.
  assert (Htail : forall us, (exists l st', after_user (with_users st1 us) client t h user = (inr l, st')) <->
    client_has_room st1 client /\ service_room st1 t h).
  { intros us. unfold after_user. rewrite <- (client_iff st1 client) by done.
    assert (HA : AcquireConnection (with_users st1 us) client =
      let '(e, s) := AcquireConnection st1 client in (e, with_users s us)).
    { unfold AcquireConnection. cbn. by destruct (acquire client_GetConn client (clients st1)). }
    rewrite HA. destruct (AcquireConnection st1 client) as [[e|] st3] eqn:E3.
    - split; [intros (? & ? & [=])|intros [[? [=]] _]].
    - assert (Hs : service_room (with_users st3 us) t h <-> service_room st1 t h).
      { unfold AcquireConnection in E3. destruct (acquire _ _ _) as [[] ?]; simplify_eq; done. }
      assert (in_range (r_NowConn <$> tunnels st3) /\ in_range (r_NowConn <$> hosts st3)) as [Ht3 Hh3].
      { unfold AcquireConnection in E3. destruct (acquire _ _ _) as [[] ?]; simplify_eq; done. }
      rewrite <- Hs, <- service_iff by done.
      destruct (acquireProxyResourceConnection _ t h) as [[] st4]; split; naive_solver. }
  destruct user as [p|]; cbn [user_room].
  - rewrite <- (acquire_iff u_NowConn MaxConnections with_u_NowConn p (users st1)) by done.
    change (get_ _ _ _) with user_GetConn. destruct (acquire user_GetConn p (users st1)) as [[] us]; cbn [negb].
    + rewrite (Htail us). naive_solver.
    + naive_solver.
  - specialize (Htail (users st1)). replace (with_users st1 (users st1)) with st1 in Htail by (by destruct st1).
    cbn [negb]. rewrite Htail. naive_solver.
Qed.

(** The owner's pointer, from the tables and the owner fields of the client. *)
Definition owner_ptr (st : store) (c : Client) : option Z :=
  if OwnerID c <=? 0 then None
  else match ownerUser c with
       | Some p => Some p
       | None => match GetUser (RuntimeStore st) (OwnerID c) with
                 | Some p => Some p
                 | None => GetUser (RuntimeDB st) (OwnerID c)
                 end
       end.

Lemma Resolve_fst st client c : clients st !! client = Some c -> (Resolve st client).1 = owner_ptr st c.
Proof. intros Hc. unfold Resolve, owner_ptr. rewrite Hc. repeat case_match; done. Qed.

Lemma Resolve_runtime st client :
  RuntimeStore (Resolve st client).2 = RuntimeStore st /\ RuntimeDB (Resolve st client).2 = RuntimeDB st.
Proof. unfold Resolve. repeat case_match; done. Qed.

Lemma owner_ptr_bound st client c c1 :
  clients st !! client = Some c -> clients (Resolve st client).2 !! client = Some c1 ->
  owner_ptr st c1 = owner_ptr st c.
Proof.
  intros Hc. unfold Resolve. rewrite Hc. destruct (OwnerID c <=? 0) eqn:Ho; [cbn [snd]; intros; congruence|].
  destruct (ownerUser c) eqn:Hu; [cbn [snd]; intros; congruence|].
  destruct (match GetUser _ _ with Some p => Some p | None => _ end) as [p|] eqn:Hl;
    cbn [snd clients with_clients]; [|intros; congruence].
  rewrite lookup_insert_eq. intros [= <-]. unfold owner_ptr at 2. rewrite Ho, Hu, Hl.
  assert (HO : OwnerID (BindOwnerUser (users st) p c) = OwnerID c)
    by (unfold BindOwnerUser; repeat case_match; done).
  unfold owner_ptr. rewrite HO, Ho. unfold BindOwnerUser.
  destruct (users st !! p) as [u|]; [destruct (u_Id u =? OwnerID c)|]; cbn [ownerUser with_ownerUser];
    [done|exact Hl|exact Hl].
Qed.

Lemma CheckLifecycle_client st client c now st' :
  clients st !! client = Some c -> CheckLifecycle st client now = (None, st') ->
  RuntimeStore st' = RuntimeStore st /\ RuntimeDB st' = RuntimeDB st /\
  exists c', clients st' !! client = Some c' /\ OwnerID c' = OwnerID c /\ ownerUser c' = ownerUser c.
Proof.
  intros Hc. unfold CheckLifecycle. rewrite Hc. intros H.
  destruct ((0 <? EffectiveExpireAt (users st) c) && _); [done|].
  destruct (0 <? EffectiveFlowLimitBytes (users st) c); [|injection H as <-; split; [done|]; split; [done|]; by exists c].
  destruct (TotalTrafficTotals c) as [n c'] eqn:Ht. injection H as _ <-. cbn. rewrite lookup_insert_eq.
  injection Ht as _ <-. split; [done|]. split; [done|]. eexists. split; [done|]. done.
Qed.

Lemma checkResource_clients st t h now e st' :
  checkProxyResourceLifecycle st t h now = (e, st') ->
  clients st' = clients st /\ RuntimeStore st' = RuntimeStore st /\ RuntimeDB st' = RuntimeDB st.
Proof. unfold checkProxyResourceLifecycle. intros He. repeat (case_match; simplify_eq; try done). Qed.

(** Room depends on the counters and their limits only. *)
Lemma room_by_gauge {A} (g : A -> Z * Z) (m m' : gmap Z A) p :
  g <$> m' = g <$> m ->
  (exists a, m' !! p = Some a /\ room (g a).1 (g a).2) <-> (exists a, m !! p = Some a /\ room (g a).1 (g a).2).
Proof.
  intros E. apply (f_equal (fun x => x !! p)) in E. rewrite !lookup_fmap in E.
  destruct (m' !! p) as [a'|], (m !! p) as [a|]; cbn in E; [|done|done|split; intros (x & [=] & _)].
  injection E as E. split; intros (x & [= <-] & Hx); eexists; (split; [done|]); congruence.
Qed.

Lemma checks_gauge st client now st1 t h st2 st3 e1 e2 e3 :
  Check st client now = (e1, st1) -> CheckLifecycle st1 client now = (e2, st2) ->
  checkProxyResourceLifecycle st2 t h now = (e3, st3) -> gauge st3 = gauge st.
Proof.
  intros H1 H2 H3. apply Check_gauge in H1. apply CheckLifecycle_gauge in H2. apply checkResource_gauge in H3. congruence.
Qed.

Lemma room_gauge st st' client user t h :
  gauge st' = gauge st ->
  (user_room st' user /\ client_has_room st' client /\ service_room st' t h) <->
  (user_room st user /\ client_has_room st client /\ service_room st t h).
Proof.
  unfold gauge. intros [= Hu Hc Ht Hh].
  assert (user_room st' user <-> user_room st user) as ->
    by (destruct user as [p|]; [exact (room_by_gauge ug _ _ p Hu)|done]).
  assert (client_has_room st' client <-> client_has_room st client) as -> by exact (room_by_gauge cg _ _ client Hc).
  assert (service_room st' t h <-> service_room st t h) as ->; [|done].
  destruct t as [p|]; [exact (room_by_gauge rg _ _ p Ht)|]. destruct h as [p|]; [exact (room_by_gauge rg _ _ p Hh)|done].
Qed.

(** The lease taken after the checks. *)
Lemma request_lease st client t h now st1 st2 st3 c :
  fits st -> clients st !! client = Some c ->
  Check st client now = (None, st1) -> CheckLifecycle st1 client now = (None, st2) ->
  checkProxyResourceLifecycle st2 t h now = (None, st3) ->
  (exists l st', acquireConnectionLease st3 client t h = (inr l, st')) <->
  user_room st (Resolve st client).1 /\ client_has_room st client /\ service_room st t h.
Proof.
  intros Hf Hc H1 H2 H3. pose proof (checks_gauge _ _ _ _ _ _ _ _ _ _ _ H1 H2 H3) as Hg.
  apply (Check_none _ _ _ _ _ Hc) in H1 as [-> _].
  destruct (Resolve_client st client c Hc) as [q Hc1]. set (c1 := with_ownerUser q c) in *.
  destruct (CheckLifecycle_client _ _ _ _ _ Hc1 H2) as (Hs2 & Hd2 & c2 & Hc2 & HO2 & Hu2).
  destruct (checkResource_clients _ _ _ _ _ _ H3) as (Hcl3 & Hs3 & Hd3).
  destruct (Resolve_runtime st client) as [Hs1 Hd1].
  assert (Hown : (Resolve st3 client).1 = (Resolve st client).1).
  { rewrite (Resolve_fst st client c Hc), <- (owner_ptr_bound _ _ _ _ Hc Hc1).
    rewrite (Resolve_fst st3 client c2) by (by rewrite Hcl3).
    unfold owner_ptr. by rewrite Hs3, Hs2, Hs1, Hd3, Hd2, Hd1, HO2, Hu2. }
  pose proof (Resolve_gauge st3 client) as Hg3.
  rewrite <- (room_gauge st (Resolve st3 client).2) by congruence. rewrite <- Hown.
  apply lease_iff; [|by destruct (Resolve st3 client)].
  apply (fits_conns st); [apply gauge_conns; congruence|done].
Qed.

Lemma service_open_tables st st' t h now :
  tunnels st' = tunnels st -> hosts st' = hosts st -> service_open st' t h now <-> service_open st t h now.
Proof. unfold service_open. intros -> ->. done. Qed.

Lemma CheckEnabled_none c : CheckEnabled (Some c) = None <-> enabled c.
Proof.
  unfold CheckEnabled, enabled. destruct (c_Status c), (c_Id c =? 0) eqn:?; cbn; zbool; naive_solver.
Qed.

(** The checks pass exactly when the connection may be served. *)
Lemma checks_iff st client c t h now :
  clients st !! client = Some c ->
  (enabled c /\ exists st1 st2 st3, Check st client now = (None, st1) /\ CheckLifecycle st1 client now = (None, st2) /\
     checkProxyResourceLifecycle st2 t h now = (None, st3)) <->
  servable st client t h now.
Proof.
  intros Hc. unfold servable. destruct (Resolve_client st client c Hc) as [q Hc1]. rewrite Hc1.
  destruct (Resolve_tables st client) as [Ht1 Hh1]. pose proof (Resolve_users st client) as Hu1.
  assert (Hsame : enabled (with_ownerUser q c) = enabled c /\ OwnerID (with_ownerUser q c) = OwnerID c) by done.
  destruct Hsame as [He Ho]. split.
  - intros (Hen & st1 & st2 & st3 & H1 & H2 & H3). exists (with_ownerUser q c). rewrite He, Ho.
    apply (Check_none _ _ _ _ _ Hc) in H1 as [-> Hown].
    destruct (CheckLifecycle_tables _ _ _ _ _ H2) as [Ht2 Hh2].
    destruct (proj1 (CheckLifecycle_none _ _ _ now Hc1) (ex_intro _ _ H2)) as [Hin Hun]. rewrite Hu1 in *.
    repeat split; auto. apply (service_open_tables st st2); [congruence..|]. apply checkResource_none. eauto.
  - intros (c1 & [= <-] & Hen & Hown & Hin & Hun & Hopen). rewrite He, Ho in *. split; [done|].
    exists (Resolve st client).2. rewrite <- Hu1 in Hin, Hun.
    destruct (proj2 (CheckLifecycle_none _ _ _ now Hc1) (conj Hin Hun)) as [st2 H2].
    destruct (CheckLifecycle_tables _ _ _ _ _ H2) as [Ht2 Hh2].
    apply (service_open_tables st st2) in Hopen; [|congruence..]. apply checkResource_none in Hopen as [st3 H3].
    exists st2, st3. split; [|done]. by apply (Check_none _ _ _ _ _ Hc).
Qed.

Lemma request_granted_iff st client t h now :
  fits st ->
  (exists l st', CheckFlowAndConnNum st (Some client) t h now = (inr l, st')) <->
  servable st client t h now /\ user_room st (Resolve st client).1 /\ client_has_room st client /\ service_room st t h.
Proof.
  intros Hf. unfold CheckFlowAndConnNum. cbn [mbind option_bind].
  destruct (clients st !! client) as [c|] eqn:Hc.
  - rewrite <- (checks_iff _ _ _ _ _ _ Hc), <- CheckEnabled_none.
    destruct (CheckEnabled (Some c)) as [e|]; [naive_solver|].
    destruct (Check st client now) as [[e|] st1] eqn:H1;
      [split; [naive_solver|intros [(_ & s1 & s2 & s3 & E1 & _) _]; congruence]|].
    destruct (CheckLifecycle st1 client now) as [[e|] st2] eqn:H2;
      [split; [naive_solver|intros [(_ & s1 & s2 & s3 & E1 & E2 & _) _]; congruence]|].
    destruct (checkProxyResourceLifecycle st2 t h now) as [[e|] st3] eqn:H3;
      [split; [naive_solver|intros [(_ & s1 & s2 & s3 & E1 & E2 & E3) _]; congruence]|].
    rewrite (request_lease _ _ _ _ _ _ _ _ _ Hf Hc H1 H2 H3). split; [|by intros [_ ?]].
    intros H. split; [|done]. split; [done|]. by exists st1, st2, st3.
  - unfold servable, client_has_room. rewrite (Resolve_none _ _ Hc). cbn. rewrite Hc. naive_solver.
Qed.

Lemma request_conns st client t h now l st' :
  CheckFlowAndConnNum st client t h now = (inr l, st') ->
  exists p st3, client = Some p /\ gauge st3 = gauge st /\ acquireConnectionLease st3 p t h = (inr l, st').
Proof.
  unfold CheckFlowAndConnNum. destruct (CheckEnabled _); [done|]. destruct client as [p|]; [|done].
  destruct (Check st p now) as [[e|] st1] eqn:H1; [done|].
  destruct (CheckLifecycle st1 p now) as [[e|] st2] eqn:H2; [done|].
  destruct (checkProxyResourceLifecycle st2 t h now) as [[e|] st3] eqn:H3; [done|]. intros H. exists p, st3.
  split; [done|]. split; [|done]. exact (checks_gauge _ _ _ _ _ _ _ _ _ _ _ H1 H2 H3).
Qed.

(** ** Properties *)


(** Two threads race for the one connection the limit allows: both load 0, one wins. *)
Definition ex_race : Cas.state := Cas.mkState 1 [Cas.Held; Cas.Load].

Lemma ex_race_reached : rtc (Cas.step 1) (Cas.start 2) ex_race.
Proof.
  assert (S : forall n n' ts ts' i t t', ts !! i = Some t -> Cas.act 1 n t = (n', t') -> <[i := t']> ts = ts' ->
    Cas.step 1 (Cas.mkState n ts) (Cas.mkState n' ts')) by (intros * Hi Ha <-; by econstructor).
  change (Cas.start 2) with (Cas.mkState 0 [Cas.Idle; Cas.Idle]).
  eapply rtc_l; [eapply (S 0 0 _ [Cas.Load; Cas.Idle] 0%nat); [reflexivity..]|].
  eapply rtc_l; [eapply (S 0 0 _ [Cas.Load; Cas.Load] 1%nat); [reflexivity..]|].
  eapply rtc_l; [eapply (S 0 0 _ [Cas.Swap 0; Cas.Load] 0%nat); [reflexivity..]|].
  eapply rtc_l; [eapply (S 0 0 _ [Cas.Swap 0; Cas.Swap 0] 1%nat); [reflexivity..]|].
  eapply rtc_l; [eapply (S 0 1 _ [Cas.Held; Cas.Swap 0] 0%nat); [reflexivity..]|].
  apply rtc_once. eapply (S 1 1 _ [Cas.Held; Cas.Load] 1%nat); [reflexivity..].
Qed.


(** A connection is granted exactly when its client is enabled, the owner of the client
    active, no expiry or traffic limit of owner, client or service is reached, and the
    counters of all three have room. *)
Theorem connection_granted_iff st client tunnel host now :
  fits st ->
  (exists l st', CheckFlowAndConnNum st (Some client) tunnel host now = (inr l, st')) <->
  servable st client tunnel host now /\ user_room st (Resolve st client).1 /\
  client_has_room st client /\ service_room st tunnel host.
Proof. apply request_granted_iff. Qed.

Definition ex_user : User := mkUser 7 1 0 0 None None 2 0.
Definition ex_client : Client := mkClient 5 true 7 7 None 0 0 None None None 1 0.
Definition ex_tunnel : Resource := mkResource 0 0 None None 0 0.
(** A user limited to two connections, whose client is limited to one. *)
Definition ex_store : store :=
  mkStore {[100 := ex_user]} {[1 := ex_client]} {[10 := ex_tunnel]} ∅ (Some {[7 := 100]}) None.

Lemma in_range_singleton {A} (f : A -> Z) p a : 0 <= f a < 2 ^ 31 - 1 -> in_range (f <$> {[p := a]}).
Proof. intros H q n Hq. rewrite map_fmap_singleton, lookup_singleton_Some in Hq. destruct Hq as [_ <-]. done. Qed.

Lemma in_range_empty {A} (f : A -> Z) : in_range (f <$> ∅).
Proof. intros q n Hq. by rewrite fmap_empty, lookup_empty in Hq. Qed.

Lemma ex_fits : fits ex_store.
Proof.
  split; [|split; [|split]]; [apply in_range_singleton; cbn; lia..|apply in_range_empty].
Qed.

Lemma connection_granted_iff_witness :
  servable ex_store 1 (Some 10) None 1000 /\ user_room ex_store (Resolve ex_store 1).1 /\
  client_has_room ex_store 1 /\ service_room ex_store (Some 10) None.
Proof.
  apply (connection_granted_iff ex_store 1 (Some 10) None 1000 ex_fits).
  eexists _, _. vm_compute. reflexivity.
Defined.

(** Releasing a granted lease puts every counter back, and releasing it again changes
    nothing. *)
Theorem granted_lease_returns st client tunnel host now l st' :
  fits st -> tunnel = None \/ host = None ->
  CheckFlowAndConnNum st client tunnel host now = (inr l, st') ->
  conns (Release st' l).1 = conns st /\ Release (Release st' l).1 (Release st' l).2 = Release st' l.
Proof.
  intros Hf Hx H. split; [|apply Release_once].
  apply request_conns in H as (p & st3 & -> & Hg & Ha). apply gauge_conns in Hg. rewrite <- Hg.
  eapply lease_granted; [by eapply fits_conns|done|done].
Qed.

Lemma granted_lease_returns_witness :
  conns (Release (CheckFlowAndConnNum ex_store (Some 1) (Some 10) None 1000).2
           (mkLease false (Some 100) (Some 1) (Some 10) None)).1 = conns ex_store.
Proof.
  refine (proj1 (granted_lease_returns ex_store (Some 1) (Some 10) None 1000 _ _ ex_fits (or_intror eq_refl) _)).
  vm_compute. reflexivity.
Defined.

(** C36. Through every history of requests and releases, a user's counter is the number of
    leases its clients hold, and never exceeds the user's limit. *)
Theorem user_limits_hold ops st p u :
  (forall q v, users st !! q = Some v -> u_NowConn v = 0) -> Z.of_nat (length ops) < 2 ^ 31 ->
  users (run ops (st, [])).1 !! p = Some u ->
  u_NowConn u = live (of_user p) (run ops (st, [])).2 /\
  (0 < MaxConnections u -> live (of_user p) (run ops (st, [])).2 <= MaxConnections u).
Proof.
  intros H0 Hn. apply run_exact; [cbn; lia|]. intros q v Hq. rewrite (H0 q v Hq).
  split; [done|]. unfold live. cbn. lia.
Qed.

(** Three requests of the client of [ex_store] and no release. *)
Definition ex_ops : list op := replicate 3 (Request (Some 1) (Some 10) None 1000).

Lemma user_limits_hold_witness : live (of_user 100) (run ex_ops (ex_store, [])).2 <= 2.
Proof.
  refine (proj2 (user_limits_hold ex_ops ex_store 100 (mkUser 7 1 0 0 None None 2 2) _ _ _) _).
  - intros q v Hq. cbn in Hq. apply lookup_singleton_Some in Hq as [_ <-]. reflexivity.
  - vm_compute. reflexivity.
  - vm_compute. reflexivity.
  - vm_compute. reflexivity.
Defined.

(** The limit of a client does not hold.  A request that finds the client at its limit
    is refused, but the lease it gives back was never counted for the client, so the
    refusal lowers the counter and the next request is granted with every earlier
    connection still open. *)
Theorem refusal_frees_a_slot st client c user tunnel host :
  clients st !! client = Some c -> 0 < c_MaxConn c < 2 ^ 31 - 1 -> c_NowConn c = c_MaxConn c ->
  Resolve st client = (user, st) -> user_room st user -> service_room st tunnel host ->
  exists st1 l st2,
    acquireConnectionLease st client tunnel host = (inl errProxyConnectionLimit, st1) /\
    acquireConnectionLease st1 client tunnel host = (inr l, st2) /\
    c_NowConn <$> clients st1 !! client = Some (c_MaxConn c - 1) /\
    c_NowConn <$> clients st2 !! client = Some (c_MaxConn c).
Proof. apply refused_then_granted. Qed.

(** The store after the first request of [ex_ops]. *)
Definition ex_full : store := (run [Request (Some 1) (Some 10) None 1000] (ex_store, [])).1.

(** In [ex_ops] the client, limited to one connection, holds two. *)
Lemma refusal_frees_a_slot_witness :
  (exists st1 l st2,
    acquireConnectionLease ex_full 1 (Some 10) None = (inl errProxyConnectionLimit, st1) /\
    acquireConnectionLease st1 1 (Some 10) None = (inr l, st2) /\
    c_NowConn <$> clients st1 !! 1 = Some 0 /\ c_NowConn <$> clients st2 !! 1 = Some 1) /\
  live (of_client 1) (run ex_ops (ex_store, [])).2 = 2.
Proof.
  split; [|vm_compute; reflexivity].
  refine (refusal_frees_a_slot ex_full 1 (mkClient 5 true 7 7 (Some 100) 0 0 None None None 1 1) (Some 100) (Some 10) None
    _ _ _ _ _ _).
  - vm_compute. reflexivity.
  - cbn. lia.
  - reflexivity.
  - vm_compute. reflexivity.
  - exists (mkUser 7 1 0 0 None None 2 1). split; [vm_compute; reflexivity|]. unfold room. cbn. lia.
  - exists (mkResource 0 0 None None 0 1). split; [vm_compute; reflexivity|]. unfold room. cbn. lia.
Defined.
