(* ===== verification/Traffic.v ===== *)
(** What a connection's traffic is charged to: the service, the client and the client's
    owner, through any sequence of reads and writes on any connections.

    The operations are those of [Quota.v] and the observers of [ConnLimit.v]
    ([observeBridgeTraffic] and [observeServiceTraffic] of
    [server/proxy/base_transport_runtime.go]). *)

From S2P Require Import Prelude Quota ConnLimit.
Import GoInt.
Open Scope Z_scope.

(** One read or write seen by an observer, with the clock readings of its checks. *)
Record event := mkEvent {
  e_bridge : bool; e_client : Z; e_tunnel : option Z; e_host : option Z;
  e_in : Z; e_out : Z; e_now : Z * Z * Z
}.

Definition observe_one (e : event) (st : store) : option quota_err * store :=
  let '(nowR, now, now') := e_now e in
  if e_bridge e then observeBridgeTraffic now now' (e_in e) (e_out e) (Some (e_client e)) st
  else observeServiceTraffic nowR now now' (e_in e) (e_out e) (Some (e_client e)) (e_tunnel e) (e_host e) st.

(** The events in order, while no limit is reached. *)
Fixpoint observe_all (es : list event) (st : store) : option store :=
  match es with
  | [] => Some st
  | e :: es => match observe_one e st with (None, st) => observe_all es st | (Some _, _) => None end
  end.

(** The bytes of an event, and of the events that satisfy a test. *)
Definition bytes (e : event) : Z := e_in e + e_out e.
Fixpoint charged (f : event -> bool) (es : list event) : Z :=
  match es with [] => 0 | e :: es => (if f e then bytes e else 0) + charged f es end.

(** The bytes counted so far. *)
Definition spent (s : TrafficStats) : Z := InletBytes s + ExportBytes s.
Definition user_spent (u : User) : Z := spent (ensure_stats (u_TotalTraffic u) (u_TotalFlow u)).
Definition client_spent (c : Client) : Z :=
  spent (ensure_stats (BridgeTraffic c) (c_Flow c)) + spent (ensure_stats (ServiceTraffic c) None).
Definition resource_spent (r : Resource) : Z := spent (ensure_stats (r_ServiceTraffic r) (r_Flow r)).

(** Counters that are not negative and take [B] more bytes without wrapping. *)
Definition takes (B : Z) (s : TrafficStats) : Prop := 0 <= InletBytes s /\ 0 <= ExportBytes s /\ spent s + B < 2 ^ 63.
Definition user_takes (B : Z) (u : User) : Prop := takes B (ensure_stats (u_TotalTraffic u) (u_TotalFlow u)).
Definition client_takes (B : Z) (c : Client) : Prop :=
  takes B (ensure_stats (BridgeTraffic c) (c_Flow c)) /\ takes B (ensure_stats (ServiceTraffic c) None).
Definition resource_takes (B : Z) (r : Resource) : Prop := takes B (ensure_stats (r_ServiceTraffic r) (r_Flow r)).

Definition store_takes (B : Z) (st : store) : Prop :=
  map_Forall (fun _ => user_takes B) (users st) /\ map_Forall (fun _ => client_takes B) (clients st) /\
  map_Forall (fun _ => resource_takes B) (tunnels st) /\ map_Forall (fun _ => resource_takes B) (hosts st).

Definition sane (e : event) : Prop := 0 <= e_in e /\ 0 <= e_out e.

Lemma Add_spent i o s B :
  0 <= i -> 0 <= o -> takes (i + o + B) s -> 0 <= B -> spent (Add i o s) = spent s + (i + o) /\ takes B (Add i o s).
Proof.
  intros Hi Ho (H1 & H2 & H3) HB. unfold takes, spent in *. unfold Add. cbn.
  rewrite !i64_small by lia. repeat if_case; lia.
Qed.

Lemma takes_mono B B' s : B <= B' -> takes B' s -> takes B s.
Proof. unfold takes. lia. Qed.

Lemma store_takes_mono B B' st : B <= B' -> store_takes B' st -> store_takes B st.
Proof.
  intros HB (H1 & H2 & H3 & H4). pose proof (fun s => takes_mono B B' s HB) as Hm.
  split; [|split; [|split]]; (eapply map_Forall_impl; [done|]); intros p x; try apply Hm.
  intros [? ?]. split; by apply Hm.
Qed.

Section Event.
Context (i o B : Z).
Hypothesis Hi : 0 <= i.
Hypothesis Ho : 0 <= o.
Hypothesis HB : 0 <= B.

Lemma user_charged now u e u' :
  user_takes (i + o + B) u -> ObserveTotalTraffic now i o u = (e, u') ->
  user_spent u' = user_spent u + (i + o) /\ user_takes B u'.
Proof.
  intros Ht. unfold ObserveTotalTraffic. destruct ((i =? 0) && (o =? 0)) eqn:Hz.
  - intros [= <- <-]. zbool. subst. split; [lia|]. eapply takes_mono; [|done]. lia.
  - intros [= <- <-]. unfold user_spent, user_takes. cbn. by apply Add_spent.
Qed.

Lemma resource_charged now r e r' :
  resource_takes (i + o + B) r -> resource_ObserveServiceTraffic now i o r = (e, r') ->
  resource_spent r' = resource_spent r + (i + o) /\ resource_takes B r'.
Proof.
  intros Ht. unfold resource_ObserveServiceTraffic. destruct ((i =? 0) && (o =? 0)) eqn:Hz.
  - intros [= <- <-]. zbool. subst. split; [lia|]. eapply takes_mono; [|done]. lia.
  - intros [= <- <-]. unfold resource_spent, resource_takes. cbn. by apply Add_spent.
Qed.

(** A client is charged even when a limit is reached; its owner when none is. *)
Lemma client_charged bridge now now' c us e c' us' :
  client_takes (i + o + B) c -> map_Forall (fun _ => user_takes (i + o + B)) us ->
  observeTraffic bridge now now' i o c us = (e, c', us') ->
  client_spent c' = client_spent c + (i + o) /\ client_takes B c' /\ ownerUser c' = ownerUser c /\
  map_Forall (fun _ => user_takes B) us' /\
  (e = None -> forall p, user_spent <$> us' !! p =
     (fun u => user_spent u + (if decide (ownerUser c = Some p) then i + o else 0)) <$> us !! p).
Proof.
  intros Hc Hus. assert (HusB : map_Forall (fun _ => user_takes B) us).
  { intros p u Hp. eapply takes_mono; [|by apply Hus in Hp]. lia. }
  unfold observeTraffic. destruct ((i =? 0) && (o =? 0)) eqn:Hz.
  { intros [= <- <- <-]. zbool. subst. split; [lia|]. split.
    { destruct Hc. split; (eapply takes_mono; [|done]); lia. }
    split; [done|]. split; [done|]. intros _ p. destruct (us !! p); cbn; [|done]. f_equal. destruct decide; lia. }
  set (c1 := if bridge then _ else _).
  assert (H1 : client_spent c1 = client_spent c + (i + o) /\ client_takes B c1 /\ ownerUser c1 = ownerUser c).
  { subst c1. destruct Hc as [Hb Hs].
    destruct (Add_spent _ _ _ _ Hi Ho Hb HB) as [Eb Tb]. destruct (Add_spent _ _ _ _ Hi Ho Hs HB) as [Es Ts].
    assert (takes B (ensure_stats (BridgeTraffic c) (c_Flow c))) by (eapply takes_mono; [|done]; lia).
    assert (takes B (ensure_stats (ServiceTraffic c) None)) by (eapply takes_mono; [|done]; lia).
    unfold client_spent, client_takes. destruct bridge; cbn in *; rewrite ?Eb, ?Es; (split; [lia|done]). }
  clearbody c1. destruct H1 as (Hsp & Htk & Hown). rewrite <- Hown.
  set (lim := check_quota _ _ _ _). clearbody lim.
  assert (Hnone : ownerUser c1 ≫= (us !!.) = None -> forall p, user_spent <$> us !! p =
    (fun u => user_spent u + (if decide (ownerUser c1 = Some p) then i + o else 0)) <$> us !! p).
  { intros Hn p. destruct (us !! p) as [u|] eqn:Hp; cbn; [|done]. f_equal. destruct decide as [E|]; [|lia].
    rewrite E in Hn. cbn in Hn. congruence. }
  destruct lim as [err|]; [intros [= <- <- <-]; done|].
  destruct (ownerUser c1) as [q|] eqn:Hq; [|intros [= <- <- <-]; split_and!; auto].
  destruct (us !! q) as [u|] eqn:Hu; [|intros [= <- <- <-]; split_and!; auto].
  destruct (ObserveTotalTraffic now' i o u) as [err u'] eqn:Eu. intros [= <- <- <-].
  destruct (user_charged _ _ _ _ (Hus _ _ Hu) Eu) as [Hs Ht].
  split; [done|]. split; [done|]. split; [done|]. split; [by apply map_Forall_insert_2|].
  intros _ p. destruct (decide (Some q = Some p)) as [[= ->]|Hne].
  - rewrite lookup_insert_eq, Hu. cbn. by rewrite Hs.
  - rewrite lookup_insert_ne by congruence. destruct (us !! p); cbn; [|done]. f_equal. lia.
Qed.
End Event.

(** ** Sequences of events *)

(** Every entry of [m'] counts [d] more than the entry of [m]. *)
Definition grows {A} (f : A -> Z) (d : Z -> Z) (m m' : gmap Z A) : Prop :=
  forall p, f <$> m' !! p = (fun a => f a + d p) <$> m !! p.

Lemma grows_trans {A} (f : A -> Z) d d' d'' m m' m'' :
  grows f d m m' -> grows f d' m' m'' -> (forall p, d'' p = d p + d' p) -> grows f d'' m m''.
Proof.
  intros H H' Hd p. specialize (H p). specialize (H' p). rewrite Hd.
  destruct (m !! p), (m' !! p), (m'' !! p); cbn in *; simplify_eq; [f_equal; lia|done].
Qed.

Lemma grows_refl {A} (f : A -> Z) d m : (forall p, is_Some (m !! p) -> d p = 0) -> grows f d m m.
Proof. intros Hd p. destruct (m !! p) eqn:E; cbn; [|done]. f_equal. rewrite Hd by eauto. lia. Qed.

Lemma grows_insert {A} (f : A -> Z) (d : Z -> Z) m q a a' :
  m !! q = Some a -> f a' = f a + d q -> (forall p, p <> q -> d p = 0) -> grows f d m (<[q := a']> m).
Proof.
  intros Hq Hf Hd p. destruct (decide (p = q)) as [->|Hne].
  - rewrite lookup_insert_eq, Hq. cbn. by rewrite Hf.
  - rewrite lookup_insert_ne by done. destruct (m !! p); cbn; [|done]. f_equal. rewrite Hd by done. lia.
Qed.

(** Which events are charged to a user, a client, a tunnel and a host. *)
Definition owner (st : store) (client : Z) : option Z := c ← clients st !! client; ownerUser c.
Definition to_user (st : store) (p : Z) (e : event) : bool := bool_decide (owner st (e_client e) = Some p).
Definition to_client (p : Z) (e : event) : bool := bool_decide (e_client e = p).
Definition to_tunnel (p : Z) (e : event) : bool := negb (e_bridge e) && bool_decide (e_tunnel e = Some p).
Definition to_host (p : Z) (e : event) : bool :=
  negb (e_bridge e) && bool_decide (e_tunnel e = None) && bool_decide (e_host e = Some p).

Definition cost (f : event -> bool) (e : event) : Z := if f e then bytes e else 0.

Record charges (st st' : store) (du dc dt dh : Z -> Z) : Prop := {
  ch_users : grows user_spent du (users st) (users st');
  ch_clients : grows client_spent dc (clients st) (clients st');
  ch_tunnels : grows resource_spent dt (tunnels st) (tunnels st');
  ch_hosts : grows resource_spent dh (hosts st) (hosts st')
}.

(** The client's part of an event. *)
Lemma observe_client bridge now now' i o B q st c e c' us :
  0 <= i -> 0 <= o -> 0 <= B -> map_Forall (fun _ => user_takes (i + o + B)) (users st) ->
  map_Forall (fun _ => client_takes (i + o + B)) (clients st) -> clients st !! q = Some c ->
  observeTraffic bridge now now' i o c (users st) = (e, c', us) ->
  let st' := with_users (with_clients st (<[q := c']> (clients st))) us in
  map_Forall (fun _ => user_takes B) (users st') /\ map_Forall (fun _ => client_takes B) (clients st') /\
  (forall x, owner st' x = owner st x) /\
  (e = None ->
    grows user_spent (fun p => if bool_decide (owner st q = Some p) then i + o else 0) (users st) (users st') /\
    grows client_spent (fun p => if bool_decide (q = p) then i + o else 0) (clients st) (clients st')).
Proof.
  intros Hi Ho HB Hu Hc Hq He st'.
  destruct (client_charged i o B Hi Ho HB _ _ _ _ _ _ _ _ (Hc _ _ Hq) Hu He) as (Hs & Ht & Hw & Hus & Hg).
  assert (HcB : map_Forall (fun _ => client_takes B) (clients st)).
  { eapply map_Forall_impl; [done|]. intros p x [? ?]. split; (eapply takes_mono; [|done]); lia. }
  subst st'. cbn. split; [done|]. split; [by apply map_Forall_insert_2|]. split.
  { intros x. unfold owner. cbn. destruct (decide (q = x)) as [->|Hne].
    - rewrite lookup_insert_eq, Hq. cbn. done.
    - by rewrite lookup_insert_ne. }
  intros Hn. split.
  - intros p. rewrite (Hg Hn p). unfold owner. rewrite Hq. cbn.
    destruct decide; case_bool_decide; done.
  - eapply grows_insert; [done| |].
    + rewrite Hs. by rewrite bool_decide_true.
    + intros p Hp. by rewrite bool_decide_false.
Qed.

Lemma observe_resource_charged now i o B p rs e rs' :
  0 <= i -> 0 <= o -> 0 <= B -> map_Forall (fun _ => resource_takes (i + o + B)) rs ->
  observe_resource now i o p rs = (e, rs') ->
  map_Forall (fun _ => resource_takes B) rs' /\
  grows resource_spent (fun q => if bool_decide (Some p = Some q) then i + o else 0) rs rs'.
Proof.
  intros Hi Ho HB Hr. assert (HrB : map_Forall (fun _ => resource_takes B) rs).
  { eapply map_Forall_impl; [done|]. intros q x. apply takes_mono. lia. }
  unfold observe_resource. destruct (rs !! p) as [r|] eqn:Hp.
  - destruct (resource_ObserveServiceTraffic now i o r) as [e1 r'] eqn:E. intros [= <- <-].
    destruct (resource_charged i o B Hi Ho HB _ _ _ _ (Hr _ _ Hp) E) as [Hs Ht].
    split; [by apply map_Forall_insert_2|]. eapply grows_insert; [done| |].
    + by rewrite bool_decide_true.
    + intros q Hq. rewrite bool_decide_false; [done|congruence].
  - intros [= <- <-]. split; [done|]. apply grows_refl. intros q [r Hq]. rewrite bool_decide_false; [done|congruence].
Qed.

(** The service's part of an event. *)
Definition observe_service (nowR i o : Z) (tunnel host : option Z) (st : store) : option quota_err * store :=
  match tunnel, host with
  | Some p, _ => let '(e, ts) := observe_resource nowR i o p (tunnels st) in (e, with_tunnels st ts)
  | None, Some p => let '(e, hs) := observe_resource nowR i o p (hosts st) in (e, with_hosts st hs)
  | None, None => (None, st)
  end.

Lemma observe_service_charged nowR i o B t h st e st' :
  0 <= i -> 0 <= o -> 0 <= B -> store_takes (i + o + B) st -> observe_service nowR i o t h st = (e, st') ->
  users st' = users st /\ clients st' = clients st /\
  map_Forall (fun _ => resource_takes B) (tunnels st') /\ map_Forall (fun _ => resource_takes B) (hosts st') /\
  grows resource_spent (fun q => if bool_decide (t = Some q) then i + o else 0) (tunnels st) (tunnels st') /\
  grows resource_spent (fun q => if bool_decide (t = None) && bool_decide (h = Some q) then i + o else 0)
    (hosts st) (hosts st').
Proof.
  intros Hi Ho HB Hst. pose proof Hst as (_ & _ & Ht & Hh).
  destruct (store_takes_mono B (i + o + B) st ltac:(lia) Hst) as (_ & _ & HtB & HhB).
  unfold observe_service. destruct t as [p|]; [|destruct h as [p|]].
  - destruct (observe_resource nowR i o p (tunnels st)) as [e1 ts] eqn:E. intros [= <- <-].
    destruct (observe_resource_charged _ _ _ _ _ _ _ _ Hi Ho HB Ht E). split_and!; try done. by apply grows_refl.
  - destruct (observe_resource nowR i o p (hosts st)) as [e1 ts] eqn:E. intros [= <- <-].
    destruct (observe_resource_charged _ _ _ _ _ _ _ _ Hi Ho HB Hh E). split_and!; try done. by apply grows_refl.
  - intros [= <- <-]. split_and!; try done; by apply grows_refl.
Qed.

Lemma observeServiceTraffic_unfold nowR now now' i o client t h st :
  (i =? 0) && (o =? 0) = false ->
  observeServiceTraffic nowR now now' i o (Some client) t h st =
    match observe_service nowR i o t h st with
    | (Some e, st) => (Some e, st)
    | (None, st) =>
        match clients st !! client with
        | None => (None, st)
        | Some c => let '(e, c, us) := observeTraffic false now now' i o c (users st) in
                    (e, with_users (with_clients st (<[client := c]> (clients st))) us)
        end
    end.
Proof.
  intros Hz. unfold observeServiceTraffic. rewrite Hz. fold (observe_service nowR i o t h st).
  destruct (observe_service nowR i o t h st) as [[e|] st1]; cbn; [done|]. by destruct (clients st1 !! client).
Qed.

(** The client's part, on a store whose users and clients the service's part left alone. *)
Definition observe_owner (bridge : bool) (now now' i o q : Z) (st : store) : option quota_err * store :=
  match clients st !! q with
  | None => (None, st)
  | Some c => let '(e, c, us) := observeTraffic bridge now now' i o c (users st) in
              (e, with_users (with_clients st (<[q := c]> (clients st))) us)
  end.

Lemma observe_owner_charged bridge now now' i o B q st st1 r :
  0 <= i -> 0 <= o -> 0 <= B -> store_takes (i + o + B) st ->
  users st1 = users st -> clients st1 = clients st -> observe_owner bridge now now' i o q st1 = (None, r) ->
  map_Forall (fun _ => user_takes B) (users r) /\ map_Forall (fun _ => client_takes B) (clients r) /\
  tunnels r = tunnels st1 /\ hosts r = hosts st1 /\ (forall x, owner r x = owner st x) /\
  grows user_spent (fun p => if bool_decide (owner st q = Some p) then i + o else 0) (users st) (users r) /\
  grows client_spent (fun p => if bool_decide (q = p) then i + o else 0) (clients st) (clients r).
Proof.
  intros Hi Ho HB Hst Hu1 Hc1.
  destruct (store_takes_mono B (i + o + B) st ltac:(lia) Hst) as (HuB & HcB & _ & _). destruct Hst as (Hu & Hc & _ & _).
  assert (Hown : forall x, owner st1 x = owner st x) by (intros; unfold owner; by rewrite Hc1).
  unfold observe_owner. rewrite <- Hu1, <- Hc1, <- (Hown q) in *. destruct (clients st1 !! q) as [c|] eqn:Hq.
  - destruct (observeTraffic bridge now now' i o c (users st1)) as [[e c'] us] eqn:E. intros [= -> <-].
    destruct (observe_client _ _ _ _ _ B q st1 c _ _ _ Hi Ho HB Hu Hc Hq E) as (Hu' & Hc' & Hw & Hg).
    destruct (Hg eq_refl) as [Hgu Hgc]. split_and!; try done. intros x. by rewrite Hw, Hown.
  - intros [= <-]. split_and!; try done; apply grows_refl.
    + intros p _. unfold owner. rewrite Hq. by rewrite bool_decide_false.
    + intros p [c Hp]. rewrite bool_decide_false; [done|congruence].
Qed.

Lemma observe_event e st st' B :
  sane e -> 0 <= B -> store_takes (bytes e + B) st -> observe_one e st = (None, st') ->
  store_takes B st' /\ (forall x, owner st' x = owner st x) /\
  charges st st' (fun p => cost (to_user st p) e) (fun p => cost (to_client p) e)
    (fun p => cost (to_tunnel p) e) (fun p => cost (to_host p) e).
Proof.
  destruct e as [bridge q t h i o [[nowR now] now']]. intros [Hi Ho] HB Hst. cbn in Hi, Ho.
  unfold observe_one, bytes, cost, to_user, to_client, to_tunnel, to_host in *. cbn [e_bridge e_client e_tunnel e_host e_in e_out e_now] in *.
  pose proof (store_takes_mono B (i + o + B) st ltac:(lia) Hst) as HstB.
  destruct ((i =? 0) && (o =? 0)) eqn:Hz.
  { unfold observeBridgeTraffic, observeServiceTraffic. rewrite Hz. zbool. subst.
    destruct bridge; intros [= <-]; (split; [done|]; split; [done|]); split; apply grows_refl; intros;
      repeat case_match; done. }
  destruct bridge.
  - unfold observeBridgeTraffic. rewrite Hz. cbn [mbind option_bind negb andb]. intros H.
    destruct (observe_owner_charged true now now' i o B q st st st') as (Hu & Hc & Et & Eh & Hw & Hgu & Hgc); try done.
    { unfold observe_owner. by destruct (clients st !! q). }
    destruct HstB as (_ & _ & Ht & Hh).
    split; [split_and!; try done; by rewrite ?Et, ?Eh|]. split; [done|].
    split; try done; rewrite ?Et, ?Eh; by apply grows_refl.
  - rewrite observeServiceTraffic_unfold by done.
    destruct (observe_service nowR i o t h st) as [[e|] st1] eqn:Es; [done|].
    destruct (observe_service_charged _ _ _ B _ _ _ _ _ Hi Ho HB Hst Es) as (Hu1 & Hc1 & Ht1 & Hh1 & Hgt & Hgh).
    intros H.
    destruct (observe_owner_charged false now now' i o B q st st1 st' Hi Ho HB Hst Hu1 Hc1 H)
      as (Hu & Hc & Et & Eh & Hw & Hgu & Hgc).
    split; [split_and!; try done; by rewrite ?Et, ?Eh|]. split; [done|].
    split; try done; by rewrite ?Et, ?Eh.
Qed.

Lemma charged_nonneg f es : Forall sane es -> 0 <= charged f es.
Proof.
  induction 1 as [|e es [? ?] _ IH]; cbn; [done|]. unfold bytes. destruct (f e); lia.
Qed.

Lemma to_user_same st st' p es :
  (forall x, owner st' x = owner st x) -> charged (to_user st' p) es = charged (to_user st p) es.
Proof. intros H. induction es as [|e es IH]; cbn; [done|]. unfold to_user at 1 3. by rewrite H, IH. Qed.

Lemma observe_all_charged es st st' :
  Forall sane es -> store_takes (charged (fun _ => true) es) st -> observe_all es st = Some st' ->
  charges st st' (fun p => charged (to_user st p) es) (fun p => charged (to_client p) es)
    (fun p => charged (to_tunnel p) es) (fun p => charged (to_host p) es).
Proof.
  intros Hs. revert st. induction Hs as [|e es He Hes IH]; intros st Hst; cbn.
  - intros [= <-]. split; by apply grows_refl.
  - destruct (observe_one e st) as [[err|] st1] eqn:E; [done|]. intros Ho.
    destruct (observe_event e st st1 _ He (charged_nonneg (fun _ => true) es Hes) Hst E) as (Hst1 & Hown & Hch).
    specialize (IH st1 Hst1 Ho). destruct Hch as [Hu Hc Ht Hh], IH as [Hu' Hc' Ht' Hh'].
    split; eapply grows_trans; try done.
    intros p. cbn. by rewrite (to_user_same st st1).
Qed.

(** C37. Traffic is charged once to everyone it belongs to: through any sequence of reads and
    writes in which no limit is reached, the bytes counted for each user grow by exactly the
    bytes of the events of its clients, and those of each client, tunnel and host by the
    bytes of its own events. *)
Theorem traffic_is_charged es st st' :
  Forall sane es -> store_takes (charged (fun _ => true) es) st -> observe_all es st = Some st' ->
  (forall p, user_spent <$> users st' !! p = (fun u => user_spent u + charged (to_user st p) es) <$> users st !! p) /\
  (forall p, client_spent <$> clients st' !! p =
     (fun c => client_spent c + charged (to_client p) es) <$> clients st !! p) /\
  (forall p, resource_spent <$> tunnels st' !! p =
     (fun r => resource_spent r + charged (to_tunnel p) es) <$> tunnels st !! p) /\
  (forall p, resource_spent <$> hosts st' !! p =
     (fun r => resource_spent r + charged (to_host p) es) <$> hosts st !! p).
Proof. intros Hs Ht Ho. destruct (observe_all_charged es st st' Hs Ht Ho) as [Hu Hc Hx Hy]. done. Qed.

Definition ex_bound : store :=
  mkStore {[100 := mkUser 7 1 0 5000 None None 2 0]} {[1 := mkClient 5 true 7 7 (Some 100) 0 0 None None None 1 0]}
    {[10 := ex_tunnel]} ∅ None None.
Definition ex_events : list event :=
  [mkEvent false 1 (Some 10) None 700 0 (0, 0, 0); mkEvent true 1 None None 0 300 (0, 0, 0)].

Lemma traffic_is_charged_witness :
  exists st', observe_all ex_events ex_bound = Some st' /\ user_spent <$> users st' !! 100 = Some 1000.
Proof.
  eexists. split; [vm_compute; reflexivity|].
  refine (eq_trans (proj1 (traffic_is_charged ex_events ex_bound _ _ _ _) 100) _).
  - repeat constructor; cbn; lia.
  - split; [|split; [|split]]; [apply map_Forall_singleton; repeat split; cbn; lia..|apply map_Forall_empty].
  - vm_compute. reflexivity.
  - vm_compute. reflexivity.
Defined.
