(* ===== verification/AccessRules.v ===== *)
(** Access rules: lists of addresses, prefixes, wildcards and domain patterns compiled into
    matchers, and the decision they give in a white or a black list.

    Sources: [lib/policy/policy.go], [lib/policy/ip.go], [lib/policy/domain.go],
    [lib/policy/geosite.go] (the domain rules of a site), [lib/policy/geoip.go] (the built-in
    list), [lib/common/addr.go] and [lib/common/addr_network.go] (the host of an address).

    What lies outside is an argument: the host that [url.Parse] finds, the regular
    expressions a pattern compiles to, the prefixes and domains read from the geographic
    data files, and the sets of package netipx, with the law that a set built from valid
    prefixes holds the addresses of the prefixes.  A compiled matcher that is nil is
    [None].  Warnings are left out. *)

From Stdlib Require Import String Ascii.
From S2P Require Import Prelude GoString GoStrconv GoNetip HostRouting.
Local Open Scope string_scope.
Local Open Scope list_scope.
Local Open Scope Z_scope.

(** ** Strings *)

(** [strings.Contains]. *)
Fixpoint Contains (s sub : string) : bool :=
  HasPrefix s sub || match s with EmptyString => false | String _ s => Contains s sub end.

(** [strings.ContainsAny] for single bytes. *)
Definition ContainsAny (s chars : string) : bool :=
  existsb (fun c => contains_char c s) (list_ascii_of_string chars).

(** [strings.ReplaceAll] for a pattern that is not empty; each round consumes a byte or the
    pattern, so the length of the text is enough fuel. *)
Fixpoint replace_fuel (fuel : nat) (s old new : string) : string :=
  match fuel with
  | O => s
  | S fuel =>
      match drop_prefix old s with
      | Some rest => new +:+ replace_fuel fuel rest old new
      | None => match s with EmptyString => "" | String c s => String c (replace_fuel fuel s old new) end
      end
  end.
Definition ReplaceAll (s old new : string) : string := replace_fuel (S (String.length s)) s old new.

(** [strings.TrimSuffix(s, ".")]. *)
Fixpoint trim_dot (s : string) : string :=
  match s with
  | EmptyString => ""
  | String "."%char EmptyString => ""
  | String c s => String c (trim_dot s)
  end.

(** The text before the first or the last occurrence of a byte; all of it without one. *)
Definition before_first (c : ascii) (s : string) : string := default "" (head (split_on c s)).
Definition before_last (c : ascii) (s : string) : string :=
  match split_on c s with [x] => x | xs => join_with c (removelast xs) end.

(** [strings.Cut] at a colon. *)
Definition cut_colon (s : string) : option (string * string) :=
  match split_on ":"%char s with x :: ((_ :: _) as rest) => Some (x, join_with ":"%char rest) | _ => None end.

Fixpoint ToUpper (s : string) : string :=
  match s with
  | EmptyString => ""
  | String c s => String (if is_lower c then ascii_of_nat (nat_of_ascii c - 32) else c) (ToUpper s)
  end.

Definition nonempty (s : string) : bool := negb (bool_decide (s = "")).

(** The full-width colon, three bytes. *)
Definition wide_colon : string :=
  String (ascii_of_nat 239) (String (ascii_of_nat 188) (String (ascii_of_nat 154) "")).

(** ** Modes and rules *)

Inductive Mode := ModeOff | ModeWhitelist | ModeBlacklist.

Definition NormalizeMode (mode : Z) : Mode :=
  if mode =? 1 then ModeWhitelist else if mode =? 2 then ModeBlacklist else ModeOff.

Definition allows (mode : Mode) (hasEntries matched : bool) : bool :=
  match mode with
  | ModeWhitelist => if negb hasEntries then false else matched
  | ModeBlacklist => if negb hasEntries then true else negb matched
  | ModeOff => true
  end.

Definition newline : ascii := ascii_of_nat 10.
Definition crlf : string := String (ascii_of_nat 13) (String newline "").

Definition splitRules (raw : string) : list string :=
  if decide (raw = "") then []
  else filter (fun part => nonempty part = true)
         (TrimSpace <$> split_on newline (ReplaceAll raw crlf (String newline ""))).

(** The token of a rule, or nothing for a blank line and a comment. *)
Definition rule_token (entry : string) : option string :=
  let token := TrimSpace (ReplaceAll entry wide_colon ":") in
  if decide (token = "") then None
  else if HasPrefix token "#" || HasPrefix token ";" then None
  else Some token.

(** ** Prefixes *)

Record Prefix := mkPrefix { p_addr : Addr; p_bits : Z }.
#[export] Instance Prefix_eq_dec : EqDecision Prefix.
Proof. solve_decision. Defined.

Definition addr_bytes (a : Addr) : list Z := match a with Addr4 bs | Addr16 bs _ => bs end.
Definition bit_len (a : Addr) : Z := 8 * Z.of_nat (length (addr_bytes a)).
Definition same_family (a b : Addr) : bool :=
  match a, b with Addr4 _, Addr4 _ | Addr16 _ _, Addr16 _ _ => true | _, _ => false end.

(** The address as a number, most significant byte first. *)
Definition addr_value (a : Addr) : Z := fold_left (fun acc b => acc * 256 + b) (addr_bytes a) 0.

Definition prefix_contains (p : Prefix) (a : Addr) : bool :=
  same_family (p_addr p) a &&
  (Z.shiftr (addr_value (p_addr p)) (bit_len a - p_bits p) =? Z.shiftr (addr_value a) (bit_len a - p_bits p)).

Definition prefix_valid (p : Prefix) : bool := (0 <=? p_bits p) && (p_bits p <=? bit_len (p_addr p)).

(** [Prefix.Masked]: the bytes with the bits after the prefix cleared. *)
Definition mask_byte (bits : Z) (i : nat) (b : Z) : Z :=
  let keep := Z.max 0 (Z.min 8 (bits - 8 * Z.of_nat i)) in Z.shiftl (Z.shiftr b (8 - keep)) (8 - keep).
Definition Masked (p : Prefix) : Prefix :=
  let masked bs := imap (mask_byte (p_bits p)) bs in
  mkPrefix (match p_addr p with Addr4 bs => Addr4 (masked bs) | Addr16 bs _ => Addr16 (masked bs) "" end) (p_bits p).

(** [netip.ParsePrefix]. *)
Definition prefix_bits (s : string) : option Z :=
  match s with
  | EmptyString => None
  | String c rest =>
      if (1 <? String.length s)%nat && negb (is_digit c && negb (Ascii.eqb c "0")) then None
      else if forallb is_digit (list_ascii_of_string s) then digits_value 0 s else None
  end.
Definition ParsePrefix (s : string) : option Prefix :=
  match rev (split_on "/"%char s) with
  | bits :: ((_ :: _) as rest) =>
      match ParseAddr (join_with "/"%char (rev rest)) with
      | Some a =>
          match a with
          | Addr16 _ (String _ _) => None
          | _ => match prefix_bits bits with
                 | Some b => if b <=? bit_len a then Some (mkPrefix a b) else None
                 | None => None
                 end
          end
      | None => None
      end
  | _ => None
  end.

(** ** Wildcards *)

Fixpoint trim_zeros (s : string) : string :=
  match s with String "0"%char s => trim_zeros s | _ => s end.

Definition parseOctet (part : string) : option string :=
  if decide (part = "") then None
  else if negb (forallb is_digit (list_ascii_of_string part)) then None
  else
    let part := if (1 <? String.length part)%nat && HasPrefix part "0" then
                  let t := trim_zeros part in if decide (t = "") then "0" else t
                else part in
    if (3 <? String.length part)%nat then None
    else let value := default 0 (Atoi (TrimSpace part)) in
         if (value <? 0) || (255 <? value) then None else Some part.

(** The fixed parts of a pattern, when everything after them is a wildcard. *)
Fixpoint fixed_parts (parts : list string) : option (list string) :=
  match parts with
  | [] => Some []
  | part :: rest =>
      if decide (TrimSpace part = "*") then
        if forallb (fun q => bool_decide (TrimSpace q = "*")) rest then Some [] else None
      else match parseOctet (TrimSpace part) with
           | None => None
           | Some value => match fixed_parts rest with Some l => Some (value :: l) | None => None end
           end
  end.

Definition parseIPv4WildcardPrefix (token : string) : option Prefix :=
  if negb (contains_char "*"%char token) then None
  else if contains_char ":"%char token || contains_char "/"%char token then None
  else
    let parts := split_on "."%char token in
    if (length parts <? 2)%nat || (4 <? length parts)%nat then None
    else
      let parts := parts ++ replicate (4 - length parts) "*" in
      match fixed_parts parts with
      | None => None
      | Some fixed =>
          if (length fixed =? 0)%nat || (length fixed =? length parts)%nat then None
          else match ParseAddr (ReplaceAll (join_with "."%char (fixed ++ drop (length fixed) parts)) "*" "0") with
               | Some (Addr4 bs) => Some (Masked (mkPrefix (Addr4 bs) (Z.of_nat (length fixed) * 8)))
               | _ => None
               end
      end.

(** ** Hosts *)

Definition ParseIPFromAddr (addr : string) : option (list Z) :=
  if decide (addr = "") then None
  else let ip := GetIpByAddr addr in
       if decide (ip = "") then None else ParseIP (before_last "%"%char ip).

Definition parseAddr (addr : string) : option Addr :=
  match ParseIPFromAddr (TrimSpace addr) with Some bs => Some (Unmap (Addr16 bs "")) | None => None end.

Definition RemovePortFromHost (host : string) : string :=
  match host with
  | EmptyString => host
  | String "["%char _ => if contains_char "]"%char host then before_first "]"%char host +:+ "]" else ""
  | _ => match split_on ":"%char host with [before; _] => before | _ => host end
  end.

Section Hosts.
(** The host of a URL, or nothing when it does not parse. *)
Variable url_host : string -> option string.

Definition ExtractHost (input : string) : string :=
  match (if Contains input "://" then url_host input else None) with
  | Some (String _ _ as h) => h
  | _ => before_first "/"%char input
  end.

Definition normalizeHostFromAddr (input : string) : string :=
  let host := TrimSpace (RemovePortFromHost (ExtractHost (TrimSpace input))) in
  if decide (host = "") then ""
  else
    let host := if HasPrefix host "[" && HasSuffix host "]" then before_last "]"%char (tail_str host) else host in
    ToLower (trim_dot (before_last "%"%char host)).

Definition host_stops : string := String (ascii_of_nat 32) (String (ascii_of_nat 9) (String (ascii_of_nat 13) (String newline "/?#"))).

Definition normalizeHostToken (input : string) : option string :=
  let host := normalizeHostFromAddr input in
  if decide (host = "") then None else if ContainsAny host host_stops then None else Some host.

Definition normalizeDomainToken (input : string) : option string :=
  match normalizeHostToken input with
  | None => None
  | Some host => match ParseAddr host with Some _ => None | None => Some host end
  end.
End Hosts.

Definition normalizeDomainKeywordToken (input : string) : string :=
  let input := ToLower (TrimSpace input) in
  if decide (input = "") then "" else if ContainsAny input host_stops then "" else trim_dot input.

(** ** The domain tree *)

Inductive domainNode := DNode (children : gmap string domainNode) (matchSelf matchSubOnly : bool).
Definition d_children (n : domainNode) : gmap string domainNode := let 'DNode c _ _ := n in c.
Definition matchSelf (n : domainNode) : bool := let 'DNode _ s _ := n in s.
Definition matchSubOnly (n : domainNode) : bool := let 'DNode _ _ s := n in s.
Definition new_node : domainNode := DNode ∅ false false.

Definition reverseDomainLabels (domain : string) : list string := reverse (split_on "."%char domain).

Fixpoint node_add (labels : list string) (includeSelf subOnly : bool) (n : domainNode) : domainNode :=
  match labels with
  | [] => DNode (d_children n) (includeSelf || matchSelf n) (subOnly || matchSubOnly n)
  | label :: labels =>
      let child := default new_node (d_children n !! label) in
      DNode (<[label := node_add labels includeSelf subOnly child]> (d_children n)) (matchSelf n) (matchSubOnly n)
  end.

Definition tree_add (t : option domainNode) (domain : string) (includeSelf subOnly : bool) : option domainNode :=
  if decide (domain = "") then t
  else Some (node_add (reverseDomainLabels domain) includeSelf subOnly (default new_node t)).

Fixpoint node_match (n : domainNode) (labels : list string) : bool :=
  match labels with
  | [] => false
  | label :: rest =>
      match d_children n !! label with
      | None => false
      | Some child =>
          if matchSelf child then true
          else if matchSubOnly child && (0 <? Z.of_nat (length rest)) then true
          else node_match child rest
      end
  end.

Definition tree_match (t : option domainNode) (domain : string) : bool :=
  match t with
  | None => false
  | Some root => if decide (domain = "") then false else node_match root (reverseDomainLabels domain)
  end.

(** ** Matchers *)

Record DomainMatcher := mkDomains {
  d_exact : gset string; tree : option domainNode; keywords : list string; regexps : list (string -> bool);
  dotless : list string; dotlessAny : bool
}.
Definition no_domains : DomainMatcher := mkDomains ∅ None [] [] [] false.

Definition with_exact (m : DomainMatcher) h := mkDomains ({[h]} ∪ d_exact m) (tree m) (keywords m) (regexps m) (dotless m) (dotlessAny m).
Definition with_tree (m : DomainMatcher) t := mkDomains (d_exact m) t (keywords m) (regexps m) (dotless m) (dotlessAny m).
Definition with_keyword (m : DomainMatcher) k := mkDomains (d_exact m) (tree m) (keywords m ++ [k]) (regexps m) (dotless m) (dotlessAny m).
Definition with_regexp (m : DomainMatcher) r := mkDomains (d_exact m) (tree m) (keywords m) (regexps m ++ [r]) (dotless m) (dotlessAny m).
Definition with_dotless (m : DomainMatcher) d := mkDomains (d_exact m) (tree m) (keywords m) (regexps m) (dotless m ++ [d]) (dotlessAny m).
Definition with_dotlessAny (m : DomainMatcher) := mkDomains (d_exact m) (tree m) (keywords m) (regexps m) (dotless m) true.

Inductive geoSiteType := geoSiteTypePlain | geoSiteTypeRegex | geoSiteTypeDomain | geoSiteTypeFull.
Record geoSiteDomain := mkSite { typ : geoSiteType; value : string; attrs : list string }.

Definition splitExternalGeoDataRule (value : string) : option (string * string) :=
  let value := TrimSpace value in
  if decide (value = "") then None
  else match cut_colon value with
       | None => None
       | Some (file, code) =>
           let file := TrimSpace file in
           let code := TrimSpace code in
           if decide (file = "") then None else if decide (code = "") then None else Some (file, code)
       end.

Definition matchGeoSiteAttrs (domain : geoSiteDomain) (wanted : list string) : bool :=
  if decide (wanted = []) then true
  else if decide (attrs domain = []) then false
  else forallb (fun a => bool_decide (a ∈ attrs domain)) wanted.

(** What follows a prefix of a token, as [token[len(prefix):]]. *)
Definition after (prefix token : string) : string := String.substring (String.length prefix) (String.length token) token.

Section Rules.
Variable url_host : string -> option string.
(** [regexp.Compile] and [MatchString]. *)
Variable regexp_Compile : string -> option (string -> bool).
(** The domains of a code in the file of a rule, or in the default file. *)
Variable geosite : option string -> string -> option (list geoSiteDomain).
(** The prefixes of a code, likewise. *)
Variable geoip : option string -> string -> option (list Prefix).
(** [IPSetBuilder.IPSet] on the prefixes added, and [IPSet.Contains]. *)
Variable IPSet : list Prefix -> option (Addr -> bool).

Definition compileStructuredDomainRule (token : string) (m : DomainMatcher) : bool * bool * DomainMatcher :=
  let lower := ToLower token in
  if HasPrefix lower "full:" then
    match normalizeDomainToken url_host (after "full:" token) with
    | None => (true, false, m)
    | Some host => (true, true, with_exact m host)
    end
  else if HasPrefix lower "domain:" then
    match normalizeDomainToken url_host (after "domain:" token) with
    | None => (true, false, m)
    | Some host => (true, true, with_tree m (tree_add (tree m) host true false))
    end
  else if HasPrefix lower "keyword:" then
    let pattern := normalizeDomainKeywordToken (after "keyword:" token) in
    if decide (pattern = "") then (true, false, m) else (true, true, with_keyword m pattern)
  else if HasPrefix lower "regexp:" then
    let pattern := TrimSpace (after "regexp:" token) in
    if decide (pattern = "") then (true, false, m)
    else match regexp_Compile ("(?i)" +:+ pattern) with
         | None => (true, false, m)
         | Some re => (true, true, with_regexp m re)
         end
  else if HasPrefix lower "dotless:" then
    let raw := TrimSpace (after "dotless:" token) in
    if decide (raw = "") then (true, true, with_dotlessAny m)
    else if contains_char "."%char raw then (true, false, m)
    else let pattern := normalizeDomainKeywordToken raw in
         if decide (pattern = "") then (true, false, m) else (true, true, with_dotless m pattern)
  else (false, false, m).

Definition add_site (m : DomainMatcher) (d : geoSiteDomain) : DomainMatcher :=
  match typ d with
  | geoSiteTypeFull => with_exact m (value d)
  | geoSiteTypeDomain => with_tree m (tree_add (tree m) (value d) true false)
  | geoSiteTypePlain => with_keyword m (value d)
  | geoSiteTypeRegex => match regexp_Compile (value d) with Some re => with_regexp m re | None => m end
  end.
Definition addGeoSiteDomains (m : DomainMatcher) (domains : list geoSiteDomain) : DomainMatcher :=
  fold_left add_site domains m.

Definition loadGeoSiteDomainsWithAttr (file : option string) (siteWithAttr : string) : option (list geoSiteDomain) :=
  match split_on "@"%char siteWithAttr with
  | [] => None
  | part :: parts =>
      let code := ToUpper (TrimSpace part) in
      if decide (code = "") then None
      else match geosite file code with
           | None => None
           | Some domains =>
               let wanted := filter (fun a => nonempty a = true) ((fun p => TrimSpace (ToLower p)) <$> parts) in
               if decide (wanted = []) then Some domains
               else Some (filter (fun d => matchGeoSiteAttrs d wanted = true) domains)
           end
  end.

Definition add_external (m : DomainMatcher) (rule : string) : bool * bool * DomainMatcher :=
  match splitExternalGeoDataRule rule with
  | None => (true, false, m)
  | Some (file, site) =>
      match loadGeoSiteDomainsWithAttr (Some file) site with
      | None => (true, false, m)
      | Some domains => (true, true, addGeoSiteDomains m domains)
      end
  end.

Definition compileGeoSiteToken (token : string) (m : DomainMatcher) : bool * bool * DomainMatcher :=
  let lower := ToLower token in
  if HasPrefix lower "geosite:" then
    match loadGeoSiteDomainsWithAttr None (TrimSpace (after "geosite:" token)) with
    | None => (true, false, m)
    | Some domains => (true, true, addGeoSiteDomains m domains)
    end
  else if HasPrefix lower "ext-domain:" then add_external m (after "ext-domain:" token)
  else if HasPrefix lower "ext:" then add_external m (after "ext:" token)
  else (false, false, m).

(** One turn of the loop of [compileDomainMatcher], which is only called with
    [ignoreNonDomainTokens]; that flag only changes what is logged. *)
Definition compile_domain (token : string) (m : DomainMatcher) : DomainMatcher :=
  let '(handled, _, m) := compileStructuredDomainRule token m in
  if handled then m
  else
    let '(handled, _, m) := compileGeoSiteToken token m in
    if handled then m
    else if HasPrefix (ToLower token) "geoip:" then m
    else match parseIPv4WildcardPrefix token with
    | Some _ => m
    | None =>
        if contains_char "/"%char token then m
        else if contains_char "*"%char token && negb (HasPrefix token "*") then m
        else if HasPrefix token "*" then
          let subOnly := HasPrefix token "*." in
          let suffixRaw := if subOnly then TrimPrefix token "*." else TrimPrefix token "*" in
          match normalizeDomainToken url_host suffixRaw with
          | None => m
          | Some suffix => with_tree m (tree_add (tree m) suffix (negb subOnly) subOnly)
          end
        else
          match normalizeDomainToken url_host token with
          | None => m
          | Some ihost =>
              let pattern := normalizeDomainKeywordToken ihost in
              if decide (pattern = "") then m else with_keyword m pattern
          end
    end.

Definition is_empty_domains (m : DomainMatcher) : bool :=
  bool_decide (d_exact m = ∅) && match tree m with None => true | Some _ => false end &&
  bool_decide (keywords m = []) && match regexps m with [] => true | _ => false end &&
  bool_decide (dotless m = []) && negb (dotlessAny m).

Definition compileDomainMatcher (entries : list string) : option DomainMatcher * bool :=
  let tokens := omap rule_token entries in
  let m := fold_left (fun m t => compile_domain t m) tokens no_domains in
  (if is_empty_domains m then None else Some m, match tokens with [] => false | _ => true end).

Definition domain_Contains (m : DomainMatcher) (host : string) : bool :=
  let host := normalizeHostFromAddr url_host host in
  if decide (host = "") then false
  else match ParseAddr host with
  | Some _ => false
  | None =>
      bool_decide (host ∈ d_exact m) || tree_match (tree m) host ||
      existsb (Contains host) (keywords m) || existsb (fun re => re host) (regexps m) ||
      negb (contains_char "."%char host) && (dotlessAny m || existsb (Contains host) (dotless m))
  end.

(** ** Address matchers *)

Record IPMatcher := mkIPs { i_exact : list Addr; set : option (Addr -> bool); negative : list (Addr -> bool) }.

(** The variables of [compileIPMatcher]: addresses, the prefixes given to the builder and
    the sets of the reversed rules. *)
Record ip_rules := mkRules { r_exact : list Addr; builder : list Prefix; hasPrefixes : bool; r_negative : list (Addr -> bool) }.
Definition no_rules : ip_rules := mkRules [] [] false [].
Definition add_prefix (r : ip_rules) (p : Prefix) : ip_rules := mkRules (r_exact r) (builder r ++ [p]) true (r_negative r).

Definition private_prefixes : list Prefix :=
  omap (fun v => Masked <$> ParsePrefix v)
    ["10.0.0.0/8"; "172.16.0.0/12"; "192.168.0.0/16"; "100.64.0.0/10"; "169.254.0.0/16"; "127.0.0.0/8";
     "::1/128"; "fc00::/7"; "fe80::/10"].
Definition builtinGeoIPPrefixes (code : string) : option (list Prefix) :=
  if decide (code = "PRIVATE") then Some private_prefixes else None.

Definition loadGeoIPPrefixes (file : option string) (code : string) : option (list Prefix) :=
  let code := ToUpper (TrimSpace code) in
  if decide (code = "") then None
  else match builtinGeoIPPrefixes code with Some ps => Some ps | None => geoip file code end.

(** The file and the code of a rule, [None] inside when the rule is malformed. *)
Definition parseGeoIPRule (token : string) : option (option (option string * string)) :=
  let lower := ToLower token in
  let external rule := match splitExternalGeoDataRule rule with
                       | None => None
                       | Some (file, code) => Some (Some file, code)
                       end in
  if HasPrefix lower "geoip:" then Some (Some (None, TrimSpace (after "geoip:" token)))
  else if HasPrefix lower "ext-ip:" then Some (external (after "ext-ip:" token))
  else if HasPrefix lower "ext:" then Some (external (after "ext:" token))
  else None.

(** [None] when the token is no geographic rule. *)
Definition compileGeoIPToken (token : string) (r : ip_rules) : option ip_rules :=
  match parseGeoIPRule token with
  | None => None
  | Some None => Some r
  | Some (Some (file, code)) =>
      let reverse := HasPrefix code "!" in
      let code := if reverse then TrimSpace (tail_str code) else code in
      if decide (code = "") then Some r
      else match loadGeoIPPrefixes file code with
           | None => Some r
           | Some prefixes =>
               if reverse then
                 match IPSet prefixes with
                 | None => Some r
                 | Some s => Some (mkRules (r_exact r) (builder r) (hasPrefixes r) (r_negative r ++ [s]))
                 end
               else Some (fold_left add_prefix prefixes r)
           end
  end.

(** One turn of the loop of [compileIPMatcher]; the flag [ignoreNonIPTokens] only changes
    what is logged. *)
Definition compile_ip (token : string) (r : ip_rules) : ip_rules :=
  match compileGeoIPToken token r with
  | Some r => r
  | None =>
      match parseIPv4WildcardPrefix token with
      | Some prefix => add_prefix r prefix
      | None =>
          if contains_char "*"%char token then r
          else if contains_char "/"%char token then
            match ParsePrefix token with Some prefix => add_prefix r (Masked prefix) | None => r end
          else match normalizeHostToken url_host token with
          | None => r
          | Some host =>
              match ParseAddr host with
              | None => r
              | Some addr => mkRules (r_exact r ++ [Unmap addr]) (builder r) (hasPrefixes r) (r_negative r)
              end
          end
      end
  end.

Definition compileIPMatcher (entries : list string) : option IPMatcher * bool :=
  let tokens := omap rule_token entries in
  let r := fold_left (fun r t => compile_ip t r) tokens no_rules in
  let set := if hasPrefixes r then IPSet (builder r) else None in
  (match r_exact r, set, r_negative r with
   | [], None, [] => None
   | _, _, _ => Some (mkIPs (r_exact r) set (r_negative r))
   end, match tokens with [] => false | _ => true end).

Definition ip_Contains (m : IPMatcher) (addr : Addr) : bool :=
  let addr := Unmap addr in
  bool_decide (addr ∈ i_exact m) || match set m with Some f => f addr | None => false end ||
  existsb (fun f => negb (f addr)) (negative m).

(** ** Policies *)

Record SourceIPPolicy := mkSource { s_mode : Mode; s_hasEntries : bool; matcher : option IPMatcher }.
Record DestinationPolicy := mkDestination {
  d_mode : Mode; d_hasEntries : bool; ipMatcher : option IPMatcher; domainMatcher : option DomainMatcher
}.

Definition CompileSourceIPPolicy (mode : Mode) (entries : list string) : SourceIPPolicy :=
  let '(m, has) := compileIPMatcher entries in mkSource mode has m.

Definition ip_matched (m : option IPMatcher) (a : Addr) : bool :=
  match m with Some m => ip_Contains m a | None => false end.

(** A nil policy allows everything. *)
Definition source_AllowsAddr (p : option SourceIPPolicy) (addr : string) : bool :=
  match p with
  | None => true
  | Some p =>
      match parseAddr addr with
      | None => allows (s_mode p) (s_hasEntries p) false
      | Some parsed => allows (s_mode p) (s_hasEntries p) (ip_matched (matcher p) parsed)
      end
  end.

Definition CompileDestinationPolicy (mode : Mode) (raw : string) : DestinationPolicy :=
  let entries := splitRules raw in
  let '(ips, ipEntries) := compileIPMatcher entries in
  let '(domains, domainEntries) := compileDomainMatcher entries in
  mkDestination mode (ipEntries || domainEntries) ips domains.

Definition destination_AllowsAddr (p : option DestinationPolicy) (addr : string) : bool :=
  match p with
  | None => true
  | Some p =>
      let matched :=
        match parseAddr addr with
        | Some parsed => ip_matched (ipMatcher p) parsed
        | None =>
            let host := normalizeHostFromAddr url_host addr in
            match domainMatcher p with
            | Some m => if decide (host = "") then false else domain_Contains m host
            | None => false
            end
        end in
      allows (d_mode p) (d_hasEntries p) matched
  end.
End Rules.

(** ** The domain tree holds its rules *)

Lemma node_match_children n n' labels : d_children n = d_children n' -> node_match n labels = node_match n' labels.
Proof. destruct labels as [|l ls]; [done|]. intros H. cbn. by rewrite H. Qed.

Lemma node_match_new labels : node_match new_node labels = false.
Proof. by destruct labels. Qed.

(** A rule for the labels [L] on a host with the labels [K], from the top level down. *)
Definition covers (L : list string) (self sub : bool) (K : list string) : bool :=
  bool_decide (L `prefix_of` K) && (self || sub && negb (bool_decide (L = K))).

Lemma covers_cons l L self sub k K :
  covers (l :: L) self sub (k :: K) = bool_decide (l = k) && covers L self sub K.
Proof.
  unfold covers. destruct (decide (l = k)) as [->|Hne].
  - rewrite (bool_decide_true (k = k)) by done. cbn [andb]. f_equal.
    + apply bool_decide_ext. split; [apply prefix_cons_inv_2|apply prefix_cons].
    + f_equal. f_equal. f_equal. apply bool_decide_ext. split; [by intros [= ->]|by intros ->].
  - rewrite (bool_decide_false (l = k)) by done. rewrite bool_decide_false; [done|].
    intros H. by apply prefix_cons_inv_1 in H.
Qed.

Lemma node_match_add L self sub n K :
  L <> [] -> node_match (node_add L self sub n) K = covers L self sub K || node_match n K.
Proof.
  revert n K. induction L as [|l L IH]; intros n K HL; [done|]. destruct K as [|k K].
  { cbn. unfold covers. rewrite bool_decide_false; [done|]. intros H. by apply prefix_nil_not in H. }
  rewrite covers_cons. cbn [node_add node_match d_children].
  destruct (decide (l = k)) as [->|Hne].
  2:{ rewrite lookup_insert_ne by done. by rewrite bool_decide_false. }
  rewrite lookup_insert_eq, bool_decide_true by done. cbn [andb].
  set (c := default new_node (d_children n !! k)).
  assert (Hn : match d_children n !! k with
               | None => false
               | Some child => if matchSelf child then true
                   else if matchSubOnly child && (0 <? Z.of_nat (length K)) then true else node_match child K
               end = matchSelf c || matchSubOnly c && (0 <? Z.of_nat (length K)) || node_match c K).
  { subst c. destruct (d_children n !! k) as [child|]; cbn.
    - destruct (matchSelf child), (matchSubOnly child && (0 <? Z.of_nat (length K))); done.
    - by rewrite node_match_new. }
  rewrite Hn. clear Hn. destruct L as [|l' L].
  - assert (Hc : covers [] self sub K = self || sub && (0 <? Z.of_nat (length K))).
    { unfold covers. rewrite bool_decide_true by apply prefix_nil. cbn. f_equal. f_equal. by destruct K. }
    rewrite Hc. cbn [node_add matchSelf matchSubOnly].
    rewrite (node_match_children (DNode (d_children c) (self || matchSelf c) (sub || matchSubOnly c)) c) by done.
    destruct self, sub, (matchSelf c), (matchSubOnly c), (0 <? Z.of_nat (length K)), (node_match c K); done.
  - rewrite IH by done.
    assert (matchSelf (node_add (l' :: L) self sub c) = matchSelf c /\
            matchSubOnly (node_add (l' :: L) self sub c) = matchSubOnly c) as [-> ->] by done.
    destruct (covers (l' :: L) self sub K), (matchSelf c), (matchSubOnly c && (0 <? Z.of_nat (length K))), (node_match c K); done.
Qed.

(** What a rule for the domain [d] means for a host: the domain itself, and the hosts below it. *)
Definition under_domain (d : string) (self sub : bool) (h : string) : bool :=
  self && bool_decide (h = d) || (self || sub) && HasSuffix h (String "."%char d).

Lemma covers_under d self sub h :
  covers (reverseDomainLabels d) self sub (reverseDomainLabels h) = under_domain d self sub h.
Proof.
  unfold covers, under_domain, reverseDomainLabels.
  assert (Hp : bool_decide (reverse (split_on "."%char d) `prefix_of` reverse (split_on "."%char h)) =
               bool_decide (h = d) || HasSuffix h (String "."%char d)).
  { apply Bool.eq_iff_eq_true. rewrite bool_decide_eq_true, orb_true_iff, bool_decide_eq_true, HasSuffix_spec, <- split_suffix.
    by rewrite suffix_prefix_reverse. }
  assert (He : bool_decide (reverse (split_on "."%char d) = reverse (split_on "."%char h)) = bool_decide (h = d)).
  { apply bool_decide_ext. split; [intros H; symmetry; by eapply split_inj, (inj reverse)|by intros ->]. }
  rewrite Hp, He. destruct (decide (h = d)) as [->|Hne].
  - rewrite (bool_decide_true (d = d)) by done.
    assert (HasSuffix d (String "."%char d) = false) as ->.
    { apply not_true_is_false. rewrite HasSuffix_spec. intros [x Hx]. apply (f_equal String.length) in Hx.
      rewrite length_app_str in Hx. cbn in Hx. lia. }
    destruct self, sub; done.
  - rewrite (bool_decide_false (h = d)) by done. destruct (HasSuffix h (String "."%char d)), self, sub; done.
Qed.

Lemma tree_match_add t d self sub h :
  d <> "" -> h <> "" -> tree_match (tree_add t d self sub) h = under_domain d self sub h || tree_match t h.
Proof.
  intros Hd Hh. unfold tree_add. rewrite decide_False by done. unfold tree_match. rewrite (decide_False (P := h = "")) by done.
  rewrite node_match_add, covers_under.
  - destruct t as [root|]; cbn [default from_option]; [by rewrite decide_False|]. by rewrite node_match_new.
  - unfold reverseDomainLabels. intros H. apply (f_equal reverse) in H. rewrite reverse_involutive in H.
    by apply split_on_not_nil in H.
Qed.

(** ** Rules are independent *)

(** The part of [domain_Contains] after the host is normalised. *)
Definition host_matches (m : DomainMatcher) (host : string) : bool :=
  bool_decide (host ∈ d_exact m) || tree_match (tree m) host ||
  existsb (Contains host) (keywords m) || existsb (fun re => re host) (regexps m) ||
  negb (contains_char "."%char host) && (dotlessAny m || existsb (Contains host) (dotless m)).

Section Updates.
Variable host : string.
Lemma matches_none : host_matches no_domains host = false.
Proof using. unfold host_matches. cbn. rewrite bool_decide_false by set_solver. by destruct (contains_char _ _). Qed.

Lemma matches_exact m x : host_matches (with_exact m x) host = bool_decide (host = x) || host_matches m host.
Proof using.
  unfold host_matches. cbn.
  assert (bool_decide (host ∈ {[x]} ∪ d_exact m) = bool_decide (host = x) || bool_decide (host ∈ d_exact m)) as ->.
  { apply Bool.eq_iff_eq_true. rewrite orb_true_iff, !bool_decide_eq_true. set_solver. }
  by destruct (bool_decide (host = x)).
Qed.

Lemma matches_tree m d self sub :
  host <> "" -> d <> "" ->
  host_matches (with_tree m (tree_add (tree m) d self sub)) host = under_domain d self sub host || host_matches m host.
Proof using.
  intros Hhost Hd. unfold host_matches. cbn. rewrite tree_match_add by done.
  destruct (bool_decide (host ∈ d_exact m)), (under_domain d self sub host); done.
Qed.

Lemma existsb_snoc {A} (f : A -> bool) l x : existsb f (l ++ [x]) = f x || existsb f l.
Proof using. rewrite existsb_app. cbn. rewrite orb_false_r. apply orb_comm. Qed.

Lemma matches_keyword m k : host_matches (with_keyword m k) host = Contains host k || host_matches m host.
Proof using.
  unfold host_matches. cbn. rewrite existsb_snoc.
  destruct (bool_decide (host ∈ d_exact m)), (tree_match (tree m) host), (Contains host k); done.
Qed.

Lemma matches_regexp m re : host_matches (with_regexp m re) host = re host || host_matches m host.
Proof using.
  unfold host_matches. cbn. rewrite existsb_snoc.
  destruct (bool_decide (host ∈ d_exact m)), (tree_match (tree m) host), (existsb (Contains host) (keywords m)), (re host); done.
Qed.

Lemma matches_dotless m d :
  host_matches (with_dotless m d) host = negb (contains_char "."%char host) && Contains host d || host_matches m host.
Proof using.
  unfold host_matches. cbn. rewrite existsb_snoc.
  destruct (bool_decide (host ∈ d_exact m)), (tree_match (tree m) host), (existsb (Contains host) (keywords m)),
    (existsb (fun re => re host) (regexps m)), (contains_char "."%char host), (Contains host d), (dotlessAny m); done.
Qed.

Lemma matches_dotlessAny m :
  host_matches (with_dotlessAny m) host = negb (contains_char "."%char host) || host_matches m host.
Proof using.
  unfold host_matches. cbn.
  destruct (bool_decide (host ∈ d_exact m)), (tree_match (tree m) host), (existsb (Contains host) (keywords m)),
    (existsb (fun re => re host) (regexps m)), (contains_char "."%char host), (dotlessAny m); done.
Qed.
End Updates.

Lemma matches_tree_any host m d self sub :
  host <> "" ->
  host_matches (with_tree m (tree_add (tree m) d self sub)) host =
    nonempty d && under_domain d self sub host || host_matches m host.
Proof.
  intros Hh. unfold nonempty. destruct (decide (d = "")) as [->|Hd].
  - rewrite bool_decide_true by done. unfold tree_add. rewrite decide_True by done. by destruct m.
  - rewrite bool_decide_false by done. by apply matches_tree.
Qed.

Section Independent.
Variable url_host : string -> option string.
Variable regexp_Compile : string -> option (string -> bool).
Variable geosite : option string -> string -> option (list geoSiteDomain).
Variable host : string.
Hypothesis Hhost : host <> "".

(** An update that adds to what a matcher matches, whatever the matcher holds. *)
Definition adds (f : DomainMatcher -> DomainMatcher) : Prop :=
  forall m, host_matches (f m) host = host_matches (f no_domains) host || host_matches m host.

Lemma adds_id : adds (fun m => m).
Proof using. intros m. by rewrite matches_none. Qed.
Lemma adds_exact x : adds (fun m => with_exact m x).
Proof using. intros m. by rewrite !matches_exact, matches_none, orb_false_r. Qed.
Lemma adds_tree d self sub : adds (fun m => with_tree m (tree_add (tree m) d self sub)).
Proof using Hhost. intros m. by rewrite !matches_tree_any, matches_none, orb_false_r. Qed.
Lemma adds_keyword k : adds (fun m => with_keyword m k).
Proof using. intros m. by rewrite !matches_keyword, matches_none, orb_false_r. Qed.
Lemma adds_regexp re : adds (fun m => with_regexp m re).
Proof using. intros m. by rewrite !matches_regexp, matches_none, orb_false_r. Qed.
Lemma adds_dotless d : adds (fun m => with_dotless m d).
Proof using. intros m. by rewrite !matches_dotless, matches_none, orb_false_r. Qed.
Lemma adds_dotlessAny : adds with_dotlessAny.
Proof using. intros m. by rewrite !matches_dotlessAny, matches_none, orb_false_r. Qed.
Hint Resolve adds_id adds_exact adds_tree adds_keyword adds_regexp adds_dotless adds_dotlessAny : nps.

Lemma adds_compose f g : adds f -> adds g -> adds (fun m => g (f m)).
Proof using.
  intros Hf Hg m. rewrite (Hg (f m)), (Hf m), (Hg (f no_domains)).
  by destruct (host_matches (g no_domains) host), (host_matches (f no_domains) host).
Qed.

Lemma adds_site d : adds (fun m => add_site regexp_Compile m d).
Proof using Hhost. unfold add_site. destruct (typ d); try (destruct (regexp_Compile _)); auto with nps. Qed.

Lemma adds_sites ds : adds (fun m => addGeoSiteDomains regexp_Compile m ds).
Proof using Hhost.
  induction ds as [|d ds IH]; [apply adds_id|]. apply (adds_compose (fun m => add_site regexp_Compile m d)); [apply adds_site|done].
Qed.
Hint Resolve adds_site adds_sites : nps.

(** A step that returns flags, which do not depend on the matcher, and adds to it. *)
Definition adds_step (f : DomainMatcher -> bool * bool * DomainMatcher) : Prop :=
  (forall m, (f m).1 = (f no_domains).1) /\ adds (fun m => (f m).2).

Lemma structured_adds token : adds_step (compileStructuredDomainRule url_host regexp_Compile token).
Proof using Hhost.
  unfold compileStructuredDomainRule, adds_step.
  repeat (match goal with |- context [if ?b then _ else _] => destruct b | |- context [match ?x with Some _ => _ | None => _ end] => destruct x end);
    split; try done; cbn [snd]; auto with nps.
Qed.

Lemma external_adds rule : adds_step (fun m => add_external regexp_Compile geosite m rule).
Proof using Hhost.
  unfold add_external, adds_step. destruct (splitExternalGeoDataRule rule) as [[file site]|]; [|split; auto with nps].
  destruct (loadGeoSiteDomainsWithAttr geosite (Some file) site); split; cbn [snd]; auto with nps.
Qed.

Lemma geosite_adds token : adds_step (compileGeoSiteToken regexp_Compile geosite token).
Proof using Hhost.
  unfold compileGeoSiteToken.
  destruct (HasPrefix (ToLower token) "geosite:"), (HasPrefix (ToLower token) "ext-domain:"), (HasPrefix (ToLower token) "ext:");
    try apply external_adds; try (split; cbn [snd]; by auto with nps);
    (destruct (loadGeoSiteDomainsWithAttr _ _ _); split; cbn [snd]; auto with nps).
Qed.

Lemma adds_handled f g :
  adds_step f -> adds g -> adds (fun m => let '(handled, _, m) := f m in if (handled : bool) then m else g m).
Proof using.
  intros [Hflag Hf] Hg. destruct (f no_domains).1 as [handled valid] eqn:E.
  assert (Heq : forall m, (let '(h, _, m) := f m in if (h : bool) then m else g m) = if handled then (f m).2 else g (f m).2).
  { intros m. specialize (Hflag m). destruct (f m) as [[h v] m']. cbn in *. by simplify_eq. }
  intros m. rewrite !Heq. destruct handled; [apply Hf|]. by apply (adds_compose (fun m => (f m).2)).
Qed.

Lemma rule_adds token : adds (compile_domain url_host regexp_Compile geosite token).
Proof using Hhost.
  unfold compile_domain. apply adds_handled; [apply structured_adds|]. apply adds_handled; [apply geosite_adds|].
  repeat (match goal with |- adds (fun m => if ?b then _ else _) => destruct b
                        | |- adds (fun m => match ?x with Some _ => _ | None => _ end) => destruct x end);
    auto with nps.
Qed.

(** What one rule matches. *)
Definition domain_hit (token : string) : bool :=
  host_matches (compile_domain url_host regexp_Compile geosite token no_domains) host.

Lemma rules_add tokens m :
  host_matches (fold_left (fun m t => compile_domain url_host regexp_Compile geosite t m) tokens m) host =
  existsb domain_hit tokens || host_matches m host.
Proof using Hhost.
  revert m. induction tokens as [|t ts IH]; intros m; [done|]. cbn. rewrite IH, (rule_adds t m).
  unfold domain_hit at 2. by rewrite orb_assoc, (orb_comm (existsb _ _)).
Qed.
End Independent.

Lemma empty_domains m host : is_empty_domains m = true -> host_matches m host = false.
Proof.
  unfold is_empty_domains. rewrite !andb_true_iff, !bool_decide_eq_true. destruct m as [e t k r d a]. cbn.
  intros [[[[[-> Ht] ->] Hr] ->] Ha]. destruct t, r, a; try done.
  apply matches_none.
Qed.

(** What a set of address rules matches. *)
Definition addr_matches (r : ip_rules) (a : Addr) : bool :=
  bool_decide (a ∈ r_exact r) || existsb (fun p => prefix_contains p a) (builder r) ||
  existsb (fun f => negb (f a)) (r_negative r).

Definition rules_ok (r : ip_rules) : Prop :=
  Forall (fun p => prefix_valid p = true) (builder r) /\ hasPrefixes r = negb (bool_decide (builder r = [])).

Definition ip_adds (f : ip_rules -> ip_rules) : Prop :=
  forall r a, rules_ok r -> rules_ok (f r) /\ addr_matches (f r) a = addr_matches (f no_rules) a || addr_matches r a.

Lemma no_rules_match a : addr_matches no_rules a = false.
Proof. unfold addr_matches. cbn. by rewrite bool_decide_false by set_solver. Qed.

Lemma no_rules_ok : rules_ok no_rules.
Proof. done. Qed.

Lemma ip_adds_id : ip_adds (fun r => r).
Proof. intros r a Hr. by rewrite no_rules_match. Qed.

Lemma matches_prefix r p a : addr_matches (add_prefix r p) a = prefix_contains p a || addr_matches r a.
Proof.
  unfold addr_matches. cbn. rewrite existsb_snoc.
  by destruct (bool_decide (a ∈ r_exact r)), (prefix_contains p a).
Qed.

Lemma ip_adds_prefix p : prefix_valid p = true -> ip_adds (fun r => add_prefix r p).
Proof.
  intros Hp r a [Hv Hh]. split.
  - split; cbn; [apply Forall_app_2; auto|]. rewrite bool_decide_false; [done|]. by destruct (builder r).
  - by rewrite !matches_prefix, no_rules_match, orb_false_r.
Qed.

Lemma ip_adds_exact x : ip_adds (fun r => mkRules (r_exact r ++ [x]) (builder r) (hasPrefixes r) (r_negative r)).
Proof.
  intros r a Hr. split; [done|]. unfold addr_matches. cbn.
  assert (bool_decide (a ∈ r_exact r ++ [x]) = bool_decide (a ∈ [x]) || bool_decide (a ∈ r_exact r)) as ->.
  { apply Bool.eq_iff_eq_true. rewrite orb_true_iff, !bool_decide_eq_true. set_solver. }
  by destruct (bool_decide (a ∈ [x])).
Qed.

Lemma ip_adds_negative s : ip_adds (fun r => mkRules (r_exact r) (builder r) (hasPrefixes r) (r_negative r ++ [s])).
Proof.
  intros r a Hr. split; [done|]. unfold addr_matches. cbn. rewrite existsb_snoc, (bool_decide_false (a ∈ [])) by set_solver.
  by destruct (bool_decide (a ∈ r_exact r)), (existsb (fun p => prefix_contains p a) (builder r)), (s a).
Qed.

Lemma ip_adds_compose f g : ip_adds f -> ip_adds g -> ip_adds (fun r => g (f r)).
Proof.
  intros Hf Hg r a Hr. destruct (Hf r a Hr) as [Hr1 Hm1]. destruct (Hf no_rules a no_rules_ok) as [Hr0 _].
  destruct (Hg _ a Hr1) as [Hr2 Hm2]. destruct (Hg _ a Hr0) as [_ Hm3]. split; [done|].
  rewrite Hm2, Hm1, Hm3. by destruct (addr_matches (g no_rules) a), (addr_matches (f no_rules) a).
Qed.

Lemma ip_adds_prefixes ps : Forall (fun p => prefix_valid p = true) ps -> ip_adds (fold_left add_prefix ps).
Proof.
  induction 1 as [|p ps Hp _ IH]; [apply ip_adds_id|]. exact (ip_adds_compose _ _ (ip_adds_prefix p Hp) IH).
Qed.

Lemma digits_value_nonneg s acc n : 0 <= acc -> digits_value acc s = Some n -> 0 <= n.
Proof.
  revert acc. induction s as [|c s IH]; intros acc Hacc; cbn; [intros [= <-]; done|].
  destruct (is_digit c) eqn:Hd; [|done]. apply IH. unfold GoStrconv.digit_value, is_digit in *.
  apply andb_true_iff in Hd as [Hd _]. apply Nat.leb_le in Hd. lia.
Qed.

Lemma prefix_bits_nonneg s n : prefix_bits s = Some n -> 0 <= n.
Proof.
  unfold prefix_bits. destruct s as [|c s]; [done|]. destruct (_ && _); [done|]. destruct (forallb _ _); [|done].
  by apply digits_value_nonneg.
Qed.

Lemma ParsePrefix_valid s p : ParsePrefix s = Some p -> prefix_valid p = true.
Proof.
  unfold ParsePrefix. destruct (rev (split_on "/"%char s)) as [|bits [|x rest]]; [done..|].
  destruct (ParseAddr _) as [a|]; [|done]. intros H.
  assert (exists b, prefix_bits bits = Some b /\ b <= bit_len a /\ p = mkPrefix a b) as (b & Hb & Hl & ->).
  { destruct a as [bs|bs [|]]; [| |done]; (destruct (prefix_bits bits) as [b|]; [|done]);
      (destruct (b <=? _) eqn:Hle; [|done]); injection H as <-; exists b; (split; [done|]); (split; [lia|done]). }
  apply prefix_bits_nonneg in Hb. unfold prefix_valid. cbn. lia.
Qed.

Lemma Masked_valid p : prefix_valid p = true -> prefix_valid (Masked p) = true.
Proof. unfold prefix_valid, bit_len. destruct p as [[bs|bs z] b]; cbn; by rewrite length_imap. Qed.
Lemma private_valid : Forall (fun p => prefix_valid p = true) private_prefixes.
Proof. vm_compute. repeat constructor. Qed.

Lemma fixed_parts_length parts l : fixed_parts parts = Some l -> (length l <= length parts)%nat.
Proof.
  revert l. induction parts as [|part parts IH]; intros l; cbn; [intros [= <-]; done|].
  destruct (decide (TrimSpace part = "*")).
  - destruct (forallb _ _); [|done]. intros [= <-]. cbn. lia.
  - destruct (parseOctet (TrimSpace part)); [|done]. destruct (fixed_parts parts) as [l'|]; [|done].
    intros [= <-]. specialize (IH l' eq_refl). cbn. lia.
Qed.

(** A wildcard is the prefix of its one to three fixed bytes. *)
Lemma wildcard_prefix token p :
  parseIPv4WildcardPrefix token = Some p ->
  exists n bs, 1 <= n <= 3 /\ addr_ok (Addr4 bs) /\ p = Masked (mkPrefix (Addr4 bs) (8 * n)).
Proof.
  unfold parseIPv4WildcardPrefix. destruct (negb _); [done|]. destruct (_ || _); [done|].
  set (parts := split_on "."%char token). destruct (_ || _) eqn:Hlen; [done|].
  apply orb_false_iff in Hlen as [Hlo Hhi]. apply Nat.ltb_ge in Hlo, Hhi.
  set (parts4 := parts ++ replicate (4 - length parts) "*").
  assert (H4 : length parts4 = 4%nat) by (unfold parts4; rewrite length_app, length_replicate; lia).
  destruct (fixed_parts parts4) as [fixed|] eqn:Hf; [|done].
  apply fixed_parts_length in Hf. rewrite H4 in *.
  destruct (_ || _) eqn:Hn; [done|]. apply orb_false_iff in Hn as [H0 Hn]. apply Nat.eqb_neq in H0, Hn.
  destruct (ParseAddr _) as [[bs|bs z]|] eqn:Ha; [|done..]. intros [= <-].
  exists (Z.of_nat (length fixed)), bs. split; [lia|]. split; [by apply ParseAddr_ok in Ha|].
  by rewrite Z.mul_comm.
Qed.

Lemma wildcard_valid token p : parseIPv4WildcardPrefix token = Some p -> prefix_valid p = true.
Proof.
  intros H. apply wildcard_prefix in H as (n & bs & Hn & [Hl _] & ->). apply Masked_valid.
  unfold prefix_valid, bit_len. cbn [p_bits p_addr addr_bytes]. rewrite Hl.
  apply andb_true_iff. split; apply Z.leb_le; lia.
Qed.

Section Addresses.
Variable url_host : string -> option string.
Variable geoip : option string -> string -> option (list Prefix).
Variable IPSet : list Prefix -> option (Addr -> bool).
(** The data files give valid prefixes, as their decoder checks. *)
Hypothesis geoip_valid : forall file code ps, geoip file code = Some ps -> Forall (fun p => prefix_valid p = true) ps.
(** A set built from valid prefixes holds their addresses. *)
Hypothesis IPSet_contains : forall ps, Forall (fun p => prefix_valid p = true) ps ->
  exists f, IPSet ps = Some f /\ forall a, f a = existsb (fun p => prefix_contains p a) ps.

Notation compile := (compile_ip url_host geoip IPSet).

Definition ip_hit (a : Addr) (token : string) : bool := addr_matches (compile token no_rules) a.


Lemma load_valid file code ps :
  loadGeoIPPrefixes geoip file code = Some ps -> Forall (fun p => prefix_valid p = true) ps.
Proof using geoip_valid.
  unfold loadGeoIPPrefixes, builtinGeoIPPrefixes. destruct (decide (_ = "")); [done|].
  destruct (decide (_ = "PRIVATE")); [intros [= <-]; apply private_valid|apply geoip_valid].
Qed.

Lemma geoip_token_adds token :
  match compileGeoIPToken geoip IPSet token no_rules with
  | None => forall r, compileGeoIPToken geoip IPSet token r = None
  | Some _ => exists f, ip_adds f /\ forall r, compileGeoIPToken geoip IPSet token r = Some (f r)
  end.
Proof using geoip_valid.
  unfold compileGeoIPToken. destruct (parseGeoIPRule token) as [[[file code]|]|]; [|by eauto using ip_adds_id|done].
  destruct (decide (_ = "")); [by eauto using ip_adds_id|].
  destruct (loadGeoIPPrefixes geoip file _) as [ps|] eqn:Hp; [|by eauto using ip_adds_id].
  destruct (HasPrefix code "!").
  - destruct (IPSet ps); [|by eauto using ip_adds_id]. eexists. split; [apply ip_adds_negative|done].
  - exists (fold_left add_prefix ps). split; [|done]. apply ip_adds_prefixes. by eapply load_valid.
Qed.

Lemma compile_adds token : ip_adds (compile token).
Proof using geoip_valid.
  unfold compile_ip. pose proof (geoip_token_adds token) as Hg.
  destruct (compileGeoIPToken geoip IPSet token no_rules).
  - destruct Hg as (f & Hf & Hg). intros r a Hr. rewrite !Hg. by apply Hf.
  - assert (Heq : forall g : ip_rules -> ip_rules, ip_adds g ->
      ip_adds (fun r => match compileGeoIPToken geoip IPSet token r with Some r => r | None => g r end)).
    { intros g Hadd r a Hr. rewrite !Hg. by apply Hadd. }
    apply Heq. destruct (parseIPv4WildcardPrefix token) as [p|] eqn:Hw; [by eapply ip_adds_prefix, wildcard_valid|].
    destruct (contains_char "*"%char token); [apply ip_adds_id|].
    destruct (contains_char "/"%char token).
    + destruct (ParsePrefix token) as [p|] eqn:Hp; [|apply ip_adds_id].
      by eapply ip_adds_prefix, Masked_valid, ParsePrefix_valid.
    + destruct (normalizeHostToken url_host token) as [host|]; [|apply ip_adds_id].
      destruct (ParseAddr host) as [x|]; [apply ip_adds_exact|apply ip_adds_id].
Qed.

Lemma compile_all tokens r a :
  rules_ok r ->
  rules_ok (fold_left (fun r t => compile t r) tokens r) /\
  addr_matches (fold_left (fun r t => compile t r) tokens r) a = existsb (ip_hit a) tokens || addr_matches r a.
Proof using geoip_valid.
  revert r. induction tokens as [|t ts IH]; intros r Hr; [done|]. cbn.
  destruct (compile_adds t r a Hr) as [Hr1 Hm]. destruct (IH _ Hr1) as [Hr2 Hm2]. split; [done|].
  rewrite Hm2, Hm. unfold ip_hit at 2. by rewrite orb_assoc, (orb_comm (existsb _ _)).
Qed.

Lemma Unmap_idem a : Unmap (Unmap a) = Unmap a.
Proof using. destruct a as [bs|bs z]; [done|]. cbn. destruct (decide _) eqn:E; [done|]. cbn. by rewrite E. Qed.

(** The compiled matcher matches what its rules match one by one. *)
Lemma matcher_exact entries a :
  ip_matched (compileIPMatcher url_host geoip IPSet entries).1 a =
  existsb (ip_hit (Unmap a)) (omap rule_token entries).
Proof using geoip_valid IPSet_contains.
  unfold compileIPMatcher.
  destruct (compile_all (omap rule_token entries) no_rules (Unmap a) no_rules_ok) as [[Hv Hh] Hm].
  rewrite no_rules_match, orb_false_r in Hm. rewrite <- Hm. clear Hm.
  set (r := fold_left _ _ no_rules) in *. clearbody r. unfold addr_matches.
  assert (Hset : match (if hasPrefixes r then IPSet (builder r) else None) with Some f => f (Unmap a) | None => false end =
    existsb (fun p => prefix_contains p (Unmap a)) (builder r)).
  { rewrite Hh. destruct (IPSet_contains (builder r) Hv) as (f & -> & Hf). rewrite <- Hf.
    destruct (decide (builder r = [])) as [E|E].
    - rewrite bool_decide_true by done. cbn. by rewrite Hf, E.
    - by rewrite bool_decide_false. }
  rewrite <- Hset. destruct (if hasPrefixes r then IPSet (builder r) else None) as [f|].
  - destruct (r_exact r); done.
  - destruct (r_exact r); [|done]. destruct (r_negative r); [|done]. cbn. by rewrite bool_decide_false by set_solver.
Qed.
End Addresses.

(** ** Decisions *)

Definition decision (mode : Mode) (matched : bool) : bool :=
  match mode with ModeOff => true | ModeWhitelist => matched | ModeBlacklist => negb matched end.

Lemma allows_decision mode has matched : (matched = true -> has = true) -> allows mode has matched = decision mode matched.
Proof. destruct mode, has, matched; cbn; intros H; try done; by specialize (H eq_refl). Qed.

Lemma some_token {A} (f : A -> bool) l : existsb f l = true -> match l with [] => false | _ => true end = true.
Proof. by destruct l. Qed.

Lemma parseAddr_unmapped s a : parseAddr s = Some a -> Unmap a = a.
Proof. unfold parseAddr. destruct (ParseIPFromAddr _); [|done]. intros [= <-]. exact (Unmap_idem (Addr16 _ "")). Qed.

Section Decisions.
Variable url_host : string -> option string.
Variable regexp_Compile : string -> option (string -> bool).
Variable geosite : option string -> string -> option (list geoSiteDomain).
Variable geoip : option string -> string -> option (list Prefix).
Variable IPSet : list Prefix -> option (Addr -> bool).
Hypothesis geoip_valid : forall file code ps, geoip file code = Some ps -> Forall (fun p => prefix_valid p = true) ps.
Hypothesis IPSet_contains : forall ps, Forall (fun p => prefix_valid p = true) ps ->
  exists f, IPSet ps = Some f /\ forall a, f a = existsb (fun p => prefix_contains p a) ps.

(** Whether one rule matches the source of a connection. *)
Definition source_hit (addr token : string) : bool :=
  match parseAddr addr with Some a => ip_hit url_host geoip IPSet a token | None => false end.

(** Whether one rule matches a destination: an address by the address rules, a name by the
    domain rules. *)
Definition destination_hit (addr token : string) : bool :=
  match parseAddr addr with
  | Some a => ip_hit url_host geoip IPSet a token
  | None =>
      let host := normalizeHostFromAddr url_host addr in
      let host' := normalizeHostFromAddr url_host host in
      nonempty host && nonempty host' && bool_decide (ParseAddr host' = None) &&
      domain_hit url_host regexp_Compile geosite host' token
  end.

Lemma existsb_andb {A} (b : bool) (f : A -> bool) l : existsb (fun x => b && f x) l = b && existsb f l.
Proof using. induction l as [|x l IH]; cbn; [by rewrite andb_false_r|]. rewrite IH. by destruct b. Qed.

Lemma domains_exact entries host :
  let host' := normalizeHostFromAddr url_host host in
  match (compileDomainMatcher url_host regexp_Compile geosite entries).1 with
  | Some m => domain_Contains url_host m host
  | None => false
  end = nonempty host' && bool_decide (ParseAddr host' = None) &&
        existsb (domain_hit url_host regexp_Compile geosite host') (omap rule_token entries).
Proof using.
  intros host'. unfold compileDomainMatcher. cbn [fst].
  set (m := fold_left _ _ _). unfold nonempty.
  assert (Hm : host' <> "" -> host_matches m host' =
    existsb (domain_hit url_host regexp_Compile geosite host') (omap rule_token entries)).
  { intros Hh. subst m. rewrite rules_add by done. by rewrite matches_none, orb_false_r. }
  assert (Hc : (if is_empty_domains m then false else domain_Contains url_host m host) = domain_Contains url_host m host).
  { destruct (is_empty_domains m) eqn:He; [|done]. unfold domain_Contains. fold host'.
    destruct (decide (host' = "")); [done|]. destruct (ParseAddr host'); [done|].
    symmetry. exact (empty_domains m host' He). }
  transitivity (domain_Contains url_host m host).
  { rewrite <- Hc. by destruct (is_empty_domains m). }
  unfold domain_Contains. fold host'. destruct (decide (host' = "")) as [E|E].
  - by rewrite (bool_decide_true (host' = "")).
  - rewrite (bool_decide_false (host' = "")) by done. cbn [negb andb].
    destruct (ParseAddr host'); [by rewrite bool_decide_false|].
    rewrite (bool_decide_true (None = None)) by done. cbn [andb].
    rewrite <- Hm by done. done.
Qed.

Lemma source_decision mode entries addr :
  source_AllowsAddr (Some (CompileSourceIPPolicy url_host geoip IPSet mode entries)) addr =
  decision mode (existsb (source_hit addr) (omap rule_token entries)).
Proof using geoip_valid IPSet_contains.
  unfold CompileSourceIPPolicy, source_AllowsAddr, source_hit.
  pose proof (matcher_exact url_host geoip IPSet geoip_valid IPSet_contains entries) as He.
  assert (Hhas : (compileIPMatcher url_host geoip IPSet entries).2 =
    match omap rule_token entries with [] => false | _ => true end) by done.
  destruct (compileIPMatcher url_host geoip IPSet entries) as [m has]. cbn in *.
  destruct (parseAddr addr) as [a|] eqn:Ha.
  - rewrite He, (parseAddr_unmapped _ _ Ha). apply allows_decision. rewrite Hhas. apply some_token.
  - assert (Hf : existsb (fun _ : string => false) (omap rule_token entries) = false).
    { generalize (omap rule_token entries). intros l. by induction l. }
    rewrite Hf. by apply allows_decision.
Qed.

Lemma unless_empty (host : string) (b : bool) : (if decide (host = "") then false else b) = nonempty host && b.
Proof using. unfold nonempty. destruct (decide (host = "")); [by rewrite bool_decide_true|by rewrite bool_decide_false]. Qed.

Lemma destination_decision mode raw addr :
  destination_AllowsAddr url_host (Some (CompileDestinationPolicy url_host regexp_Compile geosite geoip IPSet mode raw)) addr =
  decision mode (existsb (destination_hit addr) (omap rule_token (splitRules raw))).
Proof using geoip_valid IPSet_contains.
  unfold CompileDestinationPolicy, destination_AllowsAddr, destination_hit. set (entries := splitRules raw).
  pose proof (matcher_exact url_host geoip IPSet geoip_valid IPSet_contains entries) as He.
  pose proof (domains_exact entries (normalizeHostFromAddr url_host addr)) as Hd.
  assert (Hhas : (compileIPMatcher url_host geoip IPSet entries).2 =
    match omap rule_token entries with [] => false | _ => true end) by done.
  destruct (compileIPMatcher url_host geoip IPSet entries) as [ips has].
  destruct (compileDomainMatcher url_host regexp_Compile geosite entries) as [domains has']. cbn [fst snd d_mode d_hasEntries ipMatcher domainMatcher] in *.
  assert (Hall : forall f, allows mode (has || has') (existsb f (omap rule_token entries)) =
    decision mode (existsb f (omap rule_token entries))).
  { intros f. apply allows_decision. intros H. apply some_token in H. by rewrite Hhas, H. }
  destruct (parseAddr addr) as [a|] eqn:Ha.
  - rewrite He, (parseAddr_unmapped _ _ Ha). apply Hall.
  - rewrite <- Hall. f_equal.
    rewrite existsb_andb, <- !(andb_assoc (nonempty (normalizeHostFromAddr url_host addr))), <- Hd.
    destruct domains as [m|]; [apply unless_empty|symmetry; apply andb_false_r].
Qed.
End Decisions.

(** ** What the domain rules mean *)

Lemma substring_all n s : (String.length s <= n)%nat -> String.substring 0 n s = s.
Proof.
  revert n. induction s as [|c s IH]; intros [|n] Hn; cbn in *; [done|done|lia|]. f_equal. apply IH. lia.
Qed.

Lemma after_app p d : after p (p +:+ d) = d.
Proof.
  unfold after. rewrite length_app_str.
  assert (H : forall q n, String.substring (String.length q) n (q +:+ d) = String.substring 0 n d).
  { induction q as [|c q IH]; intros n; cbn; [done|apply IH]. }
  rewrite H. apply substring_all. lia.
Qed.

Lemma normalizeDomainToken_nonempty u d x : normalizeDomainToken u d = Some x -> x <> "".
Proof.
  unfold normalizeDomainToken, normalizeHostToken. destruct (decide (_ = "")); [done|].
  destruct (ContainsAny _ _); [done|]. destruct (ParseAddr _); [done|]. by intros [= <-].
Qed.

Lemma star_no_wildcard d : parseIPv4WildcardPrefix (String "*"%char (String "."%char d)) = None.
Proof.
  unfold parseIPv4WildcardPrefix. destruct (negb _); [done|]. destruct (_ || _); [done|].
  destruct (_ || _); [done|]. cbn [split_on]. rewrite decide_False by done. rewrite decide_True by done.
  set (parts := _ ++ _). assert (Hp : exists rest, parts = "*" :: rest) by (by eexists).
  destruct Hp as [rest ->]. cbn [fixed_parts]. rewrite decide_True by done.
  by destruct (forallb _ rest).
Qed.

Section Meanings.
Variable url_host : string -> option string.
Variable regexp_Compile : string -> option (string -> bool).
Variable geosite : option string -> string -> option (list geoSiteDomain).
Notation hit := (domain_hit url_host regexp_Compile geosite).

Lemma hit_full h d x : normalizeDomainToken url_host d = Some x -> hit h ("full:" +:+ d) = bool_decide (h = x).
Proof using.
  intros Hd. unfold domain_hit, compile_domain, compileStructuredDomainRule.
  replace (HasPrefix (ToLower ("full:" +:+ d)) "full:") with true by (symmetry; apply HasPrefix_spec; by eexists). cbv iota. rewrite after_app, Hd. cbv beta iota zeta.
  rewrite matches_exact, matches_none. apply orb_false_r.
Qed.

Lemma hit_domain h d x :
  h <> "" -> normalizeDomainToken url_host d = Some x -> hit h ("domain:" +:+ d) = under_domain x true false h.
Proof using.
  intros Hh Hd. unfold domain_hit, compile_domain, compileStructuredDomainRule.
  change (HasPrefix (ToLower ("domain:" +:+ d)) "full:") with false.
  replace (HasPrefix (ToLower ("domain:" +:+ d)) "domain:") with true by (symmetry; apply HasPrefix_spec; by eexists). cbv iota. rewrite after_app, Hd. cbv beta iota zeta.
  rewrite matches_tree, matches_none by eauto using normalizeDomainToken_nonempty. apply orb_false_r.
Qed.

Lemma hit_star h d x :
  h <> "" -> contains_char "/"%char d = false -> normalizeDomainToken url_host d = Some x ->
  hit h ("*." +:+ d) = under_domain x false true h.
Proof using.
  intros Hh Hs Hd. unfold domain_hit, compile_domain.
  change (compileStructuredDomainRule url_host regexp_Compile ("*." +:+ d) no_domains) with (false, false, no_domains).
  change (HasPrefix (ToLower ("*." +:+ d)) "geoip:") with false.
  change (parseIPv4WildcardPrefix ("*." +:+ d)) with (parseIPv4WildcardPrefix (String "*"%char (String "."%char d))).
  rewrite star_no_wildcard. change (contains_char "/"%char ("*." +:+ d)) with (contains_char "/"%char d). rewrite Hs.
  replace (HasPrefix ("*." +:+ d) "*") with true by (symmetry; apply HasPrefix_spec; by eexists). replace (HasPrefix ("*." +:+ d) "*.") with true by (symmetry; apply HasPrefix_spec; by eexists).
  change (TrimPrefix ("*." +:+ d) "*.") with d. cbn [negb andb]. rewrite andb_false_r. cbv iota. rewrite Hd. cbv beta iota zeta.
  change (compileGeoSiteToken regexp_Compile geosite ("*." +:+ d) no_domains) with (false, false, no_domains).
  cbv beta iota zeta. rewrite matches_tree, matches_none by eauto using normalizeDomainToken_nonempty. apply orb_false_r.
Qed.

Lemma hit_keyword h d :
  normalizeDomainKeywordToken d <> "" -> hit h ("keyword:" +:+ d) = Contains h (normalizeDomainKeywordToken d).
Proof using.
  intros Hd. unfold domain_hit, compile_domain, compileStructuredDomainRule.
  change (HasPrefix (ToLower ("keyword:" +:+ d)) "full:") with false.
  change (HasPrefix (ToLower ("keyword:" +:+ d)) "domain:") with false.
  replace (HasPrefix (ToLower ("keyword:" +:+ d)) "keyword:") with true by (symmetry; apply HasPrefix_spec; by eexists). cbv iota. rewrite after_app, decide_False by done.
  rewrite matches_keyword, matches_none. apply orb_false_r.
Qed.
End Meanings.

(** ** Properties *)

(** The laws of what the rules are compiled with. *)
Definition data_valid (geoip : option string -> string -> option (list Prefix)) : Prop :=
  forall file code ps, geoip file code = Some ps -> Forall (fun p => prefix_valid p = true) ps.
Definition sets_hold (IPSet : list Prefix -> option (Addr -> bool)) : Prop :=
  forall ps, Forall (fun p => prefix_valid p = true) ps ->
    exists f, IPSet ps = Some f /\ forall a, f a = existsb (fun p => prefix_contains p a) ps.

(** The compiled policies decide by their rules one at a time: a white list admits
    exactly the sources and destinations that some rule of it matches, a black list exactly
    those that no rule matches, however exact entries, prefix sets, reversed sets and the
    domain tree share the work. *)
Theorem access_decision url_host regexp_Compile geosite geoip IPSet mode raw addr :
  data_valid geoip -> sets_hold IPSet ->
  source_AllowsAddr (Some (CompileSourceIPPolicy url_host geoip IPSet mode (splitRules raw))) addr =
    decision mode (existsb (source_hit url_host geoip IPSet addr) (omap rule_token (splitRules raw))) /\
  destination_AllowsAddr url_host
      (Some (CompileDestinationPolicy url_host regexp_Compile geosite geoip IPSet mode raw)) addr =
    decision mode (existsb (destination_hit url_host regexp_Compile geosite geoip IPSet addr)
                     (omap rule_token (splitRules raw))).
Proof. intros Hgeo Hset. split; [by apply source_decision|by apply destination_decision]. Qed.

Definition no_geoip (file : option string) (code : string) : option (list Prefix) := None.
Definition prefix_set (ps : list Prefix) : option (Addr -> bool) := Some (fun a => existsb (fun p => prefix_contains p a) ps).
Definition no_url (s : string) : option string := None.
Definition no_regexp (s : string) : option (string -> bool) := None.
Definition no_site (file : option string) (code : string) : option (list geoSiteDomain) := None.

(** A white list of a domain with its subdomains, of the subdomains of another, of the
    addresses of a wildcard and of the private networks. *)
Definition ex_rules : string :=
  "domain:example.com" +:+ String newline ("*.test.org" +:+ String newline ("198.51.*" +:+ String newline "geoip:private")).

Definition ex_allowed (addr : string) : bool :=
  destination_AllowsAddr no_url (Some (CompileDestinationPolicy no_url no_regexp no_site no_geoip prefix_set ModeWhitelist ex_rules)) addr.

Lemma access_decision_witness :
  existsb (destination_hit no_url no_regexp no_site no_geoip prefix_set "www.example.com:443") (omap rule_token (splitRules ex_rules)) = true /\
  map ex_allowed ["example.com:80"; "badexample.com"; "a.test.org"; "test.org"; "198.51.7.1:22"; "198.52.0.1"; "172.20.0.9"; "[fd00::1]:53"]
    = [true; false; true; false; true; false; true; true].
Proof.
  split; [|vm_compute; reflexivity].
  refine (eq_trans (eq_sym (proj2 (access_decision no_url no_regexp no_site no_geoip prefix_set ModeWhitelist ex_rules
    "www.example.com:443" _ _))) _).
  - discriminate.
  - intros ps _. eexists. split; reflexivity.
  - vm_compute. reflexivity.
Defined.

(** The rules for domains mean what they say: [full:] matches the domain alone,
    [domain:] the domain and every name below it, a star the names below it only, and never
    a name that merely ends in the same letters; [keyword:] matches the names that contain
    the word. *)
Theorem domain_rules_mean url_host regexp_Compile geosite h d x :
  h <> "" -> normalizeDomainToken url_host d = Some x -> contains_char "/"%char d = false ->
  domain_hit url_host regexp_Compile geosite h ("full:" +:+ d) = bool_decide (h = x) /\
  domain_hit url_host regexp_Compile geosite h ("domain:" +:+ d) =
    bool_decide (h = x) || HasSuffix h (String "."%char x) /\
  domain_hit url_host regexp_Compile geosite h ("*." +:+ d) = HasSuffix h (String "."%char x) /\
  (normalizeDomainKeywordToken d <> "" ->
   domain_hit url_host regexp_Compile geosite h ("keyword:" +:+ d) = Contains h (normalizeDomainKeywordToken d)).
Proof.
  intros Hh Hd Hs. split; [by apply hit_full|]. split; [by apply hit_domain|].
  split; [by apply (hit_star url_host regexp_Compile geosite h d x)|by apply hit_keyword].
Qed.

Lemma domain_rules_mean_witness :
  domain_hit no_url no_regexp no_site "www.example.com" "*.Example.com." = true /\
  domain_hit no_url no_regexp no_site "wwwexample.com" "*.Example.com." = false.
Proof.
  split.
  - destruct (domain_rules_mean no_url no_regexp no_site "www.example.com" "Example.com." "example.com"
      ltac:(discriminate) ltac:(vm_compute; reflexivity) ltac:(vm_compute; reflexivity)) as (_ & _ & H & _).
    exact (eq_trans H eq_refl).
  - vm_compute. reflexivity.
Defined.
