(* ===== verification/AccessPolicy.v ===== *)
(** The access rules that users, clients, tunnels, hosts and the server keep, the policies
    compiled from them on first use, and the checks of a connection against all of them.

    Source: [lib/file/access_policy.go], [lib/file/legacy_import.go] (the imported black
    lists), [server/proxy/base.go] and [server/proxy/runtime_context.go] (access checks).

    An object that holds rules caches the policy compiled from them; a check that finds no
    policy compiles one and stores it, so a check returns the object it leaves.  The user of
    a client is given resolved: [ConnLimit] models [Resolve]. *)

From Stdlib Require Import String Ascii.
From S2P Require Import Prelude GoString GoNetip AccessRules.
Local Open Scope string_scope.
Local Open Scope list_scope.
Local Open Scope Z_scope.

(** ** Rules as text *)

Definition normalizePolicyRules (raw : string) : string :=
  let raw := ReplaceAll raw crlf (String newline "") in
  if decide (raw = "") then ""
  else join_with newline (filter (fun line => nonempty line = true) (TrimSpace <$> split_on newline raw)).

Definition entry_lines (entry : string) : list string :=
  let entry := normalizePolicyRules entry in
  if decide (entry = "") then []
  else filter (fun line => nonempty line = true) (TrimSpace <$> split_on newline entry).

Definition normalizePolicyRuleEntries (entries : list string) : list string := flat_map entry_lines entries.
Definition policyRulesToLines (raw : string) : list string := normalizePolicyRuleEntries [raw].

Definition mode_int (m : Mode) : Z := match m with ModeOff => 0 | ModeWhitelist => 1 | ModeBlacklist => 2 end.
Definition AclOff : Z := 0.
Definition AclBlacklist : Z := 2.

Definition promoteLegacyBlacklistPolicy (mode : Z) (raw : string) (legacy : list string) : Z * string :=
  let normalizedMode := mode_int (NormalizeMode mode) in
  let normalizedRules := normalizePolicyRules raw in
  let legacyEntries := normalizePolicyRuleEntries legacy in
  let some_legacy := negb (length legacyEntries =? 0)%nat in
  let '(normalizedMode, normalizedRules) :=
    if (normalizedMode =? AclOff) && some_legacy then (AclBlacklist, join_with newline legacyEntries)
    else (normalizedMode, normalizedRules) in
  if (normalizedMode =? AclBlacklist) && bool_decide (normalizedRules = "") && some_legacy
  then (normalizedMode, join_with newline legacyEntries)
  else (normalizedMode, normalizedRules).

(** ** Lines of rules *)

Definition clean (x : string) : Prop := TrimSpace x = x /\ x <> "" /\ split_on newline x = [x].

Lemma trim_right_length s : (String.length (trim_right s) <= String.length s)%nat.
Proof.
  induction s as [|c s IH]; [done|]. cbn. destruct (trim_right s); [destruct (is_space c); cbn; lia|]. cbn in *. lia.
Qed.

Lemma trim_left_length s : (String.length (trim_left s) <= String.length s)%nat.
Proof. induction s as [|c s IH]; [done|]. cbn. destruct (is_space c); cbn; lia. Qed.

Lemma trim_right_space s c : is_space c = true -> trim_right (s +:+ String c "") = trim_right s.
Proof.
  intros Hc. induction s as [|d s IH]; [change (trim_right (String c "") = ""); cbn [trim_right]; by rewrite Hc|].
  change (String d s +:+ String c "") with (String d (s +:+ String c "")). cbn [trim_right]. by rewrite IH.
Qed.

Lemma trim_ends y c : is_space c = true -> TrimSpace (y +:+ String c "") <> y +:+ String c "".
Proof.
  intros Hc E. assert (H : (String.length (TrimSpace (y +:+ String c "")) <= String.length y)%nat).
  { unfold TrimSpace. rewrite <- trim_left_right, trim_right_space by done.
    etransitivity; [apply trim_left_length|apply trim_right_length]. }
  rewrite E, length_app_str in H. cbn in H. lia.
Qed.

Lemma split_join l : l <> [] -> Forall (fun x => split_on newline x = [x]) l -> split_on newline (join_with newline l) = l.
Proof.
  intros Hl H. induction H as [|x l Hx H IH]; [done|]. destruct l as [|y l]; [done|].
  change (join_with newline (x :: y :: l)) with (x +:+ String newline (join_with newline (y :: l))).
  by rewrite split_app, Hx, IH.
Qed.

Lemma split_last a c : c <> newline -> exists ys y, split_on newline (a +:+ String c "") = ys ++ [y +:+ String c ""].
Proof.
  intros Hc. induction a as [|d a IH].
  - exists [], "". change (split_on newline (String c "") = [String c ""]). cbn [split_on]. by rewrite decide_False.
  - change (String d a +:+ String c "") with (String d (a +:+ String c "")). cbn [split_on]. destruct IH as (ys & y & ->). destruct (decide (d = newline)); [by exists ("" :: ys), y|].
    destruct ys as [|z ys]; [by exists [], (String d y)|by exists (String d z :: ys), y].
Qed.

(** Trimmed lines leave no carriage return before a newline. *)
Lemma clean_no_crlf l a b : Forall clean l -> join_with newline l <> a +:+ crlf +:+ b.
Proof.
  intros Hl E. destruct l as [|x l]; [destruct a; done|].
  assert (Hs : split_on newline (join_with newline (x :: l)) = x :: l).
  { apply split_join; [done|]. eapply Forall_impl; [done|]. by intros ? (_ & _ & ?). }
  assert (E' : a +:+ crlf +:+ b = (a +:+ String (ascii_of_nat 13) "") +:+ String newline b) by (by rewrite append_assoc_str).
  rewrite E, E', split_app in Hs. destruct (split_last a (ascii_of_nat 13)) as (ys & y & Ey); [done|]. rewrite Ey in Hs.
  rewrite <- Hs in Hl. apply Forall_app in Hl as [Hl _]. apply Forall_app in Hl as [_ Hl]. apply Forall_singleton in Hl as [Ht _].
  by apply trim_ends in Ht.
Qed.

Lemma replace_absent f s old new : (forall a b, s <> a +:+ old +:+ b) -> replace_fuel f s old new = s.
Proof.
  revert s. induction f as [|f IH]; intros s Hs; [done|]. cbn [replace_fuel].
  destruct (drop_prefix old s) as [rest|] eqn:E; [apply drop_prefix_spec in E; by destruct (Hs "" rest)|].
  destruct s as [|c s]; [done|]. f_equal. apply IH. intros a b ->. by apply (Hs (String c a) b).
Qed.

Lemma split_piece s x : x ∈ split_on newline s -> split_on newline x = [x].
Proof.
  revert x. induction s as [|c s IH]; intros x; cbn.
  - intros ->%list_elem_of_singleton. done.
  - destruct (decide (c = newline)) as [->|Hc].
    + intros [->|Hx]%elem_of_cons; [done|by apply IH].
    + pose proof (split_on_not_nil newline s). destruct (split_on newline s) as [|y ys]; [done|].
      intros [->|Hx]%elem_of_cons; [|apply IH; by right]. cbn. rewrite decide_False by done. rewrite IH by (by left). done.
Qed.

Lemma split_single_cons c x : split_on newline (String c x) = [String c x] <-> c <> newline /\ split_on newline x = [x].
Proof.
  cbn [split_on]. destruct (decide (c = newline)) as [->|Hc]; [naive_solver|].
  pose proof (split_on_not_nil newline x). destruct (split_on newline x) as [|y ys]; [done|]. naive_solver.
Qed.

Lemma split_single_trim x : split_on newline x = [x] -> split_on newline (TrimSpace x) = [TrimSpace x].
Proof.
  intros Hx. unfold TrimSpace. assert (Hl : split_on newline (trim_left x) = [trim_left x]).
  { induction x as [|c x IH]; [done|]. cbn [trim_left]. destruct (is_space c); [|done]. apply split_single_cons in Hx as [_ Hx]. by apply IH. }
  revert Hl. generalize (trim_left x) as y. clear. induction y as [|c y IH]; [done|]. intros [Hc Hy]%split_single_cons.
  specialize (IH Hy). cbn [trim_right]. destruct (trim_right y) as [|d z] eqn:E.
  - destruct (is_space c); [done|]. by apply split_single_cons.
  - apply split_single_cons. by split.
Qed.

Lemma lines_clean s : Forall clean (filter (fun line => nonempty line = true) (TrimSpace <$> split_on newline s)).
Proof.
  apply Forall_forall. intros x [Hne Hx]%list_elem_of_filter. apply list_elem_of_fmap in Hx as (y & -> & Hy).
  split; [apply TrimSpace_idem|]. split; [|by eapply split_single_trim, split_piece].
  intros E. rewrite E in Hne. done.
Qed.

Lemma clean_lines l : Forall clean l -> filter (fun line => nonempty line = true) (TrimSpace <$> l) = l.
Proof.
  induction 1 as [|x l (Ht & Hne & _) _ IH]; [done|]. rewrite fmap_cons, Ht, filter_cons_True, IH; [done|].
  unfold nonempty. by rewrite bool_decide_false.
Qed.

Lemma splitRules_clean raw : Forall clean (splitRules raw).
Proof. unfold splitRules. destruct (decide _); [constructor|apply lines_clean]. Qed.

Lemma splitRules_join l : Forall clean l -> splitRules (join_with newline l) = l.
Proof.
  intros Hl. unfold splitRules. destruct l as [|x l]; [done|].
  assert (Hs : split_on newline (join_with newline (x :: l)) = x :: l).
  { apply split_join; [done|]. eapply Forall_impl; [done|]. by intros ? (_ & _ & ?). }
  rewrite decide_False.
  - unfold ReplaceAll. rewrite replace_absent by (intros; by apply clean_no_crlf). rewrite Hs. by apply clean_lines.
  - intros E. rewrite E in Hs. injection Hs as <- <-. inversion_clear Hl as [|? ? (_ & Hne & _) _]. done.
Qed.

Lemma normalize_join raw : normalizePolicyRules raw = join_with newline (splitRules raw).
Proof.
  unfold normalizePolicyRules, splitRules. destruct (decide (raw = "")) as [->|Hraw]; [done|].
  set (r := ReplaceAll raw crlf (String newline "")). destruct (decide (r = "")) as [->|]; [|done]. done.
Qed.

(** Normalising the text keeps its rules. *)
Lemma normalize_rules raw : splitRules (normalizePolicyRules raw) = splitRules raw.
Proof. rewrite normalize_join. apply splitRules_join, splitRules_clean. Qed.

Lemma normalize_rules_again raw : normalizePolicyRules (normalizePolicyRules raw) = normalizePolicyRules raw.
Proof. by rewrite (normalize_join (normalizePolicyRules raw)), normalize_rules, <- normalize_join. Qed.

Lemma entry_lines_rules raw : entry_lines raw = splitRules raw.
Proof.
  unfold entry_lines. pose proof (normalize_rules raw) as Hn. rewrite normalize_join in *. pose proof (splitRules_clean raw) as Hc.
  destruct (decide (join_with newline (splitRules raw) = "")) as [E|E]; [by rewrite E in Hn|].
  rewrite split_join; [by apply clean_lines| |].
  - intros Hl. by rewrite Hl in E.
  - eapply Forall_impl; [done|]. by intros ? (_ & _ & ?).
Qed.

Lemma entries_rules entries : normalizePolicyRuleEntries entries = flat_map splitRules entries.
Proof. unfold normalizePolicyRuleEntries. apply flat_map_ext. apply entry_lines_rules. Qed.

Lemma entries_clean entries : Forall clean (normalizePolicyRuleEntries entries).
Proof.
  rewrite entries_rules. induction entries as [|e entries IH]; [constructor|]. cbn. apply Forall_app. split; [apply splitRules_clean|done].
Qed.

Lemma lines_of_rules raw : policyRulesToLines raw = splitRules raw.
Proof. unfold policyRulesToLines. rewrite entries_rules. cbn. apply app_nil_r. Qed.

Lemma mode_int_normal m : NormalizeMode (mode_int m) = m.
Proof. by destruct m. Qed.

(** The mode and the rules in force when an imported black list counts as well. *)
Definition effective (mode : Z) (raw : string) (legacy : list string) : Mode * list string :=
  let m := NormalizeMode mode in
  let old := flat_map splitRules legacy in
  match m, splitRules raw, old with
  | ModeOff, _, _ :: _ => (ModeBlacklist, old)
  | ModeBlacklist, [], _ :: _ => (ModeBlacklist, old)
  | _, rules, _ => (m, rules)
  end.

Lemma join_empty l : Forall clean l -> join_with newline l = "" <-> l = [].
Proof.
  intros Hl. split; [|by intros ->]. intros E. rewrite <- (splitRules_join l Hl), E. done.
Qed.

Lemma promote_effective mode raw legacy :
  let '(mode', raw') := promoteLegacyBlacklistPolicy mode raw legacy in
  (NormalizeMode mode', splitRules raw') = effective mode raw legacy.
Proof.
  unfold promoteLegacyBlacklistPolicy, effective. pose proof (entries_clean legacy) as Hc. rewrite entries_rules in *.
  set (old := flat_map splitRules legacy) in *. clearbody old. pose proof (splitRules_join old Hc) as Hold.
  pose proof (splitRules_join _ (splitRules_clean raw)) as Hraw. pose proof (join_empty _ (splitRules_clean raw)) as He.
  rewrite normalize_join. generalize dependent (splitRules raw). intros l Hraw He.
  assert (Hb : bool_decide (join_with newline l = "") = match l with [] => true | _ => false end).
  { destruct l; [done|]. apply bool_decide_eq_false. intros E. by apply He in E. }
  clear He. destruct (NormalizeMode mode), old as [|x old], l as [|y l]; cbn -[splitRules join_with NormalizeMode bool_decide];
    rewrite ?Hb, ?andb_false_r; cbn -[splitRules join_with NormalizeMode bool_decide];
    try destruct (bool_decide (join_with newline (x :: old) = "")); cbn [andb]; by rewrite ?Hold, ?Hraw.
Qed.

(** ** Objects that hold rules *)

(** The entry rules of an object; only clients and the server import black lists. *)
Record Entry := mkEntry {
  EntryAclMode : Z; EntryAclRules : string; legacyBlackIPList : list string; sourcePolicy : option SourceIPPolicy
}.

(** The destination rules of a user or a tunnel. *)
Record Dest := mkDest {
  DestAclMode : Z; DestAclRules : string; destIPPolicy : option SourceIPPolicy; destPolicy : option DestinationPolicy
}.

Section Objects.
Variable url_host : string -> option string.
Variable regexp_Compile : string -> option (string -> bool).
Variable geosite : option string -> string -> option (list geoSiteDomain).
Variable geoip : option string -> string -> option (list Prefix).
Variable IPSet : list Prefix -> option (Addr -> bool).

Definition compileExplicitSourcePolicy (mode : Z) (raw : string) : Z * string * SourceIPPolicy :=
  let normalizedMode := mode_int (NormalizeMode mode) in
  let normalizedRules := if normalizedMode =? AclOff then "" else normalizePolicyRules raw in
  let entries := policyRulesToLines normalizedRules in
  (normalizedMode, normalizedRules, CompileSourceIPPolicy url_host geoip IPSet (NormalizeMode normalizedMode) entries).

Definition compileDestinationPolicies (mode : Z) (raw : string) : Z * string * SourceIPPolicy * DestinationPolicy :=
  let normalizedMode := mode_int (NormalizeMode mode) in
  let normalizedRules := if normalizedMode =? AclOff then "" else normalizePolicyRules raw in
  let entries := policyRulesToLines normalizedRules in
  (normalizedMode, normalizedRules, CompileSourceIPPolicy url_host geoip IPSet (NormalizeMode normalizedMode) entries,
   CompileDestinationPolicy url_host regexp_Compile geosite geoip IPSet (NormalizeMode normalizedMode) normalizedRules).

(** Users, tunnels and hosts. *)
Definition CompileEntryACL (e : Entry) : Entry :=
  let '(mode, raw, compiled) := compileExplicitSourcePolicy (EntryAclMode e) (EntryAclRules e) in
  mkEntry mode raw (legacyBlackIPList e) (Some compiled).

(** Clients and the server. *)
Definition CompileSourcePolicy (e : Entry) : Entry :=
  let '(mode, raw) := promoteLegacyBlacklistPolicy (EntryAclMode e) (EntryAclRules e) (legacyBlackIPList e) in
  let '(mode, raw, compiled) := compileExplicitSourcePolicy mode raw in
  mkEntry mode raw [] (Some compiled).

Definition CompileDestACL (d : Dest) : Dest :=
  let '(mode, raw, ipCompiled, compiled) := compileDestinationPolicies (DestAclMode d) (DestAclRules d) in
  mkDest mode raw (Some ipCompiled) (Some compiled).

(** The decision and the object the check leaves. *)
Definition AllowsSourceAddr (compile : Entry -> Entry) (addr : string) (e : Entry) : bool * Entry :=
  let e := match sourcePolicy e with Some _ => e | None => compile e end in
  (source_AllowsAddr (sourcePolicy e) addr, e).

Definition AllowsDestination (addr : string) (d : Dest) : bool * Dest :=
  let d := match destPolicy d with Some _ => d | None => CompileDestACL d end in
  (destination_AllowsAddr url_host (destPolicy d) addr, d).

Definition AllowsDestinationIP (addr : string) (d : Dest) : bool * Dest :=
  let d := match destIPPolicy d with Some _ => d | None => CompileDestACL d end in
  (source_AllowsAddr (destIPPolicy d) addr, d).

(** ** The checks of a connection *)

(** A nil object denies nothing. *)
Definition source_denied (compile : Entry -> Entry) (addr : string) (e : option Entry) : bool * option Entry :=
  match e with
  | None => (false, None)
  | Some e => let '(ok, e) := AllowsSourceAddr compile addr e in (negb ok, Some e)
  end.

Definition IsGlobalBlackIP : string -> option Entry -> bool * option Entry := source_denied CompileSourcePolicy.
Definition IsUserSourceDenied : string -> option Entry -> bool * option Entry := source_denied CompileEntryACL.
Definition IsClientBlackIp : string -> option Entry -> bool * option Entry := source_denied CompileSourcePolicy.
Definition IsTunnelSourceDenied : string -> option Entry -> bool * option Entry := source_denied CompileEntryACL.
Definition IsHostSourceDenied : string -> option Entry -> bool * option Entry := source_denied CompileEntryACL.

(** The objects a connection is checked against: those of the server, of the client's user, of
    the client, and of the tunnel or host. *)
Record Parties := mkParties { global : option Entry; user : option Entry; client : option Entry; resource : option Entry }.

Definition IsClientSourceAccessDenied (addr : string) (ps : Parties) : bool * Parties :=
  let '(denied, g) := IsGlobalBlackIP addr (global ps) in
  let ps := mkParties g (user ps) (client ps) (resource ps) in
  if denied then (true, ps)
  else
    let '(denied, u) := IsUserSourceDenied addr (user ps) in
    let ps := mkParties (global ps) u (client ps) (resource ps) in
    if denied then (true, ps)
    else
      let '(denied, c) := IsClientBlackIp addr (client ps) in
      let ps := mkParties (global ps) (user ps) c (resource ps) in
      if denied then (true, ps)
      else
        let '(denied, t) := IsTunnelSourceDenied addr (resource ps) in
        (denied, mkParties (global ps) (user ps) (client ps) t).

(** A host that is not there denies every source. *)
Definition IsHostSourceAccessDenied (addr : string) (ps : Parties) : bool * Parties :=
  match resource ps with
  | None => (true, ps)
  | Some _ =>
    let '(denied, g) := IsGlobalBlackIP addr (global ps) in
    let ps := mkParties g (user ps) (client ps) (resource ps) in
    if denied then (true, ps)
    else
      let '(denied, u) := IsUserSourceDenied addr (user ps) in
      let ps := mkParties (global ps) u (client ps) (resource ps) in
      if denied then (true, ps)
      else
        let '(denied, c) := IsClientBlackIp addr (client ps) in
        let ps := mkParties (global ps) (user ps) c (resource ps) in
        if denied then (true, ps)
        else
          let '(denied, h) := IsHostSourceDenied addr (resource ps) in
          (denied, mkParties (global ps) (user ps) (client ps) h)
  end.

(** Whether a destination passes the rules of one object, by names and addresses or by
    addresses alone. *)
Definition dest_check (allowDomain : bool) (addr : string) (d : option Dest) : bool * option Dest :=
  match d with
  | None => (true, None)
  | Some d =>
      if DestAclMode d =? AclOff then (true, Some d)
      else let '(ok, d) := if allowDomain then AllowsDestination addr d else AllowsDestinationIP addr d in (ok, Some d)
  end.

Definition allowsDestinationByMode (u t : option Dest) (addr : string) (allowDomain : bool) : bool * string * (option Dest * option Dest) :=
  let '(ok, u) := dest_check allowDomain addr u in
  if negb ok then (false, "user", (u, t))
  else
    let '(ok, t) := dest_check allowDomain addr t in
    if negb ok then (false, "tunnel", (u, t)) else (true, "", (u, t)).

Definition HasActiveDestinationACL (u t : option Dest) : bool :=
  match u with Some u => negb (DestAclMode u =? AclOff) | None => false end ||
  match t with Some t => negb (DestAclMode t =? AclOff) | None => false end.

(** The tunnel is given by its mode and its rules. *)
Definition IsClientDestinationAccessDenied (u : option Dest) (task : option (string * Dest)) (addr : string) : bool * (option Dest * option Dest) :=
  let allowDomain := match task with Some (mode, _) => bool_decide (mode = "mixProxy") | None => false end in
  let '(allowed, _, objects) := allowsDestinationByMode u (snd <$> task) addr allowDomain in
  (negb allowed, objects).
End Objects.

(** ** What the checks decide *)

Section Checks.
Variable url_host : string -> option string.
Variable regexp_Compile : string -> option (string -> bool).
Variable geosite : option string -> string -> option (list geoSiteDomain).
Variable geoip : option string -> string -> option (list Prefix).
Variable IPSet : list Prefix -> option (Addr -> bool).
Hypothesis geoip_valid : data_valid geoip.
Hypothesis IPSet_contains : sets_hold IPSet.

(** What lists of rules say of a source and of a destination. *)
Definition source_by (m : Mode) (rules : list string) (addr : string) : bool :=
  decision m (existsb (source_hit url_host geoip IPSet addr) (omap rule_token rules)).
Definition destination_by (m : Mode) (rules : list string) (addr : string) : bool :=
  decision m (existsb (destination_hit url_host regexp_Compile geosite geoip IPSet addr) (omap rule_token rules)).

(** The rules of an object; [import] tells whether an imported black list counts. *)
Definition rules_of (import : bool) (e : Entry) : Mode * list string :=
  if import then effective (EntryAclMode e) (EntryAclRules e) (legacyBlackIPList e)
  else (NormalizeMode (EntryAclMode e), splitRules (EntryAclRules e)).
Definition entry_allows (import : bool) (e : Entry) (addr : string) : bool :=
  source_by (rules_of import e).1 (rules_of import e).2 addr.

(** A policy that is there was compiled from the rules that are there. *)
Definition entry_ok (import : bool) (e : Entry) : Prop :=
  match sourcePolicy e with
  | None => True
  | Some p => p = CompileSourceIPPolicy url_host geoip IPSet (rules_of import e).1 (rules_of import e).2
  end.

Notation compile import := (if import : bool then CompileSourcePolicy url_host geoip IPSet else CompileEntryACL url_host geoip IPSet).

Lemma explicit_rules mode raw :
  let '(mode', raw', p) := compileExplicitSourcePolicy url_host geoip IPSet mode raw in
  p = CompileSourceIPPolicy url_host geoip IPSet (NormalizeMode mode') (splitRules raw') /\
  forall addr, source_by (NormalizeMode mode') (splitRules raw') addr = source_by (NormalizeMode mode) (splitRules raw) addr.
Proof.
  unfold compileExplicitSourcePolicy. rewrite lines_of_rules, mode_int_normal. split; [done|]. intros addr.
  destruct (NormalizeMode mode); cbn [mode_int Z.eqb AclOff]; [done|by rewrite normalize_rules|by rewrite normalize_rules].
Qed.

Lemma compile_entry import e :
  let e' := (compile import) e in
  entry_ok import e' /\ is_Some (sourcePolicy e') /\ forall addr, entry_allows import e' addr = entry_allows import e addr.
Proof.
  destruct import; unfold CompileSourcePolicy, CompileEntryACL, entry_ok, entry_allows, rules_of.
  - pose proof (promote_effective (EntryAclMode e) (EntryAclRules e) (legacyBlackIPList e)) as Hp.
    destruct (promoteLegacyBlacklistPolicy _ _ _) as [mode raw]. rewrite <- Hp. pose proof (explicit_rules mode raw) as H.
    destruct (compileExplicitSourcePolicy _ _ _ mode raw) as [[mode' raw'] p]. destruct H as [-> H].
    cbn [sourcePolicy EntryAclMode EntryAclRules legacyBlackIPList fst snd].
    assert (E : effective mode' raw' [] = (NormalizeMode mode', splitRules raw')).
    { unfold effective. cbn. by destruct (NormalizeMode mode'), (splitRules raw'). }
    rewrite E. by eauto.
  - pose proof (explicit_rules (EntryAclMode e) (EntryAclRules e)) as H.
    destruct (compileExplicitSourcePolicy _ _ _ _ _) as [[mode' raw'] p]. destruct H as [-> H]. cbn. by eauto.
Qed.

(** The same rules and a policy that follows them. *)
Definition same_rules (import : bool) (e e' : Entry) : Prop :=
  entry_ok import e' /\ forall addr, entry_allows import e' addr = entry_allows import e addr.

Lemma allows_entry import e addr :
  entry_ok import e ->
  (AllowsSourceAddr (compile import) addr e).1 = entry_allows import e addr /\
  same_rules import e (AllowsSourceAddr (compile import) addr e).2.
Proof using geoip_valid IPSet_contains.
  intros Hok. assert (Hp : forall e p, entry_ok import e -> sourcePolicy e = Some p -> source_AllowsAddr (Some p) addr = entry_allows import e addr).
  { intros e0 p H0 E. unfold entry_ok in H0. rewrite E in H0. subst p. by apply source_decision. }
  unfold AllowsSourceAddr, same_rules. destruct (sourcePolicy e) as [p|] eqn:E; cbn [fst snd].
  - rewrite E. split; [by apply Hp|done].
  - destruct (compile_entry import e) as (Hok' & [p E'] & Hsame). rewrite E', <- Hsame. split; [by apply Hp|done].
Qed.

Definition party_ok (import : bool) (e : option Entry) : Prop := match e with Some e => entry_ok import e | None => True end.
Definition party_allows (import : bool) (e : option Entry) (addr : string) : bool :=
  match e with Some e => entry_allows import e addr | None => true end.
Definition same_party (import : bool) (e e' : option Entry) : Prop :=
  party_ok import e' /\ forall addr, party_allows import e' addr = party_allows import e addr.

Lemma party_check import e addr :
  party_ok import e ->
  (source_denied (compile import) addr e).1 = negb (party_allows import e addr) /\
  same_party import e (source_denied (compile import) addr e).2.
Proof using geoip_valid IPSet_contains.
  destruct e as [e|]; [|done]. intros Hok. destruct (allows_entry import e addr Hok) as [H1 H2]. unfold source_denied.
  destruct (AllowsSourceAddr _ addr e) as [ok e']. cbn in *. by rewrite H1.
Qed.

Definition parties_ok (ps : Parties) : Prop :=
  party_ok true (global ps) /\ party_ok false (user ps) /\ party_ok true (client ps) /\ party_ok false (resource ps).

(** The source passes the rules of the server, the user, the client and the resource. *)
Definition admits (ps : Parties) (addr : string) : bool :=
  party_allows true (global ps) addr && party_allows false (user ps) addr && party_allows true (client ps) addr &&
  party_allows false (resource ps) addr.

Notation denied := (IsClientSourceAccessDenied url_host geoip IPSet).

Lemma check_parties ps addr :
  parties_ok ps -> (denied addr ps).1 = negb (admits ps addr) /\ parties_ok (denied addr ps).2 /\
  forall addr', admits (denied addr ps).2 addr' = admits ps addr'.
Proof using geoip_valid IPSet_contains.
  destruct ps as [g u c t]. intros (Hg & Hu & Hc & Ht). unfold IsClientSourceAccessDenied, admits, parties_ok in *. cbn [global user client resource] in *.
  destruct (party_check true g addr Hg) as [Eg [Hg' Sg]]. fold (IsGlobalBlackIP url_host geoip IPSet) in *.
  destruct (IsGlobalBlackIP _ _ _ addr g) as [dg g']. cbn [fst snd] in *. subst dg.
  destruct (party_allows true g addr) eqn:Ag; cbn [negb andb global user client resource]; [|split; [done|]; split; [done|]; intros; by rewrite Sg].
  destruct (party_check false u addr Hu) as [Eu [Hu' Su]]. fold (IsUserSourceDenied url_host geoip IPSet) in *.
  destruct (IsUserSourceDenied _ _ _ addr u) as [du u']. cbn [fst snd] in *. subst du.
  destruct (party_allows false u addr) eqn:Au; cbn [negb andb global user client resource]; [|split; [done|]; split; [done|]; intros; by rewrite Sg, Su].
  destruct (party_check true c addr Hc) as [Ec [Hc' Sc]]. fold (IsClientBlackIp url_host geoip IPSet) in *.
  destruct (IsClientBlackIp _ _ _ addr c) as [dc c']. cbn [fst snd] in *. subst dc.
  destruct (party_allows true c addr) eqn:Ac; cbn [negb andb global user client resource]; [|split; [done|]; split; [done|]; intros; by rewrite Sg, Su, Sc].
  destruct (party_check false t addr Ht) as [Et [Ht' St]]. fold (IsTunnelSourceDenied url_host geoip IPSet) in *.
  destruct (IsTunnelSourceDenied _ _ _ addr t) as [dt t']. cbn [fst snd global user client resource] in *. subst dt.
  split; [done|]. split; [done|]. intros. by rewrite Sg, Su, Sc, St.
Qed.

(** The answers to a sequence of checks. *)
Fixpoint check_all (addrs : list string) (ps : Parties) : list bool :=
  match addrs with [] => [] | a :: addrs => let '(d, ps) := denied a ps in d :: check_all addrs ps end.

Lemma check_all_spec addrs ps : parties_ok ps -> check_all addrs ps = map (fun a => negb (admits ps a)) addrs.
Proof using geoip_valid IPSet_contains.
  revert ps. induction addrs as [|a addrs IH]; intros ps Hok; [done|]. cbn [check_all map].
  destruct (check_parties ps a Hok) as (H1 & H2 & H3). destruct (denied a ps) as [d ps']. cbn [fst snd] in *.
  rewrite H1, IH by done. f_equal. apply map_ext. intros b. by rewrite H3.
Qed.

Lemma host_check h ps addr :
  resource ps = Some h -> IsHostSourceAccessDenied url_host geoip IPSet addr ps = denied addr ps.
Proof. intros E. unfold IsHostSourceAccessDenied. rewrite E. destruct ps. cbn in E. by subst. Qed.

(** What the rules of an object say of a destination, with the domain rules or without. *)
Definition dest_allows (allowDomain : bool) (d : Dest) (addr : string) : bool :=
  (if allowDomain then destination_by else source_by) (NormalizeMode (DestAclMode d)) (splitRules (DestAclRules d)) addr.

Definition dest_ok (d : Dest) : Prop :=
  match destIPPolicy d with
  | None => True
  | Some p => p = CompileSourceIPPolicy url_host geoip IPSet (NormalizeMode (DestAclMode d)) (splitRules (DestAclRules d))
  end /\
  match destPolicy d with
  | None => True
  | Some p => p = CompileDestinationPolicy url_host regexp_Compile geosite geoip IPSet (NormalizeMode (DestAclMode d)) (DestAclRules d)
  end.

Notation compile_dest := (CompileDestACL url_host regexp_Compile geosite geoip IPSet).

Lemma compile_dest_ok d :
  dest_ok (compile_dest d) /\ is_Some (destIPPolicy (compile_dest d)) /\ is_Some (destPolicy (compile_dest d)) /\
  forall b addr, dest_allows b (compile_dest d) addr = dest_allows b d addr.
Proof.
  unfold CompileDestACL, compileDestinationPolicies, dest_ok, dest_allows.
  cbn [destIPPolicy destPolicy DestAclMode DestAclRules]. rewrite lines_of_rules, !mode_int_normal.
  split_and!; [done|done|by eauto|by eauto|]. intros b addr.
  destruct (NormalizeMode (DestAclMode d)); cbn [mode_int Z.eqb AclOff]; [by destruct b| |]; by rewrite normalize_rules.
Qed.

Lemma policy_allows_dest d addr :
  dest_ok d ->
  (is_Some (destPolicy d) -> destination_AllowsAddr url_host (destPolicy d) addr = dest_allows true d addr) /\
  (is_Some (destIPPolicy d) -> source_AllowsAddr (destIPPolicy d) addr = dest_allows false d addr).
Proof using geoip_valid IPSet_contains.
  intros [H1 H2]. split; intros [p E]; rewrite E in *; subst p; unfold dest_allows; [by apply destination_decision|by apply source_decision].
Qed.

Definition opt_dest_ok (d : option Dest) : Prop := match d with Some d => dest_ok d | None => True end.
Definition opt_dest_allows (b : bool) (d : option Dest) (addr : string) : bool :=
  match d with Some d => dest_allows b d addr | None => true end.

Lemma dest_check_spec b addr d :
  opt_dest_ok d ->
  let '(ok, d') := dest_check url_host regexp_Compile geosite geoip IPSet b addr d in
  ok = opt_dest_allows b d addr /\ opt_dest_ok d' /\ forall addr', opt_dest_allows b d' addr' = opt_dest_allows b d addr'.
Proof using geoip_valid IPSet_contains.
  destruct d as [d|]; [|done]. cbn [opt_dest_ok dest_check opt_dest_allows]. intros Hok.
  destruct (DestAclMode d =? AclOff) eqn:Eoff.
  { unfold AclOff in Eoff. zbool. split; [|done]. unfold dest_allows. rewrite Eoff. by destruct b. }
  destruct (policy_allows_dest d addr Hok) as [Hd Hs]. destruct (compile_dest_ok d) as (Hok' & Hip & Hdom & Hsame).
  destruct (policy_allows_dest (compile_dest d) addr Hok') as [Hd' Hs'].
  destruct b; unfold AllowsDestination, AllowsDestinationIP.
  - destruct (destPolicy d) as [p|] eqn:E; [rewrite E; split; [by apply Hd; eauto|done]|].
    rewrite Hd', Hsame by done. split; [done|]. split; [done|]. intros addr'. apply Hsame.
  - destruct (destIPPolicy d) as [p|] eqn:E; [rewrite E; split; [by apply Hs; eauto|done]|].
    rewrite Hs', Hsame by done. split; [done|]. split; [done|]. intros addr'. apply Hsame.
Qed.

(** The answers to a sequence of checks of destinations through a tunnel of a mode. *)
Fixpoint check_destinations (mode : string) (addrs : list string) (u t : option Dest) : list bool :=
  match addrs with
  | [] => []
  | a :: addrs =>
      let '(d, (u, t)) := IsClientDestinationAccessDenied url_host regexp_Compile geosite geoip IPSet u (pair mode <$> t) a in
      d :: check_destinations mode addrs u t
  end.

Lemma check_destinations_spec mode addrs u t :
  opt_dest_ok u -> opt_dest_ok (Some t) ->
  check_destinations mode addrs u (Some t) =
  map (fun a => let names := bool_decide (mode = "mixProxy") in negb (opt_dest_allows names u a && dest_allows names t a)) addrs.
Proof using geoip_valid IPSet_contains.
  enough (H : forall t, is_Some t -> opt_dest_ok u -> opt_dest_ok t -> check_destinations mode addrs u t =
    map (fun a => let names := bool_decide (mode = "mixProxy") in negb (opt_dest_allows names u a && opt_dest_allows names t a)) addrs).
  { intros Hu Ht. by apply (H (Some t)); eauto. }
  clear t. revert u. induction addrs as [|a addrs IH]; intros u t [t0 Et] Hu Ht; [done|]. cbn [check_destinations map].
  unfold IsClientDestinationAccessDenied, allowsDestinationByMode. rewrite Et in *. cbn [fmap option_fmap option_map snd].
  set (b := bool_decide (mode = "mixProxy")).
  pose proof (dest_check_spec b a u Hu) as Hcu. destruct (dest_check _ _ _ _ _ b a u) as [oku u']. destruct Hcu as (-> & Hu' & Su).
  destruct (opt_dest_allows b u a) eqn:Eu; cbn [negb andb].
  - pose proof (dest_check_spec b a (Some t0) Ht) as Hct.
    assert (Hsome : is_Some (dest_check url_host regexp_Compile geosite geoip IPSet b a (Some t0)).2).
    { cbn. destruct (_ =? _); [by eauto|]. destruct b; cbn; by eauto. }
    destruct (dest_check _ _ _ _ _ b a (Some t0)) as [okt t']. cbn [snd] in Hsome. destruct Hct as (-> & Ht' & St).
    assert (Hrest : check_destinations mode addrs u' t' = map (fun a => negb (opt_dest_allows b u a && opt_dest_allows b (Some t0) a)) addrs).
    { rewrite IH by done. apply map_ext. intros x. by rewrite <- Su, <- St. }
    destruct (opt_dest_allows b (Some t0) a); cbn [negb]; by rewrite Hrest.
  - f_equal. rewrite IH by eauto. apply map_ext. intros x. by rewrite <- Su.
Qed.
End Checks.

(** ** Properties *)

(** C25. A source reaches a tunnel exactly when the rules of the server, of the client's user,
    of the client and of the tunnel all let it through, with an imported black list counted
    for the server and the client that have no rules of their own; the policies compiled on
    the way, whatever was checked before, never change an answer.  A host answers as a
    tunnel does, and denies every source when it is not there. *)
Theorem sources_checked url_host geoip IPSet ps addrs :
  data_valid geoip -> sets_hold IPSet -> parties_ok url_host geoip IPSet ps ->
  check_all url_host geoip IPSet addrs ps = map (fun a => negb (admits url_host geoip IPSet ps a)) addrs /\
  forall addr, (IsHostSourceAccessDenied url_host geoip IPSet addr ps).1 =
    match resource ps with Some _ => negb (admits url_host geoip IPSet ps addr) | None => true end.
Proof.
  intros Hg Hs Hok. split; [by apply check_all_spec|]. intros addr. destruct (resource ps) as [h|] eqn:E.
  - rewrite (host_check _ _ _ h) by done. by apply check_parties.
  - unfold IsHostSourceAccessDenied. by rewrite E.
Qed.

(** C26. A destination is refused exactly when the rules of the client's user or of the tunnel
    refuse it, by names and addresses in the mixed proxy and by addresses alone elsewhere;
    the policies compiled on the way never change an answer. *)
Theorem destinations_checked url_host regexp_Compile geosite geoip IPSet mode addrs u t :
  data_valid geoip -> sets_hold IPSet ->
  opt_dest_ok url_host regexp_Compile geosite geoip IPSet u -> dest_ok url_host regexp_Compile geosite geoip IPSet t ->
  let names := bool_decide (mode = "mixProxy") in
  check_destinations url_host regexp_Compile geosite geoip IPSet mode addrs u (Some t) =
  map (fun a => negb (opt_dest_allows url_host regexp_Compile geosite geoip IPSet names u a &&
                      dest_allows url_host regexp_Compile geosite geoip IPSet names t a)) addrs.
Proof. intros. by apply check_destinations_spec. Qed.

Lemma none_valid : data_valid no_geoip.
Proof. by intros file code ps. Qed.

Lemma prefix_set_holds : sets_hold prefix_set.
Proof. intros ps _. eexists. split; [reflexivity|done]. Qed.

(** The server has an imported black list and no mode of its own; the client a white list. *)
Definition ex_parties : Parties :=
  mkParties (Some (mkEntry 0 "" ["203.0.113.7"] None)) None (Some (mkEntry 1 "203.0.113.*" [] None)) None.

Lemma sources_checked_witness :
  check_all no_url no_geoip prefix_set ["203.0.113.7:5"; "203.0.113.8:5"; "192.0.2.1:5"; "203.0.113.7:6"] ex_parties =
    [true; false; true; true] /\
  map (fun a => negb (admits no_url no_geoip prefix_set ex_parties a)) ["203.0.113.7:5"; "203.0.113.8:5"] = [true; false].
Proof.
  split; [vm_compute; reflexivity|].
  refine (eq_trans (eq_sym (proj1 (sources_checked no_url no_geoip prefix_set ex_parties ["203.0.113.7:5"; "203.0.113.8:5"]
    none_valid prefix_set_holds _))) _); [done|vm_compute; reflexivity].
Defined.

Lemma destinations_checked_witness :
  check_destinations no_url no_regexp no_site no_geoip prefix_set "mixProxy" ["www.example.com:443"; "example.net:80"]
    None (Some (mkDest 1 ex_rules None None)) = [false; true].
Proof.
  refine (eq_trans (destinations_checked no_url no_regexp no_site no_geoip prefix_set "mixProxy" ["www.example.com:443"; "example.net:80"]
    None (mkDest 1 ex_rules None None) none_valid prefix_set_holds _ _) _); [done|done|vm_compute; reflexivity].
Defined.
