(* ===== verification/Routes.v ===== *)
(** The owners of a runtime route and the targets behind it: the pool of owners with its
    rotating choice, the list of targets with theirs, and the health reports that take a
    target out of the rotation and put it back.

    Source: [lib/file/runtime_route.go], [lib/common/util.go] (lists of strings).

    A tunnel, its owners' snapshots and the views of a route share [Target] objects by
    pointer, so targets live in a map keyed by pointer.  A nil slice of targets is [None].
    The fields that [Update] copies and the model does not read are the type [R], and what
    [normalizeRuntimeTunnelOwnerSnapshot] does to them an argument; hosts run the same code
    on their own fields.  The mutexes make a history of calls a list of operations. *)

From Stdlib Require Import String Ascii.
From S2P Require Import Prelude GoString AccessRules.
Local Open Scope string_scope.
Local Open Scope list_scope.
Local Open Scope Z_scope.

(** ** The pool of owners *)

Record runtimeOwnerPool (T : Type) := mkPool { order : list string; entries : gmap string T; next : Z }.
Arguments mkPool {T} _ _ _.
Arguments order {T} _.
Arguments entries {T} _.
Arguments next {T} _.

(** A list read cyclically from an index is a rotation. *)
Lemma rotation_of_lookups {A} (l o : list A) (k : Z) :
  0 <= k < Z.of_nat (length o) -> length l = length o ->
  (forall j, (j < length o)%nat -> l !! j = o !! Z.to_nat ((k + Z.of_nat j) mod Z.of_nat (length o))) ->
  l = drop (Z.to_nat k) o ++ take (Z.to_nat k) o.
Proof.
  intros Hk Hlen Hl. apply list_eq. intros j. destruct (decide (j < length o)%nat) as [Hj|Hj].
  2:{ rewrite !lookup_ge_None_2; [done|rewrite length_app, length_drop, length_take; lia|lia]. }
  rewrite Hl by done. destruct (decide (j < length o - Z.to_nat k)%nat) as [Hd|Hd].
  - rewrite lookup_app_l by (rewrite length_drop; lia). rewrite lookup_drop, Z.mod_small by lia. f_equal. lia.
  - rewrite lookup_app_r, length_drop by (rewrite length_drop; lia).
    rewrite lookup_take_lt by lia. f_equal.
    rewrite <- (Z.mod_add _ (-1)), Z.mod_small by lia. lia.
Qed.

Section Pool.
Context {T : Type}.
Implicit Types p : runtimeOwnerPool T.

Definition newRuntimeOwnerPool : runtimeOwnerPool T := mkPool [] ∅ 0.

Definition plen p : Z := Z.of_nat (length (order p)).

Definition pool_set (uuid : string) (value : T) p : runtimeOwnerPool T :=
  if decide (uuid = "") then p
  else
    let order' := if decide (is_Some (entries p !! uuid)) then order p else order p ++ [uuid] in
    mkPool order' (<[uuid := value]> (entries p))
      (if (next p <? 0) || (Z.of_nat (length order') <=? next p) then 0 else next p).

(** The index of the first occurrence. *)
Fixpoint index_of (x : string) (l : list string) : option nat :=
  match l with
  | [] => None
  | y :: l => if decide (y = x) then Some O else S <$> index_of x l
  end.

Definition pool_remove (uuid : string) p : (Z * bool) * runtimeOwnerPool T :=
  if decide (uuid = "") then ((0, false), p)
  else match entries p !! uuid with
  | None => ((plen p, false), p)
  | Some _ =>
      let entries' := delete uuid (entries p) in
      match index_of uuid (order p) with
      | Some index =>
          let order' := delete index (order p) in
          let n := Z.of_nat (length order') in
          if n =? 0 then ((0, true), mkPool order' entries' 0)
          else ((n, true), mkPool order' entries'
                 (if Z.of_nat index <? next p then next p - 1 else if n <=? next p then 0 else next p))
      | None => ((plen p, true), mkPool (order p) entries' (if plen p =? 0 then 0 else next p))
      end
  end.

Definition pool_get (uuid : string) p : option T := if decide (uuid = "") then None else entries p !! uuid.

Definition pool_first p : option (string * T) :=
  list_find (fun uuid => is_Some (entries p !! uuid)) (order p) ≫= fun '(_, uuid) =>
    v ← entries p !! uuid; Some (uuid, v).

(** The loop of [selectNext] from the [i]-th step on. *)
Fixpoint select_loop (fuel : nat) (start i : Z) p : option (string * T) * runtimeOwnerPool T :=
  match fuel with
  | O => (None, p)
  | S fuel =>
      let index := (start + i) mod plen p in
      match (uuid ← order p !! Z.to_nat index; v ← entries p !! uuid; Some (uuid, v)) with
      | Some (uuid, v) => (Some (uuid, v), mkPool (order p) (entries p) ((index + 1) mod plen p))
      | None => select_loop fuel start (i + 1) p
      end
  end.

Definition selectNext p : option (string * T) * runtimeOwnerPool T :=
  if plen p =? 0 then (None, p)
  else
    let p := if (next p <? 0) || (plen p <=? next p) then mkPool (order p) (entries p) 0 else p in
    select_loop (length (order p)) (next p) 0 p.

Definition uuids p : list string := filter (fun uuid => is_Some (entries p !! uuid)) (order p).

(** The order lists the owners once each, and the cursor points into it. *)
Record pool_ok p : Prop := {
  ok_nodup : NoDup (order p);
  ok_dom : forall uuid, uuid ∈ order p <-> is_Some (entries p !! uuid);
  ok_next : 0 <= next p;
  ok_next_lt : order p <> [] -> next p < plen p;
  ok_empty : order p = [] -> next p = 0;
  ok_names : "" ∉ order p
}.

Lemma new_ok : pool_ok newRuntimeOwnerPool.
Proof.
  split; cbn; try done; [apply NoDup_nil_2| |set_solver]. intros u. rewrite lookup_empty. split; [set_solver|by intros []].
Qed.

Lemma set_ok uuid v p : pool_ok p -> pool_ok (pool_set uuid v p).
Proof.
  intros [Hn Hd H0 Hl He Hne]. unfold pool_set. destruct (decide (uuid = "")) as [|Hu]; [done|].
  set (order' := if decide _ then _ else _).
  assert (Ho : order' <> [] /\ NoDup order' /\ (forall x, x ∈ order' <-> x = uuid \/ x ∈ order p)).
  { subst order'. destruct (decide (is_Some (entries p !! uuid))) as [Hin|Hin]; rewrite <- Hd in Hin.
    - split; [intros E; rewrite E in Hin; set_solver|]. split; [done|]. set_solver.
    - split; [by destruct (order p)|]. split; [apply NoDup_app; split; [done|]; split; [|apply NoDup_singleton]; set_solver|].
      set_solver. }
  destruct Ho as (Hne' & Hnd & Hx). split; cbn.
  - done.
  - intros x. rewrite Hx, Hd. destruct (decide (x = uuid)) as [->|Hxu].
    + rewrite lookup_insert_eq. split; [by eauto|by auto].
    + rewrite lookup_insert_ne by done. naive_solver.
  - destruct (_ || _) eqn:E; [done|]. zbool. lia.
  - intros _. unfold plen. cbn. destruct order'; [done|]. destruct (_ || _) eqn:E; zbool; cbn in *; lia.
  - by intros E.
  - rewrite Hx. naive_solver.
Qed.

Lemma index_of_lookup x l i : index_of x l = Some i -> l !! i = Some x.
Proof.
  revert i. induction l as [|y l IH]; intros i; cbn; [done|]. destruct (decide (y = x)) as [->|]; [by intros [= <-]|].
  destruct (index_of x l) as [j|]; [|done]. intros [= <-]. by apply IH.
Qed.

Lemma index_of_some x l : x ∈ l -> exists i, index_of x l = Some i.
Proof.
  induction l as [|y l IH]; cbn; [set_solver|]. intros Hx. destruct (decide (y = x)) as [|Hne]; [by eauto|].
  destruct IH as [i ->]; [set_solver|]. by eauto.
Qed.

Lemma remove_ok uuid p : pool_ok p -> pool_ok (pool_remove uuid p).2.
Proof.
  intros Hok. destruct Hok as [Hn Hd H0 Hl He Hne]. unfold pool_remove. destruct (decide (uuid = "")) as [|Hu]; [done|].
  destruct (entries p !! uuid) as [v|] eqn:Hv; [|done].
  destruct (index_of_some uuid (order p)) as [i Hi]; [apply Hd; by eauto|]. rewrite Hi.
  apply index_of_lookup in Hi. pose proof (delete_Permutation _ _ _ Hi) as Hperm.
  pose proof (lookup_lt_Some _ _ _ Hi) as Hlt.
  assert (Hlen : length (delete i (order p)) = (length (order p) - 1)%nat) by (apply length_delete; by eauto).
  assert (Hnd : NoDup (uuid :: delete i (order p))) by (by rewrite <- Hperm).
  apply NoDup_cons in Hnd as [Hnot Hnd].
  assert (Hmem : forall x, x ∈ delete i (order p) <-> is_Some (delete uuid (entries p) !! x)).
  { intros x. destruct (decide (x = uuid)) as [->|Hx].
    - rewrite lookup_delete_eq. split; [done|by intros []].
    - rewrite lookup_delete_ne, <- Hd by done.
      assert (x ∈ order p <-> x ∈ uuid :: delete i (order p)) as -> by (by rewrite <- Hperm).
      rewrite elem_of_cons. naive_solver. }
  specialize (Hl ltac:(intros E; rewrite E in Hi; done)). unfold plen in *.
  destruct (Z.of_nat (length (delete i (order p))) =? 0) eqn:Hz; zbool; split; cbn; try done.
  - by destruct (delete i (order p)).
  - intros H. apply Hne. rewrite Hperm. by apply elem_of_cons; right.
  - destruct (Z.of_nat i <? next p) eqn:?; zbool; [lia|]. destruct (_ <=? next p); lia.
  - intros _. unfold plen. cbn. destruct (Z.of_nat i <? next p) eqn:?; zbool; [lia|].
    destruct (_ <=? next p) eqn:?; zbool; lia.
  - intros E. by rewrite E in Hz.
  - intros H. apply Hne. rewrite Hperm. by apply elem_of_cons; right.
Qed.

Lemma remove_result uuid p :
  pool_ok p -> uuid <> "" ->
  (pool_remove uuid p).1 = (plen (pool_remove uuid p).2, bool_decide (is_Some (entries p !! uuid))) /\
  entries (pool_remove uuid p).2 = delete uuid (entries p).
Proof.
  intros Hok Hu. pose proof (remove_ok uuid p Hok) as Hok'. revert Hok'. unfold pool_remove. rewrite decide_False by done.
  destruct (entries p !! uuid) as [v|] eqn:Hv.
  2:{ rewrite bool_decide_false by (by intros []). intros _. cbn. by rewrite delete_id. }
  rewrite bool_decide_true by eauto.
  destruct (index_of_some uuid (order p)) as [i Hi]; [apply Hok; by eauto|]. rewrite Hi.
  destruct (Z.of_nat (length (delete i (order p))) =? 0) eqn:Hz; intros _; unfold plen; cbn; [|done].
  zbool. by rewrite Hz.
Qed.

(** The owner under the cursor is chosen and the cursor moves on. *)
Lemma selectNext_spec p :
  pool_ok p -> order p <> [] ->
  exists uuid v, order p !! Z.to_nat (next p) = Some uuid /\ entries p !! uuid = Some v /\
    selectNext p = (Some (uuid, v), mkPool (order p) (entries p) ((next p + 1) mod plen p)).
Proof.
  intros [Hn Hd H0 Hl He Hne] Ho. specialize (Hl Ho). unfold plen in *.
  destruct (lookup_lt_is_Some_2 (order p) (Z.to_nat (next p))) as [uuid Hu]; [lia|].
  destruct (proj1 (Hd uuid)) as [v Hv]; [by eapply list_elem_of_lookup_2|]. exists uuid, v. split; [done|]. split; [done|].
  unfold selectNext, plen. replace (Z.of_nat (length (order p)) =? 0) with false by lia.
  replace ((next p <? 0) || (Z.of_nat (length (order p)) <=? next p)) with false by lia.
  destruct (length (order p)) as [|n] eqn:E; [lia|]. cbn [select_loop]. unfold plen.
  rewrite E, Z.add_0_r, Z.mod_small, Hu by lia. cbn [mbind option_bind]. by rewrite Hv.
Qed.

Lemma advance_ok p : pool_ok p -> order p <> [] -> pool_ok (mkPool (order p) (entries p) ((next p + 1) mod plen p)).
Proof.
  intros [H1 H2 H3 H4 H5 H6] Ho. assert (0 < plen p) by (unfold plen; destruct (order p); [done|cbn; lia]).
  pose proof (Z.mod_pos_bound (next p + 1) (plen p) ltac:(done)).
  split; cbn; [done|done|lia|intros; unfold plen in *; cbn; lia|done|done].
Qed.

Fixpoint select_n (n : nat) p : list string * runtimeOwnerPool T :=
  match n with
  | O => ([], p)
  | S n => match selectNext p with
           | (Some (uuid, _), p) => let '(l, p) := select_n n p in (uuid :: l, p)
           | (None, p) => ([], p)
           end
  end.

Lemma select_n_spec n p :
  pool_ok p -> (n <= length (order p))%nat ->
  exists l, select_n n p = (l, mkPool (order p) (entries p) ((next p + Z.of_nat n) mod plen p)) /\ length l = n /\
    forall j, (j < n)%nat -> l !! j = order p !! Z.to_nat ((next p + Z.of_nat j) mod plen p).
Proof.
  revert p. induction n as [|n IH]; intros p Hok Hn.
  - exists []. split; [|split; [done|lia]]. cbn. destruct Hok as [? ? H0 Hl He ?]. destruct p as [o e x]. cbn in *. f_equal. f_equal.
    unfold plen in *. cbn in *. rewrite Z.add_0_r. destruct o as [|? o]; [by rewrite He, Zmod_0_r|].
    rewrite Z.mod_small; [done|]. split; [done|]. by apply Hl.
  - assert (Ho : order p <> []) by (intros E; rewrite E in Hn; cbn in Hn; lia).
    destruct (selectNext_spec p Hok Ho) as (uuid & v & Hu & Hv & Hsel).
    pose proof (advance_ok p Hok Ho) as Hok'.
    destruct (IH _ Hok') as (l & Hrun & Hlen & Hl); [cbn; lia|]. exists (uuid :: l). cbn [select_n]. rewrite Hsel, Hrun. cbn in *.
    assert (Hp : 0 < plen p) by (unfold plen; lia). unfold plen in *. cbn in *.
    split; [|split; [lia|]].
    + rewrite Zplus_mod_idemp_l. do 2 f_equal. f_equal. lia.
    + intros [|j] Hj; cbn.
      * rewrite Z.add_0_r, Z.mod_small; [done|]. destruct Hok as [? ? ? Hl' ? ?]. split; [done|]. by apply Hl'.
      * rewrite Hl by lia. rewrite Zplus_mod_idemp_l. f_equal. f_equal. f_equal. lia.
Qed.

(** A round serves the owners in their order from the cursor on, each once, and leaves the
    pool as it was. *)
Lemma round_serves_all p :
  pool_ok p -> select_n (length (order p)) p = (drop (Z.to_nat (next p)) (order p) ++ take (Z.to_nat (next p)) (order p), p).
Proof.
  intros Hok. destruct (select_n_spec _ p Hok (le_n _)) as (l & -> & Hlen & Hl). destruct Hok as [_ _ H0 Hlt He _].
  destruct (decide (order p = [])) as [E|Ho].
  { destruct p as [o e x]. cbn in *. subst o. rewrite He by done. destruct l; [|done]. done. }
  specialize (Hlt Ho). unfold plen in *. f_equal; [by apply rotation_of_lookups|].
  destruct p as [o e x]. cbn in *. f_equal. rewrite <- (Z.mod_add _ (-1)), Z.mod_small by lia. lia.
Qed.

Lemma first_some p : pool_ok p -> order p <> [] -> exists uuid v, pool_first p = Some (uuid, v) /\ entries p !! uuid = Some v.
Proof.
  intros Hok Ho. unfold pool_first. destruct (order p) as [|x l] eqn:E; [done|].
  destruct (proj1 (ok_dom p Hok x)) as [v Hv]; [rewrite E; by left|]. exists x, v. split; [|done]. cbn [list_find].
  rewrite decide_True by eauto. cbn [mbind option_bind]. by rewrite Hv.
Qed.

Lemma set_first uuid v : uuid <> "" -> pool_set uuid v newRuntimeOwnerPool = mkPool [uuid] {[uuid := v]} 0.
Proof.
  intros Hu. unfold pool_set, newRuntimeOwnerPool. cbn [entries order next]. rewrite decide_False by done.
  rewrite decide_False by (rewrite lookup_empty; by intros []). done.
Qed.

Lemma select_only uuid v : uuid <> "" -> selectNext (mkPool [uuid] {[uuid := v]} 0) = (Some (uuid, v), mkPool [uuid] {[uuid := v]} 0).
Proof.
  intros Hu. pose proof (set_ok uuid v _ new_ok) as Hok. rewrite set_first in Hok by done.
  destruct (selectNext_spec _ Hok) as (u & w & Hu' & Hw & ->); [done|]. injection Hu' as ->. cbn [entries] in Hw.
  rewrite lookup_singleton_eq in Hw. injection Hw as ->. done.
Qed.
End Pool.

(** ** The targets *)

Record Target := mkTarget { nowIndex : Z; TargetStr : string; TargetArr : option (list string); targetArrSource : string }.

Definition TrimArr (arr : list string) : list string := filter (fun v => v <> "") (TrimSpace <$> arr).
Definition IsArrContains (arr : list string) (val : string) : bool := bool_decide (val ∈ arr).
Definition RemoveArrVal (arr : list string) (val : string) : list string :=
  match index_of val arr with Some k => delete k arr | None => arr end.

Definition normalizedTargetSource (targetStr : string) : string :=
  ReplaceAll (ReplaceAll targetStr wide_colon ":") crlf (String newline "").
Definition parseNormalizedTargetEntries (normalized : string) : list string := TrimArr (split_on newline normalized).
Definition configuredTargetEntries (target : Target) : list string :=
  parseNormalizedTargetEntries (normalizedTargetSource (TargetStr target)).

(** [len] and iteration of a slice that may be nil. *)
Definition slice (arr : option (list string)) : list string := default [] arr.

Definition load_targets (s : Target) : Target :=
  let str := ReplaceAll (TargetStr s) wide_colon ":" in
  let normalized := normalizedTargetSource str in
  mkTarget (-1) str (Some (parseNormalizedTargetEntries normalized)) normalized.

Definition ensureTargetArrLocked (s : Target) : Target :=
  match TargetArr s with Some _ => s | None => load_targets s end.

Definition TargetCount (s : Target) : Z * Target :=
  let s := ensureTargetArrLocked s in (Z.of_nat (length (slice (TargetArr s))), s).

Definition refreshConfiguredTargetsLocked (s : Target) : Target :=
  let str := ReplaceAll (TargetStr s) wide_colon ":" in
  if bool_decide (is_Some (TargetArr s)) && bool_decide (targetArrSource s = normalizedTargetSource str)
  then mkTarget (nowIndex s) str (TargetArr s) (targetArrSource s)
  else load_targets s.

(** The bytes of a key and the count of targets keep the sum far from the width of an int. *)
Definition routeTargetOffset (routeKey : string) (size : Z) : Z :=
  if size <=? 1 then 0
  else
    let routeKey := TrimSpace routeKey in
    if decide (routeKey = "") then 0
    else foldl (fun sum c => sum + Z.of_nat (nat_of_ascii c)) 0 (list_ascii_of_string routeKey) mod size.

(** The target a connection uses; nothing when all targets are offline. *)
Definition getNextTarget (routeKey : string) (s : Target) : option string * Target :=
  let s := refreshConfiguredTargetsLocked s in
  let arr := slice (TargetArr s) in
  let n := Z.of_nat (length arr) in
  if n =? 1 then (arr !! O, s)
  else if n =? 0 then (None, s)
  else
    let i := if nowIndex s <? 0 then routeTargetOffset routeKey n - 1 else nowIndex s in
    let i := if n - 1 <=? i then -1 else i in
    (arr !! Z.to_nat (i + 1), mkTarget (i + 1) (TargetStr s) (TargetArr s) (targetArrSource s)).

Definition GetRandomTarget : Target -> option string * Target := getNextTarget "".
Definition GetRouteTarget : string -> Target -> option string * Target := getNextTarget.

Definition cloneTargetSnapshot (target : Target) : Target :=
  mkTarget (nowIndex target) (TargetStr target)
    match slice (TargetArr target) with [] => None | arr => Some arr end (targetArrSource target).

Definition applyRuntimeTargetHealthLocked (target : Target) (healthRemoveArr : list string) (info : string) (healthy : bool)
    : bool * Target * list string :=
  let info := TrimSpace info in
  if decide (info = "") then (false, target, healthRemoveArr)
  else
    let configured := configuredTargetEntries target in
    if healthy then
      if negb (IsArrContains healthRemoveArr info) then (false, target, healthRemoveArr)
      else
        let arr := if IsArrContains (slice (TargetArr target)) info then TargetArr target
                   else Some (slice (TargetArr target) ++ [info]) in
        (true, mkTarget (nowIndex target) (TargetStr target) arr (targetArrSource target), RemoveArrVal healthRemoveArr info)
    else
      let target :=
        if bool_decide (TargetArr target = None)
           || ((length (slice (TargetArr target)) =? 0)%nat && (length healthRemoveArr =? 0)%nat)
        then mkTarget (-1) (TargetStr target) match configured with [] => None | c => Some c end
               (normalizedTargetSource (TargetStr target))
        else target in
      if negb (IsArrContains (slice (TargetArr target)) info) && negb (IsArrContains configured info)
      then (false, target, healthRemoveArr)
      else
        (true,
         mkTarget (nowIndex target) (TargetStr target) ((fun arr => RemoveArrVal arr info) <$> TargetArr target)
           (targetArrSource target),
         if IsArrContains healthRemoveArr info then healthRemoveArr else healthRemoveArr ++ [info]).

(** ** Targets and their health *)

(** A byte of the text after replacing wide colons comes from the same byte, or is a colon. *)
Lemma replace_wide_head f s c t :
  (String.length s < f)%nat -> c <> ":"%char -> replace_fuel f s wide_colon ":" = String c t ->
  exists f' s', s = String c s' /\ (String.length s' < f')%nat /\ t = replace_fuel f' s' wide_colon ":" /\
    drop_prefix wide_colon s = None.
Proof.
  intros Hf Hc. destruct f as [|f]; [lia|]. cbn [replace_fuel]. destruct (drop_prefix wide_colon s) as [rest|] eqn:E.
  - cbn. intros [= <- _]. done.
  - destruct s as [|d s]; [done|]. intros [= -> <-]. exists f, s. cbn in Hf. split_and!; [done|lia|done|done].
Qed.

Lemma replace_wide_no_prefix f s :
  (String.length s < f)%nat -> drop_prefix wide_colon (replace_fuel f s wide_colon ":") = None.
Proof.
  intros Hf. destruct (drop_prefix wide_colon (replace_fuel f s wide_colon ":")) as [r|] eqn:E; [|done]. exfalso.
  apply drop_prefix_spec in E. cbn in E.
  destruct (replace_wide_head f s (ascii_of_nat 239) _ Hf ltac:(done) E) as (f1 & s1 & -> & Hf1 & E1 & Hno). symmetry in E1.
  destruct (replace_wide_head f1 s1 (ascii_of_nat 188) _ Hf1 ltac:(done) E1) as (f2 & s2 & -> & Hf2 & E2 & _). symmetry in E2.
  destruct (replace_wide_head f2 s2 (ascii_of_nat 154) _ Hf2 ltac:(done) E2) as (f3 & s3 & -> & _). done.
Qed.

Lemma drop_prefix_shorter p s rest : drop_prefix p s = Some rest -> (String.length s = String.length p + String.length rest)%nat.
Proof. intros E. apply drop_prefix_spec in E as ->. by rewrite length_app_str. Qed.

Lemma replace_wide_twice g f s :
  (String.length s < f)%nat ->
  replace_fuel g (replace_fuel f s wide_colon ":") wide_colon ":" = replace_fuel f s wide_colon ":".
Proof.
  revert f s. induction g as [|g IH]; intros f s Hf; [done|]. cbn [replace_fuel].
  rewrite (replace_wide_no_prefix f s Hf). destruct f as [|f]; [lia|]. cbn [replace_fuel].
  destruct (drop_prefix wide_colon s) as [rest|] eqn:E.
  - apply drop_prefix_shorter in E. cbn in E. cbn. f_equal. apply IH. lia.
  - destruct s as [|c s]; [done|]. cbn in Hf. f_equal. apply IH. lia.
Qed.

Lemma wide_colons_once s : ReplaceAll (ReplaceAll s wide_colon ":") wide_colon ":" = ReplaceAll s wide_colon ":".
Proof. apply replace_wide_twice. lia. Qed.

Lemma normalized_again s : normalizedTargetSource (ReplaceAll s wide_colon ":") = normalizedTargetSource s.
Proof. unfold normalizedTargetSource. by rewrite wide_colons_once. Qed.

(** The targets of [cfg] that are out of the rotation are [down]; a target list not loaded
    yet has none. *)
Definition target_ok (cfg : list string) (s : Target) (down : list string) : Prop :=
  configuredTargetEntries s = cfg /\
  match TargetArr s with
  | None => down = []
  | Some arr => targetArrSource s = normalizedTargetSource (TargetStr s) /\ arr ++ down ≡ₚ cfg
  end.

(** The targets down after a report. *)
Definition report (cfg down : list string) (info : string) (healthy : bool) : list string :=
  let info := TrimSpace info in
  if healthy then filter (fun x => x <> info) down
  else if decide (info ∈ cfg /\ info ∉ down) then down ++ [info] else down.

Lemma filter_none (x : string) (l : list string) : x ∉ l -> filter (fun y => y <> x) l = l.
Proof.
  induction l as [|y l IH]; [done|]. intros [Hne Hl]%not_elem_of_cons. by rewrite filter_cons_True, IH.
Qed.

Lemma RemoveArrVal_filter l x : NoDup l -> RemoveArrVal l x = filter (fun y => y <> x) l.
Proof.
  unfold RemoveArrVal. intros Hnd. induction Hnd as [|y l Hy Hnd IH]; [done|]. cbn [index_of].
  destruct (decide (y = x)) as [->|Hyx].
  - rewrite filter_cons_False by naive_solver. by rewrite filter_none.
  - rewrite filter_cons_True, <- IH by done. by destruct (index_of x l).
Qed.

Lemma configured_nonblank s : "" ∉ configuredTargetEntries s.
Proof. unfold configuredTargetEntries, parseNormalizedTargetEntries, TrimArr. rewrite list_elem_of_filter. naive_solver. Qed.

(** A loaded list of targets that the configuration has not overtaken. *)
Definition settled (s : Target) (arr : list string) : Prop :=
  TargetArr s = Some arr /\ ReplaceAll (TargetStr s) wide_colon ":" = TargetStr s /\
  targetArrSource s = normalizedTargetSource (TargetStr s).

Lemma settled_refresh s arr : settled s arr -> refreshConfiguredTargetsLocked s = s.
Proof.
  intros (Harr & Hstr & Hsrc). unfold refreshConfiguredTargetsLocked. rewrite Harr, Hstr.
  rewrite bool_decide_true by eauto. rewrite bool_decide_true by done. cbn [andb]. rewrite <- Harr. by destruct s.
Qed.

Lemma load_settled s : settled (load_targets s) (configuredTargetEntries s).
Proof.
  unfold load_targets, configuredTargetEntries. split_and!; cbn [TargetArr TargetStr targetArrSource].
  - by rewrite normalized_again.
  - by rewrite wide_colons_once.
  - done.
Qed.

Lemma refresh_settled s : exists arr, settled (refreshConfiguredTargetsLocked s) arr.
Proof.
  unfold refreshConfiguredTargetsLocked. destruct (_ && _) eqn:E; [|eexists; apply load_settled].
  apply andb_true_iff in E as [[arr Harr]%bool_decide_eq_true Hsrc%bool_decide_eq_true]. exists arr.
  split_and!; cbn [TargetArr TargetStr targetArrSource]; [done|by rewrite wide_colons_once|done].
Qed.

Lemma next_of_refresh k s : getNextTarget k (refreshConfiguredTargetsLocked s) = getNextTarget k s.
Proof. destruct (refresh_settled s) as (arr & E%settled_refresh). unfold getNextTarget. by rewrite E. Qed.

Lemma routeTargetOffset_range k n : 1 < n -> 0 <= routeTargetOffset k n < n.
Proof.
  intros Hn. unfold routeTargetOffset. replace (n <=? 1) with false by lia. destruct (decide _); [lia|].
  apply Z.mod_pos_bound. lia.
Qed.

(** One choice among two targets or more: the index after the last one used. *)
Lemma next_settled k s arr :
  settled s arr -> (2 <= length arr)%nat ->
  exists i, 0 <= i < Z.of_nat (length arr) /\
    getNextTarget k s = (arr !! Z.to_nat i, mkTarget i (TargetStr s) (TargetArr s) (targetArrSource s)) /\
    (0 <= nowIndex s < Z.of_nat (length arr) -> i = (nowIndex s + 1) mod Z.of_nat (length arr)).
Proof.
  intros Hset Hn. unfold getNextTarget. rewrite (settled_refresh _ _ Hset). destruct Hset as [Harr _].
  rewrite Harr. cbn [slice default id].
  replace (Z.of_nat (length arr) =? 1) with false by lia. replace (Z.of_nat (length arr) =? 0) with false by lia.
  set (i := if nowIndex s <? 0 then _ else _). set (i' := if _ <=? i then _ else _).
  assert (Hi : -1 <= i).
  { subst i. destruct (nowIndex s <? 0) eqn:E; zbool; [|lia]. pose proof (routeTargetOffset_range k (Z.of_nat (length arr))). lia. }
  exists (i' + 1). split; [subst i'; destruct (_ <=? i) eqn:?; zbool; lia|]. split; [done|].
  intros Hnow. subst i' i. replace (nowIndex s <? 0) with false by lia. destruct (_ <=? nowIndex s) eqn:?; zbool.
  - replace (nowIndex s + 1) with (Z.of_nat (length arr)) by lia. by rewrite Z_mod_same_full.
  - rewrite Z.mod_small; lia.
Qed.

Fixpoint picks (keys : list string) (s : Target) : list (option string) * Target :=
  match keys with
  | [] => ([], s)
  | k :: keys => let '(x, s) := getNextTarget k s in let '(l, s) := picks keys s in (x :: l, s)
  end.

Lemma picks_from keys s arr :
  settled s arr -> (2 <= length arr)%nat -> 0 <= nowIndex s < Z.of_nat (length arr) ->
  length (picks keys s).1 = length keys /\
  forall j, (j < length keys)%nat -> (picks keys s).1 !! j = Some (arr !! Z.to_nat ((nowIndex s + 1 + Z.of_nat j) mod Z.of_nat (length arr))).
Proof.
  revert s. induction keys as [|k keys IH]; intros s Hset Hn Hnow; [split; [done|cbn; lia]|].
  destruct (next_settled k s arr Hset Hn) as (i & Hi & Hnext & Hinc). specialize (Hinc Hnow). cbn [picks]. rewrite Hnext.
  set (s' := mkTarget _ _ _ _). assert (Hset' : settled s' arr) by done. destruct (IH s' Hset' Hn Hi) as [Hlen Hl].
  destruct (picks keys s') as [l s'']. cbn [fst length] in *. split; [by rewrite Hlen|]. intros [|j] Hj.
  - cbn [lookup list_lookup]. by rewrite Z.add_0_r, <- Hinc.
  - change ((arr !! Z.to_nat i :: l) !! S j) with (l !! j). rewrite Hl by lia. subst s'. cbn [nowIndex]. rewrite Hinc.
    rewrite <- Z.add_assoc, Zplus_mod_idemp_l. do 4 f_equal. lia.
Qed.

(** As many choices as there are targets use each target once. *)
Lemma picks_round keys s arr :
  settled s arr -> length keys = length arr -> exists l, (picks keys s).1 = Some <$> l /\ l ≡ₚ arr.
Proof.
  intros Hset Hlen. destruct (decide (2 <= length arr)%nat) as [Hn|Hn].
  2:{ destruct arr as [|x [|y arr]]; cbn in Hlen, Hn; [| |lia].
    - destruct keys; [|done]. by exists [].
    - destruct keys as [|k [|]]; [done| |done]. exists [x]. split; [|done]. cbn [picks]. unfold getNextTarget.
      rewrite (settled_refresh _ _ Hset). destruct Hset as [-> _]. done. }
  destruct keys as [|k keys]; [cbn in Hlen; lia|].
  destruct (next_settled k s arr Hset Hn) as (i & Hi & Hnext & _). cbn [picks]. rewrite Hnext.
  set (s' := mkTarget _ _ _ _). assert (Hset' : settled s' arr) by done.
  destruct (picks_from keys s' arr Hset' Hn Hi) as [Hl1 Hl2]. destruct (picks keys s') as [l s'']. cbn [fst length] in *.
  exists (drop (Z.to_nat i) arr ++ take (Z.to_nat i) arr). split; [|by rewrite Permutation_app_comm, take_drop].
  rewrite fmap_app, fmap_drop, fmap_take. apply rotation_of_lookups; [by rewrite length_fmap|rewrite length_fmap; cbn; lia|].
  rewrite length_fmap. intros j Hj.
  assert (Hin : forall z, 0 <= z < Z.of_nat (length arr) -> (Some <$> arr) !! Z.to_nat z = Some (arr !! Z.to_nat z)).
  { intros z Hz. rewrite list_lookup_fmap. destruct (lookup_lt_is_Some_2 arr (Z.to_nat z)) as [x ->]; [lia|done]. }
  rewrite Hin by (apply Z.mod_pos_bound; lia). destruct j as [|j].
  - cbn [lookup list_lookup]. by rewrite Z.add_0_r, Z.mod_small.
  - change ((arr !! Z.to_nat i :: l) !! S j) with (l !! j). rewrite Hl2 by lia. cbn [nowIndex]. do 4 f_equal. subst s'. cbn. lia.
Qed.

Section Health.
Context (cfg : list string) (Hnd : NoDup cfg) (Hblank : "" ∉ cfg).

Lemma ok_parts arr down : arr ++ down ≡ₚ cfg ->
  NoDup arr /\ NoDup down /\ (forall x, x ∈ arr -> x ∈ down -> False) /\ (forall x, x ∈ cfg <-> x ∈ arr \/ x ∈ down).
Proof.
  intros Hp. assert (H : NoDup (arr ++ down)) by (by rewrite Hp). apply NoDup_app in H as (? & ? & ?).
  split_and!; [done|done|naive_solver|]. intros x. by rewrite <- Hp, elem_of_app.
Qed.

Lemma ok_down s down : target_ok cfg s down -> NoDup down /\ forall x, x ∈ down -> x ∈ cfg.
Proof.
  intros [_ H]. destruct (TargetArr s) as [arr|].
  - destruct H as [_ H]. apply ok_parts in H as (_ & ? & _ & Hx). split; [done|]. intros x. rewrite Hx. by right.
  - subst. split; [apply NoDup_nil_2|by intros x ?%not_elem_of_nil].
Qed.

(** Marking an entry of the list down moves it to the other side; marking it up moves it
    back, to the end. *)
Lemma move_down arr down x : arr ++ down ≡ₚ cfg -> x ∈ arr -> filter (fun y => y <> x) arr ++ (down ++ [x]) ≡ₚ cfg.
Proof.
  intros Hp Hx. destruct (ok_parts _ _ Hp) as (Ha & _). rewrite <- Hp.
  destruct (list_elem_of_split _ _ Hx) as (l1 & l2 & ->). rewrite filter_app, filter_cons_False by naive_solver.
  apply NoDup_app in Ha as (? & Hd & Ha). apply NoDup_cons in Ha as [Ha _].
  rewrite !filter_none; [|done|intros ?; apply (Hd x); [done|by left]]. solve_Permutation.
Qed.

Lemma move_up arr down x :
  arr ++ down ≡ₚ cfg -> x ∈ down -> (arr ++ [x]) ++ filter (fun y => y <> x) down ≡ₚ cfg.
Proof.
  intros Hp Hx. rewrite (Permutation_app_comm arr), Permutation_app_comm, (Permutation_app_comm [x]). apply move_down; [|done].
  by rewrite Permutation_app_comm.
Qed.

Lemma apply_report s down info healthy :
  target_ok cfg s down ->
  let '(_, s', down') := applyRuntimeTargetHealthLocked s down info healthy in
  down' = report cfg down info healthy /\ target_ok cfg s' down'.
Proof.
  intros Hok. pose proof (ok_down _ _ Hok) as [Hdn Hdc]. destruct Hok as [Hcfg Hok].
  unfold applyRuntimeTargetHealthLocked, report. set (i := TrimSpace info).
  destruct (decide (i = "")) as [Hi|Hi].
  { split; [|by split]. rewrite Hi. destruct healthy; [rewrite filter_none by naive_solver; done|].
    rewrite decide_False by naive_solver. done. }
  destruct healthy; cbn [negb].
  - unfold IsArrContains at 1. destruct (bool_decide (i ∈ down)) eqn:Hin; cbn [negb].
    2:{ apply bool_decide_eq_false in Hin. rewrite filter_none by done. by repeat split. }
    apply bool_decide_eq_true in Hin. rewrite RemoveArrVal_filter by done. split; [done|]. split; [done|]. cbn [TargetArr].
    destruct (TargetArr s) as [arr|]; [|subst; by apply not_elem_of_nil in Hin]. destruct Hok as [Hsrc Hp]. cbn [slice default id].
    destruct (ok_parts _ _ Hp) as (_ & _ & Hdis & _). unfold IsArrContains. rewrite bool_decide_false by naive_solver.
    split; [done|by apply move_up].
  - set (s0 := if _ || _ then _ else _).
    assert (Hs0 : target_ok cfg s0 down /\ slice (TargetArr s0) ++ down ≡ₚ cfg).
    { subst s0. destruct (bool_decide (TargetArr s = None) || _) eqn:E.
      - assert (down = []) as ->.
        { apply orb_true_iff in E as [E|E]; [apply bool_decide_eq_true in E; by rewrite E in Hok|].
          apply andb_true_iff in E as [_ E]. by destruct down. }
        rewrite Hcfg, app_nil_r. unfold target_ok, configuredTargetEntries in *. cbn. destruct cfg; cbn; rewrite ?app_nil_r; done.
      - apply orb_false_iff in E as [E _]. apply bool_decide_eq_false in E. split; [by split|].
        destruct (TargetArr s); [|done]. by destruct Hok. }
    clearbody s0. clear Hok. destruct Hs0 as [[Hcfg0 Hok0] Hp]. rewrite Hcfg. destruct (ok_parts _ _ Hp) as (Ha & _ & Hdis & Hx).
    unfold IsArrContains. destruct (decide (i ∈ cfg)) as [Hic|Hic].
    + rewrite (bool_decide_true (i ∈ cfg)), andb_false_r by done. rewrite bool_decide_decide.
      destruct (TargetArr s0) as [arr|] eqn:Earr; cbn [slice default id fmap option_fmap option_map] in *.
      * rewrite RemoveArrVal_filter by done. destruct Hok0 as [Hsrc _].
        destruct (decide (i ∈ down)) as [Hid|Hid].
        -- rewrite decide_False by naive_solver. split; [done|]. split; [done|]. cbn. split; [done|].
           by rewrite filter_none by naive_solver.
        -- rewrite decide_True by done. split; [done|]. split; [done|]. cbn. split; [done|]. apply move_down; naive_solver.
      * subst down. cbn in Hp. apply Hx in Hic as [?%not_elem_of_nil|?%not_elem_of_nil]; done.
    + rewrite !bool_decide_false by naive_solver. cbn. rewrite decide_False by naive_solver. by repeat split.
Qed.

Lemma apply_loads s down info healthy :
  target_ok cfg s down -> TargetArr (applyRuntimeTargetHealthLocked s down info healthy).1.2 = None -> down = [].
Proof.
  intros Hok. pose proof (apply_report s down info healthy Hok) as H. destruct Hok as [_ Hok]. revert H.
  destruct healthy; cycle 1.
  - destruct (applyRuntimeTargetHealthLocked _ _ _ _) as [[b s'] down']. intros [-> [_ H]] E. cbn in E. rewrite E in H.
    unfold report in H. destruct (decide _); [by destruct down|done].
  - intros _. unfold applyRuntimeTargetHealthLocked. destruct (decide _); cbn [fst snd].
    { intros E. by rewrite E in Hok. }
    destruct (negb _); cbn [fst snd TargetArr].
    { intros E. by rewrite E in Hok. }
    destruct (IsArrContains _ _); [|done]. intros E. by rewrite E in Hok.
Qed.

(** A second report of the same change, from a list that has not seen it yet, brings the list
    to the same state and changes no target. *)
Lemma apply_again s down info healthy :
  NoDup down -> (forall x, x ∈ down -> x ∈ cfg) -> target_ok cfg s (report cfg down info healthy) ->
  (TargetArr s = None -> down = []) ->
  let '(_, s', down') := applyRuntimeTargetHealthLocked s down info healthy in
  down' = report cfg down info healthy /\ target_ok cfg s' down'.
Proof.
  intros Hdn Hdc Hok Hnone. destruct (decide (down = report cfg down info healthy)) as [E|Hne].
  { rewrite <- E in Hok. by apply apply_report. }
  revert Hok Hne. unfold report. set (i := TrimSpace info). destruct healthy.
  - intros [Hcfg Hok] Hne. destruct (decide (i ∈ down)) as [Hin|Hin]; [|by rewrite filter_none in Hne].
    unfold applyRuntimeTargetHealthLocked. fold i.
    rewrite decide_False by (intros E; apply Hblank; rewrite <- E; by apply Hdc). unfold IsArrContains at 1.
    rewrite bool_decide_true by done. cbn [negb]. rewrite RemoveArrVal_filter by done. split; [done|]. split; [done|].
    cbn [TargetArr targetArrSource TargetStr].
    destruct (TargetArr s) as [arr|]; [|rewrite Hnone in Hin by done; by apply not_elem_of_nil in Hin].
    destruct Hok as [Hsrc Hp]. destruct (ok_parts _ _ Hp) as (_ & _ & _ & Hx). unfold IsArrContains. cbn [slice default id].
    rewrite bool_decide_true; [done|]. destruct (proj1 (Hx i) (Hdc _ Hin)) as [|Hf]; [done|].
    apply list_elem_of_filter in Hf. naive_solver.
  - destruct (decide (i ∈ cfg /\ i ∉ down)) as [[Hic Hid]|]; [|done]. intros [Hcfg Hok] _.
    destruct (TargetArr s) as [arr|] eqn:Earr; [|by destruct down].
    destruct Hok as [Hsrc Hp]. destruct (ok_parts _ _ Hp) as (Ha & _ & Hdis & Hx).
    unfold applyRuntimeTargetHealthLocked. fold i. rewrite decide_False by (intros E; apply Hblank; by rewrite <- E).
    rewrite Earr, Hcfg. cbn [slice default id]. rewrite bool_decide_false by done. cbn [orb].
    unfold IsArrContains. rewrite (bool_decide_true (i ∈ cfg)), (bool_decide_false (i ∈ down)), andb_false_r by done.
    assert (Hi : i ∉ arr). { intros Hi. apply (Hdis i Hi), elem_of_app. right. by left. }
    destruct (_ && _) eqn:E; (split; [done|]; split; [done|]); cbn.
    + apply andb_true_iff in E as [E1 E2]. destruct arr; [|done]. destruct down; [|done]. cbn in Hp.
      assert (cfg = [i]) as -> by (symmetry; by apply Permutation_singleton_l). cbn. split; [done|].
      by rewrite RemoveArrVal_filter, filter_cons_False by (apply NoDup_singleton || naive_solver).
    + rewrite Earr. cbn. split; [done|]. by rewrite RemoveArrVal_filter, filter_none by done.
Qed.

Lemma refresh_ok s down :
  target_ok cfg s down ->
  target_ok cfg (refreshConfiguredTargetsLocked s) down /\
  exists arr, settled (refreshConfiguredTargetsLocked s) arr /\ arr ++ down ≡ₚ cfg.
Proof.
  intros [Hcfg Hok]. destruct (TargetArr s) as [arr|] eqn:Harr.
  - destruct Hok as [Hsrc Hp]. unfold refreshConfiguredTargetsLocked. rewrite Harr, bool_decide_true by eauto.
    rewrite normalized_again, bool_decide_true by done. cbn [andb]. split.
    + split; [unfold configuredTargetEntries in *; cbn [TargetStr]; by rewrite normalized_again|].
      cbn [TargetArr targetArrSource TargetStr]. by rewrite normalized_again.
    + exists arr. split; [|done]. split_and!; cbn [TargetArr targetArrSource TargetStr];
        [done|by rewrite wide_colons_once|by rewrite normalized_again].
  - subst down. unfold refreshConfiguredTargetsLocked. rewrite Harr. cbn [is_Some_dec]. rewrite bool_decide_false by (by intros []).
    cbn [andb]. pose proof (load_settled s) as Hset. rewrite Hcfg in Hset. split.
    + split.
      * unfold configuredTargetEntries, load_targets in *. cbn [TargetStr]. by rewrite normalized_again.
      * destruct Hset as (-> & _ & ->). by rewrite app_nil_r.
    + exists cfg. by rewrite app_nil_r.
Qed.

Lemma next_ok k s down : target_ok cfg s down -> target_ok cfg (getNextTarget k s).2 down.
Proof.
  intros Hok. apply refresh_ok in Hok as [[Hcfg Hok] _]. unfold getNextTarget.
  destruct (_ =? 1); [by split|]. destruct (_ =? 0); by split.
Qed.
Lemma up_targets arr d : arr ++ d ≡ₚ cfg -> arr ≡ₚ filter (fun x => x ∉ d) cfg.
Proof using Hnd.
  intros Hp. destruct (ok_parts _ _ Hp) as (Ha & _ & Hdis & Hx). apply NoDup_Permutation; [done|by apply NoDup_filter|].
  intros x. rewrite list_elem_of_filter, Hx. naive_solver.
Qed.

End Health.

(** ** The tunnel, its owners and its route *)

(** The maps and slices that [copyRuntimeHealth] copies are values here. *)
Record Health := mkHealth {
  HealthCheckTimeout : Z; HealthMaxFail : Z; HealthCheckInterval : Z; HealthNextTime : Z; HealthMap : gmap string Z;
  HttpHealthUrl : string; HealthRemoveArr : list string; HealthCheckType : string; HealthCheckTarget : string
}.
Definition copyRuntimeHealth (src : Health) : Health := src.
Definition with_removed (h : Health) (l : list string) : Health :=
  mkHealth (HealthCheckTimeout h) (HealthMaxFail h) (HealthCheckInterval h) (HealthNextTime h) (HealthMap h)
    (HttpHealthUrl h) l (HealthCheckType h) (HealthCheckTarget h).

Section Tunnel.
Context {R : Type} (normalizeRuntimeTunnelOwnerSnapshot : R -> R).

(** What [Update] copies: the target, the health state and the other settings. *)
Record Backend := mkBackend { b_target : option Z; b_health : Health; b_settings : R }.

Record Tunnel := mkTunnel {
  backend : Backend; runtimeRouteUUID : string; runtimeOwners : option (runtimeOwnerPool Backend)
}.
Implicit Types t : Tunnel.

Definition SnapshotForUpdate (snapshot : Backend) : Backend :=
  mkBackend (b_target snapshot) (copyRuntimeHealth (b_health snapshot)) (b_settings snapshot).

Definition RuntimeOwnerCount t : Z := match runtimeOwners t with Some p => plen p | None => 0 end.
Definition RuntimeOwnerUUIDs t : list string := match runtimeOwners t with Some p => uuids p | None => [] end.

Definition BindRuntimeOwner (uuid : string) (snapshot : Backend) t : Tunnel :=
  let uuid := TrimSpace uuid in
  if decide (uuid = "") then t
  else
    let update := SnapshotForUpdate snapshot in
    let update := mkBackend (b_target update) (b_health update) (normalizeRuntimeTunnelOwnerSnapshot (b_settings update)) in
    let prevCount := RuntimeOwnerCount t in
    let owners := pool_set uuid update (default newRuntimeOwnerPool (runtimeOwners t)) in
    if (prevCount =? 0) || bool_decide (runtimeRouteUUID t = uuid)
    then mkTunnel (SnapshotForUpdate update) uuid (Some owners)
    else mkTunnel (backend t) (runtimeRouteUUID t) (Some owners).

Definition RemoveRuntimeOwner (uuid : string) t : Z * Tunnel :=
  let uuid := TrimSpace uuid in
  if decide (uuid = "") then (RuntimeOwnerCount t, t)
  else match runtimeOwners t with
  | None => (0, if decide (runtimeRouteUUID t = uuid) then mkTunnel (backend t) "" None else t)
  | Some p =>
      let '((remaining, removed), p) := pool_remove uuid p in
      if negb removed then (remaining, mkTunnel (backend t) (runtimeRouteUUID t) (Some p))
      else if remaining =? 0 then (0, mkTunnel (backend t) "" None)
      else if bool_decide (runtimeRouteUUID t = uuid) || bool_decide (TrimSpace (runtimeRouteUUID t) = "") then
        match pool_first p with
        | Some (nextUUID, snapshot) => (remaining, mkTunnel (SnapshotForUpdate snapshot) nextUUID (Some p))
        | None => (remaining, mkTunnel (backend t) "" (Some p))
        end
      else (remaining, mkTunnel (backend t) (runtimeRouteUUID t) (Some p))
  end.

(** The view a connection uses: the route, and the target and health state behind it. *)
Definition SelectRuntimeRoute t : (string * Backend) * Tunnel :=
  match runtimeOwners t with
  | None => ((runtimeRouteUUID t, backend t), t)
  | Some p =>
      match selectNext p with
      | (None, p) => ((runtimeRouteUUID t, backend t), mkTunnel (backend t) (runtimeRouteUUID t) (Some p))
      | (Some (uuid, snapshot), p) =>
          ((uuid, mkBackend (b_target snapshot) (copyRuntimeHealth (b_health snapshot)) (b_settings (backend t))),
           mkTunnel (backend t) (runtimeRouteUUID t) (Some p))
      end
  end.

Definition SelectRuntimeRouteByUUID (uuid : string) t : string * Backend :=
  let uuid := TrimSpace uuid in
  match runtimeOwners t with
  | None => (runtimeRouteUUID t, backend t)
  | Some p =>
      match pool_get uuid p with
      | None => (runtimeRouteUUID t, backend t)
      | Some snapshot => (uuid, mkBackend (b_target snapshot) (copyRuntimeHealth (b_health snapshot)) (b_settings (backend t)))
      end
  end.

(** A health report applied to the target and the removed list of a backend. *)
Definition apply_health (info : string) (healthy : bool) (heap : gmap Z Target) (b : Backend) : bool * gmap Z Target * Backend :=
  match b_target b with
  | None => (false, heap, b)
  | Some ptr =>
      match heap !! ptr with
      | None => (false, heap, b)
      | Some s =>
          let '(updated, s, removed) := applyRuntimeTargetHealthLocked s (HealthRemoveArr (b_health b)) info healthy in
          (updated, <[ptr := s]> heap, mkBackend (b_target b) (with_removed (b_health b) removed) (b_settings b))
      end
  end.

Definition UpdateRuntimeTargetHealth (uuid info : string) (healthy : bool) (heap : gmap Z Target) t
    : bool * gmap Z Target * Tunnel :=
  let uuid := TrimSpace uuid in
  match runtimeOwners t with
  | None =>
      let '(updated, heap, b) := apply_health info healthy heap (backend t) in
      (updated, heap, mkTunnel b (runtimeRouteUUID t) None)
  | Some p =>
      if decide (uuid = "") then
        let '(updated, heap, b) := apply_health info healthy heap (backend t) in
        (updated, heap, mkTunnel b (runtimeRouteUUID t) (Some p))
      else
        let '(updated1, heap, p) :=
          match pool_get uuid p with
          | Some snapshot =>
              let '(updated, heap, b) := apply_health info healthy heap snapshot in
              (updated, heap, mkPool (order p) (<[uuid := b]> (entries p)) (next p))
          | None => (false, heap, p)
          end in
        if decide (TrimSpace (runtimeRouteUUID t) = uuid) then
          let '(updated2, heap, b) := apply_health info healthy heap (backend t) in
          (updated2 || updated1, heap, mkTunnel b (runtimeRouteUUID t) (Some p))
        else (updated1, heap, mkTunnel (backend t) (runtimeRouteUUID t) (Some p))
  end.
End Tunnel.

(** ** Histories of a route *)

Lemma index_of_none x l : x ∉ l -> index_of x l = None.
Proof. induction l as [|y l IH]; [done|]. intros [? ?]%not_elem_of_cons. cbn. rewrite decide_False, IH by done. done. Qed.

Lemma RemoveArrVal_notin x l : x ∉ l -> RemoveArrVal l x = l.
Proof. intros H. unfold RemoveArrVal. by rewrite index_of_none. Qed.

Lemma RemoveArrVal_incl x y l : y ∈ RemoveArrVal l x -> y ∈ l.
Proof.
  unfold RemoveArrVal. destruct (index_of x l) as [k|] eqn:E; [|done]. apply index_of_lookup, delete_Permutation in E.
  intros Hy. rewrite E. by right.
Qed.

(** What a report does to a removed list depends on the configuration and the list alone. *)
Definition next_removed (c removed : list string) (info : string) (healthy : bool) : list string :=
  let info := TrimSpace info in
  if healthy then RemoveArrVal removed info
  else if decide (info ∈ c /\ info ∉ removed) then removed ++ [info] else removed.

Definition within (l c : list string) : Prop := forall x, x ∈ l -> x ∈ c.

Lemma apply_removed s removed info healthy :
  within (slice (TargetArr s)) (configuredTargetEntries s) -> within removed (configuredTargetEntries s) ->
  let c := configuredTargetEntries s in
  let '(_, s', removed') := applyRuntimeTargetHealthLocked s removed info healthy in
  configuredTargetEntries s' = c /\ within (slice (TargetArr s')) c /\ removed' = next_removed c removed info healthy /\
  within removed' c.
Proof.
  intros Ha Hr c. pose proof (configured_nonblank s) as Hblank. fold c in Hblank, Ha, Hr.
  unfold applyRuntimeTargetHealthLocked, next_removed. fold c. set (i := TrimSpace info).
  destruct (decide (i = "")) as [Hi|Hi].
  { split_and!; [done|done| |done]. rewrite Hi. destruct healthy; [by rewrite RemoveArrVal_notin by naive_solver|].
    rewrite decide_False by naive_solver. done. }
  destruct healthy.
  - unfold IsArrContains at 1. destruct (bool_decide (i ∈ removed)) eqn:Hin; cbn [negb].
    2:{ apply bool_decide_eq_false in Hin. by rewrite RemoveArrVal_notin. }
    apply bool_decide_eq_true in Hin. split_and!; [done| |done|intros x Hx; by eapply Hr, RemoveArrVal_incl].
    cbn [TargetArr]. destruct (IsArrContains _ _); [done|]. cbn. intros x [|Hx]%elem_of_app; [by apply Ha|].
    apply list_elem_of_singleton in Hx as ->. by apply Hr.
  - set (s0 := if _ || _ then _ else _).
    assert (Hs0 : configuredTargetEntries s0 = c /\ within (slice (TargetArr s0)) c).
    { subst s0. destruct (_ || _); [|done]. split; [done|]. clearbody c. clear. by destruct c. }
    clearbody s0. destruct Hs0 as [Hc0 Ha0]. unfold IsArrContains. destruct (decide (i ∈ c)) as [Hic|Hic].
    + rewrite (bool_decide_true (i ∈ c)), andb_false_r by done. rewrite bool_decide_decide.
      assert (Hw : within (slice ((fun arr => RemoveArrVal arr i) <$> TargetArr s0)) c).
      { destruct (TargetArr s0); cbn; [|done]. intros x Hx. by eapply Ha0, RemoveArrVal_incl. }
      destruct (decide (i ∈ removed)).
      * rewrite decide_False by naive_solver. done.
      * rewrite decide_True by done. split_and!; [done|done|done|].
        intros x [|Hx]%elem_of_app; [by apply Hr|]. by apply list_elem_of_singleton in Hx as ->.
    + rewrite !bool_decide_false by naive_solver. cbn. rewrite decide_False by naive_solver. done.
Qed.

Lemma next_within k s :
  within (slice (TargetArr s)) (configuredTargetEntries s) ->
  configuredTargetEntries (getNextTarget k s).2 = configuredTargetEntries s /\
  within (slice (TargetArr (getNextTarget k s).2)) (configuredTargetEntries s).
Proof.
  intros Ha. assert (Hr : configuredTargetEntries (refreshConfiguredTargetsLocked s) = configuredTargetEntries s /\
    within (slice (TargetArr (refreshConfiguredTargetsLocked s))) (configuredTargetEntries s)).
  { unfold refreshConfiguredTargetsLocked. destruct (_ && _).
    - split; [|done]. unfold configuredTargetEntries. cbn [TargetStr]. by rewrite normalized_again.
    - destruct (load_settled s) as (-> & _). split; [|done].
      unfold configuredTargetEntries, load_targets. cbn [TargetStr]. by rewrite normalized_again. }
  unfold getNextTarget. destruct (_ =? 1); [done|]. destruct (_ =? 0); done.
Qed.

Section Histories.
Context {R : Type} (normalize : R -> R) (cfgs : Z -> list string).
Implicit Types (t : Tunnel (R := R)) (b : Backend (R := R)).

Inductive op :=
  | Bind (uuid : string) (snapshot : Backend (R := R))
  | Remove (uuid : string)
  | Select
  | Report (uuid info : string) (healthy : bool)
  | Pick (ptr : Z) (key : string).

Definition step (st : gmap Z Target * Tunnel) (o : op) : gmap Z Target * Tunnel :=
  let '(heap, t) := st in
  match o with
  | Bind uuid snapshot => (heap, BindRuntimeOwner normalize uuid snapshot t)
  | Remove uuid => (heap, (RemoveRuntimeOwner uuid t).2)
  | Select => (heap, (SelectRuntimeRoute t).2)
  | Report uuid info healthy => let '(_, heap, t) := UpdateRuntimeTargetHealth uuid info healthy heap t in (heap, t)
  | Pick ptr key => (match heap !! ptr with Some s => <[ptr := (getNextTarget key s).2]> heap | None => heap end, t)
  end.

Definition b_removed b : list string := HealthRemoveArr (b_health b).

(** The targets hold entries of their configuration, and so do the removed lists. *)
Definition heap_ok (heap : gmap Z Target) : Prop :=
  forall ptr s, heap !! ptr = Some s -> configuredTargetEntries s = cfgs ptr /\ within (slice (TargetArr s)) (cfgs ptr).
Definition backend_ok b : Prop := match b_target b with Some ptr => within (b_removed b) (cfgs ptr) | None => True end.

(** With owners bound, the route is one of them, and the tunnel has its target, its health
    state and its settings. *)
Definition route_ok t : Prop :=
  match runtimeOwners t with
  | None => backend_ok (backend t)
  | Some p => pool_ok p /\ (forall u, u ∈ order p -> TrimSpace u = u) /\ entries p !! runtimeRouteUUID t = Some (backend t) /\
              (forall u b, entries p !! u = Some b -> backend_ok b)
  end.

(** A report of a named owner, and a snapshot with no target down. *)
Definition op_ok (o : op) : Prop :=
  match o with
  | Bind _ snapshot => b_removed snapshot = []
  | Report uuid _ _ => TrimSpace uuid <> ""
  | _ => True
  end.

Lemma bind_ok uuid snapshot t : route_ok t -> b_removed snapshot = [] -> route_ok (BindRuntimeOwner normalize uuid snapshot t).
Proof.
  intros Hok Hr. unfold BindRuntimeOwner. set (u := TrimSpace uuid). destruct (decide (u = "")) as [|Hu]; [done|].
  set (b := mkBackend _ _ (normalize _)). assert (Hb : backend_ok b).
  { change (match b_target snapshot with Some ptr => within (b_removed snapshot) (cfgs ptr) | None => True end).
    rewrite Hr. destruct (b_target snapshot); [|done]. by intros x ?%not_elem_of_nil. }
  change (SnapshotForUpdate b) with b. set (p0 := default newRuntimeOwnerPool (runtimeOwners t)).
  assert (Hp0 : pool_ok p0 /\ (forall u, u ∈ order p0 -> TrimSpace u = u) /\ (forall u b, entries p0 !! u = Some b -> backend_ok b)).
  { subst p0. unfold route_ok in Hok. destruct (runtimeOwners t) as [p|]; [naive_solver|]. cbn. split; [apply new_ok|].
    split; [by intros ? ?%not_elem_of_nil|]. intros ? ?. by rewrite lookup_empty. }
  destruct Hp0 as (Hp & Hn & Hbs). pose proof (set_ok u b p0 Hp) as Hp'.
  assert (Hent : entries (pool_set u b p0) = <[u := b]> (entries p0)) by (unfold pool_set; by rewrite decide_False).
  assert (Hn' : forall x, x ∈ order (pool_set u b p0) -> TrimSpace x = x).
  { intros x Hx. apply (ok_dom _ Hp') in Hx. rewrite Hent in Hx. destruct (decide (x = u)) as [->|Hxu]; [apply TrimSpace_idem|].
    rewrite lookup_insert_ne in Hx by done. apply Hn. by apply Hp. }
  assert (Hbs' : forall x b', entries (pool_set u b p0) !! x = Some b' -> backend_ok b').
  { intros x b'. rewrite Hent. destruct (decide (x = u)) as [->|]; [rewrite lookup_insert_eq; naive_solver|].
    rewrite lookup_insert_ne by done. apply Hbs. }
  destruct (_ || _) eqn:E; cbn [route_ok runtimeOwners runtimeRouteUUID backend]; (split_and!; [done|done| |done]); rewrite Hent.
  - by rewrite lookup_insert_eq.
  - apply orb_false_iff in E as [E1 E2%bool_decide_eq_false]. rewrite lookup_insert_ne by done. subst p0. unfold route_ok, RuntimeOwnerCount in *.
    destruct (runtimeOwners t) as [p|]; [|done]. naive_solver.
Qed.

Lemma removal_ok uuid t : route_ok t -> route_ok (RemoveRuntimeOwner uuid t).2.
Proof.
  intros Hok. unfold RemoveRuntimeOwner. set (u := TrimSpace uuid). destruct (decide (u = "")) as [|Hu]; [done|].
  destruct (runtimeOwners t) as [p|] eqn:Ep.
  2:{ unfold route_ok in *. rewrite Ep in Hok. destruct (decide _); cbn; [done|]. by rewrite Ep. }
  pose proof Hok as Hok'. unfold route_ok in Hok'. rewrite Ep in Hok'. destruct Hok' as (Hp & Hn & Hcur & Hbs).
  pose proof (remove_ok u p Hp) as Hp'. destruct (remove_result u p Hp Hu) as [Hres Hent].
  destruct (pool_remove u p) as [[remaining removed] p']. cbn [fst snd] in *. injection Hres as -> ->.
  assert (Hn' : forall x, x ∈ order p' -> TrimSpace x = x).
  { intros x Hx. apply Hn. apply (ok_dom _ Hp') in Hx as [v Hx]. rewrite Hent in Hx. apply lookup_delete_Some in Hx as [_ Hx].
    apply (ok_dom _ Hp). by eauto. }
  assert (Hbs' : forall x b, entries p' !! x = Some b -> backend_ok b).
  { intros x b Hx. rewrite Hent in Hx. apply lookup_delete_Some in Hx as [_ Hx]. by eapply Hbs. }
  destruct (bool_decide (is_Some (entries p !! u))) eqn:Hin; cbn [negb].
  2:{ apply bool_decide_eq_false, eq_None_not_Some in Hin. unfold route_ok. cbn. split_and!; [done|done| |done].
    rewrite Hent, delete_id by done. done. }
  destruct (plen p' =? 0) eqn:Hlen; cbn [snd].
  { unfold route_ok. cbn. by eapply Hbs. }
  assert (Ho : order p' <> []) by (intros E; unfold plen in Hlen; rewrite E in Hlen; done).
  assert (Hroute : TrimSpace (runtimeRouteUUID t) <> "").
  { assert (Hr : runtimeRouteUUID t ∈ order p) by (apply (ok_dom _ Hp); by eauto). rewrite (Hn _ Hr).
    intros E. rewrite E in Hr. by apply (ok_names _ Hp). }
  rewrite (bool_decide_false (TrimSpace _ = "")), orb_false_r by done.
  destruct (bool_decide (runtimeRouteUUID t = u)) eqn:Hr.
  - destruct (first_some p' Hp' Ho) as (x & b & -> & Hb). unfold route_ok. cbn [snd runtimeOwners runtimeRouteUUID backend].
    split_and!; [done|done| |done]. rewrite Hb. by destruct b.
  - apply bool_decide_eq_false in Hr. unfold route_ok. cbn [snd runtimeOwners runtimeRouteUUID backend].
    split_and!; [done|done| |done]. rewrite Hent. by rewrite lookup_delete_ne.
Qed.

Lemma selection_ok t : route_ok t -> route_ok (SelectRuntimeRoute t).2.
Proof.
  intros Hok. unfold SelectRuntimeRoute. destruct (runtimeOwners t) as [p|] eqn:Ep; [|done].
  unfold route_ok in Hok. rewrite Ep in Hok. destruct Hok as (Hp & Hn & Hcur & Hbs).
  assert (Ho : order p <> []). { intros E. assert (Hr : runtimeRouteUUID t ∈ order p) by (apply (ok_dom _ Hp); by eauto). rewrite E in Hr. by apply not_elem_of_nil in Hr. }
  destruct (selectNext_spec p Hp Ho) as (u & b & Hu & Hb & ->). unfold route_ok. cbn [snd runtimeOwners runtimeRouteUUID backend order entries].
  split_and!; [|done|done|done]. by apply advance_ok.
Qed.

Definition after_report (heap : gmap Z Target) info healthy b : Backend :=
  match b_target b with
  | Some ptr => if decide (is_Some (heap !! ptr))
                then mkBackend (b_target b) (with_removed (b_health b) (next_removed (cfgs ptr) (b_removed b) info healthy)) (b_settings b)
                else b
  | None => b
  end.

Lemma apply_health_ok heap b info healthy :
  heap_ok heap -> backend_ok b ->
  let '(_, heap', b') := apply_health info healthy heap b in
  heap_ok heap' /\ (forall ptr, is_Some (heap' !! ptr) <-> is_Some (heap !! ptr)) /\ b' = after_report heap info healthy b /\ backend_ok b'.
Proof.
  intros Hh Hb. unfold apply_health, after_report. destruct (b_target b) as [ptr|] eqn:Eb; [|done].
  destruct (heap !! ptr) as [s|] eqn:Es.
  2:{ rewrite decide_False by (by intros []). done. }
  rewrite decide_True by eauto. destruct (Hh _ _ Es) as [Hc Ha]. unfold backend_ok in Hb. rewrite Eb in Hb. rewrite <- Hc in Ha, Hb.
  pose proof (apply_removed s (b_removed b) info healthy Ha Hb) as H. unfold b_removed in *.
  destruct (applyRuntimeTargetHealthLocked s (HealthRemoveArr (b_health b)) info healthy) as [[upd s'] removed'].
  rewrite Hc in H. destruct H as (Hc' & Ha' & -> & Hr'). split_and!; [|intros q|done|done].
  - intros q s2. destruct (decide (q = ptr)) as [->|]; [rewrite lookup_insert_eq; intros [= <-]; done|].
    rewrite lookup_insert_ne by done. apply Hh.
  - destruct (decide (q = ptr)) as [->|]; [rewrite lookup_insert_eq; naive_solver|]. by rewrite lookup_insert_ne.
Qed.

Lemma after_report_dom heap heap' info healthy b :
  (forall ptr, is_Some (heap' !! ptr) <-> is_Some (heap !! ptr)) -> after_report heap' info healthy b = after_report heap info healthy b.
Proof.
  intros Hd. unfold after_report. destruct (b_target b) as [ptr|]; [|done].
  destruct (decide (is_Some (heap !! ptr))) as [H|H]; [rewrite decide_True by (by apply Hd)|rewrite decide_False by (by rewrite Hd)]; done.
Qed.

Lemma replace_ok p u b :
  pool_ok p -> is_Some (entries p !! u) -> pool_ok (mkPool (order p) (<[u := b]> (entries p)) (next p)).
Proof.
  intros [H1 H2 H3 H4 H5 H6] Hu. split; try done. cbn. intros x. rewrite H2. destruct (decide (x = u)) as [->|].
  - rewrite lookup_insert_eq. naive_solver.
  - by rewrite lookup_insert_ne.
Qed.

Lemma report_ok uuid info healthy heap t :
  heap_ok heap -> route_ok t -> TrimSpace uuid <> "" ->
  let '(_, heap', t') := UpdateRuntimeTargetHealth uuid info healthy heap t in heap_ok heap' /\ route_ok t'.
Proof.
  intros Hh Hok Hu. unfold UpdateRuntimeTargetHealth. set (u := TrimSpace uuid) in *. unfold route_ok in Hok.
  destruct (runtimeOwners t) as [p|].
  2:{ pose proof (apply_health_ok heap (backend t) info healthy Hh Hok) as H.
    destruct (apply_health info healthy heap (backend t)) as [[upd heap'] b']. naive_solver. }
  rewrite decide_False by done. destruct Hok as (Hp & Hn & Hcur & Hbs).
  assert (Hroute : TrimSpace (runtimeRouteUUID t) = runtimeRouteUUID t) by (apply Hn, (ok_dom _ Hp); by eauto).
  rewrite Hroute. unfold pool_get. rewrite decide_False by done. destruct (entries p !! u) as [b|] eqn:Eb.
  2:{ rewrite decide_False by congruence. split; [done|]. unfold route_ok. by cbn. }
  pose proof (apply_health_ok heap b info healthy Hh (Hbs _ _ Eb)) as H.
  destruct (apply_health info healthy heap b) as [[upd heap'] b']. destruct H as (Hh' & Hd & -> & Hb').
  assert (Hp' : pool_ok (mkPool (order p) (<[u := after_report heap info healthy b]> (entries p)) (next p))) by (apply replace_ok; eauto).
  assert (Hbs' : forall x b', <[u := after_report heap info healthy b]> (entries p) !! x = Some b' -> backend_ok b').
  { intros x b'. destruct (decide (x = u)) as [->|]; [rewrite lookup_insert_eq; naive_solver|].
    rewrite lookup_insert_ne by done. apply Hbs. }
  destruct (decide (runtimeRouteUUID t = u)) as [Hr|Hr].
  - assert (backend t = b) as -> by congruence. pose proof (apply_health_ok heap' b info healthy Hh' (Hbs _ _ Eb)) as H2.
    destruct (apply_health info healthy heap' b) as [[upd2 heap2] b2]. destruct H2 as (Hh2 & _ & -> & _).
    rewrite (after_report_dom _ _ _ _ _ Hd). split; [done|]. unfold route_ok. cbn. split_and!; [done|done| |done].
    by rewrite Hr, lookup_insert_eq.
  - split; [done|]. unfold route_ok. cbn. split_and!; [done|done| |done]. by rewrite lookup_insert_ne.
Qed.

Lemma step_ok heap t o : heap_ok heap -> route_ok t -> op_ok o -> heap_ok (step (heap, t) o).1 /\ route_ok (step (heap, t) o).2.
Proof.
  intros Hh Ht Ho. destruct o as [uuid b|uuid| |uuid info healthy|ptr key]; cbn [step fst snd] in *.
  - split; [done|by apply bind_ok].
  - split; [done|by apply removal_ok].
  - split; [done|by apply selection_ok].
  - pose proof (report_ok uuid info healthy heap t Hh Ht Ho) as H.
    by destruct (UpdateRuntimeTargetHealth uuid info healthy heap t) as [[upd heap'] t'].
  - split; [|done]. destruct (heap !! ptr) as [s|] eqn:Es; [|done]. intros q s2. destruct (Hh _ _ Es) as [Hc Ha].
    destruct (decide (q = ptr)) as [->|]; [|rewrite lookup_insert_ne by done; apply Hh].
    rewrite lookup_insert_eq. intros [= <-]. rewrite <- Hc in *. by apply next_within.
Qed.

(** The owners bound and not removed since. *)
Definition bound_step (bound : gset string) (o : op) : gset string :=
  match o with
  | Bind uuid _ => if decide (TrimSpace uuid = "") then bound else {[TrimSpace uuid]} ∪ bound
  | Remove uuid => bound ∖ {[TrimSpace uuid]}
  | _ => bound
  end.
Definition bound (h : list op) : gset string := foldl bound_step ∅ h.

Definition owners t : gset string := match runtimeOwners t with Some p => dom (entries p) | None => ∅ end.

Lemma owners_nonblank t : route_ok t -> "" ∉ owners t.
Proof.
  unfold route_ok, owners. destruct (runtimeOwners t) as [p|]; [|set_solver]. intros (Hp & _).
  rewrite elem_of_dom, <- (ok_dom _ Hp). apply (ok_names _ Hp).
Qed.

Lemma owners_remove uuid t : route_ok t -> owners (RemoveRuntimeOwner uuid t).2 = owners t ∖ {[TrimSpace uuid]}.
Proof.
  intros Hok. pose proof (owners_nonblank t Hok) as Hblank. unfold RemoveRuntimeOwner.
  destruct (decide (TrimSpace uuid = "")) as [->|Hu]; [cbn [snd]; set_solver|]. unfold owners, route_ok in *.
  destruct (runtimeOwners t) as [p|] eqn:Ep.
  2:{ destruct (decide _); cbn; rewrite ?Ep; set_solver. }
  destruct Hok as (Hp & _). pose proof (remove_ok (TrimSpace uuid) p Hp) as Hp'.
  destruct (remove_result (TrimSpace uuid) p Hp Hu) as [Hres Hent].
  destruct (pool_remove (TrimSpace uuid) p) as [[remaining removed] p']. cbn [fst snd] in *. injection Hres as -> ->.
  rewrite <- dom_delete_L, <- Hent. destruct (negb _); [done|]. destruct (plen p' =? 0) eqn:Hlen; cbn [snd runtimeOwners].
  - zbool. unfold plen in Hlen. symmetry. apply dom_empty_iff_L, map_empty. intros x. apply eq_None_not_Some.
    rewrite <- (ok_dom _ Hp'). destruct (order p'); [apply not_elem_of_nil|done].
  - destruct (_ || _); [|done]. by destruct (pool_first p') as [[]|].
Qed.

Lemma owners_step heap t o : heap_ok heap -> route_ok t -> op_ok o -> owners (step (heap, t) o).2 = bound_step (owners t) o.
Proof.
  intros Hh Hok Ho. destruct o as [uuid b|uuid| |uuid info healthy|ptr key]; cbn [step snd bound_step].
  - unfold BindRuntimeOwner. destruct (decide (TrimSpace uuid = "")) as [|Hu]; [done|]. unfold owners.
    set (b' := mkBackend _ _ (normalize _)). transitivity (dom (entries (pool_set (TrimSpace uuid) b' (default newRuntimeOwnerPool (runtimeOwners t))))).
    { by destruct (_ || _). }
    unfold pool_set. rewrite decide_False by done. cbn [entries]. rewrite dom_insert_L. by destruct (runtimeOwners t).
  - by apply owners_remove.
  - unfold SelectRuntimeRoute, owners, route_ok in *. destruct (runtimeOwners t) as [p|] eqn:Ep; [|cbn; by rewrite Ep].
    destruct Hok as (Hp & _ & Hcur & _). destruct (selectNext_spec p Hp) as (u & b & _ & _ & ->); [|done].
    intros E. assert (Hr : runtimeRouteUUID t ∈ order p) by (apply (ok_dom _ Hp); by eauto). rewrite E in Hr. by apply not_elem_of_nil in Hr.
  - unfold UpdateRuntimeTargetHealth, owners. cbn in Ho. destruct (runtimeOwners t) as [p|].
    2:{ by destruct (apply_health info healthy heap (backend t)) as [[? ?] ?]. }
    rewrite decide_False by done. unfold pool_get. rewrite decide_False by done.
    destruct (entries p !! TrimSpace uuid) as [b|] eqn:Eb.
    + destruct (apply_health info healthy heap b) as [[? heap'] b'].
      assert (Hd : dom (<[TrimSpace uuid:=b']> (entries p)) = dom (entries p)) by (apply dom_insert_lookup_L; by eauto).
      destruct (decide _); [|done]. by destruct (apply_health info healthy heap' (backend t)) as [[? ?] ?].
    + destruct (decide _); [|done]. by destruct (apply_health info healthy heap (backend t)) as [[? ?] ?].
  - done.
Qed.

Lemma steps_ok h heap t :
  heap_ok heap -> route_ok t -> Forall op_ok h ->
  route_ok (foldl step (heap, t) h).2 /\ owners (foldl step (heap, t) h).2 = foldl bound_step (owners t) h.
Proof.
  revert heap t. induction h as [|o h IH]; intros heap t Hh Ht Hops; [done|]. apply Forall_cons in Hops as [Ho Hops].
  cbn [foldl]. destruct (step_ok heap t o Hh Ht Ho) as [H1 H2]. rewrite <- (owners_step heap t o Hh Ht Ho).
  destruct (step (heap, t) o) as [heap' t']. by apply IH.
Qed.

Fixpoint select_routes (n : nat) t : list (string * Backend) * Tunnel :=
  match n with
  | O => ([], t)
  | S n => let '(view, t) := SelectRuntimeRoute t in let '(l, t) := select_routes n t in (view :: l, t)
  end.

Lemma select_routes_pool n t p :
  runtimeOwners t = Some p -> pool_ok p -> order p <> [] ->
  (select_routes n t).1.*1 = (select_n n p).1 /\
  Forall (fun '(u, b) => exists v, entries p !! u = Some v /\ b_target b = b_target v /\ b_health b = b_health v) (select_routes n t).1.
Proof.
  revert t p. induction n as [|n IH]; intros t p Ep Hp Ho; [done|]. cbn [select_routes select_n]. unfold SelectRuntimeRoute. rewrite Ep.
  destruct (selectNext_spec p Hp Ho) as (u & v & _ & Hv & ->).
  set (t' := mkTunnel _ _ _). destruct (IH t' _ eq_refl (advance_ok p Hp Ho) Ho) as [H1 H2]. cbn [entries] in H2.
  destruct (select_routes n t') as [l t'']. destruct (select_n n _) as [l' p'']. cbn [fst] in *.
  split; [cbn; by rewrite H1|]. constructor; [by eauto|done].
Qed.

(** One owner behind the route: its reports, and connections that ask for a target. *)
Inductive event := Reported (info : string) (healthy : bool) | Connect (key : string).

Definition connect (key : string) (st : gmap Z Target * Tunnel (R := R)) : option string * (gmap Z Target * Tunnel) :=
  let '(heap, t) := st in
  let '((_, view), t) := SelectRuntimeRoute t in
  match b_target view with
  | Some ptr =>
      match heap !! ptr with
      | Some s => let '(x, s) := getNextTarget key s in (x, (<[ptr := s]> heap, t))
      | None => (None, (heap, t))
      end
  | None => (None, (heap, t))
  end.

Definition event_step (uuid : string) (st : gmap Z Target * Tunnel) (e : event) : gmap Z Target * Tunnel :=
  match e with
  | Reported info healthy => step st (Report uuid info healthy)
  | Connect key => (connect key st).2
  end.

Fixpoint connects (keys : list string) (st : gmap Z Target * Tunnel) : list (option string) :=
  match keys with [] => [] | k :: keys => let '(x, st) := connect k st in x :: connects keys st end.

(** The targets the reports have left down. *)
Definition down (cfg : list string) (h : list event) : list string :=
  foldl (fun down e => match e with Reported info healthy => report cfg down info healthy | Connect _ => down end) [] h.

Section Solo.
Context (cfg : list string) (Hnd : NoDup cfg) (Hblank : "" ∉ cfg) (u : string) (Hu : u <> "") (Htrim : TrimSpace u = u) (ptr : Z).

Record solo (down : list string) (st : gmap Z Target * Tunnel) : Prop := {
  solo_owner : runtimeOwners st.2 = Some (mkPool [u] {[u := backend st.2]} 0);
  solo_route : runtimeRouteUUID st.2 = u;
  solo_target : b_target (backend st.2) = Some ptr;
  solo_removed : b_removed (backend st.2) = down;
  solo_ok : exists s, st.1 !! ptr = Some s /\ target_ok cfg s down
}.

Lemma solo_select t : runtimeOwners t = Some (mkPool [u] {[u := backend t]} 0) -> SelectRuntimeRoute t = ((u, backend t), t).
Proof using Hu.
  intros Ho. unfold SelectRuntimeRoute. rewrite Ho, select_only by done. destruct t as [[? ? ?] r o]. cbn in *. by rewrite Ho.
Qed.

Lemma solo_connect d key st :
  solo d st -> exists s, st.1 !! ptr = Some s /\ target_ok cfg s d /\
    connect key st = ((getNextTarget key s).1, (<[ptr := (getNextTarget key s).2]> st.1, st.2)) /\ solo d (connect key st).2.
Proof using Hnd Hu.
  destruct st as [heap t]. intros [Ho Hr Ht Hrem (s & Hs & Hok)]. cbn [fst snd] in *. exists s. split; [done|]. split; [done|].
  assert (E : connect key (heap, t) = ((getNextTarget key s).1, (<[ptr := (getNextTarget key s).2]> heap, t))).
  { unfold connect. rewrite solo_select by done. rewrite Ht, Hs. by destruct (getNextTarget key s). }
  split; [done|]. rewrite E. cbn [snd]. split; cbn [fst snd]; try done. exists (getNextTarget key s).2.
  split; [by rewrite lookup_insert_eq|by apply next_ok].
Qed.

Lemma solo_report d info healthy uuid st :
  TrimSpace uuid = u -> solo d st -> solo (report cfg d info healthy) (step st (Report uuid info healthy)).
Proof using Hnd Hblank Hu Htrim.
  intros Huuid. destruct st as [heap t]. intros [Ho Hr Ht Hrem (s & Hs & Hok)]. cbn [fst snd step] in *.
  unfold UpdateRuntimeTargetHealth. cbv zeta. rewrite Huuid, Ho, decide_False by done. unfold pool_get. rewrite decide_False by done. cbn [entries].
  rewrite lookup_singleton_eq, Hr, Htrim. unfold apply_health. rewrite Ht, Hs. unfold b_removed in Hrem. rewrite Hrem.
  pose proof (apply_report cfg Hnd Hblank s d info healthy Hok) as H1. pose proof (apply_loads cfg Hnd Hblank s d info healthy Hok) as Hl.
  destruct (ok_down cfg Hnd s d Hok) as [Hdn Hdc].
  destruct (applyRuntimeTargetHealthLocked s d info healthy) as [[upd1 s1] d1]. cbn [fst snd] in *. destruct H1 as [-> H1].
  rewrite decide_True, lookup_insert_eq by done.
  pose proof (apply_again cfg Hnd Hblank s1 d info healthy Hdn Hdc H1 Hl) as H2.
  destruct (applyRuntimeTargetHealthLocked s1 d info healthy) as [[upd2 s2] d2]. destruct H2 as [-> H2].
  split; cbn [fst snd runtimeOwners runtimeRouteUUID backend b_target order entries next]; try done.
  - by rewrite insert_singleton_eq.
  - exists s2. split; [by rewrite lookup_insert_eq|done].
Qed.

Lemma solo_events uuid h d st :
  TrimSpace uuid = u -> solo d st ->
  solo (foldl (fun down e => match e with Reported info healthy => report cfg down info healthy | Connect _ => down end) d h)
       (foldl (event_step uuid) st h).
Proof using Hnd Hblank Hu Htrim.
  intros Huuid. revert d st. induction h as [|e h IH]; intros d st Hs; [done|]. cbn [foldl]. apply IH.
  destruct e as [info healthy|key]; cbn [event_step]; [by apply solo_report|].
  by destruct (solo_connect d key st Hs) as (s & _ & _ & _ & ?).
Qed.

Lemma solo_picks d keys st :
  solo d st -> exists s, target_ok cfg s d /\ connects keys st = (picks keys s).1.
Proof using Hnd Hu.
  revert st. enough (H : forall st s, solo d st -> st.1 !! ptr = Some s -> connects keys st = (picks keys s).1).
  { intros st Hs. pose proof Hs as [_ _ _ _ (s & Hl & Hok)]. exists s. split; [done|by apply H]. }
  induction keys as [|k keys IH]; intros st s Hs Hl; [done|]. cbn [connects picks].
  destruct (solo_connect d k st Hs) as (s' & Hl' & _ & E & Hs'). rewrite Hl in Hl'. injection Hl' as <-. rewrite E in *. cbn [snd] in Hs'.
  rewrite (IH _ (getNextTarget k s).2 Hs') by (cbn [fst]; by rewrite lookup_insert_eq).
  destruct (getNextTarget k s) as [x s']. cbn. by destruct (picks keys s').
Qed.

Lemma picks_refresh keys s : (picks keys s).1 = (picks keys (refreshConfiguredTargetsLocked s)).1.
Proof. destruct keys as [|k keys]; [done|]. cbn [picks]. by rewrite next_of_refresh. Qed.

Lemma solo_round d keys st :
  solo d st -> length keys = length (filter (fun x => x ∉ d) cfg) ->
  exists l, connects keys st = Some <$> l /\ l ≡ₚ filter (fun x => x ∉ d) cfg.
Proof using Hnd Hu.
  intros Hs Hlen. destruct (solo_picks d keys st Hs) as (s & Hok & ->). destruct (refresh_ok cfg s d Hok) as [_ (arr & Hset & Hp)].
  pose proof (up_targets cfg Hnd _ _ Hp) as Hup. rewrite picks_refresh.
  destruct (picks_round keys _ arr Hset) as (l & El & Hl); [by rewrite Hlen, Hup|]. exists l. split; [done|by rewrite Hl].
Qed.

Lemma solo_offline d key st : solo d st -> filter (fun x => x ∉ d) cfg = [] -> (connect key st).1 = None.
Proof using Hnd Hu.
  intros Hs Hup. destruct (solo_connect d key st Hs) as (s & _ & Hok & -> & _). cbn [fst].
  destruct (refresh_ok cfg s d Hok) as [_ (arr & Hset & Hp)]. pose proof (up_targets cfg Hnd _ _ Hp) as Hl. rewrite Hup in Hl.
  apply Permutation_nil_r in Hl as ->. rewrite <- next_of_refresh. unfold getNextTarget. rewrite (settled_refresh _ _ Hset).
  destruct Hset as [-> _]. done.
Qed.
End Solo.
End Histories.


Definition no_health : Health := mkHealth 0 0 0 0 ∅ "" [] "" "".
Definition two_targets : string := "10.0.0.1:80" +:+ String newline "10.0.0.2:80".
Definition ex_tunnel : Tunnel (R := unit) := mkTunnel (mkBackend None no_health tt) "" None.
Definition ex_heap : gmap Z Target := {[1 := mkTarget 0 two_targets None ""]}.


(** A target listed twice: the report takes one of its entries out, and connections still use
    it. *)
Example duplicate_target_stays :
  let s := mkTarget 0 ("a:1" +:+ String newline ("b:2" +:+ String newline "a:1")) None "" in
  let '(updated, s, removed) := applyRuntimeTargetHealthLocked s [] "a:1" false in
  updated = true /\ removed = ["a:1"] /\ (picks [""; ""] s).1 = [Some "b:2"; Some "a:1"].
Proof. vm_compute. done. Qed.

(** C33. After any history of owners bound and removed, selections, health reports of named
    owners and choices of targets, the tunnel's own target, health state and settings are
    those of one of the bound owners, the route's; and as many selections as there are bound
    owners serve each of them exactly once, each with its own target and health state. *)
Theorem route_follows_owners {R : Type} (normalize : R -> R) cfgs heap t h :
  heap_ok cfgs heap -> runtimeOwners t = None -> backend_ok cfgs (backend t) -> Forall op_ok h ->
  let t' := (foldl (step normalize) (heap, t) h).2 in
  let views := (select_routes (size (bound h)) t').1 in
  views.*1 ≡ₚ elements (bound h) /\
  (bound h <> ∅ -> exists p, runtimeOwners t' = Some p /\ runtimeRouteUUID t' ∈ bound h /\
     entries p !! runtimeRouteUUID t' = Some (backend t') /\
     Forall (fun '(u, view) => exists v, entries p !! u = Some v /\ b_target view = b_target v /\ b_health view = b_health v) views).
Proof.
  intros Hh Ho Hb Hops t' views.
  destruct (steps_ok normalize cfgs h heap t Hh) as [Hok Hown]; [unfold route_ok; by rewrite Ho|done|].
  fold t' in Hok, Hown. replace (owners t) with (∅ : gset string) in Hown by (unfold owners; by rewrite Ho). fold (bound h) in Hown.
  unfold route_ok, owners in *. subst views. destruct (runtimeOwners t') as [p|] eqn:Ep.
  2:{ rewrite <- Hown. rewrite size_empty. done. }
  destruct Hok as (Hp & _ & Hcur & _). assert (Hr : runtimeRouteUUID t' ∈ order p) by (apply (ok_dom _ Hp); by eauto).
  assert (Hne : order p <> []) by (intros E; rewrite E in Hr; by apply not_elem_of_nil in Hr).
  assert (Hel : order p ≡ₚ elements (bound h)).
  { apply NoDup_Permutation; [apply Hp|apply NoDup_elements|]. intros x. rewrite elem_of_elements, <- Hown, elem_of_dom. apply Hp. }
  assert (Hsize : size (bound h) = length (order p)) by (by rewrite Hel).
  destruct (select_routes_pool (size (bound h)) t' p Ep Hp Hne) as [-> Hviews]. split.
  - rewrite Hsize, round_serves_all by done. cbn [fst]. by rewrite Permutation_app_comm, take_drop.
  - intros _. exists p. split_and!; [done| |done|done]. rewrite <- Hown. by apply elem_of_dom; eauto.
Qed.

Definition ex_route : list (op (R := unit)) :=
  [Bind "n1" (mkBackend (Some 1) no_health tt); Bind " n2" (mkBackend (Some 2) no_health tt); Select;
   Report "n1" "10.0.0.1:80" false; Pick 1 "n1"; Bind "n3" (mkBackend (Some 1) no_health tt); Remove "n1"].

Lemma route_follows_owners_witness :
  (select_routes 2 (foldl (step id) (ex_heap, ex_tunnel) ex_route).2).1.*1 ≡ₚ elements (bound ex_route) /\
  bound ex_route = {["n2"; "n3"]}.
Proof.
  split; [|vm_compute; reflexivity].
  refine (proj1 (route_follows_owners id (fun _ => configuredTargetEntries (mkTarget 0 two_targets None "")) ex_heap ex_tunnel ex_route _ _ _ _)).
  - unfold ex_heap. intros ptr s [<- <-]%lookup_singleton_Some. split; [done|]. by intros x ?%not_elem_of_nil.
  - done.
  - done.
  - repeat constructor; done.
Defined.
