(* ===== verification/Idempotency.v ===== *)
(** The store that runs a request with an idempotency key once and replays its answer: entries
    in flight and answered, waiting and eviction, expiry, and what survives a restart.

    Source: [web/routers/node_idempotency.go], [web/routers/node_ws.go] (frames),
    [web/service/node_runtime.go] (the counters of the store).

    Entries are shared by pointer between the map and the requests that hold them, so they
    live in a heap.  Requests run concurrently: each critical section under the mutex of the
    store is one step, and a wait ends by the release of the entry, by the end of the
    request's context or by its timer.  Instants are nanoseconds; the zero time of an entry
    that is not answered is [None].  The order in which a map of headers is walked is an
    argument [walk]. *)

From Stdlib Require Import String Ascii.
From stdpp Require Import sorting.
From S2P Require Import Prelude GoString.
Local Open Scope string_scope.
Local Open Scope list_scope.
Local Open Scope Z_scope.

(** ** Answers *)

Notation HTTPHeader := (gmap string (list string)).

Record HTTPResponse := mkHTTP { Status : Z; Header : HTTPHeader; Body : string }.

(** A frame of the socket protocol; the actor is copied and never read. *)
Record nodeWSFrame (A : Type) := mkFrame {
  w_ID : string; w_Type : string; w_Method : string; w_Path : string; w_Body : string; w_Headers : gmap string string;
  w_Status : Z; w_Error : string; w_Encoding : string; w_Timestamp : Z; w_NodeID : string; w_Schema : Z;
  w_APIBase : string; w_Actor : option A
}.
Arguments w_Status {A} _.

(** Any order of the keys of a map. *)
Definition is_order (walk : HTTPHeader -> list (string * list string)) : Prop := forall h, walk h ≡ₚ map_to_list h.

Definition normalizeNodeIdempotencyHTTPHeader (walk : HTTPHeader -> list (string * list string)) (header : HTTPHeader) : HTTPHeader :=
  foldl (fun normalized '(key, values) =>
    let key := TrimSpace key in
    if bool_decide (key = "") || bool_decide (values = []) then normalized else <[key := values]> normalized) ∅ (walk header).

Definition cloneNodeIdempotencyHTTPResponse (walk : HTTPHeader -> list (string * list string)) (resp : HTTPResponse) : HTTPResponse :=
  mkHTTP (Status resp) (normalizeNodeIdempotencyHTTPHeader walk (Header resp)) (Body resp).

(** What [WriteTo] puts into the headers of a replayed answer. *)
Definition WriteTo (walk : HTTPHeader -> list (string * list string)) (h dst : HTTPHeader) : HTTPHeader :=
  foldl (fun dst '(key, values) =>
    let key := TrimSpace key in
    if bool_decide (key = "") || bool_decide (values = []) then dst else <[key := values]> dst) dst (walk h).

(** ** The store *)

Definition millisecond : Z := 10 ^ 6.
Definition second : Z := 10 ^ 9.
Definition nodeIdempotencyTTL : Z := 5 * 60 * second.
Definition nodeIdempotencyInflightMinWait : Z := 150 * millisecond.

Definition nodeIdempotencyInflightWaitTimeout (ttl : Z) : Z :=
  if ttl <=? 0 then nodeIdempotencyTTL
  else if ttl <? nodeIdempotencyInflightMinWait then nodeIdempotencyInflightMinWait else ttl.

Record Counters := mkCounters { CachedEntries : Z; Inflight : Z; ReplayHits : Z; Conflicts : Z; TTLSeconds : Z }.
Definition ResetIdempotency (ttl : Z) : Counters := mkCounters 0 0 0 0 (ttl `quot` second).
Definition UpdateIdempotency (entries inflight ttl : Z) (c : Counters) : Counters :=
  mkCounters entries inflight (ReplayHits c) (Conflicts c) (ttl `quot` second).
Definition NoteIdempotencyReplay (c : Counters) : Counters :=
  mkCounters (CachedEntries c) (Inflight c) (ReplayHits c + 1) (Conflicts c) (TTLSeconds c).
Definition NoteIdempotencyConflict (c : Counters) : Counters :=
  mkCounters (CachedEntries c) (Inflight c) (ReplayHits c) (Conflicts c + 1) (TTLSeconds c).

Section Store.
Context {A : Type} (walk : HTTPHeader -> list (string * list string)).

Inductive reply := HTTP (r : HTTPResponse) | WS (r : nodeWSFrame A).

Definition clone (r : reply) : reply :=
  match r with HTTP r => HTTP (cloneNodeIdempotencyHTTPResponse walk r) | WS r => WS r end.

(** [ready] tells whether the channel is there, that is, the request is in flight. *)
Record nodeIdempotencyEntry := mkEntry {
  fingerprint : string; expiresAt : option Z; ready : bool; httpResp : option HTTPResponse; wsResp : option (nodeWSFrame A)
}.

Record nodeIdempotencyStore := mkStore {
  ttl : Z; entries : gmap string Z; heap : gmap Z nodeIdempotencyEntry; fresh : Z; runtimeStatus : Counters
}.
Implicit Types s : nodeIdempotencyStore.

Definition with_entries s (m : gmap string Z) (h : gmap Z nodeIdempotencyEntry) : nodeIdempotencyStore :=
  mkStore (ttl s) m h (fresh s) (runtimeStatus s).
Definition with_status s (c : Counters) : nodeIdempotencyStore := mkStore (ttl s) (entries s) (heap s) (fresh s) c.

Definition TTL s : Z := if ttl s <=? 0 then nodeIdempotencyTTL else ttl s.

Definition entry_of s (key : string) : option nodeIdempotencyEntry := entries s !! key ≫= fun p => heap s !! p.

Definition entryCountsLocked s : Z * Z :=
  (Z.of_nat (size (entries s)),
   Z.of_nat (size (filter (fun '(_, p) => (ready <$> heap s !! p) = Some true) (entries s)))).

Definition updateRuntimeLocked s : nodeIdempotencyStore :=
  let '(n, inflight) := entryCountsLocked s in with_status s (UpdateIdempotency n inflight (ttl s) (runtimeStatus s)).

Definition newNodeIdempotencyStore (ttl : Z) : nodeIdempotencyStore :=
  let ttl := if ttl <=? 0 then nodeIdempotencyTTL else ttl in mkStore ttl ∅ ∅ 0 (ResetIdempotency ttl).

Definition releaseNodeIdempotencyEntry (e : nodeIdempotencyEntry) : nodeIdempotencyEntry :=
  mkEntry (fingerprint e) (expiresAt e) false (httpResp e) (wsResp e).

(** An answered entry past its time. *)
Definition expired (now : Z) (e : nodeIdempotencyEntry) : bool :=
  negb (ready e) && match expiresAt e with None => true | Some t => t <? now end.

Definition gcLocked (now : Z) s : bool * nodeIdempotencyStore :=
  let keep := filter (fun '(_, p) => (expired now <$> heap s !! p) = Some false) (entries s) in
  if bool_decide (keep = entries s) then (false, s) else (true, updateRuntimeLocked (with_entries s keep (heap s))).

(** The end of the context of a request. *)
Inductive ctx_err := Canceled | DeadlineExceeded.

Inductive turn :=
  | Refused (err : ctx_err)
  | Conflict
  | Replay (http : option HTTPResponse) (ws : option (nodeWSFrame A))
  | Wait (p : Z)
  | Start (p : Z).

(** One turn of the loop of [acquireContext]: the context is looked at before the lock and
    before a new entry is made. *)
Definition acquire_turn (now : Z) (before inside : option ctx_err) (compound fp : string) s : turn * nodeIdempotencyStore :=
  match before with
  | Some err => (Refused err, s)
  | None =>
      let '(_, s) := gcLocked now s in
      match entries s !! compound with
      | Some p =>
          match heap s !! p with
          | None => (Refused Canceled, s)
          | Some e =>
              if negb (bool_decide (fingerprint e = fp)) then (Conflict, with_status s (NoteIdempotencyConflict (runtimeStatus s)))
              else if negb (ready e) then
                (Replay (cloneNodeIdempotencyHTTPResponse walk <$> httpResp e) (wsResp e),
                 with_status s (NoteIdempotencyReplay (runtimeStatus s)))
              else (Wait p, s)
          end
      | None =>
          match inside with
          | Some err => (Refused err, s)
          | None =>
              let p := fresh s in
              let e := mkEntry fp None true None None in
              (Start p, updateRuntimeLocked (mkStore (ttl s) (<[compound := p]> (entries s)) (<[p := e]> (heap s)) (p + 1) (runtimeStatus s)))
          end
      end
  end.

Definition cacheable (r : reply) : bool :=
  let status := match r with HTTP r => Status r | WS r => w_Status r end in (0 <? status) && (status <? 500).

(** What [completeHTTP] and [completeWS] set. *)
Definition answer (r : reply) (e : nodeIdempotencyEntry) : nodeIdempotencyEntry :=
  match clone r with
  | HTTP r => mkEntry (fingerprint e) (expiresAt e) (ready e) (Some r) (wsResp e)
  | WS r => mkEntry (fingerprint e) (expiresAt e) (ready e) (httpResp e) (Some r)
  end.

Definition complete (now : Z) (compound : string) (p : Z) (r : reply) s : nodeIdempotencyStore :=
  if decide (entries s !! compound = Some p) then
    match heap s !! p with
    | None => s
    | Some e =>
        if negb (cacheable r) then
          updateRuntimeLocked (with_entries s (delete compound (entries s)) (<[p := releaseNodeIdempotencyEntry e]> (heap s)))
        else
          let e := mkEntry (fingerprint e) (Some (now + TTL s)) (ready e) (httpResp e) (wsResp e) in
          updateRuntimeLocked (with_entries s (entries s) (<[p := releaseNodeIdempotencyEntry (answer r e)]> (heap s)))
    end
  else s.

(** The waiter whose timer ran out takes the entry out. *)
Definition expireInflightEntry (compound : string) (p : Z) s : nodeIdempotencyStore :=
  if decide (entries s !! compound = Some p) then
    match heap s !! p with
    | None => s
    | Some e =>
        if negb (ready e) then s
        else updateRuntimeLocked (with_entries s (delete compound (entries s)) (<[p := releaseNodeIdempotencyEntry e]> (heap s)))
    end
  else s.

(** Entries of the map that are in flight, and the release of all that the map holds. *)
Definition in_flight s (p : Z) : Prop := (ready <$> heap s !! p) = Some true.
Definition release_all s : gmap Z nodeIdempotencyEntry :=
  map_imap (fun p e => Some (if decide (p ∈ (map_img (entries s) : gset Z)) then releaseNodeIdempotencyEntry e else e)) (heap s).

Definition Close s : nodeIdempotencyStore :=
  let keep := filter (fun '(_, p) => (ready <$> heap s !! p) = Some false) (entries s) in
  if bool_decide (keep = entries s) then s else updateRuntimeLocked (with_entries s keep (release_all s)).

Definition Reset s : nodeIdempotencyStore := mkStore (ttl s) ∅ (release_all s) (fresh s) (ResetIdempotency (ttl s)).

(** ** What survives a restart *)

Record nodeIdempotencyPersistedEntry := mkPersisted {
  Key : string; Fingerprint : string; ExpiresAt : Z; HTTPResp : option HTTPResponse; WSResp : option (nodeWSFrame A)
}.

(** [Time.Unix] of an instant. *)
Definition Unix (t : Z) : Z := t / second.

Definition persisted_entry (now : Z) (key : string) (e : nodeIdempotencyEntry) : option nodeIdempotencyPersistedEntry :=
  match expiresAt e with
  | None => None
  | Some t =>
      if ready e || (t <? now) then None
      else match httpResp e, wsResp e with
      | None, None => None
      | h, w => Some (mkPersisted key (fingerprint e) (Unix t) (cloneNodeIdempotencyHTTPResponse walk <$> h) w)
      end
  end.

(** The order is that of the keys. *)
Definition key_le (x y : nodeIdempotencyPersistedEntry) : Prop := String.leb (Key x) (Key y) = true.
#[global] Instance key_le_dec : RelDecision key_le := fun x y => decide (String.leb (Key x) (Key y) = true).

Definition snapshotPersistedEntries (now : Z) s : list nodeIdempotencyPersistedEntry :=
  merge_sort key_le (omap (fun '(key, p) => heap s !! p ≫= persisted_entry now key) (map_to_list (entries s))).

Definition load_entry (now : Z) s (item : nodeIdempotencyPersistedEntry) : nodeIdempotencyStore :=
  if bool_decide (TrimSpace (Key item) = "") || bool_decide (TrimSpace (Fingerprint item) = "") || (ExpiresAt item <=? Unix now) then s
  else match HTTPResp item, WSResp item with
  | None, None => s
  | h, w =>
      let e := mkEntry (Fingerprint item) (Some (ExpiresAt item * second)) false (cloneNodeIdempotencyHTTPResponse walk <$> h) w in
      mkStore (ttl s) (<[Key item := fresh s]> (entries s)) (<[fresh s := e]> (heap s)) (fresh s + 1) (runtimeStatus s)
  end.

Definition load (now : Z) (persisted : list nodeIdempotencyPersistedEntry) s : nodeIdempotencyStore :=
  updateRuntimeLocked (foldl (load_entry now) s persisted).

(** ** Requests *)

(** A request as the middleware sees it: still to enter, waiting for an entry, running its
    handler with an entry of its own, or done. *)
Inductive request :=
  | Entering (compound fp : string)
  | Waiting (compound fp : string) (p : Z)
  | Running (compound fp : string) (p : Z)
  | Finished.

Inductive event :=
  | Started (compound fp : string) (p now : Z)
  | Completed (compound fp : string) (p : Z) (r : reply) (now : Z)
  | Replayed (compound fp : string) (http : option HTTPResponse) (ws : option (nodeWSFrame A)) (now : Z)
  | Conflicted (compound fp : string) (now : Z)
  | Evicted (compound : string) (p : Z)
  | Closed
  | Cleared.

Record sys := mkSys { store : nodeIdempotencyStore; requests : gmap nat request; clock : Z; trace : list event }.

Inductive label :=
  | Arrive (i : nat) (scope key fp : string)
  | Turn (i : nat) (now : Z) (before inside : option ctx_err)
  | Woken (i : nat)
  | Cancel (i : nat)
  | TimedOut (i : nat)
  | Finish (i : nat) (now : Z) (r : reply)
  | DoClose
  | DoReset.

Definition compound_key (scope key : string) : string := scope +:+ String (ascii_of_nat 0) (TrimSpace key).

(** A blank scope or key is not guarded: the handler runs without an entry. *)
Definition step (x : sys) (l : label) : option sys :=
  let set i r := <[i := r]> (requests x) in
  match l with
  | Arrive i scope key fp =>
      if decide (requests x !! i = None) then
        let r := if bool_decide (TrimSpace scope = "") || bool_decide (TrimSpace key = "") then Finished
                 else Entering (compound_key scope key) fp in
        Some (mkSys (store x) (set i r) (clock x) (trace x))
      else None
  | Turn i now before inside =>
      match requests x !! i with
      | Some (Entering k f) =>
          if now <? clock x then None
          else
            let '(t, s) := acquire_turn now before inside k f (store x) in
            match t with
            | Refused _ => Some (mkSys s (set i Finished) now (trace x))
            | Conflict => Some (mkSys s (set i Finished) now (trace x ++ [Conflicted k f now]))
            | Replay h w => Some (mkSys s (set i Finished) now (trace x ++ [Replayed k f h w now]))
            | Wait p => Some (mkSys s (set i (Waiting k f p)) now (trace x))
            | Start p => Some (mkSys s (set i (Running k f p)) now (trace x ++ [Started k f p now]))
            end
      | _ => None
      end
  | Woken i =>
      match requests x !! i with
      | Some (Waiting k f p) =>
          if decide ((ready <$> heap (store x) !! p) = Some false) then Some (mkSys (store x) (set i (Entering k f)) (clock x) (trace x)) else None
      | _ => None
      end
  | Cancel i =>
      match requests x !! i with
      | Some (Waiting _ _ _) => Some (mkSys (store x) (set i Finished) (clock x) (trace x))
      | _ => None
      end
  | TimedOut i =>
      match requests x !! i with
      | Some (Waiting k f p) =>
          Some (mkSys (expireInflightEntry k p (store x)) (set i (Entering k f)) (clock x) (trace x ++ [Evicted k p]))
      | _ => None
      end
  | Finish i now r =>
      match requests x !! i with
      | Some (Running k f p) =>
          if now <? clock x then None
          else Some (mkSys (complete now k p r (store x)) (set i Finished) now (trace x ++ [Completed k f p r now]))
      | _ => None
      end
  | DoClose => Some (mkSys (Close (store x)) (requests x) (clock x) (trace x ++ [Closed]))
  | DoReset => Some (mkSys (Reset (store x)) (requests x) (clock x) (trace x ++ [Cleared]))
  end.

Fixpoint run (x : sys) (ls : list label) : option sys :=
  match ls with [] => Some x | l :: ls => step x l ≫= fun x => run x ls end.

Definition init (ttl start : Z) : sys := mkSys (newNodeIdempotencyStore ttl) ∅ start [].

(** ** The contract of a key *)

(** No request, a request in flight with its entry, or an answer kept until an instant. *)
Inductive fate := Free | InFlight (p : Z) (fp : string) | Kept (fp : string) (r : reply) (until : Z).

Definition advance (ttl : Z) (k : string) (x : fate) (e : event) : fate :=
  match e with
  | Started k' f p _ => if decide (k' = k) then InFlight p f else x
  | Completed k' f p r now =>
      if decide (k' = k) then
        match x with
        | InFlight p' _ => if decide (p' = p) then if cacheable r then Kept f (clone r) (now + ttl) else Free else x
        | _ => x
        end
      else x
  | Evicted k' p => if decide (k' = k) then match x with InFlight p' _ => if decide (p' = p) then Free else x | _ => x end else x
  | Closed => match x with InFlight _ _ => Free | _ => x end
  | Cleared => Free
  | _ => x
  end.
Definition fate_of (ttl : Z) (k : string) (tr : list event) : fate := foldl (advance ttl k) Free tr.

(** The parts of an answer that an entry has. *)
Definition parts (r : reply) : option HTTPResponse * option (nodeWSFrame A) :=
  match r with HTTP r => (Some r, None) | WS r => (None, Some r) end.

(** A handler starts when no request with the key is in flight and no answer is kept; an
    answer is replayed to the same request while it is kept; another request is refused. *)
Definition allowed (ttl : Z) (before : list event) (e : event) : Prop :=
  match e with
  | Started k f p now =>
      match fate_of ttl k before with Free => True | InFlight _ _ => False | Kept _ _ until => until < now end
  | Replayed k f h w now => exists r until, fate_of ttl k before = Kept f r until /\ now <= until /\ (h, w) = parts r
  | Conflicted k f now =>
      match fate_of ttl k before with
      | Free => False
      | InFlight _ f' => f' <> f
      | Kept f' _ until => f' <> f /\ now <= until
      end
  | _ => True
  end.

Definition conforms (ttl : Z) (tr : list event) : Prop := forall l1 e l2, tr = l1 ++ e :: l2 -> allowed ttl l1 e.

(** ** Copies *)

Definition tidy (h : HTTPHeader) : Prop := forall k v, h !! k = Some v -> TrimSpace k = k /\ k <> "" /\ v <> [].

Lemma fold_tidy l h : tidy h -> tidy (foldl (fun normalized '(key, values) =>
  let key := TrimSpace key in
  if bool_decide (key = "") || bool_decide (values = []) then normalized else <[key := values]> normalized) h l).
Proof.
  revert h. induction l as [|[k v] l IH]; intros h Hh; [done|]. cbn [foldl]. apply IH. cbv zeta. destruct (_ || _) eqn:E; [done|].
  apply orb_false_iff in E as [E1%bool_decide_eq_false E2%bool_decide_eq_false]. intros k' v'.
  destruct (decide (k' = TrimSpace k)) as [->|]; [rewrite lookup_insert_eq; intros [= <-]|rewrite lookup_insert_ne by done; apply Hh].
  split; [apply TrimSpace_idem|done].
Qed.

Lemma fold_insert_tidy (l : list (string * list string)) (h : HTTPHeader) :
  Forall (fun '(k, v) => TrimSpace k = k /\ k <> "" /\ v <> []) l ->
  foldl (fun normalized '(key, values) =>
    let key := TrimSpace key in
    if bool_decide (key = "") || bool_decide (values = []) then normalized else <[key := values]> normalized) h l =
  foldl (fun m '(k, v) => <[k := v]> m) h l.
Proof.
  intros Hl. revert h. induction Hl as [|[k v] l (Hk & Hne & Hv) _ IH]; intros h; [done|]. cbn [foldl]. cbv zeta.
  rewrite Hk, (bool_decide_false (k = "")), (bool_decide_false (v = [])) by done. apply IH.
Qed.

Lemma foldl_insert_perm (l : list (string * list string)) (m : HTTPHeader) :
  NoDup l.*1 -> foldl (fun m '(k, v) => <[k := v]> m) m l = list_to_map l ∪ m.
Proof.
  revert m. induction l as [|[k v] l IH]; intros m Hnd; cbn; [by rewrite map_empty_union|].
  apply NoDup_cons in Hnd as [Hk Hnd]. rewrite IH by done. cbn in Hk.
  pose proof (not_elem_of_list_to_map_1 (M := gmap string) _ _ Hk) as Hk'.
  apply map_eq. intros j. rewrite lookup_union. destruct (decide (j = k)) as [->|Hj].
  - rewrite Hk', !lookup_insert_eq. rewrite lookup_union, lookup_insert_eq. by destruct (m !! k).
  - rewrite lookup_insert_ne by done. rewrite lookup_union, lookup_insert_ne by done. done.
Qed.

Lemma header_tidy h : is_order walk -> tidy h -> normalizeNodeIdempotencyHTTPHeader walk h = h.
Proof.
  intros Hw Hh. unfold normalizeNodeIdempotencyHTTPHeader. specialize (Hw h). rewrite fold_insert_tidy.
  - rewrite foldl_insert_perm by (rewrite Hw; apply NoDup_fst_map_to_list). rewrite map_union_empty.
    rewrite (list_to_map_proper _ (map_to_list h)) by (done || (rewrite Hw; apply NoDup_fst_map_to_list)). apply list_to_map_to_list.
  - rewrite Hw. apply Forall_forall. intros [k v] Hkv. apply elem_of_map_to_list in Hkv. by apply Hh.
Qed.

Lemma clone_again r : is_order walk -> clone (clone r) = clone r.
Proof.
  intros Hw. destruct r as [r|r]; [|done]. cbn. unfold cloneNodeIdempotencyHTTPResponse. cbn. do 2 f_equal.
  apply header_tidy; [done|]. apply fold_tidy. by intros k v.
Qed.

(** ** The store keeps the contract *)

Definition kept_entry (f : string) (r : reply) (until : Z) : nodeIdempotencyEntry :=
  mkEntry f (Some until) false (parts r).1 (parts r).2.

Definition key_ok (c : Z) s (k : string) (x : fate) : Prop :=
  match x with
  | Free => entries s !! k = None
  | InFlight p f => entries s !! k = Some p /\ heap s !! p = Some (mkEntry f None true None None)
  | Kept f r until =>
      clone r = r /\
      ((exists p, entries s !! k = Some p /\ heap s !! p = Some (kept_entry f r until)) \/ entries s !! k = None /\ until < c)
  end.

Record inv (t0 : Z) (c : Z) s (R : gmap nat request) (F : string -> fate) : Prop := {
  inv_ttl : TTL s = t0;
  inv_keys : forall k, key_ok c s k (F k);
  inv_inj : forall k k' p, entries s !! k = Some p -> entries s !! k' = Some p -> k = k';
  inv_fresh : forall p, is_Some (heap s !! p) -> p < fresh s;
  inv_run : forall i k f p, R !! i = Some (Running k f p) ->
    is_Some (heap s !! p) /\ (forall k', entries s !! k' = Some p -> F k' = InFlight p f /\ k' = k);
  inv_one : forall i j k f k' f' p, R !! i = Some (Running k f p) -> R !! j = Some (Running k' f' p) -> i = j
}.

Lemma same_store_ok c s s' k x : entries s' = entries s -> heap s' = heap s -> key_ok c s k x -> key_ok c s' k x.
Proof. intros E1 E2. unfold key_ok. by rewrite E1, E2. Qed.

Lemma later_ok c c' s k x : c <= c' -> key_ok c s k x -> key_ok c' s k x.
Proof. intros Hc. destruct x as [| |f r until]; cbn; [done|done|]. intros [? [?|[? ?]]]; split; [done|by left|done|right; split; [done|lia]]. Qed.

(** What the runtime counters do to the rest of the store. *)
Lemma update_parts s :
  entries (updateRuntimeLocked s) = entries s /\ heap (updateRuntimeLocked s) = heap s /\
  fresh (updateRuntimeLocked s) = fresh s /\ ttl (updateRuntimeLocked s) = ttl s.
Proof. done. Qed.

Lemma inv_requests t0 c s R R' F :
  inv t0 c s R F -> (forall i k f p, R' !! i = Some (Running k f p) -> R !! i = Some (Running k f p)) -> inv t0 c s R' F.
Proof. intros [H1 H2 H3 H4 H5 H6] HR. split; [done|done|done|done| |]; intros; eauto. Qed.

Lemma not_running (i : nat) r (R : gmap nat request) :
  (forall k f p, r <> Running k f p) -> forall j k f p, <[i := r]> R !! j = Some (Running k f p) -> R !! j = Some (Running k f p).
Proof.
  intros Hr j k f p. destruct (decide (j = i)) as [->|]; [rewrite lookup_insert_eq; intros [= ->]; by destruct (Hr k f p)|].
  by rewrite lookup_insert_ne.
Qed.

Lemma gc_entries now s : entries (gcLocked now s).2 = filter (fun '(_, p) => (expired now <$> heap s !! p) = Some false) (entries s) /\
  heap (gcLocked now s).2 = heap s /\ fresh (gcLocked now s).2 = fresh s /\ ttl (gcLocked now s).2 = ttl s.
Proof. unfold gcLocked. destruct (bool_decide _) eqn:E; [apply bool_decide_eq_true in E; by rewrite E|done]. Qed.

Lemma gc_inv t0 c now s R F :
  inv t0 c s R F -> c <= now ->
  inv t0 now (gcLocked now s).2 R F /\
  forall k f r until, F k = Kept f r until -> match entries (gcLocked now s).2 !! k with Some _ => now <= until | None => until < now end.
Proof.
  intros [H1 H2 H3 H4 H5 H6] Hc. destruct (gc_entries now s) as (E1 & E2 & E3 & E4).
  set (s' := (gcLocked now s).2) in *. assert (Hin : forall k p, entries s' !! k = Some p -> entries s !! k = Some p).
  { intros k p. rewrite E1. intros [? _]%map_lookup_filter_Some. done. }
  assert (Hk : forall k, key_ok now s' k (F k) /\ match F k with Kept _ _ until =>
    match entries s' !! k with Some _ => now <= until | None => until < now end | _ => True end).
  { intros k. specialize (H2 k). destruct (F k) as [|p f|f r until]; cbn in *; rewrite ?E1, ?E2.
    - split; [|done]. apply map_lookup_filter_None. by left.
    - destruct H2 as [Hp He]. split; [|done]. split; [|done]. apply map_lookup_filter_Some. split; [done|]. by rewrite He.
    - destruct H2 as [Hr [(p & Hp & He)|[Hn Hu]]].
      + destruct (until <? now) eqn:Hu; zbool.
        * assert (Hf : filter (fun '(_, p) => (expired now <$> heap s !! p) = Some false) (entries s) !! k = None).
          { apply map_lookup_filter_None. right. intros q Hq. rewrite Hp in Hq. injection Hq as <-. rewrite He. cbn. unfold expired. cbn.
            replace (until <? now) with true by lia. done. }
          rewrite Hf. split; [|done]. split; [done|by right].
        * assert (Hf : filter (fun '(_, p) => (expired now <$> heap s !! p) = Some false) (entries s) !! k = Some p).
          { apply map_lookup_filter_Some. split; [done|]. rewrite He. cbn. unfold expired. cbn. by replace (until <? now) with false by lia. }
          rewrite Hf. split; [|done]. split; [done|]. left. by eauto.
      + assert (Hf : filter (fun '(_, p) => (expired now <$> heap s !! p) = Some false) (entries s) !! k = None) by (apply map_lookup_filter_None; by left).
        rewrite Hf. split; [|lia]. split; [done|right; split; [done|lia]]. }
  split.
  - split; [unfold TTL in *; by rewrite E4| | | | |done].
    + intros k. apply Hk.
    + intros k k' p ?%Hin ?%Hin. by eapply H3.
    + intros p. rewrite E2, E3. apply H4.
    + intros i k f p Hi. destruct (H5 i k f p Hi) as [Hh He]. rewrite E2. split; [done|]. intros k' ?%Hin. by apply He.
  - intros k f r until EF. destruct (Hk k) as [_ H]. by rewrite EF in H.
Qed.

Lemma key_of_pointer t0 c s R F k p :
  inv t0 c s R F -> entries s !! k = Some p ->
  (exists f, F k = InFlight p f /\ heap s !! p = Some (mkEntry f None true None None)) \/
  (exists f r until, F k = Kept f r until /\ clone r = r /\ heap s !! p = Some (kept_entry f r until)).
Proof.
  intros Hinv Hp. pose proof (inv_keys _ _ _ _ _ Hinv k) as H. destruct (F k) as [|q f|f r until]; cbn in H.
  - by rewrite Hp in H.
  - destruct H as [Hq He]. rewrite Hp in Hq. injection Hq as <-. left. by eauto.
  - destruct H as [Hr [(q & Hq & He)|[Hn _]]]; [|by rewrite Hp in Hn]. rewrite Hp in Hq. injection Hq as <-. right. by eauto 6.
Qed.

(** Changing one entry that the map holds under a key leaves the other keys alone. *)
Lemma other_key c s k p e x k' m :
  (forall j q, entries s !! j = Some q -> entries s !! k = Some q -> j = k) ->
  entries s !! k = Some p -> k' <> k -> m !! k' = entries s !! k' ->
  key_ok c s k' x -> key_ok c (with_entries s m (<[p := e]> (heap s))) k' x.
Proof.
  intros Hinj Hp Hk Hm. assert (Hne : forall q, entries s !! k' = Some q -> q <> p).
  { intros q Hq ->. by apply Hk, (Hinj k' p). }
  destruct x as [|q f|f r until]; cbn; rewrite Hm; [done| |].
  - intros [Hq He]. split; [done|]. rewrite lookup_insert_ne; [done|]. by apply not_eq_sym, Hne.
  - intros [Hr [(q & Hq & He)|H]]; split; [done| |done|by right]. left. exists q. split; [done|].
    rewrite lookup_insert_ne; [done|]. by apply not_eq_sym, Hne.
Qed.

(** A step that sets one entry and maybe takes its key out of the map. *)
Lemma set_entry_inv t0 c s R F k p e m x :
  inv t0 c s R F -> entries s !! k = Some p ->
  (forall j q, m !! j = Some q -> entries s !! j = Some q) -> (forall j, j <> k -> m !! j = entries s !! j) ->
  key_ok c (with_entries s m (<[p := e]> (heap s))) k x ->
  (m !! k = Some p -> forall i k' f, R !! i <> Some (Running k' f p)) ->
  inv t0 c (with_entries s m (<[p := e]> (heap s))) R (fun j => if decide (j = k) then x else F j).
Proof.
  intros Hinv Hp Hm Hsame Hk Hrun. pose proof Hinv as [H1 H2 H3 H4 H5 H6].
  assert (Hheap : forall q, is_Some (<[p := e]> (heap s) !! q) <-> is_Some (heap s !! q)).
  { intros q. destruct (decide (q = p)) as [->|]; [|by rewrite lookup_insert_ne].
    rewrite lookup_insert_eq. destruct (key_of_pointer _ _ _ _ _ _ _ Hinv Hp) as [(f & _ & ->)|(f & r & u & _ & _ & ->)]; naive_solver. }
  split; [done| | | | |done].
  - intros j. destruct (decide (j = k)) as [->|Hj]; [done|]. eapply other_key; [|done|done|by apply Hsame|apply H2].
    intros j' q Hj' Hq. by eapply H3.
  - intros j j' q ?%Hm ?%Hm. by eapply H3.
  - intros q Hq. apply H4. by apply Hheap.
  - intros i k0 f q Hi. destruct (H5 i k0 f q Hi) as [Hq He]. cbn. split; [by apply Hheap|]. intros k' Hk'.
    destruct (He k') as [HF ->]; [by apply Hm|]. destruct (decide (k0 = k)) as [->|]; [|done].
    assert (q = p) as -> by (apply Hm in Hk'; congruence). by destruct (Hrun Hk' i k f).
Qed.

Lemma inv_ext t0 c s R F F' : (forall k, F' k = F k) -> inv t0 c s R F -> inv t0 c s R F'.
Proof.
  intros HF [H1 H2 H3 H4 H5 H6]. split; [done| |done|done| |done].
  - intros k. rewrite HF. apply H2.
  - intros i k f p Hi. destruct (H5 i k f p Hi) as [? H]. split; [done|]. intros k' Hk'. rewrite HF. by apply H.
Qed.

Lemma inv_status t0 c s s' R F :
  ttl s' = ttl s -> entries s' = entries s -> heap s' = heap s -> fresh s' = fresh s -> inv t0 c s R F -> inv t0 c s' R F.
Proof.
  intros E1 E2 E3 E4 [H1 H2 H3 H4 H5 H6]. split.
  - unfold TTL in *. by rewrite E1.
  - intros k. eapply same_store_ok; [done|done|apply H2].
  - by rewrite E2.
  - by rewrite E3, E4.
  - by rewrite E2, E3.
  - done.
Qed.

Lemma evict_inv t0 c s R F k f p i :
  inv t0 c s R F -> R !! i = Some (Waiting k f p) ->
  inv t0 c (expireInflightEntry k p s) (<[i := Entering k f]> R) (fun j => advance t0 j (F j) (Evicted k p)).
Proof.
  intros Hinv Hi. apply (inv_requests _ _ _ R); [|by apply not_running]. unfold expireInflightEntry.
  destruct (decide (entries s !! k = Some p)) as [Hp|Hp].
  - destruct (key_of_pointer _ _ _ _ _ _ _ Hinv Hp) as [(f' & HF & He)|(f' & r & u & HF & Hr & He)]; rewrite He; cbn [ready negb kept_entry].
    + eapply inv_ext; [|eapply inv_status; [..|eapply (set_entry_inv _ _ _ _ _ k p _ (delete k (entries s)) Free)]]; try done.
      * intros j. cbn. destruct (decide (k = j)) as [<-|]; [|by rewrite decide_False by done].
        rewrite HF, !decide_True by done. done.
      * intros j q. by intros [_ ?]%lookup_delete_Some.
      * intros j Hj. by rewrite lookup_delete_ne.
      * cbn. by rewrite lookup_delete_eq.
      * by rewrite lookup_delete_eq.
    + eapply inv_ext; [|done]. intros j. cbn. destruct (decide (k = j)) as [<-|]; [|done]. by rewrite HF.
  - eapply inv_ext; [|done]. intros j. cbn. destruct (decide (k = j)) as [<-|]; [|done].
    pose proof (inv_keys _ _ _ _ _ Hinv k) as Hk. destruct (F k) as [|q f'|]; [done| |done]. cbn in Hk.
    rewrite decide_False; [done|]. intros ->. by destruct Hk.
Qed.

Lemma answer_kept f t (r : reply) :
  releaseNodeIdempotencyEntry (answer r (mkEntry f (Some t) true None None)) = kept_entry f (clone r) t.
Proof. by destruct r. Qed.

Lemma complete_inv t0 c now s R F k f p i r :
  is_order walk -> inv t0 c s R F -> c <= now -> R !! i = Some (Running k f p) ->
  inv t0 now (complete now k p r s) (<[i := Finished]> R) (fun j => advance t0 j (F j) (Completed k f p r now)).
Proof.
  intros Hw Hinv Hc Hi. assert (Hinv' : inv t0 now s (<[i := Finished]> R) F).
  { apply (inv_requests _ _ _ R); [|by apply not_running]. destruct Hinv as [H1 H2 H3 H4 H5 H6]. split; try done.
    intros j. eapply later_ok; [done|apply H2]. }
  assert (Hnone : forall j k' f', <[i := Finished]> R !! j <> Some (Running k' f' p)).
  { intros j k' f'. destruct (decide (j = i)) as [->|Hj]; [by rewrite lookup_insert_eq|]. rewrite lookup_insert_ne by done.
    intros Hj'. by apply Hj, (inv_one _ _ _ _ _ Hinv j i k' f' k f p). }
  unfold complete. destruct (decide (entries s !! k = Some p)) as [Hp|Hp].
  - destruct (inv_run _ _ _ _ _ Hinv i k f p Hi) as [_ Hrun]. destruct (Hrun k Hp) as [HF _].
    pose proof (inv_keys _ _ _ _ _ Hinv k) as Hk. rewrite HF in Hk. destruct Hk as [_ He]. rewrite He.
    destruct (cacheable r) eqn:Hr; cbn [negb].
    + eapply inv_ext; [|eapply inv_status; [..|eapply (set_entry_inv _ _ _ _ _ k p _ (entries s) (Kept f (clone r) (now + t0)))]]; try done.
      * intros j. cbn. destruct (decide (k = j)) as [<-|]; [|by rewrite decide_False by done].
        rewrite HF, !decide_True by done. by rewrite Hr.
      * rewrite (inv_ttl _ _ _ _ _ Hinv). cbn [fingerprint ready httpResp wsResp]. rewrite answer_kept. split; [by apply clone_again|].
        left. exists p. split; [done|]. cbn. by rewrite lookup_insert_eq.
    + eapply inv_ext; [|eapply inv_status; [..|eapply (set_entry_inv _ _ _ _ _ k p _ (delete k (entries s)) Free)]]; try done.
      * intros j. cbn. destruct (decide (k = j)) as [<-|]; [|by rewrite decide_False by done].
        rewrite HF, !decide_True by done. by rewrite Hr.
      * intros j q. by intros [_ ?]%lookup_delete_Some.
      * intros j Hj. by rewrite lookup_delete_ne.
      * cbn. by rewrite lookup_delete_eq.
  - eapply inv_ext; [|done]. intros j. cbn. destruct (decide (k = j)) as [<-|]; [|done].
    pose proof (inv_keys _ _ _ _ _ Hinv k) as Hk. destruct (F k) as [|q f'|]; [done| |done]. cbn in Hk.
    rewrite decide_False; [done|]. intros ->. by destruct Hk.
Qed.

Lemma start_entry_inv t0 c s R F k f i :
  inv t0 c s R F -> entries s !! k = None -> R !! i = Some (Entering k f) ->
  inv t0 c (mkStore (ttl s) (<[k := fresh s]> (entries s)) (<[fresh s := mkEntry f None true None None]> (heap s)) (fresh s + 1) (runtimeStatus s))
    (<[i := Running k f (fresh s)]> R) (fun j => if decide (j = k) then InFlight (fresh s) f else F j).
Proof.
  intros Hinv Hk Hi. pose proof Hinv as [H1 H2 H3 H4 H5 H6].
  assert (Hnew : forall q, is_Some (heap s !! q) -> q <> fresh s) by (intros q ?%H4; lia).
  assert (Hent : forall j q, entries s !! j = Some q -> q <> fresh s).
  { intros j q Hq. apply Hnew. destruct (key_of_pointer _ _ _ _ _ _ _ Hinv Hq) as [(? & _ & ->)|(? & ? & ? & _ & _ & ->)]; by eauto. }
  split; cbn; [done| | | | |].
  - intros j. destruct (decide (j = k)) as [->|Hj]; cbn; [by rewrite !lookup_insert_eq|].
    specialize (H2 j). destruct (F j) as [|q f'|f' r u]; cbn in *; rewrite lookup_insert_ne by done; [done| |].
    + destruct H2 as [Hq He]. split; [done|]. rewrite lookup_insert_ne; [done|]. apply not_eq_sym, Hnew. by eauto.
    + destruct H2 as [Hr [(q & Hq & He)|H]]; split; [done| |done|by right]. left. exists q. split; [done|].
      rewrite lookup_insert_ne; [done|]. apply not_eq_sym, Hnew. by eauto.
  - intros j j' q Hj Hj'. destruct (decide (j = k)) as [->|], (decide (j' = k)) as [->|]; try done.
    + rewrite lookup_insert_eq in Hj. rewrite lookup_insert_ne in Hj' by done. injection Hj as <-. by apply Hent in Hj'.
    + rewrite lookup_insert_eq in Hj'. rewrite lookup_insert_ne in Hj by done. injection Hj' as <-. by apply Hent in Hj.
    + rewrite lookup_insert_ne in Hj, Hj' by done. by eapply H3.
  - intros q. destruct (decide (q = fresh s)) as [->|]; [lia|]. rewrite lookup_insert_ne by done. intros ?%H4. lia.
  - intros j k0 f0 q. destruct (decide (j = i)) as [->|Hj].
    + rewrite lookup_insert_eq. intros [= <- <- <-]. rewrite lookup_insert_eq. split; [by eauto|]. intros k'.
      destruct (decide (k' = k)) as [->|]; [done|]. rewrite lookup_insert_ne by done. by intros ?%Hent.
    + rewrite lookup_insert_ne by done. intros Hj'. destruct (H5 j k0 f0 q Hj') as [Hq He].
      rewrite (lookup_insert_ne (heap s)) by (by apply not_eq_sym, Hnew). split; [done|]. intros k'.
      destruct (decide (k' = k)) as [->|]; [|rewrite lookup_insert_ne by done; apply He].
      rewrite lookup_insert_eq. intros [= <-]. by apply Hnew in Hq.
  - intros j j' k1 f1 k2 f2 q Hj Hj'.
    assert (Hold : forall x kx fx, x <> i -> <[i := Running k f (fresh s)]> R !! x = Some (Running kx fx q) -> q <> fresh s).
    { intros x kx fx Hx. rewrite lookup_insert_ne by done. intros Hx'. apply Hnew. by destruct (H5 x kx fx q Hx'). }
    destruct (decide (j = i)) as [->|], (decide (j' = i)) as [->|]; try done.
    + apply Hold in Hj' as Hq; [|done]. rewrite lookup_insert_eq in Hj. congruence.
    + apply Hold in Hj as Hq; [|done]. rewrite lookup_insert_eq in Hj'. congruence.
    + rewrite lookup_insert_ne in Hj, Hj' by done. by eapply H6.
Qed.

Lemma release_lookup s p e : heap s !! p = Some e -> release_all s !! p = Some e \/ release_all s !! p = Some (releaseNodeIdempotencyEntry e).
Proof. intros E. unfold release_all. rewrite map_lookup_imap, E. cbn. destruct (decide _); by auto. Qed.

Lemma release_dom s p : is_Some (release_all s !! p) <-> is_Some (heap s !! p).
Proof. unfold release_all. rewrite map_lookup_imap. destruct (heap s !! p); cbn; naive_solver. Qed.

Lemma close_inv t0 c s R F : inv t0 c s R F -> inv t0 c (Close s) R (fun j => advance t0 j (F j) Closed).
Proof.
  intros Hinv. pose proof Hinv as [H1 H2 H3 H4 H5 H6]. unfold Close.
  set (keep := filter (fun '(_, p) => (ready <$> heap s !! p) = Some false) (entries s)).
  assert (Hin : forall k p, keep !! k = Some p -> entries s !! k = Some p /\ (ready <$> heap s !! p) = Some false).
  { intros k p. by intros ?%map_lookup_filter_Some. }
  assert (Hfly : forall k p f, F k = InFlight p f -> keep !! k = None).
  { intros k p f HF. specialize (H2 k). rewrite HF in H2. destruct H2 as [Hp He]. apply map_lookup_filter_None. right.
    intros q Hq. rewrite Hp in Hq. injection Hq as <-. by rewrite He. }
  destruct (bool_decide (keep = entries s)) eqn:E.
  - apply bool_decide_eq_true in E. eapply inv_ext; [|done]. intros j. cbn. destruct (F j) as [|p f|] eqn:HF; [done| |done].
    specialize (H2 j). rewrite HF in H2. destruct H2 as [Hp _]. rewrite <- E in Hp. by rewrite (Hfly j p f HF) in Hp.
  - apply (inv_status t0 c (with_entries s keep (release_all s))); [done..|]. split; [done| | | | |done].
    + intros k. specialize (H2 k).
      destruct (F k) as [|p f|f r u] eqn:HF; cbn in *.
      * apply map_lookup_filter_None. by left.
      * by eapply Hfly.
      * destruct H2 as [Hr [(p & Hp & He)|[Hn Hu]]]; split; [done| |done|].
        -- left. exists p. split; [apply map_lookup_filter_Some; split; [done|]; by rewrite He|].
           by destruct (release_lookup s p _ He) as [->| ->].
        -- right. split; [|done]. apply map_lookup_filter_None. by left.
    + cbn. intros k k' p [? _]%Hin [? _]%Hin. by eapply H3.
    + cbn. intros p. rewrite release_dom. apply H4.
    + cbn. intros i k f p Hi. destruct (H5 i k f p Hi) as [Hp He]. rewrite release_dom. split; [done|].
      intros k' [Hk' Hr]%Hin. destruct (He k' Hk') as [HF _]. specialize (H2 k'). rewrite HF in H2. destruct H2 as [_ H2]. by rewrite H2 in Hr.
Qed.

Lemma reset_inv t0 c s R F : inv t0 c s R F -> inv t0 c (Reset s) R (fun _ => Free).
Proof.
  intros [H1 H2 H3 H4 H5 H6]. split; cbn; [done|done|by intros k k' p|intros p; rewrite release_dom; apply H4| |done].
  intros i k f p Hi. rewrite release_dom. split; [by destruct (H5 i k f p Hi)|]. by intros k'.
Qed.

Lemma fate_snoc t k tr e : fate_of t k (tr ++ [e]) = advance t k (fate_of t k tr) e.
Proof. unfold fate_of. by rewrite foldl_app. Qed.

Lemma conforms_snoc t tr e : conforms t tr -> allowed t tr e -> conforms t (tr ++ [e]).
Proof.
  intros Hc He l1 e' l2 E. destruct l2 as [|y l2] using rev_ind.
  - apply app_inj_tail in E as [-> ->]. done.
  - rewrite app_comm_cons, app_assoc in E. apply app_inj_tail in E as [E _]. by eapply Hc.
Qed.

Definition good (t0 : Z) (x : sys) : Prop :=
  inv t0 (clock x) (store x) (requests x) (fun k => fate_of t0 k (trace x)) /\ conforms t0 (trace x).

(** An event that concerns no fate and is allowed. *)
Lemma quiet_event t0 x s R c e :
  good t0 x -> inv t0 c s R (fun k => fate_of t0 k (trace x)) -> (forall k y, advance t0 k y e = y) -> allowed t0 (trace x) e ->
  good t0 (mkSys s R c (trace x ++ [e])).
Proof.
  intros [_ Hc] Hinv Hq Ha. split; [|by apply conforms_snoc]. eapply inv_ext; [|done]. intros k. cbn [trace]. by rewrite fate_snoc, Hq.
Qed.

Lemma turn_good t0 x i now before inside x' :
  is_order walk -> good t0 x -> step x (Turn i now before inside) = Some x' -> good t0 x'.
Proof.
  intros Hw [Hinv Hc]. cbn [step]. destruct (requests x !! i) as [[k f| | |]|] eqn:Hi; try done.
  destruct (now <? clock x) eqn:Hnow; [done|]. zbool. unfold acquire_turn.
  assert (Hany : forall r, (forall a b c, r <> Running a b c) -> forall s, inv t0 now s (requests x) (fun k => fate_of t0 k (trace x)) ->
    inv t0 now s (<[i := r]> (requests x)) (fun k => fate_of t0 k (trace x))).
  { intros r Hr s' Hs. apply (inv_requests _ _ _ (requests x)); [done|by apply not_running]. }
  destruct before as [err|].
  { intros [= <-]. split; [|done]. apply Hany; [done|]. destruct Hinv as [H1 H2 H3 H4 H5 H6]. split; try done.
    intros j. eapply later_ok; [done|apply H2]. }
  destruct (gc_inv t0 (clock x) now _ _ _ Hinv Hnow) as [Hgc Hkept]. destruct (gcLocked now (store x)) as [changed s]. cbn [snd] in *.
  destruct (entries s !! k) as [p|] eqn:Hp.
  - destruct (key_of_pointer _ _ _ _ _ _ _ Hgc Hp) as [(f' & HF & He)|(f' & r & u & HF & Hr & He)]; rewrite He; cbn [fingerprint ready kept_entry negb].
    + destruct (bool_decide (f' = f)) eqn:Hf; cbn [negb]; intros [= <-].
      * split; [by apply Hany|done].
      * apply bool_decide_eq_false in Hf. apply (quiet_event t0 x); [by split| |done|cbn; by rewrite HF].
        apply Hany; [done|]. by eapply inv_status; [..|done].
    + pose proof (Hkept k f' r u HF) as Hu. rewrite Hp in Hu. destruct (bool_decide (f' = f)) eqn:Hf; cbn [negb]; intros [= <-].
      * apply bool_decide_eq_true in Hf as ->. apply (quiet_event t0 x); [by split| |done|].
        -- apply Hany; [done|]. by eapply inv_status; [..|done].
        -- exists r, u. split; [done|]. split; [done|]. destruct r as [r|r]; cbn in *; [|done]. injection Hr as Hr. by rewrite Hr.
      * apply bool_decide_eq_false in Hf. apply (quiet_event t0 x); [by split| |done|cbn; by rewrite HF].
        apply Hany; [done|]. by eapply inv_status; [..|done].
  - destruct inside as [err|]; intros [= <-]; [split; [by apply Hany|done]|]. split; cbn [clock store requests trace].
    + eapply inv_ext; [|eapply inv_status; [..|by apply start_entry_inv]]; try done. intros j. rewrite fate_snoc. cbn.
      destruct (decide (k = j)) as [<-|]; [by rewrite decide_True|]. by rewrite decide_False.
    + apply conforms_snoc; [done|]. cbn. pose proof (inv_keys _ _ _ _ _ Hgc k) as Hk. cbn in Hk.
      destruct (fate_of t0 k (trace x)) as [|q f'|f' r u] eqn:HF; cbn in Hk; [done|destruct Hk; congruence|].
      specialize (Hkept k f' r u HF). by rewrite Hp in Hkept.
Qed.

Lemma step_good t0 x l x' : is_order walk -> good t0 x -> step x l = Some x' -> good t0 x'.
Proof.
  intros Hw Hgood. pose proof Hgood as [Hinv Hc]. destruct l as [i scope key f|i now before inside|i|i|i|i now r| |].
  - cbn. destruct (decide _); [|done]. intros [= <-]. split; [|done]. apply (inv_requests _ _ _ (requests x)); [done|].
    apply not_running. by destruct (_ || _).
  - by apply turn_good.
  - cbn. destruct (requests x !! i) as [[| k f p| |]|] eqn:Hi; try done. destruct (decide _); [|done]. intros [= <-].
    split; [|done]. apply (inv_requests _ _ _ (requests x)); [done|by apply not_running].
  - cbn. destruct (requests x !! i) as [[| k f p| |]|] eqn:Hi; try done. intros [= <-].
    split; [|done]. apply (inv_requests _ _ _ (requests x)); [done|by apply not_running].
  - cbn. destruct (requests x !! i) as [[| k f p| |]|] eqn:Hi; try done. intros [= <-].
    split; [|by apply conforms_snoc]. eapply inv_ext; [|by eapply evict_inv]. intros j. cbn [trace]. by rewrite fate_snoc.
  - cbn. destruct (requests x !! i) as [[| | k f p|]|] eqn:Hi; try done. destruct (now <? clock x) eqn:Hn; [done|]. zbool. intros [= <-].
    split; [|by apply conforms_snoc]. eapply inv_ext; [|by eapply complete_inv]. intros j. cbn [trace]. by rewrite fate_snoc.
  - intros [= <-]. split; [|by apply conforms_snoc]. eapply inv_ext; [|by eapply close_inv]. intros j. cbn [trace]. by rewrite fate_snoc.
  - intros [= <-]. split; [|by apply conforms_snoc]. eapply inv_ext; [|by eapply reset_inv]. intros j. cbn [trace]. by rewrite fate_snoc.
Qed.

Lemma run_good t0 ls x x' : is_order walk -> good t0 x -> run x ls = Some x' -> good t0 x'.
Proof.
  intros Hw. revert x. induction ls as [|l ls IH]; intros x Hx; [by intros [= <-]|]. cbn [run].
  destruct (step x l) as [y|] eqn:E; [|done]. cbn. apply IH. by eapply step_good.
Qed.

Lemma init_good ttl0 start : 0 < ttl0 -> good ttl0 (init ttl0 start).
Proof.
  intros Ht. split; [|by intros [|] ? ?]. unfold init, newNodeIdempotencyStore. replace (ttl0 <=? 0) with false by lia.
  split; cbn; [|done|by intros k k' p|by intros p []|by intros i k f p|by intros i j k f k' f' p].
  unfold TTL. cbn. by replace (ttl0 <=? 0) with false by lia.
Qed.

(** ** Restart *)

Definition wf_store s : Prop := (forall k p, entries s !! k = Some p -> p < fresh s) /\ forall p, is_Some (heap s !! p) -> p < fresh s.

(** The entry made of a persisted item, if it is one to load. *)
Definition loaded (now : Z) (item : nodeIdempotencyPersistedEntry) : option nodeIdempotencyEntry :=
  if bool_decide (TrimSpace (Key item) = "") || bool_decide (TrimSpace (Fingerprint item) = "") || (ExpiresAt item <=? Unix now) then None
  else match HTTPResp item, WSResp item with
  | None, None => None
  | h, w => Some (mkEntry (Fingerprint item) (Some (ExpiresAt item * second)) false (cloneNodeIdempotencyHTTPResponse walk <$> h) w)
  end.

Lemma load_one now item s :
  wf_store s -> wf_store (load_entry now s item) /\
  forall k, entry_of (load_entry now s item) k = if decide (Key item = k) then match loaded now item with Some e => Some e | None => entry_of s k end else entry_of s k.
Proof.
  intros [H1 H2]. unfold load_entry, loaded. destruct (_ || _); [split; [done|]; intros k; by destruct (decide _)|].
  assert (Hins : forall e, wf_store (mkStore (ttl s) (<[Key item := fresh s]> (entries s)) (<[fresh s := e]> (heap s)) (fresh s + 1) (runtimeStatus s)) /\
    forall k, entry_of (mkStore (ttl s) (<[Key item := fresh s]> (entries s)) (<[fresh s := e]> (heap s)) (fresh s + 1) (runtimeStatus s)) k =
      if decide (Key item = k) then Some e else entry_of s k).
  { intros e. split; [split; cbn|].
    - intros k p. destruct (decide (k = Key item)) as [->|]; [rewrite lookup_insert_eq; intros [= <-]; lia|].
      rewrite lookup_insert_ne by done. intros ?%H1. lia.
    - intros p. destruct (decide (p = fresh s)) as [->|]; [lia|]. rewrite lookup_insert_ne by done. intros ?%H2. lia.
    - intros k. unfold entry_of. cbn. destruct (decide (Key item = k)) as [<-|]; [rewrite lookup_insert_eq; cbn; by rewrite lookup_insert_eq|].
      rewrite (lookup_insert_ne (entries s)) by done. destruct (entries s !! k) as [p|] eqn:Hp; [|done]. cbn.
      rewrite lookup_insert_ne; [done|]. apply H1 in Hp. lia. }
  destruct (HTTPResp item), (WSResp item); try apply Hins. split; [done|]. intros k. by destruct (decide _).
Qed.

Lemma load_all now l s :
  wf_store s -> forall k, entry_of (foldl (load_entry now) s l) k =
    match list_find (fun it => Key it = k /\ is_Some (loaded now it)) (reverse l) with
    | Some (_, it) => loaded now it
    | None => entry_of s k
    end.
Proof.
  intros Hs k. enough (H : wf_store (foldl (load_entry now) s l) /\ entry_of (foldl (load_entry now) s l) k =
    match list_find (fun it => Key it = k /\ is_Some (loaded now it)) (reverse l) with Some (_, it) => loaded now it | None => entry_of s k end) by apply H.
  induction l as [|it l IH] using rev_ind; [done|]. rewrite foldl_app, reverse_app. cbn [foldl].
  destruct IH as [Hwf IH]. destruct (load_one now it _ Hwf) as [Hwf' H]. split; [done|]. rewrite H, IH. cbn.
  destruct (decide (Key it = k)) as [Hk|Hk].
  - destruct (loaded now it) as [e|] eqn:He.
    + rewrite decide_True by eauto. by rewrite He.
    + rewrite decide_False by (intros [_ []]; done). by destruct (list_find _ (reverse l)) as [[]|].
  - rewrite decide_False by naive_solver. by destruct (list_find _ (reverse l)) as [[]|].
Qed.

Lemma snapshot_elem now s it :
  it ∈ snapshotPersistedEntries now s <-> exists e, entry_of s (Key it) = Some e /\ persisted_entry now (Key it) e = Some it.
Proof.
  unfold snapshotPersistedEntries. rewrite (merge_sort_Permutation key_le). rewrite list_elem_of_omap.
  assert (Hkey : forall k e it, persisted_entry now k e = Some it -> Key it = k).
  { intros k e it'. unfold persisted_entry. destruct (expiresAt e); [|done]. destruct (_ || _); [done|].
    destruct (httpResp e), (wsResp e); by intros [= <-] || done. }
  unfold entry_of. split.
  - intros ([k p] & Hkp%elem_of_map_to_list & Hit). destruct (heap s !! p) as [e|] eqn:He; [|done]. cbn in Hit.
    pose proof (Hkey _ _ _ Hit) as <-. exists e. rewrite Hkp. by cbn.
  - intros (e & He & Hit). destruct (entries s !! Key it) as [p|] eqn:Hp; [|done]. cbn in He. exists (Key it, p).
    split; [by apply elem_of_map_to_list|]. by rewrite He.
Qed.

Lemma restart_entry now now' s ttl0 k e t :
  entry_of s k = Some e -> expiresAt e = Some t -> ready e = false -> now <= t -> Unix now' < Unix t ->
  TrimSpace k <> "" -> TrimSpace (fingerprint e) <> "" -> (httpResp e, wsResp e) <> (None, None) ->
  entry_of (load now' (snapshotPersistedEntries now s) (newNodeIdempotencyStore ttl0)) k =
  Some (mkEntry (fingerprint e) (Some (Unix t * second)) false
    (cloneNodeIdempotencyHTTPResponse walk ∘ cloneNodeIdempotencyHTTPResponse walk <$> httpResp e) (wsResp e)).
Proof.
  intros He Ht Hr Hnow Hu Hk Hf Hresp.
  set (it := mkPersisted k (fingerprint e) (Unix t) (cloneNodeIdempotencyHTTPResponse walk <$> httpResp e) (wsResp e)).
  assert (Hp : persisted_entry now k e = Some it).
  { unfold persisted_entry. rewrite Ht, Hr. replace (t <? now) with false by lia. cbn [orb]. subst it.
    by destruct (httpResp e), (wsResp e). }
  assert (Hl : loaded now' it = Some (mkEntry (fingerprint e) (Some (Unix t * second)) false
    (cloneNodeIdempotencyHTTPResponse walk ∘ cloneNodeIdempotencyHTTPResponse walk <$> httpResp e) (wsResp e))).
  { unfold loaded, it. cbn [Key Fingerprint ExpiresAt HTTPResp WSResp]. rewrite !bool_decide_false by done.
    replace (Unix t <=? Unix now') with false by lia. cbn. by destruct (httpResp e), (wsResp e). }
  unfold load. change (entry_of (updateRuntimeLocked ?x) k) with (entry_of x k). rewrite load_all.
  2:{ unfold newNodeIdempotencyStore. split; cbn; [done|by intros p []]. }
  destruct (list_find _ _) as [[n it']|] eqn:Hfind.
  - apply list_find_Some in Hfind as (Hit' & [Hkey _] & _). apply list_elem_of_lookup_2 in Hit'. rewrite elem_of_reverse in Hit'.
    apply snapshot_elem in Hit' as (e' & He' & Hp'). rewrite Hkey, He in He'. injection He' as <-. rewrite Hkey, Hp in Hp'. by injection Hp' as <-.
  - apply list_find_None in Hfind. rewrite Forall_forall in Hfind. destruct (Hfind it); [|split; [done|by eauto]].
    rewrite elem_of_reverse. apply snapshot_elem. by exists e.
Qed.
End Store.

(** ** Properties *)


Definition ex_reply : reply (A := unit) := HTTP (mkHTTP 200 ∅ "ok").
Definition ex_labels : list (label (A := unit)) :=
  [Arrive 0 "http|u|POST|/" "k1" "f"; Turn 0 1 None None; Arrive 1 "http|u|POST|/" " k1" "f"; Turn 1 2 None None;
   Finish 0 3 ex_reply; Woken 1; Turn 1 4 None None; Arrive 2 "http|u|POST|/" "k1" "g"; Turn 2 5 None None;
   Arrive 3 "http|u|POST|/" "k1" "g"; Turn 3 200 None None].


(** An answer kept when the store was saved is there after a restart, until the second in
    which it would have expired. *)
Theorem restart_keeps_answers {A : Type} walk now now' (s : nodeIdempotencyStore (A := A)) ttl k e t :
  is_order walk -> entry_of s k = Some e -> expiresAt e = Some t -> ready e = false -> now <= t -> Unix now' < Unix t ->
  TrimSpace k <> "" -> TrimSpace (fingerprint e) <> "" -> (httpResp e, wsResp e) <> (None, None) ->
  (cloneNodeIdempotencyHTTPResponse walk <$> httpResp e) = httpResp e ->
  entry_of (load walk now' (snapshotPersistedEntries walk now s) (newNodeIdempotencyStore ttl)) k =
  Some (mkEntry (fingerprint e) (Some (Unix t * second)) false (httpResp e) (wsResp e)).
Proof.
  intros Hw He Ht Hr Hnow Hu Hk Hf Hresp Hc. rewrite (restart_entry walk now now' s ttl k e t) by done.
  by rewrite option_fmap_compose, Hc, Hc.
Qed.
