(* ===== verification/EventLog.v ===== *)
(** The log of management events: numbering, the two windows kept in memory, queries with a
    cursor, and the state file and journal from which a restart reads them back.

    Source: [web/routers/node_event_log.go].

    An event is its sequence number with a content of any type; copies of events are values.
    [record] works in two parts, one under the mutex and the writes after it, so that writes
    of concurrent calls can come in another order than their numbers.  The number of events
    stays far below the width of an [int64]. *)

From S2P Require Import Prelude.
Local Open Scope Z_scope.

Definition defaultNodeEventLogSize : Z := 1024.

Definition nodeEventLogHistoryRetention (maxEntries : Z) : Z :=
  let retention := maxEntries * 4 in
  let retention := if retention <? 4096 then 4096 else retention in
  let retention := if 16384 <? retention then 16384 else retention in
  if retention <? maxEntries then maxEntries else retention.

Definition nodeEventLogCompactThreshold (historyMax maxEntries : Z) : Z :=
  let threshold := historyMax `quot` 4 in
  let threshold := if threshold <? maxEntries then maxEntries else threshold in
  let threshold := if threshold <=? 0 then maxEntries else threshold in
  if threshold <=? 0 then defaultNodeEventLogSize else threshold.

Definition normalizeNodeEventLimit (limit : Z) : Z :=
  if limit <=? 0 then 100 else if 500 <? limit then 500 else limit.

(** [sort.Search]: the loop on the half-open range [i, j). *)
Fixpoint search_loop (fuel : nat) (f : Z -> bool) (i j : Z) : Z :=
  match fuel with
  | O => i
  | S fuel =>
      if i <? j then
        let h := (i + j) / 2 in
        if f h then search_loop fuel f i h else search_loop fuel f (h + 1) j
      else i
  end.
Definition Search (n : Z) (f : Z -> bool) : Z := search_loop (Z.to_nat n) f 0 n.

Section Log.
Context {C : Type}.

Record Event := mkEvent { Sequence : Z; content : C }.
Implicit Types e : Event.

(** The last [limit] events. *)
Definition trimNodeEventWindowInPlace (events : list Event) (limit : Z) : list Event :=
  let n := Z.of_nat (length events) in
  if (limit <=? 0) || (n <=? limit) then events else drop (Z.to_nat (n - limit)) events.
Definition tailEventList (events : list Event) (limit : Z) : list Event :=
  let n := Z.of_nat (length events) in
  if (limit <=? 0) || (n <=? limit) then events else drop (Z.to_nat (n - limit)) events.

Record nodeEventLogPersistedState := mkPersisted { NextSeq : Z; Entries : list Event }.

(** The memory of the log, and its two files. *)
Record nodeEventLog := mkLog {
  nextSeq : Z; maxEntries : Z; entries : list Event; history : list Event; historyMax : Z; trimmed : Z
}.
Record files := mkFiles { state_file : option nodeEventLogPersistedState; journal_file : list Event }.
Implicit Types l : nodeEventLog.

Definition persistedStateLocked l : nodeEventLogPersistedState := mkPersisted (nextSeq l) (entries l).

(** What a call of [record] has still to write: the state, then the compacted journal or one
    more line of it. *)
Inductive journal_write := CompactJournal (h : list Event) | AppendJournal (e : Event).
Record writes := mkWrites { w_state : nodeEventLogPersistedState; w_journal : journal_write }.

Definition record_locked (c : C) (persistEntry : bool) l : Event * option writes * nodeEventLog :=
  if persistEntry then
    let seq := nextSeq l + 1 in
    let event := mkEvent seq c in
    let es := trimNodeEventWindowInPlace (entries l ++ [event]) (maxEntries l) in
    let h := history l ++ [event] in
    let overflow := Z.of_nat (length h) - historyMax l in
    let '(h, t) := if 0 <? overflow then (trimNodeEventWindowInPlace h (historyMax l), trimmed l + overflow) else (h, trimmed l) in
    if nodeEventLogCompactThreshold (historyMax l) (maxEntries l) <=? t then
      let l' := mkLog seq (maxEntries l) es h (historyMax l) 0 in
      (event, Some (mkWrites (persistedStateLocked l') (CompactJournal h)), l')
    else
      let l' := mkLog seq (maxEntries l) es h (historyMax l) t in
      (event, Some (mkWrites (persistedStateLocked l') (AppendJournal event)), l')
  else (mkEvent (nextSeq l) c, None, l).

(** [compactJournal] of an empty history is not called by [record]. *)
Definition do_writes (w : writes) (f : files) : files :=
  mkFiles (Some (w_state w))
    match w_journal w with
    | CompactJournal [] => journal_file f
    | CompactJournal h => h
    | AppendJournal e => journal_file f ++ [e]
    end.

(** A call that no other call interrupts. *)
Definition record (c : C) (persistEntry : bool) (x : nodeEventLog * files) : Event * (nodeEventLog * files) :=
  let '(e, w, l) := record_locked c persistEntry x.1 in
  (e, (l, match w with Some w => do_writes w x.2 | None => x.2 end)).

Definition Record_ (c : C) := record c true.
Definition RecordLiveOnly (c : C) := record c false.

(** ** Queries *)

Record snapshot := mkSnapshot {
  After : Z; NextAfter : Z; Cursor : Z; OldestCursor : Z; Limit : Z; Count : Z; LastSequence : Z; HasMore : bool; Gap : bool;
  Items : list Event
}.

Definition snapshotNodeEventQueryEntries (source : list Event) (after limit : Z) (unfiltered : bool) : list Event :=
  let n := Z.of_nat (length source) in
  let start := if 0 <? after
               then Search n (fun i => match source !! Z.to_nat i with Some e => after <? Sequence e | None => false end)
               else 0 in
  if n <=? start then []
  else
    let fin := if unfiltered && (0 <? limit) && (limit + 1 <? n - start) then start + (limit + 1) else n in
    take (Z.to_nat (fin - start)) (drop (Z.to_nat start) source).

(** The loop of [query]: the items, and whether there were more. *)
Fixpoint select_items (allow : option (Event -> bool)) (after limit : Z) (items source : list Event) : list Event * bool :=
  match source with
  | [] => (items, false)
  | entry :: source =>
      if Sequence entry <=? after then select_items allow after limit items source
      else if match allow with Some f => negb (f entry) | None => false end then select_items allow after limit items source
      else if limit <=? Z.of_nat (length items) then (items, true)
      else select_items allow after limit (items ++ [entry]) source
  end.

Definition last_sequence (items : list Event) : Z := match last items with Some e => Sequence e | None => 0 end.

Definition query (after limit : Z) (allow : option (Event -> bool)) (durable : bool) l : snapshot :=
  let limit := normalizeNodeEventLimit limit in
  let cursor := nextSeq l in
  let source := if durable then history l else entries l in
  match source with
  | [] => mkSnapshot after cursor cursor 0 limit 0 0 false false []
  | first :: _ =>
      let oldest := Sequence first in
      let gap := (0 <? after) && (after <? oldest - 1) in
      let source := snapshotNodeEventQueryEntries source after limit (match allow with None => true | Some _ => false end) in
      match source with
      | [] => mkSnapshot after cursor cursor oldest limit 0 0 false gap []
      | _ =>
          let '(items, more) := select_items allow after limit [] source in
          let n := Z.of_nat (length items) in
          let last := last_sequence items in
          let next := if 0 <? n then if more then last else cursor else if negb more then cursor else after in
          mkSnapshot after next cursor oldest limit n last more gap items
      end
  end.

Definition Query (after limit : Z) (allow : option (Event -> bool)) := query after limit allow false.
Definition Replay (after limit : Z) (allow : option (Event -> bool)) := query after limit allow true.

(** ** Restart, closing and clearing *)

Definition new_log (size : Z) : nodeEventLog :=
  let size := if size <=? 0 then defaultNodeEventLogSize else size in
  mkLog 0 size [] [] (nodeEventLogHistoryRetention size) 0.

(** The journal is read in the order of its lines. *)
Definition load (f : files) l : nodeEventLog :=
  match state_file f with
  | None => l
  | Some persisted =>
      let next := foldl (fun next e => if next <? Sequence e then Sequence e else next) (NextSeq persisted) (Entries persisted) in
      let es := trimNodeEventWindowInPlace (Entries persisted) (maxEntries l) in
      let h := tailEventList (journal_file f) (historyMax l) in
      let h := match h with [] => es | _ => h end in
      let es := match tailEventList h (maxEntries l) with [] => es | t => t end in
      let next := match last h with Some e => if next <? Sequence e then Sequence e else next | None => next end in
      mkLog next (maxEntries l) es h (historyMax l) (trimmed l)
  end.

Definition Close (x : nodeEventLog * files) : files :=
  let '(l, f) := x in
  if (0 <? trimmed l) && negb (length (history l) =? 0)%nat then mkFiles (state_file f) (history l) else f.

Definition Reset (x : nodeEventLog * files) : nodeEventLog * files :=
  let l := mkLog 0 (maxEntries x.1) [] [] (historyMax x.1) 0 in (l, mkFiles (Some (persistedStateLocked l)) []).

Record log_state := mkState { s_Cursor : Z; s_OldestCursor : Z; MaxEntries : Z; HistoryOldestCursor : Z; HistoryMaxEntries : Z }.
Definition first_sequence (es : list Event) : Z := match es with e :: _ => Sequence e | [] => 0 end.
Definition State l : log_state :=
  mkState (nextSeq l) (first_sequence (entries l)) (maxEntries l) (first_sequence (history l)) (historyMax l).

(** ** The windows *)

(** The events recorded, numbered from one. *)
Definition evs (cs : list C) : list Event := imap (fun i c => mkEvent (Z.of_nat i + 1) c) cs.
Definition lastn {X} (n : nat) (xs : list X) : list X := drop (length xs - n) xs.

Lemma trim_lastn es n : 0 < n -> trimNodeEventWindowInPlace es n = lastn (Z.to_nat n) es.
Proof.
  intros Hn. unfold trimNodeEventWindowInPlace, lastn. replace (n <=? 0) with false by lia. cbn [orb].
  destruct (Z.of_nat (length es) <=? n) eqn:E; zbool; [|f_equal; lia].
  replace (length es - Z.to_nat n)%nat with O by lia. done.
Qed.

Lemma tail_lastn es n : 0 < n -> tailEventList es n = lastn (Z.to_nat n) es.
Proof. apply trim_lastn. Qed.

Lemma lastn_drop {X} n k (xs : list X) : (k <= length xs - n)%nat -> lastn n (drop k xs) = lastn n xs.
Proof. intros Hk. unfold lastn. rewrite length_drop, drop_drop. f_equal. lia. Qed.

Lemma lastn_snoc {X} n (xs : list X) x : (0 < n)%nat -> lastn n (lastn n xs ++ [x]) = lastn n (xs ++ [x]).
Proof.
  intros Hn. unfold lastn at 2. rewrite <- (drop_app_le xs [x]) by lia. apply lastn_drop. rewrite length_app. cbn. lia.
Qed.

Lemma lastn_lastn {X} n m (xs : list X) : (n <= m)%nat -> lastn n (lastn m xs) = lastn n xs.
Proof. intros H. apply lastn_drop. lia. Qed.

Lemma length_lastn {X} n (xs : list X) : length (lastn n xs) = min n (length xs).
Proof. unfold lastn. rewrite length_drop. lia. Qed.

Lemma evs_snoc cs c : evs (cs ++ [c]) = evs cs ++ [mkEvent (Z.of_nat (length cs) + 1) c].
Proof. unfold evs. rewrite imap_app. cbn. by rewrite Nat.add_0_r. Qed.

Lemma evs_length cs : length (evs cs) = length cs.
Proof. apply length_imap. Qed.

Lemma evs_lookup cs i : evs cs !! i = (fun c => mkEvent (Z.of_nat i + 1) c) <$> cs !! i.
Proof. unfold evs. by rewrite list_lookup_imap. Qed.

Record log_ok (cs : list C) l : Prop := {
  ok_seq : nextSeq l = Z.of_nat (length cs);
  ok_max : 0 < maxEntries l <= historyMax l;
  ok_entries : entries l = lastn (Z.to_nat (maxEntries l)) (evs cs);
  ok_history : history l = lastn (Z.to_nat (historyMax l)) (evs cs);
  ok_trimmed : 0 <= trimmed l
}.

Lemma retention_range m : 0 < m -> m <= nodeEventLogHistoryRetention m.
Proof. intros Hm. unfold nodeEventLogHistoryRetention. repeat match goal with |- context [if ?b then _ else _] => destruct b eqn:?; zbool end; lia. Qed.

Lemma new_log_ok size : log_ok [] (new_log size).
Proof.
  unfold new_log. set (m := if size <=? 0 then _ else size). assert (Hm : 0 < m) by (subst m; destruct (size <=? 0) eqn:?; zbool; [done|lia]).
  pose proof (retention_range m Hm). split; cbn; [done|lia|done|done|done].
Qed.

Lemma record_locked_ok cs c l :
  log_ok cs l ->
  let '(e, _, l') := record_locked c true l in
  e = mkEvent (Z.of_nat (length cs) + 1) c /\ log_ok (cs ++ [c]) l' /\ maxEntries l' = maxEntries l /\ historyMax l' = historyMax l.
Proof.
  intros [H1 H2 H3 H4 H5]. unfold record_locked. rewrite H1.
  assert (He : trimNodeEventWindowInPlace (entries l ++ [mkEvent (Z.of_nat (length cs) + 1) c]) (maxEntries l) =
    lastn (Z.to_nat (maxEntries l)) (evs (cs ++ [c]))).
  { rewrite trim_lastn, H3, lastn_snoc, evs_snoc by lia. done. }
  rewrite He. set (h := history l ++ _).
  assert (Hh : trimNodeEventWindowInPlace h (historyMax l) = lastn (Z.to_nat (historyMax l)) (evs (cs ++ [c]))).
  { subst h. rewrite trim_lastn, H4, lastn_snoc, evs_snoc by lia. done. }
  assert (Hh' : 0 <? Z.of_nat (length h) - historyMax l = false -> h = lastn (Z.to_nat (historyMax l)) (evs (cs ++ [c]))).
  { intros E. zbool. rewrite <- Hh, trim_lastn by lia. unfold lastn. replace (length h - Z.to_nat (historyMax l))%nat with O by lia. done. }
  destruct (0 <? Z.of_nat (length h) - historyMax l) eqn:Eo; zbool.
  - destruct (_ <=? trimmed l + _); (split; [done|]; split; [|done]); split; cbn; rewrite ?length_app; cbn; try done; lia.
  - specialize (Hh' eq_refl). destruct (_ <=? trimmed l); (split; [done|]; split; [|done]); split; cbn; rewrite ?length_app; cbn; try done; lia.
Qed.

(** ** What a query returns *)

Definition passes (allow : option (Event -> bool)) (e : Event) : bool := match allow with Some f => f e | None => true end.

Lemma select_spec allow after limit items source :
  Forall (fun e => after < Sequence e) source -> Z.of_nat (length items) <= limit ->
  let ok := filter (fun e => passes allow e = true) source in
  select_items allow after limit items source =
    (items ++ take (Z.to_nat limit - length items) ok, bool_decide (limit < Z.of_nat (length items + length ok))).
Proof.
  intros Hs. revert items. induction Hs as [|e source He Hs IH]; intros items Hl; cbn [select_items].
  { rewrite filter_nil, take_nil, app_nil_r, bool_decide_false; [done|]. cbn. lia. }
  replace (Sequence e <=? after) with false by lia. cbv zeta in *.
  replace (match allow with Some f => negb (f e) | None => false end) with (negb (passes allow e)) by (by destruct allow).
  destruct (passes allow e) eqn:Ep; cbn [negb].
  - rewrite filter_cons_True by done. destruct (limit <=? Z.of_nat (length items)) eqn:El; zbool.
    + replace (Z.to_nat limit - length items)%nat with O by lia. rewrite take_0, app_nil_r.
      rewrite bool_decide_true; [done|]. cbn. lia.
    + rewrite IH by (rewrite length_app; cbn; lia). rewrite length_app. cbn [length].
      replace (Z.to_nat limit - length items)%nat with (S (Z.to_nat limit - (length items + 1)))%nat by lia.
      cbn [take]. rewrite <- app_assoc. cbn. f_equal. apply bool_decide_ext. lia.
  - rewrite filter_cons_False by congruence. by apply IH.
Qed.

Lemma search_threshold fuel f i j t :
  (forall h, i <= h < j -> f h = (t <=? h)) -> i <= j -> j - i <= Z.of_nat fuel ->
  search_loop fuel f i j = Z.max i (Z.min t j).
Proof.
  revert i j. induction fuel as [|fuel IH]; intros i j Hf Hij Hfuel; cbn [search_loop]; [lia|].
  destruct (i <? j) eqn:E; zbool; [|lia]. assert (Hh : i <= (i + j) / 2 < j) by (split; [apply Z.div_le_lower_bound|apply Z.div_lt_upper_bound]; lia).
  rewrite Hf by done. destruct (t <=? (i + j) / 2) eqn:Et; zbool.
  - rewrite IH by (lia || (intros; apply Hf; lia)). lia.
  - rewrite IH by (lia || (intros; apply Hf; lia)). lia.
Qed.

(** The source of a query is a tail of the events; the part above the cursor is a tail too. *)
Lemma window_lookup k cs i e : drop k (evs cs) !! i = Some e -> Sequence e = Z.of_nat (k + i) + 1.
Proof. rewrite lookup_drop, evs_lookup. destruct (cs !! (k + i)%nat); [|done]. by intros [= <-]. Qed.

Lemma query_source k cs after limit b :
  0 <= after -> (k <= Z.to_nat after)%nat ->
  snapshotNodeEventQueryEntries (drop k (evs cs)) after limit b =
  (if b && (0 <? limit) then take (Z.to_nat limit + 1) else id) (drop (Z.to_nat after) (evs cs)).
Proof.
  intros Ha Hk. unfold snapshotNodeEventQueryEntries. rewrite length_drop, evs_length.
  set (start := if 0 <? after then _ else 0).
  assert (Hstart : start = Z.min (after - Z.of_nat k) (Z.of_nat (length cs - k))).
  { subst start. destruct (0 <? after) eqn:E0; zbool; [|lia]. unfold Search.
    rewrite (search_threshold _ _ _ _ (after - Z.of_nat k)); [lia| |lia|lia]. intros h Hh.
    destruct (drop k (evs cs) !! Z.to_nat h) as [e|] eqn:Ee.
    - rewrite (window_lookup _ _ _ _ Ee). destruct (_ <? _) eqn:E1, (_ <=? _) eqn:E2; zbool; lia.
    - apply lookup_ge_None_1 in Ee. rewrite length_drop, evs_length in Ee. lia. }
  clearbody start. subst start. destruct (_ <=? Z.min _ _) eqn:E; zbool.
  - assert (drop (Z.to_nat after) (evs cs) = []) as -> by (apply drop_ge; rewrite evs_length; lia). destruct (b && _); [by rewrite take_nil|done].
  - rewrite Z.min_l by lia. rewrite drop_drop. replace (k + Z.to_nat (after - Z.of_nat k))%nat with (Z.to_nat after) by lia.
    assert (Hlen : length (drop (Z.to_nat after) (evs cs)) = (length cs - Z.to_nat after)%nat) by (rewrite length_drop, evs_length; done).
    destruct (b && (0 <? limit)) eqn:Eb; cbn [andb].
    + apply andb_true_iff in Eb as [_ Eb]. zbool. destruct (limit + 1 <? _) eqn:El; zbool; [f_equal; lia|].
      rewrite !take_ge; [done|lia|lia].
    + unfold id. apply take_ge. lia.
Qed.

Lemma filter_prefix (P : Event -> Prop) `{!forall x, Decision (P x)} (xs : list Event) n :
  (0 < n <= length (filter P xs))%nat ->
  exists m x, filter P (take (S m) xs) = take n (filter P xs) /\ xs !! m = Some x /\ last (take n (filter P xs)) = Some x.
Proof.
  revert n. induction xs as [|x xs IH]; intros n Hn; [cbn in Hn; lia|]. destruct (decide (P x)) as [Hx|Hx].
  - rewrite filter_cons_True in * by done. destruct n as [|[|n]]; [lia| |].
    + exists O, x. cbn [take]. rewrite filter_cons_True, take_0 by done. by rewrite filter_nil.
    + destruct (IH (S n)) as (m & y & E1 & E2 & E3); [cbn in Hn; lia|]. exists (S m), y. cbn [take] in *. rewrite filter_cons_True by done.
      rewrite E1. split; [done|]. split; [done|]. rewrite last_cons. cbn [take]. by rewrite E3.
  - rewrite filter_cons_False in * by done. destruct (IH n Hn) as (m & y & E1 & E2 & E3). exists (S m), y.
    change (take (S (S m)) (x :: xs)) with (x :: take (S m) xs). by rewrite filter_cons_False.
Qed.

(** What the events between two cursors are. *)
Definition between (cs : list C) (a b : Z) : list Event := take (Z.to_nat b - Z.to_nat a) (drop (Z.to_nat a) (evs cs)).

Definition complete (q : snapshot) : Prop := Gap q = false /\ (0 < After q \/ OldestCursor q <= 1).

Lemma limit_range n : 0 < normalizeNodeEventLimit n.
Proof. unfold normalizeNodeEventLimit. repeat match goal with |- context [if ?b then _ else _] => destruct b eqn:?; zbool end; lia. Qed.

Lemma cut_select (allow : option (Event -> bool)) after limit (src : list Event) :
  0 < limit -> Forall (fun e => after < Sequence e) src ->
  select_items allow after limit []
    ((if (match allow with None => true | Some _ => false end) && (0 <? limit) then take (Z.to_nat limit + 1) else id) src) =
  let ok := filter (fun e => passes allow e = true) src in (take (Z.to_nat limit) ok, bool_decide (limit < Z.of_nat (length ok))).
Proof.
  intros Hl Hs. destruct allow as [f|]; cbn [andb].
  - unfold id. rewrite select_spec by (done || (cbn; lia)). cbn. by rewrite Nat.sub_0_r.
  - replace (0 <? limit) with true by lia. rewrite select_spec by ((by apply Forall_take) || (cbn; lia)). cbn [passes length app].
    assert (Hid : forall xs : list Event, filter (fun _ => true = true) xs = xs).
    { intros xs. induction xs as [|x xs IH]; [done|]. by rewrite filter_cons_True, IH. }
    cbv zeta. rewrite !Hid, Nat.sub_0_r, take_take, length_take. replace (Z.to_nat limit `min` (Z.to_nat limit + 1))%nat with (Z.to_nat limit) by lia.
    f_equal. apply bool_decide_ext. lia.
Qed.

Lemma all_between cs after : 0 <= after -> between cs after (Z.of_nat (length cs)) = drop (Z.to_nat after) (evs cs).
Proof. intros Ha. unfold between. apply take_ge. rewrite length_drop, evs_length. lia. Qed.

(** The items and the cursor that a query computes from what passes the filter. *)
Lemma items_window cs after lim allow :
  0 <= after <= Z.of_nat (length cs) -> 0 < lim ->
  let ok := filter (fun e => passes allow e = true) (drop (Z.to_nat after) (evs cs)) in
  let items := take (Z.to_nat lim) ok in
  let more := bool_decide (lim < Z.of_nat (length ok)) in
  let next := if 0 <? Z.of_nat (length items) then if more then last_sequence items else Z.of_nat (length cs)
              else if negb more then Z.of_nat (length cs) else after in
  after <= next <= Z.of_nat (length cs) /\ items = filter (fun e => passes allow e = true) (between cs after next) /\
  (more = false -> next = Z.of_nat (length cs)) /\ (more = true -> after < next) /\ Z.of_nat (length items) <= lim.
Proof.
  intros Ha Hlim ok items more next. assert (Hlen : length items = min (Z.to_nat lim) (length ok)) by apply length_take.
  destruct (decide (lim < Z.of_nat (length ok))) as [Hm|Hm].
  - assert (more = true) as E by (by apply bool_decide_eq_true). assert (next = last_sequence items) as ->.
    { subst next. rewrite E. by replace (0 <? Z.of_nat (length items)) with true by lia. }
    destruct (filter_prefix (fun e => passes allow e = true) (drop (Z.to_nat after) (evs cs)) (Z.to_nat lim)) as (j & e & E1 & E2 & E3);
      [fold ok; lia|]. fold ok in E1, E3. fold items in E1, E3. unfold last_sequence. rewrite E3.
    pose proof (window_lookup _ _ _ _ E2) as He. apply lookup_lt_Some in E2. rewrite length_drop, evs_length in E2. rewrite E.
    split; [lia|]. split; [|split; [done|split; [lia|lia]]]. unfold between. rewrite <- E1. do 2 f_equal. lia.
  - assert (more = false) as E by (by apply bool_decide_eq_false). assert (next = Z.of_nat (length cs)) as ->.
    { subst next. rewrite E. by destruct (0 <? _). }
    rewrite E, all_between by lia. split; [lia|]. split; [|split; [done|split; [done|lia]]]. change (take (Z.to_nat lim) ok = ok). apply take_ge. lia.
Qed.

Lemma query_spec cs l after limit allow durable :
  log_ok cs l -> 0 <= after <= Z.of_nat (length cs) ->
  let q := query after limit allow durable l in
  complete q ->
  after <= NextAfter q <= Z.of_nat (length cs) /\
  Items q = filter (fun e => passes allow e = true) (between cs after (NextAfter q)) /\
  (HasMore q = false -> NextAfter q = Z.of_nat (length cs)) /\ (HasMore q = true -> after < NextAfter q) /\
  Z.of_nat (length (Items q)) <= Limit q.
Proof.
  intros [H1 H2 H3 H4 H5] Ha. unfold query. set (lim := normalizeNodeEventLimit limit). pose proof (limit_range limit) as Hlim. fold lim in Hlim.
  set (m := if durable then historyMax l else maxEntries l).
  assert (Hsrc : (if durable then history l else entries l) = drop (length cs - Z.to_nat m) (evs cs)).
  { subst m. destruct durable; rewrite ?H3, ?H4; unfold lastn; by rewrite evs_length. }
  assert (Hm : 0 < m) by (subst m; destruct durable; lia). rewrite Hsrc. set (k := (length cs - Z.to_nat m)%nat) in *.
  destruct (drop k (evs cs)) as [|first rest] eqn:Ed.
  { assert (Hcs : length cs = O). { apply (f_equal length) in Ed. rewrite length_drop, evs_length in Ed. cbn in Ed. lia. }
    cbv zeta. intros _. cbn. rewrite H1, Hcs. destruct cs; [|done]. cbn in *. split; [lia|]. unfold between. cbn.
    rewrite drop_nil, take_nil. split; [done|]. split; [done|]. split; [done|lia]. }
  assert (Hfirst : Sequence first = Z.of_nat k + 1).
  { rewrite (window_lookup k cs O first) by (by rewrite Ed). lia. }
  rewrite <- Ed. cbv zeta.
  assert (Hk : forall q, After q = after -> OldestCursor q = Sequence first -> Gap q = (0 <? after) && (after <? Sequence first - 1) ->
    complete q -> (k <= Z.to_nat after)%nat).
  { intros q E1 E2 E3 [Hg Ho]. rewrite E3 in Hg. rewrite E1, E2 in Ho.
    destruct (0 <? after) eqn:?, (after <? Sequence first - 1) eqn:?; zbool; try done; lia. }
  assert (Hqs : (k <= Z.to_nat after)%nat -> snapshotNodeEventQueryEntries (drop k (evs cs)) after lim (match allow with None => true | Some _ => false end) =
    (if (match allow with None => true | Some _ => false end) && (0 <? lim) then take (Z.to_nat lim + 1) else id) (drop (Z.to_nat after) (evs cs))).
  { intros Hk'. apply query_source; [lia|done]. }
  destruct (snapshotNodeEventQueryEntries _ _ _ _) as [|x xs] eqn:Eq.
  { intros Hc. apply Hk in Hc; [|done..]. specialize (Hqs Hc). cbn. rewrite H1.
    assert (Hd : drop (Z.to_nat after) (evs cs) = []).
    { destruct (drop (Z.to_nat after) (evs cs)); [done|]. exfalso. revert Hqs. clear -Hlim. destruct allow; [done|].
      replace (0 <? lim) with true by lia. cbn [andb]. by rewrite Nat.add_1_r. }
    split; [lia|]. rewrite all_between, Hd by lia. split; [done|]. split; [done|]. split; [done|]. lia. }
  rewrite <- Eq in *. assert (Hc0 : (k <= Z.to_nat after)%nat -> select_items allow after lim [] (snapshotNodeEventQueryEntries (drop k (evs cs)) after lim (match allow with None => true | Some _ => false end)) =
    let ok := filter (fun e => passes allow e = true) (drop (Z.to_nat after) (evs cs)) in (take (Z.to_nat lim) ok, bool_decide (lim < Z.of_nat (length ok)))).
  { intros Hk'. rewrite (Hqs Hk'). apply cut_select; [lia|]. apply Forall_lookup_2. intros i e He. apply window_lookup in He. lia. }
  destruct (select_items allow after lim [] _) as [items more] eqn:Es. intros Hc. apply Hk in Hc; [|done..].
  specialize (Hc0 Hc). cbv zeta in Hc0. injection Hc0 as -> ->. cbn [NextAfter Items HasMore Limit]. rewrite H1.
  by apply items_window.
Qed.

(** ** Readers *)

Lemma between_app cs a b c : 0 <= a <= b -> b <= c -> between cs a b ++ between cs b c = between cs a c.
Proof.
  intros Hab Hbc. unfold between. replace (drop (Z.to_nat b) (evs cs)) with (drop (Z.to_nat b - Z.to_nat a) (drop (Z.to_nat a) (evs cs)))
    by (rewrite drop_drop; f_equal; lia).
  rewrite take_take_drop. f_equal. lia.
Qed.

Lemma between_snoc cs x a b : b <= Z.of_nat (length cs) -> between (cs ++ [x]) a b = between cs a b.
Proof.
  intros Hb. unfold between. rewrite evs_snoc. destruct (decide (Z.to_nat a <= length cs)%nat).
  - rewrite drop_app_le by (by rewrite evs_length). apply take_app_le. rewrite length_drop, evs_length. lia.
  - replace (Z.to_nat b - Z.to_nat a)%nat with O by lia. by rewrite !take_0.
Qed.

(** Events are recorded, and a reader asks for what comes after its cursor and takes the
    cursor of the answer. *)
Inductive act := Rec (c : C) (persistEntry : bool) | Poll (limit : Z) (durable : bool).

Record reader := mkReader { cursor : Z; received : list Event; whole : Prop }.

Definition do_act (allow : option (Event -> bool)) (x : (nodeEventLog * files) * reader) (a : act) : (nodeEventLog * files) * reader :=
  let '(lf, r) := x in
  match a with
  | Rec c b => ((record c b lf).2, r)
  | Poll limit durable =>
      let q := query (cursor r) limit allow durable lf.1 in
      (lf, mkReader (NextAfter q) (received r ++ Items q) (whole r /\ complete q))
  end.

Definition recorded (h : list act) : list C := omap (fun a => match a with Rec c true => Some c | _ => None end) h.

Lemma record_log_ok cs c (b : bool) (lf : nodeEventLog * files) : log_ok cs lf.1 -> log_ok (cs ++ if b then [c] else []) (record c b lf).2.1.
Proof.
  intros Hok. unfold record. destruct b.
  - pose proof (record_locked_ok cs c lf.1 Hok) as H. destruct (record_locked c true lf.1) as [[e w] l]. by destruct H as (_ & ? & _).
  - cbn. by rewrite app_nil_r.
Qed.

Lemma reader_ok allow cs (lf : nodeEventLog * files) (r : reader) h a0 :
  log_ok cs lf.1 -> 0 <= a0 <= cursor r -> cursor r <= Z.of_nat (length cs) ->
  received r = filter (fun e => passes allow e = true) (between cs a0 (cursor r)) ->
  let '(lf', r') := foldl (do_act allow) (lf, r) h in
  whole r' ->
  let all := cs ++ recorded h in
  log_ok all lf'.1 /\ a0 <= cursor r' <= Z.of_nat (length all) /\ whole r /\
  received r' = filter (fun e => passes allow e = true) (between all a0 (cursor r')).
Proof.
  revert cs lf r. induction h as [|a h IH]; intros cs lf r Hok Ha Hc Hr; cbn [foldl].
  { intros Hw. cbn. rewrite app_nil_r. split; [done|]. split; [lia|done]. }
  destruct a as [c b|limit durable]; cbn [do_act].
  - specialize (IH (cs ++ if b then [c] else []) (record c b lf).2 r).
    destruct (foldl (do_act allow) ((record c b lf).2, r) h) as [lf' r']. intros Hw. cbn zeta in IH.
    replace (cs ++ recorded (Rec c b :: h)) with ((cs ++ if b then [c] else []) ++ recorded h) by (rewrite <- app_assoc; by destruct b).
    apply IH; [by apply record_log_ok|done|rewrite length_app; lia| |done].
    rewrite Hr. destruct b; [by rewrite between_snoc by lia|by rewrite app_nil_r].
  - set (q := query (cursor r) limit allow durable lf.1). set (r1 := mkReader _ _ _).
    destruct (foldl (do_act allow) (lf, r1) h) as [lf' r'] eqn:E. intros Hw. cbn zeta.
    assert (Hq : complete q).
    { assert (Hmono : forall h x, whole (foldl (do_act allow) x h).2 -> whole x.2).
      { clear. intros h. induction h as [|a h IHh]; intros [lf r] H; [done|]. cbn [foldl] in H. apply IHh in H. destruct a; cbn in H; [done|by destruct H]. }
      specialize (Hmono h (lf, r1)). rewrite E in Hmono. by destruct (Hmono Hw). }
    destruct (query_spec cs lf.1 (cursor r) limit allow durable Hok ltac:(lia) Hq) as (Hn & Hi & _). fold q in Hn, Hi.
    specialize (IH cs lf r1 Hok). rewrite E in IH. destruct IH as (H1 & H2 & H3 & H4); subst r1; cbn [cursor received whole] in *; [lia|lia| |done|].
    + rewrite Hr, Hi, <- filter_app, between_app by lia. done.
    + split; [done|]. split; [done|]. split; [by destruct H3|done].
Qed.

(** ** Restart *)

Definition files_ok (cs : list C) l (f : files) : Prop :=
  (cs = [] \/ state_file f = Some (persistedStateLocked l)) /\
  exists k, (k <= length cs - Z.to_nat (historyMax l))%nat /\ journal_file f = drop k (evs cs).

Lemma record_files_ok cs c b lf :
  log_ok cs lf.1 -> files_ok cs lf.1 lf.2 ->
  files_ok (cs ++ if b : bool then [c] else []) (record c b lf).2.1 (record c b lf).2.2.
Proof.
  intros Hok Hf. destruct b; [|cbn; by rewrite app_nil_r]. unfold record.
  pose proof (record_locked_ok cs c lf.1 Hok) as H. destruct (record_locked c true lf.1) as [[e w] l'] eqn:E. destruct H as (He & Hok' & Em & Eh).
  destruct Hf as [_ (k & Hk & Hj)]. unfold record_locked in E.
  assert (Happ : journal_file lf.2 ++ [e] = drop k (evs (cs ++ [c]))).
  { rewrite evs_snoc, drop_app_le, Hj, <- He by (rewrite evs_length; lia). done. }
  destruct (if 0 <? _ then _ else _) as [h t]. destruct (_ <=? t); injection E as <- <- <-; cbn [fst snd do_writes w_state w_journal historyMax].
  - split; [by right|]. cbn [journal_file]. destruct Hok' as [_ _ _ Hh _]. cbn [history historyMax] in Hh.
    exists (length (cs ++ [c]) - Z.to_nat (historyMax lf.1))%nat. split; [lia|]. unfold lastn in Hh. rewrite evs_length in Hh. rewrite <- Hh.
    destruct h; [|done]. exfalso. apply (f_equal length) in Hh. rewrite length_drop, evs_length, length_app in Hh. cbn in Hh.
    destruct Hok as [_ Hm _ _ _]. lia.
  - split; [by right|]. exists k. split; [rewrite length_app; cbn; lia|done].
Qed.

Lemma evs_bound cs e : e ∈ evs cs -> Sequence e <= Z.of_nat (length cs).
Proof. intros [i Hi]%list_elem_of_lookup. rewrite evs_lookup in Hi. destruct (cs !! i) eqn:Ec; [|done]. injection Hi as <-. apply lookup_lt_Some in Ec. cbn. lia. Qed.

Lemma fold_next (es : list Event) n : Forall (fun e => Sequence e <= n) es -> foldl (fun next e => if next <? Sequence e then Sequence e else next) n es = n.
Proof. induction 1 as [|e es He _ IH]; [done|]. cbn. by replace (n <? Sequence e) with false by lia. Qed.

Lemma load_ok cs l f l0 :
  log_ok cs l -> files_ok cs l f -> cs <> [] -> maxEntries l0 = maxEntries l -> historyMax l0 = historyMax l ->
  load f l0 = mkLog (nextSeq l) (maxEntries l) (entries l) (history l) (historyMax l) (trimmed l0).
Proof.
  intros [H1 H2 H3 H4 H5] [[Hnil|Hs] (k & Hk & Hj)] Hne E1 E2; [done|]. unfold load. rewrite Hs, E1, E2, Hj. cbn [NextSeq Entries persistedStateLocked].
  assert (Hin : forall n (P : Event -> Prop), Forall P (evs cs) -> Forall P (lastn n (evs cs))) by (intros; by apply Forall_drop).
  assert (Hb : Forall (fun e => Sequence e <= nextSeq l) (evs cs)) by (apply Forall_forall; intros e He; rewrite H1; by apply evs_bound).
  rewrite fold_next by (rewrite H3; by apply Hin). rewrite H3, (trim_lastn (lastn _ _)), lastn_lastn by lia. rewrite tail_lastn, lastn_drop by (rewrite ?evs_length; lia).
  rewrite <- H4. assert (Hlen : (0 < length (history l))%nat).
  { rewrite H4, length_lastn, evs_length. destruct cs; [done|]. cbn. lia. }
  destruct (history l) as [|x xs] eqn:Eh; [cbn in Hlen; lia|]. rewrite tail_lastn by lia. rewrite H4, lastn_lastn by lia.
  assert (Hlen' : (0 < length (lastn (Z.to_nat (maxEntries l)) (evs cs)))%nat).
  { rewrite length_lastn, evs_length. destruct cs; [done|]. cbn. lia. }
  replace (match lastn (Z.to_nat (maxEntries l)) (evs cs) with [] => _ | t => t end) with (lastn (Z.to_nat (maxEntries l)) (evs cs))
    by (by destruct (lastn (Z.to_nat (maxEntries l)) (evs cs))).
  f_equal. destruct (last (lastn (Z.to_nat (historyMax l)) (evs cs))) as [e|] eqn:El; [|done].
  apply last_Some_elem_of in El. pose proof (Hin (Z.to_nat (historyMax l)) _ Hb) as Hb'. rewrite Forall_forall in Hb'. specialize (Hb' e El). cbn in Hb'.
  by replace (nextSeq l <? Sequence e) with false by lia.
Qed.

Lemma close_files_ok cs l f : log_ok cs l -> files_ok cs l f -> files_ok cs l (Close (l, f)).
Proof.
  intros Hok Hf. unfold Close. destruct (_ && _); [|done]. destruct Hf as [Hs _]. split; [done|]. destruct Hok as [_ _ _ Hh _].
  exists (length cs - Z.to_nat (historyMax l))%nat. split; [done|]. cbn. rewrite Hh. unfold lastn. by rewrite evs_length.
Qed.

Definition record_all (h : list (C * bool)) (x : nodeEventLog * files) : nodeEventLog * files := foldl (fun x '(c, b) => (record c b x).2) x h.
Definition kept_contents (h : list (C * bool)) : list C := omap (fun '(c, b) => if b : bool then Some c else None) h.

Lemma record_all_ok h cs x :
  log_ok cs x.1 -> files_ok cs x.1 x.2 ->
  let x' := record_all h x in
  log_ok (cs ++ kept_contents h) x'.1 /\ files_ok (cs ++ kept_contents h) x'.1 x'.2 /\
  maxEntries x'.1 = maxEntries x.1 /\ historyMax x'.1 = historyMax x.1.
Proof.
  revert cs x. induction h as [|[c b] h IH]; intros cs x Hok Hf; cbn zeta; [cbn; by rewrite app_nil_r|].
  unfold record_all. cbn [foldl]. fold (record_all h (record c b x).2).
  replace (cs ++ kept_contents ((c, b) :: h)) with ((cs ++ if b then [c] else []) ++ kept_contents h) by (rewrite <- app_assoc; by destruct b).
  destruct (IH (cs ++ if b then [c] else []) (record c b x).2) as (A1 & A2 & A3 & A4); [by apply record_log_ok|by apply record_files_ok|].
  split; [done|]. split; [done|]. rewrite A3, A4. unfold record. destruct b; [|done].
  pose proof (record_locked_ok cs c x.1 Hok) as H. destruct (record_locked c true x.1) as [[e w] l']. by destruct H as (_ & _ & ? & ?).
Qed.
End Log.

(** ** Properties *)


Definition ex_acts : list (act (C := Z)) :=
  [Poll 2 false; Rec 13 true; Rec 99 false; Poll 2 false; Poll 0 true].
Definition odd_content (e : Event (C := Z)) : bool := Z.odd (content e).

Definition ex_before : list (Z * bool) := [(11, true); (12, true); (21, true); (31, true)].
Definition ex_reader : reader (C := Z) :=
  (foldl (do_act (Some odd_content)) (record_all ex_before (new_log 2, mkFiles None []), mkReader 2 [] True) ex_acts).2.




(** Two calls at the same time may write in the order opposite to their numbers, since both
    write after the mutex is released: the state file then forgets the second event, the
    journal lists it first, and after a restart a reader that has seen the first event is told
    that there is nothing more, without a gap. *)
Theorem late_write_hides_event :
  let '(_, w1, l1) := record_locked 101 true (new_log 8) in
  let '(_, w2, l2) := record_locked 102 true l1 in
  match w1, w2 with
  | Some w1, Some w2 =>
      let f := do_writes w1 (do_writes w2 (mkFiles None [])) in
      let q := Replay 1 10 None (load f (new_log 8)) in
      entries l2 = [mkEvent 1 101; mkEvent 2 102] /\ journal_file f = [mkEvent 2 102; mkEvent 1 101] /\
      (NextSeq <$> state_file f) = Some 1 /\ Items q = [] /\ Gap q = false /\ HasMore q = false
  | _, _ => False
  end.
Proof. vm_compute. by repeat split. Qed.
