(* ===== verification/StateWriter.v ===== *)
(** The writers behind the saved state of the web server: a value that is stored is kept in
    memory and a goroutine writes it to the file a little later.

    Source: [web/routers/state.go], [nodeRuntimeStateWriter] and [nodeRuntimeAppendWriter].

    The two writers have the same code and differ in what a new value does to an older one: a
    state replaces it, and lines are appended to it.  The model is over an associative
    operation that says this, both for the pending bytes and for the file.  The goroutine and
    the callers take one step at a time, in any order; a step ends where the mutex is released
    or the file is written.  Writes of the file succeed. *)

From S2P Require Import Prelude.
Local Open Scope Z_scope.

Section Writer.
Context {V : Type} (op : V -> V -> V).

(** What a new value does to the pending bytes or to the file. *)
Definition put (p : option V) (v : V) : option V := Some (match p with Some a => op a v | None => v end).

Record writer := mkWriter { pending : option V; scheduled : bool; closed : bool }.

(** The goroutine, [run]: waiting, about to flush, writing, and about to look for more; the
    flag tells that the wait was stopped. *)
Inductive runner_pc := RunWait | RunFlush (stop : bool) | RunWrite (v : V) (stop : bool) | RunCheck (stop : bool).

(** What a caller has still to do after a flush. *)
Inductive after_flush := Return | AwaitRun.

(** A caller: writing because the writer is closed, about to flush, writing what it took, and
    waiting for the goroutine. *)
Inductive caller_pc := StoreWrite (v : V) | FlushTake (k : after_flush) | FlushWrite (v : V) (k : after_flush) | CloseWait.

(** The file, the goroutine if there is one, the callers, and two notes: the values stored so
    far, and whether a value was ever taken for writing while an older one was not written. *)
Record sys := mkSys {
  w : writer; file : option V; runner : option runner_pc; callers : gmap nat caller_pc; stored : list V; overlap : bool
}.
Implicit Types x : sys.

Inductive agent := Runner | Caller (i : nat).

Definition run_holds (r : runner_pc) : option V := match r with RunWrite v _ => Some v | _ => None end.
Definition call_holds (c : caller_pc) : option V := match c with StoreWrite v | FlushWrite v _ => Some v | _ => None end.
Definition holds x (a : agent) : option V :=
  match a with Runner => runner x ≫= run_holds | Caller i => callers x !! i ≫= call_holds end.
Definition busy x : bool :=
  match runner x ≫= run_holds with Some _ => true | None => bool_decide (map_Exists (fun _ c => is_Some (call_holds c)) (callers x)) end.

Inductive label :=
  | Store (i : nat) (v : V)
  | Flush (i : nat)
  | Close (i : nat)
  | RunStep (stop : bool)
  | CallStep (i : nat).

Definition set_caller (i : nat) (c : option caller_pc) (m : gmap nat caller_pc) : gmap nat caller_pc :=
  match c with Some c => <[i := c]> m | None => delete i m end.

Definition next_call (k : after_flush) : option caller_pc := match k with Return => None | AwaitRun => Some CloseWait end.

Definition step_run (stop : bool) x : option sys :=
  match runner x with
  | None => None
  | Some RunWait =>
      (* the wait is stopped only once the writer is closed *)
      if stop && negb (closed (w x)) then None
      else Some (mkSys (w x) (file x) (Some (RunFlush stop)) (callers x) (stored x) (overlap x))
  | Some (RunFlush s) =>
      let w' := mkWriter None (scheduled (w x)) (closed (w x)) in
      match pending (w x) with
      | None => Some (mkSys w' (file x) (Some (RunCheck s)) (callers x) (stored x) (overlap x))
      | Some v => Some (mkSys w' (file x) (Some (RunWrite v s)) (callers x) (stored x) (overlap x || busy x))
      end
  | Some (RunWrite v s) => Some (mkSys (w x) (put (file x) v) (Some (RunCheck s)) (callers x) (stored x) (overlap x))
  | Some (RunCheck s) =>
      match s, pending (w x) with
      | false, Some _ => Some (mkSys (w x) (file x) (Some RunWait) (callers x) (stored x) (overlap x))
      | _, p => Some (mkSys (mkWriter p false (closed (w x))) (file x) None (callers x) (stored x) (overlap x))
      end
  end.

Definition step_call (i : nat) x : option sys :=
  match callers x !! i with
  | None => None
  | Some (StoreWrite v) => Some (mkSys (w x) (put (file x) v) (runner x) (delete i (callers x)) (stored x) (overlap x))
  | Some (FlushTake k) =>
      let w' := mkWriter None (scheduled (w x)) (closed (w x)) in
      match pending (w x) with
      | None => Some (mkSys w' (file x) (runner x) (set_caller i (next_call k) (callers x)) (stored x) (overlap x))
      | Some v => Some (mkSys w' (file x) (runner x) (<[i := FlushWrite v k]> (callers x)) (stored x) (overlap x || busy x))
      end
  | Some (FlushWrite v k) =>
      Some (mkSys (w x) (put (file x) v) (runner x) (set_caller i (next_call k) (callers x)) (stored x) (overlap x))
  | Some CloseWait =>
      match runner x with
      | Some _ => None
      | None => Some (mkSys (w x) (file x) None (<[i := FlushTake Return]> (callers x)) (stored x) (overlap x))
      end
  end.

Definition step x (l : label) : option sys :=
  match l with
  | Store i v =>
      if decide (callers x !! i = None) then
        if closed (w x) then
          Some (mkSys (w x) (file x) (runner x) (<[i := StoreWrite v]> (callers x)) (stored x ++ [v])
                  (overlap x || busy x || bool_decide (is_Some (pending (w x)))))
        else
          Some (mkSys (mkWriter (put (pending (w x)) v) true false) (file x)
                  (if scheduled (w x) then runner x else Some RunWait) (callers x) (stored x ++ [v]) (overlap x))
      else None
  | Flush i =>
      if decide (callers x !! i = None)
      then Some (mkSys (w x) (file x) (runner x) (<[i := FlushTake Return]> (callers x)) (stored x) (overlap x)) else None
  | Close i =>
      if decide (callers x !! i = None)
      then Some (mkSys (mkWriter (pending (w x)) (scheduled (w x)) true) (file x) (runner x)
                   (<[i := FlushTake AwaitRun]> (callers x)) (stored x) (overlap x))
      else None
  | RunStep stop => step_run stop x
  | CallStep i => step_call i x
  end.

Fixpoint run x (ls : list label) : option sys :=
  match ls with [] => Some x | l :: ls => step x l ≫= fun x => run x ls end.

(** [newNodeRuntimeStateWriter] and [newNodeRuntimeAppendWriter], over the file there is. *)
Definition init (f : option V) : sys := mkSys (mkWriter None false false) f None ∅ [] false.

(** Values put one after another. *)
Definition put_all (f : option V) (vs : list V) : option V := foldl put f vs.

Definition stores (ls : list label) : list V := omap (fun l => match l with Store _ v => Some v | _ => None end) ls.

(** ** The values that are somewhere are those that were stored *)

#[global] Instance agent_eq_dec : EqDecision agent.
Proof. solve_decision. Defined.

Definition cat (f o : option V) : option V := match o with Some v => put f v | None => f end.

(** The one value that is being written, if there is one. *)
Definition owner x (h : option (agent * V)) : Prop :=
  forall a, holds x a = match h with Some (b, v) => if decide (a = b) then Some v else None | None => None end.

Record inv (f0 : option V) x : Prop := mkInv {
  i_value : overlap x = false -> exists h, owner x h /\ cat (cat (file x) (snd <$> h)) (pending (w x)) = put_all f0 (stored x);
  i_runner : scheduled (w x) = true <-> is_Some (runner x);
  i_pending : is_Some (pending (w x)) -> scheduled (w x) = true;
  i_stop : match runner x with
           | Some (RunFlush true) => closed (w x) = true
           | Some (RunWrite _ true | RunCheck true) => closed (w x) = true /\ pending (w x) = None
           | _ => True
           end
}.

Lemma idle_holds x : busy x = false -> forall a, holds x a = None.
Proof.
  unfold busy. intros H [|i]; cbn; [by destruct (runner x ≫= run_holds)|].
  destruct (runner x ≫= run_holds); [done|]. destruct (callers x !! i) as [c|] eqn:E; [|done]. cbn.
  apply eq_None_not_Some. intros Hc. apply bool_decide_eq_false in H. apply H. by exists i, c.
Qed.

Lemma owner_holds x h b v : owner x h -> holds x b = Some v -> h = Some (b, v).
Proof. intros H E. rewrite H in E. destruct h as [[b' v']|]; [|done]. case_decide; congruence. Qed.

Lemma owner_same x x' h : (forall a, holds x' a = holds x a) -> owner x h -> owner x' h.
Proof. intros H Ho a. by rewrite H. Qed.

Lemma owner_take x x' b v :
  (forall a, holds x a = None) -> (forall a, a <> b -> holds x' a = holds x a) -> holds x' b = Some v -> owner x' (Some (b, v)).
Proof. intros H Hs E a. destruct (decide (a = b)) as [ -> |Hne]; [done|]. by rewrite Hs, H. Qed.

Lemma owner_done x x' b v :
  owner x (Some (b, v)) -> (forall a, a <> b -> holds x' a = holds x a) -> holds x' b = None -> owner x' None.
Proof. intros H Hs E a. destruct (decide (a = b)) as [ -> |Hne]; [done|]. rewrite Hs, H by done. by rewrite decide_False. Qed.

Lemma other_callers x x' i c :
  callers x' = set_caller i c (callers x) -> runner x' = runner x -> forall a, a <> Caller i -> holds x' a = holds x a.
Proof.
  intros Hc Hr [|j] Hne; cbn; [by rewrite Hr|]. rewrite Hc. assert (i <> j) by congruence.
  destruct c; cbn; [by rewrite lookup_insert_ne|by rewrite lookup_delete_ne].
Qed.

Lemma quiet_caller x x' i c :
  callers x' = set_caller i c (callers x) -> runner x' = runner x -> holds x (Caller i) = None ->
  c ≫= call_holds = None -> forall a, holds x' a = holds x a.
Proof.
  intros Hc Hr Hi Hn a. destruct (decide (a = Caller i)) as [ -> |Hne]; [|by eapply other_callers].
  rewrite Hi. cbn. rewrite Hc. destruct c; cbn; [by rewrite lookup_insert_eq|by rewrite lookup_delete_eq].
Qed.

Lemma other_runner x x' : callers x' = callers x -> forall a, a <> Runner -> holds x' a = holds x a.
Proof. intros Hc [|j] Hne; [done|]. cbn. by rewrite Hc. Qed.

Context `{!Assoc (=) op}.

Lemma put_cat f p v : cat f (put p v) = put (cat f p) v.
Proof. destruct p as [a|]; [|done]. destruct f; cbn; [|done]. unfold put. by rewrite (assoc op). Qed.

Lemma put_all_snoc f vs v : put_all f (vs ++ [v]) = put (put_all f vs) v.
Proof. unfold put_all. by rewrite foldl_app. Qed.

Lemma step_run_inv f0 stop x x' : inv f0 x -> step_run stop x = Some x' -> inv f0 x' /\ stored x' = stored x.
Proof.
  intros [Hv Hr Hp Hs] E. unfold step_run in E. destruct (runner x) as [r|] eqn:Er; [|done]. assert (scheduled (w x) = true) as Hsch by (by apply Hr).
  destruct r as [|s|v s|s].
  - destruct (stop && negb (closed (w x))) eqn:Eb; [done|]. injection E as <-. split; [|done]. split; cbn; [|by rewrite Hsch|done|].
    + intros Ho. destruct (Hv Ho) as (h & H1 & H2). exists h. split; [|done]. apply (owner_same x); [|done]. intros [|j]; [|done]. cbn. by rewrite Er.
    + destruct stop; [|done]. cbn in Eb. by destruct (closed (w x)).
  - destruct (pending (w x)) as [v|] eqn:Ep; injection E as <-; (split; [|done]).
    + split; cbn; [|by rewrite Hsch|by intros []|by destruct s].
      intros Ho. apply orb_false_iff in Ho as [Ho Hb]. destruct (Hv Ho) as (h & H1 & H2). pose proof (idle_holds x Hb) as Hi.
      exists (Some (Runner, v)). split; [apply (owner_take x); [done|by apply other_runner|done]|].
      destruct h as [[b u]|]; [|done]. specialize (H1 b). rewrite Hi, decide_True in H1 by done. done.
    + split; cbn; [|by rewrite Hsch|by intros []|by destruct s]. intros Ho. destruct (Hv Ho) as (h & H1 & H2). exists h. split; [|done].
      apply (owner_same x); [|done]. intros [|j]; [|done]. cbn. by rewrite Er.
  - injection E as <-. split; [|done]. split; cbn; [|by rewrite Hsch|done|by destruct s].
    intros Ho. destruct (Hv Ho) as (h & H1 & H2). assert (h = Some (Runner, v)) as -> by (apply (owner_holds x); [done|cbn; by rewrite Er]).
    exists None. split; [apply (owner_done x _ Runner v); [done|by apply other_runner|done]|done].
  - assert (Hq : forall r', (r' = None \/ r' = Some RunWait) -> forall w', pending w' = pending (w x) ->
      let y := mkSys w' (file x) r' (callers x) (stored x) (overlap x) in
      overlap y = false -> exists h, owner y h /\ cat (cat (file y) (snd <$> h)) (pending (w y)) = put_all f0 (stored y)).
    { intros r' Hr' w' Ew y Ho. destruct (Hv Ho) as (h & H1 & H2). exists h. split; [|cbn; by rewrite Ew].
      apply (owner_same x); [|done]. intros [|j]; [|done]. cbn. rewrite Er. by destruct Hr' as [ -> | -> ]. }
    destruct s, (pending (w x)) as [v|] eqn:Ep; injection E as <-; (split; [|done]); (split; [apply Hq; auto|..]); cbn; try done; try (by rewrite Hsch).
    by destruct Hs.
Qed.

Lemma set_caller_now i c m : set_caller i c m !! i = c.
Proof. destruct c; cbn; [apply lookup_insert_eq|apply lookup_delete_eq]. Qed.

Lemma next_call_holds k : next_call k ≫= call_holds = None.
Proof. by destruct k. Qed.

Lemma step_call_inv f0 i x x' : inv f0 x -> step_call i x = Some x' -> inv f0 x' /\ stored x' = stored x.
Proof.
  intros [Hv Hr Hp Hs] E. unfold step_call in E. destruct (callers x !! i) as [c|] eqn:Ec; [|done].
  (* a write by the caller *)
  assert (Hw : forall v k, call_holds c = Some v -> k ≫= call_holds = None ->
    inv f0 (mkSys (w x) (put (file x) v) (runner x) (set_caller i k (callers x)) (stored x) (overlap x))).
  { intros v k Hc Hk. split; cbn; [|done..]. intros Ho. destruct (Hv Ho) as (h & H1 & H2).
    assert (h = Some (Caller i, v)) as -> by (apply (owner_holds x); [done|cbn; by rewrite Ec]).
    exists None. split; [|done]. apply (owner_done x _ (Caller i) v); [done|by apply other_callers with k|cbn; by rewrite set_caller_now]. }
  (* a step that neither takes nor writes *)
  assert (Hq : forall k, call_holds c = None -> k ≫= call_holds = None -> forall w', w' = w x ->
    inv f0 (mkSys w' (file x) (runner x) (set_caller i k (callers x)) (stored x) (overlap x))).
  { intros k Hc Hk w' ->. split; cbn; [|done..]. intros Ho. destruct (Hv Ho) as (h & H1 & H2). exists h. split; [|done].
    apply (owner_same x); [|done]. apply (quiet_caller x _ i k); [done|done|cbn; by rewrite Ec|done]. }
  destruct c as [v|k|v k|].
  - injection E as <-. split; [by apply (Hw v None)|done].
  - destruct (pending (w x)) as [v|] eqn:Ep; injection E as <-; (split; [|done]).
    + split; cbn; [|done|by intros []|destruct (runner x) as [[|[]|? []|[]]|]; first [done | congruence | by destruct Hs | destruct Hs; congruence]].
      intros Ho. apply orb_false_iff in Ho as [Ho Hb]. destruct (Hv Ho) as (h & H1 & H2). pose proof (idle_holds x Hb) as Hi.
      exists (Some (Caller i, v)). split; [apply (owner_take x); [done|by apply (other_callers x _ i (Some (FlushWrite v k)))|cbn; by rewrite lookup_insert_eq]|].
      destruct h as [[b u]|]; [|done]. specialize (H1 b). rewrite Hi, decide_True in H1 by done. done.
    + apply Hq; [done|apply next_call_holds|]. destruct (w x) as [p1 p2 p3]. cbn in *. by rewrite Ep.
  - injection E as <-. split; [apply (Hw v); [done|apply next_call_holds]|done].
  - destruct (runner x) eqn:Er; [done|]. injection E as <-. split; [|done]. by apply (Hq (Some (FlushTake Return))).
Qed.

Lemma writer_step_inv f0 l x x' : inv f0 x -> step x l = Some x' -> inv f0 x' /\ stored x' = stored x ++ stores [l].
Proof.
  intros Hi E. destruct l as [i v|i|i|stop|i]; cbn in *; rewrite ?app_nil_r; [| | |by eapply step_run_inv|by eapply step_call_inv].
  - case_decide as Ec; [|done]. destruct (closed (w x)) eqn:Ecl; injection E as <-; destruct Hi as [Hv Hr Hp Hs]; (split; [|done]).
    + split; cbn; [|done..]. intros Ho. apply orb_false_iff in Ho as [Ho Hn]. apply orb_false_iff in Ho as [Ho Hb].
      apply bool_decide_eq_false in Hn. apply eq_None_not_Some in Hn. pose proof (idle_holds x Hb) as Hi'.
      destruct (Hv Ho) as (h & H1 & H2). exists (Some (Caller i, v)). split.
      * apply (owner_take x); [done|by apply (other_callers x _ i (Some (StoreWrite v)))|cbn; by rewrite lookup_insert_eq].
      * rewrite Hn in *. destruct h as [[b u]|]; [specialize (H1 b); by rewrite Hi', decide_True in H1|]. cbn in *. by rewrite put_all_snoc, <- H2.
    + split; cbn; [| |done|].
      * intros Ho. destruct (Hv Ho) as (h & H1 & H2). exists h. split; [|rewrite put_all_snoc, <- H2; exact (put_cat _ _ _)].
        apply (owner_same x); [|done]. intros [|j]; [|done]. cbn. destruct (scheduled (w x)) eqn:Esc; [done|].
        destruct (runner x); [|done]. assert (false = true) by (by apply Hr). done.
      * split; [|done]. intros _. destruct (scheduled (w x)); [by apply Hr|done].
      * destruct (scheduled (w x)); [|done]. destruct (runner x) as [[|[]|? []|[]]|]; first [done | congruence | by destruct Hs | destruct Hs; congruence].
  - case_decide as Ec; [|done]. injection E as <-. split; [|done]. destruct Hi as [Hv Hr Hp Hs]. split; cbn; [|done..].
    intros Ho. destruct (Hv Ho) as (h & H1 & H2). exists h. split; [|done]. apply (owner_same x); [|done].
    apply (quiet_caller x _ i (Some (FlushTake Return))); [done|done|cbn; by rewrite Ec|done].
  - case_decide as Ec; [|done]. injection E as <-. split; [|done]. destruct Hi as [Hv Hr Hp Hs]. split; cbn; [|done|done|].
    + intros Ho. destruct (Hv Ho) as (h & H1 & H2). exists h. split; [|done]. apply (owner_same x); [|done].
      apply (quiet_caller x _ i (Some (FlushTake AwaitRun))); [done|done|cbn; by rewrite Ec|done].
    + destruct (runner x) as [[|[]|? []|[]]|]; first [done | congruence | by destruct Hs | destruct Hs; congruence].
Qed.

Lemma writer_init_inv f : inv f (init f).
Proof. split; cbn; [|by split; [|intros []]|by intros []|done]. intros _. exists None. split; [by intros [|i]|done]. Qed.

Lemma writer_run_inv f0 ls x x' : inv f0 x -> run x ls = Some x' -> inv f0 x' /\ stored x' = stored x ++ stores ls.
Proof.
  revert x. induction ls as [|l ls IH]; intros x Hi E; cbn in E; [injection E as <-; cbn; by rewrite app_nil_r|].
  destruct (step x l) as [y|] eqn:Es; [|done]. destruct (writer_step_inv f0 l x y Hi Es) as [Hy Est].
  destruct (IH y Hy E) as [Hx' ->]. split; [done|]. rewrite Est, <- app_assoc. f_equal. unfold stores. by rewrite <- omap_app.
Qed.

(** At rest nothing is pending and nobody writes. *)
Definition at_rest x : Prop := runner x = None /\ callers x = ∅.

Lemma rest_value f0 x : inv f0 x -> at_rest x -> overlap x = false -> file x = put_all f0 (stored x).
Proof.
  intros [Hv Hr Hp _] [E1 E2] Ho. destruct (Hv Ho) as (h & H1 & H2).
  assert (pending (w x) = None) as Ep.
  { apply eq_None_not_Some. intros Hs. apply Hp, Hr in Hs. rewrite E1 in Hs. by destruct Hs. }
  destruct h as [[b v]|]; [|by rewrite Ep in H2]. specialize (H1 b). cbn beta iota in H1. rewrite (decide_True _ _ (eq_refl b)) in H1.
  destruct b; cbn in H1; [by rewrite E1 in H1|by rewrite E2, lookup_empty in H1].
Qed.

(** A history without [Flush] and [Close]. *)
Definition own (l : label) : bool := match l with Store _ _ | RunStep _ => true | _ => false end.

Record alone x : Prop := mkAlone { a_overlap : overlap x = false; a_callers : callers x = ∅; a_closed : closed (w x) = false }.

Lemma alone_busy x : callers x = ∅ -> runner x ≫= run_holds = None -> busy x = false.
Proof. intros E1 E2. unfold busy. rewrite E1, E2. apply bool_decide_eq_false. intros (i & c & H & _). by rewrite lookup_empty in H. Qed.

Lemma alone_step l x x' : alone x -> own l = true -> step x l = Some x' -> alone x'.
Proof.
  intros [H1 H2 H3] Hl E. destruct l as [i v|i|i|stop|i]; try done; cbn in E.
  - case_decide; [|done]. rewrite H3 in E. injection E as <-. by split.
  - unfold step_run in E. destruct (runner x) as [[|s|v s|s]|] eqn:Er; [| | | |done].
    + case_match; [done|]. injection E as <-. by split.
    + destruct (pending (w x)); injection E as <-; split; cbn; [|done..|done|done|done]. rewrite H1. apply alone_busy; [done|by rewrite Er].
    + injection E as <-. by split.
    + destruct s, (pending (w x)); injection E as <-; by split.
Qed.

Lemma alone_run ls x x' : alone x -> forallb own ls = true -> run x ls = Some x' -> alone x'.
Proof.
  revert x. induction ls as [|l ls IH]; intros x Ha Hl E; cbn in *; [by injection E as <-|]. apply andb_true_iff in Hl as [Hl Hls].
  destruct (step x l) as [y|] eqn:Es; [|done]. eapply IH; [by eapply alone_step|done|done].
Qed.

(** The goroutine left to itself ends within six steps. *)
Lemma runner_ends f0 x : inv f0 x -> closed (w x) = false ->
  exists n y, (n <= 6)%nat /\ run x (replicate n (RunStep false)) = Some y /\ runner y = None.
Proof.
  intros [_ _ _ Hs] Hc. destruct x as [[p sc cl] f [[|[]|v []|[]]|] cs st ov]; cbn in *; subst; try done; try (by destruct Hs); destruct p;
    (let go n := (exists n; eexists; split; [lia|]; split; reflexivity) in
     first [go 0%nat | go 1%nat | go 2%nat | go 3%nat | go 4%nat | go 5%nat | go 6%nat]).
Qed.

End Writer.

(** A state replaces the one before it, and bytes are appended to those before them. *)
Definition replace {S : Type} (_ new : S) : S := new.
#[global] Instance replace_assoc {S : Type} : Assoc (=) (@replace S).
Proof. by intros x y z. Qed.

(** ** Properties *)

(** Whatever stores, flushes and closings do at the same time, when they have ended the file
    holds every value stored, in the order of the stores, unless a value was taken for
    writing while an older one was not yet written. *)
Theorem writers_keep_everything {V : Type} (op : V -> V -> V) `{!Assoc (=) op} f ls x :
  run op (init f) ls = Some x -> at_rest x -> overlap x = false -> file x = put_all op f (stores ls).
Proof. intros E Hr Ho. destruct (writer_run_inv op f ls (init f) x (writer_init_inv op f) E) as [Hi Es]. by rewrite (rest_value op f x Hi Hr Ho), Es. Qed.

(** C40. As long as the writer is neither closed nor flushed by others, what is stored reaches
    the file: however the goroutine and the stores interleave, after at most six more steps
    the goroutine has ended and the file is the old file with every value stored since put in
    order. *)
Theorem stores_reach_the_file {V : Type} (op : V -> V -> V) `{!Assoc (=) op} f ls x :
  forallb own ls = true -> run op (init f) ls = Some x ->
  exists n y, (n <= 6)%nat /\ run op x (replicate n (RunStep false)) = Some y /\ runner y = None /\ file y = put_all op f (stores ls).
Proof.
  intros Hl E. assert (alone x) as Ha by (eapply alone_run; [|done|done]; by split).
  destruct (writer_run_inv op f ls (init f) x (writer_init_inv op f) E) as [Hi Es].
  destruct (runner_ends op f x Hi (a_closed _ Ha)) as (n & y & Hn & En & Hr). exists n, y. split; [done|]. split; [done|]. split; [done|].
  assert (alone y) as Hy. { eapply alone_run; [done| |done]. clear. by induction n. }
  destruct (writer_run_inv op f _ x y Hi En) as [Hiy Esy]. rewrite (rest_value op f y Hiy); [|by split; [|apply Hy]|apply Hy].
  rewrite Esy, Es. cbn. f_equal. clear. induction n; [by rewrite app_nil_r|done].
Qed.

Definition ex_stores : list (label (V := Z)) :=
  [Store 0 1; RunStep false; RunStep false; Store 0 2; RunStep false; Store 0 3].

Lemma stores_reach_the_file_witness :
  exists n y, (n <= 6)%nat /\
    match run replace (init (Some 0)) ex_stores with Some x => run replace x (replicate n (RunStep false)) | None => None end = Some y /\
    runner y = None /\ file y = Some 3.
Proof.
  destruct (run replace (init (Some 0)) ex_stores) as [x|] eqn:E; [|revert E; vm_compute; discriminate].
  exact (stores_reach_the_file replace (Some 0) ex_stores x eq_refl E).
Defined.

(** Closing does not keep this: while the goroutine is between taking the first state and
    writing it, a second one is stored and the writer is closed; the closing call writes the
    second state, the goroutine then writes the first over it, and when [Close] returns the
    file holds the first. *)
Theorem close_restores_old_state :
  let ls := [Store 0 101; RunStep false; RunStep false; Store 0 102; Close 1; CallStep 1; CallStep 1; RunStep false; RunStep false; CallStep 1; CallStep 1] in
  match run replace (init None) ls with
  | Some x => at_rest x /\ closed (w x) = true /\ stored x = [101; 102] /\ file x = Some 101
  | None => False
  end.
Proof. vm_compute. by repeat split. Qed.
