(* ===== verification/CallbackQueue.v ===== *)
(** The queues of callbacks that could not be delivered: one bounded queue per platform,
    with retries, clearing, reconfiguration, and the state file from which a restart reads
    the queues back.

    Source: [web/routers/node_callbacks.go], [nodeCallbackQueueStore].

    A payload is a value of any type.  Each operation is its part under the mutex; it answers
    with what it notes and emits, and with the numbered snapshot that it has still to save.
    Saving takes two steps under [persistMu], which calls of other goroutines interleave.
    Notes for several platforms come in the order of a walk over a map. *)

From stdpp Require Import sorting.
From S2P Require Import Prelude GoString.
Local Open Scope string_scope.
Local Open Scope list_scope.
Local Open Scope Z_scope.

Section Queue.
Context {P : Type}.

Record nodeCallbackQueuedItem := mkItem {
  ID : Z; PlatformID : string; EnqueuedAt : Z; LastAttemptAt : Z; Attempts : Z; Payload : P
}.
Notation queue := (list nodeCallbackQueuedItem).

Record nodeCallbackQueuePersistedState := mkPersisted { Version : Z; NextID : Z; Items : queue }.

Record nodeCallbackQueueStore := mkStore { nextID : Z; persistSeq : Z; maxByID : gmap string Z; items : gmap string queue }.
Implicit Types s : nodeCallbackQueueStore.

Inductive effect :=
  | NoteCallbackQueued (platformID : string) (queueSize : Z) (dropped : bool)
  | NoteCallbackQueueSize (platformID : string) (queueSize : Z)
  | QueueUpdated (platformID : string) (queueSize queueMax : Z) (cause : string) (item : option nodeCallbackQueuedItem) (dropped : bool) (cleared : Z).

(** The snapshot to be saved, with its number. *)
Notation saving := (option (Z * nodeCallbackQueuePersistedState)).

Definition nodeRuntimeStateVersion : Z := 1.
Definition nodeRuntimeStateVersionSupported (version : Z) : bool := (version =? 0) || (version =? nodeRuntimeStateVersion).

Definition len (q : queue) : Z := Z.of_nat (length q).
Definition queue_of s (platformID : string) : queue := default [] (items s !! platformID).
Definition max_of s (platformID : string) : Z := default 0 (maxByID s !! platformID).

Definition trimNodeCallbackQueueItemsInPlace (q : queue) (keep : Z) : queue * bool :=
  if keep <=? 0 then ([], 0 <? len q)
  else if len q <=? keep then (q, false)
  else (drop (Z.to_nat (len q - keep)) q, true).

Definition removeNodeCallbackQueueItemInPlace (q : queue) (index : Z) : queue :=
  if (index <? 0) || (len q <=? index) then q else delete (Z.to_nat index) q.

Definition snapshotPersistedStateLocked s : nodeCallbackQueuePersistedState :=
  mkPersisted nodeRuntimeStateVersion (nextID s)
    (map_to_list (items s) ≫= fun '(platformID, q) =>
       (fun i => mkItem (ID i) platformID (EnqueuedAt i) (LastAttemptAt i) (Attempts i) (Payload i)) <$> q).

Definition nextPersistedStateLocked s : (Z * nodeCallbackQueuePersistedState) * nodeCallbackQueueStore :=
  let s := mkStore (nextID s) (persistSeq s + 1) (maxByID s) (items s) in
  ((persistSeq s, snapshotPersistedStateLocked s), s).

Definition set_queue s (platformID : string) (q : queue) : nodeCallbackQueueStore :=
  mkStore (nextID s) (persistSeq s) (maxByID s) (<[platformID := q]> (items s)).

Definition Enqueue (now : Z) (platformID : string) (payload : P) s : (Z * bool) * list effect * saving * nodeCallbackQueueStore :=
  let platformID := TrimSpace platformID in
  if bool_decide (platformID = "") then (0, false, [], None, s)
  else
    let queueMax := max_of s platformID in
    if queueMax <=? 0 then (len (queue_of s platformID), false, [], None, s)
    else
      let s := mkStore (nextID s + 1) (persistSeq s) (maxByID s) (items s) in
      let item := mkItem (nextID s) platformID now 0 0 payload in
      let '(q, dropped) := trimNodeCallbackQueueItemsInPlace (queue_of s platformID ++ [item]) queueMax in
      let '(p, s) := nextPersistedStateLocked (set_queue s platformID q) in
      (len q, dropped, [NoteCallbackQueued platformID (len q) dropped; QueueUpdated platformID (len q) queueMax "queued" (Some item) dropped 0], Some p, s).

Definition Peek (platformID : string) s : option nodeCallbackQueuedItem :=
  let platformID := TrimSpace platformID in
  if bool_decide (platformID = "") then None else head (queue_of s platformID).

Definition find_item (itemID : Z) (q : queue) : option (nat * nodeCallbackQueuedItem) := list_find (fun i => ID i = itemID) q.

Definition MarkAttempt (now : Z) (platformID : string) (itemID : Z) s : Z * list effect * saving * nodeCallbackQueueStore :=
  let platformID := TrimSpace platformID in
  if bool_decide (platformID = "") || (itemID <=? 0) then (0, [], None, s)
  else
    let q := queue_of s platformID in
    match find_item itemID q with
    | Some (index, i) =>
        let i := mkItem (ID i) (PlatformID i) (EnqueuedAt i) now (Attempts i + 1) (Payload i) in
        let q := <[index := i]> q in
        let '(p, s) := nextPersistedStateLocked (set_queue s platformID q) in
        (len q, [QueueUpdated platformID (len q) (max_of s platformID) "attempted" (Some i) false 0], Some p, s)
    | None => (len q, [], None, s)
    end.

Definition Remove (platformID : string) (itemID : Z) s : Z * list effect * saving * nodeCallbackQueueStore :=
  let platformID := TrimSpace platformID in
  if bool_decide (platformID = "") || (itemID <=? 0) then (0, [], None, s)
  else
    let q := queue_of s platformID in
    match find_item itemID q with
    | Some (index, _) =>
        let q := removeNodeCallbackQueueItemInPlace q (Z.of_nat index) in
        let '(p, s) := nextPersistedStateLocked (set_queue s platformID q) in
        (len q, [NoteCallbackQueueSize platformID (len q)], Some p, s)
    | None => (len q, [], None, s)
    end.

Definition Size (platformID : string) s : Z :=
  let platformID := TrimSpace platformID in
  if bool_decide (platformID = "") then 0 else len (queue_of s platformID).

Definition List_ (platformID : string) (limit : Z) s : queue :=
  let platformID := TrimSpace platformID in
  if bool_decide (platformID = "") then []
  else
    let limit := if limit <=? 0 then 20 else limit in
    let limit := if 200 <? limit then 200 else limit in
    take (Z.to_nat limit) (queue_of s platformID).

Definition Clear (platformID : string) s : Z * list effect * saving * nodeCallbackQueueStore :=
  let platformID := TrimSpace platformID in
  if bool_decide (platformID = "") then (0, [], None, s)
  else
    let size := len (queue_of s platformID) in
    let '(p, s) := nextPersistedStateLocked (mkStore (nextID s) (persistSeq s) (maxByID s) (delete platformID (items s))) in
    (size, [NoteCallbackQueueSize platformID 0; QueueUpdated platformID 0 (max_of s platformID) "cleared" None false size], Some p, s).

(** [applyStatusUpdates] of sizes. *)
Definition note_sizes (sizes : list (string * Z)) : list effect :=
  omap (fun '(platformID, size) => let platformID := TrimSpace platformID in
          if bool_decide (platformID = "") then None else Some (NoteCallbackQueueSize platformID size)) sizes.

Definition Reset s : list effect * saving * nodeCallbackQueueStore :=
  let '(p, s) := nextPersistedStateLocked (mkStore 0 (persistSeq s) (maxByID s) ∅) in
  (note_sizes ((fun '(platformID, _) => (platformID, 0)) <$> map_to_list (maxByID s)), Some p, s).

Definition trim_platform (max : gmap string Z) (platformID : string) (q : queue) : option queue :=
  let m := default 0 (max !! platformID) in
  if m <=? 0 then None else Some (trimNodeCallbackQueueItemsInPlace q m).1.

Definition trimAndPersist s : list effect * saving * nodeCallbackQueueStore :=
  let kept := map_imap (trim_platform (maxByID s)) (items s) in
  let sizes := (fun '(platformID, _) => (platformID, len (default [] (kept !! platformID)))) <$> map_to_list (items s) in
  let '(p, s) := nextPersistedStateLocked (mkStore (nextID s) (persistSeq s) (maxByID s) kept) in
  (note_sizes sizes, Some p, s).

(** The first part of [Configure], which [trimAndPersist] follows. *)
Definition set_platforms (platforms : list (string * Z)) s : nodeCallbackQueueStore :=
  let m := foldl (fun m '(platformID, max) => let platformID := TrimSpace platformID in
                    if bool_decide (platformID = "") then m else <[platformID := max]> m) ∅ platforms in
  mkStore (nextID s) (persistSeq s) m (items s).

Definition Configure (platforms : list (string * Z)) s : list effect * saving * nodeCallbackQueueStore :=
  trimAndPersist (set_platforms platforms s).

(** ** Saving *)

(** The order of the saved items: by platform, then by number. *)
Definition item_le (x y : nodeCallbackQueuedItem) : Prop :=
  if decide (PlatformID x = PlatformID y) then ID x <= ID y else String.leb (PlatformID x) (PlatformID y) = true.
Definition id_le (x y : nodeCallbackQueuedItem) : Prop := ID x <= ID y.
#[global] Instance item_le_dec : RelDecision item_le.
Proof. intros x y. unfold item_le. case_decide; apply _. Defined.
#[global] Instance id_le_dec : RelDecision id_le := fun x y => decide (ID x <= ID y).

Definition cloneNodeCallbackQueuePersistedState (st : nodeCallbackQueuePersistedState) : nodeCallbackQueuePersistedState :=
  mkPersisted (Version st) (NextID st) (merge_sort item_le (Items st)).

(** Goroutines with the operation they call and then its snapshot to save; one of them holds
    [persistMu] once it has compared its number with the latest. *)
Inductive call :=
  | CallEnqueue (now : Z) (platformID : string) (payload : P)
  | CallMarkAttempt (now : Z) (platformID : string) (itemID : Z)
  | CallRemove (platformID : string) (itemID : Z)
  | CallClear (platformID : string)
  | CallReset
  | CallSetPlatforms (platforms : list (string * Z))
  | CallTrim.

Definition do_call (c : call) s : saving * nodeCallbackQueueStore :=
  match c with
  | CallEnqueue now platformID payload => let '(_, _, p, s) := Enqueue now platformID payload s in (p, s)
  | CallMarkAttempt now platformID itemID => let '(_, _, p, s) := MarkAttempt now platformID itemID s in (p, s)
  | CallRemove platformID itemID => let '(_, _, p, s) := Remove platformID itemID s in (p, s)
  | CallClear platformID => let '(_, _, p, s) := Clear platformID s in (p, s)
  | CallReset => let '(_, p, s) := Reset s in (p, s)
  | CallSetPlatforms platforms => (None, set_platforms platforms s)
  | CallTrim => let '(_, p, s) := trimAndPersist s in (p, s)
  end.

Record sys := mkSys {
  store : nodeCallbackQueueStore; saved : option nodeCallbackQueuePersistedState; persistMu : option nat;
  savers : gmap nat (Z * nodeCallbackQueuePersistedState)
}.

Inductive label := Do (i : nat) (c : call) | Compare (i : nat) | Save (i : nat).

Definition step (x : sys) (l : label) : option sys :=
  match l with
  | Do i c =>
      match savers x !! i with
      | Some _ => None
      | None =>
          let '(p, s) := do_call c (store x) in
          Some (mkSys s (saved x) (persistMu x) (match p with Some p => <[i := p]> (savers x) | None => savers x end))
      end
  | Compare i =>
      match persistMu x, savers x !! i with
      | None, Some (seq, _) =>
          if seq <? persistSeq (store x) then Some (mkSys (store x) (saved x) None (delete i (savers x)))
          else Some (mkSys (store x) (saved x) (Some i) (savers x))
      | _, _ => None
      end
  | Save i =>
      match savers x !! i with
      | Some (_, st) =>
          if decide (persistMu x = Some i)
          then Some (mkSys (store x) (Some (cloneNodeCallbackQueuePersistedState st)) None (delete i (savers x))) else None
      | None => None
      end
  end.

Fixpoint run (x : sys) (ls : list label) : option sys :=
  match ls with [] => Some x | l :: ls => step x l ≫= fun x => run x ls end.

(** ** Restart *)

Definition load_item (max : gmap string Z) (acc : gmap string queue * Z) (i : nodeCallbackQueuedItem) : gmap string queue * Z :=
  let '(m, next) := acc in
  let platformID := TrimSpace (PlatformID i) in
  if bool_decide (platformID = "") then acc
  else match max !! platformID with
  | None => acc
  | Some _ => (<[platformID := default [] (m !! platformID) ++ [i]]> m, if next <? ID i then ID i else next)
  end.

Definition load (file : option nodeCallbackQueuePersistedState) s : nodeCallbackQueueStore :=
  match file with
  | None => s
  | Some st =>
      if negb (nodeRuntimeStateVersionSupported (Version st)) then s
      else
        let '(m, next) := foldl (load_item (maxByID s)) (∅, NextID st) (Items st) in
        mkStore next (persistSeq s) (maxByID s) (merge_sort id_le <$> m)
  end.

Definition max_by_id (platforms : list (string * Z)) : gmap string Z :=
  foldl (fun m '(platformID, max) => <[TrimSpace platformID := max]> m) ∅ platforms.

Definition newNodeCallbackQueueStore (platforms : list (string * Z)) (file : option nodeCallbackQueuePersistedState) : nodeCallbackQueueStore :=
  (trimAndPersist (load file (mkStore 0 0 (max_by_id platforms) ∅))).2.

Definition start : sys := mkSys (mkStore 0 0 ∅ ∅) None None ∅.

(** ** The queues *)

Definition id_lt (x y : nodeCallbackQueuedItem) : Prop := ID x < ID y.

Definition queue_ok (next : Z) (platformID : string) (q : queue) : Prop :=
  TrimSpace platformID = platformID /\ platformID <> "" /\ StronglySorted id_lt q /\
  Forall (fun i => 0 < ID i <= next /\ PlatformID i = platformID) q.

Definition store_ok s : Prop := 0 <= nextID s /\ map_Forall (queue_ok (nextID s)) (items s) /\ map_Forall (fun k _ => TrimSpace k = k) (maxByID s).

Lemma queue_of_ok s platformID :
  store_ok s -> TrimSpace platformID = platformID -> platformID <> "" -> queue_ok (nextID s) platformID (queue_of s platformID).
Proof.
  intros (_ & H & _) Ht Hn. unfold queue_of. destruct (items s !! platformID) as [q|] eqn:E; [by apply (H platformID)|].
  split; [done|]. split; [done|]. split; constructor.
Qed.

Lemma queue_ok_mono n n' k q : n <= n' -> queue_ok n k q -> queue_ok n' k q.
Proof. intros Hn (H1 & H2 & H3 & H4). split; [done|]. split; [done|]. split; [done|]. eapply Forall_impl; [done|]. cbn. intros i [? ?]. split; [lia|done]. Qed.

Lemma StronglySorted_sublist {A} (R : A -> A -> Prop) (l k : list A) : l `sublist_of` k -> StronglySorted R k -> StronglySorted R l.
Proof.
  intros H. induction H as [|x l k Hs IH|x l k Hs IH]; intros Hk; [done|..].
  - apply StronglySorted_inv in Hk as [Hk Hx]. constructor; [auto|]. by eapply forall_sublist.
  - apply StronglySorted_inv in Hk as [Hk _]. auto.
Qed.

Lemma queue_ok_sublist n k q q' : q' `sublist_of` q -> queue_ok n k q -> queue_ok n k q'.
Proof.
  intros Hs (H1 & H2 & H3 & H4). split; [done|]. split; [done|]. split; [by eapply StronglySorted_sublist|]. by eapply forall_sublist.
Qed.

Lemma trim_sublist q keep : (trimNodeCallbackQueueItemsInPlace q keep).1 `sublist_of` q.
Proof. unfold trimNodeCallbackQueueItemsInPlace. repeat case_match; cbn; [apply sublist_nil_l|done|apply sublist_drop]. Qed.

Lemma remove_sublist q index : removeNodeCallbackQueueItemInPlace q index `sublist_of` q.
Proof. unfold removeNodeCallbackQueueItemInPlace. case_match; [done|]. apply sublist_delete. Qed.

Lemma StronglySorted_snoc {A} (R : A -> A -> Prop) (l : list A) x : StronglySorted R l -> Forall (fun y => R y x) l -> StronglySorted R (l ++ [x]).
Proof.
  induction l as [|y l IH]; intros Hl Hx; cbn; [repeat constructor|]. apply StronglySorted_inv in Hl as [Hl Hy]. apply Forall_cons in Hx as [? ?].
  constructor; [auto|]. apply Forall_app. by split; [|constructor].
Qed.

Lemma queue_ok_snoc n k q i :
  queue_ok n k q -> 0 <= n -> ID i = n + 1 -> PlatformID i = k -> queue_ok (n + 1) k (q ++ [i]).
Proof.
  intros (H1 & H2 & H3 & H4) Hn Hi Hk. split; [done|]. split; [done|]. split.
  - apply StronglySorted_snoc; [done|]. eapply Forall_impl; [done|]. cbn. unfold id_lt. intros y [? ?]. lia.
  - apply Forall_app. split; [|constructor; [split; [lia|done]|done]]. eapply Forall_impl; [done|]. cbn. intros y [? ?]. split; [lia|done].
Qed.

Lemma StronglySorted_alter {A} (R : A -> A -> Prop) (f : A -> A) (l : list A) n :
  (forall x y, R x y -> R (f x) y) -> (forall x y, R x y -> R x (f y)) -> StronglySorted R l -> StronglySorted R (alter f n l).
Proof.
  intros Hl Hr. revert n. induction l as [|y l IH]; intros n H; [done|]. apply StronglySorted_inv in H as [H Hy].
  destruct n as [|n]; cbn; constructor; [done| |by apply IH|].
  - eapply Forall_impl; [done|]. auto.
  - apply Forall_alter; [done|]. auto.
Qed.

(** A change of one queue, and the numbering of the snapshot. *)
Lemma set_queue_ok s k q : store_ok s -> queue_ok (nextID s) k q -> store_ok (set_queue s k q).
Proof. intros (H0 & H1 & H2) Hq. split; [done|]. split; [|done]. by apply map_Forall_insert_2. Qed.

Lemma queue_next_ok s : store_ok s -> store_ok (nextPersistedStateLocked s).2.
Proof. done. Qed.

Lemma trimmed_name platformID : TrimSpace (TrimSpace platformID) = TrimSpace platformID.
Proof. apply TrimSpace_idem. Qed.

Lemma platforms_trimmed (ps : list (string * Z)) (m : gmap string Z) :
  map_Forall (fun k _ => TrimSpace k = k) m ->
  map_Forall (fun k _ => TrimSpace k = k)
    (foldl (fun m '(platformID, max) => let platformID := TrimSpace platformID in
                    if bool_decide (platformID = "") then m else <[platformID := max]> m) m ps).
Proof.
  revert m. induction ps as [|[k v] ps IH]; intros m Hm; cbn; [done|]. apply IH. case_bool_decide; [done|].
  apply map_Forall_insert_2; [apply TrimSpace_idem|done].
Qed.

Lemma do_call_ok c s : store_ok s -> store_ok (do_call c s).2.
Proof.
  intros Hs. pose proof Hs as (H0 & H1 & H2). destruct c as [now k v|now k id|k id|k| |ps|]; cbn.
  - unfold Enqueue. case_bool_decide; [done|]. destruct (max_of _ _ <=? 0); [done|].
    set (s1 := mkStore (nextID s + 1) _ _ _). destruct (trimNodeCallbackQueueItemsInPlace _ _) as [q d] eqn:Et. cbn [fst snd]. apply queue_next_ok.
    assert (Hs1 : store_ok s1).
    { split; [cbn; lia|]. split; [|done]. eapply map_Forall_impl; [done|]. cbn. intros j q'. apply queue_ok_mono. lia. }
    apply set_queue_ok; [done|]. replace q with (q, d).1 by done. rewrite <- Et. eapply queue_ok_sublist; [apply trim_sublist|].
    apply queue_ok_snoc; [|done..]. apply (queue_of_ok s); [done|apply TrimSpace_idem|done].
  - unfold MarkAttempt. destruct (_ || _) eqn:E; [done|]. apply orb_false_iff in E as [E _]. apply bool_decide_eq_false in E.
    destruct (find_item _ _) as [[index i]|] eqn:Ef; [|done]. cbn [fst snd]. apply queue_next_ok. apply set_queue_ok; [done|].
    apply list_find_Some in Ef as (Ei & _ & _). pose proof (queue_of_ok s _ Hs (TrimSpace_idem k) E) as (Q1 & Q2 & Q3 & Q4).
    set (f := fun i => mkItem (ID i) (PlatformID i) (EnqueuedAt i) now (Attempts i + 1) (Payload i)).
    change (queue_ok (nextID s) (TrimSpace k) (<[index := f i]> (queue_of s (TrimSpace k)))).
    assert (<[index := f i]> (queue_of s (TrimSpace k)) = alter f index (queue_of s (TrimSpace k))) as ->.
    { apply list_eq. intros j. destruct (decide (j = index)) as [ -> |Hne].
      - rewrite list_lookup_alter_eq, Ei, list_lookup_insert_eq by (by apply lookup_lt_Some in Ei). done.
      - by rewrite list_lookup_alter_ne, list_lookup_insert_ne. }
    split; [done|]. split; [done|]. split; [by apply StronglySorted_alter|by apply Forall_alter].
  - unfold Remove. destruct (_ || _) eqn:E; [done|]. apply orb_false_iff in E as [E _]. apply bool_decide_eq_false in E.
    destruct (find_item _ _) as [[index i]|] eqn:Ef; [|done]. cbn [fst snd]. apply queue_next_ok. apply set_queue_ok; [done|].
    eapply queue_ok_sublist; [apply remove_sublist|]. apply queue_of_ok; [done|apply TrimSpace_idem|done].
  - unfold Clear. case_bool_decide; [done|]. cbn [fst snd]. apply queue_next_ok. split; [done|]. split; [|done]. by apply map_Forall_delete.
  - by split.
  - split; [done|]. split; [done|]. apply platforms_trimmed. by intros k v Hk.
  - split; [done|]. split; [|done]. cbn. intros k q Hq. rewrite map_lookup_imap in Hq.
    destruct (items s !! k) as [q0|] eqn:E; [|done]. cbn in Hq. unfold trim_platform in Hq. case_match; [done|]. injection Hq as <-.
    eapply queue_ok_sublist; [apply trim_sublist|]. by apply H1.
Qed.

(** Each call that changes what a snapshot shows has a snapshot to save, with a new number. *)
Lemma do_call_saving c s :
  let '(p, s') := do_call c s in
  match p with
  | Some (seq, st) => seq = persistSeq s' /\ persistSeq s' = persistSeq s + 1 /\ st = snapshotPersistedStateLocked s'
  | None => persistSeq s' = persistSeq s /\ snapshotPersistedStateLocked s' = snapshotPersistedStateLocked s
  end.
Proof.
  destruct c as [now k v|now k id|k id|k| |ps|]; cbn; unfold Enqueue, MarkAttempt, Remove, Clear.
  - case_bool_decide; [done|]. destruct (max_of _ _ <=? 0); [done|]. by destruct (trimNodeCallbackQueueItemsInPlace _ _).
  - destruct (_ || _); [done|]. by destruct (find_item _ _) as [[? ?]|].
  - destruct (_ || _); [done|]. by destruct (find_item _ _) as [[? ?]|].
  - by case_bool_decide.
  - done.
  - done.
  - done.
Qed.

(** ** The latest snapshot is the one that is saved *)

Definition current (x : sys) : nodeCallbackQueuePersistedState := snapshotPersistedStateLocked (store x).

Record inv (x : sys) : Prop := mkInv {
  i_store : store_ok (store x);
  i_seq : 0 <= persistSeq (store x);
  i_savers : map_Forall (fun _ '(seq, st) => 0 < seq <= persistSeq (store x) /\ (seq = persistSeq (store x) -> st = current x)) (savers x);
  i_latest : (exists i st, savers x !! i = Some (persistSeq (store x), st)) \/
             (saved x = (if decide (persistSeq (store x) = 0) then None else Some (cloneNodeCallbackQueuePersistedState (current x))) /\
              persistMu x = None);
  i_one : forall i, persistMu x = Some i -> is_Some (savers x !! i) /\ persistSeq (store x) <> 0
}.

Lemma queue_start_inv : inv start.
Proof. split; cbn; [by split; [|split]|done|by intros i p Hp|by right|done]. Qed.

Lemma do_inv x i c x' : inv x -> step x (Do i c) = Some x' -> inv x'.
Proof.
  intros [H1 H2 H3 H4 H5] E. cbn in E. destruct (savers x !! i) eqn:Ei; [done|]. destruct (do_call c (store x)) as [p s] eqn:Ec. injection E as <-.
  pose proof (do_call_ok c (store x) H1) as Hok. pose proof (do_call_saving c (store x)) as Hs. rewrite Ec in Hok, Hs. cbn in Hok.
  destruct p as [[seq st]|]; cbn in Hs.
  - destruct Hs as (-> & Hn & ->). split; cbn; [done|lia| |left; exists i; eexists; by rewrite lookup_insert_eq|].
    + apply map_Forall_insert_2; [split; [lia|done]|]. eapply map_Forall_impl; [exact H3|]. cbn. intros j [seq' st'] [? ?]. split; [lia|]. intros ->. lia.
    + intros j Hj. split; [|lia]. destruct (decide (i = j)) as [ -> |Hne]; [by rewrite lookup_insert_eq|]. rewrite lookup_insert_ne by done. by apply H5.
  - destruct Hs as [Hn Hs]. unfold current in *. split; cbn; unfold current; cbn; rewrite ?Hn, ?Hs; done.
Qed.

Lemma compare_inv x i x' : inv x -> step x (Compare i) = Some x' -> inv x'.
Proof.
  intros [H1 H2 H3 H4 H5] E. cbn in E. destruct (persistMu x) eqn:Em; [done|]. destruct (savers x !! i) as [[seq st]|] eqn:Ei; [|done].
  pose proof (H3 i _ Ei) as [Hq _]. destruct (seq <? persistSeq (store x)) eqn:Eb; zbool; injection E as <-.
  - split; cbn; [done|done|by apply map_Forall_delete| |done].
    destruct H4 as [(j & st' & Hj)|H4]; [|by right]. left. exists j, st'. rewrite lookup_delete_ne; [done|]. intros ->. rewrite Ei in Hj. injection Hj as -> _. lia.
  - split; cbn; [done|done|done| |].
    + left. exists i, st. rewrite Ei. do 2 f_equal. lia.
    + intros j [= <-]. rewrite Ei. split; [done|lia].
Qed.

Lemma save_inv x i x' : inv x -> step x (Save i) = Some x' -> inv x'.
Proof.
  intros [H1 H2 H3 H4 H5] E. cbn in E. destruct (savers x !! i) as [[seq st]|] eqn:Ei; [|done]. case_decide as Em; [|done]. injection E as <-.
  pose proof (H3 i _ Ei) as [Hq Hst]. destruct H4 as [(j & st' & Hj)|[_ H4]]; [|by rewrite Em in H4].
  split; cbn; [done|done|by apply map_Forall_delete| |done]. destruct (decide (i = j)) as [ -> |Hne].
  - right. rewrite Ei in Hj. injection Hj as -> ->. split; [|done]. rewrite decide_False by lia. by rewrite Hst.
  - left. exists j, st'. by rewrite lookup_delete_ne.
Qed.

Lemma queue_run_inv ls x x' : inv x -> run x ls = Some x' -> inv x'.
Proof.
  revert x. induction ls as [|l ls IH]; intros x Hi E; cbn in E; [by injection E as <-|]. destruct (step x l) as [y|] eqn:Es; [|done].
  apply (IH y); [|done]. destruct l; [by eapply do_inv|by eapply compare_inv|by eapply save_inv].
Qed.

(** ** Reading a snapshot back *)

Lemma load_items_lookup max l m next k :
  (forall i, i ∈ l -> TrimSpace (PlatformID i) = PlatformID i /\ PlatformID i <> "") ->
  let '(m', next') := foldl (load_item max) (m, next) l in
  default [] (m' !! k) = default [] (m !! k) ++ (if decide (is_Some (max !! k)) then filter (fun i => PlatformID i = k) l else []) /\
  (is_Some (m' !! k) -> is_Some (m !! k) \/ is_Some (max !! k)) /\
  next' = foldl (fun n i => if decide (is_Some (max !! PlatformID i)) then Z.max n (ID i) else n) next l.
Proof.
  revert m next. induction l as [|i l IH]; intros m next Hl; cbn [foldl].
  { split; [|split; [by left|done]]. case_decide; cbn; by rewrite app_nil_r. }
  destruct (Hl i ltac:(by left)) as [Ht Hn]. assert (Hl' : forall i, i ∈ l -> TrimSpace (PlatformID i) = PlatformID i /\ PlatformID i <> "") by (intros; apply Hl; by right).
  unfold load_item at 2. rewrite Ht, bool_decide_eq_false_2 by done. destruct (max !! PlatformID i) as [mx|] eqn:Em.
  - specialize (IH (<[PlatformID i := default [] (m !! PlatformID i) ++ [i]]> m) (if next <? ID i then ID i else next) Hl').
    destruct (foldl (load_item max) _ l) as [m' next']. destruct IH as (I1 & I2 & I3). rewrite I1. split; [|split].
    + destruct (decide (PlatformID i = k)) as [ <- |Hne].
      * rewrite lookup_insert_eq, filter_cons_True by done. rewrite !decide_True by (by eexists). cbn [from_option id]. by rewrite <- app_assoc.
      * by rewrite lookup_insert_ne, filter_cons_False by done.
    + intros Hs. destruct (I2 Hs) as [H|H]; [|by right]. destruct (decide (PlatformID i = k)) as [ <- |Hne]; [right; by rewrite Em|].
      left. by rewrite lookup_insert_ne in H.
    + rewrite I3. rewrite decide_True by (by eexists). f_equal. destruct (next <? ID i) eqn:?; zbool; lia.
  - specialize (IH m next Hl'). destruct (foldl (load_item max) _ l) as [m' next']. destruct IH as (I1 & I2 & I3). rewrite I1. split; [|split; [done|]].
    + f_equal. case_decide as Hk; [|done]. rewrite filter_cons_False; [done|]. intros <-. rewrite Em in Hk. by destruct Hk.
    + rewrite I3. rewrite decide_False; [done|]. by intros [].
Qed.

Lemma relabel_id n k q : queue_ok n k q ->
  (fun i => mkItem (ID i) k (EnqueuedAt i) (LastAttemptAt i) (Attempts i) (Payload i)) <$> q = q.
Proof. intros (_ & _ & _ & H). induction H as [|i q [_ Hi] Hq IH]; [done|]. rewrite fmap_cons, IH. f_equal. rewrite <- Hi. by destruct i. Qed.

Lemma queue_snapshot_elem s i : store_ok s -> i ∈ Items (snapshotPersistedStateLocked s) ->
  TrimSpace (PlatformID i) = PlatformID i /\ PlatformID i <> "" /\ ID i <= nextID s.
Proof.
  intros (_ & H & _) Hi. cbn in Hi. apply list_elem_of_bind in Hi as ([k q] & Hi & Hk). apply elem_of_map_to_list in Hk.
  pose proof (H k q Hk) as Hq. rewrite (relabel_id (nextID s)) in Hi by done. destruct Hq as (H1 & H2 & _ & H4). rewrite Forall_forall in H4.
  destruct (H4 i Hi) as [? ->]. split; [done|]. split; [done|lia].
Qed.

Lemma snapshot_filter s k : store_ok s -> filter (fun i => PlatformID i = k) (Items (snapshotPersistedStateLocked s)) ≡ₚ queue_of s k.
Proof.
  intros (_ & H & _). cbn [snapshotPersistedStateLocked Items]. set (g := fun '(k, q) => _).
  assert (Hrest : forall l : list (string * queue), (forall q, (k, q) ∉ l) -> filter (fun i => PlatformID i = k) (l ≫= g) = []).
  { intros l Hl. apply filter_nothing. intros i Hi Hk. apply list_elem_of_bind in Hi as ([j q] & Hi & Hj). cbn in Hi.
    apply list_elem_of_fmap in Hi as (i' & -> & _). cbn in Hk. subst j. by apply (Hl q). }
  unfold queue_of. destruct (items s !! k) as [q|] eqn:E; cbn [from_option id].
  - rewrite <- (insert_delete_id _ _ _ E), map_to_list_insert by apply lookup_delete_eq. cbn [mbind list_bind].
    rewrite filter_app, Hrest, app_nil_r.
    + cbn [g]. rewrite (relabel_id (nextID s)) by (by apply H). rewrite filter_every; [done|]. destruct (H k q E) as (_ & _ & _ & Hq).
      eapply Forall_impl; [done|]. by intros i [_ ?].
    + intros q' Hq'. apply elem_of_map_to_list in Hq'. by rewrite lookup_delete_eq in Hq'.
  - rewrite Hrest; [done|]. intros q' Hq'. apply elem_of_map_to_list in Hq'. by rewrite E in Hq'.
Qed.

#[local] Instance id_le_total : Total id_le.
Proof. intros x y. unfold id_le. lia. Qed.
#[local] Instance id_le_trans : Transitive id_le.
Proof. intros x y z. unfold id_le. lia. Qed.

Lemma sort_back n k q l : queue_ok n k q -> l ≡ₚ q -> merge_sort id_le l = q.
Proof.
  intros (_ & _ & Hs & _) Hp. apply (StronglySorted_unique_strong id_le).
  - intros x y Hx Hy. rewrite merge_sort_Permutation, Hp in Hx. unfold id_le. intros H1 H2. assert (ID x = ID y) as Exy by lia.
    clear -Hs Hx Hy Exy. induction Hs as [|z q Hq IH Hz]; [by apply not_elem_of_nil in Hx|]. rewrite Forall_forall in Hz.
    apply elem_of_cons in Hx as [ -> |Hx], Hy as [ -> |Hy]; [done| | |auto].
    + specialize (Hz _ Hy). unfold id_lt in Hz. lia.
    + specialize (Hz _ Hx). unfold id_lt in Hz. lia.
  - apply StronglySorted_merge_sort; apply _.
  - clear -Hs. induction Hs as [|z q Hq IH Hz]; constructor; [done|]. eapply Forall_impl; [done|]. cbn. unfold id_lt, id_le. lia.
  - by rewrite merge_sort_Permutation.
Qed.

Lemma reload s max k : store_ok s ->
  let s' := load (Some (cloneNodeCallbackQueuePersistedState (snapshotPersistedStateLocked s))) (mkStore 0 0 max ∅) in
  queue_of s' k = (if decide (is_Some (max !! k)) then queue_of s k else []) /\ nextID s' = nextID s /\ maxByID s' = max.
Proof.
  intros Hs. unfold load. cbn [cloneNodeCallbackQueuePersistedState Version snapshotPersistedStateLocked negb nodeRuntimeStateVersionSupported].
  change (negb (nodeRuntimeStateVersionSupported _)) with false. cbv iota. set (l := Items (cloneNodeCallbackQueuePersistedState _)).
  assert (Hp : l ≡ₚ Items (snapshotPersistedStateLocked s)) by apply merge_sort_Permutation.
  assert (Hl : forall i, i ∈ l -> TrimSpace (PlatformID i) = PlatformID i /\ PlatformID i <> "" /\ ID i <= nextID s).
  { intros i Hi. rewrite Hp in Hi. by apply queue_snapshot_elem. }
  pose proof (load_items_lookup max l ∅ (nextID s) k ltac:(intros i Hi; destruct (Hl i Hi) as (? & ? & _); done)) as H.
  cbn [maxByID NextID]. change (NextID _) with (nextID s). destruct (foldl (load_item max) (∅, nextID s) l) as [m next]. destruct H as (E1 & _ & E3).
  cbn zeta. split; [|split; [|done]].
  - unfold queue_of at 1. cbn [items]. rewrite lookup_fmap, lookup_empty in *. cbn [from_option app] in E1.
    assert (default [] (merge_sort id_le <$> m !! k) = merge_sort id_le (default [] (m !! k))) as -> by (by destruct (m !! k)).
    rewrite E1. case_decide as Hk; [|done]. destruct (decide (k = "" \/ TrimSpace k <> k)) as [Hbad|Hgood].
    + assert (queue_of s k = []) as ->.
      { unfold queue_of. destruct (items s !! k) as [q|] eqn:E; [|done]. destruct Hs as (_ & H & _). destruct (H k q E) as (? & ? & _). by destruct Hbad. }
      rewrite filter_nothing; [done|]. intros i Hi <-. destruct (Hl i Hi) as (? & ? & _). by destruct Hbad.
    + apply (sort_back (nextID s) k); [apply queue_of_ok; [done|destruct (decide (TrimSpace k = k)); tauto|tauto]|]. rewrite Hp. by apply snapshot_filter.
  - cbn [nextID]. rewrite E3. clear -Hl. induction l as [|i l IH]; [done|]. cbn [foldl].
    destruct (Hl i ltac:(by left)) as (_ & _ & ?). replace (if decide _ then _ else _) with (nextID s) by (case_decide; lia). apply IH. intros j Hj. apply Hl. by right.
Qed.

Lemma trim_queue_of s k :
  queue_of (trimAndPersist s).2 k = if max_of s k <=? 0 then [] else (trimNodeCallbackQueueItemsInPlace (queue_of s k) (max_of s k)).1.
Proof.
  unfold queue_of at 1. cbn. rewrite map_lookup_imap. unfold queue_of, max_of. destruct (items s !! k) as [q|]; cbn.
  - unfold trim_platform. by destruct (default 0 (maxByID s !! k) <=? 0).
  - destruct (default 0 (maxByID s !! k) <=? 0) eqn:E; [done|]. unfold trimNodeCallbackQueueItemsInPlace. rewrite E. case_match; [done|]. cbn. by rewrite drop_nil.
Qed.

End Queue.

(** ** Properties *)

(** C21. The queues of callbacks survive a restart.  However goroutines queue, retry, remove
    and clear callbacks and change the platforms, and however their savings interleave, once
    every saving has ended the file is that of the latest operation: a server started with the
    same platforms goes on with the same numbers, and with exactly the queues that trimming
    leaves of those in memory. *)
Theorem queues_survive_restart {P : Type} (ls : list (label (P := P))) x platforms :
  run start ls = Some x -> savers x = ∅ -> saved x <> None -> max_by_id platforms = maxByID (store x) ->
  let y := newNodeCallbackQueueStore platforms (saved x) in
  nextID y = nextID (store x) /\ forall platformID, queue_of y platformID = queue_of (trimAndPersist (store x)).2 platformID.
Proof.
  intros E Hn Hs Hm y. destruct (queue_run_inv ls start x queue_start_inv E) as [Hok Hseq _ Hl _].
  destruct Hl as [(i & st & Hi)|[El _]]; [by rewrite Hn, lookup_empty in Hi|]. case_decide; [by rewrite El in Hs|].
  subst y. unfold newNodeCallbackQueueStore. rewrite El, Hm. unfold current. split.
  - by destruct (reload (store x) (maxByID (store x)) "" Hok) as (_ & Hnext & _).
  - intros k. destruct (reload (store x) (maxByID (store x)) k Hok) as (Hq & _ & Hmax). rewrite !trim_queue_of. unfold max_of. rewrite Hmax, Hq.
    destruct (decide (is_Some (maxByID (store x) !! k))) as [|Hno]; [done|]. apply eq_None_not_Some in Hno. by rewrite Hno.
Qed.

Definition ex_calls : list (label (P := string)) :=
  [Do 0 (CallSetPlatforms [(" a ", 2); ("b", 3)]); Do 0 (CallEnqueue 100 "a" "first"); Do 1 (CallEnqueue 101 "a" "second");
   Do 2 (CallEnqueue 102 "b" "other"); Do 3 (CallEnqueue 103 "a" "third"); Compare 1; Do 4 (CallMarkAttempt 104 "a" 2);
   Compare 4; Save 4; Compare 0; Compare 2; Compare 3].

Definition ex_final : sys (P := string) := default start (run start ex_calls).

Lemma queues_survive_restart_witness :
  let y := newNodeCallbackQueueStore [("a", 2); ("b", 3)] (saved ex_final) in
  nextID y = 4 /\ Payload <$> queue_of y "a" = ["second"; "third"] /\ Attempts <$> queue_of y "a" = [1; 0] /\ Payload <$> queue_of y "b" = ["other"].
Proof.
  destruct (queues_survive_restart ex_calls ex_final [("a", 2); ("b", 3)]) as [Hn Hq]; [vm_compute; reflexivity|vm_compute; reflexivity|vm_compute; discriminate|vm_compute; reflexivity|].
  cbv zeta. rewrite Hn, !Hq. vm_compute. repeat split; reflexivity.
Defined.
