(* ===== verification/EventHub.v ===== *)
(** The hub that hands management events to subscribers, and the worker that forwards them to
    a platform: what it does when its buffer overflows, and what it then reads from the log.

    Sources: [web/routers/state.go] ([compositeManagementHooks], [nodeEventHub],
    [nodeEventSubscription]), [web/routers/node_callbacks.go] ([runWorker],
    [recoverWorkerSubscription], [replayWorkerEventLog], [processCallbackEvent]) and
    [web/api/mutations.go] (which events are kept and forwarded).

    Events come one after another: the log numbers an event and the hub publishes it before
    the next one.  Everything else interleaves.  Whether the actor of a subscription may see an
    event is an argument.  The delivery of an event over HTTP is not part of this file: an
    event counts as processed when the worker takes it up. *)

From S2P Require Import Prelude GoString EventLog.
Local Open Scope string_scope.
Local Open Scope list_scope.
Local Open Scope Z_scope.

(** ** Names of events *)

Definition nodeLiveOnlyEvents : list string :=
  ["node.traffic.report"; "management_platforms.updated"; "operations.updated"; "callbacks_queue.updated";
   "webhook.delivery_succeeded"; "webhook.delivery_failed"].
Definition nodeEphemeralEvents : list string := ["client.traffic.reported"].
Definition nodeSinkSuppressedEvents : list string :=
  ["node.traffic.report"; "management_platforms.updated"; "operations.updated"; "callbacks_queue.updated";
   "webhook.delivery_succeeded"; "webhook.delivery_failed"].

Definition normalizeNodeEventName (name : string) : string := ToLower (TrimSpace name).

Definition containsNodeEventName (values : list string) (target : string) : bool :=
  let target := normalizeNodeEventName target in
  if bool_decide (target = "") then false else existsb (fun value => bool_decide (normalizeNodeEventName value = target)) values.

Definition ShouldPersistNodeEventName (name : string) : bool :=
  let name := normalizeNodeEventName name in
  if bool_decide (name = "") then false
  else negb (containsNodeEventName nodeLiveOnlyEvents name) && negb (containsNodeEventName nodeEphemeralEvents name).

Definition ShouldDeliverNodeSinkEventName (name : string) : bool :=
  let name := normalizeNodeEventName name in
  if bool_decide (name = "") then false else negb (containsNodeEventName nodeSinkSuppressedEvents name).

(** ** The hub *)

Section Hub.
Context {C : Type} (Name : C -> string).
Notation Event := (Event (C := C)).

(** [allows] is the permission of the actor and the matcher; a subscription that is [done] has
    its channel closed for publishers. *)
Record nodeEventSubscription := mkSub {
  allows : Event -> bool; ch : list Event; buffer : Z; done_ : bool; overflowSequence : Z
}.

(** [subs] are all subscriptions by number, [registered] those in the map of the hub. *)
Record nodeEventHub := mkHub { nextID : Z; subs : gmap Z nodeEventSubscription; registered : gset Z }.
Implicit Types h : nodeEventHub.

Definition newNodeEventHub : nodeEventHub := mkHub 0 ∅ ∅.

Definition SubscribeWithOptions (allows : Event -> bool) (buffer : Z) h : Z * nodeEventHub :=
  let buffer := if buffer <=? 0 then 32 else buffer in
  let id := nextID h + 1 in
  (id, mkHub id (<[id := mkSub allows [] buffer false 0]> (subs h)) ({[id]} ∪ registered h)).
Definition Subscribe (allows : Event -> bool) h : Z * nodeEventHub := SubscribeWithOptions allows 32 h.

(** A subscription is ended once. *)
Definition end_sub (overflow : Z) (s : nodeEventSubscription) : nodeEventSubscription :=
  if done_ s then s else mkSub (allows s) (ch s) (buffer s) true (if 0 <? overflow then overflow else overflowSequence s).

Definition removeSubscription (id overflow : Z) h : nodeEventHub :=
  match subs h !! id with
  | None => h
  | Some s => if done_ s then h else mkHub (nextID h) (<[id := end_sub overflow s]> (subs h)) (registered h ∖ {[id]})
  end.

Definition publish_to (event : Event) h (id : Z) : nodeEventHub :=
  match subs h !! id with
  | None => h
  | Some s =>
      if negb (allows s event) then h
      else if done_ s then h
      else if Z.of_nat (length (ch s)) <? buffer s
      then mkHub (nextID h) (<[id := mkSub (allows s) (ch s ++ [event]) (buffer s) false (overflowSequence s)]> (subs h)) (registered h)
      else removeSubscription id (Sequence event) h
  end.

Definition Publish (event : Event) h : nodeEventHub := foldl (publish_to event) h (elements (registered h)).

Definition Reset h : nodeEventHub :=
  mkHub (nextID h) (map_imap (fun id s => Some (if decide (id ∈ registered h) then end_sub 0 s else s)) (subs h)) ∅.

Definition OverflowSequence (s : nodeEventSubscription) : Z * bool := (overflowSequence s, 0 <? overflowSequence s).

(** A receive from the channel. *)
Definition receive (id : Z) h : option (Event * nodeEventHub) :=
  match subs h !! id with
  | Some s => match ch s with
              | e :: rest => Some (e, mkHub (nextID h) (<[id := mkSub (allows s) rest (buffer s) (done_ s) (overflowSequence s)]> (subs h)) (registered h))
              | [] => None
              end
  | None => None
  end.

(** [OnManagementEvent]: the log numbers the event, and the hub publishes it. *)
Definition OnManagementEvent (c : C) (l : nodeEventLog (C := C)) h : Event * nodeEventLog (C := C) * nodeEventHub :=
  let '(e, _, l) := record_locked c (ShouldPersistNodeEventName (Name c)) l in (e, l, Publish e h).

(** ** The worker of a platform *)

(** Where the worker is: in the loop of [runWorker], emptying the channel of a subscription
    that has ended, about to read a page of the log after a number, working through a page,
    and about to subscribe again. *)
Inductive worker_pc :=
  | Loop
  | Drain
  | ReplayPage (after : Z)
  | PageItems (after : Z) (items : list Event) (hasMore : bool)
  | Resubscribe.

(** The last two fields are notes: whether no page had a gap, and the events that were kept in
    the log and meant for the worker while nothing would bring them to it. *)
Record nodeCallbackWorker := mkWorker {
  sub : Z; lastSequence : Z; pc : worker_pc; processed : list Event; whole : bool; missed : list Event
}.

Record sys := mkSys { log : nodeEventLog (C := C); hub : nodeEventHub; worker : nodeCallbackWorker }.

Context (allow : Event -> bool).

Definition persists (e : Event) : bool := ShouldPersistNodeEventName (Name (content e)).

Definition processCallbackEvent (e : Event) (k : nodeCallbackWorker) : nodeCallbackWorker :=
  mkWorker (sub k) (if lastSequence k <? Sequence e then Sequence e else lastSequence k) (pc k) (processed k ++ [e]) (whole k) (missed k).

Definition goto (p : worker_pc) (k : nodeCallbackWorker) : nodeCallbackWorker :=
  mkWorker (sub k) (lastSequence k) p (processed k) (whole k) (missed k).

(** Whether an event that comes now will reach the worker, by its channel or by a later page. *)
Definition listening (x : sys) : bool :=
  match pc (worker x) with
  | Loop | Drain =>
      match subs (hub x) !! sub (worker x) with
      | Some s => negb (done_ s) || (OverflowSequence s).2
      | None => false
      end
  | ReplayPage _ => true
  | PageItems _ _ hasMore => hasMore
  | Resubscribe => false
  end.

Inductive label :=
  | Happens (c : C)                                  (* a management event *)
  | TakeEvent                                        (* the loop takes an event from the channel *)
  | SeeDone                                          (* the loop sees that the subscription has ended *)
  | Recover                                          (* the next step of the recovery *)
  | OtherSubscribes (allows : Event -> bool) (buffer : Z)
  | OtherReceives (id : Z)
  | OtherCloses (id : Z)
  | HubResets.

(** No page is complete that starts before what the log still has. *)
Definition complete_page (q : snapshot (C := C)) : bool := negb (Gap q) && ((0 <? After q) || (OldestCursor q <=? 1)).

Definition recover (x : sys) : option sys :=
  let k := worker x in
  match pc k with
  | Loop => None
  | Drain =>
      match receive (sub k) (hub x) with
      | Some (e, h) => Some (mkSys (log x) h (processCallbackEvent e k))
      | None =>
          match subs (hub x) !! sub k with
          | None => None
          | Some s => Some (mkSys (log x) (hub x) (goto (if (OverflowSequence s).2 then ReplayPage (lastSequence k) else Resubscribe) k))
          end
      end
  | ReplayPage after =>
      let q := Replay after 100 (Some allow) (log x) in
      let k := mkWorker (sub k) (lastSequence k) (match Items q with [] => Resubscribe | items => PageItems after items (HasMore q) end)
                 (processed k) (whole k && complete_page q) (missed k) in
      Some (mkSys (log x) (hub x) k)
  | PageItems after (e :: items) hasMore =>
      let after := if after <? Sequence e then Sequence e else after in
      Some (mkSys (log x) (hub x) (goto (PageItems after items hasMore) (processCallbackEvent e k)))
  | PageItems after [] hasMore => Some (mkSys (log x) (hub x) (goto (if hasMore then ReplayPage after else Resubscribe) k))
  | Resubscribe =>
      let '(id, h) := Subscribe allow (hub x) in
      Some (mkSys (log x) h (mkWorker id (lastSequence k) Loop (processed k) (whole k) (missed k)))
  end.

Definition step (x : sys) (l : label) : option sys :=
  let k := worker x in
  match l with
  | Happens c =>
      let '(e, lg, h) := OnManagementEvent c (log x) (hub x) in
      let lost := persists e && allow e && negb (listening x) in
      Some (mkSys lg h (mkWorker (sub k) (lastSequence k) (pc k) (processed k) (whole k) (if lost then missed k ++ [e] else missed k)))
  | TakeEvent =>
      match pc k, receive (sub k) (hub x) with
      | Loop, Some (e, h) => Some (mkSys (log x) h (processCallbackEvent e k))
      | _, _ => None
      end
  | SeeDone =>
      match pc k, subs (hub x) !! sub k with
      | Loop, Some s => if done_ s then Some (mkSys (log x) (hub x) (goto Drain k)) else None
      | _, _ => None
      end
  | Recover => recover x
  | OtherSubscribes a b => Some (mkSys (log x) (SubscribeWithOptions a b (hub x)).2 k)
  | OtherReceives id =>
      if id =? sub k then None
      else match receive id (hub x) with Some (_, h) => Some (mkSys (log x) h k) | None => None end
  | OtherCloses id => if id =? sub k then None else Some (mkSys (log x) (removeSubscription id 0 (hub x)) k)
  | HubResets => Some (mkSys (log x) (Reset (hub x)) k)
  end.

Fixpoint run (x : sys) (ls : list label) : option sys :=
  match ls with [] => Some x | l :: ls => step x l ≫= fun x => run x ls end.

(** A worker that has just subscribed, with a log and other subscribers as they are. *)
Definition prepareWorker (l : nodeEventLog (C := C)) (h : nodeEventHub) : sys :=
  let '(id, h) := Subscribe allow h in mkSys l h (mkWorker id 0 Loop [] true []).

(** ** What publishing does to one subscription *)

Definition offer (e : Event) (s : nodeEventSubscription) : nodeEventSubscription :=
  if negb (allows s e) then s
  else if done_ s then s
  else if Z.of_nat (length (ch s)) <? buffer s
  then mkSub (allows s) (ch s ++ [e]) (buffer s) false (overflowSequence s)
  else end_sub (Sequence e) s.

Record hub_ok h : Prop := mkHubOk {
  h_sub : forall id s, subs h !! id = Some s -> (id ∈ registered h <-> done_ s = false) /\ 0 < buffer s /\ id <= nextID h;
  h_reg : forall id, id ∈ registered h -> is_Some (subs h !! id)
}.

Lemma publish_to_lookup e h i j :
  subs (publish_to e h i) !! j = if decide (i = j) then offer e <$> subs h !! j else subs h !! j.
Proof.
  unfold publish_to, offer, removeSubscription. destruct (subs h !! i) as [s|] eqn:E.
  - destruct (negb (allows s e)) eqn:Ea; [case_decide; [subst; rewrite E; cbn; by rewrite Ea|done]|].
    destruct (done_ s) eqn:Ed; [case_decide; [subst; rewrite E; cbn; by rewrite Ea, Ed|done]|].
    destruct (_ <? buffer s) eqn:El; cbn.
    + case_decide; [subst; rewrite lookup_insert_eq, E; cbn; by rewrite Ea, Ed, El|by rewrite lookup_insert_ne].
    + case_decide; [subst; rewrite lookup_insert_eq, E; cbn; by rewrite Ea, Ed, El|by rewrite lookup_insert_ne].
  - case_decide; [subst; by rewrite E|done].
Qed.

(** A change of one subscription that may end it, and is never the other way round. *)
Lemma change_ok h i s s' :
  hub_ok h -> subs h !! i = Some s -> buffer s' = buffer s -> (done_ s = true -> done_ s' = true) ->
  hub_ok (mkHub (nextID h) (<[i := s']> (subs h)) (if done_ s' then registered h ∖ {[i]} else registered h)).
Proof.
  intros [Hs Hr] E Hb Hd. destruct (Hs i s E) as (H1 & H2 & H3). split; cbn.
  - intros j t Hj. destruct (decide (i = j)) as [ <- |Hne].
    + rewrite lookup_insert_eq in Hj. injection Hj as <-. rewrite Hb. split; [|done]. destruct (done_ s') eqn:Ed; [set_solver|].
      rewrite H1. destruct (done_ s); [by specialize (Hd eq_refl)|done].
    + rewrite lookup_insert_ne in Hj by done. destruct (Hs j t Hj) as (? & ? & ?). split; [|done]. destruct (done_ s'); set_solver.
  - intros j Hj. assert (is_Some (subs h !! j)) as Hsj by (apply Hr; destruct (done_ s'); set_solver).
    destruct (decide (i = j)) as [ <- |Hne]; [by rewrite lookup_insert_eq|by rewrite lookup_insert_ne].
Qed.

Lemma end_sub_done o s : done_ (end_sub o s) = true.
Proof. unfold end_sub. by destruct (done_ s) eqn:E. Qed.
Lemma end_sub_buffer o s : buffer (end_sub o s) = buffer s.
Proof. unfold end_sub. by destruct (done_ s). Qed.

Lemma hub_remove_ok i o h : hub_ok h -> hub_ok (removeSubscription i o h).
Proof.
  intros Hh. unfold removeSubscription. destruct (subs h !! i) as [s|] eqn:E; [|done]. destruct (done_ s) eqn:Ed; [done|].
  pose proof (change_ok h i s (end_sub o s) Hh E (end_sub_buffer o s)) as H. rewrite end_sub_done in H. by apply H.
Qed.

Lemma publish_to_ok e h i : hub_ok h -> hub_ok (publish_to e h i).
Proof.
  intros Hh. unfold publish_to. destruct (subs h !! i) as [s|] eqn:E; [|done]. destruct (negb (allows s e)); [done|].
  destruct (done_ s) eqn:Ed; [done|]. destruct (_ <? buffer s); [|by apply hub_remove_ok].
  apply (change_ok h i s (mkSub (allows s) (ch s ++ [e]) (buffer s) false (overflowSequence s))); [done|done|done|]. by rewrite Ed.
Qed.

Lemma publish_fold e l h id : NoDup l -> hub_ok h ->
  hub_ok (foldl (publish_to e) h l) /\
  subs (foldl (publish_to e) h l) !! id = if decide (id ∈ l) then offer e <$> subs h !! id else subs h !! id.
Proof.
  intros Hl. revert h. induction Hl as [|i l Hi Hl IH]; intros h Hh; cbn; [by rewrite decide_False by apply not_elem_of_nil|].
  destruct (IH (publish_to e h i) (publish_to_ok e h i Hh)) as [H1 ->]. split; [done|]. rewrite publish_to_lookup.
  destruct (decide (i = id)) as [ -> |Hne].
  - rewrite decide_False by done. by rewrite decide_True by (by left).
  - destruct (decide (id ∈ l)); [by rewrite decide_True by (by right)|]. rewrite decide_False; [done|]. rewrite elem_of_cons. naive_solver.
Qed.

Lemma Publish_ok e h id : hub_ok h -> hub_ok (Publish e h) /\ subs (Publish e h) !! id = offer e <$> subs h !! id.
Proof.
  intros Hh. unfold Publish. destruct (publish_fold e (elements (registered h)) h id (NoDup_elements _) Hh) as [H1 ->]. split; [done|].
  case_decide as Hi; [done|]. destruct (subs h !! id) as [s|] eqn:E; [|done]. cbn. unfold offer. destruct (h_sub _ Hh id s E) as (Hr & _).
  rewrite elem_of_elements in Hi. destruct (done_ s); [by destruct (negb (allows s e))|]. exfalso. by apply Hi, Hr.
Qed.

Lemma Reset_ok h : hub_ok h -> hub_ok (Reset h).
Proof.
  intros [Hs Hr]. split; cbn; [|set_solver]. intros id s Hi. rewrite map_lookup_imap in Hi. destruct (subs h !! id) as [t|] eqn:E; [|done].
  cbn in Hi. injection Hi as <-. destruct (Hs id t E) as (H1 & H2 & H3). case_decide as Hd.
  - rewrite end_sub_done, end_sub_buffer. split; [set_solver|done].
  - split; [|done]. split; [set_solver|]. intros Ht. exfalso. by apply Hd, H1.
Qed.

Lemma Subscribe_ok a b h : hub_ok h -> hub_ok (SubscribeWithOptions a b h).2.
Proof.
  intros [Hs Hr]. unfold SubscribeWithOptions. cbn [snd]. set (b' := if b <=? 0 then 32 else b).
  assert (0 < b') by (subst b'; destruct (b <=? 0) eqn:?; zbool; lia). split; cbn.
  - intros id s Hi. destruct (decide (nextID h + 1 = id)) as [ <- |Hne].
    + rewrite lookup_insert_eq in Hi. injection Hi as <-. cbn. split; [set_solver|lia].
    + rewrite lookup_insert_ne in Hi by done. destruct (Hs id s Hi) as (? & ? & ?). split; [set_solver|lia].
  - intros id Hi. destruct (decide (nextID h + 1 = id)) as [ <- |Hne]; [by rewrite lookup_insert_eq|]. rewrite lookup_insert_ne by done. apply Hr. set_solver.
Qed.

Lemma receive_ok i e h h' : hub_ok h -> receive i h = Some (e, h') ->
  hub_ok h' /\ exists s rest, subs h !! i = Some s /\ ch s = e :: rest /\
    subs h' !! i = Some (mkSub (allows s) rest (buffer s) (done_ s) (overflowSequence s)) /\ (forall j, j <> i -> subs h' !! j = subs h !! j).
Proof.
  intros Hh E. unfold receive in E. destruct (subs h !! i) as [s|] eqn:Ei; [|done]. destruct (ch s) as [|e' rest] eqn:Ec; [done|]. injection E as -> <-. split.
  - destruct (h_sub _ Hh i s Ei) as (H1 & _ & _). pose proof (change_ok h i s (mkSub (allows s) rest (buffer s) (done_ s) (overflowSequence s)) Hh Ei eq_refl (fun H => H)) as H.
    cbn in H. destruct (done_ s) eqn:Ed; [|done]. replace (registered h) with (registered h ∖ {[i]}); [done|].
    apply set_eq. intros j. destruct (decide (j = i)); set_solver.
  - exists s, rest. split; [done|]. split; [done|]. split; [apply lookup_insert_eq|]. intros j Hj. cbn. by rewrite lookup_insert_ne.
Qed.

(** ** The events of the log *)

Definition meant (cs : list C) (a : Z) : list Event := filter (fun e => allow e = true) (between cs a (Z.of_nat (length cs))).
Definition kept (l : list Event) : list Event := filter (fun e => persists e = true) l.
Definition after_all (last : Z) (l : list Event) : Z := foldr Z.max last (Sequence <$> l).

(** What is meant for a worker that came when the log had [n0] events. *)
Definition due (n0 : Z) (cs : list C) (missed : list Event) : list Event :=
  filter (fun e => allow e = true /\ Sequence e ∉ (Sequence <$> missed : list Z)) (between cs n0 (Z.of_nat (length cs))).

Lemma between_elem (cs : list C) a b (e : Event) : 0 <= a -> e ∈ between cs a b -> a < Sequence e <= b /\ content e ∈ cs.
Proof.
  intros Ha He. unfold between in He. apply list_elem_of_lookup in He as [i Hi]. apply lookup_take_Some in Hi as [Hi Hl].
  pose proof (window_lookup _ _ _ _ Hi) as Hs. split; [lia|]. rewrite lookup_drop, evs_lookup in Hi.
  destruct (cs !! _) as [c|] eqn:Ec; [|done]. injection Hi as <-. by eapply list_elem_of_lookup_2.
Qed.

Lemma between_all_snoc (cs : list C) c a :
  0 <= a <= Z.of_nat (length cs) ->
  between (cs ++ [c]) a (Z.of_nat (length (cs ++ [c]))) = between cs a (Z.of_nat (length cs)) ++ [mkEvent (Z.of_nat (length cs) + 1) c].
Proof.
  intros Ha. unfold between. rewrite evs_snoc, drop_app_le by (rewrite evs_length; lia). rewrite !take_ge; [done|..].
  - rewrite length_drop, evs_length. lia.
  - rewrite length_app, length_drop, evs_length, length_app. cbn. lia.
Qed.

Lemma between_empty (cs : list C) a : between cs a a = [].
Proof. unfold between. by rewrite Nat.sub_diag, take_0. Qed.

Lemma meant_snoc (cs : list C) c a : 0 <= a <= Z.of_nat (length cs) ->
  let e := mkEvent (Z.of_nat (length cs) + 1) c in meant (cs ++ [c]) a = meant cs a ++ (if allow e then [e] else []).
Proof.
  intros Ha e. unfold meant. rewrite between_all_snoc, filter_app by done. f_equal. subst e.
  destruct (allow _) eqn:E; [by rewrite filter_cons_True|rewrite filter_cons_False; [done|congruence]].
Qed.

Lemma due_snoc n0 (cs : list C) c (missed : list Event) (b : bool) :
  0 <= n0 <= Z.of_nat (length cs) -> Forall (fun e => Sequence e <= Z.of_nat (length cs)) missed ->
  let e := mkEvent (Z.of_nat (length cs) + 1) c in
  due n0 (cs ++ [c]) (if b then missed ++ [e] else missed) = due n0 cs missed ++ (if allow e && negb b then [e] else []).
Proof.
  intros Hn Hm e. unfold due. rewrite between_all_snoc, filter_app by done. fold e. f_equal.
  - apply filter_same. intros d Hd. apply between_elem in Hd as [Hd _]; [|lia]. destruct b; [|done].
    rewrite fmap_app, elem_of_app. cbn. rewrite list_elem_of_singleton. split; intros [? Hx]; (split; [done|]); [tauto|].
    intros [|Hs]; [done|]. cbn in Hs. lia.
  - assert (Hs : Sequence e ∉ (Sequence <$> missed)).
    { intros H. apply list_elem_of_fmap in H as (d & Hd & Hin). rewrite Forall_forall in Hm. specialize (Hm d Hin). cbn in Hd. lia. }
    destruct (allow e) eqn:Ea; [|rewrite filter_cons_False; [done|]; intros [? _]; congruence]. destruct b; cbn [negb andb].
    + rewrite filter_cons_False; [done|]. intros [_ H]. apply H. rewrite fmap_app. apply elem_of_app. right. by left.
    + by rewrite filter_cons_True.
Qed.

Lemma after_all_cons last (e : Event) l : after_all (Z.max last (Sequence e)) l = after_all last (e :: l).
Proof. unfold after_all. cbn. induction l as [|d l IH]; cbn; [lia|]. rewrite IH. lia. Qed.

Lemma after_all_snoc last l (e : Event) : after_all last (l ++ [e]) = Z.max (after_all last l) (Sequence e).
Proof. unfold after_all. induction l as [|d l IH]; cbn; [lia|]. rewrite IH. lia. Qed.

Lemma after_all_range last (l : list Event) n : last <= n -> Forall (fun e => 0 <= Sequence e <= n) l -> last <= after_all last l <= n.
Proof. intros Hn Hl. unfold after_all. induction Hl as [|e l He Hl IH]; cbn; lia. Qed.

Lemma kept_snoc l e : kept (l ++ [e]) = kept l ++ (if persists e then [e] else []).
Proof.
  unfold kept. rewrite filter_app. f_equal. destruct (persists e) eqn:E; [by rewrite filter_cons_True|rewrite filter_cons_False; [done|congruence]].
Qed.

Lemma kept_cons e l : kept (e :: l) = (if persists e then [e] else []) ++ kept l.
Proof. unfold kept. destruct (persists e) eqn:E; [by rewrite filter_cons_True|rewrite filter_cons_False; [done|congruence]]. Qed.

Lemma meant_end (cs : list C) : meant cs (Z.of_nat (length cs)) = [].
Proof. unfold meant. by rewrite between_empty. Qed.

(** ** Where the events meant for the worker are *)

(** In its channel, and behind it in the log once the channel has overflowed. *)
Definition channel_ok (cs : list C) (k : nodeCallbackWorker) (s : nodeEventSubscription) (rest : list Event) : Prop :=
  allows s = allow /\ Forall (fun e => 0 <= Sequence e <= Z.of_nat (length cs)) (ch s) /\ (done_ s = false -> overflowSequence s = 0) /\
  rest = kept (ch s) ++ (if done_ s && (OverflowSequence s).2 then meant cs (after_all (lastSequence k) (ch s)) else []) /\
  (done_ s = false -> ch s <> [] -> meant cs (after_all (lastSequence k) (ch s)) = []).

Definition rest_ok (cs : list C) (x : sys) (rest : list Event) : Prop :=
  let k := worker x in
  match pc k with
  | Loop => exists s, subs (hub x) !! sub k = Some s /\ channel_ok cs k s rest
  | Drain => exists s, subs (hub x) !! sub k = Some s /\ done_ s = true /\ channel_ok cs k s rest
  | ReplayPage after => 0 <= after <= Z.of_nat (length cs) /\ rest = meant cs after
  | PageItems after items hasMore =>
      0 <= after_all after items <= Z.of_nat (length cs) /\
      Forall (fun e => 0 <= Sequence e <= Z.of_nat (length cs) /\ persists e = true) items /\
      rest = items ++ (if hasMore then meant cs (after_all after items) else [])
  | Resubscribe => rest = []
  end.

Record inv (n0 : Z) (cs : list C) (x : sys) : Prop := mkInv {
  i_log : log_ok cs (log x);
  i_names : Forall (fun c => ShouldPersistNodeEventName (Name c) = true) cs;
  i_hub : hub_ok (hub x);
  i_start : 0 <= n0 <= Z.of_nat (length cs);
  i_missed : Forall (fun e => Sequence e <= Z.of_nat (length cs)) (missed (worker x));
  i_rest : whole (worker x) = true -> 0 <= lastSequence (worker x) <= Z.of_nat (length cs) /\
    exists rest, due n0 cs (missed (worker x)) = kept (processed (worker x)) ++ rest /\ rest_ok cs x rest
}.

(** An event that the log only passes on changes nothing but the channel. *)
Lemma live_channel cs k s rest e :
  channel_ok cs k s rest -> 0 < buffer s -> Sequence e = Z.of_nat (length cs) -> persists e = false -> 0 <= lastSequence k <= Z.of_nat (length cs) ->
  channel_ok cs k (offer e s) rest.
Proof.
  intros (H1 & H2 & H3 & -> & H5) Hb He Hp Hl. unfold offer. rewrite H1. destruct (allow e) eqn:Ea; cbn [negb]; [|done].
  destruct (done_ s) eqn:Ed; cbn [andb] in *; [split; [done|]; split; [done|]; split; [by rewrite Ed|]; split; [by rewrite Ed|by rewrite Ed]|].
  specialize (H3 eq_refl). destruct (_ <? buffer s) eqn:El; zbool.
  - split; [done|]. split; [apply Forall_app; split; [done|]; constructor; [lia|done]|]. split; [done|]. cbn [ch done_ andb]. split; [by rewrite kept_snoc, Hp, !app_nil_r|].
    intros _ _. rewrite after_all_snoc. pose proof (after_all_range (lastSequence k) (ch s) _ (proj2 Hl) H2).
    replace (Z.max _ _) with (Z.of_nat (length cs)) by lia. apply meant_end.
  - assert (ch s <> []) as Hne by (intros Hn; rewrite Hn in El; cbn in El; lia). specialize (H5 eq_refl Hne).
    unfold end_sub. rewrite Ed, H3. split; [done|]. split; [done|]. split; [done|]. split; [|done]. cbn [ch done_ andb]. rewrite H5. by destruct (OverflowSequence _).2.
Qed.

(** An event that the log keeps. *)
Lemma kept_channel cs k s rest c :
  let e := mkEvent (Z.of_nat (length cs) + 1) c in
  channel_ok cs k s rest -> 0 < buffer s -> persists e = true -> 0 <= lastSequence k <= Z.of_nat (length cs) ->
  channel_ok (cs ++ [c]) k (offer e s) (rest ++ (if allow e && (negb (done_ s) || (OverflowSequence s).2) then [e] else [])).
Proof.
  intros e (H1 & H2 & H3 & -> & H5) Hb Hp Hl. pose proof (after_all_range (lastSequence k) (ch s) _ (proj2 Hl) H2) as HL.
  assert (Hlen : Z.of_nat (length (cs ++ [c])) = Z.of_nat (length cs) + 1) by (rewrite length_app; cbn; lia).
  assert (H2' : Forall (fun e => 0 <= Sequence e <= Z.of_nat (length (cs ++ [c]))) (ch s)) by (eapply Forall_impl; [done|]; cbn; intros; lia).
  pose proof (meant_snoc cs c (after_all (lastSequence k) (ch s)) ltac:(lia)) as Hm. fold e in Hm. cbv zeta in Hm.
  unfold offer. rewrite H1. destruct (allow e) eqn:Ea; cbn [negb andb].
  - destruct (done_ s) eqn:Ed; cbn [negb orb andb] in *.
    + split; [done|]. split; [done|]. split; [by rewrite Ed|]. rewrite Ed. split; [|done]. cbn [andb]. destruct (OverflowSequence s).2; [|by rewrite !app_nil_r]. by rewrite Hm, app_assoc.
    + specialize (H3 eq_refl). destruct (_ <? buffer s) eqn:El; zbool.
      * split; [done|]. split; [apply Forall_app; split; [done|]; constructor; [cbn; lia|done]|]. split; [done|]. cbn [ch done_ andb].
        split; [by rewrite kept_snoc, Hp, !app_nil_r|]. intros _ _. rewrite after_all_snoc.
        replace (Z.max _ _) with (Z.of_nat (length (cs ++ [c]))) by (cbn; lia). apply meant_end.
      * assert (ch s <> []) as Hne by (intros Hn; rewrite Hn in El; cbn in El; lia). specialize (H5 eq_refl Hne).
        unfold end_sub. rewrite Ed. replace (0 <? Sequence e) with true by (cbn; lia). split; [done|]. split; [done|]. split; [done|]. split; [|done].
        unfold OverflowSequence. cbn [ch done_ andb overflowSequence snd]. replace (0 <? Sequence e) with true by (cbn; lia). by rewrite Hm, H5, app_nil_r.
  - rewrite app_nil_r in *. split; [done|]. split; [done|]. split; [done|]. rewrite Hm. by destruct (done_ s && (OverflowSequence s).2).
Qed.

Lemma live_inv n0 cs x x' c :
  inv n0 cs x -> ShouldPersistNodeEventName (Name c) = false -> step x (Happens c) = Some x' -> inv n0 cs x'.
Proof.
  intros [H1 H2 H3 H4 H5 H7] Hp E. cbn in E. unfold OnManagementEvent in E. rewrite Hp in E. cbn [record_locked] in E.
  set (e := mkEvent (nextSeq (log x)) c) in E. assert (persists e = false) as He by done. rewrite He in E. cbn [andb] in E. injection E as <-.
  assert (Sequence e = Z.of_nat (length cs)) as Hs by apply H1.
  split; cbn [log hub worker missed lastSequence whole processed]; [done|done|by apply (Publish_ok e _ 0)|done|done|].
  intros Hw. destruct (H7 Hw) as (H6 & rest & Hd & Hr). split; [done|]. exists rest. split; [done|]. unfold rest_ok in *. cbn [worker pc sub hub].
  destruct (pc (worker x)) eqn:Epc; [| |done..].
  - destruct Hr as (s & Hsub & Hc). exists (offer e s). split; [by rewrite (proj2 (Publish_ok e _ _ H3)), Hsub|].
    apply (live_channel cs (worker x) s rest e); [done|by apply (h_sub _ H3 _ _ Hsub)|done|done|done].
  - destruct Hr as (s & Hsub & Hdn & Hc). exists (offer e s). split; [by rewrite (proj2 (Publish_ok e _ _ H3)), Hsub|].
    split; [unfold offer; rewrite Hdn; by destruct (negb _)|].
    apply (live_channel cs (worker x) s rest e); [done|by apply (h_sub _ H3 _ _ Hsub)|done|done|done].
Qed.

Lemma grow_names (cs : list C) c :
  Forall (fun c => ShouldPersistNodeEventName (Name c) = true) cs -> ShouldPersistNodeEventName (Name c) = true ->
  Forall (fun c => ShouldPersistNodeEventName (Name c) = true) (cs ++ [c]).
Proof. intros H Hc. apply Forall_app. by split; [|constructor]. Qed.

Lemma kept_inv n0 cs x x' c :
  inv n0 cs x -> ShouldPersistNodeEventName (Name c) = true -> step x (Happens c) = Some x' -> inv n0 (cs ++ [c]) x'.
Proof.
  intros [H1 H2 H3 H4 H5 H7] Hp E. cbn in E. unfold OnManagementEvent in E. rewrite Hp in E.
  pose proof (record_locked_ok cs c (log x) H1) as Hlog. destruct (record_locked c true (log x)) as [[e' ws] lg]. destruct Hlog as (-> & Hlog & _).
  set (e := mkEvent (Z.of_nat (length cs) + 1) c) in *. assert (persists e = true) as He by done. rewrite He in E. cbn [andb] in E. injection E as <-.
  assert (Hlen : Z.of_nat (length (cs ++ [c])) = Z.of_nat (length cs) + 1) by (rewrite length_app; cbn; lia).
  split; cbn [log hub worker missed lastSequence whole processed]; [done|by apply grow_names|by apply (Publish_ok e _ 0)|lia| |].
  - assert (Forall (fun e => Sequence e <= Z.of_nat (length (cs ++ [c]))) (missed (worker x))) by (eapply Forall_impl; [done|]; cbn; intros; lia).
    destruct (allow e && negb (listening x)); [|done]. apply Forall_app. split; [done|]. constructor; [cbn; lia|done].
  - intros Hw. destruct (H7 Hw) as (H6 & rest & Hd & Hr). split; [lia|].
    exists (rest ++ (if allow e && listening x then [e] else [])). split.
    + pose proof (due_snoc n0 cs c (missed (worker x)) (allow e && negb (listening x)) H4 H5) as Hds. cbv zeta in Hds. fold e in Hds.
      rewrite Hds, Hd, <- app_assoc. do 2 f_equal.
      by destruct (allow e), (listening x).
    + unfold rest_ok, listening in *. cbn [worker pc sub hub]. destruct (pc (worker x)) as [| |after|after items more|] eqn:Epc.
      * destruct Hr as (s & Hsub & Hc). rewrite Hsub. exists (offer e s). split; [by rewrite (proj2 (Publish_ok e _ _ H3)), Hsub|].
        apply (kept_channel cs (worker x)); [done|by apply (h_sub _ H3 _ _ Hsub)|done|done].
      * destruct Hr as (s & Hsub & Hdn & Hc). rewrite Hsub. exists (offer e s). split; [by rewrite (proj2 (Publish_ok e _ _ H3)), Hsub|].
        split; [unfold offer; rewrite Hdn; by destruct (negb _)|]. apply (kept_channel cs (worker x)); [done|by apply (h_sub _ H3 _ _ Hsub)|done|done].
      * destruct Hr as (Ha & ->). split; [lia|]. rewrite andb_true_r. symmetry. by apply meant_snoc.
      * destruct Hr as (Ha & Hi & ->). split; [lia|]. split; [eapply Forall_impl; [done|]; cbn; intros ? [? ?]; split; [lia|done]|].
        destruct more; [rewrite andb_true_r|by rewrite andb_false_r, !app_nil_r]. rewrite <- app_assoc. f_equal. symmetry. by apply meant_snoc.
      * subst rest. by rewrite andb_false_r.
Qed.

(** The worker takes an event from its channel. *)
Lemma process_channel cs k s e l rest :
  channel_ok cs k s rest -> ch s = e :: l -> 0 <= lastSequence k <= Z.of_nat (length cs) ->
  let s' := mkSub (allows s) l (buffer s) (done_ s) (overflowSequence s) in
  let k' := processCallbackEvent e k in
  0 <= lastSequence k' <= Z.of_nat (length cs) /\
  exists rest', rest = (if persists e then [e] else []) ++ rest' /\ channel_ok cs k' s' rest'.
Proof.
  intros (H1 & H2 & H3 & -> & H5) Ec Hl s' k'. rewrite Ec in *. apply Forall_cons in H2 as [He H2].
  assert (El : lastSequence k' = Z.max (lastSequence k) (Sequence e)) by (cbn; destruct (_ <? _) eqn:?; zbool; lia).
  split; [lia|]. rewrite kept_cons, <- app_assoc. eexists. split; [done|]. split; [done|]. split; [done|]. split; [done|].
  subst s'. cbn [ch done_]. rewrite El, after_all_cons. split; [done|]. intros Hd _. by apply H5.
Qed.

Lemma others_same n0 cs x h' :
  inv n0 cs x -> hub_ok h' -> (forall s, subs (hub x) !! sub (worker x) = Some s -> subs h' !! sub (worker x) = Some s) ->
  inv n0 cs (mkSys (log x) h' (worker x)).
Proof.
  intros [H1 H2 H3 H4 H5 H7] Hh Hs. split; try done. cbn. intros Hw. destruct (H7 Hw) as (H6 & rest & Hd & Hr). split; [done|]. exists rest. split; [done|].
  unfold rest_ok in *. cbn [worker hub]. destruct (pc (worker x)); [| |done..]; destruct Hr as (s & Hsub & Hr); exists s; (split; [by apply Hs|done]).
Qed.

(** A step of the worker that neither the log nor other subscribers take part in. *)
Lemma worker_inv n0 cs x h' k' :
  inv n0 cs x -> hub_ok h' -> missed k' = missed (worker x) ->
  (whole k' = true -> whole (worker x) = true) ->
  (whole k' = true -> 0 <= lastSequence (worker x) <= Z.of_nat (length cs) -> forall rest, rest_ok cs x rest ->
     0 <= lastSequence k' <= Z.of_nat (length cs) /\
     exists l rest', kept (processed k') = kept (processed (worker x)) ++ l /\ rest = l ++ rest' /\ rest_ok cs (mkSys (log x) h' k') rest') ->
  inv n0 cs (mkSys (log x) h' k').
Proof.
  intros [H1 H2 H3 H4 H5 H7] Hh Hm Hw Hr. split; cbn [log hub worker]; [done|done|done|done|by rewrite Hm|]. intros Hk.
  destruct (H7 (Hw Hk)) as (Hl & rest & Hd & Ho). destruct (Hr Hk Hl rest Ho) as (Hl' & l & rest' & E1 & E2 & Ho'). split; [done|].
  exists rest'. split; [|done]. by rewrite Hm, Hd, E1, E2, app_assoc.
Qed.

Lemma kept_process e k : kept (processed (processCallbackEvent e k)) = kept (processed k) ++ (if persists e then [e] else []).
Proof. apply kept_snoc. Qed.

Lemma take_inv n0 cs x x' : inv n0 cs x -> step x TakeEvent = Some x' -> inv n0 cs x'.
Proof.
  intros Hi E. cbn in E. destruct (pc (worker x)) eqn:Epc; try done. destruct (receive _ _) as [[e h]|] eqn:Er; [|done]. injection E as <-.
  destruct (receive_ok _ _ _ _ (i_hub _ _ _ Hi) Er) as (Hh & s & l & Hs & Ec & Hs' & _).
  apply worker_inv; [done|done|done|done|]. intros _ Hl rest Hr. unfold rest_ok in *. rewrite Epc in Hr. cbn [worker pc processCallbackEvent sub hub]. rewrite Epc.
  destruct Hr as (s0 & Hs0 & Hc). rewrite Hs in Hs0. injection Hs0 as <-. destruct (process_channel cs (worker x) s e l rest Hc Ec Hl) as (Hl' & rest' & -> & Hc').
  split; [done|]. eexists _, rest'. split; [apply kept_process|]. split; [done|]. by eexists.
Qed.

Lemma done_inv n0 cs x x' : inv n0 cs x -> step x SeeDone = Some x' -> inv n0 cs x'.
Proof.
  intros Hi E. cbn in E. destruct (pc (worker x)) eqn:Epc; try done. destruct (subs (hub x) !! _) as [s|] eqn:Es; [|done].
  destruct (done_ s) eqn:Ed; [|done]. injection E as <-. apply worker_inv; [done|apply Hi|done|done|].
  intros _ Hl rest Hr. unfold rest_ok in *. rewrite Epc in Hr. cbn [worker pc goto sub hub]. destruct Hr as (s0 & Hs0 & Hc). rewrite Es in Hs0. injection Hs0 as <-.
  split; [done|]. exists [], rest. cbn. split; [by rewrite app_nil_r|]. split; [done|]. by exists s.
Qed.

(** A page, and what is left after it. *)
Lemma page_cursor (l : nodeEventLog (C := C)) after limit f durable :
  let q := query after limit f durable l in HasMore q = true -> NextAfter q <> after -> last (Items q) = None -> False.
Proof.
  unfold query. destruct (if durable then history l else entries l); [done|]. destruct (snapshotNodeEventQueryEntries _ _ _ _); [done|].
  destruct (select_items _ _ _ _ _) as [items more]. cbn. intros -> Hn Hl. destruct items using rev_ind; [done|]. by rewrite last_snoc in Hl.
Qed.

Lemma page_next (l : nodeEventLog (C := C)) after limit f durable e :
  let q := query after limit f durable l in HasMore q = true -> last (Items q) = Some e -> NextAfter q = Sequence e.
Proof.
  unfold query. destruct (if durable then history l else entries l); [done|]. destruct (snapshotNodeEventQueryEntries _ _ _ _); [done|].
  destruct (select_items _ _ _ _ _) as [items more]. cbn. intros -> Hl. unfold last_sequence. rewrite Hl.
  destruct (0 <? Z.of_nat (length items)) eqn:E; [done|]. zbool. destruct items; [done|]. rewrite length_cons in E. lia.
Qed.

Lemma after_all_last a (l : list Event) e :
  last l = Some e -> a <= Sequence e -> Forall (fun d => Sequence d <= Sequence e) l -> after_all a l = Sequence e.
Proof.
  intros Hl Ha Hf. apply last_Some in Hl as [l' ->]. rewrite after_all_snoc. apply Forall_app in Hf as [Hf _].
  assert (after_all a l' <= Sequence e); [|lia]. unfold after_all. induction Hf; cbn; lia.
Qed.

Lemma page_spec (cs : list C) l after :
  log_ok cs l -> Forall (fun c => ShouldPersistNodeEventName (Name c) = true) cs -> 0 <= after <= Z.of_nat (length cs) ->
  let q := Replay after 100 (Some allow) l in complete_page q = true ->
  0 <= after_all after (Items q) <= Z.of_nat (length cs) /\
  Forall (fun e => 0 <= Sequence e <= Z.of_nat (length cs) /\ persists e = true) (Items q) /\
  meant cs after = Items q ++ (if HasMore q then meant cs (after_all after (Items q)) else []) /\ (Items q = [] -> HasMore q = false).
Proof.
  intros Hl Hn Ha q Hc. assert (Hcp : complete q).
  { unfold complete_page in Hc. apply andb_true_iff in Hc as [Hg Ho]. split; [by destruct (Gap q)|].
    apply orb_true_iff in Ho as [Ho|Ho]; zbool; [by left|by right]. }
  destruct (query_spec cs l after 100 (Some allow) true Hl Ha Hcp) as (Hx & Hi & Hm0 & Hm1 & _). change (query after 100 (Some allow) true l) with q in Hx, Hi, Hm0, Hm1. cbn [passes] in Hi.
  assert (Hf : Forall (fun e => after < Sequence e <= NextAfter q /\ content e ∈ cs) (Items q)).
  { apply Forall_forall. intros e He. rewrite Hi in He. apply list_elem_of_filter in He as [_ He]. apply between_elem in He; [done|lia]. }
  assert (Hcs : forall c, c ∈ cs -> ShouldPersistNodeEventName (Name c) = true) by (by apply Forall_forall).
  assert (Hfa : after <= after_all after (Items q) <= Z.of_nat (length cs)).
  { apply after_all_range; [lia|]. eapply Forall_impl; [done|]. cbn. intros e [? _]. lia. }
  split; [lia|]. split; [eapply Forall_impl; [done|]; cbn; intros e [? He]; split; [lia|by apply Hcs]|].
  assert (Hsplit : meant cs after = Items q ++ meant cs (NextAfter q)).
  { rewrite Hi. unfold meant. rewrite <- filter_app, between_app by lia. done. }
  rewrite Hsplit. destruct (HasMore q) eqn:Em.
  - assert (exists e, last (Items q) = Some e) as [e He].
    { destruct (last (Items q)) as [e|] eqn:E; [by exists e|]. exfalso. apply (page_cursor l after 100 (Some allow) true Em); [|done]. change (NextAfter q <> after). specialize (Hm1 eq_refl). lia. }
    pose proof (page_next l after 100 (Some allow) true e Em He) as Hne. change (NextAfter q = Sequence e) in Hne. split; [|intros E0; by rewrite E0 in He].
    do 2 f_equal. symmetry. rewrite Hne. apply after_all_last; [done|specialize (Hm1 eq_refl); lia|].
    rewrite <- Hne. eapply Forall_impl; [done|]. cbn. intros d [? _]. lia.
  - split; [|done]. by rewrite Hm0, meant_end by done.
Qed.

Lemma recover_inv n0 cs x x' : inv n0 cs x -> step x Recover = Some x' -> inv n0 cs x'.
Proof.
  intros Hi E. cbn in E. unfold recover in E. destruct (pc (worker x)) as [| |after|after items more|] eqn:Epc; [done|..].
  - destruct (receive _ _) as [[e h]|] eqn:Er.
    + injection E as <-. destruct (receive_ok _ _ _ _ (i_hub _ _ _ Hi) Er) as (Hh & s & l & Hs & Ec & Hs' & _).
      apply worker_inv; [done|done|done|done|]. intros _ Hl rest Hr. unfold rest_ok in *. rewrite Epc in Hr. cbn [worker pc processCallbackEvent sub hub]. rewrite Epc.
      destruct Hr as (s0 & Hs0 & Hd & Hc). rewrite Hs in Hs0. injection Hs0 as <-. destruct (process_channel cs (worker x) s e l rest Hc Ec Hl) as (Hl' & rest' & -> & Hc').
      split; [done|]. eexists _, rest'. split; [apply kept_process|]. split; [done|]. by eexists.
    + destruct (subs (hub x) !! _) as [s|] eqn:Es; [|done]. injection E as <-. assert (ch s = []) as Ec.
      { unfold receive in Er. rewrite Es in Er. by destruct (ch s). }
      apply worker_inv; [done|apply Hi|done|done|]. intros _ Hl rest Hr. split; [done|]. exists [], rest. cbn [processed goto]. split; [by rewrite app_nil_r|]. split; [done|].
      unfold rest_ok in *. rewrite Epc in Hr. destruct Hr as (s0 & Hs0 & Hd & (_ & _ & _ & Hrest & _)). rewrite Es in Hs0. injection Hs0 as <-.
      rewrite Ec, Hd in Hrest. cbn [worker pc goto]. subst rest. unfold OverflowSequence. cbn [snd]. by destruct (0 <? overflowSequence s).
  - injection E as <-. apply worker_inv; [done|apply Hi|done|cbn; by intros [? _]%andb_true_iff|]. cbn [whole]. intros Hq Hl rest Hr. apply andb_true_iff in Hq as [_ Hq].
    split; [done|]. exists [], rest. cbn [processed]. split; [by rewrite app_nil_r|]. split; [done|]. unfold rest_ok in *. rewrite Epc in Hr. destruct Hr as [Ha ->].
    destruct (page_spec cs (log x) after (i_log _ _ _ Hi) (i_names _ _ _ Hi) Ha Hq) as (P1 & P2 & P3 & P4). cbn [worker pc].
    destruct (Items (Replay after 100 (Some allow) (log x))) as [|e items] eqn:Ei; [|done]. rewrite P3. by rewrite P4.
  - destruct items as [|e items]; injection E as <-.
    + apply worker_inv; [done|apply Hi|done|done|]. intros _ Hl rest Hr. split; [done|]. exists [], rest. cbn [processed goto]. split; [by rewrite app_nil_r|]. split; [done|].
      unfold rest_ok in *. rewrite Epc in Hr. destruct Hr as (Ha & _ & ->). cbn [worker pc goto]. by destruct more.
    + apply worker_inv; [done|apply Hi|done|done|]. intros _ Hl rest Hr. unfold rest_ok in *. rewrite Epc in Hr. destruct Hr as (Ha & Hf & ->).
      apply Forall_cons in Hf as [[He Hp] Hf]. assert (Em : (if after <? Sequence e then Sequence e else after) = Z.max after (Sequence e)) by (destruct (_ <? _) eqn:?; zbool; lia).
      split; [cbn [lastSequence goto processCallbackEvent]; destruct (lastSequence (worker x) <? Sequence e); lia|]. exists [e]. eexists. split; [cbn [processed goto]; by rewrite kept_process, Hp|]. split; [done|].
      cbn [worker pc goto]. rewrite Em, after_all_cons. by split.
  - destruct (Subscribe allow (hub x)) as [id h] eqn:Es. injection E as <-. pose proof (Subscribe_ok allow 32 (hub x) (i_hub _ _ _ Hi)) as Hh.
    unfold Subscribe in Es. rewrite Es in Hh. apply worker_inv; [done|done|done|done|]. intros _ Hl rest Hr. split; [done|]. exists [], []. cbn [processed]. split; [by rewrite app_nil_r|].
    unfold rest_ok in *. rewrite Epc in Hr. split; [done|]. injection Es as <- <-. cbn [worker pc sub hub subs]. eexists. split; [apply lookup_insert_eq|]. by split.
Qed.

Lemma hub_reset_inv n0 cs x : inv n0 cs x -> inv n0 cs (mkSys (log x) (Reset (hub x)) (worker x)).
Proof.
  intros Hi. apply worker_inv; [done|apply Reset_ok, Hi|done|done|]. intros _ Hl rest Hr. split; [done|]. exists []. eexists rest. split; [by rewrite app_nil_r|]. split; [done|].
  unfold rest_ok in *. cbn [worker hub Reset subs].
  assert (Hres : forall s, subs (hub x) !! sub (worker x) = Some s -> channel_ok cs (worker x) s rest ->
    exists s', map_imap (fun id s => Some (if decide (id ∈ registered (hub x)) then end_sub 0 s else s)) (subs (hub x)) !! sub (worker x) = Some s' /\
      (done_ s = true -> done_ s' = true) /\ channel_ok cs (worker x) s' rest).
  { intros s Hs Hc. rewrite map_lookup_imap, Hs. cbn. eexists. split; [done|]. case_decide as Hd; [|done]. split; [intros _; apply end_sub_done|].
    apply (h_sub _ (i_hub _ _ _ Hi) _ _ Hs) in Hd. destruct Hc as (C1 & C2 & C3 & C4 & C5). specialize (C3 Hd). unfold end_sub. rewrite Hd in *.
    split; [done|]. split; [done|]. split; [done|]. cbn [ch done_ andb] in *. unfold OverflowSequence in *. cbn [overflowSequence snd]. by rewrite C3. }
  destruct (pc (worker x)); [| |done..].
  - destruct Hr as (s & Hs & Hc). destruct (Hres s Hs Hc) as (s' & ? & _ & ?). by exists s'.
  - destruct Hr as (s & Hs & Hd & Hc). destruct (Hres s Hs Hc) as (s' & ? & Hd' & ?). exists s'. split; [done|]. split; [by apply Hd'|done].
Qed.

Definition recorded_by (l : label) : list C := match l with Happens c => if ShouldPersistNodeEventName (Name c) then [c] else [] | _ => [] end.

Lemma hub_step_inv n0 cs l x x' : inv n0 cs x -> step x l = Some x' -> inv n0 (cs ++ recorded_by l) x'.
Proof.
  intros Hi E. destruct l as [c| | | |a b|id|id|]; cbn [recorded_by]; rewrite ?app_nil_r;
    [|by eapply take_inv|by eapply done_inv|by eapply recover_inv| | | |].
  - destruct (ShouldPersistNodeEventName (Name c)) eqn:Ep; [by eapply kept_inv|rewrite app_nil_r; by eapply live_inv].
  - cbn in E. injection E as <-. apply others_same; [done|by apply (Subscribe_ok a b), Hi|]. intros s Hs. cbn. rewrite lookup_insert_ne; [done|].
    destruct (h_sub _ (i_hub _ _ _ Hi) _ _ Hs) as (_ & _ & ?). lia.
  - cbn in E. destruct (id =? sub (worker x)) eqn:Eid; [done|]. zbool. destruct (receive id (hub x)) as [[e h]|] eqn:Er; [|done]. injection E as <-.
    destruct (receive_ok _ _ _ _ (i_hub _ _ _ Hi) Er) as (Hh & _ & _ & _ & _ & _ & Ho). apply others_same; [done|done|]. intros s Hs. by rewrite Ho.
  - cbn in E. destruct (id =? sub (worker x)) eqn:Eid; [done|]. zbool. injection E as <-. apply others_same; [done|by apply hub_remove_ok, Hi|].
    intros s Hs. unfold removeSubscription. destruct (subs (hub x) !! id) as [t|]; [|done]. destruct (done_ t); [done|]. cbn. by rewrite lookup_insert_ne.
  - cbn in E. injection E as <-. by apply hub_reset_inv.
Qed.

Lemma hub_run_inv n0 cs ls x x' : inv n0 cs x -> run x ls = Some x' -> inv n0 (cs ++ (ls ≫= recorded_by)) x'.
Proof.
  revert cs x. induction ls as [|l ls IH]; intros cs x Hi E; cbn in E; [injection E as <-; cbn; by rewrite app_nil_r|].
  destruct (step x l) as [y|] eqn:Es; [|done]. cbn [mbind list_bind]. rewrite app_assoc. eapply IH; [by eapply hub_step_inv|done].
Qed.

Lemma prepare_inv cs l h :
  log_ok cs l -> Forall (fun c => ShouldPersistNodeEventName (Name c) = true) cs -> hub_ok h -> inv (Z.of_nat (length cs)) cs (prepareWorker l h).
Proof.
  intros Hl Hn Hh. split; [done|done|by apply (Subscribe_ok allow 32)|lia|done|]. intros _. split; [cbn; lia|]. exists []. cbn. split; [unfold due; by rewrite between_empty|].
  eexists. split; [apply lookup_insert_eq|]. by split.
Qed.

Lemma new_hub_ok : hub_ok newNodeEventHub.
Proof. split; cbn; [intros id s Hs; by rewrite lookup_empty in Hs|set_solver]. Qed.

(** The worker has nothing to do. *)
Definition caught_up (x : sys) : Prop :=
  pc (worker x) = Loop /\ exists s, subs (hub x) !! sub (worker x) = Some s /\ ch s = [] /\ done_ s = false.

Lemma caught_up_rest cs x rest : rest_ok cs x rest -> caught_up x -> rest = [].
Proof.
  intros Hr (Epc & s & Hs & Hc & Hd). unfold rest_ok in Hr. rewrite Epc in Hr. destruct Hr as (s0 & Hs0 & (_ & _ & _ & -> & _)).
  rewrite Hs in Hs0. injection Hs0 as <-. by rewrite Hc, Hd.
Qed.

(** ** Left alone, the worker catches up *)

Definition next_label (x : sys) : label :=
  match pc (worker x) with
  | Loop => match subs (hub x) !! sub (worker x) with Some s => match ch s with [] => SeeDone | _ => TakeEvent end | None => Recover end
  | _ => Recover
  end.

Definition weight (cs : list C) (x : sys) : nat :=
  let k := worker x in
  let chan (s : nodeEventSubscription) :=
    (if (OverflowSequence s).2 then 4 * length (meant cs (after_all (lastSequence k) (ch s))) + 3 else 1)%nat in
  match pc k with
  | Loop => match subs (hub x) !! sub k with Some s => (length (ch s) + if done_ s then chan s + 2 else 0)%nat | None => O end
  | Drain => match subs (hub x) !! sub k with Some s => (length (ch s) + (chan s + 1))%nat | None => O end
  | ReplayPage after => (4 * length (meant cs after) + 3)%nat
  | PageItems after items more => (length items + (2 + if more then 4 * length (meant cs (after_all after items)) + 3 else 0))%nat
  | Resubscribe => 1%nat
  end.

Lemma receive_some i s e l h : subs h !! i = Some s -> ch s = e :: l ->
  receive i h = Some (e, mkHub (nextID h) (<[i := mkSub (allows s) l (buffer s) (done_ s) (overflowSequence s)]> (subs h)) (registered h)).
Proof. intros Hs Hc. unfold receive. by rewrite Hs, Hc. Qed.

Lemma process_last e k : lastSequence (processCallbackEvent e k) = Z.max (lastSequence k) (Sequence e).
Proof. cbn. destruct (_ <? _) eqn:?; zbool; lia. Qed.

Lemma channel_step cs k s e l :
  ch s = e :: l ->
  after_all (lastSequence (processCallbackEvent e k)) l = after_all (lastSequence k) (ch s) /\ length (meant cs (after_all (lastSequence k) (ch s))) =
    length (meant cs (after_all (lastSequence (processCallbackEvent e k)) l)).
Proof. intros ->. rewrite process_last, after_all_cons. done. Qed.

Lemma progress n0 cs x : inv n0 cs x -> whole (worker x) = true -> ~ caught_up x ->
  exists y, step x (next_label x) = Some y /\ (whole (worker y) = true -> (weight cs y < weight cs x)%nat).
Proof.
  intros Hi Hw Hn. destruct (i_rest _ _ _ Hi Hw) as (Hl & rest & _ & Hr). unfold next_label, rest_ok in *.
  destruct (pc (worker x)) as [| |after|after items more|] eqn:Epc.
  - destruct Hr as (s & Hs & Hc). rewrite Hs. destruct (ch s) as [|e l] eqn:Ec.
    + assert (done_ s = true) as Hd. { destruct (done_ s) eqn:Hd; [done|]. exfalso. apply Hn. split; [done|]. by exists s. }
      cbn [step]. rewrite Epc, Hs, Hd. eexists. split; [done|]. intros _. unfold weight. cbn [worker goto pc hub sub lastSequence]. rewrite Epc, Hs, Hd. lia.
    + cbn [step]. rewrite Epc, (receive_some _ s e l _ Hs Ec). eexists. split; [done|]. intros _. destruct (channel_step cs (worker x) s e l Ec) as [Ha _].
      unfold weight. cbn [worker pc hub sub subs processCallbackEvent]. rewrite Epc, Hs, lookup_insert_eq. cbn [ch done_ overflowSequence OverflowSequence snd].
      change (if lastSequence (worker x) <? Sequence e then _ else _) with (lastSequence (processCallbackEvent e (worker x))). rewrite Ha, Ec. cbn [length]. lia.
  - destruct Hr as (s & Hs & Hd & Hc). cbn [step]. unfold recover. rewrite Epc. destruct (ch s) as [|e l] eqn:Ec.
    + unfold receive. rewrite Hs, Ec. eexists. split; [done|]. intros _. unfold weight, OverflowSequence. cbn [worker pc goto snd]. rewrite Epc, Hs, Ec.
      unfold after_all. cbn [length fmap list_fmap foldr]. destruct (0 <? overflowSequence s); lia.
    + rewrite (receive_some _ s e l _ Hs Ec). eexists. split; [done|]. intros _. destruct (channel_step cs (worker x) s e l Ec) as [Ha _].
      unfold weight. cbn [worker pc hub sub subs processCallbackEvent]. rewrite Epc, Hs, lookup_insert_eq. cbn [ch done_ overflowSequence OverflowSequence snd].
      change (if lastSequence (worker x) <? Sequence e then _ else _) with (lastSequence (processCallbackEvent e (worker x))). rewrite Ha, Ec. cbn [length]. lia.
  - destruct Hr as [Ha ->]. cbn [step]. unfold recover. rewrite Epc. eexists. split; [done|]. cbn [worker whole]. intros [_ Hq]%andb_true_iff.
    destruct (page_spec cs (log x) after (i_log _ _ _ Hi) (i_names _ _ _ Hi) Ha Hq) as (_ & _ & P3 & P4). unfold weight. cbn [worker pc]. rewrite Epc, P3, length_app.
    destruct (Items _) as [|e items] eqn:Ei; [lia|]. destruct (HasMore _); cbn [length]; lia.
  - cbn [step]. unfold recover. rewrite Epc. destruct items as [|e items]; (eexists; split; [done|]; intros _); unfold weight; cbn [worker pc goto]; rewrite Epc.
    + unfold after_all. cbn [length fmap list_fmap foldr]. destruct more; lia.
    + replace (if after <? Sequence e then Sequence e else after) with (Z.max after (Sequence e)) by (destruct (_ <? _) eqn:?; zbool; lia).
      rewrite after_all_cons. cbn [length]. lia.
  - cbn [step]. unfold recover. rewrite Epc. eexists. split; [done|]. intros _. unfold weight. cbn [worker pc hub sub subs]. rewrite Epc, lookup_insert_eq. cbn. lia.
Qed.

Lemma next_label_quiet x : recorded_by (next_label x) = [].
Proof. unfold next_label. destruct (pc _); try done. destruct (subs _ !! _) as [s|]; [|done]. by destruct (ch s). Qed.

Lemma next_label_missed x y : step x (next_label x) = Some y -> missed (worker y) = missed (worker x).
Proof.
  unfold next_label. intros E. assert (Hr : forall z, recover x = Some z -> missed (worker z) = missed (worker x)).
  { intros z. unfold recover. destruct (pc (worker x)) as [| |?|? [|? ?] ?|]; [done|..]; try (by intros [= <-]).
    destruct (receive _ _) as [[? ?]|]; [by intros [= <-]|]. destruct (subs (hub x) !! _); [|done]. by intros [= <-]. }
  destruct (pc (worker x)) eqn:Epc; try (by apply Hr). destruct (subs (hub x) !! sub (worker x)) as [s|] eqn:Es; [|by apply Hr].
  destruct (ch s); cbn in E; rewrite Epc in E.
  - rewrite Es in E. destruct (done_ s); [|done]. by injection E as <-.
  - destruct (receive _ _) as [[? ?]|]; [|done]. by injection E as <-.
Qed.

Lemma catches_up n0 cs x : inv n0 cs x ->
  exists ls y, run x ls = Some y /\ ls ≫= recorded_by = [] /\ missed (worker y) = missed (worker x) /\ (whole (worker y) = true -> caught_up y).
Proof.
  remember (weight cs x) as m eqn:Em. revert x Em. induction (lt_wf m) as [m _ IH]. intros x -> Hi.
  destruct (whole (worker x)) eqn:Hw; [|exists [], x; by rewrite Hw].
  assert (Hdec : caught_up x \/ ~ caught_up x).
  { unfold caught_up. destruct (pc (worker x)); try (right; by intros [? _]). destruct (subs (hub x) !! _) as [s|]; [|right; by intros (_ & s & ? & _)].
    destruct (ch s) eqn:E1, (done_ s) eqn:E2; [right|left|right|right]; try (intros (_ & s' & [= <-] & H1 & H2); congruence). split; [done|]. by exists s. }
  destruct Hdec as [Hc|Hc]; [by exists [], x|]. destruct (progress n0 cs x Hi Hw Hc) as (y & Hs & Hlt).
  pose proof (hub_step_inv n0 cs _ x y Hi Hs) as Hy. rewrite next_label_quiet, app_nil_r in Hy. pose proof (next_label_missed x y Hs) as Hm.
  destruct (whole (worker y)) eqn:Hwy.
  - destruct (IH (weight cs y) (Hlt eq_refl) y eq_refl Hy) as (ls & z & H1 & H2 & H3 & H4). exists (next_label x :: ls), z.
    cbn [run]. rewrite Hs. split; [done|]. cbn [mbind list_bind]. rewrite next_label_quiet. split; [done|]. split; [congruence|done].
  - exists [next_label x], y. cbn [run]. rewrite Hs. split; [done|]. cbn [mbind list_bind]. rewrite next_label_quiet. split; [done|]. split; [done|]. by rewrite Hwy.
Qed.

End Hub.

(** ** Properties *)


(** Events by their name and a number. *)
Definition ex_start : sys (C := string * Z) := prepareWorker (fun _ => true) (new_log 8) newNodeEventHub.
Definition ex_overflow : list (label (C := string * Z)) := replicate 33 (Happens ("client.created", 1)) ++ [SeeDone].
Definition ex_state : sys (C := string * Z) := default ex_start (run fst (fun _ => true) ex_start ex_overflow).


(** An event can be lost for good: it is recorded while the worker works through the last
    page of a recovery, that is, after the page was read and before the worker subscribes
    again.  No gap is reported, later events arrive as usual, and the log would still have the
    event. *)
Theorem event_lost_while_resubscribing :
  let ls := ex_overflow ++ replicate 34 Recover ++ [Happens ("client.deleted", 2)] ++ replicate 3 Recover ++ [Happens ("client.created", 3); TakeEvent] in
  match run fst (fun _ => true) ex_start ls with
  | Some x =>
      caught_up x /\ whole (worker x) = true /\
      Sequence <$> processed (worker x) = (Z.of_nat <$> seq 1 33) ++ [35] /\ lastSequence (worker x) = 35 /\
      Items (Replay 33 1 None (log x)) = [mkEvent 34 ("client.deleted", 2)]
  | None => False
  end.
Proof. vm_compute. repeat split. eexists. by repeat split. Qed.

(** [ResetProtocolState] resets the hub and the log, and workers keep the number of their last
    event: when the numbers have started again and a channel overflows, the worker asks for
    what comes after a number that the log has not reached, and gets nothing and no gap. *)
Definition ResetProtocolState {C : Type} (x : sys (C := C)) : sys (C := C) :=
  mkSys (EventLog.Reset (log x, mkFiles None [])).1 (Reset (hub x)) (worker x).

Theorem reset_hides_events :
  let go := run fst (fun _ => true) in
  let first := mjoin (replicate 40 [Happens ("client.created", 1); TakeEvent]) in
  match go ex_start first ≫= fun x => go (ResetProtocolState x) ([SeeDone; Recover; Recover] ++ replicate 34 (Happens ("client.deleted", 2)) ++ [SeeDone] ++ replicate 35 Recover) with
  | Some x =>
      caught_up x /\ whole (worker x) = true /\ Sequence <$> processed (worker x) = (Z.of_nat <$> seq 1 40) ++ (Z.of_nat <$> seq 1 32) /\
      Sequence <$> Items (Replay 32 10 None (log x)) = [33; 34]
  | None => False
  end.
Proof. vm_compute. repeat split. eexists. by repeat split. Qed.
