(* ===== verification/CallbackDelivery.v ===== *)
(** The delivery of callbacks: attempts with retries, the queue for what could not be
    delivered, and its replay.

    Source: [web/routers/node_callbacks.go] ([deliverNodeCallbackWithRetry],
    [deliverCallbackEvent], [replayQueuedCallback]).

    What the platform answers and whether the context ends are arguments.  Between the look at
    a queued callback and the outcome of its delivery other goroutines may change the queues
    in any way. *)

From stdpp Require Import sorting.
From S2P Require Import Prelude GoString CallbackQueue.
Local Open Scope string_scope.
Local Open Scope list_scope.
Local Open Scope Z_scope.

(** ** Attempts *)

(** One request: an answer with its status, or no answer. *)
Inductive reply := Answer (status : Z) | NoAnswer.

Inductive delivery_error := HTTPError (status : Z) | RequestError | ContextError.

Definition deliverNodeCallback (r : reply) : Z * option delivery_error :=
  match r with
  | NoAnswer => (0, Some RequestError)
  | Answer status => if (status <? 200) || (300 <=? status) then (status, Some (HTTPError status)) else (status, None)
  end.

(** What meets one attempt: the reply, whether the context has ended by then, and whether it
    ends during the wait for the next attempt. *)
Record circumstance := mkCirc { the_reply : reply; ended : bool; ends_waiting : bool }.

(** The loop; [remaining] attempts may follow this one.  The failures noted come last. *)
Fixpoint attempts (remaining attempt : nat) (env : nat -> circumstance) : Z * option delivery_error * list (delivery_error * Z) :=
  let c := env attempt in
  let '(status, err) := deliverNodeCallback (the_reply c) in
  match err with
  | None => (status, None, [])
  | Some e =>
      if ended c then (status, Some e, [])
      else match remaining with
      | O => (status, Some e, [(e, status)])
      | S remaining =>
          if ends_waiting c then (status, Some ContextError, [(e, status)])
          else let '(status', err', notes) := attempts remaining (S attempt) env in (status', err', (e, status) :: notes)
      end
  end.

Definition deliverNodeCallbackWithRetry (retryMax : Z) (env : nat -> circumstance) : Z * option delivery_error * list (delivery_error * Z) :=
  let retryMax := if retryMax <? 0 then 0 else retryMax in attempts (Z.to_nat retryMax) 0 env.

(** ** The worker *)

Section Worker.
Context {P : Type} (platformID : string) (retryMax : Z).
Notation store := (nodeCallbackQueueStore (P := P)).
Notation item := (nodeCallbackQueuedItem (P := P)).

(** The worker with the item it is delivering from the queue, and notes: the callbacks handed
    to it that it has to keep, those the platform confirmed, and those that left the queue in
    another way. *)
Record sys := mkSys { queues : store; replaying : option item; handed : list P; confirmed : list P; dropped : list P }.

(** What left the queue of the platform. *)
Definition gone (old new : store) : list P :=
  Payload <$> filter (fun i => ID i ∉ (ID <$> queue_of new (TrimSpace platformID))) (queue_of old (TrimSpace platformID)).

(** [deliverCallbackEvent]; [cancelled] tells whether the context has ended when it returns. *)
Definition deliverCallbackEvent (now : Z) (payload : P) (persists cancelled : bool) (env : nat -> circumstance) (x : sys) : sys :=
  match deliverNodeCallbackWithRetry retryMax env with
  | (_, Some _, _) =>
      if cancelled then x
      else if persists then
        let '(_, _, _, s) := Enqueue now platformID payload (queues x) in
        let kept := existsb (fun i => bool_decide (ID i = nextID s)) (queue_of s (TrimSpace platformID)) in
        mkSys s (replaying x) (handed x ++ [payload]) (confirmed x)
          (dropped x ++ gone (queues x) s ++ (if decide (nextID s = nextID (queues x)) then [payload] else if kept then [] else [payload]))
      else x
  | (_, None, _) => mkSys (queues x) (replaying x) (if persists then handed x ++ [payload] else handed x)
                      (if persists then confirmed x ++ [payload] else confirmed x) (dropped x)
  end.

(** The first part of [replayQueuedCallback], and what follows the delivery. *)
Definition replay_peek (x : sys) : sys :=
  match Peek platformID (queues x) with
  | Some i => mkSys (queues x) (Some i) (handed x) (confirmed x) (dropped x)
  | None => x
  end.

Definition replay_end (now : Z) (cancelled : bool) (env : nat -> circumstance) (x : sys) : sys :=
  match replaying x with
  | None => x
  | Some i =>
      match deliverNodeCallbackWithRetry retryMax env with
      | (_, Some _, _) =>
          if cancelled then mkSys (queues x) None (handed x) (confirmed x) (dropped x)
          else let '(_, _, _, s) := MarkAttempt now platformID (ID i) (queues x) in mkSys s None (handed x) (confirmed x) (dropped x)
      | (_, None, _) =>
          let '(_, _, _, s) := Remove platformID (ID i) (queues x) in mkSys s None (handed x) (confirmed x ++ [Payload i]) (dropped x)
      end
  end.

Inductive label :=
  | Deliver (now : Z) (payload : P) (persists cancelled : bool) (env : nat -> circumstance)
  | ReplayPeek
  | ReplayEnd (now : Z) (cancelled : bool) (env : nat -> circumstance)
  | Others (c : call (P := P)).

(** The worker does one thing at a time. *)
Definition step (x : sys) (l : label) : option sys :=
  match l, replaying x with
  | Deliver now p b cancelled env, None => Some (deliverCallbackEvent now p b cancelled env x)
  | ReplayPeek, None => Some (replay_peek x)
  | ReplayEnd now cancelled env, Some _ => Some (replay_end now cancelled env x)
  | Others c, _ => let s := (do_call c (queues x)).2 in Some (mkSys s (replaying x) (handed x) (confirmed x) (dropped x ++ gone (queues x) s))
  | _, _ => None
  end.

Fixpoint run (x : sys) (ls : list label) : option sys :=
  match ls with [] => Some x | l :: ls => step x l ≫= fun x => run x ls end.

Definition init : sys := mkSys (mkStore 0 0 ∅ ∅) None [] [] [].

(** ** Nothing disappears *)

Definition lost (old new : list item) : list item := filter (fun i => ID i ∉ (ID <$> new)) old.

Lemma sorted_ids (q : list item) : StronglySorted id_lt q -> NoDup (ID <$> q).
Proof.
  induction 1 as [|i q Hq IH Hi]; [constructor|]. rewrite fmap_cons. constructor; [|done]. intros H. apply list_elem_of_fmap in H as (j & Hj & Hin).
  rewrite Forall_forall in Hi. specialize (Hi j Hin). unfold id_lt in Hi. lia.
Qed.

Lemma queue_ids (s : store) k : store_ok s -> NoDup (ID <$> queue_of s k).
Proof.
  intros (_ & H & _). unfold queue_of. destruct (items s !! k) as [q|] eqn:E; [|constructor]. destruct (H k q E) as (_ & _ & Hs & _). by apply sorted_ids.
Qed.

Lemma queue_range (s : store) k i : store_ok s -> i ∈ queue_of s k -> 0 < ID i <= nextID s.
Proof.
  intros (_ & H & _) Hi. unfold queue_of in Hi. destruct (items s !! k) as [q|] eqn:E; [|by apply not_elem_of_nil in Hi].
  destruct (H k q E) as (_ & _ & _ & Hq). rewrite Forall_forall in Hq. by apply Hq.
Qed.

(** What of the old queue is not in the new one is lost, and the rest is there. *)
Lemma keeps (old new : list item) :
  NoDup (ID <$> old) -> (forall i j, i ∈ old -> j ∈ new -> ID i = ID j -> Payload i = Payload j) ->
  Payload <$> old ⊆+ (Payload <$> new) ++ (Payload <$> lost old new).
Proof.
  intros Hn Hp. set (f := fun i : item => (ID i, Payload i)). set (here := filter (fun i => ID i ∈ (ID <$> new)) old).
  assert (Hs : f <$> here ⊆+ f <$> new).
  { apply NoDup_submseteq.
    - apply (NoDup_fmap_1 fst). rewrite <- list_fmap_compose. apply (sublist_NoDup (ID <$> here) (ID <$> old)); [done|]. apply (fmap_sublist ID), sublist_filter.
    - intros y Hy. apply list_elem_of_fmap in Hy as (i & -> & Hi). apply list_elem_of_filter in Hi as [Hid Hi].
      apply list_elem_of_fmap in Hid as (j & Ej & Hj). apply list_elem_of_fmap. exists j. split; [|done]. unfold f. by rewrite Ej, (Hp i j). }
  assert (Hh : Payload <$> here ⊆+ Payload <$> new).
  { apply (fmap_submseteq snd) in Hs. rewrite <- !list_fmap_compose in Hs. done. }
  assert (Hsplit : old ≡ₚ here ++ lost old new).
  { unfold here, lost. clear. generalize (ID <$> new). intros l. induction old as [|i old IH]; [done|]. destruct (decide (ID i ∈ l)).
    - rewrite filter_cons_True by done. rewrite (filter_cons_False (fun i => ID i ∉ l)) by tauto. cbn. by f_equiv.
    - rewrite filter_cons_False by done. rewrite (filter_cons_True (fun i => ID i ∉ l)) by done. rewrite <- Permutation_middle. by f_equiv. }
  rewrite Hsplit at 1. rewrite fmap_app. by apply submseteq_skips_r.
Qed.

(** Other goroutines queue callbacks of other platforms only. *)
Definition foreign (c : call (P := P)) : Prop := match c with CallEnqueue _ k _ => TrimSpace k <> TrimSpace platformID | _ => True end.

(** Where an item of the queue comes from. *)
Lemma provenance c (s : store) j :
  foreign c -> j ∈ queue_of (do_call c s).2 (TrimSpace platformID) ->
  exists i, i ∈ queue_of s (TrimSpace platformID) /\ ID i = ID j /\ Payload i = Payload j.
Proof.
  intros Hc Hj. set (k := TrimSpace platformID) in *.
  assert (Hset : forall s' k' q, items s' = items s -> j ∈ queue_of (set_queue s' k' q) k -> (k' = k /\ j ∈ q) \/ j ∈ queue_of s k).
  { intros s' k' q Hs H. unfold queue_of, set_queue in *. cbn in H. destruct (decide (k' = k)) as [ -> |Hne].
    - rewrite lookup_insert_eq in H. by left.
    - rewrite lookup_insert_ne, Hs in H by done. by right. }
  assert (Hsub : j ∈ queue_of s k -> exists i, i ∈ queue_of s k /\ ID i = ID j /\ Payload i = Payload j) by (intros; by exists j).
  destruct c as [now k' v|now k' id|k' id|k'| |ps|]; cbn in Hj; [| | | | |by apply Hsub|].
  - unfold Enqueue in Hj. case_bool_decide; [by apply Hsub|]. destruct (max_of _ _ <=? 0); [by apply Hsub|].
    destruct (trimNodeCallbackQueueItemsInPlace _ _) as [q d]. cbn [fst snd nextPersistedStateLocked] in Hj.
    apply Hset in Hj as [[Hk _]|Hj]; [done|by apply Hsub|done].
  - unfold MarkAttempt in Hj. destruct (_ || _); [by apply Hsub|]. destruct (find_item _ _) as [[n i]|] eqn:Ef; [|by apply Hsub]. cbn [fst snd nextPersistedStateLocked] in Hj.
    apply Hset in Hj as [[<- Hj]|Hj]; [|by apply Hsub|done]. apply list_find_Some in Ef as (Ei & _ & _). apply list_elem_of_lookup in Hj as [m Hm].
    destruct (decide (n = m)) as [ <- |Hne].
    + rewrite list_lookup_insert_eq in Hm by (by apply lookup_lt_Some in Ei). injection Hm as <-. exists i. split; [by eapply list_elem_of_lookup_2|done].
    + rewrite list_lookup_insert_ne in Hm by done. apply Hsub. by eapply list_elem_of_lookup_2.
  - unfold Remove in Hj. destruct (_ || _); [by apply Hsub|]. destruct (find_item _ _) as [[n i]|]; [|by apply Hsub]. cbn [fst snd nextPersistedStateLocked] in Hj.
    apply Hset in Hj as [[<- Hj]|Hj]; [|by apply Hsub|done]. apply Hsub. eapply elem_of_sublist; [done|apply remove_sublist].
  - unfold Clear in Hj. case_bool_decide; [by apply Hsub|]. unfold queue_of in Hj. cbn in Hj. destruct (decide (TrimSpace k' = k)) as [ <- |Hne].
    + rewrite lookup_delete_eq in Hj. by apply not_elem_of_nil in Hj.
    + rewrite lookup_delete_ne in Hj by done. by apply Hsub.
  - unfold queue_of in Hj. cbn in Hj. rewrite lookup_empty in Hj. by apply not_elem_of_nil in Hj.
  - apply Hsub. unfold queue_of in *. cbn in Hj. rewrite map_lookup_imap in Hj. destruct (items s !! k) as [q|]; cbn in *; [|by apply not_elem_of_nil in Hj].
    unfold trim_platform in Hj. case_match; cbn in Hj; [by apply not_elem_of_nil in Hj|]. eapply elem_of_sublist; [done|apply trim_sublist].
Qed.

(** An item that was once in the queue: while the worker delivers it, no other item of the
    queue has its number. *)
Definition known (s : store) (i : item) : Prop := forall j, j ∈ queue_of s (TrimSpace platformID) -> ID j = ID i -> Payload j = Payload i.

Lemma known_call c s i : foreign c -> known s i -> known (do_call c s).2 i.
Proof. intros Hc Hk j Hj Ej. destruct (provenance c s j Hc Hj) as (i' & Hi' & E1 & E2). rewrite <- E2. apply Hk; [done|congruence]. Qed.

Lemma same_id (q : list item) i j : NoDup (ID <$> q) -> i ∈ q -> j ∈ q -> ID i = ID j -> i = j.
Proof.
  intros Hn Hi Hj E. apply list_elem_of_lookup in Hi as [a Ha], Hj as [b Hb].
  assert (a = b) as ->; [|congruence]. eapply (NoDup_lookup (ID <$> q)); [done|by rewrite list_lookup_fmap, Ha|by rewrite list_lookup_fmap, Hb, E].
Qed.

Lemma elem_known s i : store_ok s -> i ∈ queue_of s (TrimSpace platformID) -> known s i.
Proof.
  intros Hs Hi j Hj E. by rewrite (same_id _ j i (queue_ids s _ Hs) Hj Hi E).
Qed.

Lemma call_keeps c s : store_ok s -> foreign c ->
  Payload <$> queue_of s (TrimSpace platformID) ⊆+ (Payload <$> queue_of (do_call c s).2 (TrimSpace platformID)) ++ gone s (do_call c s).2.
Proof.
  intros Hs Hc. apply keeps; [by apply queue_ids|]. intros i j Hi Hj E. symmetry. by apply (known_call c s i Hc (elem_known s i Hs Hi)).
Qed.

(** A callback that is queued is in the queue, or noted as dropped. *)
Lemma enqueue_keeps now payload s s' r e p :
  store_ok s -> Enqueue now platformID payload s = (r, e, p, s') ->
  (Payload <$> queue_of s (TrimSpace platformID)) ++ [payload] ⊆+
  (Payload <$> queue_of s' (TrimSpace platformID)) ++ gone s s' ++
    (if decide (nextID s' = nextID s) then [payload]
     else if existsb (fun i => bool_decide (ID i = nextID s')) (queue_of s' (TrimSpace platformID)) then [] else [payload]).
Proof.
  intros Hs E. unfold Enqueue in E. destruct (bool_decide _) eqn:Ep; [injection E as _ _ _ <-; rewrite decide_True by done; solve_submseteq|].
  destruct (max_of _ _ <=? 0); [injection E as _ _ _ <-; rewrite decide_True by done; solve_submseteq|].
  set (item := mkItem (nextID s + 1) (TrimSpace platformID) now 0 0 payload).
  assert (exists q', q' `sublist_of` queue_of s (TrimSpace platformID) ++ [item] /\ queue_of s' (TrimSpace platformID) = q' /\ nextID s' = nextID s + 1) as (q' & Hq' & Eq & En).
  { destruct (trimNodeCallbackQueueItemsInPlace _ _) as [q d] eqn:Et. injection E as _ _ _ <-. exists q. split; [|split; [|done]].
    - replace q with (q, d).1 by done. rewrite <- Et. apply trim_sublist.
    - unfold queue_of. cbn. by rewrite lookup_insert_eq. }
  rewrite decide_False by lia. unfold gone. rewrite Eq, En. clear E.
  assert (Hnew : forall i, i ∈ queue_of s (TrimSpace platformID) -> ID i <> nextID s + 1) by (intros i Hi; pose proof (queue_range s _ i Hs Hi); lia).
  pose proof (keeps (queue_of s (TrimSpace platformID) ++ [item]) q') as H. rewrite !fmap_app in H. cbn [fmap list_fmap Payload item] in H.
  assert (El : Payload <$> lost (queue_of s (TrimSpace platformID) ++ [item]) q' =
    (Payload <$> lost (queue_of s (TrimSpace platformID)) q') ++ (if existsb (fun i => bool_decide (ID i = nextID s + 1)) q' then [] else [payload])).
  { unfold lost. rewrite filter_app, fmap_app. f_equal. destruct (existsb _ q') eqn:Ex.
    - apply existsb_exists in Ex as (i & Hi & Hid). apply bool_decide_eq_true in Hid. rewrite filter_cons_False; [done|]. intros Hn. apply Hn. cbn. rewrite <- Hid.
      apply list_elem_of_fmap. exists i. split; [done|]. by apply list_elem_of_In.
    - rewrite filter_cons_True; [done|]. intros Hin. apply list_elem_of_fmap in Hin as (i & Hi & Hin). apply not_true_iff_false in Ex. apply Ex.
      apply existsb_exists. exists i. split; [by apply list_elem_of_In|]. by apply bool_decide_eq_true. }
  rewrite El in H. apply H.
  - apply NoDup_app. split; [by apply queue_ids|]. split; [|apply NoDup_singleton]. intros n Hn Hi. apply list_elem_of_singleton in Hi as ->.
    apply list_elem_of_fmap in Hn as (i & Hi & Hin). by apply (Hnew i).
  - intros i j Hi Hj Eij. eapply elem_of_sublist in Hj; [|done]. assert (Hnd : NoDup (ID <$> (queue_of s (TrimSpace platformID) ++ [item]))); [|by rewrite (same_id _ i j Hnd Hi Hj Eij)].
    rewrite fmap_app. apply NoDup_app. split; [by apply queue_ids|]. split; [|apply NoDup_singleton]. intros n Hn Hi'. apply list_elem_of_singleton in Hi' as ->.
    apply list_elem_of_fmap in Hn as (i' & Hi' & Hin). by apply (Hnew i').
Qed.

Record inv (x : sys) : Prop := mkInv {
  i_store : store_ok (queues x);
  i_known : forall i, replaying x = Some i -> known (queues x) i;
  i_account : handed x ⊆+ confirmed x ++ (Payload <$> queue_of (queues x) (TrimSpace platformID)) ++ dropped x
}.

(** Adding to both sides. *)
Lemma account_queue (h c q d q' d' a b : list P) :
  h ⊆+ c ++ q ++ d -> q ++ a ⊆+ q' ++ b ++ d' -> h ++ a ⊆+ c ++ q' ++ (d ++ b ++ d').
Proof.
  intros H1 H2. trans ((c ++ q ++ d) ++ a); [by apply submseteq_skips_r|].
  trans ((c ++ d) ++ (q ++ a)); [solve_submseteq|]. trans ((c ++ d) ++ (q' ++ b ++ d')); [by apply submseteq_skips_l|]. solve_submseteq.
Qed.

Lemma call_inv x c : inv x -> foreign c ->
  inv (mkSys (do_call c (queues x)).2 (replaying x) (handed x) (confirmed x) (dropped x ++ gone (queues x) (do_call c (queues x)).2)).
Proof.
  intros [H1 H2 H3] Hc. split; cbn [queues replaying handed confirmed dropped].
  - by apply do_call_ok.
  - intros i Hi. apply known_call; [done|by apply H2].
  - rewrite <- (app_nil_r (handed x)), <- (app_nil_r (gone _ _)). eapply account_queue; [done|]. rewrite !app_nil_r. by apply call_keeps.
Qed.

(** The delivery of the item of the queue takes away that item and no other. *)
Lemma remove_keeps x i s r e p :
  inv x -> replaying x = Some i -> Remove platformID (ID i) (queues x) = (r, e, p, s) ->
  Payload <$> queue_of (queues x) (TrimSpace platformID) ⊆+ (Payload <$> queue_of s (TrimSpace platformID)) ++ [Payload i].
Proof.
  intros [H1 H2 _] Hi E. pose proof (H2 i Hi) as Hk. unfold Remove in E. destruct (_ || _); [injection E as _ _ _ <-; solve_submseteq|].
  destruct (find_item _ _) as [[n j]|] eqn:Ef; [|injection E as _ _ _ <-; solve_submseteq]. injection E as _ _ _ <-. apply list_find_Some in Ef as (Hj & Ej & _).
  rewrite <- (Hk j (list_elem_of_lookup_2 _ _ _ Hj) Ej). unfold queue_of at 2. cbn [items set_queue nextPersistedStateLocked]. rewrite lookup_insert_eq. cbn [from_option id].
  set (q := queue_of (queues x) (TrimSpace platformID)) in *. pose proof (lookup_lt_Some _ _ _ Hj). unfold removeNodeCallbackQueueItemInPlace, len.
  replace ((Z.of_nat n <? 0) || (Z.of_nat (length q) <=? Z.of_nat n)) with false by lia. rewrite Nat2Z.id.
  rewrite (delete_Permutation q n j Hj) at 1. rewrite fmap_cons. cbn. apply Permutation_submseteq. apply Permutation_cons_append.
Qed.

Lemma mark_keeps now id (s s' : store) r e p k : MarkAttempt now k id s = (r, e, p, s') -> forall k', Payload <$> queue_of s' k' = Payload <$> queue_of s k'.
Proof.
  unfold MarkAttempt. destruct (_ || _); [by intros [= _ _ _ <-]|]. destruct (find_item _ _) as [[n i]|] eqn:Ef; [|by intros [= _ _ _ <-]].
  intros [= _ _ _ <-] k'. unfold queue_of at 1. cbn. destruct (decide (TrimSpace k = k')) as [ <- |Hne]; [|by rewrite lookup_insert_ne].
  rewrite lookup_insert_eq. cbn. apply list_find_Some in Ef as (Hi & _ & _). rewrite list_fmap_insert. cbn. apply list_insert_id. by rewrite list_lookup_fmap, Hi.
Qed.

Lemma delivery_step_inv x l x' : inv x -> (forall c, l = Others c -> foreign c) -> step x l = Some x' -> inv x'.
Proof.
  intros Hi Hl E. destruct l as [now v b cancelled env| |now cancelled env|c]; cbn in E.
  - destruct (replaying x) eqn:Er; [done|]. injection E as <-. unfold deliverCallbackEvent. destruct (deliverNodeCallbackWithRetry _ _) as [[status [err|]] notes].
    + destruct cancelled; [done|]. destruct b; [|done]. destruct (Enqueue _ _ _ _) as [[[r e] p] s] eqn:Eq. destruct Hi as [H1 H2 H3]. split; cbn.
      * pose proof (do_call_ok (CallEnqueue now platformID v) (queues x) H1) as H. cbn in H. by rewrite Eq in H.
      * intros i Hr. congruence.
      * eapply account_queue; [done|]. by eapply enqueue_keeps.
    + destruct Hi as [H1 H2 H3]. split; cbn; [done|done|]. destruct b; [|done]. rewrite <- app_assoc. trans ((confirmed x ++ (Payload <$> queue_of (queues x) (TrimSpace platformID)) ++ dropped x) ++ [v]).
      * by apply submseteq_skips_r. * solve_submseteq.
  - destruct (replaying x) eqn:Er; [done|]. injection E as <-. unfold replay_peek. destruct (Peek _ _) as [i|] eqn:Ep; [|done]. destruct Hi as [H1 H2 H3]. split; cbn; [done| |done].
    intros j [= <-]. apply elem_known; [done|]. unfold Peek in Ep. destruct (bool_decide _); [done|]. by apply head_Some_elem_of.
  - destruct (replaying x) as [i|] eqn:Er; [|done]. injection E as <-. unfold replay_end. rewrite Er. destruct (deliverNodeCallbackWithRetry _ _) as [[status [err|]] notes].
    + destruct cancelled; [destruct Hi as [H1 H2 H3]; by split|]. destruct (MarkAttempt _ _ _ _) as [[[r e] p] s] eqn:Em. destruct Hi as [H1 H2 H3]. split; cbn; [|done|].
      * pose proof (do_call_ok (CallMarkAttempt now platformID (ID i)) (queues x) H1) as H. cbn in H. by rewrite Em in H.
      * by rewrite (mark_keeps _ _ _ _ _ _ _ _ Em).
    + destruct (Remove _ _ _) as [[[r e] p] s] eqn:Em. pose proof (remove_keeps x i s r e p Hi Er Em) as Hk. destruct Hi as [H1 H2 H3]. split; cbn; [|done|].
      * pose proof (do_call_ok (CallRemove platformID (ID i)) (queues x) H1) as H. cbn in H. by rewrite Em in H.
      * etrans; [done|]. rewrite <- app_assoc. apply submseteq_skips_l. etrans; [by apply submseteq_skips_r|]. solve_submseteq.
  - injection E as <-. apply call_inv; [done|by apply Hl].
Qed.

Lemma delivery_init_inv : inv init.
Proof. split; cbn; [by split; [|split]|done|apply submseteq_nil_l]. Qed.

Lemma delivery_run_inv ls x x' : inv x -> Forall (fun l => forall c, l = Others c -> foreign c) ls -> run x ls = Some x' -> inv x'.
Proof.
  revert x. induction ls as [|l ls IH]; intros x Hi Hl E; cbn in E; [by injection E as <-|]. apply Forall_cons in Hl as [Hl Hls].
  destruct (step x l) as [y|] eqn:Es; [|done]. eapply IH; [by eapply delivery_step_inv|done|done].
Qed.

End Worker.

(** ** Properties *)

(** A delivery that succeeds was answered with a status of success by the last request it
    made, and there are never more requests than one and the retries. *)
Theorem retries_are_bounded retryMax env status err notes :
  deliverNodeCallbackWithRetry retryMax env = (status, err, notes) ->
  (length notes <= Z.to_nat retryMax + 1)%nat /\
  (err = None -> (length notes <= Z.to_nat retryMax)%nat /\ the_reply (env (length notes)) = Answer status /\ 200 <= status < 300).
Proof.
  unfold deliverNodeCallbackWithRetry. assert (Z.to_nat (if retryMax <? 0 then 0 else retryMax) = Z.to_nat retryMax) as -> by (destruct (retryMax <? 0) eqn:?; zbool; lia).
  assert (H : forall n a st er ns, attempts n a env = (st, er, ns) ->
    (length ns <= n + 1)%nat /\ (er = None -> (length ns <= n)%nat /\ the_reply (env (a + length ns)%nat) = Answer st /\ 200 <= st < 300)).
  { induction n as [|n IH]; intros a st er ns E; cbn in E; unfold deliverNodeCallback in E;
      (destruct (the_reply (env a)) as [z|] eqn:Er; [destruct ((z <? 200) || (300 <=? z)) eqn:Ez|]).
    all: try (injection E as <- <- <-; cbn; split; [lia|]; intros _; rewrite Nat.add_0_r; split; [lia|]; split; [done|]; apply orb_false_iff in Ez as [? ?]; zbool; lia).
    all: destruct (ended (env a)); [injection E as <- <- <-; cbn; by split; [lia|]|].
    1,2: injection E as <- <- <-; cbn; by split; [lia|].
    all: destruct (ends_waiting (env a)); [injection E as <- <- <-; cbn; by split; [lia|]|].
    all: destruct (attempts n (S a) env) as [[st' er'] ns'] eqn:Ea; injection E as <- <- <-; apply IH in Ea as [Ha Hb]; cbn [length]; split; [lia|].
    all: intros He; destruct (Hb He) as (? & ? & ?); split; [lia|]; split; [by rewrite Nat.add_succ_r|done]. }
  intros E. by apply H in E.
Qed.


Definition always (r : reply) (attempt : nat) : circumstance := mkCirc r false false.

Definition ex_deliveries : list (label (P := string)) :=
  [Others (CallSetPlatforms [("p", 2)]); Deliver 10 "one" true false (always (Answer 204)); Deliver 11 "two" true false (always NoAnswer);
   Deliver 12 "three" true false (always (Answer 500)); ReplayPeek; Others (CallEnqueue 13 "q" "other"); ReplayEnd 14 false (always (Answer 200));
   Deliver 15 "four" true false (always NoAnswer); Deliver 16 "five" true false (always NoAnswer)].
Definition ex_delivered : sys (P := string) := default init (run "p" 1 init ex_deliveries).

