(* ===== verification/BridgeClient.v ===== *)
(** The server's view of a connected client: its nodes, which of them serves the next
    connection, the nodes that serve a file route, and the removal of nodes that are gone.

    Source: [bridge/client.go], with [bridge/runtime_tunnel_server.go] for tunnels and the
    pool of [lib/pool/pool.go].

    Signals and tunnels are connections known by a number; the world holds the set of those
    that are closed.  Nodes are on a heap and the registry holds pointers to them, so an entry
    is always a node.  [lastUUIDRef] always mirrors [LastUUID] and is not a field of its own.
    Clock readings are arguments.  Each operation runs as one step, except where a theorem
    says otherwise.  Counters of traffic, and the hook that is told of a closed node, are left
    out.  An index outside the slice of the pool, on which Go panics, makes an operation
    [None]. *)

From S2P Require Import Prelude GoString.
From S2P Require Pool.
Local Open Scope string_scope.
Local Open Scope list_scope.
Local Open Scope Z_scope.

Definition second : Z := 10 ^ 9.
Definition retryTimeMax : Z := 3.
Definition connectGraceProtectWindow : Z := 3 * second.
Definition nodeJoinGraceProtectWindow : Z := 3 * second.

Inductive SelectMode := Primary | RoundRobin | Random.

(** ** Nodes *)

(** [ClientId] is the id of the client the node belongs to. *)
Record Node := mkNode {
  UUID : string; Version : string; BaseVer : Z; signal : option Z; tunnel : option Z; retryTime : Z; joinNano : Z; ClientId : option Z
}.

(** The connections that are closed. *)
Notation conns := (gset Z).

Definition is_closed (cs : conns) (c : option Z) : bool := match c with Some c => bool_decide (c ∈ cs) | None => true end.
Definition close_conn (c : option Z) (cs : conns) : conns := match c with Some c => {[c]} ∪ cs | None => cs end.

Definition isTunnelClosed (cs : conns) (n : Node) : bool := is_closed cs (tunnel n).

Definition isOnline (cs : conns) (n : Node) : bool :=
  if match ClientId n with Some id => id <? 0 | None => false end then true
  else negb (isTunnelClosed cs n) && negb (is_closed cs (signal n)).

Definition isOfflineLocked (cs : conns) (n : Node) : bool :=
  if BaseVer n <? 5
  then isTunnelClosed cs n && is_closed cs (signal n) && match ClientId n with Some id => 0 <? id | None => true end
  else negb (isOnline cs n).

Definition NewNode (now : Z) (uuid vs : string) (bv : Z) : Node := mkNode uuid vs bv None None 0 now None.

Definition addSignal (now : Z) (s : option Z) (cs : conns) (n : Node) : Node * conns :=
  let cs := match signal n with
            | Some old => if bool_decide (Some old = s) then cs else close_conn (Some old) cs
            | None => cs
            end in
  (mkNode (UUID n) (Version n) (BaseVer n) s (tunnel n) (retryTime n) now (ClientId n), cs).

Definition addTunnel (now : Z) (t : option Z) (cs : conns) (n : Node) : Node * conns :=
  if bool_decide (tunnel n = t) then (n, cs)
  else (mkNode (UUID n) (Version n) (BaseVer n) (signal n) t (retryTime n) now (ClientId n), close_conn (tunnel n) cs).

(** [Node.AddNode]: what a node that connects again brings with it. *)
Definition node_AddNode (now : Z) (node : Node) (cs : conns) (n : Node) : Node * conns :=
  let n := mkNode (UUID n) (if bool_decide (Version node = "") then Version n else Version node)
             (if BaseVer node =? 0 then BaseVer n else BaseVer node) (signal n) (tunnel n) (retryTime n) now (ClientId n) in
  let '(n, cs) := match signal node with Some s => addSignal now (Some s) cs n | None => (n, cs) end in
  match tunnel node with Some t => addTunnel now (Some t) cs n | None => (n, cs) end.

Definition InJoinGraceWindow (now window : Z) (n : Node) : bool :=
  if window <=? 0 then false else if joinNano n <=? 0 then false else now - joinNano n <? window.

Definition shouldRemoveOffline (now joinWindow : Z) (ignoreRetry : bool) (cs : conns) (n : Node) : bool * Node :=
  if (0 <? joinWindow) && (0 <? joinNano n) && (now - joinNano n <? joinWindow) then (false, n)
  else if negb (isOfflineLocked cs n) then (false, n)
  else if negb ignoreRetry && (retryTime n <? retryTimeMax)
  then (false, mkNode (UUID n) (Version n) (BaseVer n) (signal n) (tunnel n) (retryTime n + 1) (joinNano n) (ClientId n))
  else (true, n).

Definition closeLocked (cs : conns) (n : Node) : Node * conns :=
  (mkNode (UUID n) (Version n) (BaseVer n) None None retryTimeMax (joinNano n) (ClientId n), close_conn (signal n) (close_conn (tunnel n) cs)).

(** ** The owners of a file route *)

Record ownerPool := mkOwners { order : list string; entries : gmap string string; next : Z }.

Definition newRuntimeOwnerPool : ownerPool := mkOwners [] ∅ 0.

Definition count (p : ownerPool) : Z := Z.of_nat (length (order p)).

Definition normalizeNextLocked (p : ownerPool) : ownerPool :=
  if count p =? 0 then mkOwners (order p) (entries p) 0
  else if (next p <? 0) || (count p <=? next p) then mkOwners (order p) (entries p) 0 else p.

Definition pool_set (uuid value : string) (p : ownerPool) : ownerPool :=
  if bool_decide (uuid = "") then p
  else normalizeNextLocked (mkOwners (if decide (is_Some (entries p !! uuid)) then order p else order p ++ [uuid]) (<[uuid := value]> (entries p)) (next p)).

Definition pool_has (uuid : string) (p : ownerPool) : bool :=
  if bool_decide (uuid = "") then false else bool_decide (is_Some (entries p !! uuid)).

Definition indexOfLocked (uuid : string) (p : ownerPool) : option nat := fst <$> list_find (fun u => u = uuid) (order p).

Definition removeOrderIndexLocked (index : nat) (p : ownerPool) : ownerPool :=
  let o := delete index (order p) in
  let n := if (length o =? 0)%nat then 0
           else if Z.of_nat index <? next p then next p - 1
           else if Z.of_nat (length o) <=? next p then 0 else next p in
  mkOwners o (entries p) n.

Definition pool_remove (uuid : string) (p : ownerPool) : (Z * bool) * ownerPool :=
  if bool_decide (uuid = "") then (0, false, p)
  else match entries p !! uuid with
  | None => (count p, false, p)
  | Some _ =>
      let p := mkOwners (order p) (delete uuid (entries p)) (next p) in
      let p := match indexOfLocked uuid p with Some i => removeOrderIndexLocked i p | None => p end in
      let p := normalizeNextLocked p in
      (count p, true, p)
  end.

(** The loop of [selectNextLocked] from the [i]th try on. *)
Fixpoint select_from (tries : nat) (i start : Z) (p : ownerPool) : option (string * ownerPool) :=
  match tries with
  | O => None
  | S tries =>
      let index := (start + i) mod count p in
      match order p !! Z.to_nat index with
      | None => None
      | Some uuid =>
          match entries p !! uuid with
          | Some _ => Some (uuid, mkOwners (order p) (entries p) ((index + 1) mod count p))
          | None => select_from tries (i + 1) start p
          end
      end
  end.

(** The owner, the number of owners, and the pool. *)
Definition selectNextLocked (p : ownerPool) : option string * Z * ownerPool :=
  if count p =? 0 then (None, 0, p)
  else
    let p := normalizeNextLocked p in
    match select_from (length (order p)) 0 (next p) p with
    | Some (uuid, p') => (Some uuid, count p, p')
    | None => (None, count p, p)
    end.

Definition snapshotKeys (p : ownerPool) : list string :=
  filter (fun u => u <> "" /\ is_Some (entries p !! u)) (order p).

(** A file route has one owner or a pool of them. *)
Inductive route := One (uuid : string) | Many (owners : ownerPool).

Definition addFileOwnerToRoute (current : option route) (uuid : string) : route * bool :=
  match current with
  | None => (One uuid, true)
  | Some (One cur) =>
      let cur := TrimSpace cur in
      if bool_decide (cur = "") then (One uuid, true)
      else if bool_decide (cur = uuid) then (One cur, false)
      else (Many (pool_set uuid uuid (pool_set cur cur newRuntimeOwnerPool)), true)
  | Some (Many p) => if pool_has uuid p then (Many p, false) else (Many (pool_set uuid uuid p), true)
  end.

(** Whether the route stays, whether the owner was removed, and the route. *)
Definition removeFileOwnerFromRoute (current : route) (uuid : string) : bool * bool * route :=
  match current with
  | One cur =>
      let cur := TrimSpace cur in
      if bool_decide (cur = "") then (false, true, current) else (negb (bool_decide (cur = uuid)), bool_decide (cur = uuid), current)
  | Many p =>
      let '(remaining, removed, p) := pool_remove uuid p in
      if negb removed then (true, false, Many p) else (0 <? remaining, true, Many p)
  end.

Definition fileRouteOwnerUUIDs (r : route) : list string :=
  match r with
  | One u => let u := TrimSpace u in if bool_decide (u = "") then [] else [u]
  | Many p => omap (fun u => let u := TrimSpace u in if bool_decide (u = "") then None else Some u) (snapshotKeys p)
  end.

(** ** The client *)

Record Client := mkClient {
  Id : Z; LastUUID : string; nodeList : Pool.Pool (T := string); nodes : gmap string Z; files : gmap string route;
  fileOwnerKeys : gmap string (gset string); pingRetryTime : Z; lastConnectNano : Z; closed_ : bool
}.

Record world := mkWorld { client : Client; heap : gmap Z Node; closed : conns }.
Implicit Types w : world.

Definition set_client (c : Client) w : world := mkWorld c (heap w) (closed w).
Definition set_last (uuid : string) (c : Client) : Client :=
  mkClient (Id c) uuid (nodeList c) (nodes c) (files c) (fileOwnerKeys c) (pingRetryTime c) (lastConnectNano c) (closed_ c).
Definition set_list (l : Pool.Pool (T := string)) (c : Client) : Client :=
  mkClient (Id c) (LastUUID c) l (nodes c) (files c) (fileOwnerKeys c) (pingRetryTime c) (lastConnectNano c) (closed_ c).
Definition set_nodes (m : gmap string Z) (c : Client) : Client :=
  mkClient (Id c) (LastUUID c) (nodeList c) m (files c) (fileOwnerKeys c) (pingRetryTime c) (lastConnectNano c) (closed_ c).
Definition set_files (f : gmap string route) (k : gmap string (gset string)) (c : Client) : Client :=
  mkClient (Id c) (LastUUID c) (nodeList c) (nodes c) f k (pingRetryTime c) (lastConnectNano c) (closed_ c).

(** [assignCurrentNodeUUID] and [setCurrentNodeUUID]. *)
Definition setCurrentNodeUUID (uuid : string) w : world := set_client (set_last uuid (client w)) w.

(** The node at the pointer; every pointer of the registry is on the heap. *)
Definition node_at w (p : Z) : option Node := heap w !! p.
Definition IsOffline w (p : Z) : bool := match node_at w p with Some n => isOfflineLocked (closed w) n | None => true end.
Definition IsOnline w (p : Z) : bool := match node_at w p with Some n => isOnline (closed w) n | None => false end.

Definition set_node (p : Z) (n : Node) (cs : conns) w : world := mkWorld (client w) (<[p := n]> (heap w)) cs.

Definition node_Close (p : Z) w : world :=
  match node_at w p with Some n => let '(n, cs) := closeLocked (closed w) n in set_node p n cs w | None => w end.

Definition CloseIfSignalCurrent (p : Z) (s : option Z) w : bool * world :=
  match node_at w p with
  | Some n => if bool_decide (signal n = s) then (true, node_Close p w) else (false, w)
  | None => (false, w)
  end.
Definition CloseIfOffline (p : Z) w : bool * world :=
  match node_at w p with
  | Some n => if isOfflineLocked (closed w) n then (true, node_Close p w) else (false, w)
  | None => (false, w)
  end.

(** *** Removing nodes *)

Definition advanceCurrentNodeLocked (uuid : string) w : option world :=
  if bool_decide (uuid = "") || negb (bool_decide (LastUUID (client w) = uuid)) then Some w
  else
    '(n, l) ← Pool.Next (nodeList (client w));
    Some (set_client (set_last (default "" n) (set_list l (client w))) w).

Definition dropNodeRuntimeLocked (uuid : string) (removeNodeEntry : bool) w : option world :=
  if bool_decide (uuid = "") then Some w
  else
    let c := if removeNodeEntry then set_nodes (delete uuid (nodes (client w))) (client w) else client w in
    l ← Pool.Remove uuid (nodeList c);
    advanceCurrentNodeLocked uuid (set_client (set_list l c) w).

(** *** Files and their owners *)

Definition trackFileOwnerLocked (key uuid : string) (k : gmap string (gset string)) : gmap string (gset string) :=
  let key := TrimSpace key in
  let uuid := TrimSpace uuid in
  if bool_decide (key = "") || bool_decide (uuid = "") then k else <[uuid := {[key]} ∪ default ∅ (k !! uuid)]> k.

Definition untrackFileOwnerLocked (key uuid : string) (k : gmap string (gset string)) : gmap string (gset string) :=
  let key := TrimSpace key in
  let uuid := TrimSpace uuid in
  if bool_decide (key = "") || bool_decide (uuid = "") then k
  else
    let keys := default ∅ (k !! uuid) ∖ {[key]} in
    if bool_decide (keys = ∅) then delete uuid k else <[uuid := keys]> k.

Definition trackFileRouteOwnersLocked (key : string) (r : route) (k : gmap string (gset string)) : gmap string (gset string) :=
  if bool_decide (key = "") then k else foldl (fun k uuid => trackFileOwnerLocked key uuid k) k (fileRouteOwnerUUIDs r).
Definition untrackFileRouteOwnersLocked (key : string) (r : route) (k : gmap string (gset string)) : gmap string (gset string) :=
  if bool_decide (key = "") then k else foldl (fun k uuid => untrackFileOwnerLocked key uuid k) k (fileRouteOwnerUUIDs r).

Definition removeFileOwnerLocked (key uuid : string) w : bool * world :=
  let c := client w in
  match files c !! key with
  | None => (false, w)
  | Some r =>
      let '(keep, removed, r) := removeFileOwnerFromRoute r uuid in
      (* a pool is changed in place, also when nothing was removed *)
      let f := <[key := r]> (files c) in
      if negb removed then (false, set_client (set_files f (fileOwnerKeys c) c) w)
      else
        let k := untrackFileOwnerLocked key uuid (fileOwnerKeys c) in
        (true, set_client (set_files (if keep then f else delete key f) k c) w)
  end.

Definition removeFileOwner (key uuid : string) w : bool * world :=
  if bool_decide (key = "") || bool_decide (uuid = "") then (false, w) else removeFileOwnerLocked key uuid w.
Definition RemoveFileOwner := removeFileOwner.

Definition RemoveFile (key : string) w : world :=
  if bool_decide (key = "") then w
  else match files (client w) !! key with
  | None => w
  | Some r => set_client (set_files (delete key (files (client w))) (untrackFileRouteOwnersLocked key r (fileOwnerKeys (client w))) (client w)) w
  end.

(** The keys of an owner, in some order of the map; each of them is trimmed. *)
Definition collectFileMappingKeysByOwnerLocked (uuid : string) (k : gmap string (gset string)) : list string :=
  let uuid := TrimSpace uuid in
  if bool_decide (uuid = "") then [] else elements (default ∅ (k !! uuid)).

Definition pruneFileMappings (uuid : string) w : world :=
  if bool_decide (uuid = "") then w
  else foldl (fun w key => (removeFileOwnerLocked key uuid w).2) w (collectFileMappingKeysByOwnerLocked uuid (fileOwnerKeys (client w))).

Definition closeAndRemoveNodeIfCurrent (uuid : string) (p : Z) w : option (bool * world) :=
  if bool_decide (uuid = "") then Some (false, w)
  else if negb (bool_decide (nodes (client w) !! uuid = Some p)) || negb (IsOffline w p) then Some (false, w)
  else
    w ← dropNodeRuntimeLocked uuid true w;
    Some (true, pruneFileMappings uuid (node_Close p w)).

Definition pruneMissingNodeUUID (uuid : string) w : option (bool * world) :=
  if bool_decide (uuid = "") then Some (false, w)
  else if bool_decide (is_Some (nodes (client w) !! uuid)) then Some (false, w)
  else if negb (Pool.Has uuid (nodeList (client w))) then Some (false, w)
  else
    w ← dropNodeRuntimeLocked uuid false w;
    Some (true, pruneFileMappings uuid w).

(** *** Adding nodes *)

(** The node that connects is at [p], with the connections it brings. *)
Definition NewClient (now id p : Z) (h : gmap Z Node) (cs : conns) : option world :=
  n ← h !! p;
  let c := mkClient id (UUID n) (Pool.add (UUID n) Pool.New) {[UUID n := p]} ∅ ∅ 0 now false in
  Some (mkWorld c (<[p := mkNode (UUID n) (Version n) (BaseVer n) (signal n) (tunnel n) (retryTime n) (joinNano n) (Some id)]> h) cs).

Definition AddNode (now p : Z) w : option world :=
  n ← node_at w p;
  let c := client w in
  match nodes c !! UUID n with
  | Some q =>
      existing ← node_at w q;
      if isOnline (closed w) existing && (BaseVer n <? 6) then Some (node_Close p w)
      else
        let '(existing, cs) := node_AddNode now n (closed w) existing in
        Some (setCurrentNodeUUID (UUID n) (set_node q existing cs w))
  | None =>
      let w := set_node p (mkNode (UUID n) (Version n) (BaseVer n) (signal n) (tunnel n) (retryTime n) (joinNano n) (Some (Id c))) (closed w) w in
      Some (set_client (set_last (UUID n) (set_list (Pool.add (UUID n) (nodeList c)) (set_nodes (<[UUID n := p]> (nodes c)) c))) w)
  end.

Definition InConnectGraceWindow (now window : Z) (c : Client) : bool :=
  if window <=? 0 then false else if lastConnectNano c <=? 0 then false else now - lastConnectNano c <? window.

(** *** Choosing a node *)

Definition lookupNodeByUUID (uuid : string) w : option Z :=
  let uuid := TrimSpace uuid in if bool_decide (uuid = "") then None else nodes (client w) !! uuid.

Definition currentNodeIfOnline w : option Z :=
  let current := TrimSpace (LastUUID (client w)) in
  if bool_decide (current = "") then None
  else match lookupNodeByUUID current w with
  | Some p => if IsOffline w p then None else Some p
  | None => None
  end.

Definition nextNodeUUIDByMode (mode : SelectMode) w : option (string * world) :=
  '(n, l) ← match mode with Random => Pool.Random (nodeList (client w)) | _ => Pool.Next (nodeList (client w)) end;
  Some (default "" n, set_client (set_list l (client w)) w).

Fixpoint next_distinct (attempts : nat) (mode : SelectMode) (exclude : string) w : option (option string * world) :=
  match attempts with
  | O => Some (None, w)
  | S attempts =>
      '(n, w) ← nextNodeUUIDByMode mode w;
      let n := TrimSpace n in
      if bool_decide (n <> "") && bool_decide (n <> exclude) then Some (Some n, w) else next_distinct attempts mode exclude w
  end.

Definition nextDistinctNodeUUID (mode : SelectMode) (exclude : string) w : option (string * world) :=
  let exclude := TrimSpace exclude in
  '(n, w) ← next_distinct (length (Pool.plist (nodeList (client w)))) mode exclude w;
  match n with
  | Some n => Some (n, w)
  | None =>
      let other := list_find (fun u => u <> "" /\ u <> exclude) (TrimSpace <$> Pool.plist (nodeList (client w))) in
      Some (match other with Some (_, u) => u | None => "" end, w)
  end.

Definition currentOrNextNodeUUID (mode : SelectMode) w : option (string * world) :=
  if negb (bool_decide (LastUUID (client w) = "")) then Some (LastUUID (client w), w)
  else
    '(n, w) ← nextNodeUUIDByMode mode w;
    if bool_decide (n = "") then Some ("", w)
    else let w := if bool_decide (LastUUID (client w) = "") then setCurrentNodeUUID n w else w in Some (LastUUID (client w), w).

Inductive clientNodeCandidate := CandidateMissing | CandidateReady (p : Z) | CandidateDefer | CandidatePrune (p : Z).

Definition evaluateNodeCandidate (now : Z) (uuid : string) (allowJoinGrace : bool) w : clientNodeCandidate :=
  match lookupNodeByUUID uuid w with
  | None => CandidateMissing
  | Some p =>
      if negb (IsOffline w p) then CandidateReady p
      else if InConnectGraceWindow now connectGraceProtectWindow (client w) then CandidateDefer
      else if allowJoinGrace && match node_at w p with Some n => InJoinGraceWindow now nodeJoinGraceProtectWindow n | None => false end then CandidateDefer
      else CandidatePrune p
  end.

(** The loop of [CheckNode]; [None] when it has not ended after [fuel] rounds. *)
Fixpoint check_loop (fuel : nat) (now : Z) (mode : SelectMode) (graceChecksLeft : Z) w : option (option Z * world) :=
  match fuel with
  | O => None
  | S fuel =>
      '(lastUUID, w) ← currentOrNextNodeUUID mode w;
      if bool_decide (lastUUID = "") then Some (None, w)
      else match evaluateNodeCandidate now lastUUID true w with
      | CandidateReady p => Some (Some p, w)
      | CandidateDefer =>
          let left_ := graceChecksLeft - 1 in
          if left_ <=? 0 then Some (None, w)
          else
            '(n, w) ← nextDistinctNodeUUID mode lastUUID w;
            check_loop fuel now mode left_ (setCurrentNodeUUID n w)
      | CandidateMissing =>
          '(_, w) ← pruneMissingNodeUUID lastUUID w;
          check_loop fuel now mode graceChecksLeft w
      | CandidatePrune p =>
          '(_, w) ← closeAndRemoveNodeIfCurrent lastUUID p w;
          check_loop fuel now mode graceChecksLeft w
      end
  end.

Definition CheckNode (fuel : nat) (now : Z) (mode : SelectMode) w : option (option Z * world) :=
  let size := Pool.len (nodeList (client w)) in
  if size =? 0 then Some (None, w)
  else match currentNodeIfOnline w with
  | Some p => Some (Some p, w)
  | None => check_loop fuel now mode size w
  end.

Definition GetNode (fuel : nat) (now : Z) (mode : SelectMode) w : option (option Z * world) :=
  match mode with
  | Primary => CheckNode fuel now mode w
  | _ => '(n, w) ← nextNodeUUIDByMode mode w; CheckNode fuel now mode (setCurrentNodeUUID n w)
  end.

Definition GetNodeByUUID (uuid : string) w : option Z := lookupNodeByUUID uuid w.

(** *** Choosing the owner of a file *)

Definition AddFileOwner (key uuid : string) w : option bool * world :=
  let uuid := TrimSpace uuid in
  match lookupNodeByUUID uuid w with
  | None => (None, w)
  | Some _ =>
      let c := client w in
      let current := if bool_decide (key = "") then None else files c !! key in
      let '(r, added) := addFileOwnerToRoute current uuid in
      if negb added then (Some false, w)
      else (Some true, set_client (set_files (<[key := r]> (files c)) (trackFileRouteOwnersLocked key r (fileOwnerKeys c)) c) w)
  end.

Definition resolveFileRouteNode (now : Z) (key uuid : string) w : option (option Z * world) :=
  match evaluateNodeCandidate now uuid false w with
  | CandidateReady p => Some (Some p, w)
  | CandidateDefer => Some (None, w)
  | CandidateMissing =>
      let '(_, w) := removeFileOwner key uuid w in
      '(_, w) ← pruneMissingNodeUUID uuid w; Some (None, w)
  | CandidatePrune p =>
      let '(_, w) := removeFileOwner key uuid w in
      '(_, w) ← closeAndRemoveNodeIfCurrent uuid p w; Some (None, w)
  end.

(** The pool of the route, which the operations on files change in place. *)
Definition owners_of (key : string) w : ownerPool :=
  match files (client w) !! key with Some (Many p) => p | _ => newRuntimeOwnerPool end.
Definition set_owners (key : string) (p : ownerPool) w : world :=
  match files (client w) !! key with
  | Some (Many _) => set_client (set_files (<[key := Many p]> (files (client w))) (fileOwnerKeys (client w)) (client w)) w
  | _ => w
  end.

(** The tries of [resolveFileRouteOwnerPool]; the owner of this try is [uuid]. *)
Fixpoint resolve_tries (tries : nat) (now : Z) (key uuid : string) w : option (option Z * world) :=
  match tries with
  | O => Some (None, w)
  | S tries =>
      '(r, w) ← resolveFileRouteNode now key (TrimSpace uuid) w;
      match r, tries with
      | Some p, _ => Some (Some p, w)
      | None, O => Some (None, w)
      | None, _ =>
          let '(u, _, p) := selectNextLocked (owners_of key w) in
          let w := set_owners key p w in
          match u with Some u => resolve_tries tries now key u w | None => Some (None, w) end
      end
  end.

Definition GetNodeByFile (now : Z) (key : string) w : option (option Z * world) :=
  if bool_decide (key = "") then Some (None, w)
  else match files (client w) !! key with
  | None => Some (None, w)
  | Some (One u) =>
      let u := TrimSpace u in
      if bool_decide (u = "") then Some (None, RemoveFile key w) else resolveFileRouteNode now key u w
  | Some (Many p) =>
      let '(u, n, p) := selectNextLocked p in
      match u with
      | Some u => resolve_tries (Z.to_nat n) now key u (set_owners key p w)
      | None => Some (None, RemoveFile key (set_owners key p w))
      end
  end.

(** *** Removing what is offline, pings and closing *)

Section Walk.
(** The order in which a loop meets the nodes. *)
Context (walk : gmap string Z -> list (string * Z)).

Definition onlineNodeCount w : Z := Z.of_nat (length (filter (fun '(_, p) => IsOffline w p = false) (walk (nodes (client w))))).

Definition HasOnlineNode w : bool :=
  match currentNodeIfOnline w with Some _ => true | None => 0 <? onlineNodeCount w end.

(** The nodes to remove; a node that is offline gets one more strike first. *)
Fixpoint collect_offline (now : Z) (keepUUID : string) (ignoreNodeRetry : bool) (l : list (string * Z)) w : list (string * Z) * world :=
  match l with
  | [] => ([], w)
  | (uuid, p) :: l =>
      match node_at w p with
      | Some n =>
          if bool_decide (uuid = "") || bool_decide (uuid = keepUUID) then collect_offline now keepUUID ignoreNodeRetry l w
          else
            let '(b, n) := shouldRemoveOffline now nodeJoinGraceProtectWindow ignoreNodeRetry (closed w) n in
            let '(rest, w') := collect_offline now keepUUID ignoreNodeRetry l (set_node p n (closed w) w) in
            (if b then (uuid, p) :: rest else rest, w')
      | None => collect_offline now keepUUID ignoreNodeRetry l w
      end
  end.

Fixpoint remove_each (l : list (string * Z)) w : option (Z * world) :=
  match l with
  | [] => Some (0, w)
  | (uuid, p) :: l =>
      '(b, w) ← closeAndRemoveNodeIfCurrent uuid p w;
      '(n, w) ← remove_each l w;
      Some (if (b : bool) then n + 1 else n, w)
  end.

Definition removeOfflineNodes (now : Z) (keepUUID : string) (ignoreNodeRetry ignoreClientGrace : bool) w : option (Z * world) :=
  if Pool.len (nodeList (client w)) =? 0 then Some (0, w)
  else if negb ignoreNodeRetry && negb ignoreClientGrace && InConnectGraceWindow now connectGraceProtectWindow (client w) then Some (0, w)
  else
    let '(l, w) := collect_offline now keepUUID ignoreNodeRetry (walk (nodes (client w))) w in
    remove_each l w.

Definition RemoveOfflineNodes (now : Z) (ignoreClientGrace : bool) w := removeOfflineNodes now "" false ignoreClientGrace w.
Definition RemoveOfflineNodesExcept (now : Z) (keepUUID : string) (ignoreClientGrace : bool) w := removeOfflineNodes now keepUUID false ignoreClientGrace w.

Inductive clientPingHealth := PingUnavailable | PingHealthy | PingEmpty.

Definition collectPingHealth (fuel : nat) (now : Z) (mode : SelectMode) w : option (clientPingHealth * world) :=
  '(_, w) ← RemoveOfflineNodes now false w;
  if Pool.len (nodeList (client w)) =? 0 then Some (PingEmpty, w)
  else
    '(r, w) ← CheckNode fuel now mode w;
    Some (match r with Some _ => PingHealthy | None => PingUnavailable end, w).

Definition set_ping (n : Z) (c : Client) : Client :=
  mkClient (Id c) (LastUUID c) (nodeList c) (nodes c) (files c) (fileOwnerKeys c) n (lastConnectNano c) (closed_ c).

Definition notePingUnavailable w : Z * bool * world :=
  let n := pingRetryTime (client w) + 1 in (n, retryTimeMax <=? n, set_client (set_ping n (client w)) w).
Definition resetPingRetry w : world := set_client (set_ping 0 (client w)) w.

Definition Close w : world :=
  let c := client w in
  if closed_ c then w
  else
    let '(_, l) := Pool.Clear false (nodeList c) in
    let c' := mkClient (Id c) "" l ∅ ∅ ∅ (pingRetryTime c) (lastConnectNano c) true in
    foldl (fun w '(_, p) => node_Close p w) (mkWorld c' (heap w) (closed w)) (walk (nodes c)).

End Walk.

(** ** The pool of owners *)

Definition good_name (u : string) : Prop := TrimSpace u = u /\ u <> "".

Record pool_ok (p : ownerPool) : Prop := mkPoolOk {
  p_nodup : NoDup (order p);
  p_entries : forall u, is_Some (entries p !! u) <-> u ∈ order p;
  p_next : 0 <= next p < count p \/ order p = [] /\ next p = 0;
  p_names : Forall good_name (order p)
}.

(** The owners in the order in which they are taken next. *)
Definition upcoming (p : ownerPool) : list string := drop (Z.to_nat (next p)) (order p) ++ take (Z.to_nat (next p)) (order p).

Lemma upcoming_perm p : upcoming p ≡ₚ order p.
Proof. unfold upcoming. rewrite Permutation_app_comm, take_drop. done. Qed.

Lemma normalize_id p : pool_ok p -> normalizeNextLocked p = p.
Proof.
  intros [_ _ H _]. unfold normalizeNextLocked, count in *. destruct p as [o e n]. cbn in *.
  destruct (Z.of_nat (length o) =? 0) eqn:E; zbool; [destruct H as [H|[H ->]]; [lia|done]|].
  destruct H as [H|[-> _]]; [|done]. by replace ((n <? 0) || (Z.of_nat (length o) <=? n)) with false by lia.
Qed.

Lemma new_pool_ok : pool_ok newRuntimeOwnerPool.
Proof. split; cbn; [constructor| |by right|constructor]. intros u. rewrite lookup_empty, elem_of_nil. split; [by intros []|done]. Qed.

Lemma pool_set_ok u p : pool_ok p -> good_name u -> u ∉ order p -> pool_ok (pool_set u u p) /\ order (pool_set u u p) = order p ++ [u].
Proof.
  intros [H1 H2 H3 H4] [Ht Hn] Hu. unfold pool_set. rewrite bool_decide_eq_false_2 by done.
  rewrite decide_False by (by rewrite H2). set (q := mkOwners _ _ _).
  assert (Hq : pool_ok q).
  { split; cbn.
    - apply NoDup_app. split; [done|]. split; [|apply NoDup_singleton]. intros x Hx Hx'. apply list_elem_of_singleton in Hx' as ->. done.
    - intros v. rewrite elem_of_app, list_elem_of_singleton, <- H2. destruct (decide (v = u)) as [ -> |Hne].
      + rewrite lookup_insert_eq. split; [by right|done].
      + rewrite lookup_insert_ne by done. tauto.
    - left. unfold count in *. cbn. rewrite length_app. cbn. destruct H3 as [?|[-> ->]]; cbn; lia.
    - apply Forall_app. split; [done|]. by constructor. }
  by rewrite normalize_id.
Qed.

Lemma entries_live p : pool_ok p -> forall u, u ∈ order p -> exists v, entries p !! u = Some v.
Proof. intros Hp u Hu. apply p_entries in Hu; [|done]. destruct Hu as [v Hv]. by exists v. Qed.

(** Selection takes the first of the upcoming owners and puts it last. *)
Lemma select_next p u r : pool_ok p -> upcoming p = u :: r ->
  exists q, selectNextLocked p = (Some u, count p, q) /\ pool_ok q /\ upcoming q = r ++ [u] /\ order q = order p.
Proof.
  intros Hp Hu. pose proof Hp as [H1 H2 H3 H4]. destruct H3 as [H3|[H3 _]]; [|unfold upcoming in Hu; rewrite H3 in Hu; by destruct (Z.to_nat (next p))].
  unfold selectNextLocked. replace (count p =? 0) with false by lia. rewrite normalize_id by done.
  assert (Hlen : (Z.to_nat (next p) < length (order p))%nat) by (unfold count in H3; lia).
  unfold upcoming in Hu. destruct (drop (Z.to_nat (next p)) (order p)) as [|x d] eqn:Ed.
  { apply (f_equal length) in Ed. rewrite length_drop in Ed. cbn in Ed. lia. }
  injection Hu as -> Er. destruct (drop_cons _ _ _ _ Ed) as [Hx Hd]. destruct (length (order p)) as [|tries] eqn:El; [lia|]. cbn [select_from].
  rewrite Z.add_0_r, Z.mod_small by done. rewrite Hx. destruct (entries_live p Hp u) as [v Hv]; [by eapply list_elem_of_lookup_2|]. rewrite Hv.
  eexists. split; [done|]. set (n' := (next p + 1) mod count p).
  assert (Hn' : n' = if decide (next p + 1 = count p) then 0 else next p + 1).
  { subst n'. case_decide as E; [rewrite E; apply Z_mod_same_full|apply Z.mod_small; lia]. }
  split; [split; cbn; [done|done| |done]|split; [|done]].
  { left. change (0 <= n' < count p). rewrite Hn'. case_decide; lia. }
  unfold upcoming. cbn [next order]. rewrite Hn'. case_decide as E.
  - assert (d = []) as ->. { rewrite <- Hd. apply drop_ge. unfold count in E. lia. } cbn in Er. rewrite <- Er. cbn. rewrite app_nil_r.
    rewrite <- (take_drop (Z.to_nat (next p)) (order p)) at 1. by rewrite Ed.
  - replace (Z.to_nat (next p + 1)) with (S (Z.to_nat (next p))) by lia. rewrite Hd, (take_S_r _ _ u) by done. by rewrite <- Er, app_assoc.
Qed.

Lemma select_none p : pool_ok p -> upcoming p = [] -> selectNextLocked p = (None, 0, p).
Proof.
  intros Hp Hu. assert (order p = []) as Ho by (apply Permutation_nil; by rewrite <- Hu, upcoming_perm). unfold selectNextLocked, count. by rewrite Ho.
Qed.

(** Taking an owner out keeps the order of the others. *)
Lemma pool_remove_ok u p : pool_ok p -> u ∈ order p ->
  exists q, pool_remove u p = (count q, true, q) /\ pool_ok q /\ order q = filter (fun x => x <> u) (order p) /\
    upcoming q = filter (fun x => x <> u) (upcoming p).
Proof.
  intros Hp Hu. pose proof Hp as [H1 H2 H3 H4]. assert (Hg : good_name u) by (rewrite Forall_forall in H4; by apply H4).
  unfold pool_remove. rewrite bool_decide_eq_false_2 by apply Hg. destruct (entries_live p Hp u Hu) as [v Hv]. rewrite Hv.
  set (p0 := mkOwners (order p) _ _). unfold indexOfLocked. cbn [order p0].
  destruct (list_find (fun x => x = u) (order p)) as [[i x]|] eqn:Ef; cbn [fmap option_fmap option_map fst].
  2:{ apply list_find_None in Ef. rewrite Forall_forall in Ef. by specialize (Ef u Hu). }
  apply list_find_Some in Ef as (Hi & -> & _). set (a := take i (order p)). set (b := drop (S i) (order p)).
  assert (Ho : order p = a ++ u :: b) by (symmetry; by apply take_drop_middle).
  assert (Hla : length a = i) by (apply length_take_le; apply lookup_lt_Some in Hi; lia).
  assert (Ha : u ∉ a /\ u ∉ b). { rewrite Ho in H1. apply NoDup_app in H1 as (_ & Hd & Hb). apply NoDup_cons in Hb as [Hb _]. split; [|done]. intros Hx. apply (Hd u Hx). by left. }
  destruct Ha as [Ha Hb]. assert (Hdel : delete i (order p) = a ++ b) by apply delete_take_drop.
  unfold removeOrderIndexLocked. cbn [order entries next p0]. rewrite Hdel.
  destruct H3 as [H3|[H3 _]]; [|rewrite H3 in Hu; by apply not_elem_of_nil in Hu].
  assert (Hcnt : count p = Z.of_nat (length a) + 1 + Z.of_nat (length b)) by (unfold count; rewrite Ho, length_app; cbn; lia).
  set (n' := if (length (a ++ b) =? 0)%nat then 0 else _). set (q := mkOwners (a ++ b) (delete u (entries p)) n').
  assert (Hup : (0 <= n' < count q \/ order q = [] /\ n' = 0) /\ upcoming q = filter (fun x => x <> u) (upcoming p)).
  { unfold upcoming, count. cbn [order next q]. subst n'. rewrite length_app. destruct (length a + length b =? 0)%nat eqn:E0.
    - apply Nat.eqb_eq in E0. assert (a = []) as Ea by (apply nil_length_inv; lia). assert (b = []) as Eb by (apply nil_length_inv; lia).
      rewrite Ho, Ea, Eb in *. split; [by right|]. cbn. cbn in Hcnt. replace (Z.to_nat (next p)) with O by lia. cbn. case_decide; naive_solver.
    - apply Nat.eqb_neq in E0. destruct (Z.of_nat i <? next p) eqn:E1; zbool.
      + split; [left; lia|]. rewrite Ho. set (m := Z.to_nat (next p)). replace (Z.to_nat (next p - 1)) with (length a + (m - length a - 1))%nat by lia.
        replace m with (length a + S (m - length a - 1))%nat at 3 4 by lia. rewrite !drop_app_add, !take_app_add. cbn [drop take]. rewrite (app_assoc _ a (u :: _)), filter_mid, <- app_assoc; [done| |].
        * intros [Hx|Hx]%elem_of_app; [|done]. apply Hb. by eapply elem_of_sublist; [|apply sublist_drop].
        * intros Hx. apply Hb. by eapply elem_of_sublist; [|apply sublist_take].
      + set (m := Z.to_nat (next p)). assert (Hm : (m <= length a)%nat) by lia.
        assert (Hf : filter (fun x => x <> u) (drop m (order p) ++ take m (order p)) = drop m a ++ b ++ take m a).
        { rewrite Ho, drop_app_le, take_app_le by done. rewrite <- app_assoc. cbn. rewrite filter_mid; [done| |].
          - intros Hx. apply Ha. by eapply elem_of_sublist; [|apply sublist_drop].
          - intros [Hx|Hx]%elem_of_app; [done|]. apply Ha. by eapply elem_of_sublist; [|apply sublist_take]. }
        rewrite Hf. destruct (Z.of_nat (length a + length b) <=? next p) eqn:E2; zbool.
        * assert (Hlb : length b = O) by lia. assert (Hma : m = length a) by lia. pose proof (nil_length_inv b Hlb) as Eb. split; [left; lia|].
          rewrite Hma, Eb, drop_all, (take_ge a) by lia. cbn. by rewrite !app_nil_r.
        * split; [left; lia|]. fold m. rewrite drop_app_le, take_app_le by done. by rewrite app_assoc. }
  destruct Hup as [Hn Hup]. assert (Hq : pool_ok q).
  { split; [|intros x|done|].
    - cbn. rewrite Ho in H1. eapply sublist_NoDup; [exact H1|]. apply sublist_app; [done|]. by apply sublist_cons.
    - cbn. destruct (decide (u = x)) as [ <- |Hne].
      + rewrite lookup_delete_eq. split; [by intros []|]. by intros [?|?]%elem_of_app.
      + rewrite lookup_delete_ne by done. rewrite H2, Ho. rewrite !elem_of_app, elem_of_cons. naive_solver.
    - cbn. rewrite Ho in H4. apply Forall_app in H4 as [? H4]. apply Forall_cons in H4 as [_ ?]. by apply Forall_app. }
  rewrite (normalize_id q Hq). exists q. split; [done|]. split; [done|]. split; [|done]. rewrite Ho. by rewrite filter_mid.
Qed.

Lemma pool_remove_none u p : pool_ok p -> u ∉ order p -> exists n, pool_remove u p = (n, false, p).
Proof.
  intros Hp Hu. unfold pool_remove. case_bool_decide; [by eexists|]. destruct (entries p !! u) as [v|] eqn:E; [|by eexists].
  exfalso. apply Hu. apply p_entries; [done|]. by rewrite E.
Qed.

(** ** File routes and their index *)

Definition owners (r : route) : list string := match r with One u => [u] | Many p => order p end.
Definition next_owners (r : route) : list string := match r with One u => [u] | Many p => upcoming p end.
Definition route_ok (r : route) : Prop := match r with One u => good_name u | Many p => pool_ok p /\ order p <> [] end.

(** The keys the index has for an owner are those of the routes it serves. *)
Definition indexed (f : gmap string route) (k : gmap string (gset string)) : Prop :=
  forall u key, key ∈ (default ∅ (k !! u) : gset string) <-> exists r, f !! key = Some r /\ u ∈ owners r.
Definition files_ok (c : Client) : Prop :=
  map_Forall (fun key r => good_name key /\ route_ok r) (files c) /\ indexed (files c) (fileOwnerKeys c).

Lemma next_owners_perm r : next_owners r ≡ₚ owners r.
Proof. destruct r as [u|p]; [done|apply upcoming_perm]. Qed.

Lemma route_names r : route_ok r -> Forall good_name (owners r).
Proof. destruct r as [u|p]; [intros H; by constructor|by intros [[] _]]. Qed.

Lemma route_owner_uuids r : route_ok r -> fileRouteOwnerUUIDs r = owners r.
Proof.
  destruct r as [u|p]; cbn.
  - intros [Ht Hn]. by rewrite Ht, bool_decide_eq_false_2.
  - intros [[_ H2 _ H4] _]. assert (snapshotKeys p = order p) as ->.
    { unfold snapshotKeys. assert (Hall : Forall (fun u => u <> "" /\ is_Some (entries p !! u)) (order p)).
      { apply Forall_forall. intros u Hu. rewrite Forall_forall in H4. split; [by apply H4|by apply H2]. }
      by apply filter_every. }
    apply omap_all. eapply Forall_impl; [exact H4|]. intros u [Ht Hn]. cbn. by rewrite Ht, bool_decide_eq_false_2.
Qed.

Lemma track_lookup key u k v key' : good_name key -> good_name u ->
  key' ∈ (default ∅ (trackFileOwnerLocked key u k !! v) : gset string) <-> (v = u /\ key' = key) \/ key' ∈ (default ∅ (k !! v) : gset string).
Proof.
  intros [Hk Hk'] [Hu Hu']. unfold trackFileOwnerLocked. rewrite Hk, Hu, !bool_decide_eq_false_2 by done. cbn [orb].
  destruct (decide (u = v)) as [ -> |Hne]; [rewrite lookup_insert_eq; cbn; set_solver|rewrite lookup_insert_ne by done; naive_solver].
Qed.

Lemma untrack_lookup key u k v key' : good_name key -> good_name u ->
  key' ∈ (default ∅ (untrackFileOwnerLocked key u k !! v) : gset string) <-> ~ (v = u /\ key' = key) /\ key' ∈ (default ∅ (k !! v) : gset string).
Proof.
  intros [Hk Hk'] [Hu Hu']. unfold untrackFileOwnerLocked. rewrite Hk, Hu, !bool_decide_eq_false_2 by done. cbn [orb].
  case_bool_decide as He.
  - destruct (decide (u = v)) as [ -> |Hne]; [rewrite lookup_delete_eq; cbn; set_solver|rewrite lookup_delete_ne by done; naive_solver].
  - destruct (decide (u = v)) as [ -> |Hne]; [rewrite lookup_insert_eq; cbn; set_solver|rewrite lookup_insert_ne by done; naive_solver].
Qed.

Lemma track_all key l k v key' : good_name key -> Forall good_name l ->
  key' ∈ (default ∅ (foldl (fun k u => trackFileOwnerLocked key u k) k l !! v) : gset string) <->
  (v ∈ l /\ key' = key) \/ key' ∈ (default ∅ (k !! v) : gset string).
Proof.
  intros Hk Hl. revert k. induction Hl as [|u l Hu Hl IH]; intros k; cbn; [rewrite elem_of_nil; tauto|].
  rewrite IH, track_lookup by done. rewrite elem_of_cons. naive_solver.
Qed.

Lemma untrack_all key l k v key' : good_name key -> Forall good_name l ->
  key' ∈ (default ∅ (foldl (fun k u => untrackFileOwnerLocked key u k) k l !! v) : gset string) <->
  ~ (v ∈ l /\ key' = key) /\ key' ∈ (default ∅ (k !! v) : gset string).
Proof.
  intros Hk Hl. revert k. induction Hl as [|u l Hu Hl IH]; intros k; cbn; [rewrite elem_of_nil; tauto|].
  rewrite IH, untrack_lookup by done. rewrite elem_of_cons. naive_solver.
Qed.

Definition same_kind (r r' : route) : Prop := match r, r' with One _, One _ | Many _, Many _ => True | _, _ => False end.

(** What removing one owner makes of a route. *)
Definition without_owner (u : string) (r : option route) : option route -> Prop := fun r' =>
  match r with
  | None => r' = None
  | Some r =>
      match r' with
      | None => filter (fun x => x <> u) (owners r) = []
      | Some r' => route_ok r' /\ same_kind r r' /\ owners r' = filter (fun x => x <> u) (owners r) /\ next_owners r' = filter (fun x => x <> u) (next_owners r)
      end
  end.

Lemma without_stranger u r : route_ok r -> u ∉ owners r -> without_owner u (Some r) (Some r).
Proof. intros Hr Hu. split; [done|]. split; [by destruct r|]. rewrite !filter_out; [done|by rewrite next_owners_perm|done]. Qed.

Lemma without_twice u r r1 r2 : without_owner u r r1 -> without_owner u r1 r2 -> without_owner u r r2.
Proof.
  destruct r as [r|]; [|by intros ->]. destruct r1 as [r1|]; cbn.
  - intros (_ & Hk & Ho & Hn). rewrite Ho, Hn. rewrite !list_filter_filter. destruct r2 as [r2|]; [intros (? & Hk2 & Ho2 & Hn2)|intros H2].
    + rewrite Ho2, Hn2. split; [done|]. split; [by destruct r, r1, r2|]. split; apply filter_same; tauto.
    + rewrite <- H2. apply filter_same; tauto.
  - by intros H ->.
Qed.

Lemma remove_from_route r u : route_ok r -> good_name u ->
  exists keep removed r', removeFileOwnerFromRoute r u = (keep, removed, r') /\
    (removed = false -> r' = r /\ u ∉ owners r) /\ (removed = true -> u ∈ owners r /\ without_owner u (Some r) (if (keep : bool) then Some r' else None)).
Proof.
  intros Hr Hu. destruct r as [v|p]; cbn [removeFileOwnerFromRoute route_ok owners] in *.
  - destruct Hr as [Ht Hn]. rewrite Ht, bool_decide_eq_false_2 by done. eexists _, _, _. split; [done|]. case_bool_decide as E.
    + subst v. split; [done|]. intros _. split; [by left|]. cbn [negb without_owner owners]. by rewrite filter_cons_False by naive_solver.
    + split; [|done]. intros _. split; [done|]. by intros ->%list_elem_of_singleton.
  - destruct Hr as [Hp Hne]. destruct (decide (u ∈ order p)) as [Hin|Hin].
    + destruct (pool_remove_ok u p Hp Hin) as (q & -> & Hq & Ho & Hup). cbn [negb]. eexists _, _, _. split; [done|]. split; [done|]. intros _. split; [done|].
      unfold count. rewrite Ho. destruct (0 <? Z.of_nat (length _)) eqn:E; zbool.
      * cbn. split; [|by split]. split; [done|]. rewrite Ho. intros En. rewrite En in E. cbn in E. lia.
      * cbn [without_owner owners]. apply nil_length_inv. lia.
    + destruct (pool_remove_none u p Hp Hin) as [n ->]. cbn [negb]. eexists _, _, _. split; [done|]. by split.
Qed.

Lemma remove_owner_ok key u w :
  files_ok (client w) -> good_name u ->
  exists b f k, removeFileOwnerLocked key u w = (b, set_client (set_files f k (client w)) w) /\ files_ok (set_files f k (client w)) /\
    (forall key', key' <> key -> f !! key' = files (client w) !! key') /\ without_owner u (files (client w) !! key) (f !! key).
Proof.
  intros [Hf Hi] Hu. unfold removeFileOwnerLocked. destruct (files (client w) !! key) as [r|] eqn:Er.
  2:{ exists false, (files (client w)), (fileOwnerKeys (client w)). split; [destruct w as [[] ? ?]; done|]. split; [done|]. split; [done|]. by rewrite Er. }
  destruct (Hf key r Er) as [Hk Hr]. destruct (remove_from_route r u Hr Hu) as (keep & removed & r' & -> & H0 & H1). destruct removed; cbn [negb].
  - destruct (H1 eq_refl) as [Hin Hw]. eexists true, _, _. split; [done|]. split; [split|split].
    + destruct keep; cbn [files set_files].
      * apply map_Forall_insert_2; [|done]. split; [done|]. by destruct Hw.
      * rewrite delete_insert_eq. by apply map_Forall_delete.
    + intros v key'. cbn [files fileOwnerKeys set_files]. rewrite untrack_lookup, (Hi v key') by done. destruct (decide (key' = key)) as [ -> |Hne].
      * rewrite Er. destruct keep; cbn; [rewrite lookup_insert_eq|rewrite lookup_delete_eq].
        -- destruct Hw as (_ & _ & Ho & _). split; [intros [Hn (? & [= <-] & Hv)]; exists r'; split; [done|]; rewrite Ho; apply list_elem_of_filter; split; [intros ->; by apply Hn|done]|].
           intros (? & [= <-] & Hv). rewrite Ho in Hv. apply list_elem_of_filter in Hv as [Hv1 Hv2]. split; [naive_solver|by exists r].
        -- split; [|by intros (? & ? & _)]. intros [Hn (? & [= <-] & Hv)]. exfalso. assert (v ∈ filter (fun x => x <> u) (owners r)) as Hx; [|by rewrite Hw in Hx; apply not_elem_of_nil in Hx].
           apply list_elem_of_filter. split; [|done]. intros ->. by apply Hn.
      * destruct keep; cbn; [rewrite lookup_insert_ne by done|rewrite lookup_delete_ne, lookup_insert_ne by done]; naive_solver.
    + intros key' Hne. destruct keep; [by rewrite lookup_insert_ne|by rewrite lookup_delete_ne, lookup_insert_ne].
    + destruct keep; [by rewrite lookup_insert_eq|by rewrite lookup_delete_eq].
  - destruct (H0 eq_refl) as [-> Hin]. rewrite (insert_id _ _ _ Er). exists false, (files (client w)), (fileOwnerKeys (client w)). split; [done|]. split; [done|]. split; [done|].
    rewrite Er. by apply without_stranger.
Qed.

Lemma remove_owner_each u l : forall w, files_ok (client w) -> good_name u -> NoDup l ->
  exists f k, foldl (fun w key => (removeFileOwnerLocked key u w).2) w l = set_client (set_files f k (client w)) w /\ files_ok (set_files f k (client w)) /\
    (forall key, key ∉ l -> f !! key = files (client w) !! key) /\ (forall key, key ∈ l -> without_owner u (files (client w) !! key) (f !! key)).
Proof.
  induction l as [|key l IH]; intros w Hw Hu Hl; cbn [foldl].
  { exists (files (client w)), (fileOwnerKeys (client w)). split; [by destruct w as [[] ? ?]|]. split; [done|]. split; [done|]. by intros key ?%not_elem_of_nil. }
  apply NoDup_cons in Hl as [Hkey Hl]. destruct (remove_owner_ok key u w Hw Hu) as (b & f & k & -> & Hok & Hf & Hk). cbn [snd].
  destruct (IH (set_client (set_files f k (client w)) w) Hok Hu Hl) as (f' & k' & -> & Hok' & Hf' & Hk'). exists f', k'. split; [done|]. split; [done|]. cbn in *. split.
  - intros key' Hne. rewrite elem_of_cons in Hne. rewrite Hf' by tauto. apply Hf. tauto.
  - intros key' [ -> |Hin]%elem_of_cons; [by rewrite Hf'|]. rewrite <- (Hf key') by (intros ->; done). by apply Hk'.
Qed.

(** After the pruning no route has the owner, and the other owners keep their order. *)
Lemma prune_routes_ok u w : files_ok (client w) -> good_name u ->
  exists f k, pruneFileMappings u w = set_client (set_files f k (client w)) w /\ files_ok (set_files f k (client w)) /\
    (forall key, without_owner u (files (client w) !! key) (f !! key)).
Proof.
  intros Hw Hu. unfold pruneFileMappings, collectFileMappingKeysByOwnerLocked. destruct Hu as [Ht Hn]. rewrite Ht, bool_decide_eq_false_2 by done.
  set (l := elements _). destruct (remove_owner_each u l w Hw (conj Ht Hn) (NoDup_elements _)) as (f & k & -> & Hok & Hf & Hk).
  exists f, k. split; [done|]. split; [done|]. intros key. destruct (decide (key ∈ l)) as [Hin|Hin]; [by apply Hk|]. rewrite Hf by done.
  destruct (files (client w) !! key) as [r|] eqn:E; [|done]. apply without_stranger; [by eapply Hw|]. intros Hu. apply Hin.
  apply elem_of_elements, (proj2 Hw). by exists r.
Qed.

(** ** The registry *)

Definition holds (n : Node) (x : Z) : Prop := signal n = Some x \/ tunnel n = Some x.

Record reg_ok w : Prop := mkRegOk {
  r_pool : Pool.wf (nodeList (client w));
  r_small : Pool.len (nodeList (client w)) < 2 ^ 63;
  r_dom : Pool.members (nodeList (client w)) = dom (nodes (client w));
  r_names : map_Forall (fun u p => good_name u /\ exists n, heap w !! p = Some n /\ UUID n = u) (nodes (client w));
  r_last : LastUUID (client w) = "" \/ is_Some (nodes (client w) !! LastUUID (client w));
  r_apart : forall u v p q n m x, nodes (client w) !! u = Some p -> nodes (client w) !! v = Some q -> u <> v ->
    heap w !! p = Some n -> heap w !! q = Some m -> holds n x -> ~ holds m x
}.

(** Owners of file routes are registered. *)
Definition owned w : Prop := forall key r u, files (client w) !! key = Some r -> u ∈ owners r -> is_Some (nodes (client w) !! u).

Definition wf w : Prop := reg_ok w /\ files_ok (client w) /\ owned w.

(** A registered node that is not offline. *)
Definition serves w (u : string) (p : Z) : Prop := nodes (client w) !! u = Some p /\ IsOffline w p = false.

(** What the operations on nodes leave alone. *)
Definition same_files (c c' : Client) : Prop :=
  files c' = files c /\ fileOwnerKeys c' = fileOwnerKeys c.
Definition same_rest (c c' : Client) : Prop := Id c' = Id c /\ lastConnectNano c' = lastConnectNano c.

Lemma reg_pointers w u v p : reg_ok w -> nodes (client w) !! u = Some p -> nodes (client w) !! v = Some p -> u = v.
Proof.
  intros H Hu Hv. destruct (r_names _ H u p Hu) as (_ & n & Hn & <-). destruct (r_names _ H v p Hv) as (_ & m & Hm & <-). congruence.
Qed.

Lemma member_node w u : reg_ok w -> u ∈ Pool.members (nodeList (client w)) <-> is_Some (nodes (client w) !! u).
Proof. intros H. by rewrite (r_dom _ H), elem_of_dom. Qed.

Lemma look_ok w r : reg_ok w -> Pool.looks r (nodeList (client w)) ->
  exists n l, r = Some (n, l) /\ reg_ok (set_client (set_list l (client w)) w) /\ Pool.plist l = Pool.plist (nodeList (client w)) /\
    (nodes (client w) = ∅ /\ n = None \/ exists u, n = Some u /\ u <> "" /\ is_Some (nodes (client w) !! u)).
Proof.
  intros H Hl. destruct (Pool.looks_same _ _ (r_pool _ H) Hl) as (n & l & -> & Hn & Hw & Hm & Hlen). exists n, l. split; [done|]. split; [|split].
  - destruct H as [H1 H2 H3 H4 H5 H6]. split; cbn; [done|lia|congruence|done|done|done].
  - destruct Hl as (v & p' & [= <- <-] & _ & -> & _). done.
  - destruct n as [u|]; [right|left]; cbn in Hn.
    + exists u. apply (member_node w u H) in Hn. split; [done|]. split; [|done]. destruct Hn as [p Hp]. by apply (r_names _ H) in Hp as [[_ ?] _].
    + split; [|done]. rewrite (r_dom _ H) in Hn. by apply dom_empty_inv_L.
Qed.

Lemma set_last_ok w u : reg_ok w -> u = "" \/ is_Some (nodes (client w) !! u) -> reg_ok (setCurrentNodeUUID u w).
Proof. intros [] Hu. by split. Qed.

Lemma drop_ok w u p : reg_ok w -> nodes (client w) !! u = Some p ->
  exists w', dropNodeRuntimeLocked u true w = Some w' /\ reg_ok w' /\ nodes (client w') = delete u (nodes (client w)) /\
    heap w' = heap w /\ closed w' = closed w /\ same_files (client w) (client w') /\ same_rest (client w) (client w').
Proof.
  intros H Hu. pose proof (r_names _ H u p Hu) as [[Ht Hn] _]. unfold dropNodeRuntimeLocked. rewrite bool_decide_eq_false_2 by done. cbn [nodeList set_nodes].
  destruct (Pool.Remove_ok u _ (r_pool _ H) (r_small _ H)) as (l & -> & Hl & Hm & Hs). cbn [mbind option_bind].
  set (w1 := set_client _ w).
  assert (Hw1 : forall v, v = "" \/ is_Some (delete u (nodes (client w)) !! v) -> reg_ok (setCurrentNodeUUID v w1)).
  { intros v Hv. destruct H as [H1 H2 H3 H4 H5 H6]. split; cbn; [done|lia| | |done|].
    - by rewrite Hm, H3, dom_delete_L.
    - by apply map_Forall_delete.
    - intros a b p1 q1 n m x [_ Ha]%lookup_delete_Some [_ Hb]%lookup_delete_Some. by apply (H6 a b p1 q1 n m x). }
  unfold advanceCurrentNodeLocked. destruct (decide (LastUUID (client w1) = u)) as [E|E].
  - rewrite (bool_decide_eq_false_2 _ Hn), (bool_decide_eq_true_2 _ E). cbn [orb negb].
    specialize (Hw1 "" ltac:(by left)). destruct (look_ok _ _ Hw1 (Pool.Next_ok _)) as (n & l' & Hnext & Hok & _ & Hn'). cbn in Hnext. change (nodeList (client w1)) with l.
    rewrite Hnext. cbn. eexists. split; [done|]. split; [|done].
    assert (Hx : default "" n = "" \/ is_Some (delete u (nodes (client w)) !! default "" n)).
    { destruct Hn' as [[_ ->]|(v & -> & _ & Hv)]; [by left|by right]. }
    exact (set_last_ok _ _ Hok Hx).
  - rewrite (bool_decide_eq_false_2 (LastUUID _ = _)) by done. rewrite orb_true_r. exists w1. split; [done|]. split; [|done].
    specialize (Hw1 (LastUUID (client w))). destruct w as [[] ? ?]. apply Hw1. destruct (r_last _ H) as [?|?]; [by left|right].
    cbn in *. by rewrite lookup_delete_ne.
Qed.

Lemma isOffline_apart n m cs : (forall x, holds n x -> ~ holds m x) -> isOfflineLocked (closeLocked cs n).2 m = isOfflineLocked cs m.
Proof.
  intros Hx. assert (Hc : forall c, (forall x, c = Some x -> holds m x) -> is_closed (closeLocked cs n).2 c = is_closed cs c).
  { intros [x|] Hm; [|done]. specialize (Hm x eq_refl). cbn. apply bool_decide_ext.
    assert (signal n <> Some x /\ tunnel n <> Some x) as [Hs Ht] by (split; intros E; apply (Hx x); [by left|done|by right|done]).
    destruct (signal n) as [s|], (tunnel n) as [t|]; cbn; rewrite ?elem_of_union, ?elem_of_singleton; split; intuition congruence. }
  unfold isOfflineLocked, isOnline, isTunnelClosed. rewrite !Hc; [done| |]; intros x E; [by left|by right].
Qed.

(** Closing a node touches no other node. *)
Lemma close_other w u p v q : reg_ok w -> nodes (client w) !! u = Some p -> nodes (client w) !! v = Some q -> u <> v -> IsOffline (node_Close p w) q = IsOffline w q.
Proof.
  intros H Hu Hv Hne. destruct (r_names _ H u p Hu) as (_ & n & Hn & _). destruct (r_names _ H v q Hv) as (_ & m & Hm & _).
  assert (p <> q) by (intros ->; apply Hne; exact (reg_pointers w u v q H Hu Hv)).
  unfold node_Close, IsOffline, node_at. rewrite Hn. destruct (closeLocked (closed w) n) as [n' cs] eqn:E. cbn. rewrite lookup_insert_ne, Hm by done.
  pose proof (isOffline_apart n m (closed w)) as Hi. rewrite E in Hi. apply Hi. intros x. exact (r_apart w H u v p q n m x Hu Hv Hne Hn Hm).
Qed.

(** Pruning, dropping and closing a node that is offline. *)
Lemma close_and_remove_ok w u p : wf w -> nodes (client w) !! u = Some p -> IsOffline w p = true ->
  exists w', closeAndRemoveNodeIfCurrent u p w = Some (true, w') /\ wf w' /\ nodes (client w') = delete u (nodes (client w)) /\
    (forall v q, serves w' v q <-> serves w v q) /\ same_rest (client w) (client w') /\
    (forall key, without_owner u (files (client w) !! key) (files (client w') !! key)) /\
    (forall v q, nodes (client w') !! v = Some q -> node_at w' q = node_at w q /\ IsOffline w' q = IsOffline w q).
Proof.
  intros (H & Hf & Ho) Hu Hp. pose proof (r_names _ H u p Hu) as [Hname (n & Hn & HU)]. unfold closeAndRemoveNodeIfCurrent.
  rewrite (bool_decide_eq_false_2 (u = "")) by apply Hname. rewrite (bool_decide_eq_true_2 _ Hu), Hp. cbn [negb orb].
  destruct (drop_ok w u p H Hu) as (w1 & -> & H1 & Hd & Hh & Hc & [Hs1 Hs2] & Hr). cbn [mbind option_bind].
  assert (Hcl : client (node_Close p w1) = client w1) by (unfold node_Close, node_at; rewrite Hh, Hn; done).
  assert (Hf1 : files_ok (client (node_Close p w1))) by (rewrite Hcl; unfold files_ok; rewrite Hs1, Hs2; exact Hf).
  destruct (prune_routes_ok u _ Hf1 Hname) as (f & k & -> & Hok & Hk). rewrite Hcl in *.
  set (w' := set_client _ _). exists w'. split; [done|].
  assert (Hheap : heap w' = <[p := (closeLocked (closed w) n).1]> (heap w)).
  { unfold w', node_Close, node_at. cbn. rewrite Hh, Hn. cbn. by rewrite Hh. }
  assert (Hclosed : closed w' = (closeLocked (closed w) n).2) by (unfold w', node_Close, node_at; cbn; rewrite Hh, Hn; cbn; by rewrite Hc).
  assert (Hsame : forall v q, nodes (client w1) !! v = Some q -> heap w' !! q = heap w !! q /\ IsOffline w' q = IsOffline w q).
  { intros v q Hv. rewrite Hd in Hv. apply lookup_delete_Some in Hv as [Hne Hv].
    assert (p <> q) by (intros ->; apply Hne; exact (reg_pointers w u v q H Hu Hv)). pose proof (close_other w u p v q H Hu Hv Hne) as Hx.
    unfold IsOffline, node_at in *. rewrite Hheap, Hclosed, lookup_insert_ne by done. split; [done|]. rewrite <- Hx. unfold node_Close, node_at. rewrite Hn. cbn.
    rewrite lookup_insert_ne by done. done. }
  split; [|split; [done|split; [|split; [exact Hr|split; [by rewrite <- Hs1|exact Hsame]]]]].
  - split; [|split].
    + destruct H1 as [A1 A2 A3 A4 A5 A6]. split; try done.
      * intros v q Hv. destruct (Hsame v q Hv) as [-> _]. apply A4 in Hv. by rewrite Hh in Hv.
      * intros a b p1 q1 n1 m1 x Ha Hb Hne. cbn in Ha, Hb. destruct (Hsame a p1 Ha) as [-> _], (Hsame b q1 Hb) as [-> _]. rewrite <- Hh. exact (A6 a b p1 q1 n1 m1 x Ha Hb Hne).
    + done.
    + intros key r v Hkey Hv. cbn in Hkey |- *. specialize (Hk key). rewrite Hkey, Hs1 in Hk. destruct (files (client w) !! key) as [r0|] eqn:E0; [|done].
      destruct Hk as (_ & _ & Hown & _). rewrite Hown in Hv. apply list_elem_of_filter in Hv as [Hne Hv]. rewrite Hd, lookup_delete_ne by done. by eapply Ho.
  - intros v q. unfold serves. cbn [client w' set_client nodes set_files]. split; intros [Hv Hq].
    + destruct (Hsame v q Hv) as [_ <-]. rewrite Hd in Hv. by apply lookup_delete_Some in Hv as [_ Hv].
    + assert (v <> u) by (intros ->; congruence). assert (nodes (client w1) !! v = Some q) as Hv1 by (rewrite Hd, lookup_delete_ne; done).
      split; [done|]. by destruct (Hsame v q Hv1) as [_ ->].
Qed.

(** ** Choosing a node *)

(** Taking the next node changes the cursors and the current node only. *)
Record turned w w' : Prop := mkTurned {
  t_nodes : nodes (client w') = nodes (client w);
  t_files : same_files (client w) (client w');
  t_rest : same_rest (client w) (client w');
  t_heap : heap w' = heap w;
  t_closed : closed w' = closed w;
  t_plist : Pool.plist (nodeList (client w')) = Pool.plist (nodeList (client w))
}.

(** A node that is protected by a grace window although it is offline. *)
Definition in_grace (now : Z) w : Prop :=
  InConnectGraceWindow now connectGraceProtectWindow (client w) = true \/
  exists u p n, nodes (client w) !! u = Some p /\ heap w !! p = Some n /\ IsOffline w p = true /\ InJoinGraceWindow now nodeJoinGraceProtectWindow n = true.

(** Nodes that serve stay, others may go. *)
Record narrows (now : Z) w w' : Prop := mkNarrows {
  n_wf : wf w';
  n_nodes : nodes (client w') ⊆ nodes (client w);
  n_serves : forall v q, serves w' v q <-> serves w v q;
  n_grace : in_grace now w' -> in_grace now w
}.

Lemma turned_refl w : turned w w.
Proof. by split. Qed.

Lemma turned_trans w1 w2 w3 : turned w1 w2 -> turned w2 w3 -> turned w1 w3.
Proof.
  intros [A1 [A2 A3] [A4 A5] A6 A7 A8] [B1 [B2 B3] [B4 B5] B6 B7 B8]. split; [congruence|split; congruence|split; congruence|congruence..].
Qed.

Lemma narrows_trans now w1 w2 w3 : narrows now w1 w2 -> narrows now w2 w3 -> narrows now w1 w3.
Proof.
  intros [A1 A2 A3 A4] [B1 B2 B3 B4]. split; [done|by transitivity (nodes (client w2))| |tauto]. intros v q. by rewrite B3, A3.
Qed.

Lemma turned_offline w w' p : turned w w' -> IsOffline w' p = IsOffline w p.
Proof. intros T. unfold IsOffline, node_at. by rewrite (t_heap _ _ T), (t_closed _ _ T). Qed.

Lemma turned_narrows now w w' : wf w -> reg_ok w' -> turned w w' -> narrows now w w'.
Proof.
  intros (H & Hf & Ho) H' T. pose proof T as [T1 [T2 T3] [T4 T5] T6 T7 T8]. split.
  - split; [done|]. split; [unfold files_ok; by rewrite T2, T3|]. unfold owned. by rewrite T1, T2.
  - by rewrite T1.
  - intros v q. unfold serves. by rewrite T1, (turned_offline w w').
  - unfold in_grace, InConnectGraceWindow. rewrite T1, T5, T6. setoid_rewrite (turned_offline w w' _ T). done.
Qed.

Lemma turn_list w l : Pool.plist l = Pool.plist (nodeList (client w)) -> turned w (set_client (set_list l (client w)) w).
Proof. by split. Qed.

Lemma turn_last w u : turned w (setCurrentNodeUUID u w).
Proof. by split. Qed.

Lemma next_node_ok mode w : reg_ok w -> exists n w', nextNodeUUIDByMode mode w = Some (n, w') /\ reg_ok w' /\ turned w w' /\
  (nodes (client w) = ∅ /\ n = "" \/ n <> "" /\ is_Some (nodes (client w) !! n)).
Proof.
  intros H. unfold nextNodeUUIDByMode.
  destruct (look_ok w (match mode with Random => Pool.Random (nodeList (client w)) | _ => Pool.Next (nodeList (client w)) end) H) as (n & l & -> & H' & Hp & Hn).
  { destruct mode; [apply Pool.Next_ok..|apply Pool.Random_ok]. }
  cbn. eexists _, _. split; [done|]. split; [done|]. split; [by apply turn_list|]. destruct Hn as [[? ->]|(u & -> & ? & ?)]; [by left|by right].
Qed.

Lemma node_name w u : reg_ok w -> is_Some (nodes (client w) !! u) -> good_name u.
Proof. intros H [p Hp]. by apply (r_names _ H) in Hp as [? _]. Qed.

Lemma next_distinct_ok attempts mode exclude : forall w, reg_ok w -> exists n w', next_distinct attempts mode exclude w = Some (n, w') /\ reg_ok w' /\ turned w w' /\
  (forall u, n = Some u -> is_Some (nodes (client w) !! u)).
Proof.
  induction attempts as [|k IH]; intros w H; cbn.
  - exists None, w. split; [done|]. split; [done|]. by split; [apply turned_refl|].
  - destruct (next_node_ok mode w H) as (n & w1 & -> & H1 & T1 & Hn). cbn. destruct (bool_decide (TrimSpace n <> "") && _) eqn:E.
    + eexists _, _. split; [done|]. split; [done|]. split; [done|]. intros u [= <-]. destruct Hn as [[_ ->]|[_ Hn]].
      * by rewrite bool_decide_eq_false_2 in E by (intros X; by apply X).
      * by destruct (node_name w n H Hn) as [-> _].
    + destruct (IH w1 H1) as (n' & w2 & -> & H2 & T2 & Hn'). eexists _, _. split; [done|]. split; [done|]. split; [by eapply turned_trans|]. by rewrite <- (t_nodes _ _ T1).
Qed.

Lemma nextDistinct_ok mode exclude w : reg_ok w -> exists n w', nextDistinctNodeUUID mode exclude w = Some (n, w') /\ reg_ok w' /\ turned w w' /\
  (n = "" \/ is_Some (nodes (client w) !! n)).
Proof.
  intros H. unfold nextDistinctNodeUUID. destruct (next_distinct_ok (length (Pool.plist (nodeList (client w)))) mode (TrimSpace exclude) w H) as (n & w1 & -> & H1 & T1 & Hn).
  cbn. destruct n as [n|]; [eexists _, _; split; [done|]; split; [done|]; split; [done|]; right; by apply Hn|].
  eexists _, _. split; [done|]. split; [done|]. split; [done|]. destruct (list_find _ _) as [[i u]|] eqn:E; [right|by left].
  apply list_find_Some in E as (E & _ & _). apply list_lookup_fmap_Some in E as (v & -> & Hv). rewrite (t_plist _ _ T1) in Hv.
  assert (is_Some (nodes (client w) !! v)) as Hs; [|by destruct (node_name w v H Hs) as [-> _]].
  apply (member_node w v H). unfold Pool.members. apply elem_of_list_to_set. by eapply list_elem_of_lookup_2.
Qed.

Lemma currentOrNext_ok mode w : reg_ok w -> exists u w', currentOrNextNodeUUID mode w = Some (u, w') /\ reg_ok w' /\ turned w w' /\
  (nodes (client w) = ∅ /\ u = "" \/ LastUUID (client w') = u /\ u <> "" /\ is_Some (nodes (client w) !! u)).
Proof.
  intros H. unfold currentOrNextNodeUUID. case_bool_decide as E; cbn [negb].
  - destruct (next_node_ok mode w H) as (n & w1 & -> & H1 & T1 & Hn). cbn. destruct Hn as [[He ->]|[Hne Hn]].
    + rewrite bool_decide_eq_true_2 by done. eexists _, _. split; [done|]. split; [done|]. split; [done|]. by left.
    + rewrite (bool_decide_eq_false_2 (n = "")) by done. rewrite <- (t_nodes _ _ T1) in Hn |- *. eexists _, _. split; [done|]. case_bool_decide as E1.
      * split; [apply set_last_ok; auto|]. split; [exact (turned_trans _ _ _ T1 (turn_last _ _))|]. by right.
      * split; [done|]. split; [done|]. right. split; [done|]. split; [done|]. by destruct (r_last _ H1).
  - eexists _, _. split; [done|]. split; [done|]. split; [apply turned_refl|]. right. split; [done|]. split; [done|]. by destruct (r_last _ H).
Qed.

Lemma lookup_node w u p : reg_ok w -> nodes (client w) !! u = Some p -> lookupNodeByUUID u w = Some p.
Proof. intros H Hu. destruct (node_name w u H ltac:(by eexists)) as [Ht Hn]. unfold lookupNodeByUUID. by rewrite Ht, bool_decide_eq_false_2. Qed.

(** What becomes of the current candidate, when it is registered. *)
Lemma evaluate_ok now w u p join : reg_ok w -> nodes (client w) !! u = Some p ->
  evaluateNodeCandidate now u join w = CandidateReady p /\ serves w u p \/
  IsOffline w p = true /\ (evaluateNodeCandidate now u join w = CandidatePrune p \/ evaluateNodeCandidate now u join w = CandidateDefer /\ in_grace now w).
Proof.
  intros H Hu. unfold evaluateNodeCandidate. rewrite (lookup_node w u p H Hu). destruct (IsOffline w p) eqn:E; cbn [negb]; [right|by left].
  split; [done|]. destruct (InConnectGraceWindow _ _ _) eqn:Ec; [right; split; [done|by left]|].
  destruct (join && _) eqn:Ej; [right|by left]. split; [done|]. right. apply andb_true_iff in Ej as [_ Ej]. unfold node_at in Ej.
  destruct (heap w !! p) as [n|] eqn:En; [|done]. by exists u, p, n.
Qed.

Lemma remove_narrows now w u p : wf w -> nodes (client w) !! u = Some p -> IsOffline w p = true ->
  exists w', closeAndRemoveNodeIfCurrent u p w = Some (true, w') /\ narrows now w w' /\ nodes (client w') = delete u (nodes (client w)).
Proof.
  intros H Hu Hp. destruct (close_and_remove_ok w u p H Hu Hp) as (w' & E & H' & Hd & Hs & [Hr1 Hr2] & _ & Hsame). exists w'. split; [done|]. split; [|done]. split; [done| |done|].
  - rewrite Hd. apply delete_subseteq.
  - intros [Hg|(v & q & n & Hv & Hn & Hoff & Hj)]; [left; unfold InConnectGraceWindow in *; by rewrite <- Hr2|right].
    destruct (Hsame v q Hv) as [Hn' Ho']. exists v, q, n. unfold node_at in Hn'. rewrite <- Hn', <- Ho'. split; [|done]. rewrite Hd in Hv. by apply lookup_delete_Some in Hv as [_ Hv].
Qed.

Lemma map_size_delete_lt {A} (m : gmap string A) u : is_Some (m !! u) -> (size (delete u m) < size m)%nat.
Proof. intros Hu. apply map_subset_size, delete_subset. by destruct Hu as [x ->]. Qed.

Lemma narrows_none now w w' : narrows now w w' -> (forall v q, ~ serves w' v q) \/ in_grace now w' -> (forall v q, ~ serves w v q) \/ in_grace now w.
Proof. intros [_ _ Hs Hg] [Hn|Hn]; [left|right; tauto]. intros v q Hv. apply (Hn v q). by apply Hs. Qed.

(** The loop ends: each round removes a node or uses up a grace check. *)
Lemma check_loop_ok now mode : forall fuel w left_, wf w -> (size (nodes (client w)) + Z.to_nat left_ < fuel)%nat ->
  exists r w', check_loop fuel now mode left_ w = Some (r, w') /\ narrows now w w' /\
    match r with Some p => serves w' (LastUUID (client w')) p | None => (forall v q, ~ serves w v q) \/ in_grace now w end.
Proof.
  induction fuel as [|fuel IH]; intros w left_ Hw Hfuel; [lia|]. cbn [check_loop].
  destruct (currentOrNext_ok mode w (proj1 Hw)) as (u & w1 & -> & H1 & T1 & Hu). cbn [mbind option_bind].
  pose proof (turned_narrows now w w1 Hw H1 T1) as N1. pose proof (n_wf _ _ _ N1) as Hw1.
  destruct Hu as [[He ->]|(Hl & Hne & Hu)].
  { rewrite bool_decide_eq_true_2 by done. eexists _, _. split; [done|]. split; [done|]. left. intros v q [Hv _]. by rewrite He, lookup_empty in Hv. }
  rewrite bool_decide_eq_false_2 by done. rewrite <- (t_nodes _ _ T1) in Hu, Hfuel. destruct Hu as [p Hp].
  destruct (evaluate_ok now w1 u p true H1 Hp) as [[-> Hs]|(Hoff & [-> |[-> Hg]])].
  - eexists _, _. split; [done|]. split; [done|]. by rewrite Hl.
  - destruct (remove_narrows now w1 u p Hw1 Hp Hoff) as (w2 & -> & N2 & Hd). cbn [mbind option_bind].
    assert (size (nodes (client w2)) < size (nodes (client w1)))%nat as Hsize by (rewrite Hd; apply map_size_delete_lt; by eexists).
    destruct (IH w2 left_ (n_wf _ _ _ N2)) as (r & w3 & E & N3 & Hr); [lia|].
    pose proof (narrows_trans _ _ _ _ N1 N2) as N12. exists r, w3. split; [exact E|]. split; [by eapply narrows_trans|]. destruct r; [done|]. by eapply narrows_none.
  - destruct (Z.leb_spec (left_ - 1) 0) as [Hz|Hz]; [eexists _, _; split; [done|]; split; [done|]; right; by apply (n_grace _ _ _ N1)|].
    destruct (nextDistinct_ok mode u w1 H1) as (n & w2 & -> & H2 & T2 & Hn). cbn [mbind option_bind].
    set (w2' := setCurrentNodeUUID n w2). pose proof (turned_trans _ _ _ T2 (turn_last w2 n)) as T2'.
    assert (reg_ok w2') as H2' by (apply set_last_ok; [done|]; by rewrite (t_nodes _ _ T2)).
    pose proof (turned_narrows now w1 w2' Hw1 H2' T2') as N2.
    destruct (IH w2' (left_ - 1) (n_wf _ _ _ N2)) as (r & w3 & E & N3 & Hr); [pose proof (t_nodes _ _ T2) as En; cbn in *; rewrite En; lia|].
    pose proof (narrows_trans _ _ _ _ N1 N2) as N12. exists r, w3. split; [exact E|]. split; [by eapply narrows_trans|]. destruct r; [done|]. by eapply narrows_none.
Qed.

(** Enough rounds for the loop of [CheckNode]: one for each node, and one for each grace check. *)
Definition rounds w : nat := S (2 * length (Pool.plist (nodeList (client w)))).

Lemma pool_size w : reg_ok w -> size (nodes (client w)) = length (Pool.plist (nodeList (client w))).
Proof. intros H. pose proof (Pool.size_members _ (r_pool _ H)) as Hs. rewrite (r_dom _ H), size_dom in Hs. unfold Pool.len in Hs. lia. Qed.

Lemma check_node_ok now mode fuel w : wf w -> (rounds w <= fuel)%nat ->
  exists r w', CheckNode fuel now mode w = Some (r, w') /\ narrows now w w' /\
    match r with Some p => serves w' (LastUUID (client w')) p | None => (forall v q, ~ serves w v q) \/ in_grace now w end.
Proof.
  intros Hw Hf. unfold CheckNode. pose proof (turned_narrows now w w Hw (proj1 Hw) (turned_refl w)) as N0. destruct (Z.eqb_spec (Pool.len (nodeList (client w))) 0) as [E|E].
  { exists None, w. split; [done|]. split; [done|]. left. intros v q [Hv _]. assert (v ∈ Pool.members (nodeList (client w))) as Hm by (apply member_node; [apply Hw|eauto]).
    rewrite Pool.members_empty in Hm by done. set_solver. }
  unfold currentNodeIfOnline. pose proof (r_last _ (proj1 Hw)) as Hl. destruct (decide (LastUUID (client w) = "")) as [E0|E0].
  { rewrite E0. apply check_loop_ok; [done|]. rewrite (pool_size w (proj1 Hw)). unfold rounds, Pool.len in *. lia. }
  destruct Hl as [Hl|[p Hp]]; [done|]. destruct (node_name w _ (proj1 Hw) ltac:(by eexists)) as [Ht Hn]. rewrite Ht, bool_decide_eq_false_2 by done.
  rewrite (lookup_node w _ p (proj1 Hw) Hp). destruct (IsOffline w p) eqn:Eo.
  - apply check_loop_ok; [done|]. rewrite (pool_size w (proj1 Hw)). unfold rounds, Pool.len in *. lia.
  - exists (Some p), w. split; [done|]. by split.
Qed.

(** ** Choosing the owner of a file *)

(** A change of the routes that keeps their owners among the nodes. *)
Lemma files_narrow now w f k : wf w -> files_ok (set_files f k (client w)) ->
  (forall key r u, f !! key = Some r -> u ∈ owners r -> is_Some (nodes (client w) !! u)) -> narrows now w (set_client (set_files f k (client w)) w).
Proof. intros (H & _ & _) Hf Ho. split; [|done|done|done]. split; [destruct H; by split|]. split; [done|exact Ho]. Qed.

Lemma without_owners u r r' v : without_owner u (Some r) (Some r') -> v ∈ owners r' -> v ∈ owners r.
Proof. intros (_ & _ & -> & _) Hv. by apply list_elem_of_filter in Hv as [_ Hv]. Qed.

Lemma removeFileOwner_ok now key u w : wf w -> good_name key -> good_name u ->
  exists b w', removeFileOwner key u w = (b, w') /\ narrows now w w' /\ without_owner u (files (client w) !! key) (files (client w') !! key) /\
    nodes (client w') = nodes (client w) /\ heap w' = heap w /\ closed w' = closed w.
Proof.
  intros Hw [_ Hk] Hu. unfold removeFileOwner. rewrite !bool_decide_eq_false_2 by (done || apply Hu). cbn [orb].
  destruct (remove_owner_ok key u w (proj1 (proj2 Hw)) Hu) as (b & f & k & -> & Hf & Hne & Hwo). eexists _, _. split; [done|]. split; [|done].
  apply files_narrow; [done|done|]. intros key' r v Hkey Hv. destruct (decide (key' = key)) as [ -> |E].
  - rewrite Hkey in Hwo. destruct (files (client w) !! key) as [r0|] eqn:E0; [|done]. eapply (proj2 (proj2 Hw)); [exact E0|]. by eapply without_owners.
  - rewrite Hne in Hkey by done. by eapply (proj2 (proj2 Hw)).
Qed.

(** One owner of the route is asked: it serves, it waits for it to come back, or it is
    removed from the route and from the client. *)
Lemma resolve_ok now key u r w : wf w -> files (client w) !! key = Some r -> u ∈ owners r ->
  exists res w', resolveFileRouteNode now key u w = Some (res, w') /\ narrows now w w' /\
    match res with
    | Some p => w' = w /\ serves w u p
    | None => (forall p, ~ serves w u p) /\ (w' = w \/ without_owner u (Some r) (files (client w') !! key))
    end.
Proof.
  intros Hw Hkey Hr. pose proof (turned_narrows now w w Hw (proj1 Hw) (turned_refl w)) as N0.
  destruct (proj2 (proj2 Hw) key r u Hkey Hr) as [p Hp]. pose proof (node_name w u (proj1 Hw) ltac:(by eexists)) as Hu.
  unfold resolveFileRouteNode. destruct (evaluate_ok now w u p false (proj1 Hw) Hp) as [[-> Hs]|(Hoff & Hcase)].
  { eexists _, _. split; [done|]. by split. }
  assert (Hno : forall q, ~ serves w u q) by (intros q [Hq Hq']; congruence).
  destruct Hcase as [-> |[-> _]]; [|eexists _, _; split; [done|]; split; [done|]; split; [done|by left]].
  destruct (removeFileOwner_ok now key u w Hw (proj1 (proj1 (proj1 (proj2 Hw)) key r Hkey)) Hu) as (b & w1 & -> & N1 & Hw1 & Hn & Hh & Hc).
  assert (IsOffline w1 p = true) as Hoff1 by (unfold IsOffline, node_at; rewrite Hh, Hc; exact Hoff). rewrite <- Hn in Hp.
  destruct (close_and_remove_ok w1 u p (n_wf _ _ _ N1) Hp Hoff1) as (w2 & E2 & _ & _ & _ & _ & Hwo & _).
  destruct (remove_narrows now w1 u p (n_wf _ _ _ N1) Hp Hoff1) as (w2' & E2' & N2 & _). rewrite E2 in E2'. injection E2' as <-.
  rewrite E2. cbn. eexists _, _. split; [done|]. split; [by eapply narrows_trans|]. split; [done|]. right.
  rewrite Hkey in Hw1. exact (without_twice _ _ _ _ Hw1 (Hwo key)).
Qed.

Lemma set_owners_ok now key p q w : wf w -> files (client w) !! key = Some (Many p) -> pool_ok q -> order q = order p ->
  narrows now w (set_owners key q w) /\ files (client (set_owners key q w)) !! key = Some (Many q).
Proof.
  intros Hw Hkey Hq Ho. unfold set_owners. rewrite Hkey. cbn [client set_client files set_files]. rewrite lookup_insert_eq. split; [|done].
  destruct (proj1 (proj1 (proj2 Hw)) key _ Hkey) as [Hk [_ Hne]]. destruct (proj1 (proj2 Hw)) as [Hf Hi].
  assert (Hsame : forall key' u, (exists r, <[key := Many q]> (files (client w)) !! key' = Some r /\ u ∈ owners r) <-> (exists r, files (client w) !! key' = Some r /\ u ∈ owners r)).
  { intros key' u. destruct (decide (key' = key)) as [ -> |E]; [rewrite lookup_insert_eq, Hkey|by rewrite lookup_insert_ne].
    split; intros (r & [= <-] & Hr); [exists (Many p)|exists (Many q)]; (split; [done|]); cbn in *; congruence. }
  apply files_narrow; [done| |].
  - split; cbn; [apply map_Forall_insert_2; [|done]; split; [done|]; split; [done|congruence]|]. intros u key'. by rewrite Hsame, (Hi u key').
  - intros key' r u Hr Hu. destruct (proj1 (Hsame key' u)) as (r' & Hr' & Hu'); [by exists r|]. by eapply (proj2 (proj2 Hw)).
Qed.

(** The pool after an owner that does not serve was asked: it stays last or it is gone. *)
Lemma pool_after key p x l u w : wf w -> files (client w) !! key = Some (Many p) -> upcoming p = x :: l ++ [u] ->
  forall r, without_owner u (Some (Many p)) r -> exists p', r = Some (Many p') /\ pool_ok p' /\ upcoming p' = x :: l /\ (forall v, v ∈ order p <-> v = u \/ v ∈ order p').
Proof.
  intros Hw Hkey Hup r Hr. destruct (proj1 (proj1 (proj2 Hw)) key _ Hkey) as [_ [Hp _]].
  assert (NoDup (upcoming p)) as Hnd by (rewrite upcoming_perm; by apply p_nodup).
  assert (Hfil : filter (fun y => y <> u) (upcoming p) = x :: l).
  { rewrite Hup in Hnd |- *. change (x :: l ++ [u]) with ((x :: l) ++ [u]) in *. apply NoDup_app in Hnd as (_ & Hnd & _).
    rewrite filter_mid, app_nil_r; [done| |apply not_elem_of_nil]. intros Hin. apply (Hnd u Hin). by left. }
  assert (u ∈ order p) as Hin by (rewrite <- upcoming_perm, Hup; set_solver).
  destruct r as [r|]; cbn in Hr.
  - destruct Hr as (Hok & Hk & Ho & Hn). destruct r as [|p']; [done|]. destruct Hok as [Hp' _]. exists p'. cbn in Ho, Hn. split; [done|]. split; [done|]. split; [congruence|].
    intros v. rewrite Ho, list_elem_of_filter. destruct (decide (v = u)) as [ -> |]; naive_solver.
  - exfalso. assert (x ∈ filter (fun y => y <> u) (order p)) as Hx; [|rewrite Hr in Hx; by apply not_elem_of_nil in Hx].
    rewrite <- upcoming_perm, Hfil. by left.
Qed.

Lemma resolve_try n now key u w res w1 : resolveFileRouteNode now key (TrimSpace u) w = Some (res, w1) ->
  resolve_tries (S n) now key u w =
    match res, n with
    | Some p, _ => Some (Some p, w1)
    | None, O => Some (None, w1)
    | None, _ =>
        let '(u, _, p) := selectNextLocked (owners_of key w1) in
        match u with Some u => resolve_tries n now key u (set_owners key p w1) | None => Some (None, set_owners key p w1) end
    end.
Proof. intros E. cbn [resolve_tries]. rewrite E. done. Qed.

Lemma tries_ok now key : forall todo tried u w p, wf w -> files (client w) !! key = Some (Many p) -> upcoming p = todo ++ tried ++ [u] ->
  (forall v q, v ∈ tried -> ~ serves w v q) ->
  exists res w', resolve_tries (S (length todo)) now key u w = Some (res, w') /\ narrows now w w' /\
    match res with Some q => exists v, v ∈ order p /\ serves w v q | None => forall v q, v ∈ order p -> ~ serves w v q end.
Proof.
  induction todo as [|x todo IH]; intros tried u w p Hw Hkey Hup Hno;
    assert (u ∈ order p) as Hu by (rewrite <- upcoming_perm, Hup; set_solver);
    destruct (resolve_ok now key u (Many p) w Hw Hkey Hu) as (res & w1 & E & N1 & Hres);
    assert (TrimSpace u = u) as Ht by (apply (node_name w u (proj1 Hw)); by eapply (proj2 (proj2 Hw)));
    rewrite <- Ht in E at 1; cbn [length]; rewrite (resolve_try _ _ _ _ _ _ _ E); (destruct res as [q|]; [destruct Hres as [-> Hs]; eexists _, _; split; [done|]; split; [done|]; by exists u|]);
    destruct Hres as [Hnu Hafter].
  - eexists _, _. split; [done|]. split; [done|]. intros v q Hv Hs. rewrite <- upcoming_perm, Hup in Hv. cbn [app] in Hv. apply elem_of_app in Hv as [Hv|Hv%list_elem_of_singleton]; [by apply (Hno v q)|]. subst v. by apply (Hnu q).
  - assert (exists p1 tried1, files (client w1) !! key = Some (Many p1) /\ pool_ok p1 /\ upcoming p1 = x :: todo ++ tried1 /\
      (forall v, v ∈ order p <-> v = u \/ v ∈ order p1) /\ (forall v q, v ∈ tried1 -> ~ serves w v q)) as (p1 & tried1 & Hkey1 & Hp1 & Hup1 & Hord & Hno1).
    { destruct Hafter as [-> |Hwo].
      - exists p, (tried ++ [u]). split; [done|]. split; [apply (proj1 (proj1 (proj2 Hw)) key _ Hkey)|]. split; [done|]. split; [set_solver|]. intros v q [Hv|Hv%list_elem_of_singleton]%elem_of_app; [by apply Hno|subst v; apply Hnu].
      - rewrite app_assoc in Hup. destruct (pool_after key p x (todo ++ tried) u w Hw Hkey Hup _ Hwo) as (p1 & Hk1 & Hp1 & Hup1 & Hord). by exists p1, tried. }
    unfold owners_of. rewrite Hkey1. destruct (select_next p1 x (todo ++ tried1) Hp1 Hup1) as (q1 & -> & Hq1 & Hupq & Hoq).
    destruct (set_owners_ok now key p1 q1 w1 (n_wf _ _ _ N1) Hkey1 Hq1 Hoq) as [N2 Hkey2]. pose proof (narrows_trans _ _ _ _ N1 N2) as N12.
    rewrite <- app_assoc in Hupq. destruct (IH tried1 x _ q1 (n_wf _ _ _ N2) Hkey2 Hupq) as (res & w3 & -> & N3 & Hres).
    { intros v q Hv. rewrite (n_serves _ _ _ N12). by apply Hno1. }
    eexists _, _. split; [done|]. split; [by eapply narrows_trans|]. destruct res as [q|].
    + destruct Hres as (v & Hv & Hs). exists v. rewrite (n_serves _ _ _ N12) in Hs. split; [|done]. apply Hord. right. congruence.
    + intros v q Hv. apply Hord in Hv as [-> |Hv]; [by apply Hnu|]. rewrite <- (n_serves _ _ _ N12). apply Hres. congruence.
Qed.

Lemma node_by_file_ok now key r w : wf w -> files (client w) !! key = Some r ->
  exists res w', GetNodeByFile now key w = Some (res, w') /\ narrows now w w' /\
    match res with Some q => exists v, v ∈ owners r /\ serves w v q | None => forall v q, v ∈ owners r -> ~ serves w v q end.
Proof.
  intros Hw Hkey. destruct (proj1 (proj1 (proj2 Hw)) key r Hkey) as [[_ Hk] Hr]. unfold GetNodeByFile. rewrite bool_decide_eq_false_2, Hkey by done. destruct r as [u|p].
  - destruct Hr as [Ht Hn]. rewrite Ht, bool_decide_eq_false_2 by done. destruct (resolve_ok now key u (One u) w Hw Hkey ltac:(by left)) as (res & w' & E & N & Hres).
    eexists _, _. split; [exact E|]. split; [done|]. destruct res as [q|]; [exists u; split; [by left|tauto]|]. intros v q ->%list_elem_of_singleton. apply Hres.
  - destruct Hr as [Hp Hne]. destruct (upcoming p) as [|x l] eqn:Hup; [exfalso; apply Hne; apply Permutation_nil_r; by rewrite <- upcoming_perm, Hup|].
    destruct (select_next p x l Hp Hup) as (q & -> & Hq & Hupq & Hoq). destruct (set_owners_ok now key p q w Hw Hkey Hq Hoq) as [N1 Hkey1].
    assert (Z.to_nat (count p) = S (length l)) as ->. { unfold count. rewrite Nat2Z.id, <- upcoming_perm, Hup. done. }
    destruct (tries_ok now key l [] x _ q (n_wf _ _ _ N1) Hkey1 Hupq) as (res & w' & E & N2 & Hres); [by intros v ? ?%not_elem_of_nil|].
    eexists _, _. split; [exact E|]. split; [by eapply narrows_trans|]. rewrite Hoq in Hres. cbn [owners]. destruct res; setoid_rewrite (n_serves _ _ _ N1) in Hres; exact Hres.
Qed.

(** ** The other operations *)

(** A sweep only counts strikes before it removes anything. *)
Definition same_but_strikes (n m : Node) : Prop :=
  m = mkNode (UUID n) (Version n) (BaseVer n) (signal n) (tunnel n) (retryTime m) (joinNano n) (ClientId n).
Definition struck w w' : Prop :=
  client w' = client w /\ closed w' = closed w /\ (forall p, option_relation same_but_strikes (const False) (const False) (heap w !! p) (heap w' !! p)).

Lemma same_strikes_refl n : same_but_strikes n n.
Proof. by destruct n. Qed.

Lemma struck_refl w : struck w w.
Proof. split; [done|]. split; [done|]. intros p. destruct (heap w !! p); [apply same_strikes_refl|done]. Qed.

Lemma struck_trans w1 w2 w3 : struck w1 w2 -> struck w2 w3 -> struck w1 w3.
Proof.
  intros (A1 & A2 & A3) (B1 & B2 & B3). split; [congruence|]. split; [congruence|]. intros p. specialize (A3 p). specialize (B3 p).
  destruct (heap w1 !! p) as [n1|], (heap w2 !! p) as [n2|], (heap w3 !! p) as [n3|]; try done. cbn in *. unfold same_but_strikes in *. rewrite B3, A3. done.
Qed.

Lemma struck_offline w w' p : struck w w' -> IsOffline w' p = IsOffline w p.
Proof.
  intros (_ & Hc & Hh). specialize (Hh p). unfold IsOffline, node_at. rewrite Hc. destruct (heap w !! p), (heap w' !! p); try done. cbn in Hh. by rewrite Hh.
Qed.

Lemma struck_node w w' p n : struck w w' -> heap w !! p = Some n -> exists m, heap w' !! p = Some m /\ same_but_strikes n m.
Proof. intros (_ & _ & Hh) Hn. specialize (Hh p). rewrite Hn in Hh. destruct (heap w' !! p) as [m|]; [by exists m|done]. Qed.

Lemma struck_back w w' p m : struck w w' -> heap w' !! p = Some m -> exists n, heap w !! p = Some n /\ same_but_strikes n m.
Proof. intros (_ & _ & Hh) Hn. specialize (Hh p). rewrite Hn in Hh. destruct (heap w !! p) as [n|]; [by exists n|done]. Qed.

Lemma strikes_hold n m x : same_but_strikes n m -> holds m x <-> holds n x.
Proof. intros ->. done. Qed.

Lemma struck_narrows now w w' : wf w -> struck w w' -> narrows now w w'.
Proof.
  intros (H & Hf & Ho) S. pose proof S as (Hc & _ & _). split.
  - unfold wf, owned. rewrite Hc. split; [|by split]. destruct H as [H1 H2 H3 H4 H5 H6]. split; rewrite ?Hc; try done.
    + intros u p Hu. destruct (H4 u p Hu) as (? & n & Hn & HU). split; [done|]. destruct (struck_node w w' p n S Hn) as (m & Hm & E). exists m. split; [done|]. by rewrite E.
    + intros u v p q n m x Hu Hv Hne Hn Hm. destruct (struck_back _ _ _ _ S Hn) as (n0 & Hn0 & En), (struck_back _ _ _ _ S Hm) as (m0 & Hm0 & Em).
      rewrite (strikes_hold _ _ x En), (strikes_hold _ _ x Em). exact (H6 u v p q n0 m0 x Hu Hv Hne Hn0 Hm0).
  - by rewrite Hc.
  - intros v q. unfold serves. by rewrite Hc, (struck_offline w w' q S).
  - unfold in_grace. rewrite Hc. intros [Hg|(u & p & n & Hu & Hn & Hoff & Hj)]; [by left|right]. destruct (struck_back _ _ _ _ S Hn) as (n0 & Hn0 & En).
    exists u, p, n0. split; [done|]. split; [done|]. rewrite (struck_offline w w' p S) in Hoff. split; [done|]. unfold InJoinGraceWindow in *. by rewrite En in Hj.
Qed.

Lemma should_remove_strikes now window ignore cs n : same_but_strikes n (shouldRemoveOffline now window ignore cs n).2.
Proof. unfold shouldRemoveOffline. repeat case_match; cbn; (done || apply same_strikes_refl). Qed.

(** The node has been offline for long enough. *)
Definition doomed (now : Z) (keepUUID : string) (ignoreNodeRetry : bool) w (u : string) (p : Z) : bool :=
  match node_at w p with
  | Some n => negb (bool_decide (u = keepUUID)) && (shouldRemoveOffline now nodeJoinGraceProtectWindow ignoreNodeRetry (closed w) n).1
  | None => false
  end.

Lemma doomed_offline now keep ignore w u p : doomed now keep ignore w u p = true -> IsOffline w p = true.
Proof.
  unfold doomed, IsOffline, shouldRemoveOffline. destruct (node_at w p) as [n|]; [|done]. intros [_ E]%andb_true_iff. revert E.
  destruct (_ && _ && _); [done|]. by destruct (isOfflineLocked (closed w) n).
Qed.

Lemma doomed_same now keep ignore w w' u p : heap w' !! p = heap w !! p -> closed w' = closed w -> doomed now keep ignore w' u p = doomed now keep ignore w u p.
Proof. unfold doomed, node_at. by intros -> ->. Qed.

Lemma collect_ok now keep ignore l : forall w, NoDup l.*2 -> Forall (fun '(u, p) => u <> "" /\ is_Some (heap w !! p)) l ->
  exists w', collect_offline now keep ignore l w = (filter (fun '(u, p) => doomed now keep ignore w u p = true) l, w') /\ struck w w'.
Proof.
  induction l as [|[u p] l IH]; intros w Hnd Hl; cbn [collect_offline]; [exists w; split; [done|apply struck_refl]|].
  cbn in Hnd. apply NoDup_cons in Hnd as [Hp Hnd]. apply Forall_cons in Hl as [[Hu [n Hn]] Hl]. unfold node_at at 1. rewrite Hn.
  assert (Hd : doomed now keep ignore w u p = negb (bool_decide (u = keep)) && (shouldRemoveOffline now nodeJoinGraceProtectWindow ignore (closed w) n).1).
  { unfold doomed, node_at. by rewrite Hn. }
  rewrite (bool_decide_eq_false_2 (u = "")) by done. cbn [orb]. case_bool_decide as Ek; cbn [negb andb] in Hd.
  { rewrite filter_cons_False by (by rewrite Hd). by apply IH. }
  destruct (shouldRemoveOffline _ _ _ _ n) as [b m] eqn:E. pose proof (should_remove_strikes now nodeJoinGraceProtectWindow ignore (closed w) n) as Hm. rewrite E in Hm. cbn [fst snd] in Hm, Hd.
  set (w1 := set_node p m (closed w) w). assert (struck w w1) as S1.
  { split; [done|]. split; [done|]. intros q. cbn. destruct (decide (p = q)) as [ <- |Hne]; [by rewrite lookup_insert_eq, Hn|rewrite lookup_insert_ne by done]. apply struck_refl. }
  destruct (IH w1 Hnd) as (w' & -> & S).
  { eapply Forall_impl; [exact Hl|]. intros [v q] [? Hq]. split; [done|]. destruct Hq as [y Hy]. destruct (struck_node w w1 q y S1 Hy) as (z & Hz & _). by eexists. }
  exists w'. split; [|by eapply struck_trans]. f_equal. assert (filter (fun '(u, p) => doomed now keep ignore w1 u p = true) l = filter (fun '(u, p) => doomed now keep ignore w u p = true) l) as ->.
  { apply filter_same. intros [v q] Hv. assert (p <> q) by (intros ->; apply Hp; apply list_elem_of_fmap; by exists (v, q)).
    rewrite (doomed_same now keep ignore w w1); [done| |done]. cbn. by rewrite lookup_insert_ne. }
  destruct b; [by rewrite filter_cons_True|by rewrite filter_cons_False by (by rewrite Hd)].
Qed.

Lemma remove_each_ok now l : forall w, wf w -> NoDup l.*1 -> Forall (fun '(u, p) => nodes (client w) !! u = Some p /\ IsOffline w p = true) l ->
  exists w', remove_each l w = Some (Z.of_nat (length l), w') /\ narrows now w w' /\ (forall v, nodes (client w') !! v = if decide (v ∈ l.*1) then None else nodes (client w) !! v).
Proof.
  induction l as [|[u p] l IH]; intros w Hw Hnd Hl; cbn [remove_each length].
  { exists w. split; [done|]. split; [apply turned_narrows; [done|apply Hw|apply turned_refl]|done]. }
  cbn in Hnd. apply NoDup_cons in Hnd as [Hu Hnd]. apply Forall_cons in Hl as [[Hp Hoff] Hl].
  destruct (remove_narrows now w u p Hw Hp Hoff) as (w1 & E & N1 & Hd). destruct (close_and_remove_ok w u p Hw Hp Hoff) as (w1' & E' & _ & _ & _ & _ & _ & Hsame).
  rewrite E in E'. injection E' as <-. rewrite E. cbn [mbind option_bind].
  destruct (IH w1 (n_wf _ _ _ N1) Hnd) as (w2 & -> & N2 & Hn).
  { apply Forall_forall. intros [v q] Hv. rewrite Forall_forall in Hl. destruct (Hl _ Hv) as [Hq Hoffq].
    assert (v <> u) by (intros ->; apply Hu; apply list_elem_of_fmap; by exists (u, q)).
    assert (nodes (client w1) !! v = Some q) as Hv1 by (rewrite Hd, lookup_delete_ne; done). split; [done|]. by destruct (Hsame v q Hv1) as [_ ->]. }
  cbn. eexists. split; [f_equal; f_equal; lia|]. split; [by eapply narrows_trans|]. intros v. rewrite Hn, Hd. destruct (decide (v = u)) as [ -> |Hne].
  - rewrite (decide_True (P := u ∈ u :: l.*1)) by (by left). rewrite lookup_delete_eq. by case_decide.
  - rewrite lookup_delete_ne by done. apply decide_ext. rewrite elem_of_cons. tauto.
Qed.

(** A sweep removes exactly the nodes that have been offline for long enough. *)
Lemma sweep_ok walk now keep ignoreRetry ignoreGrace w : wf w -> (forall m, walk m ≡ₚ map_to_list m) ->
  exists k w', removeOfflineNodes walk now keep ignoreRetry ignoreGrace w = Some (k, w') /\ narrows now w w' /\
    (forall u p, nodes (client w') !! u = Some p <-> nodes (client w) !! u = Some p /\
      (ignoreRetry = false /\ ignoreGrace = false /\ InConnectGraceWindow now connectGraceProtectWindow (client w) = true \/ doomed now keep ignoreRetry w u p = false)).
Proof.
  intros Hw Hwalk. unfold removeOfflineNodes. pose proof (turned_narrows now w w Hw (proj1 Hw) (turned_refl w)) as N0. destruct (Z.eqb_spec (Pool.len (nodeList (client w))) 0) as [E|_].
  { exists 0, w. split; [done|]. split; [done|]. intros u p. split; [|tauto]. intros Hu. assert (u ∈ Pool.members (nodeList (client w))) as Hm by (apply member_node; [apply Hw|eauto]).
    rewrite Pool.members_empty in Hm by done. set_solver. }
  destruct (negb ignoreRetry && negb ignoreGrace && _) eqn:Eg.
  { exists 0, w. split; [done|]. split; [done|]. intros u p. destruct ignoreRetry, ignoreGrace; try done. cbn in Eg. rewrite Eg. tauto. }
  assert (Hin : forall u p, (u, p) ∈ walk (nodes (client w)) <-> nodes (client w) !! u = Some p) by (intros u p; by rewrite Hwalk, elem_of_map_to_list).
  assert (NoDup (walk (nodes (client w))).*1) as Hnd1 by (rewrite Hwalk; apply NoDup_fst_map_to_list).
  assert (NoDup (walk (nodes (client w)))) as Hnd0 by by apply NoDup_fmap_1 in Hnd1.
  destruct (collect_ok now keep ignoreRetry (walk (nodes (client w))) w) as (w1 & -> & S).
  { apply NoDup_fmap_2_strong; [|done]. intros [u p] [v q] Hu Hv E. cbn in E. subst q. f_equal. apply (reg_pointers w u v p (proj1 Hw)); by apply Hin. }
  { apply Forall_forall. intros [u p] Hu%Hin. destruct (r_names _ (proj1 Hw) u p Hu) as ([_ ?] & n & Hn & _). by split; [|eexists]. }
  set (l := filter _ _). pose proof (struck_narrows now w w1 Hw S) as N1.
  assert (Hlin : forall u p, (u, p) ∈ l <-> nodes (client w) !! u = Some p /\ doomed now keep ignoreRetry w u p = true) by (intros u p; unfold l; rewrite list_elem_of_filter, Hin; tauto).
  destruct (remove_each_ok now l w1 (n_wf _ _ _ N1)) as (w2 & -> & N2 & Hn).
  { eapply sublist_NoDup; [exact Hnd1|]. apply fmap_sublist, sublist_filter. }
  { apply Forall_forall. intros [u p] [Hu Hdm]%Hlin. destruct S as (Hc & S'). rewrite Hc. split; [done|]. rewrite (struck_offline w w1); [|by split]. by eapply doomed_offline. }
  eexists _, _. split; [done|]. split; [by eapply narrows_trans|]. intros u p. rewrite Hn. destruct S as (-> & _).
  destruct (decide (u ∈ l.*1)) as [Hu|Hu].
  - apply list_elem_of_fmap in Hu as ([v q] & -> & [Hv Hq]%Hlin). cbn. split; [done|]. intros [Hp Hx]. rewrite Hp in Hv. injection Hv as ->. destruct Hx as [(-> & -> & Hg)|Hx]; [by rewrite Hg in Eg|congruence].
  - split; [|tauto]. intros Hp. split; [done|]. right. destruct (doomed _ _ _ _ _ _) eqn:Ed; [|done]. exfalso. apply Hu, list_elem_of_fmap. exists (u, p). split; [done|]. by apply Hlin.
Qed.

Lemma add_route_ok current u : good_name u -> (forall r, current = Some r -> route_ok r) ->
  (addFileOwnerToRoute current u).2 = true ->
  route_ok (addFileOwnerToRoute current u).1 /\ (forall v, v ∈ owners (addFileOwnerToRoute current u).1 <-> v = u \/ exists r, current = Some r /\ v ∈ owners r).
Proof.
  intros Hu Hr. destruct current as [r|]; [specialize (Hr r eq_refl)|intros _; split; [done|]; intros v; cbn; rewrite list_elem_of_singleton; naive_solver].
  destruct r as [c|p]; cbn in *.
  - destruct Hr as [Ht Hn]. rewrite Ht, bool_decide_eq_false_2 by done. case_bool_decide as E; [done|]. intros _. cbn [fst owners route_ok].
    destruct (pool_set_ok c newRuntimeOwnerPool new_pool_ok (conj Ht Hn) ltac:(apply not_elem_of_nil)) as [H1 O1].
    assert (u ∉ order (pool_set c c newRuntimeOwnerPool)) as Hni by (rewrite O1; cbn; rewrite list_elem_of_singleton; done).
    destruct (pool_set_ok u _ H1 Hu Hni) as [H2 O2]. split; [split; [done|by rewrite O2, O1]|]. intros v. rewrite O2, O1. cbn [app order newRuntimeOwnerPool]. rewrite !elem_of_cons, elem_of_nil.
    split; [intros [-> |[-> |[]]]; [right; exists (One c); by split; [|left]|by left]|intros [-> |(r & [= <-] & ->%list_elem_of_singleton)]; [by right; left|by left]].
  - destruct Hr as [Hp Hne]. destruct (pool_has u p) eqn:E; [done|]. intros _. cbn [fst owners route_ok].
    assert (u ∉ order p) as Hni. { unfold pool_has in E. rewrite bool_decide_eq_false_2 in E by apply Hu. intros Hin. apply (p_entries _ Hp) in Hin. by rewrite bool_decide_eq_true_2 in E. }
    destruct (pool_set_ok u p Hp Hu Hni) as [H2 O2]. rewrite O2. split; [split; [done|]; by destruct (order p)|]. intros v. rewrite elem_of_app, list_elem_of_singleton. split.
    + intros [Hv|Hv]; [right; by exists (Many p)|by left].
    + intros [Hv|(r & [= <-] & Hv)]; [by right|by left].
Qed.

Lemma add_file_ok now key uuid w : wf w -> good_name key -> narrows now w (AddFileOwner key uuid w).2.
Proof.
  intros Hw Hk. pose proof (turned_narrows now w w Hw (proj1 Hw) (turned_refl w)) as N0. unfold AddFileOwner. destruct (lookupNodeByUUID (TrimSpace uuid) w) as [p|] eqn:E; [|done].
  assert (exists u, TrimSpace uuid = u /\ good_name u /\ is_Some (nodes (client w) !! u)) as (u & -> & Hu & Hreg).
  { unfold lookupNodeByUUID in E. case_bool_decide as E0; [done|]. pose proof (node_name w _ (proj1 Hw) ltac:(by eexists)) as Hx. exists (TrimSpace (TrimSpace uuid)).
    assert (TrimSpace (TrimSpace uuid) = TrimSpace uuid) as Hi by apply TrimSpace_idem. split; [congruence|]. split; [done|]. by eexists. }
  rewrite bool_decide_eq_false_2 by apply Hk. destruct (proj1 (proj2 Hw)) as [Hf Hi].
  pose proof (add_route_ok (files (client w) !! key) u Hu (fun r Hr => proj2 (Hf key r Hr))) as Hadd. destruct (addFileOwnerToRoute _ u) as [r added]. cbn [fst snd] in *.
  destruct added; cbn [negb snd]; [|done]. destruct (Hadd eq_refl) as [Hr Hown]. apply files_narrow; [done|split|].
  - cbn. by apply map_Forall_insert_2.
  - intros v key'. cbn [files fileOwnerKeys set_files]. unfold trackFileRouteOwnersLocked. rewrite bool_decide_eq_false_2 by apply Hk. rewrite route_owner_uuids by done.
    rewrite track_all by (done || by apply route_names). rewrite (Hi v key'). destruct (decide (key' = key)) as [ -> |Hne].
    + rewrite lookup_insert_eq. split; [intros [[Hv _]|Hv]; exists r; (split; [done|]); [done|by apply Hown; right]|]. intros (? & [= <-] & Hv). by left.
    + rewrite lookup_insert_ne by done. naive_solver.
  - intros key' r' v Hr' Hv. destruct (decide (key' = key)) as [ -> |Hne].
    + rewrite lookup_insert_eq in Hr'. injection Hr' as <-. apply Hown in Hv as [-> |(r0 & Hr0 & Hv)]; [done|]. by eapply (proj2 (proj2 Hw)).
    + rewrite lookup_insert_ne in Hr' by done. by eapply (proj2 (proj2 Hw)).
Qed.

Lemma remove_file_ok now key w : wf w -> narrows now w (RemoveFile key w).
Proof.
  intros Hw. pose proof (turned_narrows now w w Hw (proj1 Hw) (turned_refl w)) as N0. unfold RemoveFile. case_bool_decide as E; [done|].
  destruct (files (client w) !! key) as [r|] eqn:Er; [|done]. destruct (proj1 (proj2 Hw)) as [Hf Hi]. destruct (Hf key r Er) as [Hk Hr]. apply files_narrow; [done|split|].
  - cbn. by apply map_Forall_delete.
  - intros v key'. cbn [files fileOwnerKeys set_files]. unfold untrackFileRouteOwnersLocked. rewrite bool_decide_eq_false_2 by done. rewrite route_owner_uuids by done.
    rewrite untrack_all by (done || by apply route_names). rewrite (Hi v key'). destruct (decide (key' = key)) as [ -> |Hne].
    + rewrite lookup_delete_eq, Er. split; [intros [Hn (? & [= <-] & Hv)]; by destruct Hn|by intros (? & ? & _)].
    + rewrite lookup_delete_ne by done. naive_solver.
  - intros key' r' v [_ Hr']%lookup_delete_Some Hv. by eapply (proj2 (proj2 Hw)).
Qed.

(** ** A client in use *)

(** A node that connects: it is put on the heap and added to the client. *)
Definition join (now p : Z) (n : Node) w : option world := AddNode now p (mkWorld (client w) (<[p := n]> (heap w)) (closed w)).

(** A connection breaks. *)
Definition lose (c : Z) w : world := mkWorld (client w) (heap w) ({[c]} ∪ closed w).

Definition hang_up (uuid : string) (s : option Z) w : world :=
  match lookupNodeByUUID uuid w with Some p => (CloseIfSignalCurrent p s w).2 | None => w end.

Definition ping walk (now : Z) (mode : SelectMode) w : option world :=
  '(h, w) ← collectPingHealth walk (rounds w) now mode w;
  Some (match h with PingHealthy => resetPingRetry w | _ => (notePingUnavailable w).2 end).

Inductive op :=
  | Join (now p : Z) (n : Node) | Lose (c : Z) | HangUp (uuid : string) (s : option Z) | Get (now : Z) (mode : SelectMode) | Check (now : Z) (mode : SelectMode)
  | GetFile (now : Z) (key : string) | AddFile (key uuid : string) | DropOwner (key uuid : string) | DropFile (key : string)
  | Sweep (now : Z) (keepUUID : string) (ignoreNodeRetry ignoreClientGrace : bool) | Ping (now : Z) (mode : SelectMode) | CloseClient.

Section Use.
Context (walk : gmap string Z -> list (string * Z)) (walk_all : forall m, walk m ≡ₚ map_to_list m).

Definition step (o : op) w : option world :=
  match o with
  | Join now p n => join now p n w
  | Lose c => Some (lose c w)
  | HangUp uuid s => Some (hang_up uuid s w)
  | Get now mode => snd <$> GetNode (rounds w) now mode w
  | Check now mode => snd <$> CheckNode (rounds w) now mode w
  | GetFile now key => snd <$> GetNodeByFile now key w
  | AddFile key uuid => Some (AddFileOwner key uuid w).2
  | DropOwner key uuid => Some (RemoveFileOwner key uuid w).2
  | DropFile key => Some (RemoveFile key w)
  | Sweep now keep ignoreRetry ignoreGrace => snd <$> removeOfflineNodes walk now keep ignoreRetry ignoreGrace w
  | Ping now mode => ping walk now mode w
  | CloseClient => Some (Close walk w)
  end.

(** A node that connects is new, has a name and connections of its own, and there is room
    for it; file keys and owners have no spaces around them. *)
Definition valid (o : op) w : Prop :=
  match o with
  | Join _ p n => heap w !! p = None /\ good_name (UUID n) /\ Pool.len (nodeList (client w)) < 2 ^ 63 - 1 /\
      (forall q m x, heap w !! q = Some m -> holds n x -> ~ holds m x)
  | AddFile key uuid | DropOwner key uuid => good_name key /\ good_name uuid
  | _ => True
  end.

Inductive reachable : world -> Prop :=
  | reach_new now id p n h cs w : h !! p = Some n -> good_name (UUID n) -> NewClient now id p h cs = Some w -> reachable w
  | reach_step o w w' : reachable w -> valid o w -> step o w = Some w' -> reachable w'.

Lemma new_client_wf now id p n h cs w : h !! p = Some n -> good_name (UUID n) -> NewClient now id p h cs = Some w -> wf w.
Proof.
  intros Hp Hn. unfold NewClient. rewrite Hp. cbn. intros [= <-]. destruct (Pool.add_ok (UUID n) Pool.New Pool.pool_wf_New) as (Hw & Hm & Hl). split; [|split].
  - split; cbn.
    + exact Hw.
    + unfold Pool.len in *. cbn in Hl. lia.
    + rewrite Hm, dom_singleton_L. unfold Pool.members. cbn. set_solver.
    + apply map_Forall_singleton. split; [done|]. eexists. by rewrite lookup_insert_eq.
    + right. rewrite lookup_singleton_eq. by eexists.
    + intros u v p1 q1 n1 m1 x [<- _]%lookup_singleton_Some [<- _]%lookup_singleton_Some. done.
  - split; [apply map_Forall_empty|]. intros u key. cbn. rewrite !lookup_empty. cbn. split; [set_solver|by intros (? & ? & _)].
  - intros key r u. cbn. by rewrite lookup_empty.
Qed.

(** A registered node gets other connections. *)
Lemma reg_heap w u p m cs : wf w -> nodes (client w) !! u = Some p -> UUID m = u ->
  (forall x, holds m x -> forall v q n, nodes (client w) !! v = Some q -> v <> u -> heap w !! q = Some n -> ~ holds n x) -> wf (set_node p m cs w).
Proof.
  intros ([H1 H2 H3 H4 H5 H6] & Hf) Hu Hm Hx. assert (H : reg_ok w) by by split. split; [|done]. split; cbn; try done.
  - intros v q Hv. destruct (H4 v q Hv) as (Hg & n & Hn & HU). split; [done|]. destruct (decide (p = q)) as [ <- |Hne].
    + exists m. rewrite lookup_insert_eq. split; [done|]. rewrite Hm. by apply (reg_pointers w u v p H).
    + exists n. by rewrite lookup_insert_ne.
  - assert (Hother : forall v q, nodes (client w) !! v = Some q -> v <> u -> p <> q) by (intros v q Hv Hne ->; apply Hne; exact (reg_pointers w v u q H Hv Hu)).
    intros a b p1 q1 n1 m1 x Ha Hb Hne. destruct (decide (a = u)) as [ -> |Ea], (decide (b = u)) as [ -> |Eb]; [done|..].
    + rewrite Hu in Ha. injection Ha as <-. rewrite lookup_insert_eq, lookup_insert_ne by by eapply Hother. intros [= <-] Hm1 Hx1. by eapply Hx.
    + rewrite Hu in Hb. injection Hb as <-. rewrite lookup_insert_eq, lookup_insert_ne by by eapply Hother. intros Hn1 [= <-] Hx1 Hx2. by eapply Hx.
    + rewrite !lookup_insert_ne by by eapply Hother. by apply (H6 a b).
Qed.

(** The heap may grow, and connections may close. *)
Lemma wf_frame w h cs : wf w -> (forall u p, nodes (client w) !! u = Some p -> h !! p = heap w !! p) -> wf (mkWorld (client w) h cs).
Proof.
  intros ([H1 H2 H3 H4 H5 H6] & Hf) Hh. split; [|done]. split; cbn; try done.
  - intros u p Hu. rewrite (Hh u p Hu). by apply H4.
  - intros u v p q n m x Hu Hv. rewrite (Hh u p Hu), (Hh v q Hv). by apply H6.
Qed.

Lemma merged_holds now n cs e x : holds (node_AddNode now n cs e).1 x -> holds n x \/ holds e x.
Proof.
  unfold node_AddNode, addSignal, addTunnel, holds. destruct (signal n) as [s|], (tunnel n) as [t|]; cbn; try case_bool_decide; cbn; intuition congruence.
Qed.

Lemma merged_uuid now n cs e : UUID (node_AddNode now n cs e).1 = UUID e.
Proof. unfold node_AddNode, addSignal, addTunnel. destruct (signal n), (tunnel n); cbn; try case_bool_decide; done. Qed.

Lemma wf_set_last w u : wf w -> is_Some (nodes (client w) !! u) -> wf (setCurrentNodeUUID u w).
Proof. intros (H & Hf) Hu. split; [apply set_last_ok; auto|done]. Qed.

Lemma join_wf now p n w : wf w -> valid (Join now p n) w -> exists w', join now p n w = Some w' /\ wf w'.
Proof.
  intros Hw (Hp & Hn & Hlen & Hx). pose proof (proj1 Hw) as H.
  assert (Hother : forall u q, nodes (client w) !! u = Some q -> p <> q) by (intros u q Hu ->; apply (r_names _ H) in Hu as (_ & ? & ? & _); congruence).
  set (w1 := mkWorld (client w) (<[p := n]> (heap w)) (closed w)).
  assert (wf w1) as Hw1 by (apply wf_frame; [done|]; intros u q Hu; rewrite lookup_insert_ne; [done|by eapply Hother]).
  unfold join, AddNode, node_at. cbn [heap client]. rewrite lookup_insert_eq. cbn [mbind option_bind].
  destruct (nodes (client w) !! UUID n) as [q|] eqn:Eq.
  - destruct (r_names _ H _ _ Eq) as (_ & e & He & HU). rewrite lookup_insert_ne, He by by eapply Hother. cbn [mbind option_bind closed].
    destruct (isOnline (closed w) e && _).
    + eexists. split; [done|]. unfold node_Close, node_at. cbn. rewrite lookup_insert_eq. apply (wf_frame w1); [done|]. intros u r Hu. cbn. by rewrite lookup_insert_ne by by eapply Hother.
    + destruct (node_AddNode now n (closed w) e) as [m cs] eqn:Em. pose proof (merged_uuid now n (closed w) e) as Hm. pose proof (merged_holds now n (closed w) e) as Hh. rewrite Em in Hm, Hh. cbn in Hm, Hh.
      eexists. split; [done|]. apply wf_set_last; [|by eexists]. apply (reg_heap w1 (UUID n)); [done|done|congruence|].
      intros x Hmx v r k Hv Hne Hk. cbn in Hk. rewrite lookup_insert_ne in Hk by by eapply Hother. destruct (Hh x Hmx) as [Hnx|Hex]; [by apply (Hx r k x)|].
      exact (r_apart w H (UUID n) v q r e k x Eq Hv (not_eq_sym Hne) He Hk Hex).
  - eexists. split; [done|]. destruct Hw as (_ & Hf & Ho). destruct (Pool.add_ok (UUID n) _ (r_pool _ H)) as (Hwp & Hm & Hl). split; [|split; [done|]].
    + destruct H as [H1 H2 H3 H4 H5 H6]. split; cbn.
      * done.
      * lia.
      * by rewrite Hm, H3, dom_insert_L.
      * rewrite insert_insert_eq. apply map_Forall_insert_2; [split; [done|]; eexists; by rewrite lookup_insert_eq|]. intros u q Hu. rewrite lookup_insert_ne by by eapply Hother. by apply H4.
      * right. rewrite lookup_insert_eq. by eexists.
      * rewrite insert_insert_eq. intros u v p1 q1 n1 m1 x Hu Hv Hne. apply lookup_insert_Some in Hu as [[<- <-]|[_ Hu]], Hv as [[<- <-]|[_ Hv]]; [done|..].
        -- rewrite lookup_insert_eq, lookup_insert_ne by by eapply Hother. intros [= <-] Hm1 Hx1. exact (Hx q1 m1 x Hm1 Hx1).
        -- rewrite lookup_insert_eq, lookup_insert_ne by by eapply Hother. intros Hn1 [= <-] Hx1 Hx2. exact (Hx p1 n1 x Hn1 Hx2 Hx1).
        -- rewrite !lookup_insert_ne by by eapply Hother. by apply (H6 u v).
    + intros key r u Hr Hu. cbn. destruct (Ho key r u Hr Hu) as [q Hq]. rewrite lookup_insert_ne; [by eexists|]. intros <-. congruence.
Qed.

Lemma close_wf w : wf w -> wf (Close walk w).
Proof.
  intros Hw. unfold Close. destruct (closed_ (client w)); [done|]. cbn [Pool.Clear]. set (c' := mkClient _ _ _ _ _ _ _ _ _).
  assert (forall (l : list (string * Z)) w0, client w0 = c' -> client (foldl (fun w '(_, p) => node_Close p w) w0 l) = c') as Hc.
  { intros l. induction l as [|[u p] l IH]; intros w0 E; cbn; [done|]. apply IH. unfold node_Close. destruct (node_at w0 p); [|done]. exact E. }
  set (w' := foldl _ _ _). assert (client w' = c') as E by by apply Hc. destruct w' as [cl h cs]. cbn in E. subst cl. split; [|split].
  - split; cbn; try done.
    + split; [|cbn; lia]. intros v i. cbn. rewrite lookup_empty. unfold Pool.at_. destruct (i <? 0); [done|]. by rewrite lookup_nil.
    + by left.
  - split; [apply map_Forall_empty|]. intros u key. cbn. rewrite !lookup_empty. cbn. split; [set_solver|by intros (? & ? & _)].
  - intros key r u. cbn. by rewrite lookup_empty.
Qed.

Lemma hang_up_wf u s w : wf w -> wf (hang_up u s w).
Proof.
  intros Hw. unfold hang_up. destruct (lookupNodeByUUID u w) as [p|] eqn:E; [|done]. unfold lookupNodeByUUID in E. case_bool_decide as E0; [done|].
  unfold CloseIfSignalCurrent, node_Close, node_at. destruct (r_names _ (proj1 Hw) _ _ E) as (_ & n & Hn & HU). rewrite Hn. case_bool_decide; cbn [snd]; [|done].
  cbn. eapply reg_heap; [done|exact E|exact HU|]. by intros x [?|?].
Qed.

Lemma get_node_ok now mode fuel w : wf w -> (rounds w <= fuel)%nat ->
  exists r w', GetNode fuel now mode w = Some (r, w') /\ narrows now w w' /\
    match r with Some p => serves w' (LastUUID (client w')) p | None => (forall v q, ~ serves w v q) \/ in_grace now w end.
Proof.
  intros Hw Hf. unfold GetNode. assert (exists n w1, nextNodeUUIDByMode mode w = Some (n, w1) /\ narrows now w (setCurrentNodeUUID n w1) /\ rounds (setCurrentNodeUUID n w1) = rounds w) as (n & w1 & E & N1 & Er).
  { destruct (next_node_ok mode w (proj1 Hw)) as (n & w1 & E & H1 & T1 & Hn). exists n, w1. split; [done|]. pose proof (turned_trans _ _ _ T1 (turn_last w1 n)) as T2. split.
    - apply turned_narrows; [done| |done]. apply set_last_ok; [done|]. rewrite (t_nodes _ _ T1). destruct Hn as [[_ ?]|[_ ?]]; [by left|by right].
    - unfold rounds. by rewrite (t_plist _ _ T2). }
  destruct (check_node_ok now mode fuel _ (n_wf _ _ _ N1) ltac:(lia)) as (r & w2 & E2 & N2 & Hr).
  assert (Hgo : exists r w', CheckNode fuel now mode (setCurrentNodeUUID n w1) = Some (r, w') /\ narrows now w w' /\
    match r with Some p => serves w' (LastUUID (client w')) p | None => (forall v q, ~ serves w v q) \/ in_grace now w end).
  { exists r, w2. split; [done|]. split; [by eapply narrows_trans|]. destruct r; [done|]. by eapply narrows_none. }
  destruct mode; [by apply check_node_ok|rewrite E; exact Hgo..].
Qed.

Lemma set_ping_wf k w : wf w -> wf (set_client (set_ping k (client w)) w).
Proof. intros ([] & Hf & Ho). by split; [split|split]. Qed.

Lemma ping_wf now mode w : wf w -> exists w', ping walk now mode w = Some w' /\ wf w'.
Proof using walk_all.
  intros Hw. unfold ping, collectPingHealth, RemoveOfflineNodes. destruct (sweep_ok walk now "" false false w Hw walk_all) as (k & w1 & -> & N1 & _). cbn [mbind option_bind].
  destruct (Pool.len (nodeList (client w1)) =? 0); [eexists; split; [done|]; exact (set_ping_wf _ _ (n_wf _ _ _ N1))|].
  assert (rounds w1 <= rounds w)%nat as Hr.
  { unfold rounds. rewrite <- (pool_size w (proj1 Hw)), <- (pool_size w1 (proj1 (n_wf _ _ _ N1))). pose proof (map_subseteq_size _ _ (n_nodes _ _ _ N1)). lia. }
  destruct (check_node_ok now mode (rounds w) w1 (n_wf _ _ _ N1) Hr) as (r & w2 & -> & N2 & _). cbn [mbind option_bind]. eexists. split; [done|].
  destruct r; exact (set_ping_wf _ _ (n_wf _ _ _ N2)).
Qed.

Lemma step_wf o w : wf w -> valid o w -> exists w', step o w = Some w' /\ wf w'.
Proof using walk_all.
  intros Hw Hv. destruct o as [now p n|c|u s|now mode|now mode|now key|key u|key u|key|now keep ir ig|now mode|]; cbn [step].
  - by apply join_wf.
  - eexists. split; [done|]. by apply wf_frame.
  - eexists. split; [done|]. by apply hang_up_wf.
  - destruct (get_node_ok now mode (rounds w) w Hw ltac:(lia)) as (r & w' & -> & N & _). eexists. split; [done|]. exact (n_wf _ _ _ N).
  - destruct (check_node_ok now mode (rounds w) w Hw ltac:(lia)) as (r & w' & -> & N & _). eexists. split; [done|]. exact (n_wf _ _ _ N).
  - destruct (files (client w) !! key) as [r|] eqn:Er.
    + destruct (node_by_file_ok now key r w Hw Er) as (res & w' & -> & N & _). eexists. split; [done|]. exact (n_wf _ _ _ N).
    + exists w. split; [|done]. unfold GetNodeByFile. rewrite Er. by case_bool_decide.
  - eexists. split; [done|]. exact (n_wf _ _ _ (add_file_ok 0 key u w Hw (proj1 Hv))).
  - destruct (removeFileOwner_ok 0 key u w Hw (proj1 Hv) (proj2 Hv)) as (b & w' & E & N & _). unfold RemoveFileOwner. rewrite E. eexists. split; [done|]. exact (n_wf _ _ _ N).
  - eexists. split; [done|]. exact (n_wf _ _ _ (remove_file_ok 0 key w Hw)).
  - destruct (sweep_ok walk now keep ir ig w Hw walk_all) as (k & w' & -> & N & _). eexists. split; [done|]. exact (n_wf _ _ _ N).
  - by apply ping_wf.
  - eexists. split; [done|]. by apply close_wf.
Qed.

Lemma reachable_wf w : reachable w -> wf w.
Proof using walk_all.
  induction 1 as [now id p n h cs w Hp Hn E|o w w' _ IH Hv E]; [by eapply new_client_wf|]. destruct (step_wf o w IH Hv) as (w'' & E' & H'). congruence.
Qed.
End Use.

(** ** Theorems *)




(** ** Examples *)

Definition good_name_b (u : string) : bool := bool_decide (TrimSpace u = u) && bool_decide (u <> "").
Definition shares (n m : Node) : bool :=
  existsb (fun x => existsb (fun y => bool_decide (x = y)) (omap id [signal m; tunnel m])) (omap id [signal n; tunnel n]).
Definition valid_b (o : op) w : bool :=
  match o with
  | Join _ p n => bool_decide (heap w !! p = None) && good_name_b (UUID n) && (Pool.len (nodeList (client w)) <? 2 ^ 63 - 1) &&
      forallb (fun '(_, m) => negb (shares n m)) (map_to_list (heap w))
  | AddFile key uuid | DropOwner key uuid => good_name_b key && good_name_b uuid
  | _ => true
  end.

Lemma good_name_ok u : good_name_b u = true -> good_name u.
Proof. intros [E1 E2]%andb_true_iff. by apply bool_decide_eq_true in E1, E2. Qed.

Lemma holds_list n x : holds n x <-> x ∈ omap id [signal n; tunnel n].
Proof. unfold holds. destruct (signal n), (tunnel n); cbn; rewrite ?elem_of_cons, ?elem_of_nil; naive_solver. Qed.

Lemma shares_ok n m x : shares n m = false -> holds n x -> ~ holds m x.
Proof.
  intros E Hn%holds_list Hm%holds_list. cut (shares n m = true); [congruence|]. unfold shares. apply existsb_exists. exists x.
  split; [by apply list_elem_of_In|]. apply existsb_exists. exists x. split; [by apply list_elem_of_In|]. by apply bool_decide_eq_true.
Qed.

Lemma valid_ok o w : valid_b o w = true -> valid o w.
Proof.
  destruct o; try done; cbn [valid_b valid]; [|intros [? ?]%andb_true_iff; split; by apply good_name_ok..].
  intros [[[Hp%bool_decide_eq_true Hn%good_name_ok]%andb_true_iff Hl%Z.ltb_lt]%andb_true_iff Hf]%andb_true_iff. split; [done|]. split; [done|]. split; [done|].
  intros q m x Hq. apply shares_ok. rewrite forallb_forall in Hf. specialize (Hf (q, m)). rewrite <- list_elem_of_In, elem_of_map_to_list in Hf.
  specialize (Hf Hq). by destruct (shares _ m).
Qed.

(** The operations, each of which has to be valid where it runs. *)
Fixpoint run (ops : list op) w : option world :=
  match ops with
  | [] => Some w
  | o :: ops => if valid_b o w then w ← step map_to_list o w; run ops w else None
  end.

Lemma run_reachable ops : forall w w', reachable map_to_list w -> run ops w = Some w' -> reachable map_to_list w'.
Proof.
  induction ops as [|o ops IH]; intros w w' Hw; cbn; [congruence|]. destruct (valid_b o w) eqn:E; [|done]. destruct (step map_to_list o w) as [w1|] eqn:E1; [|done]. cbn.
  apply IH. eapply reach_step; [exact Hw|by apply valid_ok|done].
Qed.

Definition ex_node (u : string) (c : Z) : Node := mkNode u "0.30" 6 (Some c) (Some (c + 1)) 0 0 None.
Definition ex_start : world := default (mkWorld (mkClient 0 "" Pool.New ∅ ∅ ∅ 0 0 false) ∅ ∅) (NewClient 1 7 1 {[1 := ex_node "a" 10]} ∅).
Definition ex_world (ops : list op) : world := default ex_start (run ops ex_start).

Lemma ex_start_reachable : reachable map_to_list ex_start.
Proof. apply (reach_new map_to_list 1 7 1 (ex_node "a" 10) {[1 := ex_node "a" 10]} ∅); [done|by apply good_name_ok|vm_compute; done]. Qed.

Lemma ex_world_reachable ops : reachable map_to_list (ex_world ops).
Proof. unfold ex_world. destruct (run ops ex_start) as [w|] eqn:E; [exact (run_reachable ops _ _ ex_start_reachable E)|exact ex_start_reachable]. Qed.

(** Three nodes, the first and the last of which lost their connections; all share a file. *)
Definition ex_ops : list op :=
  [Join 5 2 (ex_node "c" 20); Join 6 3 (ex_node "b" 30); AddFile "f" "a"; AddFile "f" "b"; AddFile "f" "c"; Lose 10; Lose 31].




(** The search spins when the current node is neither registered nor in the pool: nothing in
    the loop changes the current node then. *)
Lemma stale_current_spins now mode w u : LastUUID (client w) = u -> good_name u -> nodes (client w) !! u = None -> Pool.Has u (nodeList (client w)) = false ->
  forall fuel left_, check_loop fuel now mode left_ w = None.
Proof.
  intros Hl [Ht Hn] Hu Hp. induction fuel as [|fuel IH]; intros left_; [done|]. cbn [check_loop].
  unfold currentOrNextNodeUUID. rewrite Hl, (bool_decide_eq_false_2 (u = "")) by done. cbn [negb mbind option_bind]. rewrite (bool_decide_eq_false_2 (u = "")) by done.
  unfold evaluateNodeCandidate, lookupNodeByUUID. rewrite Ht, (bool_decide_eq_false_2 (u = "")), Hu by done.
  unfold pruneMissingNodeUUID. rewrite (bool_decide_eq_false_2 (u = "")), Hu, Hp by done. cbn [negb]. rewrite bool_decide_eq_false_2 by (by intros []). cbn [mbind option_bind]. apply IH.
Qed.

(** [GetNode] takes the next node of the rotation and makes it the current one in two
    steps.  A sweep that removes the node in between leaves the client with a current node
    that is gone, and the search never ends although another node is available. *)
Definition ex_pair : world := ex_world [Join 5 2 (ex_node "b" 20); Lose 10].
Definition ex_taken : string * world := default ("", ex_pair) (nextNodeUUIDByMode RoundRobin ex_pair).
Definition ex_swept : world := (default (false, ex_pair) (closeAndRemoveNodeIfCurrent "a" 1 ex_taken.2)).2.
Definition ex_stale : world := setCurrentNodeUUID ex_taken.1 ex_swept.

Lemma removal_makes_GetNode_spin : serves ex_stale "b" 2 /\ forall fuel, CheckNode fuel (10 ^ 10) RoundRobin ex_stale = None.
Proof.
  split; [split; vm_compute; done|]. intros fuel. unfold CheckNode.
  assert (Pool.len (nodeList (client ex_stale)) =? 0 = false) as -> by (vm_compute; done). assert (currentNodeIfOnline ex_stale = None) as -> by (vm_compute; done).
  apply (stale_current_spins _ _ _ "a"); [vm_compute; done|apply good_name_ok; vm_compute; done|vm_compute; done|vm_compute; done].
Qed.

(** Within the grace windows the search makes one try for each node, but the rotation may
    come back to a node that was tried before it reaches the one that is available. *)
Definition ex_grace : world := ex_world [Join 5 2 (ex_node "b" 20); Join 6 3 (ex_node "c" 30); Join 7 4 (ex_node "b" 40); Lose 10; Lose 40].

Lemma grace_hides_a_node : serves ex_grace "c" 3 /\ (fst <$> CheckNode (rounds ex_grace) second RoundRobin ex_grace) = Some None.
Proof. split; [split; vm_compute; done|vm_compute; done]. Qed.
